(* ===== verification/_CoqProject ===== *)
-Q . S2P
Prelude.v
Io.v
Protocol.v
ProtocolAsync.v
Timers.v
Broker.v
BrokerProps.v
BrokerTimers.v
BrokerRest.v
BrokerAsync.v
Base64.v
Sha1.v
WsFrame.v
WsStream.v
Upgrade.v
WsAsync.v
Sniff.v
Conn.v
ConnProps.v
ConnAsync.v
Polled.v
Tls.v
TlsProps.v
TlsNull.v
TlsWhole.v
TlsLocks.v
Loops.v
System.v
Socket.v
EndToEnd.v
WsOut.v
LoopsAsync.v
SocketAsync.v
SystemAsync.v
CrossCrate.v
FanOut.v
TlsConfig.v
Lifecycle.v
Agent.v
Demos.v
Twins.v
UnitTests.v
UnitTestsAsync.v
