(* ===== verification/Prelude.v ===== *)
(** * A verification of the aiomsg Rust crates

    aiomsg sockets exchange framed messages with any number of peers over TCP,
    TLS or WebSocket.  The repository has two independent implementations in
    Rust of the protocol of [PROTOCOL.md]: [rust-lib-sync] on threads and
    [rust-lib-async] on tokio.  This library models both and proves each
    against the same specifications.

    ** The parts of the program and where they are modelled

    - [Io]: the traits [Read] and [Write] and their provided methods
      [read_exact] and [write_all], as type classes with the laws callers rely
      on, and [Tcp], a connection given by the transcript of what its peer and
      the kernel do.
    - [Protocol] ([rust-lib-sync/src/protocol.rs]), [ProtocolAsync]
      ([rust-lib-async/src/protocol.rs]): encoders, [decode], [write_frame],
      [read_frame], and the [FrameDecoder] of the synchronous crate.
    - [Timers], [Broker], [BrokerProps] ([rust-lib-sync/src/broker.rs],
      enumerations from [lib.rs]): the resend-timer thread and the broker
      thread.  [Broker.handle] is one turn of [Broker::run]; what it sends on
      channels is a list of effects.  [BrokerTimers] and [BrokerRest] run the
      two threads side by side, joined by their channels ([Node]).
    - [BrokerAsync] ([rust-lib-async/src/broker.rs]): the broker task, whose
      resend deadlines are part of its state.
    - [Base64], [Sha1], [WsFrame], [WsStream], [Upgrade]
      ([rust-lib-sync/src/ws.rs], and the same functions of
      [rust-lib-async/src/ws.rs]; SHA-1 is translated from each): the WebSocket
      transport from base64 to the HTTP upgrade.  [WsStream] is again an instance of [Read] and [Write].
    - [WsAsync], [Sniff] ([rust-lib-async/src/ws.rs]): the poll-based adapter
      and the first-byte sniff.
    - [Conn], [ConnProps] ([rust-lib-sync/src/conn.rs]): sniff, HELLO
      handshake, registration, plain and WebSocket sessions, the registry;
      [WsOut]: the bytes a WebSocket session writes.
    - [Tls], [TlsProps], [TlsNull], [TlsWhole], [TlsLocks] ([tls_session] and what
      it calls in [rust-lib-sync/src/conn.rs]): the reader and the writer thread
      of a TLS session, in turns ([Tls]) and at every point where they block
      ([TlsLocks]); [TlsWhole] joins what a session delivers and what it seals.
      rustls is the class [Connection]; [TlsNull] is an instance with small
      buffers and no encryption.
    - [Loops] ([rust-lib-sync/src/conn.rs]): [accept_loop], [connect_loop],
      [sleep_with_shutdown], [handle_connection].
    - [Socket] ([rust-lib-sync/src/lib.rs]): the builder and the methods of
      [Socket] over the state its clones share, and what any sequence of calls
      comes to.
    - [System]: the broker, its channel, the registry, any number of sessions
      and [Socket::close] as one transition system; [Lifecycle]: [bind],
      [connect] and [close] statement by statement, as other threads may run
      them, against each other and the loops they start.
    - [ConnAsync], [LoopsAsync] ([rust-lib-async/src/conn.rs], [Shutdown] of
      [lib.rs]): [handle_connection], the two loops and [sniff_then_handle];
      [Polled]: the stream that comes out of the sniff ([Sniffed] of [ws.rs])
      under tokio's [AsyncReadExt] and [AsyncWriteExt], as [handle_connection]
      uses it.
    - [SocketAsync] ([rust-lib-async/src/lib.rs]): the builder and the methods of
      the asynchronous [Socket]; [SystemAsync]: its tasks by the places where
      they wait, with [close] running against them.
    - [EndToEnd]: two synchronous sockets over one plain connection;
      [CrossCrate]: sockets of either crate at either end, in the clear or over
      TLS; [FanOut]: one socket and any number of peers.
    - [TlsConfig], [Agent] ([conformance_agent.rs] in the examples of both
      crates): the programs of the conformance suite on top of the sockets, and
      how they load their TLS configurations; rustls, rustls_pemfile and rcgen
      are the class [Rustls].  [Demos] ([client.rs], [server.rs] and [tls.rs] in
      the examples of both crates): the demonstration programs; the certificate
      generator [gen_test_certs.rs] is in [TlsConfig].
    - [Twins]: the functions and constants that the asynchronous crate and its
      agent hold in a text of their own, beside the synchronous ones.
    - [UnitTests], [UnitTestsAsync] (the [mod tests] of [protocol.rs] and
      [ws.rs] in both crates): the unit tests as booleans over the definitions
      they exercise, with their fixtures.

    A session reads frames from its connection and puts [Received] commands on
    the broker's channel, between a [ConnectionUp] and a [ConnectionDown]; the
    broker answers registrations, puts frames on the outbound channel of each
    session and payloads on the channel of the application, and arms the
    timers, which send it [ResendTimeout].

    ** What the theorems show

    - One socket and its peers: each peer's program receives exactly its share
      of what is sent, everything under PUBLISH and every [n]-th message under
      ROUND_ROBIN ([every_peer_gets_its_share], [publish_share],
      [round_robin_share]), and the acknowledgements settle everything.
    - End to end: what one program sends comes out at the other, once and in
      order, and the acknowledgements that travel back leave nothing pending,
      whichever crate either end is of and whether or not TLS is in between, as
      long as the reads keep to the conditions below ([crates_interwork]; for two synchronous sockets down to the reads and
      writes, [delivered_end_to_end], [acknowledged_end_to_end]); the demo's
      client prints what the demo's server publishes ([server_to_client]), a
      conformance sink what a conformance source was told to send
      ([source_to_sink]), the TLS demo its message ([tls_demo_runs]); the two
      crates' agents do the same, but for a sink with a [--linger] that no
      [Duration] can hold ([agents_agree], [agents_configure_alike]);
      what a program sends to a browser the browser reads frame by frame
      ([delivered_to_browser]).
    - Broker: the connection table, the round-robin order and the buffer agree
      ([run_keeps_links]); message ids are never reused
      ([msg_ids_never_reused]); every message of an at-least-once socket is
      outstanding until it is acknowledged or has used up its retries
      ([at_least_once_conserves], [acked_never_resent]), and one that is never
      acknowledged goes out [1 + MAX_RETRIES] times, to a peer it is addressed to
      ([gives_up_after_max_retries]); routing is fair, complete or exact
      according to the mode ([round_robin_fair], [publish_reaches_all],
      [send_to_identity], [first_peer_gets_buffer]).
    - Timers: the tombstone queue implements a map of running countdowns
      ([timer_iter_refines], [timer_run_fires_once]).  Beside the broker, in any
      interleaving: every pending message has exactly one countdown
      ([every_pending_is_timed]), the two threads come to rest
      ([node_comes_to_rest]) with every message settled or waiting for a peer
      ([all_settled_at_rest]) to be sent again when one connects
      ([survives_reconnect]), and the timer thread ends with the broker
      ([close_ends_timer]).
    - The asynchronous broker refines the synchronous one
      ([async_refines_sync]).
    - Framing: [decode] is the grammar of PROTOCOL.md, encoding is inverted,
      and every reader returns the frames of the byte stream however it is cut
      into reads ([decode_iff_parses], [encode_pop_decode],
      [decoder_reassembles], [read_frame_spec], [crates_interoperate]; the
      asynchronous reader as long as no read goes past a frame's end,
      [read_frame_async_spec]).
    - WebSocket: the parser reads what a client sends and is sound on hostile
      input; both adapters present the concatenated payloads as one stream and
      answer pings and closes ([adapter_presents_stream],
      [async_presents_stream], [client_messages_decode]); a message is one
      frame on the wire ([one_frame_per_write]), also when reader and writer
      share an adapter ([writes_stay_whole]); the upgrade accepts exactly the
      requests it should and loses no byte behind the request
      ([upgrade_verdicts], [handshake_keeps_stream], [sniff_upgrades]); SHA-1
      and base64 of the two crates agree and are inverted, and both write the
      same frames ([crates_write_alike]).
    - Sessions: what reaches the broker is exactly the peer's messages between
      one registration and one report of the end ([sessions_bracket],
      [ws_session_delivers], [plain_session_delivers],
      [async_session_delivers]); what a WebSocket session writes is whole
      frames, the broker's in order, up to a close
      ([ws_session_writes_whole]); a session leaves no trace in the broker
      ([session_leaves_no_trace]); the writer keeps the order
      ([writer_keeps_order]).  [split_frame_misread] shows a defect: a plain
      session drops the part of a frame that arrives with the end of the
      HELLO.
    - TLS: a session delivers the decrypted stream, whatever the limits of
      rustls' buffers and the schedule of its two threads
      ([tls_session_delivers], [tls_sessions_bracket]), and seals its HELLO and
      its mailbox ([tls_session_whole]); what is on the wire is in encryption
      order ([tls_wire_in_order], [records_in_order]); the
      connection lock is never held for long ([conn_lock_is_prompt]) and the
      two locks never deadlock ([locks_never_deadlock]).  A configuration is
      loaded when the files hold what it needs, and the programs that load one
      differ only in how they fail ([from_pem_agrees], [client_config_trusts]).
    - Loops: a connect loop is one session after the other, in both crates
      ([reconnects_one_at_a_time], [async_reconnects_one_at_a_time]); an accept
      loop serves every connection until shutdown ([accepts_until_shutdown],
      [async_serves_until_shutdown]), raw and WebSocket clients alike: what the
      sniff hands on is the raw stream from its first byte or the payload of the
      frames ([sniffed_presents_stream]), and the sessions run on it
      ([async_serves_raw_and_ws]); a shutdown cuts
      the reconnection delay short ([reconnect_delay_bounded]).
    - Socket: what each call answers, what the broker has been handed and which
      loops were started and joined, as functions of the calls before and behind
      the first [close] ([socket_refines]); [close] is final ([close_is_final]);
      the iterators give everything ([messages_give_all]); and the two crates'
      sockets cannot be told apart by the calls they share, unless a connect
      meets an address that does not resolve ([sockets_agree]).
    - The repository's own expectations: every unit test of the wire protocol
      and the WebSocket layer passes in the model ([unit_tests_pass]); the
      fixtures are instances of the general theorems ([client_frame_spec],
      [trickle_reassembles]).
    - The whole socket: the broker's table is the open sessions
      ([table_is_open_sessions]), [close] reaches every registered session and
      completes ([close_reaches_every_session], [close_completes]); it joins
      every loop started before it ([close_joins_loops]), and once its flag is
      up every call returns and every loop ends, joined or not
      ([closing_ends_everything]); a [connect] that overlaps it can leave a
      loop behind that nobody joins ([late_loop_outlives_close]), a defect.  The
      asynchronous [close] completes when no task is in its handshake
      ([async_close_completes]) and otherwise waits for the peer
      ([async_close_waits_for_handshake]), a defect.

    ** Conditions

    Three things that the peer and the kernel decide change what arrives, and the
    theorems on it exclude just these cases.  A plain
    session of the synchronous crate must complete the HELLO with a read that
    ends at a frame boundary ([clean_cut]; [split_frame_misread] is what happens
    otherwise).  [read_frame] of the asynchronous crate must not read past the
    frame it is in: [BytesMut::with_capacity] gives at least the capacity asked
    for, and only a read that uses what is above it does so ([whole_read],
    [unspilled_session]; [spare_capacity_swallows]).  A WebSocket session must
    hear from its peer within [HEARTBEAT_TIMEOUT] of what it last heard
    ([heard_session]).  Deadlines of the handshake are hypotheses on the clock.

    ** Conventions, bounds and fuel

    A [u8] is [Init.Byte.byte]; other machine integers are [Z] with their
    wrap-around written out ([wrap_to], [wrapping_add]); [usize] is 64 bits
    wide.  Indices and lengths of byte vectors are [nat].  A loop whose
    recursion is not structural takes fuel and returns [None] when it runs out;
    the fuel its caller passes is computed from what the transport can still
    give ([read_fuel]) or from a buffer's length, and a lemma named [_total] or
    [_returns] shows that it never runs out.  Time is a clock given as the
    sequence of its readings.  What receiving from a channel gives is a
    transcript.  tokio, rustls and the [bytes] crate are parameters with the
    documented behaviour as laws, instantiated by a concrete pipe, a stream that
    the sniff runs on ([Live]) and a connection that does not encrypt.  Threads and tasks are schedules of turns
    where only their data matters, and a step relation where their
    interleaving does; a bound on the steps of a run is a natural number
    computed from the state ([work], [rank]).

    Each property that has a hypothesis has a witness that applies it to a
    concrete input.

    ** Not modelled

    Logging; the socket options (timeouts, no-delay, blocking mode), whose
    effect is in what a transcript may hold; name resolution and the sockets of
    the operating system; the sleeps of the examples.  The integration tests
    and benchmarks, which run whole sockets against clocks and real
    connections: what they look for is proved for all inputs.
    The ports of the protocol to other languages.  The asynchronous reader and
    writer take turns of a whole frame: between two frames of the one the other
    may run, not within one.  A turn of the broker thread and a
    scan of the timer thread are one step each: what a turn sends to several
    channels is not interleaved with the other thread's sends within it.

    ** This file

    Bytes and machine integers, big-endian encodings, and the lemmas and
    tactics on lists and lengths that the components share. *)

From Stdlib Require Export ZArith Lia.
From Stdlib Require Import Strings.Byte.
From stdpp Require Export base option list gmap strings.

#[export] Set Default Goal Selector "!".

(** ** Bytes ([u8]) *)

Abbreviation byte := Init.Byte.byte.
Abbreviation bytes := (list byte).

#[export] Instance byte_eq_dec : EqDecision byte := Byte.byte_eq_dec.
#[export] Program Instance byte_countable : Countable byte :=
  inj_countable Byte.to_N Byte.of_N _.
Next Obligation. intros b. apply Byte.of_to_N. Qed.

Definition Z_of_byte (b : byte) : Z := Z.of_N (Byte.to_N b).

(** [z as u8]: truncation to the low eight bits. *)
Definition byte_of_Z (z : Z) : byte :=
  default x00 (Byte.of_N (Z.to_N (z mod 256))).

(** ** Machine integers

    Unsigned machine integers are values of [Z] kept in range by the
    operations that wrap; [usize] is the 64-bit one of the supported
    targets. *)

Definition wrap_to (w : Z) (z : Z) : Z := (z mod 2 ^ w)%Z.
Abbreviation as_u16 := (wrap_to 16).
Abbreviation as_u32 := (wrap_to 32).
Abbreviation as_u64 := (wrap_to 64).
Abbreviation as_usize := (wrap_to 64).

(** [a.wrapping_add(b)] at width [w]. *)
Definition wrapping_add (w a b : Z) : Z := wrap_to w (a + b)%Z.

(** The length of a buffer as the machine integer [buf.len()]. *)
Definition zlen {A} (l : list A) : Z := Z.of_nat (length l).
Arguments zlen {A} l : simpl never.

(** ** Big-endian encodings ([to_be_bytes], [from_be_bytes]) *)

Fixpoint to_be_bytes (n : nat) (z : Z) : bytes :=
  match n with
  | O => []
  | S n' => byte_of_Z (z / 256 ^ Z.of_nat n') :: to_be_bytes n' z
  end.

Definition be_step (acc : Z) (b : byte) : Z := (acc * 256 + Z_of_byte b)%Z.

Definition from_be_bytes (l : bytes) : Z := fold_left be_step l 0%Z.

(** [b as char] text literals: the bytes of an ASCII string. *)
Definition str_bytes (s : string) : bytes := String.list_byte_of_string s.

(** ** Generic lemmas: bytes and machine integers *)

Lemma Z_of_byte_range b : (0 <= Z_of_byte b < 256)%Z.
Proof. unfold Z_of_byte. pose proof (Byte.to_N_bounded b). lia. Qed.

Lemma byte_of_Z_of_byte b : byte_of_Z (Z_of_byte b) = b.
Proof.
  unfold byte_of_Z. rewrite Z.mod_small by apply Z_of_byte_range.
  unfold Z_of_byte. by rewrite N2Z.id, Byte.of_to_N.
Qed.

Lemma Z_of_byte_of_Z z : Z_of_byte (byte_of_Z z) = (z mod 256)%Z.
Proof.
  unfold byte_of_Z.
  pose proof (Z.mod_pos_bound z 256 ltac:(lia)) as Hz.
  destruct (Byte.of_N (Z.to_N (z mod 256))) as [b|] eqn:E; simpl.
  - unfold Z_of_byte. apply Byte.to_of_N in E. lia.
  - apply Byte.of_N_None_iff in E. lia.
Qed.

#[export] Instance Z_of_byte_inj : Inj (=) (=) Z_of_byte.
Proof. intros a b H. by rewrite <- (byte_of_Z_of_byte a), H, byte_of_Z_of_byte. Qed.

Lemma wrap_to_range w z : (0 <= w)%Z -> (0 <= wrap_to w z < 2 ^ w)%Z.
Proof. intros. apply Z.mod_pos_bound. lia. Qed.

Lemma wrap_to_small w z : (0 <= z < 2 ^ w)%Z -> wrap_to w z = z.
Proof. intros. by apply Z.mod_small. Qed.

Lemma zlen_nonneg {A} (l : list A) : (0 <= zlen l)%Z.
Proof. unfold zlen. lia. Qed.

Lemma zlen_nil {A} : zlen (@nil A) = 0%Z.
Proof. done. Qed.

Lemma zlen_cons {A} (x : A) l : zlen (x :: l) = (1 + zlen l)%Z.
Proof. unfold zlen. simpl length. lia. Qed.

Lemma zlen_app {A} (l k : list A) : zlen (l ++ k) = (zlen l + zlen k)%Z.
Proof. unfold zlen. rewrite length_app. lia. Qed.

Lemma zlen_pos {A} (l : list A) : l <> [] -> (0 < zlen l)%Z.
Proof. destruct l; [done|]. intros _. rewrite zlen_cons. pose proof (zlen_nonneg l). lia. Qed.

Create HintDb aiomsg.
Create Rewrite HintDb aiomsg_len.
#[export] Hint Resolve Z_of_byte_range wrap_to_range wrap_to_small zlen_nonneg : aiomsg.
#[export] Hint Rewrite @zlen_nil @zlen_cons @zlen_app : aiomsg_len.
#[export] Hint Rewrite @length_app @length_take @length_drop @length_nil
  @length_cons @length_replicate : aiomsg_len.

(** Arithmetic over buffer lengths. *)
Ltac len_solve :=
  unfold zlen in *; autorewrite with aiomsg_len in *; simpl length in *; lia.

(** Split every conditional of the goal on its decision. *)
Ltac case_all :=
  repeat first [ case_decide | case_match | progress simplify_eq ].

Lemma length_to_be_bytes n z : length (to_be_bytes n z) = n.
Proof. induction n; simpl; auto. Qed.
#[export] Hint Rewrite length_to_be_bytes : aiomsg_len.

Lemma from_be_acc l a :
  fold_left be_step l a = (a * 256 ^ zlen l + from_be_bytes l)%Z.
Proof.
  unfold from_be_bytes. revert a. induction l as [|b l IH]; intros a; cbn [fold_left].
  - rewrite zlen_nil. lia.
  - rewrite IH, (IH (be_step 0 b)), zlen_cons, Z.pow_add_r by (unfold zlen; lia).
    unfold be_step. lia.
Qed.

Lemma from_be_cons b l :
  from_be_bytes (b :: l) = (Z_of_byte b * 256 ^ zlen l + from_be_bytes l)%Z.
Proof. unfold from_be_bytes at 1. cbn [fold_left]. rewrite from_be_acc. unfold be_step. lia. Qed.

Lemma from_be_range l : (0 <= from_be_bytes l < 256 ^ zlen l)%Z.
Proof.
  induction l as [|b l IH]; [done|].
  rewrite from_be_cons, zlen_cons, Z.pow_add_r by (unfold zlen; lia).
  pose proof (Z_of_byte_range b). change (256 ^ 1)%Z with 256%Z.
  set (P := (256 ^ zlen l)%Z) in *.
  assert (Z_of_byte b * P <= 255 * P)%Z by (apply Z.mul_le_mono_nonneg_r; lia).
  assert (0 <= Z_of_byte b * P)%Z by (apply Z.mul_nonneg_nonneg; lia). lia.
Qed.

Lemma from_to_be n z : from_be_bytes (to_be_bytes n z) = (z mod 256 ^ Z.of_nat n)%Z.
Proof.
  induction n as [|n IH]; cbn [to_be_bytes].
  - unfold from_be_bytes. simpl. by rewrite Z.mod_1_r.
  - rewrite from_be_cons, IH, Z_of_byte_of_Z.
    unfold zlen. rewrite length_to_be_bytes.
    rewrite Nat2Z.inj_succ, Z.pow_succ_r by lia.
    rewrite (Z.mul_comm 256), Z.rem_mul_r by lia. lia.
Qed.

Lemma from_to_be_small n z :
  (0 <= z < 256 ^ Z.of_nat n)%Z -> from_be_bytes (to_be_bytes n z) = z.
Proof. intros. rewrite from_to_be. by apply Z.mod_small. Qed.

Lemma div_of_mod z a b : (0 < a)%Z -> (0 < b)%Z -> ((z mod (a * b)) / a = (z / a) mod b)%Z.
Proof.
  intros Ha Hb. rewrite Z.rem_mul_r by lia.
  rewrite (Z.mul_comm a), Z.div_add, Z.div_small by auto using Z.mod_pos_bound with lia.
  lia.
Qed.

Lemma to_be_mod n k z :
  (n <= k)%nat -> to_be_bytes n (z mod 256 ^ Z.of_nat k) = to_be_bytes n z.
Proof.
  intros Hk. induction n as [|n IH]; cbn [to_be_bytes]; [done|].
  rewrite IH by lia. f_equal. apply (inj Z_of_byte). rewrite !Z_of_byte_of_Z.
  replace (Z.of_nat k) with (Z.of_nat n + (1 + Z.of_nat (k - n - 1)))%Z by lia.
  rewrite !Z.pow_add_r, div_of_mod by lia.
  rewrite Z.pow_1_r, Z.rem_mul_r, Z.mul_comm by lia.
  by rewrite Z_mod_plus_full, Zmod_mod.
Qed.

Lemma to_from_be l : to_be_bytes (length l) (from_be_bytes l) = l.
Proof.
  induction l as [|b l IH]; [done|].
  simpl length. cbn [to_be_bytes]. pose proof (from_be_range l) as Hl.
  rewrite from_be_cons. unfold zlen in *. f_equal.
  - rewrite Z.div_add_l, (Z.div_small _ _ Hl), Z.add_0_r by lia. apply byte_of_Z_of_byte.
  - rewrite <- (to_be_mod _ (length l)) by lia.
    rewrite Z.add_comm, Z_mod_plus_full, Z.mod_small by done. done.
Qed.

Lemma to_be_bytes_inj n a b :
  (0 <= a < 256 ^ Z.of_nat n)%Z -> (0 <= b < 256 ^ Z.of_nat n)%Z ->
  to_be_bytes n a = to_be_bytes n b -> a = b.
Proof.
  intros Ha Hb E. apply (f_equal from_be_bytes) in E.
  by rewrite !from_to_be_small in E.
Qed.

Arguments to_be_bytes : simpl never.

(** ** Generic lemmas: lists *)

Section Filter.
Context {A : Type} (P Q : A -> Prop).
Context `{HP : !forall x, Decision (P x), HQ : !forall x, Decision (Q x)}.

Lemma filter_none (l : list A) : (forall x, x ∈ l -> ~ P x) -> filter P l = [].
Proof.
  intros Hl. apply elem_of_nil_inv. intros x. rewrite list_elem_of_filter.
  intros [Hx Hx']. by eapply Hl.
Qed.

Lemma filter_all (l : list A) : (forall x, x ∈ l -> P x) -> filter P l = l.
Proof.
  induction l as [|x l IH]; intros Hl; [done|].
  rewrite filter_cons_True by (apply Hl; left). f_equal. apply IH. intros y Hy.
  apply Hl. by right.
Qed.

Lemma filter_ext_in (l : list A) : (forall x, x ∈ l -> P x <-> Q x) -> filter P l = filter Q l.
Proof.
  induction l as [|x l IH]; intros Hl; [done|].
  assert (Hx : P x <-> Q x) by (apply Hl; left).
  rewrite !filter_cons, IH by (intros y Hy; apply Hl; by right).
  destruct (decide (P x)), (decide (Q x)); tauto.
Qed.
End Filter.

Lemma count_nodup `{!EqDecision A} (x : A) l :
  NoDup l -> length (filter (eq x) l) = if decide (x ∈ l) then 1 else 0.
Proof.
  induction 1 as [|y l Hy Hl IH]; [done|]. rewrite filter_cons.
  destruct (decide (x = y)) as [->|Hne].
  - rewrite filter_none by (intros z Hz <-; done).
    destruct (decide (y ∈ y :: l)) as [|Hn]; [done|]. destruct Hn. left.
  - rewrite IH. destruct (decide (x ∈ l)), (decide (x ∈ y :: l)); set_solver.
Qed.

(** Replacing one element changes a sum by the difference. *)
Lemma sum_list_with_insert {A} (f : A -> nat) (l : list A) i x y :
  l !! i = Some x -> sum_list_with f (<[i := y]> l) + f x = sum_list_with f l + f y.
Proof.
  revert i. induction l as [|z l IH]; intros [|i] H; simplify_eq/=; [lia|].
  specialize (IH i H). lia.
Qed.

Lemma sum_list_with_snoc {A} (f : A -> nat) (l : list A) x :
  sum_list_with f (l ++ [x]) = sum_list_with f l + f x.
Proof. rewrite sum_list_with_app. simpl. lia. Qed.
