(* ===== verification/Io.v ===== *)
(** * Io: the part of [std::io] the sources rely on

    The traits [Read] and [Write] become type classes.  A value of an
    instance is the state of one end of a connection; reading and writing
    thread that state.  [ReadLaws]/[WriteLaws] hold what the callers rely on,
    and they are what the clients' theorems assume of a transport; [Tcp] is
    the concrete transport, a finite transcript of what the peer and the
    kernel do, and it discharges them. *)

From S2P Require Import Prelude.

(** ** [io::ErrorKind] and [io::Result]

    The kinds the sources test for or raise; [OtherError] stands for the rest. *)
Inductive ErrorKind :=
| WouldBlock | TimedOut | Interrupted | UnexpectedEof | WriteZero | InvalidData | OtherError.

#[export] Instance ErrorKind_eq_dec : EqDecision ErrorKind.
Proof. solve_decision. Defined.

Inductive io_result (A : Type) :=
| Ok (a : A)
| Err (e : ErrorKind).
Arguments Ok {A} a.
Arguments Err {A} e.

(** The guard [matches!(e.kind(), WouldBlock | TimedOut | Interrupted)] of
    every polling loop. *)
Definition transient (e : ErrorKind) : bool :=
  match e with
  | WouldBlock | TimedOut | Interrupted => true
  | _ => false
  end.

(** ** [Read] *)

(** [read r n] is [r.read(&mut buf)] for a buffer of [n] bytes.  The bytes it
    put at the front of the buffer are the result; [Ok []] is [Ok(0)].
    [read_fuel] bounds the bytes and the failures still to come: it is a
    ghost, used only as fuel by the loops that call [read]. *)
Class Read (R : Type) := {
  read : R -> nat -> R * io_result bytes;
  read_fuel : R -> nat;
}.

Class ReadLaws (R : Type) `{!Read R} := {
  read_fits r n r' bs : read r n = (r', Ok bs) -> length bs <= n;
  read_spends r n r' bs :
    read r n = (r', Ok bs) -> read_fuel r' + length bs <= read_fuel r;
  read_fails r n r' e : read r n = (r', Err e) -> read_fuel r' < read_fuel r;
}.

Lemma read_decreases {R} `{ReadLaws R} r n r' res :
  read r n = (r', res) -> res <> Ok [] -> read_fuel r' < read_fuel r.
Proof.
  intros E Hres. destruct res as [[|b bs]|e]; [done| |by eapply read_fails].
  apply read_spends in E. simpl in E. lia.
Qed.

Section ReadExact.
Context {R : Type} `{!Read R}.

(** [Read::read_exact] (the provided method): read until [n] bytes arrived,
    retrying an interrupted read; [Ok(0)] before that is [UnexpectedEof].
    [None] is fuel exhaustion, which [read_exact_total] excludes. *)
Fixpoint read_exact_loop (fuel : nat) (r : R) (n : nat) (acc : bytes)
  : option (R * io_result bytes) :=
  match fuel with
  | O => None
  | S fuel =>
    match n with
    | O => Some (r, Ok acc)
    | _ =>
      match read r n with
      | (r', Ok []) => Some (r', Err UnexpectedEof)
      | (r', Ok bs) => read_exact_loop fuel r' (n - length bs) (acc ++ bs)
      | (r', Err Interrupted) => read_exact_loop fuel r' n acc
      | (r', Err e) => Some (r', Err e)
      end
    end
  end.

Definition read_exact (r : R) (n : nat) : option (R * io_result bytes) :=
  read_exact_loop (S (S (read_fuel r))) r n [].

Context `{!ReadLaws R}.

Lemma read_exact_loop_total fuel r n acc :
  S (read_fuel r) < fuel -> is_Some (read_exact_loop fuel r n acc).
Proof.
  revert r n acc. induction fuel as [|fuel IH]; intros r n acc Hf; [lia|].
  cbn [read_exact_loop]. destruct n as [|n]; [by eexists|].
  destruct (read r (S n)) as [r' [bs|e]] eqn:Hr.
  - destruct bs as [|b bs]; [by eexists|]. apply IH.
    assert (read_fuel r' < read_fuel r) by (by eapply read_decreases). lia.
  - assert (read_fuel r' < read_fuel r) by (by eapply read_decreases).
    destruct e; try (by eexists). apply IH. lia.
Qed.

Lemma read_exact_total r n : is_Some (read_exact r n).
Proof. apply read_exact_loop_total. lia. Qed.

Lemma read_exact_loop_fits fuel r n acc r' bs :
  read_exact_loop fuel r n acc = Some (r', Ok bs) -> length bs = length acc + n.
Proof.
  revert r n acc. induction fuel as [|fuel IH]; intros r n acc H; [done|].
  cbn [read_exact_loop] in H. destruct n as [|n]; [simplify_eq; lia|].
  destruct (read r (S n)) as [r1 [l|e]] eqn:Hr.
  - destruct l as [|b l]; [done|].
    apply read_fits in Hr. apply IH in H. len_solve.
  - destruct e; try done. by apply IH in H.
Qed.

Lemma read_exact_loop_spends fuel r n acc r' res :
  read_exact_loop fuel r n acc = Some (r', res) ->
  read_fuel r' + (if res then n else 0) <= read_fuel r.
Proof.
  revert r n acc. induction fuel as [|fuel IH]; intros r n acc H; [done|].
  cbn [read_exact_loop] in H. destruct n as [|n]; [simplify_eq; lia|].
  destruct (read r (S n)) as [r1 [l|e]] eqn:Hr.
  - pose proof (read_fits _ _ _ _ Hr). apply read_spends in Hr.
    destruct l as [|b l]; [simplify_eq; simpl in *; lia|].
    apply IH in H. destruct res; simpl in *; lia.
  - apply read_fails in Hr. destruct e; simplify_eq; try lia.
    apply IH in H. destruct res; lia.
Qed.

Lemma read_exact_spends r n r' res :
  read_exact r n = Some (r', res) -> read_fuel r' + (if res then n else 0) <= read_fuel r.
Proof. apply read_exact_loop_spends. Qed.
End ReadExact.

(** ** [Write] *)

(** [write w buf] is [w.write(buf)], returning how many bytes it took;
    [write_fuel] bounds the interrupted writes still to come. *)
Class Write (W : Type) := {
  write : W -> bytes -> W * io_result nat;
  flush : W -> W * io_result ();
  write_fuel : W -> nat;
}.

Class WriteLaws (W : Type) `{!Write W} := {
  write_fits w buf w' n : write w buf = (w', Ok n) -> n <= length buf;
  write_ok_fuel w buf w' n :
    write w buf = (w', Ok n) -> write_fuel w' <= write_fuel w;
  write_decreases w buf w' :
    write w buf = (w', Err Interrupted) -> write_fuel w' < write_fuel w;
}.

Section WriteAll.
Context {W : Type} `{!Write W}.

(** [Write::write_all] (the provided method). *)
Fixpoint write_all_loop (fuel : nat) (w : W) (buf : bytes)
  : option (W * io_result ()) :=
  match fuel with
  | O => None
  | S fuel =>
    match buf with
    | [] => Some (w, Ok tt)
    | _ =>
      match write w buf with
      | (w', Ok O) => Some (w', Err WriteZero)
      | (w', Ok n) => write_all_loop fuel w' (drop n buf)
      | (w', Err Interrupted) => write_all_loop fuel w' buf
      | (w', Err e) => Some (w', Err e)
      end
    end
  end.

Definition write_all (w : W) (buf : bytes) : option (W * io_result ()) :=
  write_all_loop (S (length buf + write_fuel w)) w buf.

Context `{!WriteLaws W}.

Lemma write_all_loop_total fuel w buf :
  length buf + write_fuel w < fuel -> is_Some (write_all_loop fuel w buf).
Proof.
  revert w buf. induction fuel as [|fuel IH]; intros w buf Hf; [lia|].
  cbn [write_all_loop]. destruct buf as [|b buf]; [by eexists|].
  destruct (write w (b :: buf)) as [w' [n|e]] eqn:Hw.
  - destruct n as [|n]; [by eexists|]. apply IH.
    apply write_ok_fuel in Hw. len_solve.
  - destruct e; try (by eexists). apply IH. apply write_decreases in Hw. lia.
Qed.

Lemma write_all_total w buf : is_Some (write_all w buf).
Proof. apply write_all_loop_total. lia. Qed.
End WriteAll.

(** A connection is read and written through the same value: writing does not
    bring the end of the input any further. *)
Class DuplexLaws (T : Type) `{!Read T, !Write T} := {
  write_reads w buf w' r : write w buf = (w', r) -> read_fuel w' <= read_fuel w;
  flush_reads w : read_fuel (flush w).1 <= read_fuel w;
}.

Lemma write_all_reads {T} `{DuplexLaws T} w buf w' r :
  write_all w buf = Some (w', r) -> read_fuel w' <= read_fuel w.
Proof.
  unfold write_all. generalize (S (length buf + write_fuel w)) as fuel. intros fuel.
  revert w buf. induction fuel as [|fuel IH]; intros w buf E; [done|].
  cbn [write_all_loop] in E. destruct buf as [|b buf]; [by simplify_eq|].
  destruct (write w (b :: buf)) as [w1 [[|n]|e]] eqn:Ew; apply write_reads in Ew.
  - by simplify_eq.
  - apply IH in E. lia.
  - destruct e; simplify_eq; try done. apply IH in E. lia.
Qed.

(** [write_all] never gives up on an interrupted write. *)
Lemma write_all_not_interrupted {W} `{!Write W} (w w' : W) buf :
  write_all w buf <> Some (w', Err Interrupted).
Proof.
  unfold write_all. generalize (S (length buf + write_fuel w)) as fuel. intros fuel.
  revert w buf. induction fuel as [|fuel IH]; intros w buf E; [done|].
  cbn [write_all_loop] in E. destruct buf as [|b buf]; [done|].
  destruct (write w (b :: buf)) as [w1 [[|n]|e]]; [done|by eapply IH|].
  destruct e; try done. by eapply IH.
Qed.

(** ** A transport: the transcript of one TCP connection *)

(** What the next [read] meets: bytes that have arrived, or an error.  When
    the transcript is used up the peer has closed ([Ok(0)]). *)
Inductive read_event :=
| RChunk (bs : bytes)
| RFail (e : ErrorKind).

(** What the next [write] meets: the kernel takes at most [n] bytes, or an
    error.  When the transcript is used up every write is taken whole. *)
Inductive write_event :=
| WTake (n : nat)
| WFail (e : ErrorKind).

Record Tcp := mkTcp {
  rx : list read_event;
  tx : list write_event;
  sent : bytes;
}.

Definition script_read (s : list read_event) (n : nat) : list read_event * io_result bytes :=
  match s with
  | [] => ([], Ok [])
  | RChunk bs :: s' =>
    if decide (length bs <= n) then (s', Ok bs)
    else (RChunk (drop n bs) :: s', Ok (take n bs))
  | RFail e :: s' => (s', Err e)
  end.

Definition event_size (e : read_event) : nat :=
  match e with RChunk bs => S (length bs) | RFail _ => 1 end.

Definition script_fuel (s : list read_event) : nat := sum_list (event_size <$> s).

(** The bytes the peer sends over the whole transcript. *)
Definition script_bytes (s : list read_event) : bytes :=
  mjoin ((fun e => match e with RChunk bs => bs | RFail _ => [] end) <$> s).

#[export] Instance script_Read : Read (list read_event) := {
  read := script_read;
  read_fuel := script_fuel;
}.

#[export] Instance script_ReadLaws : ReadLaws (list read_event).
Proof.
  split; simpl; unfold script_read, script_fuel.
  - intros s n s' bs H. destruct s as [|[l|e] s]; simplify_eq; simpl; [lia|].
    case_decide; simplify_eq; len_solve.
  - intros s n s' bs H. destruct s as [|[l|e] s]; simplify_eq; csimpl; [lia|].
    case_decide; simplify_eq; csimpl; len_solve.
  - intros s n s' e H. destruct s as [|[l|e'] s]; simplify_eq; [|csimpl; lia].
    case_decide; simplify_eq.
Qed.

#[export] Instance tcp_Read : Read Tcp := {
  read t n := let '(s, r) := script_read (rx t) n in (mkTcp s (tx t) (sent t), r);
  read_fuel t := script_fuel (rx t);
}.

#[export] Instance tcp_ReadLaws : ReadLaws Tcp.
Proof.
  split; simpl.
  - intros [s t o] n t' bs H. destruct (script_read _ _) eqn:E; simplify_eq.
    by eapply (read_fits (R := list read_event)).
  - intros [s t o] n t' bs H. destruct (script_read _ _) eqn:E; simplify_eq.
    exact (read_spends (R := list read_event) s n l bs E).
  - intros [s t o] n t' e H. destruct (script_read _ _) eqn:E; simplify_eq.
    exact (read_fails (R := list read_event) s n l e E).
Qed.

Definition tcp_write (t : Tcp) (buf : bytes) : Tcp * io_result nat :=
  match tx t with
  | [] => (mkTcp (rx t) [] (sent t ++ buf), Ok (length buf))
  | WTake n :: s =>
    (mkTcp (rx t) s (sent t ++ take n buf), Ok (length (take n buf)))
  | WFail e :: s => (mkTcp (rx t) s (sent t), Err e)
  end.

#[export] Instance tcp_Write : Write Tcp := {
  write := tcp_write;
  flush t := (t, Ok tt);
  write_fuel t := length (tx t);
}.

#[export] Instance tcp_WriteLaws : WriteLaws Tcp.
Proof.
  split; simpl; unfold tcp_write; intros [r s o] buf t'; simpl;
    destruct s as [|[k|e] s]; intros; simplify_eq; simpl; len_solve.
Qed.

#[export] Instance tcp_DuplexLaws : DuplexLaws Tcp.
Proof.
  split; [|done]. intros [r s o] buf t' res. simpl. unfold tcp_write. simpl.
  destruct s as [|[k|e] s]; intros; by simplify_eq.
Qed.

(** ** Quiet and benign transcripts *)

(** A transcript without faults: reads may only be interrupted. *)
Definition quiet (e : read_event) : Prop :=
  match e with RChunk bs => bs <> [] | RFail e => e = Interrupted end.

(** A transcript whose faults are all ones a polling loop retries. *)
Definition benign (e : read_event) : Prop :=
  match e with RChunk bs => bs <> [] | RFail e => transient e = true end.

#[export] Instance quiet_dec e : Decision (quiet e).
Proof. destruct e; simpl; apply _. Defined.

#[export] Instance benign_dec e : Decision (benign e).
Proof. destruct e; simpl; apply _. Defined.

Lemma quiet_benign e : quiet e -> benign e.
Proof. destruct e; simpl; [done|]. by intros ->. Qed.

Lemma script_bytes_cons e s :
  script_bytes (e :: s) = match e with RChunk bs => bs | RFail _ => [] end ++ script_bytes s.
Proof. done. Qed.

(** What one read does to the bytes still to come. *)
Lemma script_read_bytes s n s' bs :
  script_read s n = (s', Ok bs) -> script_bytes s = bs ++ script_bytes s'.
Proof.
  destruct s as [|[l|e] s]; simpl; intros; simplify_eq; [done|].
  case_decide; simplify_eq; rewrite !script_bytes_cons; [done|].
  by rewrite app_assoc, take_drop.
Qed.

Lemma script_read_err s n s' e :
  script_read s n = (s', Err e) -> s = RFail e :: s'.
Proof.
  destruct s as [|[l|e'] s]; simpl; intros; simplify_eq; [|done].
  case_decide; simplify_eq.
Qed.

Lemma script_read_Forall (P : read_event -> Prop) s n s' res :
  (forall bs, P (RChunk bs) <-> bs <> []) ->
  Forall P s -> script_read s n = (s', res) -> Forall P s'.
Proof.
  intros HP Hs. destruct Hs as [|[l|e] s Hl Hs]; simpl; intros; simplify_eq; try done.
  case_decide; simplify_eq; [done|]. constructor; [|done].
  apply HP. intros E. apply (f_equal length) in E. len_solve.
Qed.

(** On a benign transcript only the end of the stream reads as [Ok(0)]. *)
Lemma script_read_eof s n s' :
  0 < n -> Forall benign s -> script_read s n = (s', Ok []) -> s = [] /\ s' = [].
Proof.
  intros Hn Hs. destruct Hs as [|[l|e] s Hl Hs]; simpl; intros; simplify_eq; [done|].
  simpl in Hl. case_decide; simplify_eq.
  match goal with H : take n l = [] |- _ => apply (f_equal length) in H end. len_solve.
Qed.

(** [read_exact] on a quiet transcript: the next [n] bytes when the peer sends
    that many, [UnexpectedEof] otherwise. *)
Lemma read_exact_loop_quiet fuel (s : list read_event) n acc :
  S (script_fuel s) < fuel -> Forall quiet s ->
  exists s', Forall quiet s' /\
    if decide (n <= length (script_bytes s)) then
      read_exact_loop fuel s n acc = Some (s', Ok (acc ++ take n (script_bytes s))) /\
      script_bytes s' = drop n (script_bytes s)
    else read_exact_loop fuel s n acc = Some (s', Err UnexpectedEof).
Proof.
  revert s n acc. induction fuel as [|fuel IH]; intros s n acc Hf Hs; [lia|].
  cbn [read_exact_loop]. destruct n as [|n].
  { exists s. rewrite decide_True by lia. by rewrite take_0, app_nil_r, drop_0. }
  assert (Hb : Forall benign s) by (eapply Forall_impl; [done|apply quiet_benign]).
  destruct (read s (S n)) as [s1 [bs|e]] eqn:Hr.
  - pose proof (script_read_bytes _ _ _ _ Hr) as Hbytes.
    pose proof (script_read_Forall _ _ _ _ _ (fun _ => iff_refl _) Hs Hr) as Hs1.
    pose proof (read_fits _ _ _ _ Hr) as Hfit.
    destruct bs as [|b bs].
    + apply script_read_eof in Hr as [-> ->]; [|lia|done].
      exists []. split; [done|]. by rewrite decide_False by (simpl; lia).
    + assert (script_fuel s1 < script_fuel s)
        by (by apply (read_decreases s (S n) s1 _ Hr)).
      destruct (IH s1 (S n - length (b :: bs)) (acc ++ b :: bs) ltac:(lia) Hs1)
        as (s2 & Hs2 & H2).
      exists s2. split; [done|]. rewrite Hbytes.
      rewrite take_app_ge, drop_app_ge by done. rewrite length_app.
      case_decide; rewrite ?decide_True, ?decide_False by lia;
        [by rewrite <- app_assoc in H2|done].
  - pose proof (script_read_Forall _ _ _ _ _ (fun _ => iff_refl _) Hs Hr) as Hs1.
    pose proof (script_read_err _ _ _ _ Hr) as ->.
    apply Forall_cons in Hs as [-> Hs]. rewrite script_bytes_cons, app_nil_l.
    apply IH; [|done]. unfold script_fuel in *. csimpl in Hf. lia.
Qed.

Lemma read_exact_quiet (s : list read_event) n :
  Forall quiet s ->
  exists s', Forall quiet s' /\
    if decide (n <= length (script_bytes s)) then
      read_exact s n = Some (s', Ok (take n (script_bytes s))) /\
      script_bytes s' = drop n (script_bytes s)
    else read_exact s n = Some (s', Err UnexpectedEof).
Proof.
  intros Hs. apply (read_exact_loop_quiet (S (S (read_fuel s))) s n []); [|done].
  simpl. lia.
Qed.

(** ** What [write_all] puts on the wire *)

Lemma write_all_loop_sent fuel (t t' : Tcp) buf0 res :
  write_all_loop fuel t buf0 = Some (t', res) ->
  rx t' = rx t /\
  exists p, sent t' = sent t ++ p /\ p `prefix_of` buf0 /\ (res = Ok tt -> p = buf0).
Proof.
  revert t buf0. induction fuel as [|fuel IH]; intros [r s o] b H; [done|].
  cbn [write_all_loop] in H. destruct b as [|x b].
  { simplify_eq. split; [done|]. exists []. by rewrite app_nil_r. }
  destruct (write (mkTcp r s o) (x :: b)) as [t1 w] eqn:Hw.
  assert (Hstop : forall (t1 : Tcp) (e : ErrorKind) k, 
    t1 = mkTcp r k o -> (t1, Err e) = (t', res) -> rx t' = r /\
    exists p, sent t' = o ++ p /\ p `prefix_of` x :: b /\ (res = Ok tt -> p = x :: b)).
  { intros ? e k -> ?; simplify_eq. split; [done|]. exists [].
    rewrite app_nil_r. split; [done|]. split; [apply prefix_nil|done]. }
  simpl in Hw. unfold tcp_write in Hw. simpl in Hw.
  destruct s as [|[k|e] s]; simplify_eq.
  - simpl length in H. rewrite drop_ge in H by (simpl; lia).
    destruct fuel; [done|]. cbn in H. simplify_eq. split; [done|]. by exists (x :: b).
  - destruct (length (take k (x :: b))) as [|n] eqn:Hk.
    + apply nil_length_inv in Hk. rewrite Hk, app_nil_r in H. by eapply Hstop; [|simplify_eq].
    + destruct (IH _ _ H) as (Hrx & p & Hp & Hpre & Hok). simpl in Hrx, Hp.
      assert (Ht : take (S n) (x :: b) = take k (x :: b)).
      { rewrite length_take in Hk. destruct (decide (k <= length (x :: b))).
        - f_equal. lia.
        - rewrite !take_ge by lia. done. }
      split; [done|]. exists (take k (x :: b) ++ p). rewrite Hp, app_assoc.
      assert (Hxb : x :: b = take k (x :: b) ++ drop (S n) (x :: b))
        by by rewrite <- Ht, take_drop.
      split; [done|]. split; [rewrite Hxb at 2; by apply prefix_app|].
      intros E. by rewrite Hok, <- Hxb.
  - destruct e; try (by eapply Hstop; [|simplify_eq]).
    by destruct (IH _ _ H) as (Hrx & p & Hp & Hpre & Hok); eauto.
Qed.

Lemma write_all_sent (t t' : Tcp) b res :
  write_all t b = Some (t', res) ->
  rx t' = rx t /\
  exists p, sent t' = sent t ++ p /\ p `prefix_of` b /\ (res = Ok tt -> p = b).
Proof. apply write_all_loop_sent. Qed.
