(* ===== verification/Protocol.v ===== *)
(** * Protocol: wire framing and typed envelopes of the synchronous crate

    Models [rust-lib-sync/src/protocol.rs]: the encoders, [decode],
    [write_frame], [read_frame] and the incremental [FrameDecoder].  The
    reference the readers are measured against is [wire], a sequence of
    length-prefixed bodies (PROTOCOL.md section 2), followed by a [partial]
    tail; every byte stream splits in exactly one such way. *)

From S2P Require Import Prelude Io.
From Stdlib Require Import Strings.Byte.

(** ** Constants and data *)

Definition PROTOCOL_VERSION : byte := x01.
Definition IDENTITY_SIZE : nat := 16.
Definition MSG_ID_SIZE : nat := 16.

(** [[u8; 16]] arrays are byte lists; their length is an invariant. *)
Abbreviation Identity := bytes.
Abbreviation MsgId := bytes.

Definition T_HELLO : byte := x01.
Definition T_HEARTBEAT : byte := x02.
Definition T_DATA : byte := x03.
Definition T_DATA_REQ : byte := x04.
Definition T_ACK : byte := x05.

Inductive Envelope :=
| Hello (version : byte) (identity : Identity)
| Heartbeat
| Data (payload : bytes)
| DataReq (msg_id : MsgId) (payload : bytes)
| Ack (msg_id : MsgId).

#[export] Instance Envelope_eq_dec : EqDecision Envelope.
Proof. solve_decision. Defined.

(** ** Encoders: complete frames, length prefix included *)

Definition put_len_prefix (b : bytes) (body_len : Z) : bytes :=
  b ++ to_be_bytes 4 (as_u32 body_len).

Definition hello (identity : Identity) : bytes :=
  let body_len := (2 + Z.of_nat IDENTITY_SIZE)%Z in
  let b := put_len_prefix [] body_len in
  let b := b ++ [T_HELLO] in
  let b := b ++ [PROTOCOL_VERSION] in
  b ++ identity.

Definition heartbeat : bytes := [x00; x00; x00; x01; T_HEARTBEAT].

Definition data (payload : bytes) : bytes :=
  let body_len := (1 + zlen payload)%Z in
  let b := put_len_prefix [] body_len in
  let b := b ++ [T_DATA] in
  b ++ payload.

Definition data_req (msg_id : MsgId) (payload : bytes) : bytes :=
  let body_len := (1 + Z.of_nat MSG_ID_SIZE + zlen payload)%Z in
  let b := put_len_prefix [] body_len in
  let b := b ++ [T_DATA_REQ] in
  let b := b ++ msg_id in
  b ++ payload.

Definition ack (msg_id : MsgId) : bytes :=
  let body_len := (1 + Z.of_nat MSG_ID_SIZE)%Z in
  let b := put_len_prefix [] body_len in
  let b := b ++ [T_ACK] in
  b ++ msg_id.

(** ** [decode]

    The indexing [body[0]] is guarded by the length test, so its [None]
    (a panic in the source) is dead. *)
Definition decode (frame : bytes) : option Envelope :=
  match frame with
  | [] => None
  | t :: body =>
    if decide (t = T_HELLO) then
      if decide (length body < 1 + IDENTITY_SIZE) then None
      else
        version ← body !! 0;
        Some (Hello version (take IDENTITY_SIZE (drop 1 body)))
    else if decide (t = T_HEARTBEAT) then Some Heartbeat
    else if decide (t = T_DATA) then Some (Data body)
    else if decide (t = T_DATA_REQ) then
      if decide (length body < MSG_ID_SIZE) then None
      else Some (DataReq (take MSG_ID_SIZE body) (drop MSG_ID_SIZE body))
    else if decide (t = T_ACK) then
      if decide (length body < MSG_ID_SIZE) then None
      else Some (Ack (take MSG_ID_SIZE body))
    else None
  end.

(** ** Framing *)

Definition write_frame {W} `{!Write W} (w : W) (frame : bytes) : option (W * io_result ()) :=
  write_all w frame.

Definition read_frame {R} `{!Read R} (r : R) : option (R * io_result (option bytes)) :=
  match read_exact r 4 with
  | None => None
  | Some (r, Err UnexpectedEof) => Some (r, Ok None)
  | Some (r, Err e) => Some (r, Err e)
  | Some (r, Ok len_buf) =>
    let len := from_be_bytes len_buf in
    match read_exact r (Z.to_nat len) with
    | None => None
    | Some (r, Ok buf) => Some (r, Ok (Some buf))
    | Some (r, Err UnexpectedEof) => Some (r, Ok None)
    | Some (r, Err e) => Some (r, Err e)
    end
  end.

Inductive Read1 :=
| Frame (frame : bytes)
| Pending
| Closed.

(** [chunk] is scratch space: only its length is observable. *)
Record FrameDecoder := mkDecoder {
  buf : bytes;
  chunk_len : nat;
}.

Module FrameDecoder.

Definition new : FrameDecoder := mkDecoder [] (16 * 1024).

(** The derived [Default]: both vectors empty. *)
Definition default : FrameDecoder := mkDecoder [] 0.

Definition take_frame (d : FrameDecoder) : option bytes * FrameDecoder :=
  if decide (length (buf d) < 4) then (None, d)
  else
    let len := from_be_bytes (take 4 (buf d)) in
    if decide (zlen (buf d) < 4 + len)%Z then (None, d)
    else
      let rest := drop 4 (buf d) in
      (Some (take (Z.to_nat len) rest),
       mkDecoder (drop (Z.to_nat len) rest) (chunk_len d)).

Definition extend_from (d : FrameDecoder) (bs : bytes) : FrameDecoder :=
  mkDecoder (buf d ++ bs) (chunk_len d).

Definition pop (d : FrameDecoder) : option bytes * FrameDecoder := take_frame d.

Definition read1 {R} `{!Read R} (d : FrameDecoder) (r : R)
  : FrameDecoder * R * io_result Read1 :=
  match take_frame d with
  | (Some frame, d) => (d, r, Ok (Frame frame))
  | (None, d) =>
    match read r (chunk_len d) with
    | (r, Ok []) => (d, r, Ok Closed)
    | (r, Ok bs) =>
      let d := extend_from d bs in
      match take_frame d with
      | (Some frame, d) => (d, r, Ok (Frame frame))
      | (None, d) => (d, r, Ok Pending)
      end
    | (r, Err e) => if transient e then (d, r, Ok Pending) else (d, r, Err e)
    end
  end.

End FrameDecoder.

(** ** The reference: length-prefixed bodies

    [framed body] is the frame of PROTOCOL.md section 2, [wire bodies] a
    stream of frames, and a [partial] tail one that starts with no complete
    frame.  Every stream splits in exactly one way ([wire_split],
    [wire_split_unique]). *)

Definition small (body : bytes) : Prop := (zlen body < 2 ^ 32)%Z.

#[export] Instance small_dec body : Decision (small body).
Proof. unfold small. apply _. Defined.

Definition framed (body : bytes) : bytes := to_be_bytes 4 (zlen body) ++ body.

Definition wire (bodies : list bytes) : bytes := mjoin (framed <$> bodies).

Definition partial (tail : bytes) : Prop :=
  forall body rest, small body -> tail <> framed body ++ rest.

Lemma take4_framed body rest : take 4 (framed body ++ rest) = to_be_bytes 4 (zlen body).
Proof. unfold framed. rewrite <- app_assoc. by rewrite take_app_length'. Qed.

Lemma drop4_framed body rest : drop 4 (framed body ++ rest) = body ++ rest.
Proof. unfold framed. rewrite <- app_assoc. by rewrite drop_app_length'. Qed.

Lemma prefix_of_small body : small body -> from_be_bytes (to_be_bytes 4 (zlen body)) = zlen body.
Proof. unfold small. intros. apply from_to_be_small. pose proof (zlen_nonneg body). lia. Qed.

Lemma to_nat_zlen {A} (l : list A) : Z.to_nat (zlen l) = length l.
Proof. unfold zlen. lia. Qed.

Lemma framed_inj b1 r1 b2 r2 :
  small b1 -> small b2 -> framed b1 ++ r1 = framed b2 ++ r2 -> b1 = b2 /\ r1 = r2.
Proof.
  intros H1 H2 E. pose proof (f_equal (take 4) E) as Et.
  rewrite !take4_framed in Et. apply (f_equal from_be_bytes) in Et.
  rewrite !prefix_of_small in Et by done.
  apply (f_equal (drop 4)) in E. rewrite !drop4_framed in E.
  apply app_inj_1 in E; [done|]. len_solve.
Qed.

Lemma wire_cons b bs : wire (b :: bs) = framed b ++ wire bs.
Proof. done. Qed.

Lemma wire_snoc bs b : wire (bs ++ [b]) = wire bs ++ framed b.
Proof. unfold wire. rewrite fmap_app, join_app. simpl. by rewrite app_nil_r. Qed.

(** ** [take_frame] against the reference *)

Lemma take_frame_framed body rest c :
  small body ->
  FrameDecoder.take_frame (mkDecoder (framed body ++ rest) c) = (Some body, mkDecoder rest c).
Proof.
  intros Hs. unfold FrameDecoder.take_frame. cbn [buf chunk_len].
  rewrite take4_framed, drop4_framed, prefix_of_small, to_nat_zlen by done.
  rewrite decide_False by (unfold framed; len_solve).
  rewrite decide_False by (unfold framed; len_solve).
  by rewrite take_app_length, drop_app_length.
Qed.

Lemma take_frame_Some d x d' :
  FrameDecoder.take_frame d = (Some x, d') ->
  buf d = framed x ++ buf d' /\ small x /\ chunk_len d' = chunk_len d.
Proof.
  destruct d as [l c]. unfold FrameDecoder.take_frame. cbn [buf chunk_len].
  case_decide as H4; [done|]. case_decide as Hlen; [done|]. intros; simplify_eq.
  cbn [buf chunk_len]. set (n := from_be_bytes (take 4 l)) in *.
  pose proof (from_be_range (take 4 l)) as Hn. fold n in Hn.
  assert (zlen (take 4 l) = 4)%Z as H4' by len_solve. rewrite H4' in Hn.
  assert (Hx : zlen (take (Z.to_nat n) (drop 4 l)) = n) by len_solve.
  split; [|split; [unfold small; lia|done]].
  unfold framed. rewrite Hx, <- app_assoc, take_drop.
  unfold n. replace 4 with (length (take 4 l)) at 1 by len_solve.
  by rewrite to_from_be, take_drop.
Qed.

Lemma take_frame_None d d' : FrameDecoder.take_frame d = (None, d') -> d' = d /\ partial (buf d).
Proof.
  intros H. split; [unfold FrameDecoder.take_frame in H; case_all; by simplify_eq|].
  intros body rest Hs E. destruct d as [l c]. cbn [buf] in E. subst l.
  by rewrite take_frame_framed in H.
Qed.

Lemma wire_head x rest bodies tail :
  small x -> Forall small bodies -> partial tail ->
  framed x ++ rest = wire bodies ++ tail ->
  exists bodies', bodies = x :: bodies' /\ rest = wire bodies' ++ tail.
Proof.
  intros Hx Hb Hp E. destruct Hb as [|b bodies Hb Hbs]; [by destruct (Hp x rest Hx)|].
  rewrite wire_cons, <- app_assoc in E.
  apply framed_inj in E as [-> ->]; eauto.
Qed.

Lemma wire_nil bodies tail : partial (wire bodies ++ tail) -> Forall small bodies -> bodies = [].
Proof.
  intros Hp Hb. destruct Hb as [|b bodies Hb Hbs]; [done|].
  destruct (Hp b (wire bodies ++ tail) Hb). by rewrite wire_cons, app_assoc.
Qed.

Lemma wire_split_unique bs1 t1 bs2 t2 :
  Forall small bs1 -> Forall small bs2 -> partial t1 -> partial t2 ->
  wire bs1 ++ t1 = wire bs2 ++ t2 -> bs1 = bs2 /\ t1 = t2.
Proof.
  intros Hb. revert bs2. induction Hb as [|b bs1 Hb1 Hbs IH]; intros bs2 Hb2 Hp1 Hp2 E.
  - assert (bs2 = []) as -> by (apply (wire_nil bs2 t2); [by rewrite <- E|done]). done.
  - rewrite wire_cons, <- app_assoc in E.
    apply wire_head in E as (bs2' & -> & E); [|done..].
    apply Forall_cons in Hb2 as [_ Hb2].
    destruct (IH _ Hb2 Hp1 Hp2 E) as [-> ->]. done.
Qed.

Lemma wire_split s : exists bodies tail,
  Forall small bodies /\ partial tail /\ s = wire bodies ++ tail.
Proof.
  remember (length s) as n eqn:Hn. revert s Hn.
  induction (lt_wf n) as [n _ IH]. intros s ->.
  destruct (FrameDecoder.take_frame (mkDecoder s 0)) as [[x|] d'] eqn:E.
  - apply take_frame_Some in E as (E & Hx & _). simpl in E.
    destruct (IH (length (buf d'))) with (s := buf d') as (bs & t & Hbs & Ht & E'); [|done|].
    { rewrite E. unfold framed. len_solve. }
    exists (x :: bs), t. split; [by constructor|]. split; [done|].
    by rewrite E, wire_cons, <- app_assoc, <- E'.
  - apply take_frame_None in E as [_ Hp]. exists [], s. done.
Qed.

(** Frames already received are the first frames of the stream. *)
Lemma wire_app_split b1 t1 more bodies tail :
  Forall small b1 -> Forall small bodies -> partial tail ->
  wire b1 ++ t1 ++ more = wire bodies ++ tail ->
  exists b2, bodies = b1 ++ b2 /\ t1 ++ more = wire b2 ++ tail.
Proof.
  intros H1. revert bodies. induction H1 as [|b b1 Hb H1 IH]; intros bodies H2 Hp E; [by exists bodies|].
  rewrite wire_cons, <- app_assoc in E.
  apply wire_head in E as (rest & -> & E); [|done..]. apply Forall_cons in H2 as [_ H2].
  destruct (IH rest) as (b2 & -> & E2); [done..|]. by exists b2.
Qed.

(** ** Encoders against the reference *)

Lemma put_len_prefix_small z : (0 <= z < 2 ^ 32)%Z -> put_len_prefix [] z = to_be_bytes 4 z.
Proof. intros. unfold put_len_prefix. by rewrite wrap_to_small. Qed.

Lemma hello_framed id :
  length id = IDENTITY_SIZE -> hello id = framed (T_HELLO :: PROTOCOL_VERSION :: id).
Proof.
  intros H. unfold hello, framed. rewrite put_len_prefix_small by (unfold IDENTITY_SIZE; lia).
  rewrite !zlen_cons. unfold zlen. rewrite H. by rewrite <- !app_assoc.
Qed.

Lemma heartbeat_framed : heartbeat = framed [T_HEARTBEAT].
Proof. reflexivity. Qed.

Lemma data_framed p : small (T_DATA :: p) -> data p = framed (T_DATA :: p).
Proof.
  unfold small. rewrite zlen_cons. intros H. unfold data, framed.
  rewrite put_len_prefix_small by (pose proof (zlen_nonneg p); lia).
  by rewrite zlen_cons, <- !app_assoc.
Qed.

Lemma data_req_framed m p :
  length m = MSG_ID_SIZE -> small (T_DATA_REQ :: m ++ p) ->
  data_req m p = framed (T_DATA_REQ :: m ++ p).
Proof.
  unfold small. rewrite zlen_cons, zlen_app. intros Hm H. unfold data_req, framed.
  assert (zlen m = Z.of_nat MSG_ID_SIZE) as Hz by (unfold zlen; lia).
  rewrite put_len_prefix_small by (pose proof (zlen_nonneg p); unfold MSG_ID_SIZE in *; lia).
  rewrite zlen_cons, zlen_app, Hz, <- !app_assoc.
  by replace (1 + (Z.of_nat MSG_ID_SIZE + zlen p))%Z
    with (1 + Z.of_nat MSG_ID_SIZE + zlen p)%Z by lia.
Qed.

Lemma ack_framed m : length m = MSG_ID_SIZE -> ack m = framed (T_ACK :: m).
Proof.
  intros H. unfold ack, framed. rewrite put_len_prefix_small by (unfold MSG_ID_SIZE; lia).
  rewrite zlen_cons. unfold zlen. rewrite H. by rewrite <- !app_assoc.
Qed.

(** The encoder the sender uses for each envelope, and the envelopes it can
    send: the HELLO of this version, fixed-width fields of the right width,
    and a body whose length fits the prefix. *)
Definition encode (e : Envelope) : bytes :=
  match e with
  | Hello _ id => hello id
  | Heartbeat => heartbeat
  | Data p => data p
  | DataReq m p => data_req m p
  | Ack m => ack m
  end.

Definition body_of (e : Envelope) : bytes :=
  match e with
  | Hello v id => T_HELLO :: v :: id
  | Heartbeat => [T_HEARTBEAT]
  | Data p => T_DATA :: p
  | DataReq m p => T_DATA_REQ :: m ++ p
  | Ack m => T_ACK :: m
  end.

Definition sendable (e : Envelope) : Prop :=
  match e with
  | Hello v id => v = PROTOCOL_VERSION /\ length id = IDENTITY_SIZE
  | Heartbeat => True
  | Data _ => True
  | DataReq m _ | Ack m => length m = MSG_ID_SIZE
  end /\ small (body_of e).

Lemma encode_framed e : sendable e -> encode e = framed (body_of e).
Proof.
  intros [Hw Hs]. destruct e; simpl in *.
  - destruct Hw as [-> Hl]. by apply hello_framed.
  - apply heartbeat_framed.
  - by apply data_framed.
  - by apply data_req_framed.
  - by apply ack_framed.
Qed.

(** [parses frame e]: the table of PROTOCOL.md section 3, with what [decode]
    tolerates made explicit: HELLO, HEARTBEAT and ACK ignore trailing bytes. *)
Inductive parses : bytes -> Envelope -> Prop :=
| parses_hello v id junk :
    length id = IDENTITY_SIZE -> parses (T_HELLO :: v :: id ++ junk) (Hello v id)
| parses_heartbeat junk : parses (T_HEARTBEAT :: junk) Heartbeat
| parses_data p : parses (T_DATA :: p) (Data p)
| parses_data_req m p :
    length m = MSG_ID_SIZE -> parses (T_DATA_REQ :: m ++ p) (DataReq m p)
| parses_ack m junk :
    length m = MSG_ID_SIZE -> parses (T_ACK :: m ++ junk) (Ack m).

Lemma decode_complete f e : parses f e -> decode f = Some e.
Proof.
  destruct 1 as [v id junk H|junk|p|m p H|m junk H]; unfold decode.
  - rewrite decide_True, decide_False by (done || (simpl; rewrite length_app; lia)).
    simpl. by rewrite drop_0, take_app_length'.
  - done.
  - done.
  - rewrite !(decide_False (P := T_DATA_REQ = _)), (decide_True (P := T_DATA_REQ = _)) by done.
    rewrite decide_False by (rewrite length_app; lia).
    by rewrite take_app_length', drop_app_length'.
  - rewrite !(decide_False (P := T_ACK = _)), (decide_True (P := T_ACK = _)) by done.
    rewrite decide_False by (rewrite length_app; lia).
    by rewrite take_app_length'.
Qed.

Lemma decode_parses f e : decode f = Some e -> parses f e.
Proof.
  unfold decode. destruct f as [|t body]; [done|].
  case_decide as Ht; [|clear Ht; case_decide as Ht; [|clear Ht; case_decide as Ht;
    [|clear Ht; case_decide as Ht; [|clear Ht; case_decide as Ht; [|done]]]]]; subst t.
  - case_decide as Hl; [done|]. destruct body as [|v l]; simpl; [done|].
    intros; simplify_eq. rewrite drop_0, <- (take_drop IDENTITY_SIZE l) at 1.
    constructor. rewrite length_take. simpl in Hl. lia.
  - intros; simplify_eq. constructor.
  - intros; simplify_eq. constructor.
  - case_decide as Hl; [done|]. intros; simplify_eq.
    rewrite <- (take_drop MSG_ID_SIZE body) at 1. constructor. rewrite length_take. lia.
  - case_decide as Hl; [done|]. intros; simplify_eq.
    rewrite <- (take_drop MSG_ID_SIZE body) at 1. constructor. rewrite length_take. lia.
Qed.

Lemma decode_body_of e : sendable e -> decode (body_of e) = Some e.
Proof.
  intros [Hw Hs]. apply decode_complete. destruct e; simpl in *.
  - destruct Hw as [-> Hl]. rewrite <- (app_nil_r identity) at 1. by constructor.
  - constructor.
  - constructor.
  - by constructor.
  - rewrite <- (app_nil_r msg_id) at 1. by constructor.
Qed.

(** [decode] is exactly the envelope grammar: it accepts a body as an
    envelope if and only if the body has that envelope's type byte, its
    fixed-width fields at full width and its payload; everything else (empty,
    truncated, unknown type) is [None]. *)
Theorem decode_iff_parses f e : decode f = Some e <-> parses f e.
Proof. split; [apply decode_parses|apply decode_complete]. Qed.

(** C39: Encoding then decoding is the identity: for every sendable envelope,
    the frame the encoder builds, followed by any further bytes in a decoder's
    buffer, is popped whole, leaves those bytes behind, and decodes to the
    envelope. *)
Theorem encode_pop_decode e rest c :
  sendable e ->
  FrameDecoder.pop (FrameDecoder.extend_from (mkDecoder (encode e) c) rest)
    = (Some (body_of e), mkDecoder rest c)
  /\ decode (body_of e) = Some e.
Proof.
  intros He. split; [|by apply decode_body_of].
  unfold FrameDecoder.extend_from, FrameDecoder.pop. cbn [buf chunk_len].
  rewrite encode_framed by done. apply take_frame_framed, He.
Qed.

Definition sample_id : Identity := replicate 16 x07.

Lemma encode_pop_decode_witness :
  FrameDecoder.pop (FrameDecoder.extend_from
      (mkDecoder (encode (DataReq sample_id [x70])) 16) [xff])
    = (Some (body_of (DataReq sample_id [x70])), mkDecoder [xff] 16)
  /\ decode (body_of (DataReq sample_id [x70])) = Some (DataReq sample_id [x70]).
Proof. apply encode_pop_decode. split; [reflexivity|vm_compute; reflexivity]. Defined.

(** ** Reassembly by the incremental decoder *)

(** Poll [read1] until the peer closes, collecting the frames. *)
Fixpoint poll_frames {R} `{!Read R} (fuel : nat) (d : FrameDecoder) (r : R)
  : option (list bytes * FrameDecoder * io_result ()) :=
  match fuel with
  | O => None
  | S fuel =>
    match FrameDecoder.read1 d r with
    | (d, r, Ok (Frame f)) =>
      '(fs, d, res) ← poll_frames fuel d r; Some (f :: fs, d, res)
    | (d, r, Ok Pending) => poll_frames fuel d r
    | (d, r, Ok Closed) => Some ([], d, Ok tt)
    | (d, r, Err e) => Some ([], d, Err e)
    end
  end.

Lemma poll_frames_reassembles fuel d (s : list read_event) bodies tail :
  length bodies + script_fuel s < fuel -> 0 < chunk_len d ->
  Forall benign s -> Forall small bodies -> partial tail ->
  buf d ++ script_bytes s = wire bodies ++ tail ->
  poll_frames fuel d s = Some (bodies, mkDecoder tail (chunk_len d), Ok tt).
Proof.
  revert d s bodies. induction fuel as [|fuel IH]; intros d s bodies Hf Hc Hs Hb Hp E; [lia|].
  cbn [poll_frames]. unfold FrameDecoder.read1.
  destruct (FrameDecoder.take_frame d) as [[x|] d1] eqn:Ht.
  { apply take_frame_Some in Ht as (Hd & Hx & Hcl).
    rewrite Hd, <- app_assoc in E. apply wire_head in E as (bodies' & -> & E); [|done..].
    apply Forall_cons in Hb as [_ Hb]. simpl in Hf.
    rewrite (IH d1 s bodies'), Hcl; [done|lia|lia|done..]. }
  apply take_frame_None in Ht as [-> Hd].
  destruct (read s (chunk_len d)) as [s1 [bs|e]] eqn:Hr.
  - pose proof (script_read_bytes _ _ _ _ Hr) as Hbytes.
    assert (Forall benign s1) by (by eapply (script_read_Forall benign); [done|exact Hs|exact Hr]).
    destruct bs as [|b0 bs].
    + apply script_read_eof in Hr as [-> ->]; [|done..].
      unfold script_bytes in E. simpl in E. rewrite app_nil_r in E.
      rewrite E in Hd. assert (bodies = []) as -> by (by eapply wire_nil).
      simpl in E. destruct d as [l c]. simpl in *. by subst l.
    + assert (script_fuel s1 < script_fuel s)
        by (by apply (read_decreases s (chunk_len d) s1 _ Hr)).
      set (d2 := FrameDecoder.extend_from d (b0 :: bs)).
      assert (E2 : buf d2 ++ script_bytes s1 = wire bodies ++ tail)
        by (rewrite <- E, Hbytes; simpl; by rewrite <- app_assoc).
      destruct (FrameDecoder.take_frame d2) as [[x|] d3] eqn:Ht.
      * apply take_frame_Some in Ht as (Hd2 & Hx & Hcl).
        rewrite Hd2, <- app_assoc in E2.
        apply wire_head in E2 as (bodies' & -> & E3); [|done..].
        apply Forall_cons in Hb as [_ Hb]. simpl in Hf.
        rewrite (IH d3 s1 bodies'), Hcl; [done|lia|rewrite Hcl; done|done..].
      * apply take_frame_None in Ht as [-> _]. by apply (IH d2 s1 bodies); [lia|..].
  - pose proof (script_read_err _ _ _ _ Hr) as ->. apply Forall_cons in Hs as [He Hs].
    simpl in He. rewrite He. apply IH; try done.
    unfold script_fuel in *. csimpl in Hf. lia.
Qed.

(** C31: Reassembly does not depend on how the stream is cut: whatever the
    chunks the reads return and however many of them time out, block or are
    interrupted, polling [read1] on a fresh decoder until the peer closes
    terminates and yields exactly the frames of the byte stream, in order, and
    leaves exactly the incomplete tail in the buffer. *)
Theorem decoder_reassembles (s : list read_event) bodies tail :
  Forall benign s -> Forall small bodies -> partial tail ->
  script_bytes s = wire bodies ++ tail ->
  poll_frames (S (length bodies + script_fuel s)) FrameDecoder.new s
    = Some (bodies, mkDecoder tail (16 * 1024), Ok tt).
Proof. intros. apply (poll_frames_reassembles _ FrameDecoder.new); simpl; auto; lia. Qed.

Lemma partial_nil : partial [].
Proof. intros body rest _ E. apply (f_equal length) in E. unfold framed in E. len_solve. Qed.

Lemma partial_short l : length l < 4 -> partial l.
Proof. intros H body rest _ ->. unfold framed in H. len_solve. Qed.

(** The unit test's trickle of three-byte chunks between timeouts. *)
Lemma decoder_reassembles_witness :
  let s := [RFail WouldBlock; RChunk [x00; x00; x00]; RFail TimedOut; RChunk [x02; x03; x41];
            RChunk [x00; x00; x00; x01; x02; x00]] in
  poll_frames (S (2 + script_fuel s)) FrameDecoder.new s
    = Some ([[x03; x41]; [x02]], mkDecoder [x00] (16 * 1024), Ok tt).
Proof.
  apply (decoder_reassembles _ [[x03; x41]; [x02]] [x00]).
  - by repeat constructor.
  - by repeat constructor.
  - apply partial_short. simpl. lia.
  - reflexivity.
Defined.

(** ** The blocking reader *)

Lemma read_frame_quiet (s : list read_event) :
  Forall quiet s ->
  exists s', Forall quiet s' /\
    ((exists body, small body /\ script_bytes s = framed body ++ script_bytes s' /\
        read_frame s = Some (s', Ok (Some body))) \/
     (partial (script_bytes s) /\ read_frame s = Some (s', Ok None))).
Proof.
  intros Hs. unfold read_frame.
  destruct (read_exact_quiet s 4 Hs) as (s1 & Hs1 & H1). case_decide as H4.
  2: { rewrite H1. exists s1. split; [done|]. right. split; [|done]. apply partial_short. lia. }
  destruct H1 as [-> Hb1]. set (n := from_be_bytes (take 4 (script_bytes s))).
  destruct (read_exact_quiet s1 (Z.to_nat n) Hs1) as (s2 & Hs2 & H2).
  exists s2. split; [done|]. rewrite Hb1 in H2.
  destruct (FrameDecoder.take_frame (mkDecoder (script_bytes s) 0)) as [[x|] d'] eqn:Ht;
    pose proof Ht as Ht'; unfold FrameDecoder.take_frame in Ht'; cbn [buf chunk_len] in Ht';
    rewrite decide_False in Ht' by lia; fold n in Ht'; case_decide as Hn; simplify_eq.
  - apply take_frame_Some in Ht as (E & Hx & _). cbn [buf] in E.
    rewrite decide_True in H2 by len_solve. destruct H2 as [-> Hb2]. left.
    eexists. split; [exact Hx|]. by rewrite Hb2.
  - apply take_frame_None in Ht as [_ Hp]. right. split; [done|].
    pose proof (from_be_range (take 4 (script_bytes s))) as Hr. fold n in Hr.
    rewrite decide_False in H2 by len_solve. by rewrite H2.
Qed.

(** [read_frame] returns, and a frame uses up at least its prefix. *)
Lemma read_frame_returns {R} `{!Read R, !ReadLaws R} (r : R) :
  exists r' res, read_frame r = Some (r', res) /\
    match res with
    | Ok (Some _) => read_fuel r' < read_fuel r
    | _ => read_fuel r' <= read_fuel r
    end.
Proof.
  unfold read_frame. destruct (read_exact_total r 4) as [[r1 res] E]. rewrite E.
  apply read_exact_spends in E. destruct res as [l|e].
  - destruct (read_exact_total r1 (Z.to_nat (from_be_bytes l))) as [[r2 res] E2]. rewrite E2.
    apply read_exact_spends in E2.
    destruct res as [l'|[]]; eexists _, _; (split; [done|]); simpl in *; lia.
  - destruct e; eexists _, _; (split; [done|]); simpl in *; lia.
Qed.

(** The blocking [read_frame] and the incremental decoder agree: on a
    connection with no faults, [read_frame] returns the body of the next frame
    and leaves the stream right behind it, and when the peer closes before the
    next frame is complete it returns [Ok(None)]. *)
Theorem read_frame_spec (s : list read_event) bodies tail :
  Forall quiet s -> Forall small bodies -> partial tail ->
  script_bytes s = wire bodies ++ tail ->
  exists s', Forall quiet s' /\
    match bodies with
    | [] => read_frame s = Some (s', Ok None)
    | body :: bodies' =>
      read_frame s = Some (s', Ok (Some body)) /\ script_bytes s' = wire bodies' ++ tail
    end.
Proof.
  intros Hs Hb Hp E. destruct (read_frame_quiet s Hs) as (s' & Hs' & [(x & Hx & Ex & Hr)|[Hn Hr]]).
  - exists s'. split; [done|]. rewrite E in Ex. symmetry in Ex.
    apply wire_head in Ex as (bodies' & -> & ->); done.
  - exists s'. split; [done|]. rewrite E in Hn.
    by assert (bodies = []) as -> by (by eapply wire_nil).
Qed.

Lemma read_frame_spec_witness :
  exists s', Forall quiet s' /\
    read_frame [RChunk [x00; x00; x00]; RFail Interrupted; RChunk [x01; x02; x00]]
      = Some (s', Ok (Some [x02])) /\ script_bytes s' = wire [] ++ [x00].
Proof.
  apply (read_frame_spec _ [[x02]] [x00]).
  - by repeat constructor.
  - by repeat constructor.
  - apply partial_short. simpl. lia.
  - reflexivity.
Defined.

(** ** Two limits of the framing layer *)

(** The length prefix is [body_len as u32]: a DATA payload whose body
    reaches 2^32 bytes is framed with a truncated length, so the receiver pops
    a body that is not the one sent and is left in the middle of the payload. *)
Theorem oversized_data_misframed p c :
  (2 ^ 32 <= 1 + zlen p)%Z ->
  exists rest,
    FrameDecoder.pop (mkDecoder (data p) c)
      = (Some (take (Z.to_nat ((1 + zlen p) mod 2 ^ 32)) (T_DATA :: p)), mkDecoder rest c)
    /\ rest <> [] /\ T_DATA :: p <> take (Z.to_nat ((1 + zlen p) mod 2 ^ 32)) (T_DATA :: p).
Proof.
  intros Hp. set (n := ((1 + zlen p) mod 2 ^ 32)%Z).
  assert (Hn : (0 <= n < 2 ^ 32)%Z) by (apply Z.mod_pos_bound; lia).
  exists (drop (Z.to_nat n) (T_DATA :: p)).
  set (b := take (Z.to_nat n) (T_DATA :: p)). set (r := drop (Z.to_nat n) (T_DATA :: p)).
  assert (Hb : zlen b = n) by (unfold b; len_solve).
  assert (Hr : (0 < zlen r)%Z) by (unfold r; len_solve).
  assert (Hd : data p = framed b ++ r).
  { unfold framed. rewrite <- app_assoc. unfold b at 2, r. rewrite take_drop, Hb.
    unfold data, put_len_prefix. rewrite <- app_assoc. unfold wrap_to. by fold n. }
  split; [rewrite Hd; apply take_frame_framed; unfold small; lia|].
  split; [intros E; rewrite E in Hr; done|].
  intros E. apply (f_equal zlen) in E. rewrite Hb, zlen_cons in E. lia.
Qed.

Lemma oversized_data_misframed_witness :
  exists rest,
    FrameDecoder.pop (mkDecoder (data (replicate (Z.to_nat (2 ^ 32)) x00)) 1)
      = (Some (take (Z.to_nat ((1 + zlen (replicate (Z.to_nat (2 ^ 32)) x00)) mod 2 ^ 32))
                 (T_DATA :: replicate (Z.to_nat (2 ^ 32)) x00)), mkDecoder rest 1)
    /\ rest <> [] /\
    T_DATA :: replicate (Z.to_nat (2 ^ 32)) x00
      <> take (Z.to_nat ((1 + zlen (replicate (Z.to_nat (2 ^ 32)) x00)) mod 2 ^ 32))
                 (T_DATA :: replicate (Z.to_nat (2 ^ 32)) x00).
Proof. apply oversized_data_misframed. unfold zlen. rewrite length_replicate. lia. Defined.

(** The derived [Default] decoder has no scratch space: whatever bytes are
    waiting, [read1] reads none of them and reports the connection closed. *)
Theorem default_decoder_reads_nothing b bs (s : list read_event) :
  FrameDecoder.read1 FrameDecoder.default (RChunk (b :: bs) :: s)
    = (FrameDecoder.default, RChunk (b :: bs) :: s, Ok Closed).
Proof. reflexivity. Qed.
