(* ===== verification/ProtocolAsync.v ===== *)
(** * ProtocolAsync: wire framing of the asynchronous crate

    Models [rust-lib-async/src/protocol.rs].  The crate reimplements the
    encoders and [decode] and reads frames through tokio; its types are those
    of [Protocol].  tokio and the [bytes] crate are outside the repository:
    what they promise is the class [AsyncReadLaws] and the parameter
    [capacity] below, of which only the lower bound is known. *)

From S2P Require Import Prelude Io Protocol.
From Stdlib Require Import Strings.Byte.

(** ** Encoders *)

Module Async.

Definition hello (identity : Identity) : bytes :=
  let body_len := (2 + Z.of_nat IDENTITY_SIZE)%Z in
  let b := to_be_bytes 4 (as_u32 body_len) in
  let b := b ++ [T_HELLO] in
  let b := b ++ [PROTOCOL_VERSION] in
  b ++ identity.

Definition heartbeat : bytes := [x00; x00; x00; x01; T_HEARTBEAT].

Definition data (payload : bytes) : bytes :=
  let body_len := (1 + zlen payload)%Z in
  let b := to_be_bytes 4 (as_u32 body_len) in
  let b := b ++ [T_DATA] in
  b ++ payload.

Definition data_req (msg_id : MsgId) (payload : bytes) : bytes :=
  let body_len := (1 + Z.of_nat MSG_ID_SIZE + zlen payload)%Z in
  let b := to_be_bytes 4 (as_u32 body_len) in
  let b := b ++ [T_DATA_REQ] in
  let b := b ++ msg_id in
  b ++ payload.

Definition ack (msg_id : MsgId) : bytes :=
  let body_len := (1 + Z.of_nat MSG_ID_SIZE)%Z in
  let b := to_be_bytes 4 (as_u32 body_len) in
  let b := b ++ [T_ACK] in
  b ++ msg_id.

Definition decode (buf : bytes) : option Envelope :=
  match buf with
  | [] => None
  | t :: body =>
    if decide (t = T_HELLO) then
      if decide (length body < 1 + IDENTITY_SIZE) then None
      else
        version ← body !! 0;
        Some (Hello version (take IDENTITY_SIZE (drop 1 body)))
    else if decide (t = T_HEARTBEAT) then Some Heartbeat
    else if decide (t = T_DATA) then Some (Data body)
    else if decide (t = T_DATA_REQ) then
      if decide (length body < MSG_ID_SIZE) then None
      else Some (DataReq (take MSG_ID_SIZE body) (drop MSG_ID_SIZE body))
    else if decide (t = T_ACK) then
      if decide (length body < MSG_ID_SIZE) then None
      else Some (Ack (take MSG_ID_SIZE body))
    else None
  end.

Definition encode (e : Envelope) : bytes :=
  match e with
  | Hello _ id => hello id
  | Heartbeat => heartbeat
  | Data p => data p
  | DataReq m p => data_req m p
  | Ack m => ack m
  end.

End Async.

(** ** tokio's readers *)

(** [a_read_exact r n] is [r.read_exact(&mut [0; n]).await]; [a_read_buf r k]
    is one [r.read_buf(&mut buf).await] with [k] bytes of spare capacity, its
    result the bytes appended. *)
Class AsyncRead (R : Type) := {
  a_read_exact : R -> nat -> R * io_result bytes;
  a_read_buf : R -> nat -> R * io_result bytes;
  incoming : R -> bytes;
}.

(** What tokio documents of them on a connection that meets no I/O error:
    [read_exact] returns the next [n] bytes, or [UnexpectedEof] if the peer
    closes first; [read_buf] appends at least one byte and at most the spare
    capacity, and appends none only at end of file. *)
Class AsyncReadLaws (R : Type) `{!AsyncRead R} := {
  a_read_exact_ok r n :
    n <= length (incoming r) ->
    exists r', a_read_exact r n = (r', Ok (take n (incoming r))) /\
      incoming r' = drop n (incoming r);
  a_read_exact_eof r n :
    length (incoming r) < n -> exists r', a_read_exact r n = (r', Err UnexpectedEof);
  a_read_buf_ok r k :
    0 < k ->
    exists r' bs, a_read_buf r k = (r', Ok bs) /\ length bs <= k /\
      incoming r = bs ++ incoming r' /\ (bs = [] -> incoming r = []);
}.

(** ** tokio's writers *)

(** [a_write_all w b] is [w.write_all(b).await]; [written] is what has reached
    the peer. *)
Class AsyncWrite (W : Type) := {
  a_write_all : W -> bytes -> W * io_result ();
  a_flush : W -> W * io_result ();
  written : W -> bytes;
}.

(** What tokio documents on a connection that meets no I/O error, for a stream
    that is read and written through one value. *)
Class AsyncDuplexLaws (T : Type) `{!AsyncRead T, !AsyncWrite T} := {
  a_write_all_ok w b :
    exists w', a_write_all w b = (w', Ok tt) /\ written w' = written w ++ b /\
      incoming w' = incoming w;
  a_flush_ok w :
    exists w', a_flush w = (w', Ok tt) /\ written w' = written w /\ incoming w' = incoming w;
  a_read_exact_written w n w' res : a_read_exact w n = (w', res) -> written w' = written w;
  a_read_buf_written w n w' res : a_read_buf w n = (w', res) -> written w' = written w;
}.

Definition write_frame_async {W} `{!AsyncWrite W} (w : W) (frame : bytes) : W * io_result () :=
  match a_write_all w frame with
  | (w, Err e) => (w, Err e)
  | (w, Ok _) =>
    match a_flush w with
    | (w, Err e) => (w, Err e)
    | (w, Ok _) => (w, Ok tt)
    end
  end.

Lemma write_frame_async_ok {T} `{AsyncDuplexLaws T} (w : T) frame :
  exists w', write_frame_async w frame = (w', Ok tt) /\ written w' = written w ++ frame /\
    incoming w' = incoming w.
Proof.
  unfold write_frame_async. destruct (a_write_all_ok w frame) as (w1 & -> & H1 & H2).
  destruct (a_flush_ok w1) as (w2 & -> & H3 & H4). exists w2. by rewrite H3, H4, H1, H2.
Qed.

Section ReadFrame.
Context {R : Type} `{!AsyncRead R}.

(** [BytesMut::with_capacity(n)] reserves [capacity n] bytes, which the
    [bytes] crate promises to be at least [n]. *)
Context (capacity : nat -> nat).

(** The loop [while buf.len() < len { r.read_buf(&mut buf) .. }]. *)
Fixpoint fill_loop (fuel : nat) (r : R) (len : nat) (buf : bytes)
  : option (R * io_result (option bytes)) :=
  match fuel with
  | O => None
  | S fuel =>
    if decide (length buf < len) then
      match a_read_buf r (capacity len - length buf) with
      | (r, Ok []) => Some (r, Ok None)
      | (r, Ok bs) => fill_loop fuel r len (buf ++ bs)
      | (r, Err UnexpectedEof) => Some (r, Ok None)
      | (r, Err e) => Some (r, Err e)
      end
    else Some (r, Ok (Some buf))
  end.

Definition read_frame_async (r : R) : option (R * io_result (option bytes)) :=
  match a_read_exact r 4 with
  | (r, Err UnexpectedEof) => Some (r, Ok None)
  | (r, Err e) => Some (r, Err e)
  | (r, Ok len_buf) =>
    let len := Z.to_nat (from_be_bytes len_buf) in
    fill_loop (S len) r len []
  end.

Context `{!AsyncReadLaws R}.

(** Whatever the size of the buffer, the loop loses and invents no byte, and
    stops at the end of the stream or with at least what was asked for. *)
Lemma fill_loop_at_least fuel r len buf :
  len <= capacity len -> len - length buf < fuel ->
  exists r',
    (exists body, fill_loop fuel r len buf = Some (r', Ok (Some body)) /\ len <= length body /\
       buf ++ incoming r = body ++ incoming r') \/
    (fill_loop fuel r len buf = Some (r', Ok None) /\ length (buf ++ incoming r) < len).
Proof.
  intros Hcap. revert r buf. induction fuel as [|fuel IH]; intros r buf Hf; [lia|].
  cbn [fill_loop]. destruct (decide (length buf < len)) as [Hlt|Hlt].
  - destruct (a_read_buf_ok r (capacity len - length buf)) as (r1 & bs & -> & Hk & Hin & Heof); [lia|].
    destruct bs as [|b bs].
    + rewrite Heof by done. exists r1. right. split; [done|]. rewrite app_nil_r. lia.
    + destruct (IH r1 (buf ++ b :: bs)) as (r2 & H2); [len_solve|].
      exists r2. by rewrite Hin, app_assoc.
  - exists r. left. exists buf. split_and!; [done|lia|done].
Qed.

(** The read of one frame takes no byte of the next one along: it returns what
    the length prefix announces.  [BytesMut::with_capacity] promises only "at
    least", so with a larger buffer this depends on where the reads end. *)
Definition whole_read (r : R) : Prop :=
  match read_frame_async r with
  | Some (_, Ok (Some body)) => length body = Z.to_nat (from_be_bytes (take 4 (incoming r)))
  | _ => True
  end.

#[export] Instance whole_read_dec r : Decision (whole_read r).
Proof. unfold whole_read. repeat case_match; apply _. Defined.

Lemma read_frame_async_cases r :
  (forall n, n <= capacity n) ->
  exists r',
    (exists body, read_frame_async r = Some (r', Ok (Some body)) /\ 4 <= length (incoming r) /\
       Z.to_nat (from_be_bytes (take 4 (incoming r))) <= length body /\
       incoming r = take 4 (incoming r) ++ body ++ incoming r') \/
    (partial (incoming r) /\ read_frame_async r = Some (r', Ok None)).
Proof.
  intros Hcap. unfold read_frame_async.
  destruct (decide (4 <= length (incoming r))) as [H4|H4].
  2: { destruct (a_read_exact_eof r 4) as [r' ->]; [lia|]. exists r'. right.
       split; [apply partial_short; lia|done]. }
  destruct (a_read_exact_ok r 4 H4) as (r1 & -> & H1).
  set (n := from_be_bytes (take 4 (incoming r))).
  destruct (fill_loop_at_least (S (Z.to_nat n)) r1 (Z.to_nat n) [])
    as (r2 & [(body & E & Hl & Hb)|[E Hl]]); [apply Hcap|simpl; lia|..];
    exists r2; rewrite app_nil_l, H1 in *.
  - left. exists body. split_and!; [done..|]. rewrite <- Hb. symmetry. apply take_drop.
  - right. split; [|done].
    destruct (FrameDecoder.take_frame (mkDecoder (incoming r) 0)) as [[x|] d'] eqn:Ht;
      [|by apply take_frame_None in Ht as [_ Hp]].
    unfold FrameDecoder.take_frame in Ht. cbn [buf chunk_len] in Ht. rewrite decide_False in Ht by lia.
    fold n in Ht. case_decide as Hn; [done|]. simplify_eq. pose proof (from_be_range (take 4 (incoming r))) as Hr.
    fold n in Hr. len_solve.
Qed.

Lemma read_frame_async_whole r :
  (forall n, n <= capacity n) -> whole_read r ->
  exists r',
    (exists body, small body /\ incoming r = framed body ++ incoming r' /\
       read_frame_async r = Some (r', Ok (Some body))) \/
    (partial (incoming r) /\ read_frame_async r = Some (r', Ok None)).
Proof.
  intros Hcap Hw.
  destruct (read_frame_async_cases r Hcap) as (r' & [(body & E & H4 & _ & Hin)|H]); exists r'; [left|by right].
  unfold whole_read in Hw. rewrite E in Hw.
  pose proof (from_be_range (take 4 (incoming r))) as Hr.
  assert (zlen (take 4 (incoming r)) = 4%Z) as E4 by (unfold zlen; rewrite length_take_le; lia).
  rewrite E4 in Hr.
  assert (Hz : zlen body = from_be_bytes (take 4 (incoming r))) by (unfold zlen; lia).
  exists body. split_and!; [unfold small; rewrite Hz; exact (proj2 Hr)| |done].
  unfold framed. rewrite Hz. rewrite Hin at 1. rewrite <- app_assoc. f_equal.
  replace 4 with (length (take 4 (incoming r))) at 2 by len_solve. symmetry. apply to_from_be.
Qed.

(** A buffer of exactly the size asked for never does. *)
Lemma exact_whole_read r : (forall n, capacity n = n) -> whole_read r.
Proof.
  intros Hcap. unfold whole_read, read_frame_async.
  destruct (a_read_exact r 4) as [r1 [l|[]]] eqn:E; try done.
  assert (l = take 4 (incoming r)) as ->.
  { destruct (decide (4 <= length (incoming r))) as [H4|H4].
    - destruct (a_read_exact_ok r 4 H4) as (r2 & E' & _). congruence.
    - destruct (a_read_exact_eof r 4) as [r2 E']; [lia|]. congruence. }
  set (len := Z.to_nat _). clearbody len. clear E.
  enough (forall fuel r buf r' body, length buf <= len ->
    fill_loop fuel r len buf = Some (r', Ok (Some body)) -> length body = len) as H.
  { destruct (fill_loop (S len) r1 len []) as [[r2 [[body|]|]]|] eqn:E; try done.
    apply H in E; [done|simpl; lia]. }
  clear r1. induction fuel as [|fuel IH]; intros r1 buf r2 body Hl E; [done|].
  cbn [fill_loop] in E. rewrite Hcap in E. case_decide; [|simplify_eq; lia].
  destruct (a_read_buf_ok r1 (len - length buf)) as (r3 & bs & Er & Hk & _); [lia|].
  rewrite Er in E. destruct bs; [done|]. apply IH in E; [done|len_solve].
Qed.
End ReadFrame.

(** ** A concrete reader

    A pipe that hands out at most [S mtu] bytes per read. *)
Record Pipe := mkPipe {
  mtu : nat;
  queued : bytes;
}.

#[export] Instance Pipe_AsyncRead : AsyncRead Pipe := {
  a_read_exact p n :=
    if decide (n <= length (queued p))
    then (mkPipe (mtu p) (drop n (queued p)), Ok (take n (queued p)))
    else (mkPipe (mtu p) [], Err UnexpectedEof);
  a_read_buf p k :=
    let n := Nat.min k (S (mtu p)) in
    (mkPipe (mtu p) (drop n (queued p)), Ok (take n (queued p)));
  incoming := queued;
}.

#[export] Instance Pipe_AsyncReadLaws : AsyncReadLaws Pipe.
Proof.
  split; simpl.
  - intros p n Hn. rewrite decide_True by done. by eexists.
  - intros p n Hn. rewrite decide_False by lia. by eexists.
  - intros p k Hk. eexists _, _. split; [reflexivity|]. split; [len_solve|].
    cbn [queued]. split; [symmetry; apply take_drop|]. intros E.
    apply (f_equal length) in E. rewrite length_take in E.
    apply nil_length_inv. simpl in E. lia.
Qed.

Lemma Pipe_read_exact m l n :
  n <= length l -> a_read_exact (mkPipe m l) n = (mkPipe m (drop n l), Ok (take n l)).
Proof. intros. simpl. by rewrite decide_True. Qed.

Lemma Pipe_read_buf m l k :
  a_read_buf (mkPipe m l) k
    = (mkPipe m (drop (Nat.min k (S m)) l), Ok (take (Nat.min k (S m)) l)).
Proof. done. Qed.

(** A pipe with its other direction. *)
Record Duplex := mkDuplex {
  d_pipe : Pipe;
  d_sent : bytes;
}.

#[export] Instance Duplex_AsyncRead : AsyncRead Duplex := {
  a_read_exact d n := let '(p, r) := a_read_exact (d_pipe d) n in (mkDuplex p (d_sent d), r);
  a_read_buf d n := let '(p, r) := a_read_buf (d_pipe d) n in (mkDuplex p (d_sent d), r);
  incoming d := incoming (d_pipe d);
}.

#[export] Instance Duplex_AsyncWrite : AsyncWrite Duplex := {
  a_write_all d b := (mkDuplex (d_pipe d) (d_sent d ++ b), Ok tt);
  a_flush d := (d, Ok tt);
  written := d_sent;
}.

#[export] Instance Duplex_AsyncReadLaws : AsyncReadLaws Duplex.
Proof.
  split; cbn [a_read_exact a_read_buf incoming Duplex_AsyncRead]; intros [p o]; cbn [d_pipe d_sent].
  - intros n Hn. destruct (a_read_exact_ok p n Hn) as (p' & -> & E). by eexists.
  - intros n Hn. destruct (a_read_exact_eof p n Hn) as (p' & ->). by eexists.
  - intros k Hk. destruct (a_read_buf_ok p k Hk) as (p' & bs & -> & H). by eexists _, bs.
Qed.

#[export] Instance Duplex_AsyncDuplexLaws : AsyncDuplexLaws Duplex.
Proof.
  split; cbn [a_read_exact a_read_buf a_write_all a_flush written incoming Duplex_AsyncRead
              Duplex_AsyncWrite].
  - intros d b. by eexists.
  - intros d. by eexists.
  - intros [p o] n w' res. cbn [d_pipe d_sent]. destruct (a_read_exact p n). intros. by simplify_eq.
  - intros [p o] n w' res. cbn [d_pipe d_sent]. destruct (a_read_buf p n). intros. by simplify_eq.
Qed.

(** Reading a frame writes nothing. *)
Lemma read_frame_async_written {T} `{!AsyncRead T, !AsyncWrite T, !AsyncDuplexLaws T} capacity (t : T)
    t' res : read_frame_async capacity t = Some (t', res) -> written t' = written t.
Proof.
  assert (Hfill : forall fuel (t : T) len buf t' res,
    fill_loop capacity fuel t len buf = Some (t', res) -> written t' = written t).
  { clear t t' res. induction fuel as [|fuel IH]; intros t len buf t' res E; [done|]. cbn [fill_loop] in E.
    case_decide; [|by simplify_eq].
    destruct (a_read_buf t _) as [t1 [[|b l]|e]] eqn:Er; apply a_read_buf_written in Er.
    - by simplify_eq.
    - apply IH in E. congruence.
    - destruct e; by simplify_eq. }
  unfold read_frame_async. destruct (a_read_exact t 4) as [t1 [l|e]] eqn:Er;
    apply a_read_exact_written in Er; intros E.
  - apply Hfill in E. congruence.
  - destruct e; by simplify_eq.
Qed.

(** The two crates speak the same bytes: every encoder builds the same
    frame, and the two decoders agree on every body. *)
Theorem crates_interoperate :
  (forall e, Async.encode e = encode e) /\ (forall f, Async.decode f = decode f).
Proof. split; [by intros []|done]. Qed.

(** The asynchronous [read_frame] is the same reader as the synchronous
    one: through any tokio stream that keeps tokio's promises, as long as its
    reads end where the frame ends, it returns the next frame's body and stops
    right behind it, and [Ok(None)] when the peer closes before the frame is
    complete; it always returns. *)
Theorem read_frame_async_spec {R} `{!AsyncRead R} `{!AsyncReadLaws R} capacity (r : R)
    bodies tail :
  (forall n, n <= capacity n) -> whole_read capacity r -> Forall small bodies -> partial tail ->
  incoming r = wire bodies ++ tail ->
  exists r',
    match bodies with
    | [] => read_frame_async capacity r = Some (r', Ok None)
    | body :: bodies' =>
      read_frame_async capacity r = Some (r', Ok (Some body)) /\
      incoming r' = wire bodies' ++ tail
    end.
Proof.
  intros Hcap Hw Hb Hp E.
  destruct (read_frame_async_whole capacity r Hcap Hw) as (r' & [(x & Hx & Ex & Hr)|[Hn Hr]]).
  - exists r'. rewrite E in Ex. symmetry in Ex.
    apply wire_head in Ex as (bodies' & -> & ->); done.
  - exists r'. rewrite E in Hn. by assert (bodies = []) as -> by (by eapply wire_nil).
Qed.

(** With a spare byte in the buffer, on a stream that hands out a byte a time. *)
Lemma read_frame_async_spec_witness :
  exists r',
    read_frame_async S (mkPipe 0 [x00; x00; x00; x02; x03; x41; x00])
      = Some (r', Ok (Some [x03; x41])) /\ incoming r' = wire [] ++ [x00].
Proof.
  apply (read_frame_async_spec S (mkPipe 0 [x00; x00; x00; x02; x03; x41; x00])
    [[x03; x41]] [x00]).
  - intros n. lia.
  - vm_compute. reflexivity.
  - by repeat constructor.
  - apply partial_short. simpl. lia.
  - reflexivity.
Defined.

(** Where the reads end is load bearing: [BytesMut::with_capacity] promises only
    "at least", and with one
    spare byte [read_buf] takes the first byte of a pipelined next frame into
    this frame's body. *)
Theorem spare_capacity_swallows body b rest :
  body <> [] -> small body ->
  let p := mkPipe (length body) (framed body ++ b :: rest) in
  read_frame_async (fun n => S n) p
    = Some (mkPipe (length body) rest, Ok (Some (body ++ [b]))).
Proof.
  intros Hne Hs p. unfold read_frame_async, p.
  rewrite Pipe_read_exact by (unfold framed; len_solve).
  rewrite take4_framed, drop4_framed, prefix_of_small, to_nat_zlen by done.
  assert (0 < length body) by (destruct body; simpl; [done|lia]).
  cbn [fill_loop]. rewrite decide_True by (simpl; lia). rewrite Pipe_read_buf.
  replace (body ++ b :: rest) with ((body ++ [b]) ++ rest) by by rewrite <- app_assoc.
  rewrite take_app_length', drop_app_length' by len_solve.
  destruct (body ++ [b]) as [|c l] eqn:E; [by destruct body|]. rewrite <- E.
  destruct (length body) as [|m] eqn:Hm; [lia|]. cbn [fill_loop app].
  rewrite decide_False by len_solve. done.
Qed.

Lemma spare_capacity_swallows_witness :
  read_frame_async (fun n => S n) (mkPipe 1 (framed [x02] ++ [x00; x00]))
    = Some (mkPipe 1 [x00], Ok (Some ([x02] ++ [x00]))).
Proof. apply (spare_capacity_swallows [x02] x00 [x00]); [done|reflexivity]. Defined.
