(* ===== verification/Timers.v ===== *)
(** * Timers: the resend-timer thread of the synchronous broker

    Models [ResendTimers] and [timer_loop] of [rust-lib-sync/src/broker.rs].
    The thread keeps a queue of deadlines and a set of ids still armed; a
    cancelled id leaves its deadline behind as a tombstone.  The contract is a
    finite map from message ids to deadlines ([Countdowns]), and
    [timer_iter_refines] is the simulation between the two. *)

From S2P Require Import Prelude Protocol.
From Stdlib Require Import Sorting.Sorted.

(** ** Data *)

(** [Instant]s and [Duration]s, in nanoseconds. *)
Abbreviation Instant := Z.
Definition RESEND_TIMEOUT : Z := 5000000000.

Inductive TimerMsg :=
| Arm (id : MsgId)
| Cancel (id : MsgId)
| Shutdown.

(** The locals of [timer_loop]. *)
Record TimerState := mkTimer {
  deadlines : list (Instant * MsgId);
  armed : gset MsgId;
}.

Definition timer_init : TimerState := mkTimer [] ∅.

(** What [rx.recv_timeout(wait)] (or [rx.recv()]) returned. *)
Inductive recv_outcome :=
| Received (m : TimerMsg)
| RecvTimeout
| Disconnected.

(** How long the thread is willing to block: for ever on an empty queue,
    otherwise until the front deadline. *)
Definition recv_wait (st : TimerState) (now : Instant) : option Z :=
  match deadlines st with
  | [] => None
  | (deadline, _) :: _ => Some (Z.max 0 (deadline - now))
  end.

(** The [while let] loop at the end of an iteration.  [alive] is whether the
    broker still holds the command receiver; the last component says the
    thread returned because it does not. *)
Fixpoint fire_due (alive : bool) (now : Instant) (dl : list (Instant * MsgId))
    (ar : gset MsgId) : list (Instant * MsgId) * gset MsgId * list MsgId * bool :=
  match dl with
  | [] => ([], ar, [], false)
  | (deadline, id) :: dl' =>
    if decide (now < deadline)%Z then (dl, ar, [], false)
    else if decide (id ∈ ar) then
      if alive then
        let '(dl1, ar1, fired, stop) := fire_due alive now dl' (ar ∖ {[id]}) in
        (dl1, ar1, id :: fired, stop)
      else (dl', ar ∖ {[id]}, [], true)
    else fire_due alive now dl' ar
  end.

(** One turn of the loop: the outcome of the receive, the clock when an armed
    message is stamped, the clock of the firing scan.  The result is the
    message ids sent as [Command::ResendTimeout] and the next state, [None]
    when the thread ends. *)
Definition timer_iter (st : TimerState) (r : recv_outcome) (t_arm t_fire : Instant)
    (alive : bool) : list MsgId * option TimerState :=
  let scan st :=
    let '(dl, ar, fired, stop) := fire_due alive t_fire (deadlines st) (armed st) in
    (fired, if stop then None else Some (mkTimer dl ar)) in
  match r with
  | Disconnected => ([], None)
  | Received (Arm id) =>
    scan (mkTimer (deadlines st ++ [((t_arm + RESEND_TIMEOUT)%Z, id)]) ({[id]} ∪ armed st))
  | Received (Cancel id) => scan (mkTimer (deadlines st) (armed st ∖ {[id]}))
  | Received Shutdown => ([], None)
  | RecvTimeout => scan st
  end.

(** ** The contract: a map of running countdowns *)

Abbreviation Countdowns := (gmap MsgId Instant).

Definition countdown_msg (m : Countdowns) (r : recv_outcome) (t_arm : Instant) : Countdowns :=
  match r with
  | Received (Arm id) => <[id := (t_arm + RESEND_TIMEOUT)%Z]> m
  | Received (Cancel id) => delete id m
  | _ => m
  end.

(** The countdowns that have run out at [now], and the ones still running. *)
Definition due (now : Instant) (m : Countdowns) : Countdowns :=
  filter (fun p => (p.2 <= now)%Z) m.
Definition running (now : Instant) (m : Countdowns) : Countdowns :=
  filter (fun p => (now < p.2)%Z) m.

(** ** Invariant *)

Definition by_deadline (a b : Instant * MsgId) : Prop := (a.1 <= b.1)%Z.

Record timer_inv (now : Instant) (st : TimerState) : Prop := {
  inv_sorted : StronglySorted by_deadline (deadlines st);
  inv_nodup : NoDup (deadlines st).*2;
  inv_armed id : id ∈ armed st -> id ∈ (deadlines st).*2;
  inv_horizon d id : (d, id) ∈ deadlines st -> (d <= now + RESEND_TIMEOUT)%Z;
}.

(** [implements st m]: the armed entries of the queue are the countdowns. *)
Definition implements (st : TimerState) (m : Countdowns) : Prop :=
  forall id d, m !! id = Some d <-> (d, id) ∈ deadlines st /\ id ∈ armed st.

(** ** The firing scan *)

Definition is_due (now : Instant) (ar : gset MsgId) (p : Instant * MsgId) : Prop :=
  (p.1 <= now)%Z /\ p.2 ∈ ar.

#[export] Instance is_due_dec now ar p : Decision (is_due now ar p).
Proof. unfold is_due. apply _. Defined.

(** On a sorted queue with distinct ids the scan takes exactly the due part:
    it fires the armed due ids in deadline order and drops their tombstones. *)
Lemma fire_due_spec now dl ar :
  StronglySorted by_deadline dl -> NoDup dl.*2 ->
  fire_due true now dl ar =
    (filter (fun p => (now < p.1)%Z) dl,
     ar ∖ list_to_set (filter (is_due now ar) dl).*2,
     (filter (is_due now ar) dl).*2, false).
Proof.
  intros Hs. revert ar. induction Hs as [|[d id] dl Hs IH Hd]; intros ar Hnd; [simpl; f_equal; f_equal; f_equal; set_solver|].
  cbn [fire_due]. csimpl in Hnd. apply NoDup_cons in Hnd as [Hid Hnd].
  case_decide as Hnow.
  - rewrite (filter_all (fun p => (now < p.1)%Z)).
    + rewrite (filter_none (is_due now ar)); [simpl; do 3 f_equal; set_solver|].
      intros [d' id'] [E|Hin]%elem_of_cons [Hdue _]; simplify_eq/=; [lia|].
      rewrite Forall_forall in Hd. apply Hd in Hin. unfold by_deadline in Hin. simpl in *. lia.
    + intros [d' id'] [E|Hin]%elem_of_cons; simplify_eq/=; [lia|].
      rewrite Forall_forall in Hd. apply Hd in Hin. unfold by_deadline in Hin. simpl in *. lia.
  - rewrite (filter_cons_False (fun p => (now < p.1)%Z)) by (simpl; lia).
    case_decide as Hin.
    + rewrite IH by done.
      assert (Hf : filter (is_due now (ar ∖ {[id]})) dl = filter (is_due now ar) dl).
      { apply filter_ext_in. unfold is_due.
        intros [d' id'] Hin'. simpl. assert (id' <> id); [|set_solver].
        intros ->. apply Hid. apply list_elem_of_fmap. by exists (d', id). }
      rewrite Hf, (filter_cons_True (is_due now ar)) by (split; simpl; [lia|done]).
      csimpl. do 3 f_equal. set_solver.
    + rewrite IH by done. by rewrite (filter_cons_False (is_due now ar)) by (intros [_ ?]; done).
Qed.

(** ** Preservation and refinement *)

Lemma sorted_snoc dl p :
  StronglySorted by_deadline dl -> (forall q, q ∈ dl -> by_deadline q p) ->
  StronglySorted by_deadline (dl ++ [p]).
Proof.
  induction 1 as [|q dl Hs IH Hq]; intros Hp; simpl; [by repeat constructor|].
  constructor; [apply IH; intros; apply Hp; by right|].
  apply Forall_app. split; [done|]. constructor; [apply Hp; left|done].
Qed.

Lemma sorted_filter (P : Instant * MsgId -> Prop) `{!forall x, Decision (P x)} dl :
  StronglySorted by_deadline dl -> StronglySorted by_deadline (filter P dl).
Proof.
  induction 1 as [|q dl Hs IH Hq]; [constructor|].
  rewrite filter_cons. case_decide; [|done]. constructor; [done|].
  rewrite Forall_forall in *. intros x [_ Hx]%list_elem_of_filter. by apply Hq.
Qed.

Lemma nodup_snd_filter (P : Instant * MsgId -> Prop) `{!forall x, Decision (P x)}
    (dl : list (Instant * MsgId)) :
  NoDup dl.*2 -> NoDup (filter P dl).*2.
Proof.
  induction dl as [|q dl IH]; intros Hnd; [constructor|].
  csimpl in Hnd. apply NoDup_cons in Hnd as [Hq Hnd].
  rewrite filter_cons. case_decide; [|by apply IH]. csimpl. constructor; [|by apply IH].
  intros (x & Hqx & [_ Hx]%list_elem_of_filter)%list_elem_of_fmap.
  apply Hq, list_elem_of_fmap. by exists x.
Qed.

Lemma nodup_snd_inj (dl : list (Instant * MsgId)) d1 d2 id :
  NoDup dl.*2 -> (d1, id) ∈ dl -> (d2, id) ∈ dl -> d1 = d2.
Proof.
  induction dl as [|[d i] dl IH]; intros Hnd H1 H2; [by apply not_elem_of_nil in H1|].
  csimpl in Hnd. apply NoDup_cons in Hnd as [Hi Hnd].
  assert (Hno : forall d', (d', i) ∈ dl -> False).
  { intros d' Hd'. apply Hi, list_elem_of_fmap. by exists (d', i). }
  apply elem_of_cons in H1 as [E1|H1], H2 as [E2|H2]; simplify_eq; eauto; exfalso; eauto.
Qed.

(** Arming a fresh id. *)
Definition fresh (st : TimerState) (r : recv_outcome) : Prop :=
  match r with Received (Arm id) => id ∉ (deadlines st).*2 | _ => True end.

(** The state the scan starts from: the message has been applied. *)
Definition apply_msg (st : TimerState) (r : recv_outcome) (t_arm : Instant) : TimerState :=
  match r with
  | Received (Arm id) =>
    mkTimer (deadlines st ++ [((t_arm + RESEND_TIMEOUT)%Z, id)]) ({[id]} ∪ armed st)
  | Received (Cancel id) => mkTimer (deadlines st) (armed st ∖ {[id]})
  | _ => st
  end.

Lemma apply_msg_inv now st r t_arm :
  timer_inv now st -> fresh st r -> (now <= t_arm)%Z -> timer_inv t_arm (apply_msg st r t_arm).
Proof.
  intros [Hs Hnd Ha Hh] Hf Ht.
  assert (Hh' : forall d id, (d, id) ∈ deadlines st -> (d <= t_arm + RESEND_TIMEOUT)%Z).
  { intros d id Hd. apply Hh in Hd. lia. }
  destruct r as [[id|id|]| |]; simpl in *; try (by split).
  - split; simpl.
    + apply sorted_snoc; [done|]. intros [d i] Hd. apply Hh' in Hd. exact Hd.
    + rewrite fmap_app. apply NoDup_app. split; [done|]. split; [|apply NoDup_singleton].
      intros x Hx [->|[]%elem_of_nil]%elem_of_cons. done.
    + intros i. rewrite fmap_app, elem_of_app. simpl.
      intros [->%elem_of_singleton|Hi]%elem_of_union; [right; by left|left; by apply Ha].
    + intros d i [Hd|[E|[]%elem_of_nil]%elem_of_cons]%elem_of_app; [by apply Hh' in Hd|].
      simplify_eq. lia.
  - split; simpl; try done. intros i Hi. apply Ha. set_solver.
Qed.

Lemma apply_msg_implements st m r t_arm :
  implements st m -> fresh st r ->
  implements (apply_msg st r t_arm) (countdown_msg m r t_arm).
Proof.
  intros HI Hf. destruct r as [[id|id|]| |]; simpl in *; try done; intros i d; simpl.
  - rewrite lookup_insert_Some, (HI i d). split.
    + intros [[-> <-]|[Hne [Hd Hi]]]; set_solver.
    + intros [[Hd|[E|[]%elem_of_nil]%elem_of_cons]%elem_of_app Hi]; [|simplify_eq; by left].
      right. assert (id <> i); [|set_solver]. intros ->. apply Hf, list_elem_of_fmap.
      by exists (d, i).
  - rewrite lookup_delete_Some, (HI i d). set_solver.
Qed.

(** What an iteration that is not told to stop computes. *)
Lemma timer_iter_eq now st r t_arm t_fire :
  timer_inv now st -> fresh st r -> (now <= t_arm)%Z -> r <> Disconnected ->
  r <> Received Shutdown ->
  let st1 := apply_msg st r t_arm in
  let fired := (filter (is_due t_fire (armed st1)) (deadlines st1)).*2 in
  timer_iter st r t_arm t_fire true =
    (fired, Some (mkTimer (filter (fun p => (t_fire < p.1)%Z) (deadlines st1))
                          (armed st1 ∖ list_to_set fired))).
Proof.
  intros HI Hf Ht Hr1 Hr2 st1 fired.
  pose proof (apply_msg_inv _ _ _ _ HI Hf Ht) as [Hs Hnd _ _].
  unfold timer_iter. pose proof (fire_due_spec t_fire _ (armed st1) Hs Hnd) as E.
  unfold st1, fired in *.
  destruct r as [[id|id|]| |]; try done; cbn [apply_msg deadlines armed] in *; by rewrite E.
Qed.

Lemma timer_iter_step now st m r t_arm t_fire :
  timer_inv now st -> implements st m -> fresh st r ->
  (now <= t_arm <= t_fire)%Z -> r <> Disconnected -> r <> Received Shutdown ->
  exists fired st',
    timer_iter st r t_arm t_fire true = (fired, Some st') /\
    timer_inv t_fire st' /\
    implements st' (running t_fire (countdown_msg m r t_arm)) /\
    NoDup fired /\
    (forall id, id ∈ fired <-> is_Some (due t_fire (countdown_msg m r t_arm) !! id)) /\
    (forall id, id ∈ (deadlines st').*2 -> id ∈ (deadlines (apply_msg st r t_arm)).*2).
Proof.
  intros HI Him Hf Ht Hr1 Hr2.
  pose proof (timer_iter_eq now st r t_arm t_fire HI Hf ltac:(lia) Hr1 Hr2) as E.
  cbv zeta in E.
  pose proof (apply_msg_inv _ _ _ _ HI Hf (proj1 Ht)) as [Hs Hnd Ha Hh].
  pose proof (apply_msg_implements _ _ _ t_arm Him Hf) as Him'.
  set (st1 := apply_msg st r t_arm) in *. set (m1 := countdown_msg m r t_arm) in *.
  set (fired := (filter (is_due t_fire (armed st1)) (deadlines st1)).*2) in *.
  assert (Hfired : forall id, id ∈ fired <-> exists d, (d, id) ∈ deadlines st1 /\ (d <= t_fire)%Z /\ id ∈ armed st1).
  { intros id. unfold fired. rewrite list_elem_of_fmap. split.
    - intros ([d i] & -> & [[Hd Hi] Hin]%list_elem_of_filter). by exists d.
    - intros (d & Hin & Hd & Hi). exists (d, id). split; [done|].
      apply list_elem_of_filter. by split; [split|]. }
  eexists _, _. split; [exact E|]. split; [split; simpl|].
  - by apply sorted_filter.
  - by apply nodup_snd_filter.
  - intros id [Hid Hnf]%elem_of_difference. rewrite elem_of_list_to_set, Hfired in Hnf.
    pose proof (Ha _ Hid) as ([d i] & -> & Hin)%list_elem_of_fmap.
    apply list_elem_of_fmap. exists (d, i). split; [done|]. apply list_elem_of_filter.
    split; [|done]. simpl. apply Z.nle_gt. intros Hle. apply Hnf. by exists d.
  - intros d id [_ Hin]%list_elem_of_filter. apply Hh in Hin. lia.
  - split; [|split; [by apply nodup_snd_filter|split]].
    + intros id d. unfold running. rewrite map_lookup_filter_Some, (Him' id d). simpl.
      rewrite list_elem_of_filter, elem_of_difference, elem_of_list_to_set, Hfired. simpl.
      split; [|tauto]. intros [[Hin Hid] Hd]. split; [done|]. split; [done|].
      intros (d' & Hin' & Hd' & _). assert (d = d') by (by eapply nodup_snd_inj). lia.
    + intros id. rewrite Hfired. unfold due. split.
      * intros (d & Hin & Hd & Hid). exists d. apply map_lookup_filter_Some.
        split; [by apply Him'|done].
      * intros [d [Hd Hle]%map_lookup_filter_Some]. apply Him' in Hd as [Hin Hid].
        by exists d.
    + intros id ([d i] & -> & [_ Hin]%list_elem_of_filter)%list_elem_of_fmap.
      apply list_elem_of_fmap. by exists (d, i).
Qed.

(** The tombstone queue implements a map of countdowns: as long as ids are
    armed fresh and the clock does not run backwards, one turn of
    [timer_loop] keeps the queue sorted by deadline, applies the message to
    the map, fires each countdown that has run out exactly once and no other,
    and leaves exactly the countdowns still running. *)
Theorem timer_iter_refines now st m r t_arm t_fire :
  timer_inv now st -> implements st m -> fresh st r ->
  (now <= t_arm <= t_fire)%Z -> r <> Disconnected -> r <> Received Shutdown ->
  exists fired st',
    timer_iter st r t_arm t_fire true = (fired, Some st') /\
    timer_inv t_fire st' /\
    implements st' (running t_fire (countdown_msg m r t_arm)) /\
    NoDup fired /\
    (forall id, id ∈ fired <-> is_Some (due t_fire (countdown_msg m r t_arm) !! id)).
Proof.
  intros HI Him Hf Ht Hr1 Hr2.
  destruct (timer_iter_step now st m r t_arm t_fire HI Him Hf Ht Hr1 Hr2)
    as (fired & st' & ? & ? & ? & ? & ? & _). eauto 10.
Qed.

Lemma timer_init_inv now : timer_inv now timer_init.
Proof.
  split; simpl; [constructor|constructor|set_solver|].
  intros d id []%elem_of_nil.
Qed.

Lemma timer_init_implements : implements timer_init ∅.
Proof. intros id d. rewrite lookup_empty. set_solver. Qed.

Lemma timer_iter_refines_witness :
  exists fired st',
    timer_iter timer_init (Received (Arm [])) 7 8 true = (fired, Some st') /\
    timer_inv 8 st' /\
    implements st' (running 8 (countdown_msg ∅ (Received (Arm [])) 7)) /\
    NoDup fired /\
    (forall id, id ∈ fired <-> is_Some (due 8 (countdown_msg ∅ (Received (Arm [])) 7) !! id)).
Proof.
  apply (timer_iter_refines 0).
  - apply timer_init_inv.
  - apply timer_init_implements.
  - simpl. set_solver.
  - lia.
  - done.
  - done.
Defined.

(** ** Whole runs of the thread *)

Record tick := mkTick {
  tk_recv : recv_outcome;
  tk_arm : Instant;
  tk_fire : Instant;
}.

Fixpoint timer_run (st : TimerState) (ticks : list tick) : list MsgId * option TimerState :=
  match ticks with
  | [] => ([], Some st)
  | tk :: ticks =>
    match timer_iter st (tk_recv tk) (tk_arm tk) (tk_fire tk) true with
    | (fired, None) => (fired, None)
    | (fired, Some st') => let '(fs, o) := timer_run st' ticks in (fired ++ fs, o)
    end
  end.

(** The clock readings of a run come in order. *)
Fixpoint clock_ok (now : Instant) (ticks : list tick) : Prop :=
  match ticks with
  | [] => True
  | tk :: ticks => (now <= tk_arm tk <= tk_fire tk)%Z /\ clock_ok (tk_fire tk) ticks
  end.

Definition arms (tk : tick) : option MsgId :=
  match tk_recv tk with Received (Arm id) => Some id | _ => None end.

Definition mentions (id : MsgId) (tk : tick) : Prop :=
  tk_recv tk = Received (Arm id) \/ tk_recv tk = Received (Cancel id).

Definition keeps_running (tk : tick) : Prop :=
  tk_recv tk <> Disconnected /\ tk_recv tk <> Received Shutdown.

Lemma apply_msg_ids st tk t :
  (deadlines (apply_msg st (tk_recv tk) t)).*2 = (deadlines st).*2 ++ option_list (arms tk).
Proof.
  unfold arms. destruct (tk_recv tk) as [[id|id|]| |]; simpl; rewrite ?app_nil_r; try done.
  by rewrite fmap_app.
Qed.

Lemma omap_arms_cons tk ticks :
  omap arms (tk :: ticks) = option_list (arms tk) ++ omap arms ticks.
Proof. simpl. by destruct (arms tk). Qed.

(** C34: Over any run of the thread with fresh ids and a monotone clock, a
    countdown that is neither cancelled nor armed again fires exactly once if
    some scan happens at or after its deadline and not at all before that; an
    id with no running countdown (cancelled, or already fired) never fires. *)
Theorem timer_run_fires_once now st m ticks id :
  timer_inv now st -> implements st m -> clock_ok now ticks ->
  Forall keeps_running ticks -> Forall (fun tk => ~ mentions id tk) ticks ->
  NoDup (omap arms ticks) ->
  (forall i, i ∈ (deadlines st).*2 -> i ∉ omap arms ticks) ->
  exists fired st', timer_run st ticks = (fired, Some st') /\
    length (filter (eq id) fired) =
      match m !! id with
      | Some d => if decide (Exists (fun tk => (d <= tk_fire tk)%Z) ticks) then 1 else 0
      | None => 0
      end.
Proof.
  revert now st m. induction ticks as [|tk ticks IH];
    intros now st m HI Him Hc Hk Hm Hnd Hfr.
  { exists [], st. split; [done|]. simpl. by destruct (m !! id). }
  destruct Hc as [Ht Hc]. apply Forall_cons in Hk as [[Hk1 Hk2] Hk].
  apply Forall_cons in Hm as [Hm1 Hm].
  rewrite omap_arms_cons in Hnd, Hfr. apply NoDup_app in Hnd as (_ & Hdisj & Hnd').
  assert (Hf : fresh st (tk_recv tk)).
  { unfold fresh. destruct (tk_recv tk) as [[i| |]| |] eqn:E; try done.
    intros Hi. apply (Hfr i Hi). unfold arms at 1. rewrite E. left. }
  destruct (timer_iter_step now st m (tk_recv tk) (tk_arm tk) (tk_fire tk) HI Him Hf Ht Hk1 Hk2)
    as (fired & st1 & E & HI1 & Him1 & Hnd1 & Hfired & Hids).
  set (m1 := countdown_msg m (tk_recv tk) (tk_arm tk)) in *.
  assert (Hm1id : m1 !! id = m !! id).
  { unfold m1, countdown_msg, mentions in *.
    destruct (tk_recv tk) as [[i|i|]| |]; simpl; try done.
    - apply lookup_insert_ne. intros ->. tauto.
    - apply lookup_delete_ne. intros ->. tauto. }
  assert (Hlen : length (filter (eq id) fired) = if decide (id ∈ fired) then 1 else 0).
  { by apply count_nodup. }
  assert (Hfr' : forall i, i ∈ (deadlines st1).*2 -> i ∉ omap arms ticks).
  { intros i Hi. apply Hids in Hi. rewrite apply_msg_ids in Hi.
    apply elem_of_app in Hi as [Hi|Hi]; [|by apply Hdisj].
    apply Hfr in Hi. by apply not_elem_of_app in Hi as [_ Hi]. }
  destruct (IH _ st1 _ HI1 Him1 Hc Hk Hm Hnd' Hfr') as (fs & st' & E' & Hcount).
  exists (fired ++ fs), st'. cbn [timer_run]. rewrite E, E'. split; [done|].
  rewrite filter_app, length_app, Hcount, Hlen.
  specialize (Hfired id). unfold running, due in *.
  rewrite map_lookup_filter in *. rewrite Hm1id in *.
  destruct (m !! id) as [d|]; simpl in *.
  - destruct (decide (d <= tk_fire tk)%Z) as [Hd|Hd].
    + rewrite decide_True by (apply Hfired; by rewrite option_guard_True).
      rewrite option_guard_False by lia. rewrite decide_True by (by left). done.
    + rewrite decide_False by (rewrite Hfired, option_guard_False by done; by intros []).
      rewrite option_guard_True by lia. simpl.
      apply decide_ext. rewrite Exists_cons. tauto.
  - rewrite decide_False by (rewrite Hfired; by intros []). done.
Qed.

Lemma timer_run_fires_once_witness :
  let id := [] in
  let st := mkTimer [(5000000000%Z, id)] {[id]} in
  let ticks := [mkTick RecvTimeout 1 2; mkTick RecvTimeout 3 5000000000;
                mkTick RecvTimeout 5000000001 5000000002] in
  exists fired st', timer_run st ticks = (fired, Some st') /\
    length (filter (eq id) fired) = 1.
Proof.
  set (m := {[[] := 5000000000%Z]} : Countdowns).
  apply (timer_run_fires_once 0 (mkTimer [(5000000000%Z, [])] {[[]]}) m).
  - split; simpl.
    + by repeat constructor.
    + apply NoDup_singleton.
    + set_solver.
    + intros d id [E|[]%elem_of_nil]%elem_of_cons. simplify_eq. unfold RESEND_TIMEOUT. lia.
  - intros i d. unfold m. rewrite lookup_singleton_Some. simpl. set_solver.
  - simpl. lia.
  - by repeat constructor.
  - repeat constructor; intros [?|?]; done.
  - constructor.
  - simpl. set_solver.
Defined.

Lemma fire_due_suffix alive now dl ar dl' ar' fired stop :
  fire_due alive now dl ar = (dl', ar', fired, stop) -> length dl' <= length dl.
Proof.
  revert ar dl' ar' fired stop. induction dl as [|[d id] dl IH]; intros ar dl' ar' fired stop E;
    simpl in E; [by simplify_eq|].
  case_decide; simplify_eq/=; [lia|]. case_decide.
  - destruct alive; simplify_eq; [|lia].
    destruct (fire_due true now dl _) as [[[dl1 ar1] f1] s1] eqn:E1. simplify_eq.
    apply IH in E1. lia.
  - apply IH in E. lia.
Qed.

(** A timeout never wakes the thread for nothing: when the wait computed
    from the front deadline elapses before the scan, the scan takes at least
    that deadline off the queue, so the loop cannot spin. *)
Theorem timeout_makes_progress st t0 w t_arm t_fire fired st' :
  recv_wait st t0 = Some w -> (t0 + w <= t_fire)%Z ->
  timer_iter st RecvTimeout t_arm t_fire true = (fired, Some st') ->
  length (deadlines st') < length (deadlines st).
Proof.
  destruct st as [[|[d id] dl] ar]; unfold recv_wait; simpl; [done|].
  intros Hw Ht E. simplify_eq. rewrite decide_False in E by lia. case_decide.
  - destruct (fire_due true t_fire dl _) as [[[dl1 ar1] f1] s1] eqn:E1.
    apply fire_due_suffix in E1. destruct s1; simplify_eq/=. lia.
  - destruct (fire_due true t_fire dl _) as [[[dl1 ar1] f1] s1] eqn:E1.
    apply fire_due_suffix in E1. destruct s1; simplify_eq/=. lia.
Qed.

Lemma timeout_makes_progress_witness :
  length (deadlines (mkTimer [] ∅)) < length (deadlines (mkTimer [(9%Z, [])] {[[]]})).
Proof.
  apply (timeout_makes_progress (mkTimer [(9%Z, [])] {[[]]}) 4 5 9 9 [[]] (mkTimer [] ∅)).
  - reflexivity.
  - lia.
  - vm_compute. reflexivity.
Defined.
