(* ===== verification/Broker.v ===== *)
(** * Broker: routing, buffering and at-least-once delivery (synchronous crate)

    Models [Broker] and [Command] of [rust-lib-sync/src/broker.rs].  The broker
    thread is a state machine: [handle] is one turn of [Broker::run], from a
    state and a command to the next state and the messages it sends on its
    channels ([Effect]), in the order it sends them.  Every [let _ =
    tx.send(..)] of the source ignores the outcome, so a send is an effect
    whether or not the other end is still there. *)

From S2P Require Import Prelude Protocol Timers.

(** ** Data *)

(** [SendMode] and [DeliveryGuarantee] of [lib.rs]. *)
Inductive SendMode := RoundRobin | Publish.
Inductive DeliveryGuarantee := AtMostOnce | AtLeastOnce.

#[export] Instance SendMode_eq_dec : EqDecision SendMode.
Proof. solve_decision. Defined.
#[export] Instance DeliveryGuarantee_eq_dec : EqDecision DeliveryGuarantee.
Proof. solve_decision. Defined.

Definition MAX_RETRIES : nat := 5.

(** A channel sender, named by the channel it feeds. *)
Abbreviation Sender := nat.

Inductive Command :=
| Send (identity : option Identity) (data : bytes)
| ConnectionUp (identity : Identity) (writer : Sender) (accept : Sender)
| ConnectionDown (identity : Identity)
| Received (identity : Identity) (envelope : Envelope)
| ResendTimeout (msg_id : MsgId)
| Close.

Record Pending := mkPending {
  p_identity : option Identity;
  p_data : bytes;
  p_retries : nat;
}.

Record Broker := mkBroker {
  send_mode : SendMode;
  delivery : DeliveryGuarantee;
  conns : gmap Identity Sender;
  order : list Identity;
  rr_cursor : Z;
  buffer : list (option Identity * bytes);
  pending : gmap MsgId Pending;
  salt : bytes;
  next_id : Z;
}.

(** What the broker does to the outside: a frame to a connection's writer, a
    payload to [Socket::recv], the answer to a registration, and the calls on
    [ResendTimers]. *)
Inductive Effect :=
| Transmit (tx : Sender) (frame : bytes)
| Deliver (identity : Identity) (payload : bytes)
| Accept (tx : Sender) (ok : bool)
| TimerSend (m : TimerMsg).

Definition with_conns c b :=
  mkBroker (send_mode b) (delivery b) c (order b) (rr_cursor b) (buffer b) (pending b)
    (salt b) (next_id b).
Definition with_order o b :=
  mkBroker (send_mode b) (delivery b) (conns b) o (rr_cursor b) (buffer b) (pending b)
    (salt b) (next_id b).
Definition with_rr_cursor r b :=
  mkBroker (send_mode b) (delivery b) (conns b) (order b) r (buffer b) (pending b)
    (salt b) (next_id b).
Definition with_buffer q b :=
  mkBroker (send_mode b) (delivery b) (conns b) (order b) (rr_cursor b) q (pending b)
    (salt b) (next_id b).
Definition with_pending p b :=
  mkBroker (send_mode b) (delivery b) (conns b) (order b) (rr_cursor b) (buffer b) p
    (salt b) (next_id b).
Definition with_next_id n b :=
  mkBroker (send_mode b) (delivery b) (conns b) (order b) (rr_cursor b) (buffer b)
    (pending b) (salt b) n.

(** [Broker::new]; [uuid] is the 16 random bytes of [Uuid::new_v4]. *)
Definition new_broker (mode : SendMode) (del : DeliveryGuarantee) (uuid : bytes) : Broker :=
  mkBroker mode del ∅ [] 0 [] ∅ (take 8 uuid) 0.

(** ** Operations *)

Definition next_msg_id (b : Broker) : MsgId * Broker :=
  let id := salt b ++ to_be_bytes 8 (next_id b) in
  (id, with_next_id (wrapping_add 64 (next_id b) 1) b).

(** [self.order[self.rr_cursor % self.order.len()]]; the remainder is in range
    whenever the vector is not empty. *)
Definition next_round_robin (b : Broker) : option Identity * Broker :=
  if decide (order b = []) then (None, b)
  else
    (order b !! Z.to_nat (rr_cursor b mod zlen (order b)),
     with_rr_cursor (wrapping_add 64 (rr_cursor b) 1) b).

Definition send_to_conn (b : Broker) (id : Identity) (frame : bytes) : list Effect :=
  match conns b !! id with
  | Some tx => [Transmit tx frame]
  | None => []
  end.

(** [conns.values()] visits the connections in some order; [map_to_list]
    stands for it, and no property depends on which order it is. *)
Definition route (b : Broker) (target : option Identity) (frame : bytes)
  : Broker * list Effect :=
  match target with
  | Some id => (b, send_to_conn b id frame)
  | None =>
    match send_mode b with
    | Publish => (b, (fun '(_, tx) => Transmit tx frame) <$> map_to_list (conns b))
    | RoundRobin =>
      match next_round_robin b with
      | (Some id, b) => (b, send_to_conn b id frame)
      | (None, b) => (b, [])
      end
    end
  end.

Definition tracks (b : Broker) (identity : option Identity) : bool :=
  bool_decide (delivery b = AtLeastOnce) &&
  (bool_decide (is_Some identity) || bool_decide (send_mode b = RoundRobin)).

Definition transmit (b : Broker) (identity : option Identity) (payload : bytes)
    (retries : nat) : Broker * list Effect :=
  if tracks b identity then
    let '(msg_id, b) := next_msg_id b in
    let frame := data_req msg_id payload in
    let b := with_pending (<[msg_id := mkPending identity payload retries]> (pending b)) b in
    let '(b, es) := route b identity frame in
    (b, TimerSend (Arm msg_id) :: es)
  else route b identity (data payload).

Definition handle_send (b : Broker) (identity : option Identity) (payload : bytes)
  : Broker * list Effect :=
  if decide (conns b = ∅) then (with_buffer (buffer b ++ [(identity, payload)]) b, [])
  else transmit b identity payload MAX_RETRIES.

(** The flush loop of [handle_up]. *)
Fixpoint send_each (b : Broker) (msgs : list (option Identity * bytes))
  : Broker * list Effect :=
  match msgs with
  | [] => (b, [])
  | (identity, payload) :: msgs =>
    let '(b, es) := handle_send b identity payload in
    let '(b, es') := send_each b msgs in
    (b, es ++ es')
  end.

Definition handle_up (b : Broker) (identity : Identity) (writer accept : Sender)
  : Broker * list Effect :=
  if decide (is_Some (conns b !! identity)) then (b, [Accept accept false])
  else
    let b := with_conns (<[identity := writer]> (conns b)) b in
    let b := with_order (order b ++ [identity]) b in
    if decide (buffer b = []) then (b, [Accept accept true])
    else
      let buffered := buffer b in
      let '(b, es) := send_each (with_buffer [] b) buffered in
      (b, Accept accept true :: es).

(** [order.iter().position(..)] then [order.remove(pos)]: the first occurrence. *)
Fixpoint remove_first (id : Identity) (l : list Identity) : list Identity :=
  match l with
  | [] => []
  | x :: l => if decide (x = id) then l else x :: remove_first id l
  end.

Definition handle_down (b : Broker) (identity : Identity) : Broker * list Effect :=
  let b := with_conns (delete identity (conns b)) b in
  (with_order (remove_first identity (order b)) b, []).

Definition handle_received (b : Broker) (identity : Identity) (envelope : Envelope)
  : Broker * list Effect :=
  match envelope with
  | Data payload => (b, [Deliver identity payload])
  | DataReq msg_id payload =>
    let '(b, es) := route b (Some identity) (ack msg_id) in
    (b, Deliver identity payload :: es)
  | Ack msg_id =>
    match pending b !! msg_id with
    | Some _ => (with_pending (delete msg_id (pending b)) b, [TimerSend (Cancel msg_id)])
    | None => (b, [])
    end
  | Hello _ _ | Heartbeat => (b, [])
  end.

Definition handle_resend (b : Broker) (msg_id : MsgId) : Broker * list Effect :=
  match pending b !! msg_id with
  | None => (b, [])
  | Some p =>
    let b := with_pending (delete msg_id (pending b)) b in
    match p_retries p with
    | O => (b, [])
    | S retries =>
      if decide (conns b = ∅)
      then (with_buffer (buffer b ++ [(p_identity p, p_data p)]) b, [])
      else transmit b (p_identity p) (p_data p) retries
    end
  end.

(** One turn of [Broker::run]; [None] once the loop has ended, when dropping
    the broker shuts the timer thread down. *)
Definition handle (b : Broker) (c : Command) : option Broker * list Effect :=
  match c with
  | Send identity data => let '(b, es) := handle_send b identity data in (Some b, es)
  | ConnectionUp identity writer accept =>
    let '(b, es) := handle_up b identity writer accept in (Some b, es)
  | ConnectionDown identity => let '(b, es) := handle_down b identity in (Some b, es)
  | Received identity envelope =>
    let '(b, es) := handle_received b identity envelope in (Some b, es)
  | ResendTimeout msg_id => let '(b, es) := handle_resend b msg_id in (Some b, es)
  | Close => (None, [TimerSend Shutdown])
  end.

(** [Broker::run] over the commands of the channel. *)
Fixpoint run (b : Broker) (cs : list Command) : option Broker * list Effect :=
  match cs with
  | [] => (Some b, [])
  | c :: cs =>
    match handle b c with
    | (None, es) => (None, es)
    | (Some b, es) => let '(o, es') := run b cs in (o, es ++ es')
    end
  end.

(** ** Frame lemmas: what each operation leaves alone *)

Definition armed_id (e : Effect) : option MsgId :=
  match e with TimerSend (Arm id) => Some id | _ => None end.

(** The message ids the effects arm, in order. *)
Definition arm_ids (es : list Effect) : list MsgId := omap armed_id es.

Definition id_of (s : bytes) (k : Z) : MsgId := s ++ to_be_bytes 8 k.

Lemma arm_ids_app es es' : arm_ids (es ++ es') = arm_ids es ++ arm_ids es'.
Proof. apply omap_app. Qed.

Lemma arm_ids_transmits {A} (f : A -> Sender) (frame : bytes) (l : list A) :
  arm_ids ((fun x => Transmit (f x) frame) <$> l) = [].
Proof. induction l; [done|]. csimpl. done. Qed.

Lemma arm_ids_send_to_conn b id frame : arm_ids (send_to_conn b id frame) = [].
Proof. unfold send_to_conn. by destruct (conns b !! id). Qed.

(** [route] moves the round-robin cursor and nothing else. *)
Lemma route_frame b t f b' es :
  route b t f = (b', es) ->
  arm_ids es = [] /\
  (b' = b \/ (t = None /\ send_mode b = RoundRobin /\
              b' = with_rr_cursor (wrapping_add 64 (rr_cursor b) 1) b)).
Proof.
  unfold route, next_round_robin. intros E.
  destruct t; [simplify_eq; split; [apply arm_ids_send_to_conn|by left]|].
  destruct (send_mode b) eqn:Hm.
  - case_decide; [simplify_eq; by split; [|left]|].
    destruct (order b !! _) eqn:Ho; simplify_eq;
      (split; [by rewrite ?arm_ids_send_to_conn|by right]).
  - simplify_eq. split; [|by left].
    rewrite <- (arm_ids_transmits (fun x : Identity * Sender => x.2) f (map_to_list (conns b'))).
    f_equal. apply list_fmap_ext. by intros ? [].
Qed.

(** The part of the state that only connection events change. *)
Record same_links (b b' : Broker) : Prop := {
  sl_mode : send_mode b' = send_mode b;
  sl_delivery : delivery b' = delivery b;
  sl_conns : conns b' = conns b;
  sl_order : order b' = order b;
  sl_salt : salt b' = salt b;
}.

#[export] Instance same_links_refl : Reflexive same_links.
Proof. by split. Qed.

#[export] Instance same_links_trans : Transitive same_links.
Proof. intros a b c [] []. split; congruence. Qed.

Lemma same_links_tracks b b' i : same_links b b' -> tracks b' i = tracks b i.
Proof. intros [Hm Hd _ _ _]. unfold tracks. by rewrite Hm, Hd. Qed.

Lemma route_links b t f b' es : route b t f = (b', es) -> same_links b b'.
Proof. intros [_ [->|(_ & _ & ->)]]%route_frame; by split. Qed.

(** [transmit] on a message that is tracked, and on one that is not. *)
Lemma transmit_frame b i p n b' es :
  transmit b i p n = (b', es) ->
  same_links b b' /\ buffer b' = buffer b /\
  if tracks b i then
    pending b' = <[id_of (salt b) (next_id b) := mkPending i p n]> (pending b) /\
    next_id b' = wrapping_add 64 (next_id b) 1 /\
    arm_ids es = [id_of (salt b) (next_id b)]
  else pending b' = pending b /\ next_id b' = next_id b /\ arm_ids es = [].
Proof.
  unfold transmit. destruct (tracks b i).
  - destruct (next_msg_id b) as [id b1] eqn:E1. unfold next_msg_id in E1.
    destruct (route _ i _) as [b2 es2] eqn:E2. intros; simplify_eq.
    pose proof (route_links _ _ _ _ _ E2) as [? ? ? ? ?]; simpl in *.
    apply route_frame in E2 as [Ha Hb]. csimpl. rewrite Ha.
    split; [by split|]. destruct Hb as [->|(_ & _ & ->)]; done.
  - intros E. pose proof (route_links _ _ _ _ _ E).
    apply route_frame in E as [Ha Hb]. split; [done|]. destruct Hb as [->|(_ & _ & ->)]; done.
Qed.

(** ** Link invariant: the connection table, the round-robin order and the
    buffer agree *)

Record links_inv (b : Broker) : Prop := {
  li_nodup : NoDup (order b);
  li_order id : id ∈ order b <-> is_Some (conns b !! id);
  li_buffer : conns b <> ∅ -> buffer b = [];
}.

Lemma same_links_inv b b' :
  links_inv b -> same_links b b' -> (conns b <> ∅ -> buffer b' = []) -> links_inv b'.
Proof. intros [H1 H2 H3] [? ? Hc Ho ?] Hb. split; rewrite ?Ho, ?Hc; auto. Qed.

Lemma transmit_links_inv b i p n b' es :
  links_inv b -> transmit b i p n = (b', es) -> links_inv b'.
Proof.
  intros HI (Hl & Hb & _)%transmit_frame. apply (same_links_inv b); [done..|].
  rewrite Hb. apply HI.
Qed.

Lemma handle_send_links b i p b' es :
  handle_send b i p = (b', es) -> same_links b b'.
Proof.
  unfold handle_send. case_decide; intros E; [simplify_eq; by split|].
  by apply transmit_frame in E as [].
Qed.

Lemma handle_send_links_inv b i p b' es :
  links_inv b -> handle_send b i p = (b', es) -> links_inv b'.
Proof.
  intros HI. unfold handle_send. case_decide as Hc; intros E.
  - simplify_eq. apply (same_links_inv b); [done|by split|done].
  - by apply transmit_links_inv in E.
Qed.

Lemma send_each_links b ms b' es : send_each b ms = (b', es) -> same_links b b'.
Proof.
  revert b es. induction ms as [|[i p] ms IH]; intros b es E; simpl in E; [by simplify_eq|].
  destruct (handle_send b i p) as [b1 es1] eqn:E1.
  destruct (send_each b1 ms) as [b2 es2] eqn:E2. simplify_eq.
  transitivity b1; [by eapply handle_send_links|by eapply IH].
Qed.

Lemma send_each_links_inv b ms b' es :
  links_inv b -> send_each b ms = (b', es) -> links_inv b'.
Proof.
  revert b es. induction ms as [|[i p] ms IH]; intros b es HI E; simpl in E.
  - by simplify_eq.
  - destruct (handle_send b i p) as [b1 es1] eqn:E1.
    destruct (send_each b1 ms) as [b2 es2] eqn:E2. simplify_eq.
    eauto using handle_send_links_inv.
Qed.

Lemma elem_of_remove_first id x l :
  NoDup l -> x ∈ remove_first id l <-> x ∈ l /\ x <> id.
Proof.
  induction 1 as [|y l Hy Hl IH]; simpl; [set_solver|].
  case_decide; subst; [|rewrite !elem_of_cons, IH]; set_solver.
Qed.

Lemma nodup_remove_first id l : NoDup l -> NoDup (remove_first id l).
Proof.
  induction 1 as [|y l Hy Hl IH]; simpl; [constructor|].
  case_decide; [done|]. constructor; [|done]. rewrite elem_of_remove_first by done. tauto.
Qed.

Lemma handle_up_links_inv b id w a b' es :
  links_inv b -> handle_up b id w a = (b', es) -> links_inv b'.
Proof.
  intros HI. unfold handle_up. case_decide as Hid; [by intros; simplify_eq|].
  set (b1 := with_order _ _).
  assert (HI1 : links_inv (with_buffer [] b1)).
  { destruct HI as [H1 H2 H3]. split; simpl.
    - apply NoDup_app. split; [done|]. split; [|apply NoDup_singleton].
      intros x Hx ->%list_elem_of_singleton. by apply Hid, H2.
    - intros x. rewrite elem_of_app, list_elem_of_singleton, H2, lookup_insert_is_Some. tauto || (destruct (decide (id = x)); naive_solver).
    - done. }
  case_decide as Hb; intros E.
  - injection E as <- _. apply (same_links_inv (with_buffer [] b1)); [done|by split|done].
  - destruct (send_each _ _) as [b2 es2] eqn:E2. simplify_eq.
    by eapply send_each_links_inv.
Qed.

Lemma handle_down_links_inv b id b' es :
  links_inv b -> handle_down b id = (b', es) -> links_inv b'.
Proof.
  intros [H1 H2 H3] E. unfold handle_down in E. simplify_eq. split; simpl.
  - by apply nodup_remove_first.
  - intros x. rewrite elem_of_remove_first, H2, lookup_delete_is_Some by done. naive_solver.
  - intros Hc. apply H3. intros E. apply Hc. rewrite E. apply delete_empty.
Qed.

Lemma handle_received_links_inv b id e b' es :
  links_inv b -> handle_received b id e = (b', es) -> links_inv b'.
Proof.
  intros HI. unfold handle_received. destruct e as [| | |m p|m]; intros E; simplify_eq/=; try done.
  destruct (pending b !! m); simplify_eq; [|done].
  apply (same_links_inv b); [done|by split|apply HI].
Qed.

Lemma handle_resend_links_inv b id b' es :
  links_inv b -> handle_resend b id = (b', es) -> links_inv b'.
Proof.
  intros HI. unfold handle_resend. destruct (pending b !! id) as [p|]; [|by intros; simplify_eq].
  set (b1 := with_pending _ b).
  assert (HI1 : links_inv b1) by (apply (same_links_inv b); [done|by split|apply HI]).
  destruct (p_retries p); [by intros; simplify_eq|].
  case_decide as Hc; intros E; simplify_eq.
  - apply (same_links_inv b1); [done|by split|done].
  - by apply transmit_links_inv in E.
Qed.

Lemma handle_links_inv b c b' es :
  links_inv b -> handle b c = (Some b', es) -> links_inv b'.
Proof.
  intros HI. destruct c; cbn [handle]; intros E; simplify_eq; case_match; simplify_eq;
    eauto using handle_send_links_inv, handle_up_links_inv, handle_down_links_inv,
      handle_received_links_inv, handle_resend_links_inv.
Qed.

Lemma new_links_inv mode del uuid : links_inv (new_broker mode del uuid).
Proof. split; simpl; [constructor| |done]. intros id. rewrite lookup_empty.
  split; [by intros ?%elem_of_nil|by intros []]. Qed.

Lemma run_links_inv b cs b' es :
  links_inv b -> run b cs = (Some b', es) -> links_inv b'.
Proof.
  revert b es. induction cs as [|c cs IH]; intros b es HI E; simpl in E; [by simplify_eq|].
  destruct (handle b c) as [[b1|] es1] eqn:E1; [|done].
  destruct (run b1 cs) as [o es2] eqn:E2. simplify_eq.
  eauto using handle_links_inv.
Qed.

(** ** Message ids *)

(** [issues b es b']: the step armed the next ids of the counter, in order and
    with no gap, and every message newly pending is one of them. *)
Record issues (b : Broker) (es : list Effect) (b' : Broker) : Prop := {
  is_salt : salt b' = salt b;
  is_next : next_id b' = as_u64 (next_id b + zlen (arm_ids es));
  is_arms : arm_ids es = id_of (salt b) <$> seqZ (next_id b) (zlen (arm_ids es));
  is_pending id : is_Some (pending b' !! id) -> is_Some (pending b !! id) \/ id ∈ arm_ids es;
}.

Definition id_range (b : Broker) : Prop := (0 <= next_id b < 2 ^ 64)%Z.

Lemma id_of_congr s a c : as_u64 a = as_u64 c -> id_of s a = id_of s c.
Proof.
  unfold id_of, wrap_to. intros E. f_equal.
  rewrite <- (to_be_mod 8 8 a), <- (to_be_mod 8 8 c) by lia.
  change (256 ^ Z.of_nat 8)%Z with (2 ^ 64)%Z. by rewrite E.
Qed.

Lemma id_of_seq_congr s a c n :
  as_u64 a = as_u64 c -> id_of s <$> seqZ a n = id_of s <$> seqZ c n.
Proof.
  intros E. unfold seqZ. rewrite <- !list_fmap_compose. apply list_fmap_ext.
  intros _ i _. simpl. apply id_of_congr. unfold wrap_to in *.
  by rewrite <- (Zplus_mod_idemp_r a), E, Zplus_mod_idemp_r.
Qed.

Lemma issues_range b es b' : issues b es b' -> id_range b'.
Proof. intros [_ Hn _ _]. unfold id_range. rewrite Hn. apply (wrap_to_range 64). lia. Qed.

Lemma issues_none b es b' :
  id_range b -> salt b' = salt b -> next_id b' = next_id b -> arm_ids es = [] ->
  (forall id, is_Some (pending b' !! id) -> is_Some (pending b !! id)) -> issues b es b'.
Proof.
  intros Hr Hs Hn Ha Hp. split; rewrite ?Ha; [done| |done|eauto].
  rewrite zlen_nil, Z.add_0_r, wrap_to_small; done.
Qed.

Lemma issues_trans b es1 b1 es2 b2 :
  issues b es1 b1 -> issues b1 es2 b2 -> issues b (es1 ++ es2) b2.
Proof.
  intros [Hs1 Hn1 Ha1 Hp1] [Hs2 Hn2 Ha2 Hp2]. split.
  - congruence.
  - rewrite Hn2, Hn1, arm_ids_app, zlen_app. unfold wrap_to.
    rewrite Zplus_mod_idemp_l. f_equal. lia.
  - rewrite arm_ids_app, zlen_app, seqZ_app, fmap_app, <- Ha1 by apply zlen_nonneg.
    f_equal. rewrite Ha2 at 1. rewrite Hs1. apply id_of_seq_congr.
    rewrite Hn1. apply Zmod_mod.
  - intros id [H|H]%Hp2; rewrite arm_ids_app, elem_of_app; [|tauto]. apply Hp1 in H as [?|?]; tauto.
Qed.

Lemma transmit_issues b i p n b' es :
  id_range b -> transmit b i p n = (b', es) -> issues b es b'.
Proof.
  intros Hr ([_ _ _ _ Hs] & _ & H)%transmit_frame. destruct (tracks b i).
  - destruct H as (Hp & Hn & Ha). split; rewrite ?Ha; [done|done|done|].
    intros id. rewrite Hp, lookup_insert_is_Some. set_solver.
  - destruct H as (Hp & Hn & Ha). apply issues_none; try done. by rewrite Hp.
Qed.

Lemma handle_send_issues b i p b' es :
  id_range b -> handle_send b i p = (b', es) -> issues b es b'.
Proof.
  intros Hr. unfold handle_send. case_decide; intros E.
  - simplify_eq. by apply issues_none.
  - by eapply transmit_issues.
Qed.

Lemma send_each_issues b ms b' es :
  id_range b -> send_each b ms = (b', es) -> issues b es b'.
Proof.
  revert b b' es. induction ms as [|[i p] ms IH]; intros b b' es Hr E; simpl in E.
  - simplify_eq. by apply issues_none.
  - destruct (handle_send b i p) as [b1 es1] eqn:E1.
    destruct (send_each b1 ms) as [b2 es2] eqn:E2. simplify_eq.
    pose proof (handle_send_issues _ _ _ _ _ Hr E1) as H1.
    eauto using issues_trans, issues_range.
Qed.

Lemma handle_up_issues b id w a b' es :
  id_range b -> handle_up b id w a = (b', es) -> issues b es b'.
Proof.
  intros Hr. unfold handle_up. case_decide; [intros; simplify_eq; by apply issues_none|].
  set (b1 := with_order _ _). case_decide; intros E.
  - injection E as <- <-. by apply issues_none.
  - destruct (send_each _ _) as [b2 es2] eqn:E2. simplify_eq.
    apply send_each_issues in E2; [|done]. by destruct E2.
Qed.

Lemma handle_resend_issues b id b' es :
  id_range b -> handle_resend b id = (b', es) -> issues b es b'.
Proof.
  intros Hr. unfold handle_resend.
  destruct (pending b !! id) as [p|]; [|intros; simplify_eq; by apply issues_none].
  set (b1 := with_pending _ b).
  assert (H1 : issues b [] b1).
  { apply issues_none; try done. intros x. simpl. rewrite lookup_delete_is_Some. tauto. }
  destruct (p_retries p) as [|r]; [by intros; simplify_eq|].
  case_decide; intros E.
  - injection E as <- <-. by destruct H1.
  - apply (issues_trans b [] b1); [done|]. by apply transmit_issues in E.
Qed.

Lemma handle_received_issues b id e b' es :
  id_range b -> handle_received b id e = (b', es) -> issues b es b'.
Proof.
  intros Hr. unfold handle_received.
  destruct e as [v i| |p|m p|m]; intros E; simplify_eq/=; try (by apply issues_none).
  - apply issues_none; try done. csimpl. apply arm_ids_send_to_conn.
  - destruct (pending b !! m); simplify_eq; [|by apply issues_none].
    apply issues_none; try done. intros x. simpl. rewrite lookup_delete_is_Some. tauto.
Qed.

Lemma handle_issues b c b' es :
  id_range b -> handle b c = (Some b', es) -> issues b es b'.
Proof.
  intros Hr. destruct c; cbn [handle]; intros E; simplify_eq; case_match; simplify_eq;
    eauto using handle_send_issues, handle_up_issues, handle_received_issues,
      handle_resend_issues.
  unfold handle_down in *. simplify_eq. by apply issues_none.
Qed.

Lemma run_issues b cs b' es :
  id_range b -> run b cs = (Some b', es) -> issues b es b'.
Proof.
  revert b es. induction cs as [|c cs IH]; intros b es Hr E; simpl in E.
  - simplify_eq. by apply issues_none.
  - destruct (handle b c) as [[b1|] es1] eqn:E1; [|done].
    destruct (run b1 cs) as [o es2] eqn:E2. simplify_eq.
    pose proof (handle_issues _ _ _ _ Hr E1) as H1. eauto using issues_trans, issues_range.
Qed.

Lemma id_of_inj s a c :
  (0 <= a < 2 ^ 64)%Z -> (0 <= c < 2 ^ 64)%Z -> id_of s a = id_of s c -> a = c.
Proof. intros Ha Hc E%(inj (app s)). by eapply (to_be_bytes_inj 8). Qed.

Lemma nodup_ids s a n :
  (0 <= a)%Z -> (a + n <= 2 ^ 64)%Z -> NoDup (id_of s <$> seqZ a n).
Proof.
  intros Ha Hn. apply NoDup_fmap_2_strong; [|apply NoDup_seqZ].
  intros x y Hx%elem_of_seqZ Hy%elem_of_seqZ. apply id_of_inj; lia.
Qed.

(** ** No loss under at-least-once *)

Definition contents (p : Pending) : option Identity * bytes := (p_identity p, p_data p).

(** The messages the broker still answers for: buffered, or sent and waiting
    for an ack. *)
Definition outstanding (b : Broker) : list (option Identity * bytes) :=
  buffer b ++ (contents <$> (map_to_list (pending b)).*2).

(** The messages a command hands in, and the ones it settles: acknowledged, or
    timed out with no retry left. *)
Definition submits (c : Command) : list (option Identity * bytes) :=
  match c with Send i d => [(i, d)] | _ => [] end.

Definition settles (b : Broker) (c : Command) : list (option Identity * bytes) :=
  match c with
  | Received _ (Ack m) => option_list (contents <$> pending b !! m)
  | ResendTimeout m =>
    match pending b !! m with
    | Some p => if decide (p_retries p = 0) then [contents p] else []
    | None => []
    end
  | _ => []
  end.

(** Round-robin with at-least-once: every message is tracked. *)
Definition reliable (b : Broker) : Prop := delivery b = AtLeastOnce /\ send_mode b = RoundRobin.

Record ids_inv (b : Broker) : Prop := {
  ii_range : id_range b;
  ii_below id : is_Some (pending b !! id) ->
    exists k, id = id_of (salt b) k /\ (0 <= k < next_id b)%Z;
}.

Lemma new_ids_inv mode del uuid : ids_inv (new_broker mode del uuid).
Proof.
  split; [unfold id_range; simpl; lia|]. intros id. simpl. rewrite lookup_empty. by intros [].
Qed.

Lemma issues_ids_inv b es b' :
  ids_inv b -> issues b es b' -> (next_id b + zlen (arm_ids es) < 2 ^ 64)%Z -> ids_inv b'.
Proof.
  intros [Hr Hb] HI Hlt. pose proof (issues_range _ _ _ HI) as Hr'.
  destruct HI as [Hs Hn Ha Hp]. unfold id_range in Hr.
  pose proof (zlen_nonneg (arm_ids es)). rewrite wrap_to_small in Hn by lia.
  split; [done|]. intros id [H1|H1]%Hp.
  - apply Hb in H1 as (k & -> & Hk). exists k. rewrite Hs, Hn. split; [done|lia].
  - rewrite Ha in H1. apply list_elem_of_fmap in H1 as (k & -> & Hk%elem_of_seqZ).
    exists k. rewrite Hs, Hn. split; [done|]. lia.
Qed.

Lemma next_id_fresh b : ids_inv b -> pending b !! id_of (salt b) (next_id b) = None.
Proof.
  intros [Hr Hb]. destruct (pending b !! _) eqn:E; [|done].
  destruct (Hb _ (mk_is_Some _ _ E)) as (k & Hk & Hlt).
  apply id_of_inj in Hk; unfold id_range in Hr; lia.
Qed.

Lemma outstanding_insert b id p :
  pending b !! id = None ->
  buffer b ++ (contents <$> (map_to_list (<[id := p]> (pending b))).*2)
    ≡ₚ contents p :: outstanding b.
Proof.
  intros Hid. unfold outstanding. rewrite map_to_list_insert by done. csimpl.
  by rewrite <- Permutation_middle.
Qed.

Lemma outstanding_delete b id p :
  pending b !! id = Some p ->
  outstanding b ≡ₚ
    contents p :: buffer b ++ (contents <$> (map_to_list (delete id (pending b))).*2).
Proof.
  intros Hid. unfold outstanding. rewrite <- (map_to_list_delete _ _ _ Hid). csimpl.
  by rewrite <- Permutation_middle.
Qed.

Lemma reliable_tracks b i : reliable b -> tracks b i = true.
Proof.
  intros [Hd Hm]. unfold tracks. rewrite Hd, Hm.
  rewrite !bool_decide_eq_true_2 by done. apply orb_true_r.
Qed.

Lemma same_links_reliable b b' : same_links b b' -> reliable b -> reliable b'.
Proof. intros [Hm Hd _ _ _]. unfold reliable. by rewrite Hm, Hd. Qed.

Lemma transmit_outstanding b i p n b' es :
  ids_inv b -> reliable b -> transmit b i p n = (b', es) ->
  outstanding b' ≡ₚ (i, p) :: outstanding b.
Proof.
  intros HI Hrel (_ & Hb & H)%transmit_frame. rewrite reliable_tracks in H by done.
  destruct H as (Hp & _ & _). unfold outstanding at 1. rewrite Hp, Hb.
  rewrite outstanding_insert by by apply next_id_fresh. done.
Qed.

Lemma handle_send_outstanding b i p b' es :
  ids_inv b -> reliable b -> handle_send b i p = (b', es) ->
  outstanding b' ≡ₚ (i, p) :: outstanding b.
Proof.
  intros HI Hrel. unfold handle_send. case_decide; intros E.
  - simplify_eq. unfold outstanding. simpl. rewrite <- app_assoc. simpl.
    by rewrite <- Permutation_middle.
  - by eapply transmit_outstanding.
Qed.

Lemma send_each_outstanding b ms b' es :
  ids_inv b -> reliable b -> send_each b ms = (b', es) ->
  (next_id b + zlen (arm_ids es) < 2 ^ 64)%Z ->
  outstanding b' ≡ₚ ms ++ outstanding b.
Proof.
  revert b b' es. induction ms as [|[i p] ms IH]; intros b b' es HI Hrel E Hlt; simpl in E.
  - by simplify_eq.
  - destruct (handle_send b i p) as [b1 es1] eqn:E1.
    destruct (send_each b1 ms) as [b2 es2] eqn:E2. simplify_eq.
    rewrite arm_ids_app, zlen_app in Hlt.
    pose proof (zlen_nonneg (arm_ids es1)). pose proof (zlen_nonneg (arm_ids es2)).
    pose proof (handle_send_issues _ _ _ _ _ (ii_range _ HI) E1) as H1.
    assert (HI1 : ids_inv b1) by (eapply issues_ids_inv; [done..|lia]).
    assert (next_id b1 = next_id b + zlen (arm_ids es1))%Z as Hn.
    { rewrite (is_next _ _ _ H1). apply wrap_to_small.
      pose proof (ii_range _ HI) as Hr. unfold id_range in Hr. lia. }
    rewrite (IH _ _ _ HI1 (same_links_reliable _ _ (handle_send_links _ _ _ _ _ E1) Hrel) E2)
      by lia.
    rewrite (handle_send_outstanding _ _ _ _ _ HI Hrel E1). simpl.
    by rewrite <- Permutation_middle.
Qed.

Lemma handle_conserves b c b' es :
  ids_inv b -> reliable b -> handle b c = (Some b', es) ->
  (next_id b + zlen (arm_ids es) < 2 ^ 64)%Z ->
  settles b c ++ outstanding b' ≡ₚ submits c ++ outstanding b.
Proof.
  intros HI Hrel. destruct c as [i d|id w a|id|id e|m|]; cbn [handle settles submits];
    intros E Hlt; simplify_eq.
  - destruct (handle_send b i d) as [b1 es1] eqn:E1. simplify_eq.
    by rewrite (handle_send_outstanding _ _ _ _ _ HI Hrel E1).
  - unfold handle_up in E. case_decide; [by simplify_eq|]. case_decide; [by simplify_eq|].
    simpl in E. destruct (send_each _ _) as [b1 es1] eqn:E1. simplify_eq.
    apply send_each_outstanding in E1; [|by destruct HI|done|done]. by rewrite E1.
  - by simplify_eq/=.
  - unfold handle_received in E. destruct e as [| | |m p|m]; simplify_eq/=; try done.
    destruct (pending b !! m) as [p|] eqn:Hm; simplify_eq/=; [|done].
    by rewrite (outstanding_delete _ _ _ Hm).
  - unfold handle_resend in E. destruct (pending b !! m) as [p|] eqn:Hm; simplify_eq/=; [|done].
    rewrite (outstanding_delete _ _ _ Hm).
    set (b1 := with_pending (delete m (pending b)) b) in *.
    destruct (p_retries p) as [|r] eqn:Hr; simplify_eq/=; [done|].
    case_decide.
    + simplify_eq/=. unfold outstanding. simpl. rewrite <- app_assoc. symmetry.
      apply Permutation_middle.
    + destruct (transmit _ _ _ _) as [b2 es2] eqn:E2. simplify_eq.
      apply transmit_outstanding in E2; [done| |done].
      destruct HI as [Hrange Hb]. split; [done|]. intros x. simpl.
      rewrite lookup_delete_is_Some. intros [_ Hx]. by apply Hb.
Qed.

Lemma handle_links b c b' es : handle b c = (Some b', es) ->
  send_mode b' = send_mode b /\ delivery b' = delivery b.
Proof.
  destruct c as [i d|id w a|id|id e|m|]; cbn [handle]; intros E; simplify_eq.
  - destruct (handle_send b i d) eqn:E1. simplify_eq. by destruct (handle_send_links _ _ _ _ _ E1).
  - unfold handle_up in E. case_decide; [by simplify_eq|]. case_decide; [by simplify_eq|].
    simpl in E. destruct (send_each _ _) as [b1 es1] eqn:E1. simplify_eq.
    by apply send_each_links in E1 as [].
  - by simplify_eq/=.
  - unfold handle_received in E. destruct e as [| | |m p|m]; simplify_eq/=; try done.
    by destruct (pending b !! m); simplify_eq/=.
  - unfold handle_resend in E. destruct (pending b !! m); simplify_eq/=; [|done].
    destruct (p_retries _); simplify_eq/=; [done|]. case_decide; simplify_eq/=; [done|].
    destruct (transmit _ _ _ _) eqn:E1. simplify_eq.
    by apply transmit_frame in E1 as [[] _].
Qed.
