(* ===== verification/BrokerProps.v ===== *)
(** * BrokerProps: what the synchronous broker promises

    The theorems about whole runs of [Broker.run] and about each routing
    decision, on top of the lemmas of [Broker]. *)

From S2P Require Import Prelude Protocol Timers Broker.
From Stdlib Require Import Strings.Byte.

(** A small run used by the witnesses: two peers connect, three messages are
    sent, one is acknowledged. *)
Definition peerA : Identity := replicate 16 x0a.
Definition peerB : Identity := replicate 16 x0b.
Definition demo_uuid : bytes := replicate 16 x55.
Definition demo_cmds : list Command :=
  [Send None [x61]; ConnectionUp peerA 1 101; ConnectionUp peerB 2 102;
   Send None [x62]; Send None [x63];
   Received peerA (Ack (id_of (take 8 demo_uuid) 0)); ConnectionDown peerB].

(** ** Invariants of every run *)

(** C36: Whatever commands the broker has processed, the round-robin order
    lists exactly the connected identities, each once, and the send buffer is
    empty whenever some peer is connected. *)
Theorem run_keeps_links mode del uuid cs b es :
  run (new_broker mode del uuid) cs = (Some b, es) ->
  NoDup (order b) /\ (forall id, id ∈ order b <-> is_Some (conns b !! id)) /\
  (conns b <> ∅ -> buffer b = []).
Proof. intros E. by destruct (run_links_inv _ _ _ _ (new_links_inv mode del uuid) E). Qed.

Definition demo_end : option Broker * list Effect :=
  Eval vm_compute in run (new_broker RoundRobin AtLeastOnce demo_uuid) demo_cmds.

Definition demo_broker : Broker :=
  Eval vm_compute in default (new_broker RoundRobin AtLeastOnce demo_uuid) demo_end.1.

Lemma run_keeps_links_witness :
  NoDup (order demo_broker) /\
  (forall id, id ∈ order demo_broker <-> is_Some (conns demo_broker !! id)) /\
  (conns demo_broker <> ∅ -> buffer demo_broker = []).
Proof.
  apply (run_keeps_links RoundRobin AtLeastOnce demo_uuid demo_cmds demo_broker demo_end.2).
  vm_compute. reflexivity.
Defined.

(** C37: Message ids are never reused: over any run that sends no more than
    2^64 tracked messages, the ids handed to the timer are pairwise distinct
    (so a stale timer cannot match a later message), and every message still
    pending carries one of them. *)
Theorem msg_ids_never_reused mode del uuid cs b es :
  run (new_broker mode del uuid) cs = (Some b, es) ->
  (zlen (arm_ids es) <= 2 ^ 64)%Z ->
  NoDup (arm_ids es) /\ (forall id, is_Some (pending b !! id) -> id ∈ arm_ids es).
Proof.
  intros E Hlt. apply run_issues in E; [|unfold id_range; simpl; lia].
  destruct E as [_ _ Ha Hp]. split.
  - rewrite Ha. apply nodup_ids; simpl; lia.
  - intros id [H|H]%Hp; [|done]. simpl in H. rewrite lookup_empty in H. by destruct H.
Qed.

Lemma msg_ids_never_reused_witness :
  NoDup (arm_ids demo_end.2) /\
  (forall id, is_Some (pending demo_broker !! id) -> id ∈ arm_ids demo_end.2).
Proof.
  apply (msg_ids_never_reused RoundRobin AtLeastOnce demo_uuid demo_cmds).
  - vm_compute. reflexivity.
  - vm_compute. discriminate.
Defined.

(** The messages settled along a run. *)
Fixpoint run_settles (b : Broker) (cs : list Command) : list (option Identity * bytes) :=
  match cs with
  | [] => []
  | c :: cs =>
    settles b c ++ match handle b c with (Some b, _) => run_settles b cs | (None, _) => [] end
  end.

Lemma run_conserves b cs b' es :
  ids_inv b -> reliable b -> run b cs = (Some b', es) ->
  (next_id b + zlen (arm_ids es) < 2 ^ 64)%Z ->
  run_settles b cs ++ outstanding b' ≡ₚ mjoin (submits <$> cs) ++ outstanding b.
Proof.
  revert b es. induction cs as [|c cs IH]; intros b es HI Hrel E Hlt; simpl in E.
  { by simplify_eq. }
  csimpl. destruct (handle b c) as [[b1|] es1] eqn:E1; [|done].
  destruct (run b1 cs) as [o es2] eqn:E2. simplify_eq.
  rewrite arm_ids_app, zlen_app in Hlt.
  pose proof (zlen_nonneg (arm_ids es1)). pose proof (zlen_nonneg (arm_ids es2)).
  pose proof (handle_issues _ _ _ _ (ii_range _ HI) E1) as H1.
  assert (HI1 : ids_inv b1) by (eapply issues_ids_inv; [done..|lia]).
  assert (next_id b1 = next_id b + zlen (arm_ids es1))%Z as Hn.
  { rewrite (is_next _ _ _ H1). apply wrap_to_small.
    pose proof (ii_range _ HI) as Hr. unfold id_range in Hr. lia. }
  assert (Hrel1 : reliable b1).
  { destruct (handle_links _ _ _ _ E1) as [Hm Hd]. unfold reliable. by rewrite Hm, Hd. }
  rewrite <- app_assoc, (IH _ _ HI1 Hrel1 E2) by lia.
  rewrite (Permutation_app_comm (mjoin _)), app_assoc.
  rewrite (handle_conserves _ _ _ _ HI Hrel E1) by lia.
  rewrite <- !app_assoc. apply Permutation_app_head, Permutation_app_comm.
Qed.

(** C6: At-least-once loses nothing silently: in a round-robin socket, at any
    point of any run (short of 2^64 tracked messages) the messages submitted so
    far are, with multiplicity, exactly those still buffered or awaiting their
    ack, those acknowledged, and those that timed out with no retry left. *)
Theorem at_least_once_conserves uuid cs b es :
  run (new_broker RoundRobin AtLeastOnce uuid) cs = (Some b, es) ->
  (zlen (arm_ids es) < 2 ^ 64)%Z ->
  run_settles (new_broker RoundRobin AtLeastOnce uuid) cs ++ outstanding b
    ≡ₚ mjoin (submits <$> cs).
Proof.
  intros E Hlt.
  rewrite (run_conserves _ _ _ _ (new_ids_inv _ _ _) (conj eq_refl eq_refl) E Hlt).
  unfold outstanding. simpl. by rewrite map_to_list_empty, app_nil_r.
Qed.

Lemma at_least_once_conserves_witness :
  run_settles (new_broker RoundRobin AtLeastOnce demo_uuid) demo_cmds ++ outstanding demo_broker
    ≡ₚ mjoin (submits <$> demo_cmds).
Proof.
  apply (at_least_once_conserves demo_uuid demo_cmds demo_broker demo_end.2).
  - vm_compute. reflexivity.
  - vm_compute. reflexivity.
Defined.

(** ** Round robin *)

Definition target_of (e : Effect) : option Sender :=
  match e with Transmit tx _ => Some tx | _ => None end.

(** The writers the effects send frames to, in order. *)
Definition targets (es : list Effect) : list Sender := omap target_of es.

Lemma targets_app es es' : targets (es ++ es') = targets es ++ targets es'.
Proof. apply omap_app. Qed.

(** The identity picked for the [j]-th send from here. *)
Definition rr_pick (b : Broker) (j : Z) : option Identity :=
  order b !! Z.to_nat ((rr_cursor b + j) mod zlen (order b)).

Lemma rr_pick_lookup b j :
  order b <> [] -> exists id, rr_pick b j = Some id.
Proof.
  intros Ho. unfold rr_pick. apply lookup_lt_is_Some_2.
  pose proof (Z.mod_pos_bound (rr_cursor b + j) (zlen (order b)) (zlen_pos _ Ho)).
  unfold zlen in *. lia.
Qed.

(** One round-robin send: the picked peer gets the frame, the cursor moves. *)
Lemma route_rr b frame b' es :
  links_inv b -> send_mode b = RoundRobin -> order b <> [] ->
  route b None frame = (b', es) ->
  exists id tx, rr_pick b 0 = Some id /\ conns b !! id = Some tx /\
    es = [Transmit tx frame] /\ b' = with_rr_cursor (wrapping_add 64 (rr_cursor b) 1) b.
Proof.
  intros HI Hm Ho. unfold route, next_round_robin. rewrite Hm, decide_False by done.
  destruct (rr_pick_lookup b 0 Ho) as [id Hid]. pose proof Hid as Hid'.
  unfold rr_pick in Hid'. rewrite Z.add_0_r in Hid'. rewrite Hid'. intros; simplify_eq.
  assert (is_Some (conns b !! id)) as [tx Htx].
  { apply HI. by eapply list_elem_of_lookup_2. }
  exists id, tx. split_and!; try done. unfold send_to_conn. simpl. by rewrite Htx.
Qed.

Lemma handle_send_rr b p b' es :
  links_inv b -> send_mode b = RoundRobin -> order b <> [] ->
  handle_send b None p = (b', es) ->
  exists id tx, rr_pick b 0 = Some id /\ conns b !! id = Some tx /\ targets es = [tx] /\
    rr_cursor b' = wrapping_add 64 (rr_cursor b) 1.
Proof.
  intros HI Hm Ho. unfold handle_send.
  rewrite decide_False.
  2: { intros E. destruct (order b) as [|x l] eqn:Eo; [done|].
       assert (is_Some (conns b !! x)) as [? Hx] by (apply HI; rewrite Eo; left).
       by rewrite E, lookup_empty in Hx. }
  unfold transmit. destruct (tracks b None).
  - destruct (next_msg_id b) as [id b1] eqn:E1. unfold next_msg_id in E1.
    injection E1 as <- <-. destruct (route _ None _) as [b2 es2] eqn:E2. intros; simplify_eq.
    apply route_rr in E2 as (i & tx & H1 & H2 & -> & ->); [|by destruct HI|done|done].
    by exists i, tx.
  - intros E. apply route_rr in E as (i & tx & H1 & H2 & -> & ->); [|done..].
    by exists i, tx.
Qed.

Lemma rr_pick_shift b b' j :
  order b' = order b -> rr_cursor b' = (rr_cursor b + 1)%Z -> rr_pick b' j = rr_pick b (1 + j).
Proof. intros Ho Hc. unfold rr_pick. rewrite Ho, Hc. by rewrite Z.add_assoc. Qed.

Lemma send_each_rr b ps b' es :
  links_inv b -> send_mode b = RoundRobin -> order b <> [] -> (0 <= rr_cursor b)%Z ->
  (rr_cursor b + zlen ps < 2 ^ 64)%Z ->
  send_each b ((fun p => (None, p)) <$> ps) = (b', es) ->
  Some <$> targets es = (fun j => rr_pick b j ≫= fun id => conns b !! id) <$> seqZ 0 (zlen ps).
Proof.
  revert b es. induction ps as [|p ps IH]; intros b es HI Hm Ho Hc0 Hc E; csimpl in E.
  { by simplify_eq. }
  destruct (handle_send b None p) as [b1 es1] eqn:E1.
  destruct (send_each b1 _) as [b2 es2] eqn:E2. simplify_eq.
  pose proof (handle_send_links _ _ _ _ _ E1) as [Hm1 Hd1 Hc1 Ho1 _].
  destruct (handle_send_rr _ _ _ _ HI Hm Ho E1) as (id & tx & Hid & Htx & Ht & Hcur).
  apply handle_send_links_inv in E1 as HI1; [|done].
  rewrite zlen_cons in *. pose proof (zlen_nonneg ps).
  unfold wrapping_add in Hcur. rewrite wrap_to_small in Hcur by lia.
  rewrite targets_app, Ht, fmap_app.
  rewrite (IH b1 es2 HI1); [|congruence|by rewrite Ho1|lia|lia|done].
  rewrite seqZ_app, fmap_app by lia. f_equal.
  - change (seqZ 0 1) with [0%Z]. rewrite !list_fmap_singleton, Hid. cbn. by rewrite Htx.
  - change (0 + 1)%Z with (1 + 0)%Z. rewrite <- (fmap_add_seqZ 1 0), <- list_fmap_compose. apply list_fmap_ext.
    intros _ j _. simpl. rewrite (rr_pick_shift b b1) by done. by rewrite Hc1.
Qed.

(** Over one lap the cursor picks each position exactly once. *)
Lemma lap_count (a c : Z) (n : Z) (q : Z) :
  (0 <= q < n)%Z ->
  length (filter (fun j => ((c + j) mod n = q)%Z) (seqZ a n)) = 1.
Proof.
  intros Hq. set (j0 := (a + (q - (c + a)) mod n)%Z).
  assert (Hj0 : (a <= j0 < a + n)%Z) by (pose proof (Z.mod_pos_bound (q - (c + a)) n); lia).
  assert (Hiff : forall j, j ∈ seqZ a n -> ((c + j) mod n = q)%Z <-> j0 = j).
  { intros j Hj%elem_of_seqZ. split.
    - intros <-. unfold j0. rewrite Zminus_mod_idemp_l.
      replace (c + j - (c + a))%Z with (j - a)%Z by lia. rewrite Z.mod_small; lia.
    - intros <-. unfold j0. rewrite Z.add_assoc, Zplus_mod_idemp_r.
      replace (c + a + (q - (c + a)))%Z with q by lia. by apply Z.mod_small. }
  rewrite (filter_ext_in _ (eq j0)) by done.
  rewrite count_nodup by apply NoDup_seqZ. rewrite decide_True; [done|]. apply elem_of_seqZ. lia.
Qed.

Lemma laps_count (a c : Z) (n : Z) (q : Z) (k : nat) :
  (0 <= q < n)%Z ->
  length (filter (fun j => ((c + j) mod n = q)%Z) (seqZ a (Z.of_nat k * n))) = k.
Proof.
  intros Hq. revert a. induction k as [|k IH]; intros a; [done|].
  replace (Z.of_nat (S k) * n)%Z with (n + Z.of_nat k * n)%Z by lia.
  rewrite seqZ_app by nia. by rewrite filter_app, length_app, lap_count, IH.
Qed.

(** Round robin is fair: sending [k] rounds of messages to [n] connected
    peers (short of the cursor's 2^64 wrap) gives each message to the peer the
    cursor points at, one transmission per message, and each of the [n] peers
    is picked exactly [k] times. *)
Theorem round_robin_fair b k ps b' es :
  links_inv b -> send_mode b = RoundRobin -> order b <> [] -> (0 <= rr_cursor b)%Z ->
  length ps = k * length (order b) -> (rr_cursor b + zlen ps < 2 ^ 64)%Z ->
  send_each b ((fun p => (None, p)) <$> ps) = (b', es) ->
  Some <$> targets es = (fun j => rr_pick b j ≫= fun id => conns b !! id) <$> seqZ 0 (zlen ps) /\
  forall id, id ∈ order b ->
    length (filter (fun j => rr_pick b j = Some id) (seqZ 0 (zlen ps))) = k.
Proof.
  intros HI Hm Ho Hc0 Hk Hc E. split; [by eapply send_each_rr|].
  intros id [q Hq]%list_elem_of_lookup.
  assert (Hqn : (0 <= Z.of_nat q < zlen (order b))%Z)
    by (apply lookup_lt_Some in Hq; unfold zlen; lia).
  rewrite <- (laps_count 0 (rr_cursor b) (zlen (order b)) (Z.of_nat q) k) by done.
  replace (zlen ps) with (Z.of_nat k * zlen (order b))%Z by (unfold zlen; lia).
  f_equal. apply filter_ext_in. intros j _. unfold rr_pick.
  pose proof (Z.mod_pos_bound (rr_cursor b + j) (zlen (order b)) ltac:(lia)).
  split.
  - intros Hj. assert (Z.to_nat ((rr_cursor b + j) mod zlen (order b)) = q); [|lia].
    eapply NoDup_lookup; [apply HI|done|done].
  - intros ->. by rewrite Nat2Z.id.
Qed.

Definition two_peers : Broker :=
  mkBroker RoundRobin AtMostOnce {[peerA := 1; peerB := 2]} [peerA; peerB] 7 [] ∅ [] 0.

Lemma two_peers_inv : links_inv two_peers.
Proof.
  split; simpl.
  - apply (bool_decide_unpack _). vm_compute. exact I.
  - intros id. rewrite lookup_insert_is_Some, lookup_singleton_is_Some, !elem_of_cons.
    rewrite elem_of_nil. destruct (decide (peerA = id)); naive_solver.
  - done.
Qed.

Lemma round_robin_fair_witness :
  let es := (send_each two_peers ((fun p => (None, p)) <$> [[x01]; [x02]; [x03]; [x04]])).2 in
  Some <$> targets es
    = (fun j => rr_pick two_peers j ≫= fun id => conns two_peers !! id)
        <$> seqZ 0 (zlen [[x01]; [x02]; [x03]; [x04]]) /\
  forall id, id ∈ order two_peers ->
    length (filter (fun j => rr_pick two_peers j = Some id)
      (seqZ 0 (zlen [[x01]; [x02]; [x03]; [x04]]))) = 2.
Proof.
  eapply (round_robin_fair two_peers 2).
  - apply two_peers_inv.
  - reflexivity.
  - discriminate.
  - simpl. lia.
  - reflexivity.
  - vm_compute. reflexivity.
  - apply surjective_pairing.
Defined.

(** ** Publish and by-identity sends *)

(** PUBLISH reaches every connected peer exactly once: with at least one
    peer, sending queues the same DATA frame (never DATA_REQ, whatever the
    delivery guarantee) on each connection's writer once, and leaves the
    broker's state alone. *)
Theorem publish_reaches_all b p :
  send_mode b = Publish -> conns b <> ∅ ->
  exists es, handle_send b None p = (b, es) /\
    es ≡ₚ (fun tx => Transmit tx (data p)) <$> (map_to_list (conns b)).*2.
Proof.
  intros Hm Hc. unfold handle_send. rewrite decide_False by done.
  unfold transmit, tracks. rewrite Hm, (bool_decide_eq_false_2 (is_Some None)) by (by intros []).
  rewrite (bool_decide_eq_false_2 (Publish = RoundRobin)), andb_false_r by done.
  unfold route. rewrite Hm. eexists. split; [done|].
  rewrite <- list_fmap_compose. apply Permutation_refl', list_fmap_ext. by intros ? [].
Qed.

Definition two_subscribers : Broker :=
  mkBroker Publish AtLeastOnce {[peerA := 1; peerB := 2]} [peerA; peerB] 0 [] ∅ [] 0.

Lemma publish_reaches_all_witness :
  exists es, handle_send two_subscribers None [x61] = (two_subscribers, es) /\
    es ≡ₚ (fun tx => Transmit tx (data [x61])) <$> (map_to_list (conns two_subscribers)).*2.
Proof.
  apply (publish_reaches_all two_subscribers [x61]); [reflexivity|].
  intros E. apply (f_equal (fun m => m !! peerA)) in E. vm_compute in E. discriminate.
Defined.

(** A by-identity send ignores the send mode and the other peers: with
    some peer connected, the frame goes to that peer's writer alone, or to
    nobody when that peer is not connected; under at-least-once it is then
    still tracked, under the id and with the retries recorded, so it will be
    resent. *)
Theorem send_to_identity b id p :
  conns b <> ∅ ->
  exists b' es, handle_send b (Some id) p = (b', es) /\
    targets es = option_list (conns b !! id) /\ rr_cursor b' = rr_cursor b /\
    if decide (delivery b = AtLeastOnce) then
      pending b' = <[id_of (salt b) (next_id b) := mkPending (Some id) p MAX_RETRIES]> (pending b)
    else b' = b.
Proof.
  intros Hc. unfold handle_send. rewrite decide_False by done. unfold transmit, tracks.
  rewrite (bool_decide_eq_true_2 (is_Some (Some id))), orb_true_l, andb_true_r by done.
  destruct (decide (delivery b = AtLeastOnce)) as [Hd|Hd].
  - rewrite bool_decide_eq_true_2 by done. eexists _, _. split; [reflexivity|].
    unfold send_to_conn. simpl. destruct (conns b !! id); done.
  - rewrite bool_decide_eq_false_2 by done. eexists _, _. split; [reflexivity|].
    unfold send_to_conn. destruct (conns b !! id); done.
Qed.

Lemma send_to_identity_witness :
  exists b' es, handle_send two_subscribers (Some peerB) [x61] = (b', es) /\
    targets es = option_list (conns two_subscribers !! peerB) /\
    rr_cursor b' = rr_cursor two_subscribers /\
    if decide (delivery two_subscribers = AtLeastOnce) then
      pending b' = <[id_of (salt two_subscribers) (next_id two_subscribers)
                      := mkPending (Some peerB) [x61] MAX_RETRIES]> (pending two_subscribers)
    else b' = two_subscribers.
Proof.
  apply (send_to_identity two_subscribers peerB [x61]).
  intros E. apply (f_equal (fun m => m !! peerA)) in E. vm_compute in E. discriminate.
Defined.

(** ** The flush on connect *)

(** The application payload a frame carries, if any. *)
Definition payload_of (frame : bytes) : option bytes :=
  match decode (drop 4 frame) with
  | Some (Data p) | Some (DataReq _ p) => Some p
  | _ => None
  end.

Definition payload_to (w : Sender) (e : Effect) : option bytes :=
  match e with
  | Transmit tx frame => if decide (tx = w) then payload_of frame else None
  | _ => None
  end.

Lemma drop_prefix z l : drop 4 (put_len_prefix [] z ++ l) = l.
Proof. unfold put_len_prefix. by rewrite drop_app_length'. Qed.

Lemma payload_of_data p : payload_of (data p) = Some p.
Proof. unfold payload_of, data. by rewrite <- app_assoc, drop_prefix. Qed.

Lemma payload_of_data_req m p : length m = MSG_ID_SIZE -> payload_of (data_req m p) = Some p.
Proof.
  intros Hm. unfold payload_of, data_req. rewrite <- !app_assoc, drop_prefix. simpl app.
  by rewrite (decode_complete _ (DataReq m p)) by by constructor.
Qed.

Lemma length_id_of s k : length s = 8 -> length (id_of s k) = MSG_ID_SIZE.
Proof. intros Hs. unfold id_of. by rewrite length_app, length_to_be_bytes, Hs. Qed.

(** Routing with a single peer: everything addressed to it, or to nobody in
    particular, goes to its writer. *)
Definition sole (b : Broker) (id : Identity) (w : Sender) : Prop :=
  conns b = {[id := w]} /\ order b = [id] /\ length (salt b) = 8.

Definition for_peer (id : Identity) (m : option Identity * bytes) : Prop :=
  m.1 = None \/ m.1 = Some id.

#[export] Instance for_peer_dec id m : Decision (for_peer id m).
Proof. unfold for_peer. apply _. Defined.

Lemma route_sole b id w target frame p b' es :
  sole b id w -> payload_of frame = Some p -> route b target frame = (b', es) ->
  omap (payload_to w) es = if decide (for_peer id (target, p)) then [p] else [].
Proof.
  intros (Hc & Ho & _) Hp. unfold route, for_peer, send_to_conn. simpl.
  destruct target as [i|].
  - rewrite Hc. destruct (decide (id = i)) as [->|Hne].
    + rewrite lookup_singleton_eq, decide_True by by right. intros; simplify_eq/=.
      by rewrite decide_True, Hp.
    + rewrite lookup_singleton_ne, decide_False by naive_solver. by intros; simplify_eq/=.
  - rewrite decide_True by by left. destruct (send_mode b).
    + unfold next_round_robin. rewrite Ho, decide_False by done.
      change (zlen [id]) with 1%Z. rewrite Z.mod_1_r. simpl. rewrite Hc, lookup_singleton_eq.
      intros; simplify_eq/=. by rewrite decide_True, Hp.
    + rewrite Hc, map_to_list_singleton. intros; simplify_eq/=. by rewrite decide_True, Hp.
Qed.

Lemma same_links_sole b b' id w : same_links b b' -> sole b id w -> sole b' id w.
Proof. intros [_ _ Hc Ho Hs]. unfold sole. by rewrite Hc, Ho, Hs. Qed.

Lemma handle_send_sole b id w i p b' es :
  sole b id w -> handle_send b i p = (b', es) ->
  omap (payload_to w) es = if decide (for_peer id (i, p)) then [p] else [].
Proof.
  intros Hs. unfold handle_send.
  rewrite decide_False by (destruct Hs as [-> _]; apply map_non_empty_singleton).
  unfold transmit. destruct (tracks b i).
  - destruct (next_msg_id b) as [m b1] eqn:E1. unfold next_msg_id in E1.
    injection E1 as <- <-. destruct (route _ i _) as [b2 es2] eqn:E2. intros; simplify_eq.
    csimpl. eapply route_sole; [|apply payload_of_data_req|exact E2]; [by destruct Hs as (?&?&?)|].
    apply length_id_of, Hs.
  - intros E. eapply route_sole; [exact Hs|apply payload_of_data|exact E].
Qed.

Lemma send_each_sole b id w ms b' es :
  sole b id w -> send_each b ms = (b', es) ->
  omap (payload_to w) es = (filter (for_peer id) ms).*2.
Proof.
  revert b es. induction ms as [|[i p] ms IH]; intros b es Hs E; simpl in E; [by simplify_eq|].
  destruct (handle_send b i p) as [b1 es1] eqn:E1.
  destruct (send_each b1 ms) as [b2 es2] eqn:E2. simplify_eq.
  rewrite omap_app, (handle_send_sole _ _ _ _ _ _ _ Hs E1).
  rewrite (IH b1 es2); [|by eapply same_links_sole; [eapply handle_send_links|]|done].
  rewrite filter_cons. by case_decide.
Qed.

(** Messages sent while nobody is connected are flushed in send order to
    the first peer that connects: that peer is accepted, its writer receives
    the payloads of the buffered messages addressed to it or to nobody in
    particular, in order and once each, and the buffer ends empty.  A buffered
    by-identity message for some other peer is not sent to this one. *)
Theorem first_peer_gets_buffer b id w a :
  links_inv b -> conns b = ∅ -> length (salt b) = 8 ->
  exists b' es, handle_up b id w a = (b', Accept a true :: es) /\
    omap (payload_to w) es = (filter (for_peer id) (buffer b)).*2 /\
    buffer b' = [].
Proof.
  intros HI Hc Hs. unfold handle_up. rewrite Hc, lookup_empty, decide_False by (by intros []).
  set (b1 := with_order _ _).
  assert (Ho : order b = []).
  { apply elem_of_nil_inv. intros x Hx%HI. rewrite Hc, lookup_empty in Hx. by destruct Hx. }
  assert (Hsole : sole (with_buffer [] b1) id w).
  { unfold sole. simpl. by rewrite Ho, insert_empty. }
  destruct (decide (buffer b1 = [])) as [Hb|Hb]; simpl in Hb.
  - rewrite Hb. by eexists _, [].
  - destruct (send_each (with_buffer [] b1) (buffer b1)) as [b2 es2] eqn:E2.
    eexists b2, es2. split; [done|]. split; [by eapply send_each_sole|].
    assert (HI1 : links_inv (with_buffer [] b1)).
    { split; simpl.
      - rewrite Ho. apply NoDup_singleton.
      - intros x. rewrite Ho, insert_empty, lookup_singleton_is_Some. set_solver.
      - done. }
    apply send_each_links_inv in E2 as HI2; [|done]. apply send_each_links in E2.
    apply HI2. rewrite (sl_conns _ _ E2). simpl. rewrite insert_empty.
    apply map_non_empty_singleton.
Qed.

Definition waiting : Broker :=
  mkBroker RoundRobin AtLeastOnce ∅ [] 0
    [(None, [x61]); (Some peerB, [x62]); (Some peerA, [x63])] ∅ (replicate 8 x55) 0.

Lemma first_peer_gets_buffer_witness :
  exists b' es, handle_up waiting peerA 1 101 = (b', Accept 101 true :: es) /\
    omap (payload_to 1) es = (filter (for_peer peerA) (buffer waiting)).*2 /\
    buffer b' = [].
Proof.
  apply (first_peer_gets_buffer waiting peerA 1 101).
  - split; simpl; [constructor| |done]. intros id. rewrite lookup_empty.
    split; [by intros ?%elem_of_nil|by intros []].
  - reflexivity.
  - reflexivity.
Defined.

(** ** Acknowledgement and retries *)

(** An acknowledged message is never sent again: processing the ack of a
    pending message cancels its timer and forgets it, and however the broker
    runs on (short of 2^64 tracked messages), a resend timeout for it that was
    already on its way does nothing. *)
Theorem acked_never_resent b from m p cs b' es :
  ids_inv b -> pending b !! m = Some p ->
  run b (Received from (Ack m) :: cs) = (Some b', es) ->
  (next_id b + zlen (arm_ids es) < 2 ^ 64)%Z ->
  head es = Some (TimerSend (Cancel m)) /\ handle_resend b' m = (b', []).
Proof.
  intros HI Hm E Hlt. simpl in E. rewrite Hm in E.
  destruct (run _ cs) as [o es2] eqn:E2. simplify_eq/=. split; [done|].
  set (b1 := with_pending _ b) in *. destruct (ii_below _ HI m (mk_is_Some _ _ Hm)) as (k & -> & Hk).
  pose proof (run_issues b1 _ _ _ (ii_range _ HI) E2) as [Hs Hn Ha Hp].
  unfold handle_resend. destruct (pending b' !! _) as [q|] eqn:Hq; [|done]. exfalso.
  apply mk_is_Some, Hp in Hq as [Hq|Hq].
  - simpl in Hq. rewrite lookup_delete_eq in Hq. by destruct Hq.
  - rewrite Ha in Hq. apply list_elem_of_fmap in Hq as (j & Hj & Hj'%elem_of_seqZ).
    simpl in *. change (arm_ids (_ :: es2)) with (arm_ids es2) in Hlt.
    apply id_of_inj in Hj; lia.
Qed.

Definition one_in_flight : Broker :=
  Eval vm_compute in default two_peers
    (run (new_broker RoundRobin AtLeastOnce demo_uuid)
      [ConnectionUp peerA 1 101; Send None [x61]]).1.

Lemma one_in_flight_reached : exists es,
  run (new_broker RoundRobin AtLeastOnce demo_uuid) [ConnectionUp peerA 1 101; Send None [x61]]
    = (Some one_in_flight, es) /\ (zlen (arm_ids es) < 2 ^ 64)%Z.
Proof. eexists. split; [vm_compute; reflexivity|vm_compute; reflexivity]. Qed.

Lemma demo_ids : ids_inv one_in_flight.
Proof.
  destruct one_in_flight_reached as (es & E & Hlt).
  apply (issues_ids_inv (new_broker RoundRobin AtLeastOnce demo_uuid) es).
  - apply new_ids_inv.
  - apply run_issues in E; [exact E|]. unfold id_range. simpl. lia.
  - simpl. lia.
Qed.

Lemma acked_never_resent_witness :
  let m := id_of (replicate 8 x55) 0 in
  let r := run one_in_flight [Received peerA (Ack m); Send None [x62]] in
  head r.2 = Some (TimerSend (Cancel m)) /\
  handle_resend (default one_in_flight r.1) m = (default one_in_flight r.1, []).
Proof.
  eapply (acked_never_resent one_in_flight peerA (id_of (replicate 8 x55) 0)
    (mkPending None [x61] 5) [Send None [x62]]).
  - exact demo_ids.
  - vm_compute. reflexivity.
  - vm_compute. reflexivity.
  - vm_compute. reflexivity.
Defined.

(** The counter after issuing one id without wrapping. *)
Lemma transmit_tracked b i p n b' es :
  tracks b i = true -> (0 <= next_id b < 2 ^ 64 - 1)%Z -> transmit b i p n = (b', es) ->
  same_links b b' /\ buffer b' = buffer b /\ next_id b' = (next_id b + 1)%Z /\
  pending b' = <[id_of (salt b) (next_id b) := mkPending i p n]> (pending b) /\
  arm_ids es = [id_of (salt b) (next_id b)].
Proof.
  intros Ht Hr (Hl & Hb & H)%transmit_frame. rewrite Ht in H. destruct H as (Hp & Hn & Ha).
  rewrite Hn. unfold wrapping_add. rewrite wrap_to_small by lia. done.
Qed.

(** A frame and the channel it is put on. *)
Definition transmitted (e : Effect) : option (Sender * bytes) :=
  match e with Transmit tx frame => Some (tx, frame) | _ => None end.

(** [tx] is the channel of a connected peer, and of [i] if that is somebody. *)
Definition addressed (b : Broker) (i : option Identity) (tx : Sender) : Prop :=
  exists id, conns b !! id = Some tx /\ forall x, i = Some x -> x = id.

(** There is a peer to send to, and the one wanted is connected. *)
Record reachable (b : Broker) (i : option Identity) : Prop := {
  rc_links : links_inv b;
  rc_conns : conns b <> ∅;
  rc_peer id : i = Some id -> is_Some (conns b !! id);
}.

Lemma reachable_links b b' i :
  reachable b i -> same_links b b' -> buffer b' = buffer b -> reachable b' i.
Proof.
  intros [HI Hc Hp] Hl Hb. split; [|by rewrite (sl_conns _ _ Hl)..].
  apply (same_links_inv b); [done..|]. rewrite Hb. apply HI.
Qed.

(** A tracked message for a reachable peer goes out at once. *)
Lemma transmit_sends b i p n b' es :
  reachable b i -> tracks b i = true -> transmit b i p n = (b', es) ->
  exists tx, addressed b i tx /\
    omap transmitted es = [(tx, data_req (id_of (salt b) (next_id b)) p)].
Proof.
  intros [HI Hc Hp] Ht. unfold transmit. rewrite Ht. cbn [next_msg_id].
  set (b1 := with_pending _ _). set (f := data_req _ p).
  destruct (route b1 i f) as [b2 es2] eqn:E. intros [= <- <-]. csimpl.
  destruct i as [id|].
  - destruct (Hp id eq_refl) as [tx Htx]. cbn [route] in E. injection E as <- <-.
    unfold send_to_conn. subst b1. cbn. rewrite Htx. csimpl. exists tx. split; [|done].
    exists id. split; [done|]. by intros x [= ->].
  - assert (Hm : send_mode b = RoundRobin).
    { unfold tracks in Ht. apply andb_true_iff in Ht as [_ Ht]. apply orb_true_iff in Ht as [Ht|Ht];
        apply bool_decide_eq_true in Ht; [by destruct Ht|done]. }
    destruct (route_rr b1 f b2 es2) as (id & tx & _ & Htx & -> & _); [|done|..|done|].
    + by destruct HI.
    + intros Ho. destruct (map_choose _ Hc) as (x & y & Hx).
      assert (x ∈ order b) as Hin by (apply HI; by eexists). change (order b = []) in Ho.
      rewrite Ho in Hin. by apply elem_of_nil in Hin.
    + exists tx. split; [|done]. by exists id.
Qed.

Lemma resend_chain r b i p k P :
  tracks b i = true -> reachable b i -> next_id b = (k + 1)%Z ->
  (0 <= k)%Z -> (k + Z.of_nat r + 1 < 2 ^ 64)%Z ->
  pending b = <[id_of (salt b) k := mkPending i p r]> P -> P !! id_of (salt b) k = None ->
  (forall j, (k <= j < 2 ^ 64)%Z -> P !! id_of (salt b) j = None) ->
  exists b' es,
    run b ((fun j => ResendTimeout (id_of (salt b) j)) <$> seqZ k (Z.of_nat r + 1))
      = (Some b', es) /\
    arm_ids es = id_of (salt b) <$> seqZ (k + 1) (Z.of_nat r) /\
    (omap transmitted es).*2 = (fun j => data_req (id_of (salt b) j) p) <$> seqZ (k + 1) (Z.of_nat r) /\
    Forall (addressed b i) (omap transmitted es).*1 /\
    pending b' = P /\ buffer b' = buffer b /\ same_links b b'.
Proof.
  revert b k. induction r as [|r IH]; intros b k Ht Hc Hn Hk Hlt Hp Hpk Hfresh.
  - change (Z.of_nat 0 + 1)%Z with 1%Z. rewrite seqZ_cons by lia.
    cbn [fmap list_fmap run handle]. unfold handle_resend.
    rewrite Hp, lookup_insert_eq. cbn [p_retries]. rewrite delete_insert_id by done.
    change (Z.pred 1) with 0%Z. eexists _, _. split; [done|]. split_and!; by split || constructor || idtac.
  - rewrite seqZ_cons by lia. cbn [fmap list_fmap run handle]. unfold handle_resend at 1.
    rewrite Hp, lookup_insert_eq. cbn [p_retries p_identity p_data].
    rewrite delete_insert_id by done. set (b1 := with_pending P b).
    assert (Hc1 : reachable b1 i) by by apply (reachable_links b).
    rewrite decide_False by apply Hc1.
    destruct (transmit b1 i p r) as [b2 es2] eqn:E2.
    destruct (transmit_sends _ _ _ _ _ _ Hc1 Ht E2) as (tx & Htx & Hes).
    apply transmit_tracked in E2 as (Hl & Hb & Hn2 & Hp2 & Ha); [|done|simpl; lia].
    assert (Hc2 : reachable b2 i) by by apply (reachable_links b1).
    pose proof (sl_salt _ _ Hl) as Hs. simpl in *.
    destruct (IH b2 (k + 1)%Z) as (b' & es & E & Ha' & Hf' & Hto' & Hp' & Hb' & Hl'); [|done|lia..| | | |].
    + by rewrite (same_links_tracks b1).
    + by rewrite Hp2, Hs, Hn.
    + rewrite Hs. apply Hfresh. lia.
    + intros j Hj. rewrite Hs. apply Hfresh. lia.
    + replace (Z.pred (Z.of_nat (S r) + 1)) with (Z.of_nat r + 1)%Z by lia.
      replace (Z.succ k) with (k + 1)%Z by lia. rewrite Hs in E.
      cbn [fmap list_fmap] in E. rewrite E. eexists _, _. split; [done|].
      rewrite arm_ids_app, omap_app, Ha, Ha', Hes, Hs, Hn. csimpl. rewrite Hf', Hs.
      rewrite (seqZ_cons (k + 1)) by lia. replace (Z.pred (Z.of_nat (S r))) with (Z.of_nat r) by lia.
      split_and!; [done|done| |done|by rewrite Hb', Hb|by transitivity b2; [destruct Hl; split|]].
      constructor; [exact Htx|]. eapply Forall_impl; [exact Hto'|].
      intros x (id & Hx & Hi). exists id. split; [|done]. by rewrite <- Hx, (sl_conns _ _ Hl).
Qed.

(** C38: With the peer it is for connected, if it is for one, and no ack, a tracked
    message is sent exactly [1 + MAX_RETRIES] times, each time under a fresh id,
    to a connected peer and to no other than it is for, and then given up: over
    the six timeouts these are the only frames that go out, a countdown is armed for
    each, and in the end, but for the message counter and the round-robin
    cursor, the broker is as it was. *)
Theorem gives_up_after_max_retries b i p :
  ids_inv b -> reachable b i -> tracks b i = true -> (next_id b + 6 < 2 ^ 64)%Z ->
  exists b' es,
    run b (Send i p :: ((fun j => ResendTimeout (id_of (salt b) j)) <$> seqZ (next_id b) 6))
      = (Some b', es) /\
    (omap transmitted es).*2 =
      (fun j => data_req (id_of (salt b) j) p) <$> seqZ (next_id b) (1 + Z.of_nat MAX_RETRIES) /\
    Forall (addressed b i) (omap transmitted es).*1 /\
    arm_ids es = id_of (salt b) <$> seqZ (next_id b) 6 /\
    pending b' = pending b /\ buffer b' = buffer b /\ same_links b b'.
Proof.
  intros HI Hc Ht Hlt. pose proof (ii_range _ HI) as Hr. unfold id_range in Hr.
  cbn [run handle]. unfold handle_send. rewrite decide_False by apply Hc.
  destruct (transmit b i p MAX_RETRIES) as [b1 es1] eqn:E1.
  destruct (transmit_sends _ _ _ _ _ _ Hc Ht E1) as (tx & Htx & Hes).
  apply transmit_tracked in E1 as (Hl & Hb & Hn & Hp & Ha); [|done|lia].
  pose proof (sl_salt _ _ Hl) as Hs.
  destruct (resend_chain 5 b1 i p (next_id b) (pending b))
    as (b' & es & E & Ha' & Hf' & Hto' & Hp' & Hb' & Hl').
  - by rewrite (same_links_tracks b).
  - by apply (reachable_links b).
  - done.
  - lia.
  - lia.
  - by rewrite Hp, Hs.
  - rewrite Hs. by apply next_id_fresh.
  - intros j Hj. rewrite Hs. destruct (pending b !! _) eqn:Ej; [|done].
    destruct (ii_below _ HI _ (mk_is_Some _ _ Ej)) as (k & Hk & Hk').
    apply id_of_inj in Hk; lia.
  - rewrite Hs in E. change (Z.of_nat 5 + 1)%Z with 6%Z in E. rewrite E.
    eexists _, _. split; [done|].
    change (1 + Z.of_nat MAX_RETRIES)%Z with 6%Z. rewrite (seqZ_cons (next_id b) 6) by lia.
    rewrite arm_ids_app, omap_app, Ha, Ha', Hes, fmap_app, Hf', Hs.
    split_and!; [done| |done|done|by rewrite Hb', Hb|by transitivity b1].
    constructor; [exact Htx|]. eapply Forall_impl; [exact Hto'|].
    intros x (id & Hx & Hi). exists id. split; [|done]. by rewrite <- Hx, (sl_conns _ _ Hl).
Qed.

Lemma gives_up_after_max_retries_witness :
  exists b' es,
    run one_in_flight (Send None [x62] ::
      ((fun j => ResendTimeout (id_of (salt one_in_flight) j))
         <$> seqZ (next_id one_in_flight) 6)) = (Some b', es) /\
    (omap transmitted es).*2 =
      (fun j => data_req (id_of (salt one_in_flight) j) [x62]) <$> seqZ (next_id one_in_flight) 6 /\
    Forall (addressed one_in_flight None) (omap transmitted es).*1 /\
    arm_ids es = id_of (salt one_in_flight) <$> seqZ (next_id one_in_flight) 6 /\
    pending b' = pending one_in_flight /\ buffer b' = buffer one_in_flight /\ same_links one_in_flight b'.
Proof.
  apply (gives_up_after_max_retries one_in_flight None [x62]).
  - exact demo_ids.
  - split; [|intros E; apply (f_equal (fun m => m !! peerA)) in E; vm_compute in E; discriminate|done].
    destruct one_in_flight_reached as (es & E & _). eapply run_links_inv; [apply new_links_inv|exact E].
  - reflexivity.
  - vm_compute. reflexivity.
Defined.

(** The retry budget is per connected period, not per message: a pending
    message whose timeout fires while nobody is connected is re-buffered
    without its retry count, and the next peer to connect makes the broker
    send it again with the full [MAX_RETRIES]. *)
Theorem rebuffering_resets_retries b m i p r id w a :
  ids_inv b -> reliable b -> conns b = ∅ -> buffer b = [] -> order b = [] ->
  pending b !! m = Some (mkPending i p (S r)) -> (next_id b < 2 ^ 64 - 1)%Z ->
  exists b' es, run b [ResendTimeout m; ConnectionUp id w a] = (Some b', es) /\
    pending b' !! id_of (salt b) (next_id b) = Some (mkPending i p MAX_RETRIES).
Proof.
  intros HI Hrel Hc Hb Ho Hm Hlt. cbn [run handle]. unfold handle_resend.
  rewrite Hm. cbn [p_retries p_identity p_data]. simpl conns. rewrite Hc, decide_True by done.
  unfold handle_up. simpl. rewrite Hc, lookup_empty, decide_False by (by intros []).
  rewrite Hb. simpl. unfold handle_send. simpl. rewrite decide_False.
  2: { rewrite insert_empty. apply map_non_empty_singleton. }
  destruct (transmit _ i p MAX_RETRIES) as [b1 es1] eqn:E1.
  pose proof (ii_range _ HI) as Hr. unfold id_range in Hr.
  apply transmit_tracked in E1 as (_ & _ & _ & Hp & _);
    [|by apply reliable_tracks|simpl; lia].
  eexists _, _. split; [done|]. simpl in *. by rewrite Hp, lookup_insert_eq.
Qed.

Lemma rebuffering_resets_retries_witness :
  let b := (handle_down one_in_flight peerA).1 in
  exists b' es, run b [ResendTimeout (id_of (replicate 8 x55) 0); ConnectionUp peerB 2 102]
      = (Some b', es) /\
    pending b' !! id_of (salt b) (next_id b) = Some (mkPending None [x61] MAX_RETRIES).
Proof.
  eapply (rebuffering_resets_retries (handle_down one_in_flight peerA).1
    (id_of (replicate 8 x55) 0) None [x61] 4).
  - destruct demo_ids as [H1 H2]. by split.
  - by split.
  - vm_compute. reflexivity.
  - reflexivity.
  - vm_compute. reflexivity.
  - vm_compute. reflexivity.
  - vm_compute. reflexivity.
Defined.
