(* ===== verification/BrokerTimers.v ===== *)
(** * BrokerTimers: the broker and its resend timers, run together

    [Broker] and [Timers] each model one thread of [rust-lib-sync/src/broker.rs].
    Here they run side by side, joined by the command channel and by the
    channel of [ResendTimers], with every interleaving of their turns: a [Node]
    is both threads, both channels and the clock, [node_step] is one event.
    The theorems are about what only the pair can promise: no message waiting
    for its ack is ever without a countdown ([every_pending_is_timed]), the pair
    comes to rest when nothing more is asked of it ([node_comes_to_rest]), and
    at rest every message has been settled or waits for a peer
    ([all_settled_at_rest]), to be sent again to the next one that connects
    ([survives_reconnect]). *)

From S2P Require Import Prelude Protocol Timers Broker BrokerProps.
From Stdlib Require Import Strings.Byte.

(** ** Data *)

(** The two threads ([None] once a thread has returned), the channel into each,
    the latest clock reading of the timer thread, and the history: the commands
    the broker has processed and what it sent. *)
Record Node := mkNode {
  n_broker : option Broker;
  n_timer : option TimerState;
  n_cmds : list Command;
  n_tmsgs : list TimerMsg;
  n_clock : Instant;
  n_done : list Command;
  n_out : list Effect;
}.

(** [Broker::new] spawns the timer thread before the broker thread runs. *)
Definition node_init (b : Broker) : Node := mkNode (Some b) (Some timer_init) [] [] 0 [] [].

(** The effects that are sends on the channel of [ResendTimers]. *)
Definition timer_send (e : Effect) : option TimerMsg :=
  match e with TimerSend m => Some m | _ => None end.
Definition timer_sends (es : list Effect) : list TimerMsg := omap timer_send es.

(** [Command::ResendTimeout] is built by the timer thread and nowhere else. *)
Definition resend_id (c : Command) : option MsgId :=
  match c with ResendTimeout m => Some m | _ => None end.

(** An event: somebody else puts a command on the broker's channel; the broker
    takes one; the timer thread takes a message, reading the clock when it arms
    and when it scans; the timer thread's wait runs out.  A timeout may come
    even when a message has just arrived: between the two the thread can be
    descheduled. *)
Inductive NodeEvent :=
| Post (c : Command)
| BrokerTurn
| TimerTurn (t_arm t_fire : Instant)
| TimerTimeout (t_fire : Instant).

(** A broker thread that has returned has dropped its receiver: what is posted
    then is lost, and a firing timer thread sees the send fail. *)
Definition broker_alive (nd : Node) : bool := bool_decide (is_Some (n_broker nd)).

Definition after_scan (nd : Node) (ms : list TimerMsg) (t : Instant)
    (r : list MsgId * option TimerState) : Node :=
  mkNode (n_broker nd) r.2 (n_cmds nd ++ (ResendTimeout <$> r.1)) ms t (n_done nd) (n_out nd).

(** One event; [None] when it is not enabled. *)
Definition node_step (nd : Node) (ev : NodeEvent) : option Node :=
  match ev with
  | Post c =>
    if decide (is_Some (resend_id c)) then None
    else match n_broker nd with
    | Some _ =>
      Some (mkNode (n_broker nd) (n_timer nd) (n_cmds nd ++ [c]) (n_tmsgs nd) (n_clock nd)
        (n_done nd) (n_out nd))
    | None => Some nd
    end
  | BrokerTurn =>
    match n_broker nd, n_cmds nd with
    | Some b, c :: cs =>
      let '(o, es) := handle b c in
      Some (mkNode o (n_timer nd) cs (n_tmsgs nd ++ timer_sends es) (n_clock nd)
        (n_done nd ++ [c]) (n_out nd ++ es))
    | _, _ => None
    end
  | TimerTurn t_arm t_fire =>
    match n_timer nd, n_tmsgs nd with
    | Some st, m :: ms =>
      if decide (n_clock nd <= t_arm <= t_fire)%Z then
        Some (after_scan nd ms t_fire
          (timer_iter st (Timers.Received m) t_arm t_fire (broker_alive nd)))
      else None
    | _, _ => None
    end
  | TimerTimeout t_fire =>
    match n_timer nd with
    | Some st =>
      match deadlines st with
      | (d, _) :: _ =>
        if decide (n_clock nd <= t_fire /\ d <= t_fire)%Z then
          Some (after_scan nd (n_tmsgs nd) t_fire
            (timer_iter st RecvTimeout t_fire t_fire (broker_alive nd)))
        else None
      | [] => None
      end
    | None => None
    end
  end.

Fixpoint node_run (nd : Node) (evs : list NodeEvent) : option Node :=
  match evs with
  | [] => Some nd
  | ev :: evs => nd' ← node_step nd ev; node_run nd' evs
  end.

(** The threads' own events: everything but a post. *)
Definition internal (ev : NodeEvent) : Prop :=
  match ev with Post _ => False | _ => True end.

(** At rest: no thread has anything to do, now or when the clock moves on.
    [quiet_spec] shows that this is when no internal event is enabled. *)
Definition quiet (nd : Node) : bool :=
  match n_broker nd with Some _ => bool_decide (n_cmds nd = []) | None => true end &&
  match n_timer nd with
  | Some st => bool_decide (n_tmsgs nd = []) && bool_decide (deadlines st = [])
  | None => true
  end.

(** What was posted, in order. *)
Definition posted (ev : NodeEvent) : option Command :=
  match ev with Post c => Some c | _ => None end.
Definition posts (evs : list NodeEvent) : list Command := omap posted evs.

(** ** Where a countdown can be *)

Definition arm_of (m : TimerMsg) : option MsgId :=
  match m with Arm id => Some id | _ => None end.

Definition fired_ids (nd : Node) : list MsgId := omap resend_id (n_cmds nd).
Definition timed_ids (nd : Node) : list MsgId :=
  match n_timer nd with Some st => (deadlines st).*2 | None => [] end.
Definition armed_ids (nd : Node) : list MsgId :=
  match n_timer nd with
  | Some st => filter (fun id => id ∈ armed st) (deadlines st).*2
  | None => []
  end.
Definition arming_ids (nd : Node) : list MsgId := omap arm_of (n_tmsgs nd).

(** The countdowns of a node: timed out and on the way to the broker, running,
    and on the way to the timer thread. *)
Definition countdowns (nd : Node) : list MsgId :=
  fired_ids nd ++ armed_ids nd ++ arming_ids nd.

(** ** Invariant *)

(** The ids issued so far. *)
Definition issued (b : Broker) (id : MsgId) : Prop :=
  exists k, id = id_of (salt b) k /\ (0 <= k < next_id b)%Z.

Record live_inv (nd : Node) (b : Broker) (st : TimerState) : Prop := {
  lv_ids : ids_inv b;
  lv_next : next_id b = zlen (arm_ids (n_out nd));
  lv_timer : timer_inv (n_clock nd) st;
  lv_nodup : NoDup (fired_ids nd ++ (deadlines st).*2 ++ arming_ids nd);
  lv_issued id : id ∈ fired_ids nd ++ (deadlines st).*2 ++ arming_ids nd -> issued b id;
  lv_cancel id : Cancel id ∈ n_tmsgs nd -> issued b id /\ pending b !! id = None;
  lv_pending id : is_Some (pending b !! id) -> id ∈ countdowns nd;
  lv_running : Shutdown ∉ n_tmsgs nd;
}.

(** While the broker runs its timer thread does too; a broker that has returned
    has asked it to stop. *)
Definition node_inv (nd : Node) : Prop :=
  match n_broker nd with
  | Some b => exists st, n_timer nd = Some st /\ live_inv nd b st
  | None => n_timer nd = None \/ Shutdown ∈ n_tmsgs nd
  end.

(** ** What a turn of the broker asks of the timer thread *)

Lemma timer_sends_app es es' : timer_sends (es ++ es') = timer_sends es ++ timer_sends es'.
Proof. apply omap_app. Qed.

Lemma arms_of_sends es : omap arm_of (timer_sends es) = arm_ids es.
Proof.
  induction es as [|[tx f|i p|tx ok|[id|id|]] es IH]; [done|..]; csimpl; by rewrite IH.
Qed.

(** Effects that arm countdowns and do nothing else to the timer. *)
Definition arms_only (es : list Effect) : Prop := timer_sends es = Arm <$> arm_ids es.

Lemma arms_only_app es es' : arms_only es -> arms_only es' -> arms_only (es ++ es').
Proof.
  unfold arms_only. intros H1 H2. by rewrite timer_sends_app, arm_ids_app, fmap_app, H1, H2.
Qed.

Lemma arms_only_none es : timer_sends es = [] -> arms_only es.
Proof. unfold arms_only. intros E. by rewrite <- arms_of_sends, E. Qed.

Lemma timer_sends_to_conn b id frame : timer_sends (send_to_conn b id frame) = [].
Proof. unfold send_to_conn. by destruct (conns b !! id). Qed.

Lemma route_timer_sends b t f b' es : route b t f = (b', es) -> timer_sends es = [].
Proof.
  unfold route, next_round_robin. intros E.
  destruct t; [simplify_eq; apply timer_sends_to_conn|].
  destruct (send_mode b).
  - case_decide; [by simplify_eq|].
    destruct (order b !! _); simplify_eq; [apply timer_sends_to_conn|done].
  - simplify_eq. by induction (map_to_list (conns b')) as [|[] l IH].
Qed.

Lemma transmit_arms b i p n b' es : transmit b i p n = (b', es) -> arms_only es.
Proof.
  unfold transmit. destruct (tracks b i).
  - destruct (next_msg_id b) as [id b1]. destruct (route _ i _) as [b2 es2] eqn:E.
    apply route_timer_sends in E. intros; simplify_eq.
    apply (arms_only_app [TimerSend (Arm id)]); [done|by apply arms_only_none].
  - intros E%route_timer_sends. by apply arms_only_none.
Qed.

Lemma handle_send_arms b i p b' es : handle_send b i p = (b', es) -> arms_only es.
Proof.
  unfold handle_send. case_decide; intros E; [by simplify_eq|]. by apply transmit_arms in E.
Qed.

Lemma send_each_arms b ms b' es : send_each b ms = (b', es) -> arms_only es.
Proof.
  revert b es. induction ms as [|[i p] ms IH]; intros b es E; simpl in E; [by simplify_eq|].
  destruct (handle_send b i p) as [b1 es1] eqn:E1.
  destruct (send_each b1 ms) as [b2 es2] eqn:E2. simplify_eq.
  apply arms_only_app; eauto using handle_send_arms.
Qed.

Lemma handle_up_arms b id w a b' es : handle_up b id w a = (b', es) -> arms_only es.
Proof.
  unfold handle_up. case_decide; [by intros; simplify_eq|].
  case_decide; [by intros; simplify_eq|].
  destruct (send_each _ _) as [b1 es1] eqn:E. intros; simplify_eq.
  apply (arms_only_app [Accept a true]); [done|by eapply send_each_arms].
Qed.

Lemma handle_resend_arms b id b' es : handle_resend b id = (b', es) -> arms_only es.
Proof.
  unfold handle_resend. destruct (pending b !! id); [|by intros; simplify_eq].
  destruct (p_retries _); [by intros; simplify_eq|].
  case_decide; [by intros; simplify_eq|]. by intros E%transmit_arms.
Qed.

(** The only other thing asked of the timer is a cancellation, for an ack that
    matches a pending message, which it settles. *)
Lemma handle_timer b c b' es :
  handle b c = (Some b', es) ->
  arms_only es \/
  exists from m, c = Received from (Ack m) /\ timer_sends es = [Cancel m] /\
    is_Some (pending b !! m) /\ b' = with_pending (delete m (pending b)) b.
Proof.
  destruct c as [i d|id w a|id|id e|m|]; cbn [handle]; intros E; simplify_eq;
    case_match eqn:E1; simplify_eq.
  - left. by eapply handle_send_arms.
  - left. by eapply handle_up_arms.
  - left. unfold handle_down in E1. by simplify_eq.
  - destruct e as [| | |m p|m]; cbn [handle_received] in E1; simplify_eq; try by left.
    + left. destruct (route b _ _) as [b1 es1] eqn:E2. simplify_eq.
      apply arms_only_none. by apply route_timer_sends in E2.
    + destruct (pending b !! m) eqn:Hm; simplify_eq; [|by left]. right. eauto 10.
  - left. by eapply handle_resend_arms.
Qed.

(** A resend timeout takes its message out of the table. *)
Lemma handle_resend_forgets b m b' es :
  ids_inv b -> (next_id b < 2 ^ 64)%Z ->
  handle_resend b m = (b', es) -> pending b' !! m = None.
Proof.
  intros HI Hlt. unfold handle_resend.
  destruct (pending b !! m) as [p|] eqn:Hm; [|by intros; simplify_eq].
  pose proof (lookup_delete_eq (pending b) m) as Hd.
  destruct (p_retries p); [by intros; simplify_eq|].
  case_decide as Hc; [by intros; simplify_eq|].
  intros (Hl & _ & H)%transmit_frame. destruct (tracks _ _).
  - destruct H as (-> & _ & _). simpl. rewrite lookup_insert_ne; [done|].
    intros E. destruct (ii_below _ HI m (mk_is_Some _ _ Hm)) as (k & -> & Hk).
    pose proof (ii_range _ HI) as Hr. unfold id_range in Hr. apply id_of_inj in E; lia.
  - by destruct H as (-> & _ & _).
Qed.

(** What a turn leaves pending: what was, less the message whose timeout it
    handles, and what it has just armed. *)
Lemma handle_pending b c b' es id :
  ids_inv b -> handle b c = (Some b', es) -> (next_id b + zlen (arm_ids es) < 2 ^ 64)%Z ->
  is_Some (pending b' !! id) ->
  is_Some (pending b !! id) /\ resend_id c <> Some id \/ id ∈ arm_ids es.
Proof.
  intros HI E Hlt Hid. pose proof (zlen_nonneg (arm_ids es)).
  pose proof (handle_issues _ _ _ _ (ii_range _ HI) E) as His.
  destruct (is_pending _ _ _ His id Hid) as [Hp|Hp]; [left|by right]. split; [done|].
  destruct c as [| | | |m|]; try done. simpl. intros [= <-]. cbn [handle] in E.
  destruct (handle_resend b m) as [b1 es1] eqn:E1. simplify_eq.
  apply handle_resend_forgets in E1; [|done|lia]. rewrite E1 in Hid. by destruct Hid.
Qed.

Lemma issued_step b b' es id :
  issues b es b' -> next_id b' = (next_id b + zlen (arm_ids es))%Z -> issued b id -> issued b' id.
Proof.
  intros HI Hn (k & -> & Hk). exists k. rewrite (is_salt _ _ _ HI), Hn.
  pose proof (zlen_nonneg (arm_ids es)). split; [done|lia].
Qed.

Lemma issued_arms b b' es id :
  id_range b -> issues b es b' -> next_id b' = (next_id b + zlen (arm_ids es))%Z ->
  (next_id b + zlen (arm_ids es) < 2 ^ 64)%Z ->
  id ∈ arm_ids es -> issued b' id /\ ~ issued b id.
Proof.
  intros Hr HI Hn Hlt Hid. rewrite (is_arms _ _ _ HI) in Hid.
  apply list_elem_of_fmap in Hid as (k & -> & Hk%elem_of_seqZ). unfold id_range in Hr.
  split.
  - exists k. rewrite (is_salt _ _ _ HI), Hn. split; [done|lia].
  - intros (j & Hj & Hlt'). apply id_of_inj in Hj; lia.
Qed.

(** ** Preservation *)

Lemma omap_cons_option {A B} (f : A -> option B) x l :
  omap f (x :: l) = option_list (f x) ++ omap f l.
Proof. simpl. by destruct (f x). Qed.

Lemma omap_resend (ids : list MsgId) : omap resend_id (ResendTimeout <$> ids) = ids.
Proof. induction ids; csimpl; congruence. Qed.

Lemma armed_ids_eq nd st id :
  n_timer nd = Some st -> id ∈ armed_ids nd <-> id ∈ armed st /\ id ∈ (deadlines st).*2.
Proof. intros E. unfold armed_ids. rewrite E. by rewrite list_elem_of_filter. Qed.

Lemma elem_of_countdowns nd st id :
  n_timer nd = Some st ->
  id ∈ countdowns nd <->
  id ∈ fired_ids nd \/ (id ∈ armed st /\ id ∈ (deadlines st).*2) \/ id ∈ arming_ids nd.
Proof. intros E. unfold countdowns. by rewrite !elem_of_app, (armed_ids_eq _ _ _ E). Qed.

Lemma elem_of_arming nd id : id ∈ arming_ids nd <-> Arm id ∈ n_tmsgs nd.
Proof.
  unfold arming_ids. rewrite list_elem_of_omap. split.
  - intros (m & Hm & E). by destruct m; simplify_eq/=.
  - intros H. by exists (Arm id).
Qed.

Lemma broker_turn_inv nd b st c cs b' es :
  n_timer nd = Some st -> live_inv nd b st -> n_cmds nd = c :: cs ->
  handle b c = (Some b', es) -> (zlen (arm_ids (n_out nd ++ es)) < 2 ^ 64)%Z ->
  live_inv (mkNode (Some b') (Some st) cs (n_tmsgs nd ++ timer_sends es) (n_clock nd)
    (n_done nd ++ [c]) (n_out nd ++ es)) b' st.
Proof.
  intros Ht [Hi Hn Hti Hnd Hiss Hcan Hpen Hrun] Hc E Hlt.
  rewrite arm_ids_app, zlen_app, <- Hn in Hlt.
  pose proof (handle_issues _ _ _ _ (ii_range _ Hi) E) as His.
  pose proof (zlen_nonneg (arm_ids es)) as Hz.
  pose proof (ii_range _ Hi) as Hr.
  assert (Hn' : next_id b' = (next_id b + zlen (arm_ids es))%Z).
  { rewrite (is_next _ _ _ His). unfold id_range in Hr. apply wrap_to_small. lia. }
  assert (Hnew : forall id, id ∈ arm_ids es -> issued b' id /\ ~ issued b id).
  { intros id. by apply issued_arms. }
  set (nd' := mkNode _ _ _ _ _ _ _).
  assert (Hf : fired_ids nd = option_list (resend_id c) ++ fired_ids nd').
  { unfold fired_ids. rewrite Hc. apply omap_cons_option. }
  assert (Ha : arming_ids nd' = arming_ids nd ++ arm_ids es).
  { unfold arming_ids. simpl. by rewrite omap_app, arms_of_sends. }
  assert (Hold : forall id, id ∈ fired_ids nd' ++ (deadlines st).*2 ++ arming_ids nd -> issued b id).
  { intros id Hid. apply Hiss. rewrite Hf. set_solver. }
  pose proof (handle_timer _ _ _ _ E) as Hts.
  split.
  - eapply issues_ids_inv; [done..|lia].
  - simpl. by rewrite arm_ids_app, zlen_app, Hn', Hn.
  - done.
  - rewrite Ha, !app_assoc. apply NoDup_app. split_and!.
    + rewrite Hf, <- !app_assoc in Hnd. apply NoDup_app in Hnd as (_ & _ & Hnd).
      by rewrite <- app_assoc.
    + intros id Hid Hid'. apply (Hnew id Hid'), Hold. by rewrite app_assoc.
    + rewrite (is_arms _ _ _ His). unfold id_range in Hr. apply nodup_ids; lia.
  - intros id. rewrite Ha, !app_assoc, elem_of_app. intros [Hid|Hid%Hnew]; [|tauto].
    apply (issued_step b b' es); [done..|]. apply Hold. by rewrite app_assoc.
  - simpl. intros id [Hid|Hid]%elem_of_app.
    + destruct (Hcan _ Hid) as [Hid' Hno]. split; [by apply (issued_step b b' es)|].
      apply eq_None_not_Some. intros Hsome.
      destruct (handle_pending _ _ _ _ id Hi E ltac:(lia) Hsome) as [[Hp _]|Hp].
      * rewrite Hno in Hp. by destruct Hp.
      * by apply (Hnew _ Hp).
    + destruct Hts as [Hts|(from & m & -> & Hts & Hm & ->)].
      * rewrite Hts in Hid. apply list_elem_of_fmap in Hid as (? & ? & _). done.
      * rewrite Hts in Hid. apply list_elem_of_singleton in Hid as [= ->].
        split; [|apply lookup_delete_eq]. destruct (ii_below _ Hi _ Hm) as (k & -> & Hk).
        by exists k.
  - intros id Hid. rewrite (elem_of_countdowns _ st) by done. rewrite Ha, elem_of_app.
    destruct (handle_pending _ _ _ _ id Hi E ltac:(lia) Hid) as [[Hp Hne]|Hp]; [|tauto].
    apply Hpen in Hp. rewrite (elem_of_countdowns _ st), Hf, elem_of_app in Hp by done.
    destruct Hp as [[Hp|Hp]|Hp]; [|tauto..].
    destruct (resend_id c) as [m|]; simpl in Hp; [|by apply not_elem_of_nil in Hp].
    apply list_elem_of_singleton in Hp. congruence.
  - simpl. intros [?|Hid]%elem_of_app; [done|].
    destruct Hts as [Hts|(from & m & _ & Hts & _)]; rewrite Hts in Hid.
    + by apply list_elem_of_fmap in Hid as (? & ? & _).
    + by apply list_elem_of_singleton in Hid.
Qed.

(** A scan splits the queue into what fired, what stays and dropped
    tombstones. *)
Lemma scan_split t ar (dl : list (Instant * MsgId)) :
  NoDup dl.*2 ->
  let fired := (filter (is_due t ar) dl).*2 in
  let later := (filter (fun p => (t < p.1)%Z) dl).*2 in
  NoDup (fired ++ later) /\ (forall id, id ∈ fired ++ later -> id ∈ dl.*2) /\
  (forall id, id ∈ ar -> id ∈ dl.*2 -> id ∈ fired \/ (~ id ∈ fired) /\ id ∈ later).
Proof.
  intros Hnd fired later.
  assert (Hsub : forall (P : Instant * MsgId -> Prop) `{!forall x, Decision (P x)} id,
    id ∈ (filter P dl).*2 -> exists d, (d, id) ∈ dl /\ P (d, id)).
  { intros P ? id ([d i] & -> & [HP Hin]%list_elem_of_filter)%list_elem_of_fmap. by exists d. }
  assert (Hdisj : forall id, id ∈ fired -> id ∈ later -> False).
  { intros id (d & Hd & [Hle _])%Hsub (d' & Hd' & Hlt)%Hsub.
    rewrite (nodup_snd_inj _ _ _ _ Hnd Hd Hd') in Hle. simpl in *. lia. }
  split_and!.
  - apply NoDup_app. split; [by apply nodup_snd_filter|]. split; [eauto|by apply nodup_snd_filter].
  - intros id [(d & Hd & _)%Hsub|(d & Hd & _)%Hsub]%elem_of_app;
      apply list_elem_of_fmap; by exists (d, id).
  - intros id Hid ([d i] & -> & Hin)%list_elem_of_fmap. simpl in *.
    destruct (decide (d <= t)%Z).
    + left. apply list_elem_of_fmap. exists (d, i). split; [done|].
      apply list_elem_of_filter. by split.
    + assert (i ∈ later).
      { apply list_elem_of_fmap. exists (d, i). split; [done|].
        apply list_elem_of_filter. split; [simpl; lia|done]. }
      right. split; [|done]. intros ?. eauto.
Qed.

(** The messages an outcome takes off the channel. *)
Definition received (r : recv_outcome) : list TimerMsg :=
  match r with Timers.Received m => [m] | _ => [] end.

Lemma apply_msg_queue st r t_arm :
  (deadlines (apply_msg st r t_arm)).*2 = (deadlines st).*2 ++ omap arm_of (received r).
Proof.
  destruct r as [[id|id|]| |]; simpl; rewrite ?app_nil_r; try done. by rewrite fmap_app.
Qed.

Lemma apply_msg_armed st r t_arm id :
  r <> Timers.Received (Cancel id) ->
  id ∈ armed st \/ id ∈ omap arm_of (received r) -> id ∈ armed (apply_msg st r t_arm).
Proof.
  destruct r as [[i|i|]| |]; simpl; intros Hne [H|H]; try done;
    rewrite ?list_elem_of_singleton in H; set_solver.
Qed.

Lemma timer_turn_inv nd b st r ms t_arm t :
  n_broker nd = Some b -> n_timer nd = Some st -> live_inv nd b st ->
  n_tmsgs nd = received r ++ ms -> r <> Disconnected -> (n_clock nd <= t_arm <= t)%Z ->
  exists st', (timer_iter st r t_arm t true).2 = Some st' /\
    live_inv (after_scan nd ms t (timer_iter st r t_arm t true)) b st'.
Proof.
  intros Hb Ht [Hi Hn Hti Hnd Hiss Hcan Hpen Hrun] Hms Hr1 Hclk.
  assert (Hr2 : r <> Timers.Received Shutdown).
  { intros ->. apply Hrun. rewrite Hms. left. }
  assert (Ha : arming_ids nd = omap arm_of (received r) ++ omap arm_of ms).
  { unfold arming_ids. by rewrite Hms, omap_app. }
  assert (Hfr : fresh st r).
  { destruct r as [[id| |]| |]; try done. intros Hid.
    rewrite Ha in Hnd. apply NoDup_app in Hnd as (_ & _ & Hnd).
    apply NoDup_app in Hnd as (_ & Hd & _). apply (Hd _ Hid). by left. }
  rewrite (timer_iter_eq _ _ _ _ _ Hti Hfr (proj1 Hclk) Hr1 Hr2). simpl snd.
  eexists. split; [reflexivity|].
  pose proof (apply_msg_inv _ _ _ _ Hti Hfr (proj1 Hclk)) as [Hs Hnd1 Har Hh].
  pose proof (apply_msg_queue st r t_arm) as Hq.
  pose proof (apply_msg_armed st r t_arm) as Hap.
  set (st1 := apply_msg st r t_arm) in *.
  destruct (scan_split t (armed st1) (deadlines st1) Hnd1) as (Hnd2 & Hsub & Hcov).
  set (fired := (filter (is_due t (armed st1)) (deadlines st1)).*2) in *.
  set (later := (filter (fun p => (t < p.1)%Z) (deadlines st1)).*2) in *.
  set (nd' := after_scan _ _ _ _).
  match goal with |- live_inv _ _ ?s => set (st' := s) end.
  assert (Hlater : (deadlines st').*2 = later) by done.
  assert (Hf : fired_ids nd' = fired_ids nd ++ fired).
  { unfold fired_ids, nd'. simpl. by rewrite omap_app, omap_resend. }
  assert (Hall : NoDup (fired_ids nd ++ (deadlines st1).*2 ++ omap arm_of ms)).
  { by rewrite Hq, <- !app_assoc, <- Ha. }
  assert (Hmem : forall id, id ∈ fired_ids nd' ++ later ++ omap arm_of ms ->
    id ∈ fired_ids nd ++ (deadlines st1).*2 ++ omap arm_of ms).
  { intros id. rewrite Hf, !elem_of_app. intros [[?|?]|[?|?]]; try tauto;
      right; left; apply Hsub, elem_of_app; tauto. }
  split.
  - done.
  - done.
  - split; simpl.
    + by apply sorted_filter.
    + by apply nodup_snd_filter.
    + intros id [Hid Hnf]%elem_of_difference. rewrite elem_of_list_to_set in Hnf.
      destruct (Hcov id Hid (Har _ Hid)) as [?|[_ ?]]; [done|done].
    + intros d id [_ Hin]%list_elem_of_filter. apply Hh in Hin. lia.
  - rewrite Hlater. change (arming_ids nd') with (omap arm_of ms).
    rewrite Hf, <- app_assoc. apply NoDup_app in Hall as (H1 & H2 & H3).
    apply NoDup_app in H3 as (H3 & H4 & H5).
    apply NoDup_app. split; [done|]. split.
    { intros id Hid Hid'. apply (H2 id Hid). set_solver. }
    rewrite app_assoc. apply NoDup_app. split; [done|]. split; [|done].
    intros id Hid. by apply H4, Hsub.
  - rewrite Hlater. change (arming_ids nd') with (omap arm_of ms).
    intros id Hid%Hmem. apply Hiss. by rewrite Ha, !app_assoc, <- (app_assoc _ (deadlines st).*2), <- Hq, <- app_assoc.
  - simpl. intros id Hid. apply Hcan. rewrite Hms. apply elem_of_app. by right.
  - intros id Hid. rewrite (elem_of_countdowns nd' st' id eq_refl), Hf, elem_of_app, Hlater.
    change (armed st') with (armed st1 ∖ list_to_set fired). change (arming_ids nd') with (omap arm_of ms).
    assert (Hc : r <> Timers.Received (Cancel id)).
    { intros ->. destruct (Hcan id) as [_ Hno]; [rewrite Hms; left|].
      rewrite Hno in Hid. by destruct Hid. }
    specialize (Hap id Hc). apply Hpen in Hid.
    rewrite (elem_of_countdowns _ _ id Ht), Ha, elem_of_app in Hid.
    assert (Hgo : id ∈ armed st1 -> id ∈ (deadlines st1).*2 ->
      id ∈ fired \/ id ∈ armed st1 ∖ list_to_set fired /\ id ∈ later).
    { intros Hx Hy. destruct (Hcov id Hx Hy) as [?|[??]]; [by left|right]. set_solver. }
    rewrite Hq, elem_of_app in Hgo. tauto.
  - simpl. intros Hin. apply Hrun. rewrite Hms. apply elem_of_app. by right.
Qed.

Lemma step_out_prefix nd ev nd' : node_step nd ev = Some nd' -> n_out nd `prefix_of` n_out nd'.
Proof.
  destruct ev; simpl; repeat case_match; intros; simplify_eq/=; try done. by eexists.
Qed.

Lemma prefix_arms es es' : es `prefix_of` es' -> (zlen (arm_ids es) <= zlen (arm_ids es'))%Z.
Proof. intros [k ->]. rewrite arm_ids_app, zlen_app. pose proof (zlen_nonneg (arm_ids k)). lia. Qed.

Lemma run_out_prefix nd evs nd' : node_run nd evs = Some nd' -> n_out nd `prefix_of` n_out nd'.
Proof.
  revert nd. induction evs as [|ev evs IH]; intros nd E; simpl in E; [by simplify_eq|].
  destruct (node_step nd ev) as [nd1|] eqn:E1; [|done].
  transitivity (n_out nd1); [by eapply step_out_prefix|by apply IH].
Qed.

Lemma live_post nd b st c :
  n_timer nd = Some st -> resend_id c = None -> live_inv nd b st ->
  live_inv (mkNode (n_broker nd) (n_timer nd) (n_cmds nd ++ [c]) (n_tmsgs nd) (n_clock nd)
    (n_done nd) (n_out nd)) b st.
Proof.
  intros Ht Hc HI. set (nd' := mkNode _ _ _ _ _ _ _).
  assert (Hf : fired_ids nd' = fired_ids nd).
  { unfold fired_ids. simpl. rewrite omap_app. simpl. by rewrite Hc, app_nil_r. }
  assert (Hcd : countdowns nd' = countdowns nd) by (unfold countdowns; by rewrite Hf).
  destruct HI. split; rewrite ?Hf, ?Hcd; done.
Qed.

(** A timer turn after the broker has gone leads to the thread's end. *)
Lemma timer_turn_closing nd st r ms t_arm t :
  n_broker nd = None -> Shutdown ∈ n_tmsgs nd -> n_tmsgs nd = received r ++ ms ->
  node_inv (after_scan nd ms t (timer_iter st r t_arm t false)).
Proof.
  intros Hb Hs Hms. unfold node_inv. simpl. rewrite Hb.
  destruct r as [[i|i|]| |]; [..|by left| |by left]; right; rewrite Hms in Hs;
    (apply elem_of_app in Hs as [Hs|Hs]; [|done]); simpl in Hs; set_solver.
Qed.

Lemma broker_alive_eq nd : broker_alive nd = match n_broker nd with Some _ => true | None => false end.
Proof.
  unfold broker_alive. destruct (n_broker nd); [by apply bool_decide_eq_true_2|].
  apply bool_decide_eq_false_2. by intros [].
Qed.

Lemma handle_closes b c es : handle b c = (None, es) -> c = Close /\ es = [TimerSend Shutdown].
Proof. destruct c; cbn [handle]; intros E; repeat case_match; by simplify_eq. Qed.

(** Either thread's turn keeps the invariant; [r] is what the timer's receive
    returned. *)
Lemma timer_scan_inv nd st r ms t_arm t :
  node_inv nd -> n_timer nd = Some st -> n_tmsgs nd = received r ++ ms -> r <> Disconnected ->
  (n_clock nd <= t_arm <= t)%Z ->
  node_inv (after_scan nd ms t (timer_iter st r t_arm t (broker_alive nd))).
Proof.
  intros HI Ht Hms Hr Hclk. rewrite broker_alive_eq. unfold node_inv in HI.
  destruct (n_broker nd) as [b|] eqn:Hb.
  - destruct HI as (st0 & Ht0 & HI). rewrite Ht in Ht0. simplify_eq.
    destruct (timer_turn_inv nd b st0 r ms t_arm t Hb Ht HI Hms Hr Hclk) as (st' & E & HI').
    unfold node_inv. simpl. rewrite Hb. exists st'. by split.
  - destruct HI as [HI|HI]; [congruence|]. by apply timer_turn_closing.
Qed.

Lemma node_step_inv nd ev nd' :
  node_inv nd -> node_step nd ev = Some nd' -> (zlen (arm_ids (n_out nd')) < 2 ^ 64)%Z ->
  node_inv nd'.
Proof.
  intros HI E Hlt. destruct ev as [c| |t_arm t|t]; cbn [node_step] in E.
  - case_decide as Hc; [done|]. apply eq_None_not_Some in Hc. unfold node_inv in HI.
    destruct (n_broker nd) as [b|] eqn:Hb; simplify_eq.
    + destruct HI as (st & Ht & HI). exists st. split; [done|].
      rewrite <- Hb. by apply live_post.
    + unfold node_inv. by rewrite Hb.
  - unfold node_inv in HI. destruct (n_broker nd) as [b|] eqn:Hb; [|done].
    destruct HI as (st & Ht & HI). destruct (n_cmds nd) as [|c cs] eqn:Hc; [done|].
    destruct (handle b c) as [[b'|] es] eqn:Eh; simplify_eq.
    + exists st. split; [done|]. rewrite Ht. by eapply broker_turn_inv.
    + apply handle_closes in Eh as [-> ->]. right. simpl. apply elem_of_app. right. left.
  - destruct (n_timer nd) as [st|] eqn:Ht; [|done].
    destruct (n_tmsgs nd) as [|m ms] eqn:Hm; [done|]. case_decide; simplify_eq.
    by apply timer_scan_inv.
  - destruct (n_timer nd) as [st|] eqn:Ht; [|done].
    destruct (deadlines st) as [|[d i] dl] eqn:Hd; [done|]. case_decide; simplify_eq.
    apply timer_scan_inv; [done..|lia].
Qed.

Lemma node_init_inv mode del uuid : node_inv (node_init (new_broker mode del uuid)).
Proof.
  exists timer_init. split; [done|].
  split; [apply new_ids_inv|done|apply timer_init_inv|constructor|..]; simpl.
  - by intros id ?%elem_of_nil.
  - by intros id ?%elem_of_nil.
  - intros id. rewrite lookup_empty. by intros [].
  - by intros ?%elem_of_nil.
Qed.

Lemma node_run_inv nd evs nd' :
  node_inv nd -> node_run nd evs = Some nd' -> (zlen (arm_ids (n_out nd')) < 2 ^ 64)%Z ->
  node_inv nd'.
Proof.
  revert nd. induction evs as [|ev evs IH]; intros nd HI E Hlt; simpl in E; [by simplify_eq|].
  destruct (node_step nd ev) as [nd1|] eqn:E1; [|done].
  apply (IH nd1); [|done..]. eapply node_step_inv; [done..|].
  pose proof (prefix_arms _ _ (run_out_prefix _ _ _ E)). simpl in *. lia.
Qed.

(** ** Nothing is forgotten *)

Lemma countdowns_nodup nd b st :
  n_timer nd = Some st -> live_inv nd b st -> NoDup (countdowns nd).
Proof.
  intros Ht HI. pose proof (lv_nodup _ _ _ HI) as Hnd.
  unfold countdowns, armed_ids. rewrite Ht.
  apply NoDup_app in Hnd as (H1 & H2 & H3). apply NoDup_app in H3 as (H3 & H4 & H5).
  assert (Hsub : forall id, id ∈ filter (fun id => id ∈ armed st) (deadlines st).*2 ->
    id ∈ (deadlines st).*2) by (intros id [_ ?]%list_elem_of_filter; done).
  apply NoDup_app. split; [done|]. split.
  - intros id Hid [Hid'|Hid']%elem_of_app; apply (H2 id Hid), elem_of_app; eauto.
  - apply NoDup_app. split; [by apply NoDup_filter|]. eauto.
Qed.

(** C7: No message waiting for its ack is ever forgotten: whatever the
    interleaving of the broker, the timer thread and everybody posting
    commands (short of 2^64 tracked messages), as long as the broker runs its
    timer thread does, and every pending message has exactly one countdown:
    still on its way to the timer thread, running there, or timed out and on
    its way back to the broker as a [ResendTimeout]. *)
Theorem every_pending_is_timed mode del uuid evs nd b :
  node_run (node_init (new_broker mode del uuid)) evs = Some nd ->
  n_broker nd = Some b -> (zlen (arm_ids (n_out nd)) < 2 ^ 64)%Z ->
  is_Some (n_timer nd) /\
  forall id, is_Some (pending b !! id) -> length (filter (eq id) (countdowns nd)) = 1.
Proof.
  intros E Hb Hlt. pose proof (node_run_inv _ _ _ (node_init_inv _ _ _) E Hlt) as HI.
  unfold node_inv in HI. rewrite Hb in HI. destruct HI as (st & Ht & HI).
  split; [by exists st|]. intros id Hid%(lv_pending _ _ _ HI).
  rewrite count_nodup by by eapply countdowns_nodup. by rewrite decide_True.
Qed.
