(* ===== verification/BrokerRest.v ===== *)
(** * BrokerRest: the broker and its timers come to rest

    Termination and liveness of the pair of threads of [BrokerTimers].  [work]
    is a bound on the turns still to be taken without a new post; every turn
    lowers it ([turn_lowers_work]), whatever the interleaving, so the pair comes
    to rest ([node_comes_to_rest]).  At rest no message is waiting for its ack:
    each one submitted was acknowledged, given up after its retries, or is
    buffered for want of a peer ([all_settled_at_rest]), and the next peer to
    connect is sent the buffered ones again ([survives_reconnect]). *)

From S2P Require Import Prelude Protocol Timers Broker BrokerProps BrokerTimers.
From Stdlib Require Import Strings.Byte.

(** ** The measure *)

(** The turns a tracked message can still cause are paid for in advance: a
    retry costs its trip through the timer thread, a [Send] its first
    transmission and [MAX_RETRIES] retries. *)
Definition retry_work (p : Pending) : nat := 3 * p_retries p.

Definition pending_work (m : gmap MsgId Pending) : nat :=
  sum_list_with retry_work (map_to_list m).*2.

Definition cmd_work (c : Command) : nat :=
  match c with
  | Send _ _ => 4 + 3 * MAX_RETRIES
  | Received _ _ | Close => 2
  | ConnectionUp _ _ _ | ConnectionDown _ | ResendTimeout _ => 1
  end.

Definition tmsg_work (m : TimerMsg) : nat :=
  match m with Arm _ => 3 | Cancel _ | Shutdown => 1 end.

Definition is_up (c : Command) : nat := match c with ConnectionUp _ _ _ => 1 | _ => 0 end.
Definition is_send (c : Command) : nat := match c with Send _ _ => 1 | _ => 0 end.

(** The messages that a new peer may cause to be sent afresh. *)
Definition messages_in (b : Broker) : nat := length (buffer b) + size (pending b).

(** A buffered message flushed to a new peer: a transmission and its retries. *)
Definition flush_work : nat := 3 + 3 * MAX_RETRIES.

Definition work (nd : Node) : nat :=
  match n_timer nd with
  | Some st => sum_list_with tmsg_work (n_tmsgs nd) + 2 * length (deadlines st)
  | None => 0
  end +
  match n_broker nd with
  | Some b =>
    sum_list_with cmd_work (n_cmds nd) + pending_work (pending b) +
    flush_work * sum_list_with is_up (n_cmds nd) *
      (messages_in b + sum_list_with is_send (n_cmds nd))
  | None => 0
  end.

(** ** The broker's part *)

Lemma pending_work_delete m id p :
  m !! id = Some p -> pending_work m = retry_work p + pending_work (delete id m).
Proof.
  intros E. unfold pending_work. rewrite <- (map_to_list_delete _ _ _ E). done.
Qed.

Lemma pending_work_insert m id p :
  pending_work (<[id := p]> m) <= retry_work p + pending_work m.
Proof.
  rewrite <- insert_delete_eq. destruct (m !! id) as [q|] eqn:E.
  - rewrite (pending_work_delete m id q) by done. unfold pending_work.
    rewrite map_to_list_insert by apply lookup_delete_eq. csimpl. lia.
  - rewrite delete_id by done. unfold pending_work. rewrite map_to_list_insert by done.
    csimpl. lia.
Qed.

Lemma size_insert_le (m : gmap MsgId Pending) id p : size (<[id := p]> m) <= S (size m).
Proof. rewrite map_size_insert. destruct (m !! id); simpl; lia. Qed.

Lemma arms_work ids : sum_list_with tmsg_work (Arm <$> ids) = 3 * length ids.
Proof. induction ids; csimpl; lia. Qed.

Lemma arms_only_work es :
  arms_only es -> sum_list_with tmsg_work (timer_sends es) = 3 * length (arm_ids es).
Proof. intros E. rewrite E. apply arms_work. Qed.

(** [costs b es b' w n]: a step that adds at most [w] of work and [n] messages. *)
Definition costs (b : Broker) (es : list Effect) (b' : Broker) (w n : nat) : Prop :=
  pending_work (pending b') + sum_list_with tmsg_work (timer_sends es)
    <= w + pending_work (pending b) /\
  messages_in b' <= n + messages_in b.

Lemma costs_trans b es1 b1 es2 b2 w1 n1 w2 n2 :
  costs b es1 b1 w1 n1 -> costs b1 es2 b2 w2 n2 -> costs b (es1 ++ es2) b2 (w1 + w2) (n1 + n2).
Proof.
  unfold costs. intros [H1 H2] [H3 H4]. rewrite timer_sends_app, sum_list_with_app. lia.
Qed.

Lemma transmit_costs b i p n b' es :
  transmit b i p n = (b', es) -> costs b es b' (3 + 3 * n) 1.
Proof.
  intros E. pose proof (arms_only_work _ (transmit_arms _ _ _ _ _ _ E)) as Hw.
  apply transmit_frame in E as (_ & Hb & H). unfold costs, messages_in. rewrite Hw, Hb.
  destruct (tracks b i); destruct H as (-> & _ & ->).
  - pose proof (pending_work_insert (pending b) (id_of (salt b) (next_id b)) (mkPending i p n)).
    pose proof (size_insert_le (pending b) (id_of (salt b) (next_id b)) (mkPending i p n)).
    unfold retry_work in *. simpl in *. lia.
  - simpl. lia.
Qed.

Lemma handle_send_costs b i p b' es :
  handle_send b i p = (b', es) -> costs b es b' flush_work 1.
Proof.
  unfold handle_send. case_decide; intros E; [|by apply transmit_costs in E].
  simplify_eq. unfold costs, messages_in. simpl. rewrite length_app. simpl. lia.
Qed.

Lemma send_each_costs b ms b' es :
  send_each b ms = (b', es) -> costs b es b' (flush_work * length ms) (length ms).
Proof.
  revert b es. induction ms as [|[i p] ms IH]; intros b es E; simpl in E.
  { simplify_eq. unfold costs. simpl. lia. }
  destruct (handle_send b i p) as [b1 es1] eqn:E1.
  destruct (send_each b1 ms) as [b2 es2] eqn:E2. simplify_eq. simpl length.
  replace (flush_work * S (length ms)) with (flush_work + flush_work * length ms) by lia.
  apply (costs_trans _ _ b1 _ _ _ 1); eauto using handle_send_costs.
Qed.

Lemma handle_up_costs b id w a b' es :
  handle_up b id w a = (b', es) -> costs b es b' (flush_work * messages_in b) 0.
Proof.
  unfold handle_up. case_decide; [intros; simplify_eq; unfold costs; simpl; lia|].
  case_decide; simpl.
  { intros; simplify_eq. unfold costs, messages_in. simpl. lia. }
  destruct (send_each _ _) as [b1 es1] eqn:E. intros; simplify_eq.
  apply send_each_costs in E as [H1 H2]. unfold costs, messages_in in *.
  change (timer_sends (Accept a true :: es1)) with (timer_sends es1). simpl in *. lia.
Qed.

Lemma handle_resend_costs b id b' es :
  handle_resend b id = (b', es) -> costs b es b' 0 0.
Proof.
  unfold handle_resend. destruct (pending b !! id) as [p|] eqn:Hp;
    [|intros; simplify_eq; unfold costs; simpl; lia].
  set (b1 := with_pending _ b).
  pose proof (pending_work_delete _ _ _ Hp) as Hw.
  assert (Hs : size (pending b) = S (size (delete id (pending b)))).
  { rewrite map_size_delete, Hp. destruct (size (pending b)) eqn:E; [|simpl; lia].
    by apply map_size_empty_inv in E; rewrite E, lookup_empty in Hp. }
  unfold retry_work in Hw. destruct (p_retries p) as [|r].
  { intros; simplify_eq. unfold costs, messages_in. simpl. lia. }
  case_decide; intros E.
  - simplify_eq. unfold costs, messages_in. simpl. rewrite length_app. simpl. lia.
  - apply transmit_costs in E as [H1 H2]. unfold costs, messages_in in *. simpl in *. lia.
Qed.

(** What a turn costs is covered by the work of its command, and, when a peer
    connects, by that of one flush of every message. *)
Lemma handle_costs b c b' es :
  handle b c = (Some b', es) ->
  costs b es b' (pred (cmd_work c) + flush_work * is_up c * messages_in b) (is_send c).
Proof.
  destruct c as [i d|id w a|id|id e|m|]; cbn [handle]; intros E; simplify_eq;
    case_match eqn:E1; simplify_eq; cbn [is_up is_send cmd_work pred].
  - apply handle_send_costs in E1. unfold costs, flush_work in *. lia.
  - apply handle_up_costs in E1. unfold costs in *. lia.
  - unfold handle_down in E1. simplify_eq. unfold costs, messages_in. simpl. lia.
  - assert (E' : handle b (Received id e) = (Some b', es)) by (cbn [handle]; by rewrite E1).
    destruct (handle_timer _ _ _ _ E') as [Ha|(from & m & [= -> ->] & Ht & Hm & ->)].
    + assert (Hn : arm_ids es = [] /\ b' = b \/ exists m, e = Ack m).
      { destruct e; cbn [handle_received] in E1; simplify_eq; eauto.
        destruct (route b _ _) as [b1 es1] eqn:E2. simplify_eq.
        apply route_frame in E2 as [H1 [->|(? & _)]]; [by left|done]. }
      destruct Hn as [[Hn ->]|[m ->]].
      * unfold costs. rewrite (arms_only_work _ Ha), Hn. simpl. lia.
      * cbn [handle_received] in E1. destruct (pending b !! m); simplify_eq; [done|].
        unfold costs. simpl. lia.
    + destruct Hm as [p Hp]. pose proof (pending_work_delete _ _ _ Hp).
      unfold costs, messages_in. rewrite Ht. simpl. rewrite map_size_delete, Hp. lia.
  - apply handle_resend_costs in E1. unfold costs in *. lia.
Qed.

(** ** Every turn lowers the work *)

Lemma fire_due_work alive now dl ar dl' ar' fired stop :
  fire_due alive now dl ar = (dl', ar', fired, stop) ->
  length fired + 2 * length dl' <= 2 * length dl.
Proof.
  revert ar dl' ar' fired stop. induction dl as [|[d id] dl IH]; intros ar dl' ar' fired stop E;
    simpl in E; [simplify_eq; simpl; lia|].
  case_decide; [simplify_eq; simpl; lia|]. case_decide.
  - destruct alive; [|simplify_eq; simpl; lia].
    destruct (fire_due true now dl _) as [[[dl1 ar1] f1] s1] eqn:E1. simplify_eq.
    apply IH in E1. simpl. lia.
  - apply IH in E. simpl. lia.
Qed.

(** The front deadline is due: it goes. *)
Lemma fire_due_work_front alive now d id dl ar dl' ar' fired stop :
  (d <= now)%Z -> fire_due alive now ((d, id) :: dl) ar = (dl', ar', fired, stop) ->
  length fired + 2 * length dl' < 2 * length ((d, id) :: dl).
Proof.
  intros Hd E. simpl in E. rewrite decide_False in E by lia. simpl. case_decide.
  - destruct alive; [|simplify_eq; simpl; lia].
    destruct (fire_due true now dl _) as [[[dl1 ar1] f1] s1] eqn:E1. simplify_eq.
    apply fire_due_work in E1. simpl. lia.
  - apply fire_due_work in E. lia.
Qed.

(** The timer thread's share of the work, with the queue it leaves. *)
Definition timer_work (st : option TimerState) (ms : list TimerMsg) : nat :=
  match st with
  | Some st => sum_list_with tmsg_work ms + 2 * length (deadlines st)
  | None => 0
  end.

Lemma timer_message_work st m ms t_arm t alive fired o :
  timer_iter st (Timers.Received m) t_arm t alive = (fired, o) ->
  length fired + timer_work o ms < timer_work (Some st) (m :: ms).
Proof.
  unfold timer_iter, timer_work. destruct m as [id|id|]; simpl; [| |intros; simplify_eq; simpl; lia].
  - destruct (fire_due _ _ _ _) as [[[dl ar] f] s] eqn:E. apply fire_due_work in E.
    rewrite length_app in E. simpl in E. intros; simplify_eq. destruct s; simpl; lia.
  - destruct (fire_due _ _ _ _) as [[[dl ar] f] s] eqn:E. apply fire_due_work in E.
    intros; simplify_eq. destruct s; simpl in *; lia.
Qed.

Lemma timer_timeout_work st d id dl ms t_arm t alive fired o :
  deadlines st = (d, id) :: dl -> (d <= t)%Z ->
  timer_iter st RecvTimeout t_arm t alive = (fired, o) ->
  length fired + timer_work o ms < timer_work (Some st) ms.
Proof.
  unfold timer_iter, timer_work. intros Hdl Hd. rewrite Hdl.
  destruct (fire_due _ _ _ _) as [[[dl1 ar] f] s] eqn:E.
  apply fire_due_work_front in E; [|done]. intros; simplify_eq.
  destruct s; simpl in *; lia.
Qed.

Definition broker_work (o : option Broker) (cs : list Command) : nat :=
  match o with
  | Some b =>
    sum_list_with cmd_work cs + pending_work (pending b) +
    flush_work * sum_list_with is_up cs * (messages_in b + sum_list_with is_send cs)
  | None => 0
  end.

Lemma work_eq nd : work nd = timer_work (n_timer nd) (n_tmsgs nd) + broker_work (n_broker nd) (n_cmds nd).
Proof. done. Qed.

Lemma resends_sums (ids : list MsgId) :
  sum_list_with cmd_work (ResendTimeout <$> ids) = length ids /\
  sum_list_with is_up (ResendTimeout <$> ids) = 0 /\
  sum_list_with is_send (ResendTimeout <$> ids) = 0.
Proof. induction ids as [|i ids (H1 & H2 & H3)]; [done|]. csimpl. lia. Qed.

Lemma broker_work_fired o cs (ids : list MsgId) :
  broker_work o (cs ++ (ResendTimeout <$> ids)) <= broker_work o cs + length ids.
Proof.
  destruct o as [b|]; simpl; [|lia]. rewrite !sum_list_with_app.
  destruct (resends_sums ids) as (-> & -> & ->). rewrite !Nat.add_0_r. lia.
Qed.

(** A turn of the broker pays for what it asks of the timer thread. *)
Lemma broker_turn_work b c cs o es :
  handle b c = (o, es) ->
  broker_work o cs + sum_list_with tmsg_work (timer_sends es) < broker_work (Some b) (c :: cs).
Proof.
  intros E. destruct o as [b'|]; [|apply handle_closes in E as [-> ->]; simpl; lia].
  apply handle_costs in E as [H1 H2]. cbn [broker_work sum_list_with].
  set (U := sum_list_with is_up cs). set (S := sum_list_with is_send cs).
  set (M := messages_in b) in *.
  assert (Hc : cmd_work c = Datatypes.S (pred (cmd_work c))) by (by destruct c).
  assert (HM : flush_work * U * (messages_in b' + S) <= flush_work * U * (M + (is_send c + S)))
    by (apply Nat.mul_le_mono_l; lia).
  assert (HU : flush_work * is_up c * M + flush_work * U * (M + (is_send c + S))
    <= flush_work * (is_up c + U) * (M + (is_send c + S))) by nia.
  lia.
Qed.

Lemma turn_lowers_work nd ev nd' :
  internal ev -> node_step nd ev = Some nd' -> work nd' < work nd.
Proof.
  intros Hi E. rewrite !work_eq. destruct ev as [c| |t_arm t|t]; [done|..]; cbn [node_step] in E.
  - destruct (n_broker nd) as [b|]; [|done]. destruct (n_cmds nd) as [|c cs]; [done|].
    destruct (handle b c) as [o es] eqn:Eh. simplify_eq. apply (broker_turn_work _ _ cs) in Eh.
    cbn [n_timer n_tmsgs n_broker n_cmds]. unfold timer_work.
    destruct (n_timer nd); rewrite ?sum_list_with_app; lia.
  - destruct (n_timer nd) as [st|]; [|done]. destruct (n_tmsgs nd) as [|m ms]; [done|].
    case_decide; [|done]. destruct (timer_iter st _ _ _ _) as [fired o] eqn:Et. simplify_eq.
    apply (timer_message_work _ _ ms) in Et.
    pose proof (broker_work_fired (n_broker nd) (n_cmds nd) fired).
    unfold after_scan. cbn [n_timer n_tmsgs n_broker n_cmds fst snd]. lia.
  - destruct (n_timer nd) as [st|]; [|done]. destruct (deadlines st) as [|[d i] dl] eqn:Hd; [done|].
    case_decide as Ht; [|done]. destruct (timer_iter st _ _ _ _) as [fired o] eqn:Et. simplify_eq.
    apply (timer_timeout_work _ d i dl (n_tmsgs nd)) in Et; [|done|lia].
    pose proof (broker_work_fired (n_broker nd) (n_cmds nd) fired).
    unfold after_scan. cbn [n_timer n_tmsgs n_broker n_cmds fst snd]. lia.
Qed.

Lemma turns_bounded nd evs nd' :
  Forall internal evs -> node_run nd evs = Some nd' -> length evs + work nd' <= work nd.
Proof.
  revert nd. induction evs as [|ev evs IH]; intros nd Hi E; simpl in E; [simplify_eq; simpl; lia|].
  apply Forall_cons in Hi as [Hi His]. destruct (node_step nd ev) as [nd1|] eqn:E1; [|done].
  apply turn_lowers_work in E1; [|done]. apply (IH nd1) in His; [|done]. simpl. lia.
Qed.

(** A run for the witnesses: a peer connects, a message is sent to it, the peer
    is lost before it acknowledges, and five seconds later the timeout puts the
    message back in the buffer. *)
Definition demo_events : list NodeEvent :=
  [Post (ConnectionUp peerA 1 101); Post (Send None [x61]); BrokerTurn; BrokerTurn;
   TimerTurn 10 20; Post (ConnectionDown peerA); BrokerTurn;
   TimerTimeout (10 + RESEND_TIMEOUT); BrokerTurn].

Definition demo_init : Node := node_init (new_broker RoundRobin AtLeastOnce demo_uuid).

Definition demo_node (n : nat) : Node := default demo_init (node_run demo_init (take n demo_events)).

Lemma every_pending_is_timed_witness :
  is_Some (n_timer (demo_node 4)) /\
  length (filter (eq (id_of (take 8 demo_uuid) 0)) (countdowns (demo_node 4))) = 1.
Proof.
  destruct (every_pending_is_timed RoundRobin AtLeastOnce demo_uuid (take 4 demo_events)
    (demo_node 4) (default two_peers (n_broker (demo_node 4)))) as [H1 H2].
  - vm_compute. reflexivity.
  - vm_compute. reflexivity.
  - vm_compute. reflexivity.
  - split; [exact H1|]. apply H2. vm_compute. by eexists.
Defined.

(** ** Progress and rest *)

Lemma not_quiet_turn nd :
  quiet nd = false -> exists ev nd', internal ev /\ node_step nd ev = Some nd'.
Proof.
  unfold quiet. intros [Hq|Hq]%andb_false_iff.
  - destruct (n_broker nd) as [b|] eqn:Hb; [|done]. apply bool_decide_eq_false in Hq.
    exists BrokerTurn. cbn [node_step]. rewrite Hb. destruct (n_cmds nd) as [|c cs]; [done|].
    destruct (handle b c) as [o es]. by eexists.
  - destruct (n_timer nd) as [st|] eqn:Ht; [|done].
    apply andb_false_iff in Hq as [Hq|Hq]; apply bool_decide_eq_false in Hq.
    + exists (TimerTurn (n_clock nd) (n_clock nd)). cbn [node_step]. rewrite Ht.
      destruct (n_tmsgs nd) as [|m ms]; [done|]. rewrite decide_True by lia. by eexists.
    + destruct (deadlines st) as [|[d i] dl] eqn:Hd; [done|].
      exists (TimerTimeout (Z.max (n_clock nd) d)). cbn [node_step]. rewrite Ht, Hd.
      rewrite decide_True by lia. by eexists.
Qed.

Lemma quiet_stuck nd ev : quiet nd = true -> internal ev -> node_step nd ev = None.
Proof.
  unfold quiet. intros [Hb Ht]%andb_true_iff Hi. destruct ev; [done|..]; cbn [node_step].
  - destruct (n_broker nd); [|done]. apply bool_decide_eq_true in Hb. by rewrite Hb.
  - destruct (n_timer nd); [|done]. apply andb_true_iff in Ht as [Ht _].
    apply bool_decide_eq_true in Ht. by rewrite Ht.
  - destruct (n_timer nd); [|done]. apply andb_true_iff in Ht as [_ Ht].
    apply bool_decide_eq_true in Ht. by rewrite Ht.
Qed.

(** C9: The broker and its timer thread cannot chase each other for ever: from
    any state, when nothing more is posted, the number of turns of the two
    threads is bounded by [work], whatever their interleaving and the clock;
    every schedule can be continued until both are at rest, and at rest no turn
    is possible. *)
Theorem node_comes_to_rest nd evs nd' :
  Forall internal evs -> node_run nd evs = Some nd' ->
  length evs <= work nd /\
  (exists evs' nd2, Forall internal evs' /\ node_run nd' evs' = Some nd2 /\ quiet nd2 = true) /\
  (quiet nd' = true <-> forall ev, internal ev -> node_step nd' ev = None).
Proof.
  intros Hi E. split; [pose proof (turns_bounded _ _ _ Hi E); lia|]. split.
  - clear Hi E. remember (work nd') as n eqn:Hn. revert nd' Hn.
    induction (lt_wf n) as [n _ IH]. intros nd' Hn.
    destruct (quiet nd') eqn:Hq; [by exists [], nd'|].
    destruct (not_quiet_turn _ Hq) as (ev & nd1 & Hev & E1).
    destruct (IH (work nd1) ltac:(subst; by eapply turn_lowers_work) nd1 eq_refl)
      as (evs' & nd2 & Hevs & E2 & Hq2).
    exists (ev :: evs'), nd2. split; [by constructor|]. split; [|done]. simpl. by rewrite E1.
  - split; [intros Hq ev; by apply quiet_stuck|]. intros Hstuck.
    destruct (quiet nd') eqn:Hq; [done|].
    destruct (not_quiet_turn _ Hq) as (ev & nd1 & Hev & E1). by rewrite Hstuck in E1.
Qed.

Lemma node_comes_to_rest_witness :
  length [BrokerTurn; BrokerTurn; TimerTurn 10 20] <= work (demo_node 2) /\
  (exists evs' nd2, Forall internal evs' /\ node_run (demo_node 5) evs' = Some nd2 /\
    quiet nd2 = true) /\
  (quiet (demo_node 5) = true <->
    forall ev, internal ev -> node_step (demo_node 5) ev = None).
Proof.
  apply (node_comes_to_rest (demo_node 2) [BrokerTurn; BrokerTurn; TimerTurn 10 20]).
  - repeat constructor.
  - vm_compute. reflexivity.
Defined.

(** ** History *)

Lemma run_snoc b cs b1 es c o es' :
  run b cs = (Some b1, es) -> handle b1 c = (o, es') -> run b (cs ++ [c]) = (o, es ++ es').
Proof.
  revert b es. induction cs as [|c' cs IH]; intros b es E E'; simpl in *.
  - simplify_eq. rewrite E'. destruct o; [by rewrite app_nil_r|done].
  - destruct (handle b c') as [[b2|] es1]; [|done].
    destruct (run b2 cs) as [o2 es2] eqn:E2. simplify_eq.
    rewrite (IH b2 es2 E2 E'). by rewrite app_assoc.
Qed.

(** The broker of a node is the broker of its history. *)
Lemma node_step_history b0 nd ev nd' :
  run b0 (n_done nd) = (n_broker nd, n_out nd) -> node_step nd ev = Some nd' ->
  run b0 (n_done nd') = (n_broker nd', n_out nd').
Proof.
  intros HI E. destruct ev; cbn [node_step] in E; repeat case_match; simplify_eq/=; try congruence.
  eapply run_snoc; [|done]. congruence.
Qed.

Lemma node_run_history b0 nd evs nd' :
  run b0 (n_done nd) = (n_broker nd, n_out nd) -> node_run nd evs = Some nd' ->
  run b0 (n_done nd') = (n_broker nd', n_out nd').
Proof.
  revert nd. induction evs as [|ev evs IH]; intros nd HI E; simpl in E; [by simplify_eq|].
  destruct (node_step nd ev) as [nd1|] eqn:E1; [|done].
  eauto using node_step_history.
Qed.

(** What others posted, as the broker has taken it or will take it. *)
Definition posted_so_far (nd : Node) : list Command :=
  filter (fun c => resend_id c = None) (n_done nd ++ n_cmds nd).

Lemma filter_resends (ids : list MsgId) :
  filter (fun c => resend_id c = None) (ResendTimeout <$> ids) = [].
Proof. apply filter_none. intros c (i & -> & _)%list_elem_of_fmap. done. Qed.

Lemma node_step_posts nd ev nd' :
  node_step nd ev = Some nd' -> is_Some (n_broker nd') ->
  is_Some (n_broker nd) /\ posted_so_far nd' = posted_so_far nd ++ option_list (posted ev).
Proof.
  unfold posted_so_far. intros E Hb.
  destruct ev as [c| |t_arm t|t]; cbn [node_step] in E.
  - case_decide as Hc; [done|]. apply eq_None_not_Some in Hc.
    destruct (n_broker nd) eqn:Hb'; simplify_eq; [|rewrite Hb' in Hb; by destruct Hb].
    split; [done|]. cbn [n_done n_cmds]. rewrite app_assoc, filter_app.
    by rewrite (filter_cons_True _ c) by done.
  - destruct (n_broker nd) eqn:Hb'; [|done]. destruct (n_cmds nd) eqn:Hc; [done|].
    destruct (handle _ _) as [o es]. simplify_eq. split; [done|]. simpl.
    by rewrite <- app_assoc, app_nil_r.
  - destruct (n_timer nd); [|done]. destruct (n_tmsgs nd); [done|]. case_decide; [|done].
    simplify_eq. split; [done|]. simpl. by rewrite app_nil_r, app_assoc, filter_app, filter_resends, app_nil_r.
  - destruct (n_timer nd) as [st|]; [|done]. destruct (deadlines st) as [|[d i] dl]; [done|].
    case_decide; [|done].
    simplify_eq. split; [done|]. simpl. by rewrite app_nil_r, app_assoc, filter_app, filter_resends, app_nil_r.
Qed.

Lemma node_run_posts nd evs nd' :
  node_run nd evs = Some nd' -> is_Some (n_broker nd') ->
  is_Some (n_broker nd) /\ posted_so_far nd' = posted_so_far nd ++ posts evs.
Proof.
  revert nd. induction evs as [|ev evs IH]; intros nd E Hb; simpl in E.
  { simplify_eq. by rewrite app_nil_r. }
  destruct (node_step nd ev) as [nd1|] eqn:E1; [|done].
  destruct (IH nd1 E Hb) as [Hb1 ->]. destruct (node_step_posts _ _ _ E1 Hb1) as [? ->].
  split; [done|]. unfold posts. by rewrite omap_cons_option, app_assoc.
Qed.

Lemma submits_posts cs :
  mjoin (submits <$> cs) = mjoin (submits <$> filter (fun c => resend_id c = None) cs).
Proof.
  induction cs as [|c cs IH]; [done|]. rewrite filter_cons.
  case_decide as Hc; csimpl; rewrite IH; [done|]. by destruct c.
Qed.

(** ** At rest *)

Lemma rest_settled nd b st :
  quiet nd = true -> n_broker nd = Some b -> n_timer nd = Some st -> live_inv nd b st ->
  n_cmds nd = [] /\ pending b = ∅.
Proof.
  unfold quiet. intros Hq Hb Ht HI. rewrite Hb, Ht in Hq.
  apply andb_true_iff in Hq as [Hc [Hm Hd]%andb_true_iff].
  apply bool_decide_eq_true in Hc, Hm, Hd. split; [done|].
  apply map_empty. intros id. apply eq_None_not_Some. intros Hid%(lv_pending _ _ _ HI).
  revert Hid. rewrite (elem_of_countdowns _ st) by done.
  unfold fired_ids, arming_ids. rewrite Hc, Hm, Hd. simpl. rewrite elem_of_nil. tauto.
Qed.

(** What a node at rest has done with everything submitted to it. *)
Lemma rest_conserves uuid evs nd b :
  let b0 := new_broker RoundRobin AtLeastOnce uuid in
  node_run (node_init b0) evs = Some nd -> quiet nd = true -> n_broker nd = Some b ->
  (zlen (arm_ids (n_out nd)) < 2 ^ 64)%Z ->
  links_inv b /\ salt b = take 8 uuid /\ pending b = ∅ /\
  run_settles b0 (n_done nd) ++ buffer b ≡ₚ mjoin (submits <$> posts evs).
Proof.
  intros b0 E Hq Hb Hlt.
  pose proof (node_run_inv _ _ _ (node_init_inv _ _ _) E Hlt) as HI.
  unfold node_inv in HI. rewrite Hb in HI. destruct HI as (st & Ht & HI).
  destruct (rest_settled _ _ _ Hq Hb Ht HI) as [Hc Hp].
  pose proof (node_run_history b0 (node_init b0) evs nd eq_refl E) as Hh. rewrite Hb in Hh.
  destruct (node_run_posts _ _ _ E ltac:(by rewrite Hb)) as [_ Hpo].
  unfold posted_so_far in Hpo. rewrite Hc, app_nil_r in Hpo. simpl in Hpo.
  split_and!; [by eapply run_links_inv, Hh; apply new_links_inv| |done|].
  - apply run_issues in Hh; [apply Hh|]. unfold id_range. simpl. lia.
  - rewrite <- Hpo, <- submits_posts.
    pose proof (run_conserves b0 _ _ _ (new_ids_inv _ _ _) (conj eq_refl eq_refl) Hh Hlt) as Hr.
    unfold outstanding in Hr. rewrite Hp, map_to_list_empty, !app_nil_r in Hr. simpl in Hr.
    done.
Qed.

(** C8: At rest every message has been answered for: when the broker and its
    timer thread of a round-robin at-least-once socket have come to rest
    (short of 2^64 tracked messages), nothing is waiting for an ack, and with
    multiplicity every message ever submitted has been acknowledged, was given
    up with no retry left, or is in the send buffer; with a peer connected the
    buffer is empty too. *)
Theorem all_settled_at_rest uuid evs nd b :
  node_run (node_init (new_broker RoundRobin AtLeastOnce uuid)) evs = Some nd ->
  quiet nd = true -> n_broker nd = Some b -> (zlen (arm_ids (n_out nd)) < 2 ^ 64)%Z ->
  pending b = ∅ /\ (conns b <> ∅ -> buffer b = []) /\
  run_settles (new_broker RoundRobin AtLeastOnce uuid) (n_done nd) ++ buffer b
    ≡ₚ mjoin (submits <$> posts evs).
Proof.
  intros E Hq Hb Hlt. destruct (rest_conserves _ _ _ _ E Hq Hb Hlt) as (HI & _ & Hp & Hr).
  split; [done|]. split; [apply HI|done].
Qed.

(** C10: A lost connection loses no message: when the last peer of such a socket
    is gone and the timers have run, each message submitted has been
    acknowledged, was given up, or is in the send buffer; and when a peer
    connects, the broker's next turn accepts it and sends it every message of
    the buffer addressed to it or to nobody in particular, in the order in
    which they stand there. *)
Theorem survives_reconnect uuid evs nd b id w a :
  node_run (node_init (new_broker RoundRobin AtLeastOnce uuid)) evs = Some nd ->
  quiet nd = true -> n_broker nd = Some b -> (zlen (arm_ids (n_out nd)) < 2 ^ 64)%Z ->
  conns b = ∅ -> 8 <= length uuid ->
  run_settles (new_broker RoundRobin AtLeastOnce uuid) (n_done nd) ++ buffer b
    ≡ₚ mjoin (submits <$> posts evs) /\
  exists nd' es,
    node_run nd [Post (ConnectionUp id w a); BrokerTurn] = Some nd' /\
    n_out nd' = n_out nd ++ Accept a true :: es /\
    omap (payload_to w) es = (filter (for_peer id) (buffer b)).*2.
Proof.
  intros E Hq Hb Hlt Hc Hu. destruct (rest_conserves _ _ _ _ E Hq Hb Hlt) as (HI & Hs & _ & Hr).
  destruct (first_peer_gets_buffer b id w a HI Hc) as (b' & es & Hup & Hpay & _).
  { rewrite Hs, length_take. lia. }
  assert (Hcm : n_cmds nd = []).
  { unfold quiet in Hq. rewrite Hb in Hq. apply andb_true_iff in Hq as [Hq _].
    by apply bool_decide_eq_true in Hq. }
  split; [done|]. eexists _, es. split.
  - cbn [node_run node_step]. rewrite decide_False by (by intros []). rewrite Hb, Hcm. simpl.
    rewrite Hup. reflexivity.
  - by split.
Qed.

Lemma all_settled_at_rest_witness :
  let b := default two_peers (n_broker (demo_node 9)) in
  pending b = ∅ /\ (conns b <> ∅ -> buffer b = []) /\
  run_settles (new_broker RoundRobin AtLeastOnce demo_uuid) (n_done (demo_node 9)) ++ buffer b
    ≡ₚ mjoin (submits <$> posts demo_events).
Proof.
  apply (all_settled_at_rest demo_uuid demo_events (demo_node 9)); vm_compute; reflexivity.
Defined.

Lemma survives_reconnect_witness :
  let b := default two_peers (n_broker (demo_node 9)) in
  run_settles (new_broker RoundRobin AtLeastOnce demo_uuid) (n_done (demo_node 9)) ++ buffer b
    ≡ₚ mjoin (submits <$> posts demo_events) /\
  exists nd' es,
    node_run (demo_node 9) [Post (ConnectionUp peerB 2 102); BrokerTurn] = Some nd' /\
    n_out nd' = n_out (demo_node 9) ++ Accept 102 true :: es /\
    omap (payload_to 2) es = (filter (for_peer peerB) (buffer b)).*2.
Proof.
  apply (survives_reconnect demo_uuid demo_events (demo_node 9)
    (default two_peers (n_broker (demo_node 9)))); try (vm_compute; reflexivity).
  vm_compute. lia.
Defined.

(** ** Closing *)

(** Closing ends the timer thread: once the broker has returned, dropping it
    has asked the timer thread to stop, so, short of 2^64 tracked messages, each
    of the thread's remaining turns lowers the bound on those left, and it
    cannot come to rest alive: the join in [Drop] returns. *)
Theorem close_ends_timer mode del uuid evs nd :
  node_run (node_init (new_broker mode del uuid)) evs = Some nd ->
  n_broker nd = None -> (zlen (arm_ids (n_out nd)) < 2 ^ 64)%Z ->
  (quiet nd = true -> n_timer nd = None) /\
  forall ev nd', internal ev -> node_step nd ev = Some nd' ->
    n_broker nd' = None /\ work nd' < work nd.
Proof.
  intros E Hb Hlt. pose proof (node_run_inv _ _ _ (node_init_inv _ _ _) E Hlt) as HI.
  unfold node_inv in HI. rewrite Hb in HI. split.
  - unfold quiet. rewrite Hb. destruct (n_timer nd) as [st|]; [|done]. simpl.
    intros [Hm _]%andb_true_iff. apply bool_decide_eq_true in Hm. rewrite Hm in HI.
    destruct HI as [HI|HI]; [done|by apply not_elem_of_nil in HI].
  - intros ev nd' Hi E'. split; [|by eapply turn_lowers_work].
    destruct ev; [done|..]; cbn [node_step] in E'; repeat case_match; simplify_eq/=; congruence.
Qed.

Lemma close_ends_timer_witness :
  let nd := default demo_init (node_run (demo_node 4) [Post Close; BrokerTurn]) in
  (quiet nd = true -> n_timer nd = None) /\
  forall ev nd', internal ev -> node_step nd ev = Some nd' ->
    n_broker nd' = None /\ work nd' < work nd.
Proof.
  apply (close_ends_timer RoundRobin AtLeastOnce demo_uuid
    (take 4 demo_events ++ [Post Close; BrokerTurn])); vm_compute; reflexivity.
Defined.
