(* ===== verification/BrokerAsync.v ===== *)
(** * BrokerAsync: the broker of the asynchronous crate

    Models [rust-lib-async/src/broker.rs].  The state is that of the
    synchronous broker with the resend deadlines kept inside it instead of in
    a timer thread.  [Instant::now()] reads a clock given as a sequence of
    instants; [reads] counts the readings taken so far.  [abs] forgets the
    deadlines, and every event is simulated by the
    synchronous handlers, a timer event by one [ResendTimeout] per due
    deadline. *)

From stdpp Require Import sorting.
From S2P Require Import Prelude Protocol Timers Broker.
From S2P Require Import ProtocolAsync.
From Stdlib Require Import Strings.Byte.

(** ** Data *)

Inductive Command :=
| Send (identity : option Identity) (data : bytes)
| ConnectionUp (identity : Identity) (writer : Sender) (accept : Sender)
| ConnectionDown (identity : Identity)
| Received (identity : Identity) (envelope : Envelope)
| Close.

Record Broker := mkBroker {
  send_mode : SendMode;
  delivery : DeliveryGuarantee;
  conns : gmap Identity Sender;
  order : list Identity;
  rr_cursor : Z;
  buffer : list (option Identity * bytes);
  pending : gmap MsgId Pending;
  deadlines : list (Instant * MsgId);
  msg_id_salt : bytes;
  msg_id_counter : Z;
  reads : nat;
}.

Definition with_conns c b :=
  mkBroker (send_mode b) (delivery b) c (order b) (rr_cursor b) (buffer b) (pending b)
    (deadlines b) (msg_id_salt b) (msg_id_counter b) (reads b).
Definition with_order o b :=
  mkBroker (send_mode b) (delivery b) (conns b) o (rr_cursor b) (buffer b) (pending b)
    (deadlines b) (msg_id_salt b) (msg_id_counter b) (reads b).
Definition with_rr_cursor r b :=
  mkBroker (send_mode b) (delivery b) (conns b) (order b) r (buffer b) (pending b)
    (deadlines b) (msg_id_salt b) (msg_id_counter b) (reads b).
Definition with_buffer q b :=
  mkBroker (send_mode b) (delivery b) (conns b) (order b) (rr_cursor b) q (pending b)
    (deadlines b) (msg_id_salt b) (msg_id_counter b) (reads b).
Definition with_pending p b :=
  mkBroker (send_mode b) (delivery b) (conns b) (order b) (rr_cursor b) (buffer b) p
    (deadlines b) (msg_id_salt b) (msg_id_counter b) (reads b).
Definition with_deadlines d b :=
  mkBroker (send_mode b) (delivery b) (conns b) (order b) (rr_cursor b) (buffer b)
    (pending b) d (msg_id_salt b) (msg_id_counter b) (reads b).
Definition with_counter n b :=
  mkBroker (send_mode b) (delivery b) (conns b) (order b) (rr_cursor b) (buffer b)
    (pending b) (deadlines b) (msg_id_salt b) n (reads b).
Definition with_reads n b :=
  mkBroker (send_mode b) (delivery b) (conns b) (order b) (rr_cursor b) (buffer b)
    (pending b) (deadlines b) (msg_id_salt b) (msg_id_counter b) n.

Definition new_broker (mode : SendMode) (del : DeliveryGuarantee) (uuid : bytes) : Broker :=
  mkBroker mode del ∅ [] 0 [] ∅ [] (take 8 uuid) 0 0.

Section Clock.
Context (clock : nat -> Instant).

(** [Instant::now()]. *)
Definition now_of (b : Broker) : Instant * Broker := (clock (reads b), with_reads (S (reads b)) b).

(** ** Operations *)

Definition next_msg_id (b : Broker) : MsgId * Broker :=
  let counter := msg_id_counter b in
  let b := with_counter (wrapping_add 64 (msg_id_counter b) 1) b in
  (msg_id_salt b ++ to_be_bytes 8 counter, b).

Definition next_round_robin (b : Broker) : option Identity * Broker :=
  if decide (order b = []) then (None, b)
  else
    (order b !! Z.to_nat (rr_cursor b mod zlen (order b)),
     with_rr_cursor (wrapping_add 64 (rr_cursor b) 1) b).

Definition send_to_conn (b : Broker) (id : Identity) (frame : bytes) : list Effect :=
  match conns b !! id with
  | Some tx => [Transmit tx frame]
  | None => []
  end.

Definition route (b : Broker) (target : option Identity) (envelope : bytes)
  : Broker * list Effect :=
  match target with
  | Some id => (b, send_to_conn b id envelope)
  | None =>
    match send_mode b with
    | Publish => (b, (fun '(_, tx) => Transmit tx envelope) <$> map_to_list (conns b))
    | RoundRobin =>
      match next_round_robin b with
      | (Some id, b) => (b, send_to_conn b id envelope)
      | (None, b) => (b, [])
      end
    end
  end.

Definition transmit (b : Broker) (identity : option Identity) (payload : bytes)
    (retries : nat) : Broker * list Effect :=
  let at_least_once :=
    bool_decide (delivery b = AtLeastOnce) &&
    (bool_decide (is_Some identity) || bool_decide (send_mode b = RoundRobin)) in
  if at_least_once then
    let '(msg_id, b) := next_msg_id b in
    let envelope := Async.data_req msg_id payload in
    let '(now, b) := now_of b in
    let b := with_deadlines (deadlines b ++ [((now + RESEND_TIMEOUT)%Z, msg_id)]) b in
    let b := with_pending (<[msg_id := mkPending identity payload retries]> (pending b)) b in
    route b identity envelope
  else route b identity (Async.data payload).

Definition handle_send (b : Broker) (identity : option Identity) (payload : bytes)
  : Broker * list Effect :=
  if decide (conns b = ∅) then (with_buffer (buffer b ++ [(identity, payload)]) b, [])
  else transmit b identity payload MAX_RETRIES.

Fixpoint send_each (b : Broker) (msgs : list (option Identity * bytes))
  : Broker * list Effect :=
  match msgs with
  | [] => (b, [])
  | (identity, payload) :: msgs =>
    let '(b, es) := handle_send b identity payload in
    let '(b, es') := send_each b msgs in
    (b, es ++ es')
  end.

Definition handle_up (b : Broker) (identity : Identity) (writer accept : Sender)
  : Broker * list Effect :=
  if decide (is_Some (conns b !! identity)) then (b, [Accept accept false])
  else
    let b := with_conns (<[identity := writer]> (conns b)) b in
    let b := with_order (order b ++ [identity]) b in
    if decide (buffer b = []) then (b, [Accept accept true])
    else
      let buffered := buffer b in
      let '(b, es) := send_each (with_buffer [] b) buffered in
      (b, Accept accept true :: es).

Definition handle_down (b : Broker) (identity : Identity) : Broker * list Effect :=
  let b := with_conns (delete identity (conns b)) b in
  (with_order (remove_first identity (order b)) b, []).

Definition handle_received (b : Broker) (identity : Identity) (envelope : Envelope)
  : Broker * list Effect :=
  match envelope with
  | Data payload => (b, [Deliver identity payload])
  | DataReq msg_id payload =>
    let '(b, es) := route b (Some identity) (Async.ack msg_id) in
    (b, Deliver identity payload :: es)
  | Ack msg_id => (with_pending (delete msg_id (pending b)) b, [])
  | Hello _ _ | Heartbeat => (b, [])
  end.

Definition fire_resend (b : Broker) (msg_id : MsgId) : Broker * list Effect :=
  match pending b !! msg_id with
  | None => (b, [])
  | Some p =>
    let b := with_pending (delete msg_id (pending b)) b in
    match p_retries p with
    | O => (b, [])
    | S retries =>
      if decide (conns b = ∅)
      then (with_buffer (buffer b ++ [(p_identity p, p_data p)]) b, [])
      else transmit b (p_identity p) (p_data p) retries
    end
  end.

(** The [while let] loop of [fire_due_resends]; [None] is fuel exhaustion,
    which [fire_loop_total] excludes. *)
Fixpoint fire_loop (fuel : nat) (now : Instant) (b : Broker) : option (Broker * list Effect) :=
  match fuel with
  | O => None
  | S fuel =>
    match deadlines b with
    | [] => Some (b, [])
    | (deadline, msg_id) :: rest =>
      if decide (now < deadline)%Z then Some (b, [])
      else
        let '(b, es) := fire_resend (with_deadlines rest b) msg_id in
        '(b, es') ← fire_loop fuel now b;
        Some (b, es ++ es')
    end
  end.

Definition fire_due_resends (b : Broker) : option (Broker * list Effect) :=
  let '(now, b) := now_of b in
  fire_loop (S (length (deadlines b))) now b.

(** The branches of the [select!] in [Broker::run]: a command (the channel
    closing counts as [Close]), or the timer. *)
Inductive Event :=
| Cmd (c : Command)
| TimerFires.

Definition step (b : Broker) (ev : Event) : option (option Broker * list Effect) :=
  match ev with
  | Cmd (Send identity data) => let '(b, es) := handle_send b identity data in Some (Some b, es)
  | Cmd (ConnectionUp identity writer accept) =>
    let '(b, es) := handle_up b identity writer accept in Some (Some b, es)
  | Cmd (ConnectionDown identity) => let '(b, es) := handle_down b identity in Some (Some b, es)
  | Cmd (Received identity envelope) =>
    let '(b, es) := handle_received b identity envelope in Some (Some b, es)
  | Cmd Close => Some (None, [])
  | TimerFires =>
    if decide (deadlines b = []) then Some (Some b, [])
    else '(b, es) ← fire_due_resends b; Some (Some b, es)
  end.

Fixpoint run (b : Broker) (evs : list Event) : option (option Broker * list Effect) :=
  match evs with
  | [] => Some (Some b, [])
  | ev :: evs =>
    '(o, es) ← step b ev;
    match o with
    | None => Some (None, es)
    | Some b => '(o, es') ← run b evs; Some (o, es ++ es')
    end
  end.

(** ** Simulation by the synchronous broker *)

(** The synchronous broker a state stands for. *)
Definition abs (b : Broker) : Broker.Broker :=
  Broker.mkBroker (send_mode b) (delivery b) (conns b) (order b) (rr_cursor b) (buffer b)
    (pending b) (msg_id_salt b) (msg_id_counter b).

Definition is_visible (e : Effect) : Prop :=
  match e with TimerSend _ => False | _ => True end.

#[local] Instance is_visible_dec e : Decision (is_visible e).
Proof. destruct e; apply _. Defined.

(** What of the synchronous broker's effects leaves the socket. *)
Definition visible (es : list Effect) : list Effect := filter is_visible es.

(** [simulates b es b' es']: the synchronous effects [es'] show the same to
    the outside, and each id they arm got one reading of the clock and one
    deadline at the back of the queue. *)
Record simulates (b : Broker) (es : list Effect) (b' : Broker) (es' : list Effect) : Prop := {
  sm_visible : visible es' = es;
  sm_deadlines : deadlines b' =
    deadlines b ++ zip ((fun i => (clock i + RESEND_TIMEOUT)%Z) <$>
                          seq (reads b) (length (arm_ids es'))) (arm_ids es');
  sm_reads : reads b' = reads b + length (arm_ids es');
}.

Lemma visible_app es es' : visible (es ++ es') = visible es ++ visible es'.
Proof. apply filter_app. Qed.

Lemma simulates_quiet b es b' es' :
  visible es' = es -> arm_ids es' = [] -> deadlines b' = deadlines b -> reads b' = reads b ->
  simulates b es b' es'.
Proof.
  intros Hv Ha Hd Hr. split; rewrite ?Ha; simpl; rewrite ?app_nil_r, ?Nat.add_0_r; done.
Qed.

Lemma simulates_refl b es : visible es = es -> arm_ids es = [] -> simulates b es b es.
Proof. intros. by apply simulates_quiet. Qed.

Lemma simulates_trans b es1 b1 es1' es2 b2 es2' :
  simulates b es1 b1 es1' -> simulates b1 es2 b2 es2' ->
  simulates b (es1 ++ es2) b2 (es1' ++ es2').
Proof.
  intros [Hv1 Hd1 Hr1] [Hv2 Hd2 Hr2]. split.
  - rewrite visible_app. congruence.
  - rewrite Hd2, Hd1, Hr1, arm_ids_app, length_app, seq_app, fmap_app, zip_with_app
      by (by rewrite length_fmap, length_seq). by rewrite app_assoc.
  - rewrite Hr2, Hr1, arm_ids_app, length_app. lia.
Qed.

Lemma visible_send_to_conn b id f :
  visible (send_to_conn b id f) = send_to_conn b id f.
Proof. unfold send_to_conn. by destruct (conns b !! id). Qed.

Lemma visible_publish (f : bytes) (m : gmap Identity Sender) :
  visible ((fun '(_, tx) => Transmit tx f) <$> map_to_list m)
    = (fun '(_, tx) => Transmit tx f) <$> map_to_list m.
Proof.
  apply filter_all. intros e (x & -> & _)%list_elem_of_fmap. by destruct x.
Qed.

Lemma route_sim b t f b' es :
  route b t f = (b', es) ->
  Broker.route (abs b) t f = (abs b', es) /\ deadlines b' = deadlines b /\ reads b' = reads b /\
  visible es = es.
Proof.
  unfold route, Broker.route, next_round_robin, Broker.next_round_robin.
  destruct t as [id|]; cbn [abs Broker.send_mode Broker.order Broker.rr_cursor].
  { intros; simplify_eq. split; [done|]. by rewrite visible_send_to_conn. }
  destruct (send_mode b).
  - destruct (decide (order b = [])); [by intros; simplify_eq|].
    destruct (order b !! _) as [id|]; intros; simplify_eq; [|done].
    split; [done|]. by rewrite visible_send_to_conn.
  - intros; simplify_eq. split; [done|]. by rewrite visible_publish.
Qed.

Lemma transmit_sim b i p n b' es :
  transmit b i p n = (b', es) ->
  exists es', Broker.transmit (abs b) i p n = (abs b', es') /\ simulates b es b' es'.
Proof.
  unfold transmit, Broker.transmit, tracks. cbn [abs Broker.delivery Broker.send_mode].
  destruct (bool_decide _ && _) eqn:Ht; intros E.
  - apply route_sim in E as (E & Hd & Hr & Hv).
    apply Broker.route_frame in E as Ha. destruct Ha as [Ha _].
    set (id := id_of (msg_id_salt b) (msg_id_counter b)).
    exists (TimerSend (Arm id) :: es).
    split; [exact (f_equal (fun '(b2, es2) => (b2, TimerSend (Arm id) :: es2)) E)|].
    assert (Hid : arm_ids (TimerSend (Arm id) :: es) = [id]) by (cbn; by f_equal).
    split; rewrite ?Hid; [exact Hv|by rewrite Hd|rewrite Hr; cbn; lia].
  - apply route_sim in E as (E & Hd & Hr & Hv). exists es.
    apply Broker.route_frame in E as Ha. destruct Ha as [Ha _].
    split; [done|]. by apply simulates_quiet.
Qed.

Lemma handle_send_sim b i p b' es :
  handle_send b i p = (b', es) ->
  exists es', Broker.handle_send (abs b) i p = (abs b', es') /\ simulates b es b' es'.
Proof.
  unfold handle_send, Broker.handle_send. cbn [abs Broker.conns].
  destruct (decide (conns b = ∅)); intros E.
  - simplify_eq. eexists. split; [done|]. by apply simulates_quiet.
  - by apply transmit_sim.
Qed.

Lemma send_each_sim b ms b' es :
  send_each b ms = (b', es) ->
  exists es', Broker.send_each (abs b) ms = (abs b', es') /\ simulates b es b' es'.
Proof.
  revert b es. induction ms as [|[i p] ms IH]; intros b es E; simpl in E.
  - simplify_eq. exists []. split; [done|]. by apply simulates_refl.
  - destruct (handle_send b i p) as [b1 es1] eqn:E1.
    destruct (send_each b1 ms) as [b2 es2] eqn:E2. simplify_eq.
    apply handle_send_sim in E1 as (es1' & E1 & H1). apply IH in E2 as (es2' & E2 & H2).
    exists (es1' ++ es2'). cbn. rewrite E1, E2. split; [done|]. by eapply simulates_trans.
Qed.

Lemma handle_up_sim b id w a b' es :
  handle_up b id w a = (b', es) ->
  exists es', Broker.handle_up (abs b) id w a = (abs b', es') /\ simulates b es b' es'.
Proof.
  unfold handle_up, Broker.handle_up. cbn [abs Broker.conns].
  destruct (decide (is_Some (conns b !! id))); intros E.
  { simplify_eq. eexists. split; [done|]. by apply simulates_refl. }
  destruct (decide (buffer b = [])) as [Hb|Hb].
  { rewrite decide_True in E by exact Hb. rewrite decide_True by exact Hb.
    simplify_eq. eexists. split; [reflexivity|].
    by apply simulates_quiet. }
  rewrite decide_False in E by exact Hb. rewrite decide_False by exact Hb.
  destruct (send_each _ _) as [b1 es1] eqn:E1. simplify_eq.
  apply send_each_sim in E1 as (es1' & E1 & [Hv Hd Hr]).
  exists (Accept a true :: es1').
  split; [exact (f_equal (fun '(b2, es2) => (b2, Accept a true :: es2)) E1)|].
  split; cbn; [by f_equal|exact Hd|exact Hr].
Qed.

Lemma handle_received_sim b id e b' es :
  handle_received b id e = (b', es) ->
  exists es', Broker.handle_received (abs b) id e = (abs b', es') /\ simulates b es b' es'.
Proof.
  unfold handle_received, Broker.handle_received. destruct e as [| | |m p|m]; intros E;
    try (simplify_eq; eexists; split; [done|]; by apply simulates_refl).
  - simplify_eq/=. eexists. split; [done|]. apply simulates_refl.
    + cbn. f_equal. apply visible_send_to_conn.
    + cbn. apply (arm_ids_send_to_conn (abs b')).
  - simplify_eq. cbn [abs Broker.pending]. destruct (pending b !! m) eqn:Hm.
    + exists [TimerSend (Cancel m)]. split; [done|]. by apply simulates_quiet.
    + exists []. split; [|by apply simulates_quiet].
      rewrite delete_id by done. by destruct b.
Qed.

Lemma fire_resend_sim b m b' es :
  fire_resend b m = (b', es) ->
  exists es', Broker.handle_resend (abs b) m = (abs b', es') /\ simulates b es b' es'.
Proof.
  unfold fire_resend, Broker.handle_resend. cbn [abs Broker.pending].
  destruct (pending b !! m) as [p|]; intros E.
  2: { simplify_eq. eexists. split; [done|]. by apply simulates_refl. }
  destruct (p_retries p) as [|r].
  { simplify_eq. eexists. split; [done|]. by apply simulates_quiet. }
  destruct (decide (conns b = ∅)) as [Hc|Hc].
  - rewrite decide_True in E by exact Hc. rewrite decide_True by exact Hc.
    simplify_eq. eexists. split; [reflexivity|]. by apply simulates_quiet.
  - rewrite decide_False in E by exact Hc. rewrite decide_False by exact Hc.
    apply transmit_sim in E as (es' & E & [Hv Hd Hr]). exists es'. split; [exact E|]. by split.
Qed.

(** ** The deadline queue *)

(** [Instant] is monotonic. *)
Definition monotone : Prop := forall i j, i <= j -> (clock i <= clock j)%Z.

(** The queue is in deadline order, no entry lies further ahead than a resend
    timeout, and every message in flight has an entry. *)
Record queue_inv (b : Broker) : Prop := {
  qi_sorted : StronglySorted Z.le (deadlines b).*1;
  qi_bound d : d ∈ (deadlines b).*1 -> (d <= clock (reads b) + RESEND_TIMEOUT)%Z;
  qi_covered id : is_Some (pending b !! id) -> id ∈ (deadlines b).*2;
  qi_range : (0 <= msg_id_counter b < 2 ^ 64)%Z;
}.

Definition armed_at (n : nat) (ids : list MsgId) : list (Instant * MsgId) :=
  zip ((fun i => (clock i + RESEND_TIMEOUT)%Z) <$> seq n (length ids)) ids.

Lemma armed_at_snd n ids : (armed_at n ids).*2 = ids.
Proof. apply snd_zip. by rewrite length_fmap, length_seq. Qed.

Lemma armed_at_fst n ids :
  (armed_at n ids).*1 = (fun i => (clock i + RESEND_TIMEOUT)%Z) <$> seq n (length ids).
Proof. apply fst_zip. by rewrite length_fmap, length_seq. Qed.

Lemma elem_of_armed_at n ids d :
  d ∈ (armed_at n ids).*1 -> exists i, n <= i < n + length ids /\ d = (clock i + RESEND_TIMEOUT)%Z.
Proof.
  rewrite armed_at_fst. intros (i & -> & Hi%elem_of_seq)%list_elem_of_fmap. eauto.
Qed.

Lemma armed_at_sorted n ids : monotone -> StronglySorted Z.le (armed_at n ids).*1.
Proof.
  intros Hm. rewrite armed_at_fst. generalize (length ids) as k. intros k.
  revert n. induction k as [|k IH]; intros n; cbn; constructor; [done|].
  apply Forall_forall. intros d (i & -> & Hi%elem_of_seq)%list_elem_of_fmap.
  pose proof (Hm n i ltac:(lia)). lia.
Qed.

(** A step that only appends fresh deadlines keeps the queue in order. *)
Lemma append_queue_inv b b' es' :
  monotone -> queue_inv b -> deadlines b' = deadlines b ++ armed_at (reads b) (arm_ids es') ->
  reads b' = reads b + length (arm_ids es') -> (0 <= msg_id_counter b' < 2 ^ 64)%Z ->
  (forall id, is_Some (pending b' !! id) -> id ∈ (deadlines b).*2 \/ id ∈ arm_ids es') ->
  queue_inv b'.
Proof.
  intros Hm [Hs Hb Hc _] Hd Hr Hi Hp. pose proof (Hm (reads b) (reads b') ltac:(lia)) as Hle.
  split; rewrite ?Hd, ?fmap_app.
  - apply StronglySorted_app_2; [|done|by apply armed_at_sorted].
    intros d1 d2 H1%Hb (i & Hi' & ->)%elem_of_armed_at.
    pose proof (Hm (reads b) i ltac:(lia)). lia.
  - intros d [H1%Hb|(i & Hi' & ->)%elem_of_armed_at]%elem_of_app; [lia|].
    pose proof (Hm i (reads b') ltac:(lia)). lia.
  - intros id Hid. rewrite elem_of_app, armed_at_snd. auto.
  - done.
Qed.

Lemma simulates_queue_inv b es b' es' :
  monotone -> queue_inv b -> simulates b es b' es' -> Broker.issues (abs b) es' (abs b') ->
  queue_inv b'.
Proof.
  intros Hm HI [_ Hd Hr] His. apply (append_queue_inv b b' es'); try done.
  - exact (issues_range _ _ _ His).
  - intros id [H|H]%(is_pending _ _ _ His); [left; by apply (qi_covered _ HI)|by right].
Qed.

(** ** A timer event *)

(** A deadline that has passed at [now]. *)
Definition due (now : Instant) (d : Instant * MsgId) : Prop := (d.1 <= now)%Z.

#[local] Instance due_dec now d : Decision (due now d).
Proof. unfold due. apply _. Defined.

(** The ids whose resend deadline has passed at [now], oldest first. *)
Definition due_ids (now : Instant) (b : Broker) : list MsgId :=
  (filter (due now) (deadlines b)).*2.

Lemma handle_resend_pending b m b' es id :
  Broker.handle_resend b m = (b', es) -> is_Some (Broker.pending b' !! id) ->
  id ∈ arm_ids es \/ (id <> m /\ is_Some (Broker.pending b !! id)).
Proof.
  unfold Broker.handle_resend. destruct (Broker.pending b !! m) as [p|] eqn:Hm.
  - set (b1 := Broker.with_pending _ b).
    assert (H1 : is_Some (Broker.pending b1 !! id) ->
                 id <> m /\ is_Some (Broker.pending b !! id)).
    { simpl. rewrite lookup_delete_is_Some. intros [? ?]. split; [congruence|done]. }
    destruct (p_retries p); [intros E; simplify_eq; by auto|].
    case_decide; [intros E; simplify_eq; by auto|].
    intros (_ & _ & E)%transmit_frame. destruct (tracks b1 _).
    + destruct E as (-> & _ & ->). rewrite lookup_insert_is_Some. set_solver.
    + destruct E as (-> & _ & _). auto.
  - intros E Hid. simplify_eq. right. split; [|done]. intros ->.
    rewrite Hm in Hid. by destruct Hid.
Qed.

Lemma fire_resend_queue_inv b d m rest b' es es' :
  monotone -> queue_inv b -> deadlines b = (d, m) :: rest ->
  Broker.handle_resend (abs b) m = (abs b', es') ->
  simulates (with_deadlines rest b) es b' es' -> queue_inv b'.
Proof.
  intros Hm [Hs Hb Hc Hr] E Hh [_ Hd Hrd]. rewrite E in Hs, Hb, Hc. cbn in Hs, Hb, Hc.
  apply StronglySorted_cons in Hs as [_ Hs].
  pose proof (handle_resend_issues (abs b) m _ _ Hr Hh) as His.
  set (b0 := with_pending (filter (fun p => p.1 ∈ rest.*2) (pending b)) (with_deadlines rest b)).
  apply (append_queue_inv b0 b' es'); try done.
  - split; cbn; [done|set_solver| |done].
    intros id (p & [_ Hp]%map_lookup_filter_Some). done.
  - exact (issues_range _ _ _ His).
  - cbn. intros id Hid. destruct (handle_resend_pending _ _ _ _ id Hh Hid) as [|[Hne H]]; [auto|].
    apply Hc in H. set_solver.
Qed.
Lemma filter_due_none now (l : list (Instant * MsgId)) :
  (forall d, d ∈ l.*1 -> (now < d)%Z) -> filter (due now) l = [].
Proof.
  intros H. apply filter_none. intros [d m] Hd Hdue.
  pose proof (H d ltac:(apply list_elem_of_fmap; by exists (d, m))). unfold due in Hdue.
  simpl in Hdue. lia.
Qed.

Lemma run_cons b c cs b1 es1 o es2 :
  Broker.handle b c = (Some b1, es1) -> Broker.run b1 cs = (o, es2) ->
  Broker.run b (c :: cs) = (o, es1 ++ es2).
Proof. intros E1 E2. cbn. by rewrite E1, E2. Qed.

(** The loop handles the due deadlines, in order, and stops: what it arms on
    the way is due later than [now]. *)
Lemma fire_loop_sim fuel now b old new :
  monotone -> queue_inv b -> deadlines b = old ++ new ->
  (forall d, d ∈ new.*1 -> (now < d)%Z) -> (now <= clock (reads b))%Z -> length old < fuel ->
  exists b' es es', fire_loop fuel now b = Some (b', es) /\
    Broker.run (abs b) (ResendTimeout <$> due_ids now b) = (Some (abs b'), es') /\
    visible es' = es /\ queue_inv b' /\ (forall d, d ∈ (deadlines b').*1 -> (now < d)%Z).
Proof.
  intros Hm. revert b old new. induction fuel as [|fuel IH]; intros b old new HI E Hnew Hnow Hf; [lia|].
  cbn [fire_loop]. unfold due_ids. destruct (deadlines b) as [|[d m] rest] eqn:Ed.
  { exists b, [], []. cbn. rewrite Ed. split_and!; try done. by intros ? ?%elem_of_nil. }
  pose proof (qi_sorted _ HI) as Hs. rewrite Ed in Hs. cbn in Hs.
  apply StronglySorted_cons in Hs as [Hall Hs]. rewrite Forall_forall in Hall.
  destruct (decide (now < d)%Z) as [Hlt|Hdue].
  { assert (Hlate : forall d', d' ∈ ((d, m) :: rest).*1 -> (now < d')%Z).
    { cbn. intros d' [->|H%Hall]%elem_of_cons; lia. }
    rewrite filter_due_none by done. exists b, [], []. rewrite Ed. done. }
  destruct old as [|o old]; cbn in E.
  { destruct Hdue. apply Hnew. rewrite <- E. cbn. set_solver. }
  injection E as <- ->.
  destruct (fire_resend _ m) as [b1 es1] eqn:E1.
  apply fire_resend_sim in E1 as (es1' & E1 & Hsim).
  pose proof (fire_resend_queue_inv _ _ _ _ _ _ _ Hm HI Ed E1 Hsim) as HI1.
  assert (E1' : Broker.handle_resend (abs b) m = (abs b1, es1')) by exact E1.
  destruct Hsim as [Hv Hd Hr]. cbn in Hd, Hr. rewrite <- app_assoc in Hd.
  set (fresh := zip _ _) in Hd. change fresh with (armed_at (reads b) (arm_ids es1')) in Hd.
  assert (Hfresh : forall d', d' ∈ (new ++ armed_at (reads b) (arm_ids es1')).*1 -> (now < d')%Z).
  { intros d'. rewrite fmap_app. intros [H|(i & Hi & ->)%elem_of_armed_at]%elem_of_app; [auto|].
    pose proof (Hm (reads b) i ltac:(lia)). unfold RESEND_TIMEOUT. lia. }
  destruct (IH b1 old _ HI1 Hd Hfresh) as (b2 & es2 & es2' & E2 & Hrun & Hv2 & HI2 & Hlate).
  { pose proof (Hm (reads b) (reads b1) ltac:(lia)). lia. }
  { simpl in Hf. lia. }
  exists b2, (es1 ++ es2), (es1' ++ es2'). rewrite E2. split_and!; try done.
  - rewrite filter_cons_True by (unfold due; simpl; lia). cbn [fmap list_fmap].
    eapply run_cons; [cbn [Broker.handle snd]; by rewrite E1'|].
    unfold due_ids in Hrun. rewrite Hd in Hrun. rewrite <- Hrun. do 3 f_equal.
    rewrite app_assoc, !filter_app, (filter_due_none _ (armed_at _ _)), app_nil_r; [done|].
    intros d' H. apply Hfresh. rewrite fmap_app. set_solver.
  - rewrite visible_app. congruence.
Qed.
Lemma fire_due_resends_sim b :
  monotone -> queue_inv b ->
  exists b' es es', fire_due_resends b = Some (b', es) /\
    Broker.run (abs b) (ResendTimeout <$> due_ids (clock (reads b)) b) = (Some (abs b'), es') /\
    visible es' = es /\ queue_inv b' /\
    (forall d, d ∈ (deadlines b').*1 -> (clock (reads b) < d)%Z).
Proof.
  intros Hm [Hs Hb Hc Hr]. pose proof (Hm (reads b) (S (reads b)) ltac:(lia)) as Hle.
  unfold fire_due_resends, now_of.
  destruct (fire_loop_sim (S (length (deadlines b))) (clock (reads b))
              (with_reads (S (reads b)) b) (deadlines b) [])
    as (b' & es & es' & H); cbn; try done.
  - split; cbn; [done| |done|done]. intros d Hd%Hb. lia.
  - by rewrite app_nil_r.
  - by intros ? ?%elem_of_nil.
  - lia.
  - by exists b', es, es'.
Qed.

(** The synchronous broker's command for a command. *)
Definition sync_of (c : Command) : Broker.Command :=
  match c with
  | Send identity data => Broker.Send identity data
  | ConnectionUp identity writer accept => Broker.ConnectionUp identity writer accept
  | ConnectionDown identity => Broker.ConnectionDown identity
  | Received identity envelope => Broker.Received identity envelope
  | Close => Broker.Close
  end.

(** The synchronous broker's commands for an event: a timer event is one
    [ResendTimeout] for each deadline that has passed. *)
Definition sync_commands (b : Broker) (ev : Event) : list Broker.Command :=
  match ev with
  | Cmd c => [sync_of c]
  | TimerFires => ResendTimeout <$> due_ids (clock (reads b)) b
  end.

Fixpoint run_commands (b : Broker) (evs : list Event) : list Broker.Command :=
  match evs with
  | [] => []
  | ev :: evs =>
    sync_commands b ev ++
    match step b ev with
    | Some (Some b, _) => run_commands b evs
    | _ => []
    end
  end.

Lemma handler_sim b c b' es es' :
  monotone -> queue_inv b -> Broker.handle (abs b) c = (Some (abs b'), es') ->
  simulates b es b' es' ->
  Broker.run (abs b) [c] = (Some (abs b'), es') /\ visible es' = es /\ queue_inv b'.
Proof.
  intros Hm HI E Hsim. split_and!.
  - cbn. by rewrite E, app_nil_r.
  - apply Hsim.
  - eapply simulates_queue_inv; [done..|]. by apply (handle_issues _ c), E; apply HI.
Qed.

Lemma step_sim b ev :
  monotone -> queue_inv b ->
  exists o es es', step b ev = Some (o, es) /\
    Broker.run (abs b) (sync_commands b ev) = (abs <$> o, es') /\ visible es' = es /\
    (forall b', o = Some b' -> queue_inv b').
Proof.
  intros Hm HI.
  assert (Hgen : forall c b' es es', Broker.handle (abs b) c = (Some (abs b'), es') ->
    simulates b es b' es' -> exists o es1 es1', Some (Some b', es) = Some (o, es1) /\
      Broker.run (abs b) [c] = (abs <$> o, es1') /\ visible es1' = es1 /\
      (forall b', o = Some b' -> queue_inv b')).
  { intros c b' es es' Hh Hsim. destruct (handler_sim _ _ _ _ _ Hm HI Hh Hsim) as (H1 & H2 & H3).
    exists (Some b'), es, es'. split_and!; [done..|]. intros. by simplify_eq. }
  destruct ev as [[i p|id w a|id|id e|]|]; cbn [step sync_commands sync_of].
  - destruct (handle_send b i p) as [b1 es1] eqn:E1.
    apply handle_send_sim in E1 as (es1' & E1 & H1).
    apply (Hgen _ _ _ es1'); [by cbn; rewrite E1|done].
  - destruct (handle_up b id w a) as [b1 es1] eqn:E1.
    apply handle_up_sim in E1 as (es1' & E1 & H1).
    apply (Hgen _ _ _ es1'); [by cbn; rewrite E1|done].
  - apply (Hgen _ _ _ []); [done|]. by apply simulates_quiet.
  - destruct (handle_received b id e) as [b1 es1] eqn:E1.
    apply handle_received_sim in E1 as (es1' & E1 & H1).
    apply (Hgen _ _ _ es1'); [by cbn; rewrite E1|done].
  - exists None, [], [TimerSend Shutdown]. done.
  - destruct (decide (deadlines b = [])) as [Hd|Hd].
    + exists (Some b), [], []. unfold due_ids. rewrite Hd. split_and!; try done.
      intros; by simplify_eq.
    + destruct (fire_due_resends_sim b Hm HI) as (b' & es & es' & -> & Hrun & Hv & HI' & _).
      exists (Some b'), es, es'. split_and!; [done..|]. intros; by simplify_eq.
Qed.

Lemma new_queue_inv mode del uuid : queue_inv (new_broker mode del uuid).
Proof.
  split; cbn; [constructor|by intros ? ?%elem_of_nil| |lia].
  intros id. rewrite lookup_empty. by intros [].
Qed.

Lemma sync_run_app b cs b1 es1 cs' :
  Broker.run b cs = (Some b1, es1) ->
  Broker.run b (cs ++ cs') = (let '(o, es2) := Broker.run b1 cs' in (o, es1 ++ es2)).
Proof.
  revert b es1. induction cs as [|c cs IH]; intros b es1 E; cbn in *.
  - simplify_eq. by destruct (Broker.run b1 cs').
  - destruct (Broker.handle b c) as [[b2|] es2]; [|done].
    destruct (Broker.run b2 cs) as [o es3] eqn:E3. simplify_eq.
    rewrite (IH b2 es3) by done. destruct (Broker.run b1 cs') as [o es4]. by rewrite app_assoc.
Qed.

Lemma run_sim b evs :
  monotone -> queue_inv b ->
  exists o es es', run b evs = Some (o, es) /\
    Broker.run (abs b) (run_commands b evs) = (abs <$> o, es') /\ visible es' = es /\
    (forall b', o = Some b' -> queue_inv b').
Proof.
  intros Hm. revert b. induction evs as [|ev evs IH]; intros b HI; cbn [run run_commands].
  { exists (Some b), [], []. split_and!; try done. intros; by simplify_eq. }
  destruct (step_sim b ev Hm HI) as ([b1|] & es1 & es1' & -> & Hrun & Hv & HI1); cbn in *.
  2: { exists None, es1, es1'. rewrite app_nil_r. done. }
  destruct (IH b1 (HI1 _ eq_refl)) as (o & es2 & es2' & -> & Hrun2 & Hv2 & HI2).
  exists o, (es1 ++ es2), (es1' ++ es2'). split_and!; try done.
  - erewrite sync_run_app by exact Hrun. by rewrite Hrun2.
  - rewrite visible_app. congruence.
Qed.
End Clock.

(** C11: The asynchronous broker refines the synchronous one.  Whatever
    commands and timer events it is given, its run terminates, and a run of
    the synchronous broker on the same commands, with one [ResendTimeout] per
    deadline that has passed in place of each timer event, sends the same
    frames, payloads and registration answers in the same order and ends in
    the same state. *)
Theorem async_refines_sync clock mode del uuid evs :
  monotone clock ->
  exists o es es', run clock (new_broker mode del uuid) evs = Some (o, es) /\
    Broker.run (Broker.new_broker mode del uuid)
      (run_commands clock (new_broker mode del uuid) evs) = (abs <$> o, es') /\
    visible es' = es.
Proof.
  intros Hm. destruct (run_sim clock _ evs Hm (new_queue_inv clock mode del uuid))
    as (o & es & es' & H1 & H2 & H3 & _). by exists o, es, es'.
Qed.

(** A clock that moves on by six seconds a reading. *)
Definition ticking (n : nat) : Instant := (Z.of_nat n * 6000000000)%Z.

Lemma ticking_monotone : monotone ticking.
Proof. intros i j H. unfold ticking. lia. Qed.

Definition sample_events : list Event :=
  [ Cmd (ConnectionUp (replicate 16 x01) 7 8); Cmd (Send None [x61]); Cmd (Send None [x62]);
    TimerFires; Cmd (Received (replicate 16 x01) Heartbeat); Cmd Close ].

Lemma async_refines_sync_witness :
  omap (fun c => match c with ResendTimeout m => Some m | _ => None end)
    (run_commands ticking (new_broker RoundRobin AtLeastOnce (replicate 16 x00)) sample_events)
    = [replicate 16 x00; replicate 15 x00 ++ [x01]] /\
  exists o es es',
    run ticking (new_broker RoundRobin AtLeastOnce (replicate 16 x00)) sample_events
      = Some (o, es) /\
    Broker.run (Broker.new_broker RoundRobin AtLeastOnce (replicate 16 x00))
      (run_commands ticking (new_broker RoundRobin AtLeastOnce (replicate 16 x00)) sample_events)
      = (abs <$> o, es') /\
    visible es' = es.
Proof.
  split; [by vm_compute|].
  exact (async_refines_sync ticking RoundRobin AtLeastOnce (replicate 16 x00) sample_events
    ticking_monotone).
Defined.

(** After a timer event no deadline that had passed is left in the queue,
    and at any time every message in flight has an entry there, at most a
    resend timeout ahead of the clock: an unacknowledged message is always
    looked at again.  So [fire_due_resends] ends even when the messages it
    resends arm new deadlines. *)
Theorem timer_clears_due clock mode del uuid evs b es :
  monotone clock -> run clock (new_broker mode del uuid) evs = Some (Some b, es) ->
  (forall id, is_Some (pending b !! id) ->
     exists d, (d, id) ∈ deadlines b /\ (d <= clock (reads b) + RESEND_TIMEOUT)%Z) /\
  exists b' es', fire_due_resends clock b = Some (b', es') /\
    (forall d, d ∈ deadlines b' -> (clock (reads b) < d.1)%Z).
Proof.
  intros Hm E. destruct (run_sim clock _ evs Hm (new_queue_inv clock mode del uuid))
    as (o & es1 & es1' & E1 & _ & _ & HI). rewrite E in E1. simplify_eq.
  specialize (HI b eq_refl). split.
  - intros id Hid. apply (qi_covered _ _ HI) in Hid.
    apply list_elem_of_fmap in Hid as ([d m] & -> & Hin). exists d. split; [done|].
    apply (qi_bound _ _ HI). apply list_elem_of_fmap. by exists (d, m).
  - destruct (fire_due_resends_sim clock b Hm HI) as (b' & es' & _ & H1 & _ & _ & _ & Hlate).
    exists b', es'. split; [done|]. intros d Hd. apply Hlate.
    apply list_elem_of_fmap. by exists d.
Qed.

Lemma timer_clears_due_witness :
  exists b es,
    run ticking (new_broker RoundRobin AtLeastOnce (replicate 16 x00)) (take 3 sample_events)
      = Some (Some b, es) /\
    (forall id, is_Some (pending b !! id) ->
       exists d, (d, id) ∈ deadlines b /\ (d <= ticking (reads b) + RESEND_TIMEOUT)%Z) /\
    exists b' es', fire_due_resends ticking b = Some (b', es') /\
      (forall d, d ∈ deadlines b' -> (ticking (reads b) < d.1)%Z).
Proof.
  eexists _, _. split; [vm_compute; reflexivity|].
  eapply (timer_clears_due ticking RoundRobin AtLeastOnce (replicate 16 x00)
    (take 3 sample_events)); [exact ticking_monotone|].
  vm_compute. reflexivity.
Defined.
