(* ===== verification/Base64.v ===== *)
(** * Base64: the hand-rolled encoder and decoder of [ws.rs]

    Models [base64_encode] and [base64_decode] of [rust-lib-sync/src/ws.rs];
    the asynchronous crate has the same two functions.  A [String] that holds
    ASCII only is the list of its bytes. *)

From S2P Require Import Prelude.
From Stdlib Require Import Strings.Byte.
Local Open Scope Z_scope.

(** ** Operations *)

Definition B64 : bytes :=
  str_bytes "ABCDEFGHIJKLMNOPQRSTUVWXYZabcdefghijklmnopqrstuvwxyz0123456789+/".

(** [B64[i as usize]]. *)
Definition b64_char (i : Z) : byte := nth (Z.to_nat i) B64 x00.

(** The body of the loop of [base64_encode], on one chunk of at most three
    bytes. *)
Definition encode_chunk (chunk : bytes) : bytes :=
  let b i := Z_of_byte (nth i chunk x00) in
  let n := Z.lor (Z.lor (as_u32 (Z.shiftl (b 0%nat) 16)) (as_u32 (Z.shiftl (b 1%nat) 8))) (b 2%nat) in
  [ b64_char (Z.land (Z.shiftr n 18) 63);
    b64_char (Z.land (Z.shiftr n 12) 63);
    if decide (1 < length chunk)%nat then b64_char (Z.land (Z.shiftr n 6) 63) else x3d;
    if decide (2 < length chunk)%nat then b64_char (Z.land n 63) else x3d ].

(** [for chunk in data.chunks(3)]. *)
Fixpoint base64_encode (data : bytes) : bytes :=
  match data with
  | [] => []
  | a :: b :: c :: rest => encode_chunk [a; b; c] ++ base64_encode rest
  | chunk => encode_chunk chunk
  end.

Definition in_range (c lo hi : byte) : bool :=
  bool_decide (Z_of_byte lo <= Z_of_byte c <= Z_of_byte hi).

(** The inner function [val]; [c - b'A'] and the like stay in a [u8]. *)
Definition val (c : byte) : option Z :=
  if in_range c x41 x5a then Some (Z_of_byte c - Z_of_byte x41)
  else if in_range c x61 x7a then Some (Z_of_byte c - Z_of_byte x61 + 26)
  else if in_range c x30 x39 then Some (Z_of_byte c - Z_of_byte x30 + 52)
  else if decide (c = x2b) then Some 62
  else if decide (c = x2f) then Some 63
  else None.

(** [s.trim_end_matches(c)] for an ASCII [c]. *)
Fixpoint trim_end_matches (c : byte) (s : bytes) : bytes :=
  match s with
  | [] => []
  | x :: s =>
    match trim_end_matches c s with
    | [] => if decide (x = c) then [] else [x]
    | s => x :: s
    end
  end.

(** The loop of [base64_decode]; the accumulator is a [u32] whose high bits
    fall off. *)
Fixpoint decode_loop (s : bytes) (acc bits : Z) : option bytes :=
  match s with
  | [] => Some []
  | c :: s =>
    v ← val c;
    let acc := Z.lor (as_u32 (Z.shiftl acc 6)) v in
    let bits := bits + 6 in
    if decide (8 <= bits) then
      let bits := bits - 8 in
      out ← decode_loop s acc bits;
      Some (byte_of_Z (Z.shiftr acc bits) :: out)
    else decode_loop s acc bits
  end.

Definition base64_decode (s : bytes) : option bytes :=
  decode_loop (trim_end_matches x3d s) 0 0.

(** ** Lemmas *)

Lemma val_b64_char i : 0 <= i < 64 -> val (b64_char i) = Some i /\ b64_char i <> x3d.
Proof.
  intros Hi.
  assert (H : forallb (fun k => bool_decide (val (b64_char (Z.of_nat k)) = Some (Z.of_nat k)) &&
    bool_decide (b64_char (Z.of_nat k) <> x3d)) (seq 0 64) = true) by (vm_compute; reflexivity).
  rewrite forallb_forall in H. specialize (H (Z.to_nat i)).
  rewrite in_seq, Z2Nat.id in H by lia.
  specialize (H ltac:(lia)). apply andb_prop in H as [H1 H2].
  split; by eapply bool_decide_eq_true_1.
Qed.

(** Six-bit digits: the number they write in base 64. *)
Lemma land63 n : Z.land n 63 = n mod 64.
Proof. change 63 with (Z.ones 6). by rewrite Z.land_ones by lia. Qed.

Lemma lor_shift a v k : 0 <= k -> 0 <= v < 2 ^ k -> Z.lor (a * 2 ^ k) v = a * 2 ^ k + v.
Proof.
  intros Hk Hv. rewrite <- Z.add_lor_land.
  replace (Z.land (a * 2 ^ k) v) with 0; [lia|]. symmetry.
  apply Z.bits_inj'. intros i Hi. rewrite Z.land_spec, Z.bits_0.
  destruct (Z.ltb_spec i k).
  - by rewrite Z.mul_pow2_bits_low by lia.
  - destruct (decide (v = 0)) as [->|]; [by rewrite Z.bits_0, andb_false_r|].
    rewrite (Z.bits_above_log2 v i); [apply andb_false_r|lia|].
    apply Z.log2_lt_pow2; [lia|]. eapply Z.lt_le_trans; [apply Hv|].
    apply Z.pow_le_mono_r; lia.
Qed.

(** One step of the accumulator, for an accumulator that still fits. *)
Lemma acc_step acc v :
  0 <= v < 64 -> Z.lor (as_u32 (Z.shiftl acc 6)) v = (acc mod 2 ^ 26) * 64 + v.
Proof.
  intros Hv. rewrite Z.shiftl_mul_pow2 by lia. unfold wrap_to.
  change (2 ^ 32) with (2 ^ 26 * 2 ^ 6). rewrite Zmult_mod_distr_r.
  rewrite (lor_shift _ _ 6) by (change (2 ^ 6) with 64; lia). done.
Qed.

(** The bytes the decoder emits do not depend on what fell off. *)
Lemma acc_emit x v b :
  0 <= b <= 6 -> byte_of_Z (Z.shiftr ((x mod 2 ^ 26) * 64 + v) b) = byte_of_Z ((x * 64 + v) / 2 ^ b).
Proof.
  intros Hb. apply (inj Z_of_byte). rewrite !Z_of_byte_of_Z, Z.shiftr_div_pow2 by lia.
  assert (0 < 2 ^ b) by (apply Z.pow_pos_nonneg; lia).
  replace (x * 64 + v) with (x mod 2 ^ 26 * 64 + v + (x / 2 ^ 26 * 2 ^ (24 - b) * 256) * 2 ^ b).
  - rewrite Z.div_add by lia. symmetry. apply Z_mod_plus_full.
  - rewrite (Z.div_mod x (2 ^ 26)) at 3 by lia.
    replace (x / 2 ^ 26 * 2 ^ (24 - b) * 256 * 2 ^ b) with (x / 2 ^ 26 * (2 ^ (24 - b) * 2 ^ b) * 256)
      by ring.
    rewrite <- Z.pow_add_r by lia. replace (24 - b + b) with 24 by lia. lia.
Qed.

Lemma byte_of_Z_eq z c : z mod 256 = Z_of_byte c -> byte_of_Z z = c.
Proof. intros E. apply (inj Z_of_byte). by rewrite Z_of_byte_of_Z. Qed.

(** Four digits from a byte boundary give three bytes and reach the next
    boundary; two give one byte, three give two. *)
Lemma decode_digit c s acc bits v :
  val c = Some v ->
  decode_loop (c :: s) acc bits =
    let acc := Z.lor (as_u32 (Z.shiftl acc 6)) v in
    if decide (8 <= bits + 6) then
      out ← decode_loop s acc (bits + 6 - 8);
      Some (byte_of_Z (Z.shiftr acc (bits + 6 - 8)) :: out)
    else decode_loop s acc (bits + 6).
Proof. intros E. cbn [decode_loop]. by rewrite E. Qed.

Definition number (a b c : Z) : Z := a * 65536 + b * 256 + c.

Lemma chunk_number a b c :
  0 <= a < 256 -> 0 <= b < 256 -> 0 <= c < 256 ->
  Z.lor (Z.lor (as_u32 (Z.shiftl a 16)) (as_u32 (Z.shiftl b 8))) c = number a b c.
Proof.
  intros. rewrite !Z.shiftl_mul_pow2 by lia.
  rewrite !wrap_to_small by (change (2 ^ 16) with 65536; change (2 ^ 8) with 256;
    change (2 ^ 32) with 4294967296; lia).
  rewrite (lor_shift a (b * 2 ^ 8) 16) by (change (2 ^ 8) with 256; change (2 ^ 16) with 65536; lia).
  replace (a * 2 ^ 16 + b * 2 ^ 8) with ((a * 256 + b) * 2 ^ 8) by lia.
  rewrite lor_shift by (change (2 ^ 8) with 256; lia). unfold number. lia.
Qed.

Definition digit (n k : Z) : Z := n / 2 ^ k mod 64.

Lemma digit_range n k : 0 <= digit n k < 64.
Proof. unfold digit. apply Z.mod_pos_bound. lia. Qed.

Lemma val_digit n k : val (b64_char (digit n k)) = Some (digit n k).
Proof. apply val_b64_char, digit_range. Qed.

Lemma decode_two a s acc x y :
  let n := number (Z_of_byte a) x y in 0 <= x < 256 -> 0 <= y < 256 ->
  exists acc', decode_loop (b64_char (digit n 18) :: b64_char (digit n 12) :: s) acc 0 =
    (out ← decode_loop s acc' 4; Some (a :: out)) /\
    acc' = (((acc mod 2 ^ 26) * 64 + digit n 18) mod 2 ^ 26) * 64 + digit n 12.
Proof.
  intros n Hx Hy. eexists. split; [|reflexivity].
  rewrite (decode_digit _ _ _ _ _ (val_digit n 18)). cbv zeta. rewrite decide_False by lia.
  rewrite (decode_digit _ _ _ _ _ (val_digit n 12)). cbv zeta. rewrite decide_True by lia.
  rewrite !acc_step by apply digit_range. simpl (0 + 6 + 6 - 8).
  rewrite acc_emit by lia.
  replace (byte_of_Z _) with a; [done|]. symmetry. apply byte_of_Z_eq.
  unfold digit, n, number. pose proof (Z_of_byte_range a).
  change (2 ^ 26) with 67108864. change (2 ^ 18) with 262144. change (2 ^ 12) with 4096.
  change (2 ^ 4) with 16. Z.to_euclidean_division_equations. lia.
Qed.

Lemma decode_third a b s acc c :
  let n := number a (Z_of_byte b) c in 0 <= a < 256 -> 0 <= c < 256 ->
  let acc1 := (acc mod 2 ^ 26) * 64 + digit n 12 in
  decode_loop (b64_char (digit n 6) :: s) acc1 4 =
    (out ← decode_loop s ((acc1 mod 2 ^ 26) * 64 + digit n 6) 2; Some (b :: out)).
Proof.
  intros n Ha Hc acc1.
  rewrite (decode_digit _ _ _ _ _ (val_digit n 6)). cbv zeta. rewrite decide_True by lia.
  rewrite !acc_step by apply digit_range. simpl (4 + 6 - 8).
  rewrite acc_emit by lia.
  replace (byte_of_Z _) with b; [done|]. symmetry. apply byte_of_Z_eq.
  unfold acc1, digit, n, number. pose proof (Z_of_byte_range b).
  change (2 ^ 26) with 67108864. change (2 ^ 12) with 4096. change (2 ^ 6) with 64.
  change (2 ^ 2) with 4. Z.to_euclidean_division_equations. lia.
Qed.

Lemma decode_fourth a b c s acc :
  let n := number a b (Z_of_byte c) in
  let acc1 := (acc mod 2 ^ 26) * 64 + digit n 6 in
  exists acc', decode_loop (b64_char (digit n 0) :: s) acc1 2 =
    (out ← decode_loop s acc' 0; Some (c :: out)).
Proof.
  intros n acc1. eexists.
  rewrite (decode_digit _ _ _ _ _ (val_digit n 0)). cbv zeta. rewrite decide_True by lia.
  rewrite !acc_step by apply digit_range. simpl (2 + 6 - 8).
  rewrite acc_emit by lia.
  replace (byte_of_Z _) with c; [reflexivity|]. symmetry. apply byte_of_Z_eq.
  unfold acc1, digit, n, number. pose proof (Z_of_byte_range c).
  change (2 ^ 26) with 67108864. change (2 ^ 6) with 64.
  change (2 ^ 0) with 1. Z.to_euclidean_division_equations. lia.
Qed.

(** A chunk as its digits, for one, two and three bytes. *)
Lemma encode_chunk3 a b c :
  let n := number (Z_of_byte a) (Z_of_byte b) (Z_of_byte c) in
  encode_chunk [a; b; c] =
    [b64_char (digit n 18); b64_char (digit n 12); b64_char (digit n 6); b64_char (digit n 0)].
Proof.
  unfold encode_chunk. rewrite chunk_number by apply Z_of_byte_range. cbn [nth length].
  rewrite !decide_True by lia. rewrite !land63, !Z.shiftr_div_pow2 by lia.
  unfold digit. by rewrite Z.div_1_r.
Qed.

Lemma encode_chunk2 a b :
  let n := number (Z_of_byte a) (Z_of_byte b) 0 in
  encode_chunk [a; b] =
    [b64_char (digit n 18); b64_char (digit n 12); b64_char (digit n 6); x3d].
Proof.
  unfold encode_chunk. rewrite chunk_number by apply Z_of_byte_range. cbn [nth length].
  rewrite decide_True, decide_False by lia. by rewrite !land63, !Z.shiftr_div_pow2 by lia.
Qed.

Lemma encode_chunk1 a :
  let n := number (Z_of_byte a) 0 0 in
  encode_chunk [a] = [b64_char (digit n 18); b64_char (digit n 12); x3d; x3d].
Proof.
  unfold encode_chunk. rewrite chunk_number by apply Z_of_byte_range. cbn [nth length].
  rewrite !decide_False by lia. by rewrite !land63, !Z.shiftr_div_pow2 by lia.
Qed.

Lemma decode_full_chunk a b c s acc :
  exists acc', decode_loop (encode_chunk [a; b; c] ++ s) acc 0 =
    (out ← decode_loop s acc' 0; Some (a :: b :: c :: out)).
Proof.
  pose proof (Z_of_byte_range a). pose proof (Z_of_byte_range b). pose proof (Z_of_byte_range c).
  rewrite encode_chunk3. cbn [app].
  destruct (decode_two a (b64_char (digit (number (Z_of_byte a) (Z_of_byte b) (Z_of_byte c)) 6) ::
    b64_char (digit (number (Z_of_byte a) (Z_of_byte b) (Z_of_byte c)) 0) :: s) acc
    (Z_of_byte b) (Z_of_byte c)) as (acc2 & -> & ->); [done..|].
  rewrite decode_third by done.
  edestruct decode_fourth as (acc' & E). exists acc'. rewrite E.
  by destruct (decode_loop s acc' 0).
Qed.

(** What [base64_encode] writes: digits that decode to the data, then the
    padding. *)
Lemma encode_shape data : exists body k,
  base64_encode data = body ++ replicate k x3d /\ Forall (fun c => c <> x3d) body /\
  forall acc, decode_loop body acc 0 = Some data.
Proof.
  induction data as [data IH] using (induction_ltof1 _ (@length byte)).
  assert (Hd : forall n k, b64_char (digit n k) <> x3d)
    by (intros; apply val_b64_char, digit_range).
  destruct data as [|a [|b [|c rest]]].
  - exists [], 0%nat. split_and!; [done|constructor|done].
  - exists (take 2 (encode_chunk [a])), 2%nat. cbn [base64_encode].
    rewrite encode_chunk1. split_and!; [done|by repeat constructor|]. intros acc. cbn [take].
    by destruct (decode_two a [] acc 0 0) as (acc' & -> & _); [lia..|].
  - exists (take 3 (encode_chunk [a; b])), 1%nat. cbn [base64_encode].
    rewrite encode_chunk2. split_and!; [done|by repeat constructor|]. intros acc. cbn [take].
    pose proof (Z_of_byte_range a). pose proof (Z_of_byte_range b).
    edestruct (decode_two a) as (acc' & -> & ->); [lia..|].
    by rewrite decode_third by lia.
  - destruct (IH rest) as (body & k & E & Hb & Hdec); [unfold ltof; simpl; lia|].
    exists (encode_chunk [a; b; c] ++ body), k. cbn [base64_encode].
    rewrite E, <- app_assoc. split_and!; [done| |].
    + apply Forall_app. split; [|done]. rewrite encode_chunk3. by repeat constructor.
    + intros acc. destruct (decode_full_chunk a b c body acc) as (acc' & ->). by rewrite Hdec.
Qed.

Lemma trim_pad c body k :
  Forall (fun x => x <> c) body -> trim_end_matches c (body ++ replicate k c) = body.
Proof.
  induction 1 as [|x body Hx Hb IH]; cbn.
  - induction k as [|k IH]; cbn; [done|]. by rewrite IH, decide_True.
  - rewrite IH. destruct body; [by rewrite decide_False|done].
Qed.

(** ** Theorems *)

(** Decoding what the encoder wrote gives the bytes back, for every
    input length: the accumulator's lost high bits, the one or two padding
    characters and the final partial group do no harm. *)
Theorem base64_roundtrip data : base64_decode (base64_encode data) = Some data.
Proof.
  destruct (encode_shape data) as (body & k & -> & Hb & Hd).
  unfold base64_decode. by rewrite trim_pad.
Qed.

(** A string is decoded to [(6 * digits) / 8] bytes: what the 16-byte test of
    [parse_upgrade] measures. *)
Lemma decode_loop_length s acc bits out :
  0 <= bits < 8 -> decode_loop s acc bits = Some out ->
  zlen out = (6 * zlen s + bits) / 8.
Proof.
  revert acc bits out. induction s as [|c s IH]; intros acc bits out Hb E; cbn in E.
  - simplify_eq. rewrite !zlen_nil. symmetry. apply Z.div_small. lia.
  - destruct (val c) as [v|]; [|done]. cbn in E. rewrite zlen_cons.
    case_decide as H8.
    + destruct (decode_loop s _ (bits + 6 - 8)) as [o|] eqn:E'; [|done]. simplify_eq/=.
      apply IH in E'; [|lia]. rewrite zlen_cons, E'.
      replace (6 * (1 + zlen s) + bits) with (6 * zlen s + (bits + 6 - 8) + 1 * 8) by lia.
      rewrite Z.div_add by lia. lia.
    + apply IH in E; [|lia]. rewrite E. f_equal. lia.
Qed.

(** What the decoder accepts and how much it yields: an input is decoded
    exactly when, once its trailing padding is cut, every character is one of
    the 64 digits, and then to three bytes per four digits, a leftover of
    less than a byte being dropped. *)
Theorem base64_decode_accepts s :
  match base64_decode s with
  | Some out => Forall (fun c => is_Some (val c)) (trim_end_matches x3d s) /\
                zlen out = (6 * zlen (trim_end_matches x3d s)) / 8
  | None => exists c, c ∈ trim_end_matches x3d s /\ val c = None
  end.
Proof.
  unfold base64_decode. generalize (trim_end_matches x3d s) as l. intros l.
  assert (H : forall acc bits, match decode_loop l acc bits with
    | Some _ => Forall (fun c => is_Some (val c)) l
    | None => exists c, c ∈ l /\ val c = None end).
  { induction l as [|c l IH]; intros acc bits; cbn; [constructor|].
    destruct (val c) as [v|] eqn:Hv; cbn; [|exists c; split; [left|done]].
    assert (Hstep : forall acc bits, match decode_loop l acc bits with
      | Some _ => Forall (fun c => is_Some (val c)) (c :: l)
      | None => exists c0, c0 ∈ c :: l /\ val c0 = None end).
    { intros acc' bits'. specialize (IH acc' bits'). destruct (decode_loop l acc' bits').
      - by constructor.
      - destruct IH as (c0 & Hin & Hc0). exists c0. split; [by right|done]. }
    case_decide; [|apply Hstep].
    specialize (Hstep (Z.lor (as_u32 (Z.shiftl acc 6)) v) (bits + 6 - 8)).
    by destruct (decode_loop l _ _). }
  specialize (H 0 0). destruct (decode_loop l 0 0) as [out|] eqn:E; [|done].
  split; [done|]. apply decode_loop_length in E; [|lia]. by rewrite Z.add_0_r in E.
Qed.
