(* ===== verification/Sha1.v ===== *)
(** * Sha1: the hand-rolled SHA-1 of both crates, and the handshake key

    Models [Sha1] and [accept_key] of [rust-lib-sync/src/ws.rs], an
    incremental hasher over a 64-byte block, and [sha1] and [compute_accept]
    of [rust-lib-async/src/ws.rs], which pads the whole message first and has its
    own copy of the arithmetic (module [OneShot]).  A [u32] is a [Z] in range.
    Both are shown to compute [sha1_spec]: fold the compression function over the
    blocks of the padded message. *)

From S2P Require Import Prelude Base64.
From Stdlib Require Import Strings.Byte.

(** ** Words *)

(** [u32::rotate_left]. *)
Definition rotate_left (x k : Z) : Z :=
  as_u32 (Z.lor (Z.shiftl x k) (Z.shiftr x (32 - k))).

(** [!x] on a [u32]. *)
Definition not32 (x : Z) : Z := Z.lxor x 0xFFFFFFFF.

Abbreviation add32 := (wrapping_add 32).

Definition chunks_exact (n : nat) (l : bytes) : list bytes :=
  (fun i => take n (drop (i * n) l)) <$> seq 0 (length l / n).

(** ** The compression function *)

Definition State := (Z * Z * Z * Z * Z)%type.

Definition initial : State :=
  (0x67452301, 0xEFCDAB89, 0x98BADCFE, 0x10325476, 0xC3D2E1F0)%Z.

(** [w[i] = (w[i - 3] ^ w[i - 8] ^ w[i - 14] ^ w[i - 16]).rotate_left(1)]. *)
Definition schedule_step (w : list Z) (i : nat) : list Z :=
  <[i := rotate_left (Z.lxor (Z.lxor (Z.lxor (w !!! (i - 3)) (w !!! (i - 8)))
                                     (w !!! (i - 14))) (w !!! (i - 16))) 1]> w.

Definition schedule (block : bytes) : list Z :=
  fold_left schedule_step (seq 16 64)
    ((from_be_bytes <$> chunks_exact 4 block) ++ replicate 64 0%Z).

Definition round (s : State) (iw : nat * Z) : State :=
  let '(a, b, c, d, e) := s in
  let '(i, word) := iw in
  let '(f, k) :=
    if decide (i <= 19) then
      (Z.lor (Z.land b c) (Z.land (not32 b) d), 0x5A827999%Z)
    else if decide (i <= 39) then (Z.lxor (Z.lxor b c) d, 0x6ED9EBA1%Z)
    else if decide (i <= 59) then
      (Z.lor (Z.lor (Z.land b c) (Z.land b d)) (Z.land c d), 0x8F1BBCDC%Z)
    else (Z.lxor (Z.lxor b c) d, 0xCA62C1D6%Z) in
  let tmp := add32 (add32 (add32 (add32 (rotate_left a 5) f) e) k) word in
  (tmp, a, rotate_left b 30, c, d).

(** [process_block]: the state after one more 64-byte block. *)
Definition compress (s : State) (block : bytes) : State :=
  let '(h0, h1, h2, h3, h4) := s in
  let w := schedule block in
  let '(a, b, c, d, e) := fold_left round (zip (seq 0 80) w) s in
  (add32 h0 a, add32 h1 b, add32 h2 c, add32 h3 d, add32 h4 e).

Definition output (s : State) : bytes :=
  let '(h0, h1, h2, h3, h4) := s in
  to_be_bytes 4 h0 ++ to_be_bytes 4 h1 ++ to_be_bytes 4 h2 ++ to_be_bytes 4 h3 ++
  to_be_bytes 4 h4.

(** ** The incremental hasher (synchronous crate) *)

Record Sha1 := mkSha1 {
  state : State;
  len : Z;
  block : bytes;
  fill : nat;
}.

Definition new : Sha1 := mkSha1 initial 0 (replicate 64 x00) 0.

Definition process_block (s : Sha1) : Sha1 :=
  mkSha1 (compress (state s) (block s)) (len s) (block s) (fill s).

(** The [while !data.is_empty()] loop of [update]; [None] is fuel exhaustion,
    which [update_holds] excludes. *)
Fixpoint update_loop (fuel : nat) (s : Sha1) (data : bytes) : option Sha1 :=
  match fuel with
  | O => None
  | S fuel =>
    match data with
    | [] => Some s
    | _ =>
      let n := (64 - fill s) `min` length data in
      let b := take (fill s) (block s) ++ take n data ++ drop (fill s + n) (block s) in
      let s := mkSha1 (state s) (len s) b (fill s + n) in
      let data := drop n data in
      if decide (fill s = 64) then
        let s := process_block s in
        update_loop fuel (mkSha1 (state s) (len s) (block s) 0) data
      else update_loop fuel s data
    end
  end.

Definition update (s : Sha1) (data : bytes) : option Sha1 :=
  update_loop (S (length data))
    (mkSha1 (state s) (wrapping_add 64 (len s) (zlen data)) (block s) (fill s)) data.

(** [while self.fill != 56 { self.update(&[0x00]) }]. *)
Fixpoint pad_loop (fuel : nat) (s : Sha1) : option Sha1 :=
  match fuel with
  | O => None
  | S fuel =>
    if decide (fill s = 56) then Some s
    else s ← update s [x00]; pad_loop fuel s
  end.

Definition finish (s : Sha1) : option bytes :=
  let bit_len := as_u64 (len s * 8) in
  s ← update s [x80];
  s ← pad_loop 65 s;
  s ← update s (to_be_bytes 8 bit_len);
  Some (output (state s)).

(** ** The one-shot hash (asynchronous crate) *)

(** The loop over the blocks in [sha1], on the array [h]; the crate has its own
    copy of the arithmetic. *)
Module OneShot.
Definition initial : list Z :=
  [0x67452301; 0xEFCDAB89; 0x98BADCFE; 0x10325476; 0xC3D2E1F0]%Z.

(** [w[i] = u32::from_be_bytes([word[0], word[1], word[2], word[3]])]. *)
Definition load_word (w : list Z) (iw : nat * bytes) : list Z :=
  let '(i, word) := iw in
  <[i := from_be_bytes [nth 0 word x00; nth 1 word x00; nth 2 word x00; nth 3 word x00]]> w.

Definition extend_word (w : list Z) (i : nat) : list Z :=
  <[i := rotate_left (Z.lxor (Z.lxor (Z.lxor (w !!! (i - 3)) (w !!! (i - 8)))
                                     (w !!! (i - 14))) (w !!! (i - 16))) 1]> w.

(** [for (i, &wi) in w.iter().enumerate()]. *)
Fixpoint rounds (w : list Z) (i : nat) (a b c d e : Z) : Z * Z * Z * Z * Z :=
  match w with
  | [] => (a, b, c, d, e)
  | wi :: w =>
    let '(f, k) :=
      if decide (i <= 19) then
        (Z.lor (Z.land b c) (Z.land (not32 b) d), 0x5A827999%Z)
      else if decide (i <= 39) then (Z.lxor (Z.lxor b c) d, 0x6ED9EBA1%Z)
      else if decide (i <= 59) then
        (Z.lor (Z.lor (Z.land b c) (Z.land b d)) (Z.land c d), 0x8F1BBCDC%Z)
      else (Z.lxor (Z.lxor b c) d, 0xCA62C1D6%Z) in
    let temp := add32 (add32 (add32 (add32 (rotate_left a 5) f) e) k) wi in
    let e := d in
    let d := c in
    let c := rotate_left b 30 in
    let b := a in
    let a := temp in
    rounds w (S i) a b c d e
  end.

(** The array [w]. *)
Definition schedule (chunk : bytes) : list Z :=
  let words := chunks_exact 4 chunk in
  fold_left extend_word (seq 16 64)
    (fold_left load_word (zip (seq 0 (length words)) words) (replicate 80 0%Z)).

Definition process_chunk (h : list Z) (chunk : bytes) : list Z :=
  let '(a, b, c, d, e) :=
    rounds (schedule chunk) 0 (nth 0 h 0%Z) (nth 1 h 0%Z) (nth 2 h 0%Z) (nth 3 h 0%Z) (nth 4 h 0%Z) in
  [add32 (nth 0 h 0%Z) a; add32 (nth 1 h 0%Z) b; add32 (nth 2 h 0%Z) c; add32 (nth 3 h 0%Z) d;
   add32 (nth 4 h 0%Z) e].

(** [out[i * 4..i * 4 + 4].copy_from_slice(&word.to_be_bytes())]. *)
Definition store_word (out : bytes) (iw : nat * Z) : bytes :=
  let '(i, word) := iw in take (i * 4) out ++ to_be_bytes 4 word ++ drop (i * 4 + 4) out.

Definition digest (h : list Z) : bytes :=
  fold_left store_word (zip (seq 0 (length h)) h) (replicate 20 x00).
End OneShot.

(** [while msg.len() % 64 != 56 { msg.push(0) }]. *)
Fixpoint pad_message (fuel : nat) (msg : bytes) : option bytes :=
  match fuel with
  | O => None
  | S fuel =>
    if decide (length msg mod 64 = 56) then Some msg else pad_message fuel (msg ++ [x00])
  end.

Definition sha1 (data : bytes) : option bytes :=
  let ml := as_u64 (as_u64 (zlen data) * 8) in
  msg ← pad_message 65 (data ++ [x80]);
  let msg := msg ++ to_be_bytes 8 ml in
  Some (OneShot.digest (fold_left OneShot.process_chunk (chunks_exact 64 msg) OneShot.initial)).

(** ** The handshake key *)

Definition WS_GUID : bytes := str_bytes "258EAFA5-E914-47DA-95CA-C5AB0DC85B11".

Definition accept_key (key : bytes) : option bytes :=
  hasher ← update new key;
  hasher ← update hasher WS_GUID;
  digest ← finish hasher;
  Some (base64_encode digest).

Definition compute_accept (key : bytes) : option bytes :=
  digest ← sha1 (key ++ WS_GUID);
  Some (base64_encode digest).

(** ** The specification *)

Definition zeros (n : nat) : nat := (119 - n mod 64) mod 64.

Definition padded (m : bytes) : bytes :=
  m ++ [x80] ++ replicate (zeros (length m)) x00 ++ to_be_bytes 8 (as_u64 (zlen m * 8)).

Definition absorb (m : bytes) : State := fold_left compress (chunks_exact 64 m) initial.

Definition sha1_spec (m : bytes) : bytes := output (absorb (padded m)).

(** ** Blocks of a growing message *)

Lemma chunk_prefix n i (m d : bytes) :
  i < length m / n -> take n (drop (i * n) (m ++ d)) = take n (drop (i * n) m).
Proof.
  intros Hi. assert (n <> 0) by (intros ->; cbn in Hi; lia).
  pose proof (Nat.Div0.mul_div_le (length m) n).
  assert (S i * n <= length m) by nia.
  rewrite drop_app_le, take_app_le by (rewrite ?length_drop; nia). done.
Qed.

Lemma chunks_exact_grow n (m d : bytes) :
  chunks_exact n (m ++ d) =
    chunks_exact n m ++
    ((fun i => take n (drop (i * n) (m ++ d))) <$>
       seq (length m / n) (length (m ++ d) / n - length m / n)).
Proof.
  unfold chunks_exact.
  assert (length m / n <= length (m ++ d) / n)
    by (rewrite length_app; apply Nat.Div0.div_le_mono; lia).
  replace (seq 0 (length (m ++ d) / n))
    with (seq 0 (length m / n) ++ seq (0 + length m / n) (length (m ++ d) / n - length m / n))
    by (rewrite <- seq_app; f_equal; lia).
  rewrite fmap_app. f_equal.
  apply list_fmap_ext. intros k i Hi. apply lookup_seq in Hi as [-> Hk].
  by apply chunk_prefix.
Qed.

(** The hasher after the message [m]. *)
Record holds (s : Sha1) (m : bytes) : Prop := {
  h_state : state s = absorb m;
  h_fill : fill s = length m mod 64;
  h_block : length (block s) = 64;
  h_data : take (fill s) (block s) = drop (length m / 64 * 64) m;
}.

(** How the cursor moves when [b] bytes follow [a]. *)
Lemma div_mod_grow a b q r :
  a mod 64 + b = 64 * q + r -> r < 64 -> (a + b) / 64 = a / 64 + q /\ (a + b) mod 64 = r.
Proof.
  intros H Hr. pose proof (Nat.div_mod_eq a 64).
  replace (a + b) with (r + (a / 64 + q) * 64) by lia.
  rewrite Nat.div_add, Nat.Div0.mod_add, Nat.div_small, Nat.mod_small by lia. lia.
Qed.

Lemma absorb_partial m d :
  length m mod 64 + length d < 64 -> absorb (m ++ d) = absorb m.
Proof.
  intros H. unfold absorb. rewrite chunks_exact_grow, length_app.
  destruct (div_mod_grow _ _ 0 (length m mod 64 + length d) eq_refl H) as [-> _].
  replace (length m / 64 + 0 - length m / 64) with 0 by lia.
  by rewrite app_nil_r.
Qed.

Lemma absorb_block m d :
  length m mod 64 + length d = 64 ->
  absorb (m ++ d) = compress (absorb m) (drop (length m / 64 * 64) m ++ d).
Proof.
  intros H. unfold absorb. rewrite chunks_exact_grow, length_app.
  destruct (div_mod_grow (length m) (length d) 1 0 ltac:(lia) ltac:(lia)) as [Hq _].
  rewrite Hq. replace (length m / 64 + 1 - length m / 64) with 1 by lia.
  rewrite fold_left_app. cbn [seq fmap list_fmap fold_left]. f_equal.
  pose proof (Nat.div_mod_eq (length m) 64).
  rewrite drop_app_le by lia. apply take_ge. rewrite length_app, length_drop. lia.
Qed.

(** Putting [b] at the cursor of the block. *)
Lemma block_write s m b :
  holds s m -> fill s + length b <= 64 ->
  let blk := take (fill s) (block s) ++ b ++ drop (fill s + length b) (block s) in
  length blk = 64 /\ take (fill s + length b) blk = drop (length m / 64 * 64) m ++ b.
Proof.
  intros [_ Hf Hb Hd] Hl. split; [len_solve|].
  rewrite app_assoc, take_app_le, take_ge by len_solve. by rewrite Hd.
Qed.

Lemma update_loop_holds fuel s m data :
  length data < fuel -> holds s m ->
  exists s', update_loop fuel s data = Some s' /\ holds s' (m ++ data) /\ len s' = len s.
Proof.
  revert s m data. induction fuel as [|fuel IH]; intros s m data Hf HI; [lia|].
  cbn [update_loop]. destruct data as [|x data].
  { exists s. by rewrite app_nil_r. }
  set (d := x :: data) in *. assert (Hd : 0 < length d) by (simpl; lia).
  set (n := (64 - fill s) `min` length d).
  pose proof (h_fill _ _ HI) as Hfill.
  assert (Hlt : fill s < 64) by (rewrite Hfill; apply Nat.mod_upper_bound; lia).
  assert (Htn : length (take n d) = n) by (rewrite length_take; lia).
  destruct (block_write s m (take n d) HI ltac:(lia)) as [Hlen Htake]. rewrite Htn in Hlen, Htake.
  replace (m ++ d) with ((m ++ take n d) ++ drop n d) by by rewrite <- app_assoc, take_drop.
  cbn [fill state block len].
  assert (Hdrop : length (drop n d) < fuel) by (rewrite length_drop; lia).
  case_decide as Hfull.
  - destruct (IH (mkSha1 (compress (state s) (take (fill s) (block s) ++ take n d ++
      drop (fill s + n) (block s))) (len s) (take (fill s) (block s) ++ take n d ++
      drop (fill s + n) (block s)) 0) (m ++ take n d) (drop n d)) as (s' & E & H); [done| |by exists s'].
    destruct (div_mod_grow (length m) n 1 0 ltac:(lia) ltac:(lia)) as [Hq Hr].
    split; cbn [state fill block]; [|by rewrite length_app, Htn|done|].
    + rewrite (h_state _ _ HI), absorb_block by lia. f_equal.
      rewrite <- Htake. symmetry. apply take_ge. lia.
    + rewrite take_0, drop_ge; [done|]. rewrite length_app, Htn, Hq.
      pose proof (Nat.div_mod_eq (length m) 64). lia.
  - destruct (IH (mkSha1 (state s) (len s) (take (fill s) (block s) ++ take n d ++
      drop (fill s + n) (block s)) (fill s + n)) (m ++ take n d) (drop n d)) as (s' & E & H);
      [done| |by exists s'].
    destruct (div_mod_grow (length m) n 0 (fill s + n) ltac:(lia) ltac:(lia)) as [Hq Hr].
    split; cbn [state fill block]; [|by rewrite length_app, Htn|done|].
    + rewrite (h_state _ _ HI), absorb_partial by lia. done.
    + rewrite Htake, length_app, Htn, Hq, Nat.add_0_r.
      pose proof (Nat.div_mod_eq (length m) 64). by rewrite drop_app_le by lia.
Qed.

Lemma update_holds s m data :
  holds s m -> exists s', update s data = Some s' /\ holds s' (m ++ data) /\
    len s' = wrapping_add 64 (len s) (zlen data).
Proof.
  intros [H1 H2 H3 H4]. unfold update.
  set (s1 := mkSha1 _ _ _ _).
  destruct (update_loop_holds (S (length data)) s1 m data) as (s' & ? & ? & ?);
    [lia|by split|by exists s'].
Qed.

Lemma new_holds : holds new [].
Proof. by split. Qed.

(** ** Padding *)

Lemma zeros_spec n : (n + 1 + zeros n) mod 64 = 56 /\ zeros n < 64.
Proof.
  unfold zeros. pose proof (Nat.mod_upper_bound n 64 ltac:(lia)).
  destruct (decide (n mod 64 <= 55)).
  - replace (119 - n mod 64) with (55 - n mod 64 + 1 * 64) by lia.
    rewrite Nat.Div0.mod_add, (Nat.mod_small (55 - _)) by lia.
    rewrite <- Nat.add_assoc. split; [|lia].
    apply (div_mod_grow n _ 0 56); lia.
  - rewrite (Nat.mod_small (119 - _)) by lia. rewrite <- Nat.add_assoc. split; [|lia].
    apply (div_mod_grow n _ 1 56); lia.
Qed.

Lemma not_aligned n z : (n + S z) mod 64 = 56 -> S z < 64 -> n mod 64 <> 56.
Proof.
  intros H Hz Hn. destruct (decide (S z < 8)).
  - destruct (div_mod_grow n (S z) 0 (56 + S z)) as [_ E]; lia.
  - destruct (div_mod_grow n (S z) 1 (S z - 8)) as [_ E]; lia.
Qed.

Lemma pad_loop_holds z fuel s m :
  z < fuel -> z < 64 -> (length m + z) mod 64 = 56 -> holds s m ->
  exists s', pad_loop fuel s = Some s' /\ holds s' (m ++ replicate z x00).
Proof.
  revert fuel s m. induction z as [|z IH]; intros fuel s m Hf Hz Hm HI;
    (destruct fuel as [|fuel]; [lia|]); cbn [pad_loop]; rewrite (h_fill _ _ HI).
  - rewrite Nat.add_0_r in Hm. rewrite decide_True by done. exists s. by rewrite app_nil_r.
  - rewrite decide_False by by eapply not_aligned.
    destruct (update_holds s m [x00] HI) as (s1 & -> & HI1 & _). cbn [mbind option_bind].
    destruct (IH fuel s1 (m ++ [x00])) as (s2 & E & H2); [lia|lia| |done|].
    + rewrite length_app. cbn. by replace (length m + 1 + z) with (length m + S z) by lia.
    + exists s2. split; [done|]. by rewrite <- app_assoc in H2.
Qed.

Lemma pad_message_eq z fuel m :
  z < fuel -> z < 64 -> (length m + z) mod 64 = 56 ->
  pad_message fuel m = Some (m ++ replicate z x00).
Proof.
  revert fuel m. induction z as [|z IH]; intros fuel m Hf Hz Hm;
    (destruct fuel as [|fuel]; [lia|]); cbn [pad_message].
  - rewrite Nat.add_0_r in Hm. by rewrite decide_True, app_nil_r by done.
  - rewrite decide_False by by eapply not_aligned.
    rewrite IH by (rewrite ?length_app; cbn; try lia;
      by replace (length m + 1 + z) with (length m + S z) by lia).
    by rewrite <- app_assoc.
Qed.

Lemma bit_len_wrap n : as_u64 (as_u64 n * 8) = as_u64 (n * 8).
Proof. unfold wrap_to. by rewrite Zmult_mod_idemp_l. Qed.

Lemma finish_spec s m :
  holds s m -> len s = as_u64 (zlen m) -> finish s = Some (sha1_spec m).
Proof.
  intros HI Hlen. unfold finish. rewrite Hlen, bit_len_wrap.
  destruct (update_holds s m [x80] HI) as (s1 & -> & HI1 & _). cbn [mbind option_bind].
  destruct (zeros_spec (length m)) as [Hz Hlt].
  destruct (pad_loop_holds (zeros (length m)) 65 s1 (m ++ [x80])) as (s2 & -> & HI2);
    [lia|lia|by rewrite length_app|done|]. cbn [mbind option_bind].
  edestruct (update_holds s2) as (s3 & -> & HI3 & _); [done|]. cbn [mbind option_bind].
  rewrite (h_state _ _ HI3). unfold sha1_spec, padded. by rewrite <- !app_assoc.
Qed.

(** *** The asynchronous crate's blocks are the synchronous crate's *)

Definition words (s : State) : list Z :=
  let '(a, b, c, d, e) := s in [a; b; c; d; e].

Lemma load_words l : forall pre m,
  length l <= m -> Forall (fun word => length word = 4) l ->
  fold_left OneShot.load_word (zip (seq (length pre) (length l)) l) (pre ++ replicate m 0%Z) =
    pre ++ (from_be_bytes <$> l) ++ replicate (m - length l) 0%Z.
Proof.
  induction l as [|word l IH]; intros pre m Hm Hl; cbn [length seq zip zip_with fold_left].
  { by rewrite Nat.sub_0_r. }
  inversion Hl as [|? ? Hw Hl']; subst. destruct m as [|m]; [cbn in Hm; lia|].
  cbn [OneShot.load_word]. rewrite insert_app_r_alt, Nat.sub_diag by lia. cbn [replicate insert list_insert].
  rewrite cons_middle, app_assoc.
  replace (S (length pre)) with (length (pre ++ [from_be_bytes [nth 0 word x00; nth 1 word x00; nth 2 word x00; nth 3 word x00]]))
    by (rewrite length_app; cbn; lia).
  rewrite IH by (cbn in Hm; lia || done). rewrite <- app_assoc. csimpl. do 3 f_equal.
  by destruct word as [|? [|? [|? [|? [|]]]]].
Qed.

Lemma chunks_exact_whole n (l : bytes) : n <> 0 -> Forall (fun chunk => length chunk = n) (chunks_exact n l).
Proof.
  intros Hn. unfold chunks_exact. apply Forall_fmap, Forall_seq. intros j [_ Hj].
  unfold compose. rewrite length_take, length_drop. pose proof (Nat.Div0.mul_div_le (length l) n). nia.
Qed.

Lemma extend_words ks w : fold_left OneShot.extend_word ks w = fold_left schedule_step ks w.
Proof. revert w. by induction ks as [|i ks IH]; intros w; cbn [fold_left]; [|rewrite IH]. Qed.

Lemma rounds_eq w : forall i a b c d e,
  OneShot.rounds w i a b c d e = fold_left round (zip (seq i (length w)) w) (a, b, c, d, e).
Proof.
  induction w as [|wi w IH]; intros i a b c d e; cbn [OneShot.rounds length seq zip zip_with fold_left]; [done|].
  unfold round at 2. by repeat case_decide; rewrite IH.
Qed.

Lemma length_schedule block : length (chunks_exact 4 block) = 16 -> length (schedule block) = 80.
Proof.
  intros H. unfold schedule.
  assert (Hs : forall ks w, length (fold_left schedule_step ks w) = length w).
  { induction ks as [|i ks IH]; intros w; cbn [fold_left]; [done|]. rewrite IH. apply length_insert. }
  rewrite Hs, length_app, length_fmap, H, length_replicate. lia.
Qed.

Lemma schedule_eq chunk :
  length chunk = 64 -> OneShot.schedule chunk = schedule chunk /\ length (schedule chunk) = 80.
Proof.
  intros H. assert (Hc : length (chunks_exact 4 chunk) = 16).
  { unfold chunks_exact. by rewrite length_fmap, length_seq, H. }
  split; [|by apply length_schedule].
  assert (Hl : Forall (fun word => length word = 4) (chunks_exact 4 chunk)).
  { by apply chunks_exact_whole. }
  unfold OneShot.schedule, schedule. rewrite extend_words. f_equal.
  etrans; [apply (load_words (chunks_exact 4 chunk) [] 80); [lia|done]|]. by rewrite Hc.
Qed.

Lemma process_chunk_eq s chunk :
  length chunk = 64 -> OneShot.process_chunk (words s) chunk = words (compress s chunk).
Proof.
  intros H. destruct (schedule_eq chunk H) as [Hs Hl]. destruct s as [[[[h0 h1] h2] h3] h4].
  unfold OneShot.process_chunk, compress. rewrite Hs, rounds_eq, Hl. cbn [words nth]. generalize (schedule chunk).
  intros w. by destruct (fold_left round _ _) as [[[[a b] c] d] e].
Qed.

(** Folding along a change of representation. *)
Lemma fold_left_along {A B C} (f : A -> B) (g : A -> C -> A) (g' : B -> C -> B) (P : C -> Prop) l :
  (forall a c, P c -> g' (f a) c = f (g a c)) -> Forall P l ->
  forall a, fold_left g' l (f a) = f (fold_left g l a).
Proof. intros Hg. induction 1 as [|c l Hc Hl IH]; intros a; cbn [fold_left]; [done|]. by rewrite Hg. Qed.

Lemma process_chunks_eq l s :
  Forall (fun chunk => length chunk = 64) l ->
  fold_left OneShot.process_chunk l (words s) = words (fold_left compress l s).
Proof. intros Hl. refine (fold_left_along words compress _ _ l _ Hl s). apply process_chunk_eq. Qed.

Lemma digest_eq s : OneShot.digest (words s) = output s.
Proof. by destruct s as [[[[a b] c] d] e]. Qed.

Lemma sha1_eq m : sha1 m = Some (sha1_spec m).
Proof.
  unfold sha1. rewrite bit_len_wrap. destruct (zeros_spec (length m)) as [Hz Hlt].
  rewrite (pad_message_eq (zeros (length m))) by (rewrite ?length_app; cbn; lia || done).
  cbn [mbind option_bind]. change OneShot.initial with (words initial).
  rewrite process_chunks_eq, digest_eq.
  { unfold sha1_spec, padded, absorb. by rewrite <- !app_assoc. }
  by apply chunks_exact_whole.
Qed.

(** Feeding a message piece by piece. *)
Fixpoint update_all (s : Sha1) (pieces : list bytes) : option Sha1 :=
  match pieces with
  | [] => Some s
  | p :: pieces => s ← update s p; update_all s pieces
  end.

Lemma update_all_holds s m pieces :
  holds s m -> len s = as_u64 (zlen m) ->
  exists s', update_all s pieces = Some s' /\ holds s' (m ++ mjoin pieces) /\
    len s' = as_u64 (zlen (m ++ mjoin pieces)).
Proof.
  revert s m. induction pieces as [|p pieces IH]; intros s m HI Hl; cbn [update_all mjoin list_join].
  - exists s. by rewrite app_nil_r.
  - destruct (update_holds s m p HI) as (s1 & -> & HI1 & Hl1). cbn [mbind option_bind].
    rewrite app_assoc. apply IH; [done|].
    rewrite Hl1, Hl, zlen_app. unfold wrapping_add, wrap_to. by rewrite Zplus_mod_idemp_l.
Qed.

(** ** Theorems *)

(** The incremental hasher of the synchronous crate and the one-shot hash
    of the asynchronous crate agree, however the message is cut into updates:
    both finish and give the SHA-1 of the whole message. *)
Theorem incremental_is_one_shot pieces :
  (s ← update_all new pieces; finish s) = sha1 (mjoin pieces) /\
  sha1 (mjoin pieces) = Some (sha1_spec (mjoin pieces)).
Proof.
  split; [|apply sha1_eq].
  destruct (update_all_holds new [] pieces new_holds eq_refl) as (s & -> & HI & Hl).
  cbn [mbind option_bind]. by rewrite (finish_spec _ _ HI Hl), sha1_eq.
Qed.

Lemma length_output s : length (output s) = 20.
Proof. destruct s as [[[[? ?] ?] ?] ?]. unfold output. len_solve. Qed.

Lemma length_base64_encode data : length (base64_encode data) = 4 * ((length data + 2) / 3).
Proof.
  induction data as [data IH] using (induction_ltof1 _ (@length byte)).
  destruct data as [|a [|b [|c rest]]]; [done..|]. cbn [base64_encode].
  rewrite length_app, IH by (unfold ltof; simpl; lia). cbn [length encode_chunk].
  replace (S (S (S (length rest))) + 2) with (length rest + 2 + 1 * 3) by lia.
  rewrite Nat.div_add by lia. lia.
Qed.

Lemma accept_key_eq key :
  accept_key key = Some (base64_encode (sha1_spec (key ++ WS_GUID))).
Proof.
  unfold accept_key.
  destruct (update_all_holds new [] [key; WS_GUID] new_holds eq_refl) as (s & E & HI & Hl).
  cbn [update_all] in E. destruct (update new key) as [s1|]; [|done]. cbn [mbind option_bind] in *.
  destruct (update s1 WS_GUID) as [s2|]; [|done]. cbn [mbind option_bind] in *. simplify_eq.
  rewrite (finish_spec _ _ HI Hl). cbn [mbind option_bind mjoin list_join app].
  by rewrite app_nil_r.
Qed.

Lemma accept_key_total key : is_Some (accept_key key).
Proof. rewrite accept_key_eq. by eexists. Qed.

(** Both crates answer an upgrade with the same [Sec-WebSocket-Accept]
    for every key, always 28 characters long, and on the example key of
    RFC 6455 it is the value printed there. *)
Theorem accept_keys_agree key :
  accept_key key = compute_accept key /\
  (exists v, accept_key key = Some v /\ length v = 28) /\
  accept_key (str_bytes "dGhlIHNhbXBsZSBub25jZQ==") =
    Some (str_bytes "s3pPLMBiTxaQ9kYGzzhZRbK+xOo=").
Proof.
  rewrite !accept_key_eq. unfold compute_accept. rewrite sha1_eq.
  split_and!; [done| |by vm_compute]. eexists. split; [done|].
  rewrite length_base64_encode. unfold sha1_spec. by rewrite length_output.
Qed.
