(* ===== verification/WsFrame.v ===== *)
(** * WsFrame: the WebSocket frame layer

    Models the opcodes, [server_frame], [Parsed] and [parse_client_frame] of
    [rust-lib-sync/src/ws.rs].  [client_frame] is the encoding a client uses
    (RFC 6455, and the helper of that name in the tests of [ws.rs]); it and
    [read_server_frame], a client's reader, are the specification. *)

From S2P Require Import Prelude.
From Stdlib Require Import Strings.Byte.
Local Open Scope Z_scope.

(** ** Data *)

Definition OP_CONT : Z := 0x0.
Definition OP_TEXT : Z := 0x1.
Definition OP_BIN : Z := 0x2.
Definition OP_CLOSE : Z := 0x8.
Definition OP_PING : Z := 0x9.
Definition OP_PONG : Z := 0xA.

Inductive Parsed :=
| Data (payload : bytes)
| Ping (payload : bytes)
| Pong
| Close (code : Z)
| NeedMore
| Protocol (code : Z).

(** ** Operations *)

Definition server_frame (opcode : Z) (payload : bytes) : bytes :=
  let n := zlen payload in
  byte_of_Z (Z.lor 0x80 opcode) ::
  (if decide (n < 126) then [byte_of_Z n]
   else if decide (n < 65536) then byte_of_Z 126 :: to_be_bytes 2 (as_u16 n)
   else byte_of_Z 127 :: to_be_bytes 8 (as_u64 n)) ++
  payload.

(** [byte ^ mask[i & 3]] for the [i]th byte on; [mask] has four bytes. *)
Fixpoint unmask_from (i : Z) (mask masked : bytes) : bytes :=
  match masked with
  | [] => []
  | b :: masked =>
    byte_of_Z (Z.lxor (Z_of_byte b) (Z_of_byte (nth (Z.to_nat (Z.land i 3)) mask x00)))
      :: unmask_from (i + 1) mask masked
  end.

(** [match opcode { .. }]: what a complete frame means. *)
Definition interpret (opcode : Z) (payload : bytes) : Parsed :=
  if decide (opcode = OP_BIN \/ opcode = OP_CONT) then Data payload
  else if decide (opcode = OP_PING) then Ping payload
  else if decide (opcode = OP_PONG) then Pong
  else if decide (opcode = OP_TEXT) then Protocol 1003
  else if decide (opcode = OP_CLOSE) then
    Close (if decide (2 <= zlen payload) then from_be_bytes (take 2 payload) else 1000)
  else Protocol 1002.

(** What remains of [parse_client_frame] once the length is known: [offset]
    bytes of header are behind. *)
Definition parse_body (buf : bytes) (opcode : Z) (fin : bool) (len offset : Z)
  : Parsed * Z :=
  if bool_decide (0x8 <= opcode) && (negb fin || bool_decide (125 < len)) then (Protocol 1002, 0)
  else if decide (zlen buf < as_usize (offset + 4 + len)) then (NeedMore, 0)
  else
    let mask := take 4 (drop (Z.to_nat offset) buf) in
    let masked := take (Z.to_nat len) (drop (Z.to_nat (offset + 4)) buf) in
    let payload := unmask_from 0 mask masked in
    let consumed := as_usize (offset + 4 + len) in
    (interpret opcode payload, consumed).

Definition parse_client_frame (buf : bytes) : Parsed * Z :=
  match buf with
  | b0 :: b1 :: _ =>
    let b0 := Z_of_byte b0 in
    let b1 := Z_of_byte b1 in
    if decide (Z.land b0 0x70 <> 0) then (Protocol 1002, 0)
    else
      let opcode := Z.land b0 0x0f in
      let fin := bool_decide (Z.land b0 0x80 <> 0) in
      if decide (Z.land b1 0x80 = 0) then (Protocol 1002, 0)
      else
        let len := Z.land b1 0x7f in
        if decide (len = 126) then
          if decide (zlen buf < 4) then (NeedMore, 0)
          else parse_body buf opcode fin (from_be_bytes (take 2 (drop 2 buf))) 4
        else if decide (len = 127) then
          if decide (zlen buf < 10) then (NeedMore, 0)
          else if decide (Z.land (Z_of_byte (nth 2 buf x00)) 0x80 <> 0) then (Protocol 1002, 0)
          else parse_body buf opcode fin (from_be_bytes (take 8 (drop 2 buf))) 10
        else parse_body buf opcode fin len 2
  | _ => (NeedMore, 0)
  end.

(** ** The specification *)

Definition bit (b : bool) (v : Z) : Z := if b then v else 0.

(** A frame header: the first byte and the length, in the form RFC 6455
    asks for. *)
Definition header (b0 : Z) (masked : bool) (n : Z) : bytes :=
  byte_of_Z b0 ::
  (if decide (n < 126) then [byte_of_Z (bit masked 0x80 + n)]
   else if decide (n < 65536) then byte_of_Z (bit masked 0x80 + 126) :: to_be_bytes 2 n
   else byte_of_Z (bit masked 0x80 + 127) :: to_be_bytes 8 n).

(** The frame a client sends. *)
Definition client_frame (fin : bool) (opcode : Z) (mask payload : bytes) : bytes :=
  header (bit fin 0x80 + opcode) true (zlen payload) ++ mask ++ unmask_from 0 mask payload.

(** How a client reads the length of a server's frame. *)
Definition read_length (b1 : byte) (buf : bytes) : option (Z * bytes) :=
  if decide (Z_of_byte b1 < 126) then Some (Z_of_byte b1, buf)
  else if decide (Z_of_byte b1 = 126) then
    guard (2 <= length buf)%nat;; Some (from_be_bytes (take 2 buf), drop 2 buf)
  else if decide (Z_of_byte b1 = 127) then
    guard (8 <= length buf)%nat;; Some (from_be_bytes (take 8 buf), drop 8 buf)
  else None.

(** How a client reads a frame of the server: opcode, payload, rest. *)
Definition read_server_frame (buf : bytes) : option (Z * bytes * bytes) :=
  match buf with
  | b0 :: b1 :: buf =>
    if decide (Z_of_byte b0 < 0x80) then None
    else
      '(len, buf) ← read_length b1 buf;
      guard (len <= zlen buf);;
      Some (Z_of_byte b0 - 0x80, take (Z.to_nat len) buf, drop (Z.to_nat len) buf)
  | _ => None
  end.

(** ** Lemmas: bytes *)

Lemma mod8_lxor a b : (Z.lxor a b) mod 2 ^ 8 = Z.lxor (a mod 2 ^ 8) (b mod 2 ^ 8).
Proof.
  apply Z.bits_inj'. intros i Hi. rewrite Z.lxor_spec.
  destruct (Z.ltb_spec i 8).
  - by rewrite !Z.mod_pow2_bits_low, Z.lxor_spec by lia.
  - by rewrite !Z.mod_pow2_bits_high by lia.
Qed.

Lemma xor_byte_involutive a m :
  byte_of_Z (Z.lxor (Z_of_byte (byte_of_Z (Z.lxor (Z_of_byte a) (Z_of_byte m)))) (Z_of_byte m)) = a.
Proof.
  apply (inj Z_of_byte). rewrite !Z_of_byte_of_Z. change 256 with (2 ^ 8).
  rewrite !mod8_lxor, !Z.mod_mod, Z.lxor_assoc, Z.lxor_nilpotent, Z.lxor_0_r by lia.
  pose proof (Z_of_byte_range a). pose proof (Z_of_byte_range m).
  by rewrite !Z.mod_small by (change (2 ^ 8) with 256; lia).
Qed.

Lemma unmask_involutive i mask p : unmask_from i mask (unmask_from i mask p) = p.
Proof.
  revert i. induction p as [|b p IH]; intros i; [done|]. cbn [unmask_from].
  by rewrite IH, xor_byte_involutive.
Qed.

Lemma length_unmask i mask p : length (unmask_from i mask p) = length p.
Proof. revert i. induction p; intros; cbn; auto. Qed.

Lemma byte_range_check (P : Z -> bool) lo hi :
  forallb P (seqZ lo (hi - lo)) = true -> forall z, lo <= z < hi -> P z = true.
Proof.
  intros H z Hz. rewrite forallb_forall in H. apply H.
  apply list_elem_of_In, elem_of_seqZ. lia.
Qed.

Lemma header_byte fin opcode :
  0 <= opcode < 16 ->
  let b0 := Z_of_byte (byte_of_Z (bit fin 0x80 + opcode)) in
  Z.land b0 0x70 = 0 /\ Z.land b0 0x0f = opcode /\
  bool_decide (Z.land b0 0x80 <> 0) = fin.
Proof.
  intros Ho. 
  assert (H := byte_range_check (fun z => let b0 := Z_of_byte (byte_of_Z (bit fin 0x80 + z)) in
    bool_decide (Z.land b0 0x70 = 0) && bool_decide (Z.land b0 0x0f = z) &&
    Bool.eqb (bool_decide (Z.land b0 0x80 <> 0)) fin) 0 16).
  specialize (H ltac:(destruct fin; vm_compute; reflexivity) opcode ltac:(lia)).
  cbv zeta in H. rewrite !andb_true_iff, !bool_decide_eq_true, Bool.eqb_true_iff in H. cbv zeta. tauto.
Qed.

Lemma length_byte n :
  0 <= n < 128 ->
  let b1 := Z_of_byte (byte_of_Z (0x80 + n)) in
  Z.land b1 0x80 <> 0 /\ Z.land b1 0x7f = n.
Proof.
  intros Hn.
  assert (H := byte_range_check (fun z => let b1 := Z_of_byte (byte_of_Z (0x80 + z)) in
    bool_decide (Z.land b1 0x80 <> 0) && bool_decide (Z.land b1 0x7f = z)) 0 128).
  specialize (H ltac:(vm_compute; reflexivity) n ltac:(lia)).
  cbv zeta in H. rewrite !andb_true_iff, !bool_decide_eq_true in H. cbv zeta. tauto.
Qed.

Lemma top_bit b : Z.land (Z_of_byte b) 0x80 <> 0 <-> 128 <= Z_of_byte b.
Proof.
  assert (H := byte_range_check (fun z =>
    Bool.eqb (negb (Z.land z 0x80 =? 0)) (128 <=? z)) 0 256).
  specialize (H ltac:(vm_compute; reflexivity) (Z_of_byte b) (Z_of_byte_range b)).
  apply Bool.eqb_prop in H. lia.
Qed.

(** ** Lemmas: parsing *)

Lemma from_be_top b l :
  Z_of_byte b < 128 -> length l = 7%nat -> 0 <= from_be_bytes (b :: l) < 2 ^ 63.
Proof.
  intros Hb Hl. rewrite from_be_cons. pose proof (from_be_range l). pose proof (Z_of_byte_range b).
  unfold zlen in *. rewrite Hl in *. change (256 ^ Z.of_nat 7) with 72057594037927936 in *.
  change (2 ^ 63) with 9223372036854775808. lia.
Qed.

(** The lengths a header can give: no sum with them wraps. *)
Lemma usize_sum offset len :
  0 <= offset <= 10 -> 0 <= len < 2 ^ 63 -> as_usize (offset + 4 + len) = offset + 4 + len.
Proof.
  intros. apply wrap_to_small. change (2 ^ 64) with (2 * 2 ^ 63). lia.
Qed.

Lemma parse_body_cases buf opcode fin len offset :
  0 <= offset <= 10 -> 0 <= len < 2 ^ 63 -> offset <= zlen buf ->
  (0x8 <= opcode /\ (fin = false \/ 125 < len) /\
    parse_body buf opcode fin len offset = (Protocol 1002, 0)) \/
  (0x8 <= opcode -> fin = true /\ len <= 125) /\
   ((zlen buf < offset + 4 + len /\ parse_body buf opcode fin len offset = (NeedMore, 0)) \/
    (offset + 4 + len <= zlen buf /\
     parse_body buf opcode fin len offset =
      (interpret opcode (unmask_from 0 (take 4 (drop (Z.to_nat offset) buf))
         (take (Z.to_nat len) (drop (Z.to_nat (offset + 4)) buf))), offset + 4 + len))).
Proof.
  intros Ho Hl Hb. unfold parse_body. rewrite usize_sum by done.
  destruct (bool_decide (0x8 <= opcode) && _) eqn:E.
  - left. apply andb_true_iff in E as [E1 E2]. apply bool_decide_eq_true in E1.
    split; [done|]. split; [|done].
    apply orb_true_iff in E2 as [E2|E2]; [left; by apply negb_true_iff|right].
    by apply bool_decide_eq_true in E2.
  - right. split.
    + intros H8. rewrite bool_decide_eq_true_2 in E by done. simpl in E.
      apply orb_false_iff in E as [E1 E2]. apply bool_decide_eq_false in E2.
      apply negb_false_iff in E1. split; [done|lia].
    + destruct (decide (zlen buf < offset + 4 + len)); [left; by split|right]. split; [lia|done].
Qed.

(** The header of a buffer, as the first checks of the parser see it: wait
    for more, refuse, or go on with a length and an offset. *)
Inductive head :=
| HeadMore
| HeadBad
| HeadLen (opcode : Z) (fin : bool) (len offset : Z).

Definition parse_head (buf : bytes) : head :=
  match buf with
  | b0 :: b1 :: _ =>
    let b0 := Z_of_byte b0 in
    let b1 := Z_of_byte b1 in
    if decide (Z.land b0 0x70 <> 0) then HeadBad
    else if decide (Z.land b1 0x80 = 0) then HeadBad
    else
      let opcode := Z.land b0 0x0f in
      let fin := bool_decide (Z.land b0 0x80 <> 0) in
      let len := Z.land b1 0x7f in
      if decide (len = 126) then
        if decide (zlen buf < 4) then HeadMore
        else HeadLen opcode fin (from_be_bytes (take 2 (drop 2 buf))) 4
      else if decide (len = 127) then
        if decide (zlen buf < 10) then HeadMore
        else if decide (Z.land (Z_of_byte (nth 2 buf x00)) 0x80 <> 0) then HeadBad
        else HeadLen opcode fin (from_be_bytes (take 8 (drop 2 buf))) 10
      else HeadLen opcode fin len 2
  | _ => HeadMore
  end.

Lemma parse_client_frame_head buf :
  parse_client_frame buf =
    match parse_head buf with
    | HeadMore => (NeedMore, 0)
    | HeadBad => (Protocol 1002, 0)
    | HeadLen opcode fin len offset => parse_body buf opcode fin len offset
    end.
Proof.
  unfold parse_client_frame, parse_head. destruct buf as [|b0 [|b1 l]]; [done..|].
  cbv zeta. repeat (case_decide; try done).
Qed.

Lemma parse_head_app buf more h :
  parse_head buf = h -> h <> HeadMore -> parse_head (buf ++ more) = h.
Proof.
  intros <-. destruct buf as [|b0 [|b1 l]]; [done..|]. cbn [app]. unfold parse_head. cbv zeta.
  case_decide; [done|]. case_decide; [done|].
  assert (Hz : zlen (b0 :: b1 :: l ++ more) = zlen (b0 :: b1 :: l) + zlen more) by len_solve.
  pose proof (zlen_nonneg more).
  case_decide.
  { case_decide; [done|]. intros _. rewrite decide_False by lia. cbn [skipn].
    rewrite !drop_0, take_app_le by len_solve. done. }
  case_decide; [|done]. destruct (decide (zlen (b0 :: b1 :: l) < 10)); [done|].
  rewrite (decide_False (P := zlen (b0 :: b1 :: l ++ more) < 10)) by lia.
  cbn [skipn nth]. rewrite !drop_0. destruct l as [|b2 l]; [len_solve|]. cbn [app nth].
  case_decide; [done|]. intros _. change (b2 :: l ++ more) with ((b2 :: l) ++ more).
  by rewrite take_app_le by len_solve.
Qed.

Lemma parse_head_bounds buf opcode fin len offset :
  parse_head buf = HeadLen opcode fin len offset ->
  2 <= offset <= 10 /\ 0 <= len < 2 ^ 63 /\ offset <= zlen buf.
Proof.
  unfold parse_head. destruct buf as [|b0 [|b1 l]]; [done..|]. cbv zeta. intros E.
  pose proof (zlen_nonneg l).
  assert (Hl : 0 <= Z.land (Z_of_byte b1) 0x7f < 128).
  { change 0x7f with (Z.ones 7). rewrite Z.land_ones by lia. apply Z.mod_pos_bound. lia. }
  destruct (decide (Z.land (Z_of_byte b0) 0x70 <> 0)); [done|].
  destruct (decide (Z.land (Z_of_byte b1) 0x80 = 0)); [done|].
  destruct (decide (Z.land (Z_of_byte b1) 0x7f = 126)).
  { destruct (decide (zlen (b0 :: b1 :: l) < 4)); [done|].
    simplify_eq. split; [lia|]. split; [|lia].
    pose proof (from_be_range (take 2 (drop 2 (b0 :: b1 :: l)))) as Hr.
    replace (zlen (take 2 (drop 2 (b0 :: b1 :: l)))) with 2 in Hr by len_solve.
    eapply (conj (proj1 Hr)), Z.lt_trans; [apply Hr|done]. }
  destruct (decide (Z.land (Z_of_byte b1) 0x7f = 127)).
  { destruct (decide (zlen (b0 :: b1 :: l) < 10)); [done|].
    destruct (decide (Z.land (Z_of_byte (nth 2 (b0 :: b1 :: l) x00)) 0x80 <> 0)); [done|].
    simplify_eq. split; [lia|]. split; [|lia]. cbn [skipn nth] in *. rewrite drop_0.
    destruct l as [|b2 l]; [len_solve|]. cbn [firstn nth] in *. apply from_be_top; [|len_solve].
    pose proof (top_bit b2). lia. }
  simplify_eq. rewrite !zlen_cons. change (2 ^ 63) with 9223372036854775808. lia.
Qed.

(** What the parser can say of a buffer. *)
Lemma parse_cases buf p c :
  parse_client_frame buf = (p, c) ->
  (p = NeedMore /\ c = 0) \/ (p = Protocol 1002 /\ c = 0) \/
  (6 <= c <= zlen buf /\ exists opcode payload,
     p = interpret opcode payload /\ (6 + zlen payload <= c) /\
     (0x8 <= opcode -> zlen payload <= 125)).
Proof.
  rewrite parse_client_frame_head. destruct (parse_head buf) as [| |opcode fin len offset] eqn:E;
    intros; simplify_eq; [by auto..|].
  apply parse_head_bounds in E as (Ho & Hl & Hb).
  destruct (parse_body_cases buf opcode fin len offset) as
    [(_ & _ & E)|[Hctl [[_ E]|[Hfit E]]]]; [lia|done|done|..];
    rewrite E in *; simplify_eq; [by auto..|].
  right; right. split; [lia|]. eexists opcode, _. split; [done|].
  unfold zlen. rewrite length_unmask, length_take, length_drop.
  unfold zlen in *. split; [lia|]. intros H8. specialize (Hctl H8). lia.
Qed.

(** A verdict stands however the buffer goes on. *)
Lemma parse_stable buf more p c :
  parse_client_frame buf = (p, c) -> p <> NeedMore ->
  parse_client_frame (buf ++ more) = (p, c).
Proof.
  rewrite !parse_client_frame_head. intros E Hp.
  destruct (parse_head buf) as [| |opcode fin len offset] eqn:Eh; [by simplify_eq|..];
    rewrite (parse_head_app _ _ _ Eh) by done; [done|].
  apply parse_head_bounds in Eh as (Ho & Hl & Hb).
  pose proof (zlen_nonneg more). pose proof (zlen_app buf more).
  destruct (parse_body_cases buf opcode fin len offset) as
    [(H8 & Hctl & E1)|[Hctl [[Hlt E1]|[Hfit E1]]]]; [lia|done|done|..].
  - destruct (parse_body_cases (buf ++ more) opcode fin len offset) as
      [(_ & _ & E2)|[Hn _]]; [lia|done|lia| |]; [congruence|].
    destruct (Hn H8) as [-> ?]. destruct Hctl; [done|lia].
  - rewrite E1 in E. by simplify_eq.
  - destruct (parse_body_cases (buf ++ more) opcode fin len offset) as
      [(H8 & Hn & E2)|[_ [[Hlt E2]|[_ E2]]]]; [lia|done|lia|..].
    + destruct (Hctl H8) as [-> ?]. destruct Hn; [done|lia].
    + lia.
    + rewrite E2, <- E, E1. f_equal. unfold zlen in *.
      rewrite !drop_app_le, !take_app_le by (rewrite ?length_drop; lia). done.
Qed.

Lemma header_len b0 n : 0 <= n -> zlen (header b0 true n) <= 10.
Proof. intros. unfold header. repeat case_decide; len_solve. Qed.

Lemma parse_head_header fin opcode n rest :
  0 <= opcode < 16 -> 0 <= n < 2 ^ 63 ->
  parse_head (header (bit fin 0x80 + opcode) true n ++ rest) =
    HeadLen opcode fin n (zlen (header (bit fin 0x80 + opcode) true n)).
Proof.
  intros Ho Hn. destruct (header_byte fin opcode Ho) as (H0 & H1 & H2).
  unfold header. change (bit true 0x80) with 0x80.
  assert (Hgo : forall l k, 0 <= k < 128 ->
    parse_head (byte_of_Z (bit fin 0x80 + opcode) :: byte_of_Z (0x80 + k) :: l) =
    let buf := byte_of_Z (bit fin 0x80 + opcode) :: byte_of_Z (0x80 + k) :: l in
    if decide (k = 126) then
      if decide (zlen buf < 4) then HeadMore
      else HeadLen opcode fin (from_be_bytes (take 2 l)) 4
    else if decide (k = 127) then
      if decide (zlen buf < 10) then HeadMore
      else if decide (Z.land (Z_of_byte (nth 0 l x00)) 0x80 <> 0) then HeadBad
      else HeadLen opcode fin (from_be_bytes (take 8 l)) 10
    else HeadLen opcode fin k 2).
  { intros l k Hk. unfold parse_head. destruct (length_byte k Hk) as (H3 & H4).
    cbv zeta in *. rewrite decide_False by (rewrite H0; tauto). rewrite decide_False by done.
    rewrite H1, H2, H4. cbn [skipn nth]. by rewrite drop_0. }
  destruct (decide (n < 126)) as [Hs|Hs]; [|destruct (decide (n < 65536)) as [Hm|Hm]]; cbn [app].
  - rewrite Hgo by lia; cbv zeta. rewrite !decide_False by lia. done.
  - rewrite Hgo by lia; cbv zeta. rewrite decide_True, decide_False by len_solve. f_equal.
    rewrite take_app_length' by len_solve.
    apply from_to_be_small. change (256 ^ Z.of_nat 2) with 65536. lia.
  - rewrite Hgo by lia; cbv zeta. rewrite decide_False, decide_True, decide_False by len_solve.
    assert (Hb : from_be_bytes (to_be_bytes 8 n) = n).
    { apply from_to_be_small. change (256 ^ Z.of_nat 8) with (2 * 2 ^ 63). lia. }
    rewrite decide_False.
    + f_equal. by rewrite take_app_length' by len_solve.
    + rewrite top_bit. destruct (to_be_bytes 8 n) as [|b l] eqn:El.
      { apply (f_equal length) in El. by rewrite length_to_be_bytes in El. }
      cbn [app nth]. assert (Hlen : length l = 7%nat).
      { apply (f_equal length) in El. rewrite length_to_be_bytes in El. simpl in El. lia. }
      rewrite from_be_cons in Hb. pose proof (from_be_range l) as Hr. unfold zlen in *.
      rewrite Hlen in *. change (256 ^ Z.of_nat 7) with 72057594037927936 in *.
      change (2 ^ 63) with 9223372036854775808 in *. lia.
Qed.

Lemma parse_client_frame_ok fin opcode mask payload rest :
  0 <= opcode < 16 -> length mask = 4%nat -> zlen payload < 2 ^ 63 ->
  (0x8 <= opcode -> fin = true /\ zlen payload <= 125) ->
  parse_client_frame (client_frame fin opcode mask payload ++ rest) =
    (interpret opcode payload, zlen (client_frame fin opcode mask payload)).
Proof.
  intros Ho Hm Hp Hctl. pose proof (zlen_nonneg payload) as Hp0.
  unfold client_frame. rewrite <- !app_assoc, parse_client_frame_head.
  rewrite parse_head_header by done.
  set (h := header _ _ _). assert (Hh : 0 <= zlen h <= 10)
    by (split; [apply zlen_nonneg|by apply header_len]).
  pose proof (zlen_nonneg rest).
  assert (Hz : zlen (h ++ mask ++ unmask_from 0 mask payload ++ rest) =
    zlen h + 4 + zlen payload + zlen rest)
    by (rewrite !zlen_app; unfold zlen; rewrite length_unmask; lia).
  destruct (parse_body_cases (h ++ mask ++ unmask_from 0 mask payload ++ rest)
    opcode fin (zlen payload) (zlen h)) as [(H8 & Hn & _)|[_ [[Hlt _]|[_ E]]]]; [lia|lia|lia|..].
  - destruct (Hctl H8) as [-> ?]. destruct Hn; [done|lia].
  - lia.
  - rewrite E. f_equal.
    + f_equal. etrans; [|exact (unmask_involutive 0 mask payload)]. unfold zlen.
      rewrite Z2Nat.inj_add, !Nat2Z.id by lia. change (Z.to_nat 4) with 4%nat.
      rewrite <- drop_drop, !drop_app_length, drop_app_length' by done. f_equal.
      * by rewrite take_app_length'.
      * by rewrite take_app_length' by by rewrite length_unmask.
    + rewrite !zlen_app. unfold zlen. rewrite length_unmask. lia.
Qed.

(** ** Theorems *)

(** The server reads exactly what a client sends.  From a buffer that
    starts with a client's frame, of any length form, the parser gives the
    frame's meaning with the payload unmasked and consumes the frame alone;
    and on every strict prefix of the frame it asks for more and consumes
    nothing. *)
Theorem client_frame_parses fin opcode mask payload rest k :
  0 <= opcode < 16 -> length mask = 4%nat -> zlen payload < 2 ^ 63 ->
  (0x8 <= opcode -> fin = true /\ zlen payload <= 125) ->
  parse_client_frame (client_frame fin opcode mask payload ++ rest) =
    (interpret opcode payload, zlen (client_frame fin opcode mask payload)) /\
  ((k < length (client_frame fin opcode mask payload))%nat ->
   parse_client_frame (take k (client_frame fin opcode mask payload)) = (NeedMore, 0)).
Proof.
  intros Ho Hm Hp Hctl. split; [by apply parse_client_frame_ok|]. intros Hk.
  set (f := client_frame fin opcode mask payload) in *.
  destruct (parse_client_frame (take k f)) as [p c] eqn:E.
  assert (Hf : parse_client_frame f = (interpret opcode payload, zlen f)).
  { rewrite <- (app_nil_r f) at 1. by apply parse_client_frame_ok. }
  destruct (parse_cases _ _ _ E) as [[-> ->]|H]; [done|].
  assert (Hp' : p <> NeedMore).
  { destruct H as [[-> _]|(_ & op & pl & -> & _)]; [done|].
    unfold interpret. by repeat case_decide. }
  pose proof (parse_stable _ (drop k f) _ _ E Hp') as E'.
  rewrite take_drop, Hf in E'. injection E' as <- <-. unfold zlen in H.
  destruct H as [[_ H]|(H & _)]; [lia|]. unfold zlen in H. rewrite length_take in H. lia.
Qed.

Definition sample_mask : bytes := [xa1; xb2; xc3; xd4].

Lemma client_frame_parses_witness :
  parse_client_frame (client_frame true OP_BIN sample_mask (replicate 200 x61) ++ [x62]) =
    (Data (replicate 200 x61), 208) /\
  parse_client_frame (take 100 (client_frame true OP_BIN sample_mask (replicate 200 x61))) =
    (NeedMore, 0).
Proof.
  destruct (client_frame_parses true OP_BIN sample_mask (replicate 200 x61) [x62] 100)
    as [H1 H2]; [done|done|done|done|].
  split; [exact H1|]. apply H2. apply Nat.ltb_lt. reflexivity.
Defined.

(** The parser is sound on any input, hostile ones included: it never
    consumes more than is buffered (the length arithmetic does not wrap, no
    index is out of range), consumes at least a header and a mask when it
    consumes anything, holds control frames to 125 bytes, and a verdict it
    gives is the one it gives however the buffer goes on. *)
Theorem parser_sound buf more p c :
  parse_client_frame buf = (p, c) ->
  (c = 0 \/ 6 <= c <= zlen buf) /\
  (c = 0 -> p = NeedMore \/ p = Protocol 1002) /\
  (forall q, p = Data q \/ p = Ping q -> zlen q + 6 <= c) /\
  (forall q, p = Ping q -> zlen q <= 125) /\
  (p <> NeedMore -> parse_client_frame (buf ++ more) = (p, c)).
Proof.
  intros E. split_and!; [..|intros; by apply parse_stable];
    destruct (parse_cases _ _ _ E) as [[-> ->]|[[-> ->]|(H & op & pl & -> & Hl & Hctl)]];
    try (by auto); try (intros; naive_solver lia).
  - intros q Hq. replace q with pl; [lia|]. revert Hq. unfold interpret. repeat case_decide; naive_solver.
  - intros q Hq. unfold interpret in Hq. repeat case_decide; simplify_eq. apply Hctl. done.
Qed.

Lemma parser_sound_witness :
  parse_client_frame [x82; xff; x80; x00; x00; x00; x00; x00; x00; x00; x61] = (Protocol 1002, 0) /\
  parse_client_frame ([x82; xff; x80; x00; x00; x00; x00; x00; x00; x00; x61] ++ [x62]) =
    (Protocol 1002, 0).
Proof.
  split; [vm_compute; reflexivity|].
  refine (proj2 (proj2 (proj2 (proj2 (parser_sound
    [x82; xff; x80; x00; x00; x00; x00; x00; x00; x00; x61] [x62] (Protocol 1002) 0 _)))) _).
  - vm_compute. reflexivity.
  - discriminate.
Defined.

Lemma server_opcode_byte opcode :
  0 <= opcode < 16 -> Z_of_byte (byte_of_Z (Z.lor 0x80 opcode)) = 0x80 + opcode.
Proof.
  intros Ho. assert (H := byte_range_check (fun z =>
    Z_of_byte (byte_of_Z (Z.lor 0x80 z)) =? 0x80 + z) 0 16 ltac:(vm_compute; reflexivity) opcode).
  apply Z.eqb_eq, H. lia.
Qed.

Lemma server_frame_header opcode payload :
  0 <= opcode < 16 -> zlen payload < 2 ^ 64 ->
  server_frame opcode payload = header (0x80 + opcode) false (zlen payload) ++ payload.
Proof.
  intros Ho Hp. pose proof (zlen_nonneg payload).
  assert (Hhead : byte_of_Z (Z.lor 0x80 opcode) = byte_of_Z (0x80 + opcode)).
  { apply (inj Z_of_byte). rewrite server_opcode_byte, Z_of_byte_of_Z by done.
    symmetry. apply Z.mod_small. lia. }
  unfold server_frame, header. rewrite Hhead. cbn [app bit]. f_equal. f_equal.
  repeat case_decide; rewrite ?wrap_to_small; try done; change (2 ^ 16) with 65536; lia.
Qed.

Lemma read_length_header b0 n l :
  0 <= n < 2 ^ 64 ->
  exists b1 ext, header b0 false n = byte_of_Z b0 :: b1 :: ext /\
    read_length b1 (ext ++ l) = Some (n, l).
Proof.
  intros Hn. unfold header, read_length. cbn [bit].
  assert (E126 : Z_of_byte (byte_of_Z (0 + 126)) = 126) by (vm_compute; reflexivity).
  assert (E127 : Z_of_byte (byte_of_Z (0 + 127)) = 127) by (vm_compute; reflexivity).
  destruct (decide (n < 126)) as [Hs|Hs]; [|destruct (decide (n < 65536)) as [Hm|Hm]];
    eexists _, _; (split; [reflexivity|]).
  - rewrite Z_of_byte_of_Z, Z.mod_small, decide_True by lia. done.
  - rewrite E126, decide_False, decide_True by lia. rewrite option_guard_True by len_solve.
    rewrite take_app_length', drop_app_length' by by rewrite length_to_be_bytes.
    rewrite from_to_be_small; [done|]. change (256 ^ Z.of_nat 2) with 65536. lia.
  - rewrite E127, !decide_False, decide_True by lia. rewrite option_guard_True by len_solve.
    rewrite take_app_length', drop_app_length' by by rewrite length_to_be_bytes.
    by rewrite from_to_be_small.
Qed.

Lemma read_server_frame_ok opcode payload rest :
  0 <= opcode < 16 -> zlen payload < 2 ^ 64 ->
  read_server_frame (server_frame opcode payload ++ rest) = Some (opcode, payload, rest).
Proof.
  intros Ho Hp. pose proof (zlen_nonneg payload). pose proof (zlen_nonneg rest).
  rewrite server_frame_header, <- app_assoc by done.
  destruct (read_length_header (0x80 + opcode) (zlen payload) (payload ++ rest))
    as (b1 & ext & -> & El); [lia|].
  unfold read_server_frame. cbn [app].
  rewrite Z_of_byte_of_Z, Z.mod_small, decide_False, El by lia. cbn [mbind option_bind].
  rewrite option_guard_True by (rewrite zlen_app; lia). cbn [mbind option_bind].
  unfold zlen. rewrite Nat2Z.id, take_app_length, drop_app_length.
  by rewrite Z.add_simpl_l.
Qed.

(** ** Sequences of frames

    What an adapter has sent, as the opcodes and payloads of whole frames. *)

Definition whole (frames : list (Z * bytes)) : bytes :=
  mjoin ((fun f => server_frame f.1 f.2) <$> frames).

Definition of_opcode (c : Z) (frames : list (Z * bytes)) : list bytes :=
  (filter (fun f => f.1 = c) frames).*2.

Lemma whole_app fs gs : whole (fs ++ gs) = whole fs ++ whole gs.
Proof. unfold whole. by rewrite fmap_app, join_app. Qed.

Lemma of_opcode_app c fs gs : of_opcode c (fs ++ gs) = of_opcode c fs ++ of_opcode c gs.
Proof. unfold of_opcode. by rewrite filter_app, fmap_app. Qed.

(** How a client reads a sequence of frames; [None] when the bytes are not
    one. *)
Fixpoint read_server_frames (fuel : nat) (buf : bytes) : option (list (Z * bytes)) :=
  match fuel with
  | O => None
  | S fuel =>
    match buf with
    | [] => Some []
    | _ =>
      '(opcode, payload, buf) ← read_server_frame buf;
      frames ← read_server_frames fuel buf;
      Some ((opcode, payload) :: frames)
    end
  end.

Definition readable (f : Z * bytes) : Prop := 0 <= f.1 < 16 /\ zlen f.2 < 2 ^ 64.

Lemma server_frame_cons opcode payload : exists b l, server_frame opcode payload = b :: l.
Proof. by eexists _, _. Qed.

Lemma read_whole frames fuel :
  Forall readable frames -> (length frames < fuel)%nat ->
  read_server_frames fuel (whole frames) = Some frames.
Proof.
  intros Hf. revert fuel. induction Hf as [|[c p] frames [Hc Hp] Hf IH]; intros fuel Hl.
  { by destruct fuel; [simpl in *; lia|]. }
  destruct fuel as [|fuel]; [simpl in *; lia|]. cbn [read_server_frames].
  change (whole ((c, p) :: frames)) with (server_frame c p ++ whole frames).
  pose proof (read_server_frame_ok c p (whole frames) Hc Hp) as E.
  destruct (server_frame_cons c p) as (b & l & Eb). rewrite Eb in *. cbn [app] in *. rewrite E.
  cbn [mbind option_bind]. rewrite IH by (simpl in *; lia). done.
Qed.

(** A client reads back each frame the server writes: the opcode, the
    payload and nothing of what follows, for every payload whose length a
    [u64] holds; the frame is final and unmasked and uses the shortest length
    form. *)
Theorem server_frame_roundtrip opcode payload rest :
  0 <= opcode < 16 -> zlen payload < 2 ^ 64 ->
  read_server_frame (server_frame opcode payload ++ rest) = Some (opcode, payload, rest) /\
  server_frame opcode payload = header (0x80 + opcode) false (zlen payload) ++ payload.
Proof. intros. split; [by apply read_server_frame_ok|by apply server_frame_header]. Qed.

Lemma server_frame_roundtrip_witness :
  read_server_frame (server_frame OP_BIN (replicate 126 x61) ++ [x62]) =
    Some (OP_BIN, replicate 126 x61, [x62]).
Proof.
  refine (proj1 (server_frame_roundtrip OP_BIN (replicate 126 x61) [x62] _ _)); vm_compute; auto.
  split; [discriminate|reflexivity].
Defined.
