(* ===== verification/WsStream.v ===== *)
(** * WsStream: the WebSocket adapter of the synchronous crate

    Models [WsStream] of [rust-lib-sync/src/ws.rs] over any transport with
    the [Read] and [Write] interfaces of [Io], and makes it an instance of
    both, so that what is proved of readers and writers holds over a
    WebSocket too.  [decode] is the specification: what the bytes a client
    sends mean as one stream, however they are cut into reads. *)

From S2P Require Import Prelude Io WsFrame.
From Stdlib Require Import Strings.Byte.

(** ** State *)

Record WsStream (S : Type) := mkWs {
  inner : S;
  rawbuf : bytes;
  payload : bytes;
  payload_pos : nat;
  close_sent : bool;
  eof : bool;
}.
Arguments mkWs {S} _ _ _ _ _ _.
Arguments inner {S} _.
Arguments rawbuf {S} _.
Arguments payload {S} _.
Arguments payload_pos {S} _.
Arguments close_sent {S} _.
Arguments eof {S} _.

(** The length of [chunk], the scratch buffer for inner reads. *)
Definition chunk_len : nat := 16 * 1024.

Section Stream.
Context {T : Type} `{!Read T, !Write T}.
Implicit Type w : WsStream T.

Definition with_inner (i : T) w :=
  mkWs i (rawbuf w) (payload w) (payload_pos w) (close_sent w) (eof w).
Definition with_rawbuf b w :=
  mkWs (inner w) b (payload w) (payload_pos w) (close_sent w) (eof w).
Definition with_payload p k w :=
  mkWs (inner w) (rawbuf w) p k (close_sent w) (eof w).
Definition with_close_sent w :=
  mkWs (inner w) (rawbuf w) (payload w) (payload_pos w) true (eof w).
Definition with_eof w :=
  mkWs (inner w) (rawbuf w) (payload w) (payload_pos w) (close_sent w) true.

(** ** Operations *)

Definition new (i : T) (leftover : bytes) : WsStream T :=
  mkWs i leftover [] 0 false false.

(** [self.rawbuf.drain(..consumed)]. *)
Definition drain (consumed : Z) w : WsStream T :=
  with_rawbuf (drop (Z.to_nat consumed) (rawbuf w)) w.

(** Both results are ignored. *)
Definition send_close w (code : Z) : option (WsStream T) :=
  if close_sent w then Some w
  else
    let w := with_close_sent w in
    '(i, _) ← write_all (inner w) (server_frame OP_CLOSE (to_be_bytes 2 code));
    Some (with_inner (flush i).1 w).

(** [None] is fuel exhaustion, here and below; [ws_read_total] excludes it. *)
Fixpoint pump_loop (fuel : nat) w : option (WsStream T * io_result bool) :=
  match fuel with
  | O => None
  | S fuel =>
    let '(parsed, consumed) := parse_client_frame (rawbuf w) in
    match parsed with
    | NeedMore => Some (w, Ok false)
    | Data p =>
      let w := drain consumed w in
      Some (with_payload (payload w ++ p) (payload_pos w) w, Ok true)
    | Ping p =>
      let w := drain consumed w in
      '(i, r) ← write_all (inner w) (server_frame OP_PONG p);
      match r with
      | Err e => Some (with_inner i w, Err e)
      | Ok _ =>
        let '(i, r) := flush i in
        match r with
        | Err e => Some (with_inner i w, Err e)
        | Ok _ => pump_loop fuel (with_inner i w)
        end
      end
    | Pong => pump_loop fuel (drain consumed w)
    | Close code =>
      w ← send_close (drain consumed w) code;
      Some (with_eof w, Ok true)
    | Protocol code =>
      w ← send_close w code;
      Some (with_eof w, Ok true)
    end
  end.

Definition pump w : option (WsStream T * io_result bool) :=
  pump_loop (S (length (rawbuf w))) w.

Fixpoint ws_read_loop (fuel : nat) w (n : nat) : option (WsStream T * io_result bytes) :=
  match fuel with
  | O => None
  | S fuel =>
    if decide (payload_pos w < length (payload w)) then
      let k := n `min` (length (payload w) - payload_pos w) in
      let out := take k (drop (payload_pos w) (payload w)) in
      let pos := payload_pos w + k in
      let w := if decide (pos = length (payload w)) then with_payload [] 0 w
               else with_payload (payload w) pos w in
      Some (w, Ok out)
    else if eof w then Some (w, Ok [])
    else
      '(w, r) ← pump w;
      match r with
      | Err e => Some (w, Err e)
      | Ok true => ws_read_loop fuel w n
      | Ok false =>
        let '(i, r) := read (inner w) chunk_len in
        let w := with_inner i w in
        match r with
        | Err e => Some (w, Err e)
        | Ok [] => Some (with_eof w, Ok [])
        | Ok bs => ws_read_loop fuel (with_rawbuf (rawbuf w ++ bs) w) n
        end
      end
  end.

(** The bytes held and those still to come, and whether the end was seen. *)
Definition ws_fuel w : nat :=
  (length (payload w) - payload_pos w) + length (rawbuf w) + 2 * read_fuel (inner w) +
  (if eof w then 0 else 1).

(** [Read::read]. *)
Definition ws_read w (n : nat) : option (WsStream T * io_result bytes) :=
  ws_read_loop (S (S (ws_fuel w))) w n.

(** [Write::write]: the whole slice becomes one binary frame. *)
Definition ws_write w (data : bytes) : option (WsStream T * io_result nat) :=
  '(i, r) ← write_all (inner w) (server_frame OP_BIN data);
  Some (with_inner i w, match r with Ok _ => Ok (length data) | Err e => Err e end).

Definition ws_flush w : WsStream T * io_result () :=
  let '(i, r) := flush (inner w) in (with_inner i w, r).

(** ** Termination: every call returns, and reads use up what is to come *)

Context `{!ReadLaws T, !WriteLaws T, !DuplexLaws T}.

Lemma send_close_fuel w code :
  exists w', send_close w code = Some w' /\ ws_fuel w' <= ws_fuel w /\
    eof w' = eof w /\ rawbuf w' = rawbuf w /\ payload w' = payload w /\
    payload_pos w' = payload_pos w.
Proof.
  unfold send_close. destruct (close_sent w); [by exists w|].
  destruct (write_all_total (inner (with_close_sent w)) (server_frame OP_CLOSE (to_be_bytes 2 code)))
    as [[i r] E]. rewrite E. cbn [mbind option_bind]. eexists. split; [done|].
  apply write_all_reads in E. pose proof (flush_reads i). unfold ws_fuel. cbn in *.
  split; [lia|done].
Qed.

Lemma parse_spends w p c :
  parse_client_frame (rawbuf w) = (p, c) -> p <> NeedMore -> p <> Protocol 1002 ->
  length (rawbuf (drain c w)) + (6 + match p with Data q => length q | _ => 0 end)
    <= length (rawbuf w).
Proof.
  intros E H1 H2. unfold drain. cbn [rawbuf with_rawbuf].
  destruct (parse_cases _ _ _ E) as [[-> _]|[[-> _]|(Hc & op & pl & -> & Hl & _)]]; [done..|].
  rewrite length_drop. unfold zlen in *.
  assert (match interpret op pl with Data q => length q | _ => 0 end <= length pl).
  { unfold interpret. repeat case_decide; lia. }
  lia.
Qed.

Lemma pump_loop_total fuel w :
  length (rawbuf w) < fuel -> eof w = false ->
  exists w' r, pump_loop fuel w = Some (w', r) /\
    match r with
    | Ok false => ws_fuel w' <= ws_fuel w /\ eof w' = false
    | _ => ws_fuel w' < ws_fuel w
    end.
Proof.
  revert w. induction fuel as [|fuel IH]; intros w Hf He; [lia|]. cbn [pump_loop].
  destruct (parse_client_frame (rawbuf w)) as [p c] eqn:E.
  pose proof (parse_spends w p c E) as Hs.
  assert (Hd : forall k, length (rawbuf (drain c w)) + k <= length (rawbuf w) ->
    ws_fuel (drain c w) + k <= ws_fuel w) by (intros k; unfold ws_fuel; cbn; lia).
  destruct p as [p|p| |code| |code].
  - specialize (Hs ltac:(done) ltac:(done)). apply (Hd (6 + length p)) in Hs as Hs'.
    eexists _, _. split; [done|]. revert Hs'. unfold ws_fuel. cbn. rewrite length_app. lia.
  - specialize (Hs ltac:(done) ltac:(done)). apply (Hd 6) in Hs as Hs'.
    destruct (write_all_total (inner (drain c w)) (server_frame OP_PONG p)) as [[i r] Ew].
    rewrite Ew. cbn [mbind option_bind]. apply write_all_reads in Ew.
    assert (Hi : ws_fuel (with_inner i (drain c w)) <= ws_fuel (drain c w))
      by (unfold ws_fuel; cbn in *; lia).
    destruct r as [[]|e]; [|eexists _, _; split; [done|]; cbv beta iota; lia].
    destruct (flush i) as [i' r] eqn:Ef. pose proof (flush_reads i) as Hfl. rewrite Ef in Hfl.
    assert (Hi' : ws_fuel (with_inner i' (drain c w)) <= ws_fuel (with_inner i (drain c w)))
      by (unfold ws_fuel; cbn in *; lia).
    destruct r as [[]|e]; [|eexists _, _; split; [done|]; cbv beta iota; lia].
    destruct (IH (with_inner i' (drain c w))) as (w' & r & -> & H); [cbn in *; lia|done|].
    exists w', r. split; [done|].
    destruct r as [[]|e]; [lia|destruct H; split; [lia|done]|lia].
  - specialize (Hs ltac:(done) ltac:(done)). apply (Hd 6) in Hs as Hs'.
    destruct (IH (drain c w)) as (w' & r & -> & H); [lia|done|].
    exists w', r. split; [done|].
    destruct r as [[]|e]; [lia|destruct H; split; [lia|done]|lia].
  - specialize (Hs ltac:(done) ltac:(done)). apply (Hd 6) in Hs as Hs'.
    destruct (send_close_fuel (drain c w) code) as (w' & -> & Hw & He' & Hr & Hp & Hpos).
    cbn [mbind option_bind]. eexists _, _. split; [done|].
    revert Hw Hs'. unfold ws_fuel. cbn. rewrite He', He. lia.
  - eexists _, _. split; [done|]. done.
  - destruct (send_close_fuel w code) as (w' & -> & Hw & He' & Hr & Hp & Hpos).
    cbn [mbind option_bind]. eexists _, _. split; [done|].
    revert Hw. unfold ws_fuel. cbn. rewrite He', He. lia.
Qed.

Lemma ws_read_loop_total fuel w n :
  ws_fuel w < fuel ->
  exists w' r, ws_read_loop fuel w n = Some (w', r) /\
    match r with
    | Ok bs => length bs <= n /\ ws_fuel w' + length bs <= ws_fuel w
    | Err _ => ws_fuel w' < ws_fuel w
    end.
Proof.
  revert w. induction fuel as [|fuel IH]; intros w Hf; [lia|]. cbn [ws_read_loop].
  destruct (decide (payload_pos w < length (payload w))) as [Hp|Hp].
  { eexists _, _. split; [done|]. cbv beta iota zeta.
    rewrite length_take, length_drop. split; [lia|].
    unfold ws_fuel. case_decide; cbn; lia. }
  destruct (eof w) eqn:He; [eexists _, _; split; [done|]; cbn; lia|].
  destruct (pump_loop_total (S (length (rawbuf w))) w ltac:(lia) He) as (w1 & r & E & H1).
  unfold pump. rewrite E. cbn [mbind option_bind].
  destruct r as [[]|e]; [| |by eexists _, _].
  { destruct (IH w1 ltac:(lia)) as (w2 & r & -> & H2). eexists _, _. split; [done|].
    destruct r; [|lia]. destruct H2. split; lia. }
  destruct H1 as [H1 He1]. destruct (read (inner w1) chunk_len) as [i r] eqn:Er.
  destruct r as [[|b bs]|e].
  - apply read_spends in Er. eexists _, _. split; [done|]. split; [simpl; lia|].
    revert H1. unfold ws_fuel. cbn in *. rewrite He1, He. lia.
  - apply read_spends in Er.
    assert (Hlt : ws_fuel (with_rawbuf (rawbuf (with_inner i w1) ++ b :: bs) (with_inner i w1)) < ws_fuel w).
    { revert H1. unfold ws_fuel. cbn in *. rewrite length_app. cbn. lia. }
    edestruct IH as (w2 & r & -> & H2); [eapply Nat.lt_le_trans; [exact Hlt|lia]|].
    eexists _, _. split; [done|]. destruct r; [|lia]. destruct H2. split; lia.
  - apply read_fails in Er. eexists _, _. split; [done|].
    revert H1. unfold ws_fuel. cbn in *. lia.
Qed.

Lemma ws_read_returns w n :
  exists w' r, ws_read w n = Some (w', r) /\
    match r with
    | Ok bs => length bs <= n /\ ws_fuel w' + length bs <= ws_fuel w
    | Err _ => ws_fuel w' < ws_fuel w
    end.
Proof. apply ws_read_loop_total. lia. Qed.
End Stream.

(** ** The adapter is a transport *)

#[export] Instance ws_Read `{!Read T, !Write T} : Read (WsStream T) := {
  read w n := default (w, Err OtherError) (ws_read w n);
  read_fuel := ws_fuel;
}.

#[export] Instance ws_Write `{!Read T, !Write T} : Write (WsStream T) := {
  write w data := default (w, Err OtherError) (ws_write w data);
  flush := ws_flush;
  write_fuel _ := 0;
}.

#[export] Instance ws_ReadLaws
    `{!Read T, !Write T, !ReadLaws T, !WriteLaws T, !DuplexLaws T} : ReadLaws (WsStream T).
Proof.
  split; cbn [read ws_Read read_fuel]; intros w n w' r E;
    destruct (ws_read_returns w n) as (w1 & r1 & E1 & H); rewrite E1 in E; simpl in E;
    simplify_eq; naive_solver.
Qed.

#[export] Instance ws_WriteLaws
    `{!Read T, !Write T, !WriteLaws T} : WriteLaws (WsStream T).
Proof.
  split; cbn [write ws_Write write_fuel]; unfold ws_write; intros w data w';
    destruct (write_all_total (inner w) (server_frame OP_BIN data)) as [[i r] E];
    rewrite E; cbn [mbind option_bind default]; destruct r as [[]|e]; intros; simplify_eq/=; try lia.
  by apply write_all_not_interrupted in E.
Qed.

#[export] Instance ws_DuplexLaws
    `{!Read T, !Write T, !WriteLaws T, !DuplexLaws T} : DuplexLaws (WsStream T).
Proof.
  split; cbn [write ws_Write read_fuel ws_Read flush].
  - intros w buf w' r. unfold ws_write.
    destruct (write_all_total (inner w) (server_frame OP_BIN buf)) as [[i res] E].
    rewrite E. cbn. intros. simplify_eq. apply write_all_reads in E.
    unfold ws_fuel. cbn. lia.
  - intros w. unfold ws_flush. pose proof (flush_reads (inner w)).
    destruct (flush (inner w)) as [i r]. unfold ws_fuel. cbn in *. lia.
Qed.

(** ** The specification: what a client's bytes mean *)

(** The payload the bytes carry and the frames they make the server answer:
    data payloads concatenated and a pong per ping, up to the first close or
    violation, which is answered with a close; a frame that is not complete
    means nothing yet. *)
Fixpoint decode_fuel (fuel : nat) (buf : bytes) : bytes * bytes :=
  match fuel with
  | O => ([], [])
  | S fuel =>
    match parse_client_frame buf with
    | (NeedMore, _) => ([], [])
    | (Data p, c) => let '(d, r) := decode_fuel fuel (drop (Z.to_nat c) buf) in (p ++ d, r)
    | (Ping p, c) =>
      let '(d, r) := decode_fuel fuel (drop (Z.to_nat c) buf) in (d, server_frame OP_PONG p ++ r)
    | (Pong, c) => decode_fuel fuel (drop (Z.to_nat c) buf)
    | (Close code, _) | (Protocol code, _) =>
      ([], server_frame OP_CLOSE (to_be_bytes 2 code))
    end
  end.

Definition decode (buf : bytes) : bytes * bytes := decode_fuel (S (length buf)) buf.
Arguments decode : simpl never.

Lemma parse_rest buf p c :
  parse_client_frame buf = (p, c) -> p <> NeedMore -> p <> Protocol 1002 ->
  length (drop (Z.to_nat c) buf) < length buf /\ Z.to_nat c <= length buf.
Proof.
  intros E H1 H2. destruct (parse_cases _ _ _ E) as [[-> _]|[[-> _]|(Hc & _)]]; [done..|].
  rewrite length_drop. unfold zlen in *. lia.
Qed.

Lemma decode_fuel_irrel fuel buf : length buf < fuel -> decode_fuel fuel buf = decode buf.
Proof.
  unfold decode. revert fuel. induction buf as [buf IH] using (induction_ltof1 _ (@length byte)).
  assert (Hgo : forall f1 f2, length buf < S f1 -> length buf < S f2 ->
    decode_fuel (S f1) buf = decode_fuel (S f2) buf).
  { intros f1 f2 H1 H2. cbn [decode_fuel].
    destruct (parse_client_frame buf) as [p c] eqn:E.
    pose proof (parse_rest buf p c E) as Hr.
    destruct p; try done; destruct (Hr ltac:(done) ltac:(done)) as [Hlt _];
      rewrite (IH (drop _ _) Hlt f1), (IH (drop _ _) Hlt f2) by lia; done. }
  intros [|fuel] Hf; [lia|]. apply Hgo; lia.
Qed.

(** The specification as one equation. *)
Lemma decode_eq buf p c :
  parse_client_frame buf = (p, c) ->
  decode buf =
    match p with
    | NeedMore => ([], [])
    | Data p => let '(d, r) := decode (drop (Z.to_nat c) buf) in (p ++ d, r)
    | Ping p => let '(d, r) := decode (drop (Z.to_nat c) buf) in (d, server_frame OP_PONG p ++ r)
    | Pong => decode (drop (Z.to_nat c) buf)
    | Close code | Protocol code => ([], server_frame OP_CLOSE (to_be_bytes 2 code))
    end.
Proof.
  intros E. unfold decode at 1. cbn [decode_fuel]. rewrite E.
  pose proof (parse_rest buf p c E) as Hr.
  destruct p; try done; destruct (Hr ltac:(done) ltac:(done)) as [Hlt _];
    by rewrite decode_fuel_irrel by done.
Qed.

(** A frame at the front of a buffer, whatever follows. *)
Lemma decode_app_eq buf more p c :
  parse_client_frame buf = (p, c) -> p <> NeedMore ->
  decode (buf ++ more) =
    match p with
    | NeedMore => ([], [])
    | Data p => let '(d, r) := decode (drop (Z.to_nat c) buf ++ more) in (p ++ d, r)
    | Ping p =>
      let '(d, r) := decode (drop (Z.to_nat c) buf ++ more) in (d, server_frame OP_PONG p ++ r)
    | Pong => decode (drop (Z.to_nat c) buf ++ more)
    | Close code | Protocol code => ([], server_frame OP_CLOSE (to_be_bytes 2 code))
    end.
Proof.
  intros E Hp. rewrite (decode_eq _ p c) by by apply parse_stable.
  pose proof (parse_rest buf p c E Hp) as Hr.
  destruct p; try done; destruct (Hr ltac:(done)) as [_ Hle]; by rewrite drop_app_le.
Qed.

(** ** The adapter over a connection *)

(** What a stream still has to give: payload, and what will have been sent,
    when [more] is still to arrive. *)
Definition future (w : WsStream Tcp) (more : bytes) : bytes * bytes :=
  let '(d, r) := if eof w then ([], []) else decode (rawbuf w ++ more) in
  (drop (payload_pos w) (payload w) ++ d, sent (inner w) ++ r).

Record ws_inv (w : WsStream Tcp) : Prop := {
  wi_tx : tx (inner w) = [];
  wi_close : close_sent w = true -> eof w = true;
  wi_pos : payload_pos w <= length (payload w);
}.

Lemma write_all_clear r o b :
  write_all (mkTcp r [] o) b = Some (mkTcp r [] (o ++ b), Ok tt).
Proof.
  unfold write_all. cbn [write_fuel tcp_Write tx length]. rewrite Nat.add_0_r.
  destruct b as [|x b]; cbn [write_all_loop length]; [by rewrite app_nil_r|].
  cbn [write tcp_Write tcp_write tx rx sent length]. by rewrite drop_ge by (simpl; lia).
Qed.

Lemma write_all_inner (w : WsStream Tcp) b :
  ws_inv w ->
  write_all (inner w) b = Some (mkTcp (rx (inner w)) [] (sent (inner w) ++ b), Ok tt).
Proof.
  intros [Ht _ _]. destruct (inner w) as [r t o]. simpl in *. subst. apply write_all_clear.
Qed.

Lemma ws_inv_drain w c : ws_inv w -> ws_inv (drain c w).
Proof. by intros []. Qed.

(** A close from a stream that has not ended. *)
Lemma send_close_open w code :
  ws_inv w -> eof w = false ->
  exists w', send_close w code = Some w' /\ ws_inv (with_eof w') /\ rx (inner w') = rx (inner w) /\
    drop (payload_pos w') (payload w') = drop (payload_pos w) (payload w) /\
    sent (inner w') = sent (inner w) ++ server_frame OP_CLOSE (to_be_bytes 2 code).
Proof.
  intros HI He. unfold send_close.
  destruct (close_sent w) eqn:Hc; [by rewrite (wi_close w HI Hc) in He|].
  cbn [inner with_close_sent]. rewrite write_all_inner by done. cbn [mbind option_bind].
  eexists. split; [done|]. destruct HI. split_and!; by split || done.
Qed.

Lemma pump_loop_future fuel w w' r :
  pump_loop fuel w = Some (w', r) -> ws_inv w -> eof w = false ->
  ws_inv w' /\ rx (inner w') = rx (inner w) /\
  (forall more, future w' more = future w more) /\
  exists b, r = Ok b /\
    (b = false -> eof w' = false /\ payload w' = payload w /\ payload_pos w' = payload_pos w /\
       parse_client_frame (rawbuf w') = (NeedMore, 0%Z)).
Proof.
  revert w. induction fuel as [|fuel IH]; intros w E HI He; [done|]. cbn [pump_loop] in E.
  destruct (parse_client_frame (rawbuf w)) as [p c] eqn:Ep.
  assert (Hclose : forall code w0, ws_inv w0 -> eof w0 = false -> rx (inner w0) = rx (inner w) ->
    drop (payload_pos w0) (payload w0) = drop (payload_pos w) (payload w) ->
    sent (inner w0) = sent (inner w) ->
    (forall more, decode (rawbuf w ++ more) =
       ([], server_frame OP_CLOSE (to_be_bytes 2 code))) ->
    (w1 ← send_close w0 code; Some (with_eof w1, Ok true)) = Some (w', r) ->
    ws_inv w' /\ rx (inner w') = rx (inner w) /\
    (forall more, future w' more = future w more) /\
    exists b, r = Ok b /\ (b = false -> eof w' = false /\ payload w' = payload w /\
       payload_pos w' = payload_pos w /\ parse_client_frame (rawbuf w') = (NeedMore, 0%Z))).
  { intros code w0 HI0 He0 Hrx Hd Hs Hdec E0.
    destruct (send_close_open w0 code HI0 He0) as (w1 & E1 & HI1 & Hrx1 & Hd1 & Hs1).
    rewrite E1 in E0. simplify_eq/=. split_and!; [done|congruence| |by exists true].
    intros more. unfold future. rewrite He, Hdec. cbn. by rewrite Hd1, Hs1, Hd, Hs, !app_nil_r. }
  destruct p as [p|p| |code| |code].
  - simplify_eq. pose proof (wi_pos _ HI). split_and!.
    + destruct HI. split; cbn; [done..|]. rewrite length_app. lia.
    + done.
    + intros more. unfold future. cbn. rewrite He, (decode_app_eq _ _ _ _ Ep) by done.
      destruct (decode _) as [d rr]. by rewrite drop_app_le, <- app_assoc.
    + by exists true.
  - cbn [inner with_rawbuf drain] in E.
    rewrite (write_all_inner (drain c w)) in E by by apply ws_inv_drain.
    cbn [mbind option_bind flush tcp_Write] in E.
    apply IH in E as (HI' & Hrx & Hfut & H); [|by destruct HI|done].
    split_and!; [done|done| |done]. intros more. rewrite Hfut. unfold future. cbn.
    rewrite He, (decode_app_eq _ _ _ _ Ep) by done. destruct (decode _) as [d rr].
    by rewrite <- app_assoc.
  - apply IH in E as (HI' & Hrx & Hfut & H); [|by destruct HI|done].
    split_and!; [done|done| |done]. intros more. rewrite Hfut. unfold future. cbn.
    by rewrite He, (decode_app_eq _ _ _ _ Ep) by done.
  - apply (Hclose code (drain c w)); try done; [by apply ws_inv_drain|].
    intros more. by rewrite (decode_app_eq _ _ _ _ Ep) by done.
  - simplify_eq. split_and!; [done..|]. exists false. split; [done|]. intros _.
    split_and!; [done..|]. rewrite Ep. f_equal.
    destruct (parse_cases _ _ _ Ep) as [[_ ->]|[[? _]|(_ & op & pl & Hp & _)]]; [done..|].
    unfold interpret in Hp. by repeat case_decide.
  - apply (Hclose code w); try done.
    intros more. by rewrite (decode_app_eq _ _ _ _ Ep) by done.
Qed.

Lemma ws_read_loop_future fuel w n w' r :
  0 < n -> ws_read_loop fuel w n = Some (w', r) -> ws_inv w -> Forall benign (rx (inner w)) ->
  ws_inv w' /\ Forall benign (rx (inner w')) /\
  match r with
  | Ok bs => future w (script_bytes (rx (inner w))) =
      (bs ++ (future w' (script_bytes (rx (inner w')))).1,
       (future w' (script_bytes (rx (inner w')))).2) /\
      (bs = [] -> future w' (script_bytes (rx (inner w'))) = ([], sent (inner w')))
  | Err e => transient e = true /\
      future w (script_bytes (rx (inner w))) = future w' (script_bytes (rx (inner w')))
  end.
Proof.
  intros Hn. revert w. induction fuel as [|fuel IH]; intros w E HI Hb; [done|].
  cbn [ws_read_loop] in E.
  destruct (decide (payload_pos w < length (payload w))) as [Hp|Hp].
  { clear IH. simplify_eq. set (k := n `min` (length (payload w) - payload_pos w)).
    set (w1 := if decide _ then _ else _).
    assert (Hw1 : rx (inner w1) = rx (inner w) /\ sent (inner w1) = sent (inner w) /\
      eof w1 = eof w /\ rawbuf w1 = rawbuf w /\ ws_inv w1 /\
      drop (payload_pos w1) (payload w1) = drop k (drop (payload_pos w) (payload w))).
    { rewrite drop_drop. subst w1. destruct HI.
      destruct (decide (payload_pos w + k = length (payload w))); split_and!; try done.
      - cbn. by rewrite (drop_ge _ (payload_pos w + k)) by lia.
      - split; cbn; [done|done|]. lia. }
    destruct Hw1 as (Hrx & Hs & He & Hr & HI1 & Hd). split; [done|]. rewrite Hrx.
    split; [done|]. split.
    - unfold future. rewrite He, Hr, Hs, Hd. destruct (if eof w then _ else _) as [d rr].
      cbn [fst snd]. by rewrite app_assoc, take_drop.
    - intros Ht. apply (f_equal length) in Ht. rewrite length_take, length_drop in Ht.
      simpl in Ht. lia. }
  assert (Hempty : drop (payload_pos w) (payload w) = []) by (apply drop_ge; lia).
  destruct (eof w) eqn:He.
  { simplify_eq. assert (Hf : future w' (script_bytes (rx (inner w'))) = ([], sent (inner w'))).
    { unfold future. by rewrite He, Hempty, !app_nil_r. }
    split; [done|]. split; [done|]. by rewrite Hf. }
  destruct (pump w) as [[w1 r1]|] eqn:Ep; [|done]. cbn [mbind option_bind] in E.
  apply pump_loop_future in Ep as (HI1 & Hrx1 & Hfut & b & -> & Hmore); [|done..].
  rewrite <- Hfut. rewrite <- Hrx1 in Hb |- *.
  destruct b; [by apply IH|]. destruct (Hmore eq_refl) as (He1 & Hpay & Hpos & Hparse).
  destruct (inner w1) as [s t o] eqn:Hi. cbn [read tcp_Read rx tx sent] in E.
  destruct (script_read s chunk_len) as [s' res] eqn:Er.
  assert (Hb' : Forall benign s').
  { eapply script_read_Forall; [|exact Hb|exact Er]. by intros bs. }
  assert (HI1' : ws_inv (with_inner (mkTcp s' t o) w1)).
  { destruct HI1. rewrite Hi in *. by split. }
  destruct res as [[|x bs]|e].
  - apply script_read_eof in Er as [-> ->]; [|unfold chunk_len; lia|done]. simplify_eq.
    split; [by destruct HI1'|]. split; [done|].
    assert (Hfin : future (with_eof (with_inner (mkTcp [] t o) w1)) [] = ([], o)).
    { unfold future. cbn. by rewrite Hpay, Hpos, Hempty, !app_nil_r. }
    cbn [rx inner with_eof with_inner script_bytes]. 
    change (script_bytes []) with (@nil byte). rewrite Hfin. split; [|done].
    unfold future. rewrite He1, Hi, Hpay, Hpos, Hempty, !app_nil_r, (decode_eq _ _ _ Hparse).
    cbn. by rewrite !app_nil_r.
  - pose proof (script_read_bytes _ _ _ _ Er) as Hbytes.
    apply IH in E; [|by destruct HI1'|done]. cbn [rx inner with_inner with_rawbuf] in *.
    assert (Hsame : future (with_rawbuf (rawbuf (with_inner (mkTcp s' t o) w1) ++ x :: bs)
        (with_inner (mkTcp s' t o) w1)) (script_bytes s') = future w1 (script_bytes s)).
    { unfold future. cbn. by rewrite Hi, Hbytes, <- app_assoc. }
    rewrite <- Hsame. exact E.
  - pose proof (script_read_err _ _ _ _ Er) as ->. apply Forall_cons in Hb as [Ht Hb].
    simplify_eq. split_and!; [done|done|done|]. unfold future. cbn. by rewrite Hi.
Qed.

(** Reading to the end, retrying what a polling loop retries. *)
Fixpoint read_all {R} `{!Read R} (fuel : nat) (r : R) (n : nat) : option (R * bytes) :=
  match fuel with
  | O => None
  | S fuel =>
    match read r n with
    | (r, Ok []) => Some (r, [])
    | (r, Ok bs) => '(r, rest) ← read_all fuel r n; Some (r, bs ++ rest)
    | (r, Err e) => if transient e then read_all fuel r n else None
    end
  end.

Lemma read_all_future fuel (w : WsStream Tcp) n :
  0 < n -> ws_fuel w < fuel -> ws_inv w -> Forall benign (rx (inner w)) ->
  exists w', read_all fuel w n = Some (w', (future w (script_bytes (rx (inner w)))).1) /\
    sent (inner w') = (future w (script_bytes (rx (inner w)))).2.
Proof.
  intros Hn. revert w. induction fuel as [|fuel IH]; intros w Hf HI Hb; [lia|].
  cbn [read_all read ws_Read]. destruct (ws_read_returns w n) as (w1 & r & E & Hfuel).
  rewrite E. change (default (w, Err OtherError) (Some (w1, r))) with (w1, r).
  apply ws_read_loop_future in E as (HI1 & Hb1 & H); [|done..].
  destruct r as [[|b bs]|e].
  - destruct H as [-> Hend]. rewrite (Hend eq_refl). by exists w1.
  - destruct H as [-> _]. destruct (IH w1) as (w2 & -> & H2); [cbn in Hfuel; lia|done|done|].
    exists w2. split; [done|]. done.
  - destruct H as [-> ->]. apply IH; [lia|done|done].
Qed.

(** ** Theorems *)

(** C29: The adapter presents the client's stream.  However the bytes arrive
    (any cut into reads, any number of retried timeouts, a leftover from the
    upgrade), reading with any buffer size to the end gives exactly the
    payload they carry, and the connection is left with exactly the pongs
    and the close they ask for, in order. *)
Theorem adapter_presents_stream s o leftover n :
  Forall benign s -> 0 < n ->
  exists w', read_all (S (ws_fuel (new (mkTcp s [] o) leftover))) (new (mkTcp s [] o) leftover) n
      = Some (w', (decode (leftover ++ script_bytes s)).1) /\
    sent (inner w') = o ++ (decode (leftover ++ script_bytes s)).2.
Proof.
  intros Hb Hn. set (w := new (mkTcp s [] o) leftover).
  assert (HI : ws_inv w) by by split.
  destruct (read_all_future (S (ws_fuel w)) w n Hn ltac:(lia) HI Hb) as (w' & E & Hs).
  exists w'. unfold future in E, Hs. cbn [w new eof rawbuf payload payload_pos inner rx sent] in E, Hs.
  destruct (decode (leftover ++ script_bytes s)) as [d r]. split; [exact E|exact Hs].
Qed.

(** A client's message: final bit, opcode, mask and payload. *)
Record message := mkMessage {
  m_fin : bool;
  m_opcode : Z;
  m_mask : bytes;
  m_payload : bytes;
}.

Definition encode_message (m : message) : bytes :=
  client_frame (m_fin m) (m_opcode m) (m_mask m) (m_payload m).

(** A message RFC 6455 lets a client send, of a kind that keeps the
    connection open. *)
Definition valid (m : message) : Prop :=
  length (m_mask m) = 4 /\ (zlen (m_payload m) < 2 ^ 63)%Z /\
  (m_opcode m = OP_BIN \/ m_opcode m = OP_CONT \/
   ((m_opcode m = OP_PING \/ m_opcode m = OP_PONG) /\
    m_fin m = true /\ (zlen (m_payload m) <= 125)%Z)).

#[export] Instance valid_dec m : Decision (valid m).
Proof. unfold valid. apply _. Defined.

Definition data_of (m : message) : bytes :=
  if decide (m_opcode m = OP_BIN \/ m_opcode m = OP_CONT) then m_payload m else [].

Definition reply_to (m : message) : bytes :=
  if decide (m_opcode m = OP_PING) then server_frame OP_PONG (m_payload m) else [].

Lemma parse_message m rest :
  valid m ->
  parse_client_frame (encode_message m ++ rest) =
    (interpret (m_opcode m) (m_payload m), zlen (encode_message m)).
Proof.
  intros (Hm & Hl & Hop). apply parse_client_frame_ok; try done;
    unfold OP_BIN, OP_CONT, OP_PING, OP_PONG in Hop; [lia|]. intros. naive_solver lia.
Qed.

Lemma mjoin_cons {A} (l : list A) ls : mjoin (l :: ls) = l ++ mjoin ls.
Proof. done. Qed.

Lemma decode_message m rest :
  valid m ->
  decode (encode_message m ++ rest) =
    (let '(d, r) := decode rest in (data_of m ++ d, reply_to m ++ r)).
Proof.
  intros Hv. rewrite (decode_eq _ _ _ (parse_message m rest Hv)).
  unfold zlen. rewrite Nat2Z.id, drop_app_length. destruct Hv as (_ & _ & Hop).
  unfold interpret, data_of, reply_to. destruct (decode rest) as [d r].
  destruct Hop as [->|[->|([->| ->] & _)]]; reflexivity.
Qed.

(** What a client sends, message by message: binary and continuation
    payloads are concatenated in order with nothing of the framing left, one
    pong answers each ping, pongs are ignored; a close is answered with its
    code and a text message with 1003, after which nothing is read. *)
Theorem client_messages_decode ms m rest :
  Forall valid ms ->
  length (m_mask m) = 4 -> m_fin m = true -> (zlen (m_payload m) <= 125)%Z ->
  decode (mjoin (encode_message <$> ms) ++ rest) =
    (let '(d, r) := decode rest in
     (mjoin (data_of <$> ms) ++ d, mjoin (reply_to <$> ms) ++ r)) /\
  (m_opcode m = OP_TEXT ->
   decode (encode_message m ++ rest) = ([], server_frame OP_CLOSE (to_be_bytes 2 1003))) /\
  (m_opcode m = OP_CLOSE ->
   decode (encode_message m ++ rest) =
     ([], server_frame OP_CLOSE
            (if decide (2 <= zlen (m_payload m))%Z then take 2 (m_payload m)
             else to_be_bytes 2 1000))).
Proof.
  intros Hms Hm Hf Hp. split.
  - induction Hms as [|x ms Hx Hms IH]; [by cbn; destruct (decode rest)|].
    rewrite !fmap_cons, !mjoin_cons.
    rewrite <- app_assoc, decode_message, IH by done.
    destruct (decode rest) as [d r]. by rewrite !app_assoc.
  - assert (Hparse : (0 <= m_opcode m < 16)%Z ->
      parse_client_frame (encode_message m ++ rest) =
      (interpret (m_opcode m) (m_payload m), zlen (encode_message m))).
    { intros Ho. apply parse_client_frame_ok; try done.
      change (2 ^ 63)%Z with 9223372036854775808%Z. lia. }
    split; intros Hop; rewrite Hop in Hparse; rewrite (decode_eq _ _ _ (Hparse ltac:(done)));
      [done|].
    change (interpret OP_CLOSE (m_payload m)) with
      (Close (if decide (2 <= zlen (m_payload m))%Z then from_be_bytes (take 2 (m_payload m))
              else 1000%Z)).
    cbv beta iota. destruct (decide (2 <= zlen (m_payload m))%Z) as [H2|H2]; [|done].
    f_equal. f_equal.
    assert (Hl : length (take 2 (m_payload m)) = 2).
    { rewrite length_take. unfold zlen in H2. lia. }
    rewrite <- (to_from_be (take 2 (m_payload m))) at 2. by rewrite Hl.
Qed.

Definition text_message : message := mkMessage true OP_TEXT sample_mask [x68; x69].
Definition sample_messages : list message :=
  [ mkMessage false OP_BIN sample_mask [x61; x62; x63];
    mkMessage true OP_PING sample_mask [x70];
    mkMessage true OP_CONT sample_mask [x64; x65] ].

Lemma client_messages_decode_witness :
  decode (mjoin (encode_message <$> sample_messages) ++ encode_message text_message) =
    ([x61; x62; x63; x64; x65],
     server_frame OP_PONG [x70] ++ server_frame OP_CLOSE (to_be_bytes 2 1003)).
Proof.
  destruct (client_messages_decode sample_messages text_message (encode_message text_message))
    as (H & _).
  - apply (bool_decide_unpack _). vm_compute. exact I.
  - reflexivity.
  - reflexivity.
  - apply Z.leb_le. reflexivity.
  - rewrite H. vm_compute. reflexivity.
Defined.

Definition sample_script : list read_event :=
  [ RChunk (take 5 (encode_message (mkMessage true OP_BIN sample_mask [x61; x62; x63])));
    RFail WouldBlock;
    RChunk (drop 5 (encode_message (mkMessage true OP_BIN sample_mask [x61; x62; x63])) ++
            encode_message text_message) ].

Lemma adapter_presents_stream_witness :
  exists w', read_all (S (ws_fuel (new (mkTcp sample_script [] []) []))) 
      (new (mkTcp sample_script [] []) []) 2 = Some (w', [x61; x62; x63]) /\
    sent (inner w') = server_frame OP_CLOSE (to_be_bytes 2 1003).
Proof.
  assert (Hb : Forall benign sample_script)
    by (apply (bool_decide_unpack _); vm_compute; exact I).
  exact (adapter_presents_stream sample_script [] [] 2 Hb (le_S _ _ (le_n 1))).
Defined.

(** Reading through the adapter always returns, over any transport that
    keeps the laws of [Io], however hostile the bytes: it hands out at most
    what the buffer takes, and every byte handed out or failure reported uses
    up some of what is to come, so a reader cannot spin for ever. *)
Theorem adapter_read_returns {T} `{!Read T, !Write T}
    `{!ReadLaws T, !WriteLaws T, !DuplexLaws T} (w : WsStream T) n :
  exists w' r, ws_read w n = Some (w', r) /\ read w n = (w', r) /\
    match r with
    | Ok bs => length bs <= n /\ ws_fuel w' + length bs <= ws_fuel w
    | Err _ => ws_fuel w' < ws_fuel w
    end.
Proof.
  destruct (ws_read_returns w n) as (w' & r & E & H). exists w', r.
  split_and!; [done| |done]. cbn [read ws_Read]. by rewrite E.
Qed.

Lemma adapter_read_returns_witness :
  exists w' r, ws_read (new (mkTcp sample_script [] []) []) 10 = Some (w', r) /\
    read (new (mkTcp sample_script [] []) []) 10 = (w', r) /\
    match r with
    | Ok bs => length bs <= 10 /\ ws_fuel w' + length bs <= ws_fuel (new (mkTcp sample_script [] []) [])
    | Err _ => ws_fuel w' < ws_fuel (new (mkTcp sample_script [] []) [])
    end.
Proof. exact (adapter_read_returns (new (mkTcp sample_script [] []) []) 10). Defined.

(** [write_all] of a message puts exactly one binary frame on the
    connection, even when the kernel takes it a few bytes at a time and
    interrupts, and a client reads the message back from it; a failed write
    leaves a prefix of that frame. *)
Theorem one_frame_per_write (w w' : WsStream Tcp) data res :
  data <> [] -> (zlen data < 2 ^ 64)%Z -> write_all w data = Some (w', res) ->
  exists p, sent (inner w') = sent (inner w) ++ p /\
    p `prefix_of` server_frame OP_BIN data /\
    (res = Ok tt -> p = server_frame OP_BIN data /\
       read_server_frame p = Some (OP_BIN, data, [])).
Proof.
  intros Hd Hl E.
  assert (Hread : read_server_frame (server_frame OP_BIN data) = Some (OP_BIN, data, [])).
  { rewrite <- (app_nil_r (server_frame _ _)). by apply read_server_frame_ok. }
  destruct data as [|x data]; [done|]. unfold write_all in E. cbn [length Nat.add] in E.
  cbn [write_all_loop write ws_Write] in E. unfold ws_write in E.
  destruct (write_all (inner w) (server_frame OP_BIN (x :: data))) as [[i r]|] eqn:Ew.
  2: { cbn in E. simplify_eq. exists []. rewrite app_nil_r. split_and!; [done|apply prefix_nil|done]. }
  assert (Hni := Ew). apply write_all_sent in Ew as (Hrx & p & Hs & Hp & Hok).
  exists p. destruct r as [[]|e]; cbn in E.
  - rewrite drop_ge in E by lia. simplify_eq/=. rewrite Hok in * by done. done.
  - destruct e; simplify_eq/=; try done. by apply write_all_not_interrupted in Hni.
Qed.

Lemma one_frame_per_write_witness :
  let w := new (mkTcp [] [WTake 3; WFail Interrupted; WTake 1] [x2a]) [] in
  let w' := new (mkTcp [] [] (x2a :: server_frame OP_BIN [x01; x02])) [] in
  write_all w [x01; x02] = Some (w', Ok tt) /\
  exists p, sent (inner w') = sent (inner w) ++ p /\
    p `prefix_of` server_frame OP_BIN [x01; x02] /\
    (Ok tt = Ok tt -> p = server_frame OP_BIN [x01; x02] /\
       read_server_frame p = Some (OP_BIN, [x01; x02], [])).
Proof.
  assert (E : write_all (new (mkTcp [] [WTake 3; WFail Interrupted; WTake 1] [x2a]) []) [x01; x02]
    = Some (new (mkTcp [] [] (x2a :: server_frame OP_BIN [x01; x02])) [], Ok tt))
    by (vm_compute; reflexivity).
  split; [exact E|].
  exact (one_frame_per_write _ _ [x01; x02] (Ok tt) ltac:(discriminate) ltac:(reflexivity) E).
Defined.
