(* ===== verification/Upgrade.v ===== *)
(** * Upgrade: the WebSocket handshake

    Models [parse_upgrade], [success_response], [error_response],
    [find_subsequence] and [accept_upgrade] of [rust-lib-sync/src/ws.rs], and
    [parse_upgrade] of [rust-lib-async/src/ws.rs].  A [&str] is the list of
    its code points; [from_utf8], [from_utf8_lossy] and the methods of [str]
    are those of the language's library. *)

From S2P Require Import Prelude Io Base64 Sha1 WsFrame WsStream.
From Stdlib Require Import Strings.Byte.

(** ** [str] *)

Abbreviation char := Z.
Abbreviation str := (list Z).

(** An ASCII literal. *)
Definition lit (s : string) : str := Z_of_byte <$> str_bytes s.

Definition between (lo hi : Z) (b : byte) : bool :=
  (lo <=? Z_of_byte b)%Z && (Z_of_byte b <=? hi)%Z.

Definition continuation (b : byte) : bool := between 0x80 0xBF b.

(** The second bytes that may follow a leading byte of a sequence of three or
    four. *)
Definition second_ok (b0 b1 : byte) : bool :=
  (between 0xE0 0xE0 b0 && between 0xA0 0xBF b1) ||
  (between 0xE1 0xEC b0 && between 0x80 0xBF b1) ||
  (between 0xED 0xED b0 && between 0x80 0x9F b1) ||
  (between 0xEE 0xEF b0 && between 0x80 0xBF b1) ||
  (between 0xF0 0xF0 b0 && between 0x90 0xBF b1) ||
  (between 0xF1 0xF3 b0 && between 0x80 0xBF b1) ||
  (between 0xF4 0xF4 b0 && between 0x80 0x8F b1).

Definition low6 (b : byte) : Z := (Z_of_byte b mod 64)%Z.

(** The first character of the bytes [b0 :: l] ([None] when they start with an
    invalid sequence) and what follows it; an invalid sequence is its longest
    prefix that could still have become a character. *)
Definition utf8_next (b0 : byte) (l : bytes) : option char * bytes :=
  if between 0 0x7F b0 then (Some (Z_of_byte b0), l)
  else if between 0xC2 0xDF b0 then
    match l with
    | b1 :: l' =>
      if continuation b1 then (Some (Z_of_byte b0 mod 32 * 64 + low6 b1)%Z, l') else (None, l)
    | [] => (None, l)
    end
  else if between 0xE0 0xEF b0 then
    match l with
    | b1 :: l' =>
      if second_ok b0 b1 then
        match l' with
        | b2 :: l'' =>
          if continuation b2 then
            (Some (Z_of_byte b0 mod 16 * 4096 + low6 b1 * 64 + low6 b2)%Z, l'')
          else (None, l')
        | [] => (None, l')
        end
      else (None, l)
    | [] => (None, l)
    end
  else if between 0xF0 0xF4 b0 then
    match l with
    | b1 :: l' =>
      if second_ok b0 b1 then
        match l' with
        | b2 :: l'' =>
          if continuation b2 then
            match l'' with
            | b3 :: l''' =>
              if continuation b3 then
                (Some (Z_of_byte b0 mod 8 * 262144 + low6 b1 * 4096 + low6 b2 * 64 + low6 b3)%Z,
                 l''')
              else (None, l'')
            | [] => (None, l'')
            end
          else (None, l')
        | [] => (None, l')
        end
      else (None, l)
    | [] => (None, l)
    end
  else (None, l).

(** [str::from_utf8]. *)
Fixpoint from_utf8_loop (fuel : nat) (l : bytes) : option str :=
  match fuel, l with
  | S fuel, b0 :: l =>
    let '(c, l) := utf8_next b0 l in
    c ← c; s ← from_utf8_loop fuel l; Some (c :: s)
  | _, _ => Some []
  end.

Definition from_utf8 (l : bytes) : option str := from_utf8_loop (length l) l.

(** [String::from_utf8_lossy]: U+FFFD for each invalid sequence. *)
Fixpoint from_utf8_lossy_loop (fuel : nat) (l : bytes) : str :=
  match fuel, l with
  | S fuel, b0 :: l =>
    let '(c, l) := utf8_next b0 l in
    default 0xFFFD%Z c :: from_utf8_lossy_loop fuel l
  | _, _ => []
  end.

Definition from_utf8_lossy (l : bytes) : str := from_utf8_lossy_loop (length l) l.

(** The UTF-8 bytes of a character, and [as_bytes]. *)
Definition utf8_char (c : char) : bytes :=
  (if decide (c < 0x80) then [byte_of_Z c]
   else if decide (c < 0x800) then [byte_of_Z (0xC0 + c / 64); byte_of_Z (0x80 + c mod 64)]
   else if decide (c < 0x10000) then
     [byte_of_Z (0xE0 + c / 4096); byte_of_Z (0x80 + c / 64 mod 64); byte_of_Z (0x80 + c mod 64)]
   else
     [byte_of_Z (0xF0 + c / 262144); byte_of_Z (0x80 + c / 4096 mod 64);
      byte_of_Z (0x80 + c / 64 mod 64); byte_of_Z (0x80 + c mod 64)])%Z.

Definition as_bytes (s : str) : bytes := mjoin (utf8_char <$> s).

(** [char::is_whitespace]. *)
Definition is_whitespace (c : char) : bool :=
  bool_decide (9 <= c <= 13)%Z || bool_decide (c ∈ [0x20; 0x85; 0xA0; 0x1680; 0x2028; 0x2029;
    0x202F; 0x205F; 0x3000]%Z) || bool_decide (0x2000 <= c <= 0x200A)%Z.

Fixpoint trim_start (s : str) : str :=
  match s with
  | c :: s' => if is_whitespace c then trim_start s' else s
  | [] => []
  end.

Definition trim (s : str) : str := reverse (trim_start (reverse (trim_start s))).

Definition to_ascii_lowercase (s : str) : str :=
  (fun c => if decide (65 <= c <= 90)%Z then (c + 32)%Z else c) <$> s.

(** Put a character in front of the first piece. *)
Definition push (c : char) (l : list str) : list str :=
  match l with
  | s :: l => (c :: s) :: l
  | [] => [[c]]
  end.

(** [s.split(c)]. *)
Fixpoint split_char (sep : char) (s : str) : list str :=
  match s with
  | [] => [[]]
  | c :: s => if decide (c = sep) then [] :: split_char sep s else push c (split_char sep s)
  end.

(** [s.split("\r\n")]. *)
Fixpoint split_crlf (s : str) : list str :=
  match s with
  | [] => [[]]
  | c :: s' =>
    match s' with
    | d :: s'' =>
      if decide (c = 13 /\ d = 10)%Z then [] :: split_crlf s'' else push c (split_crlf s')
    | [] => push c (split_crlf s')
    end
  end.

Fixpoint split_once (sep : char) (s : str) : option (str * str) :=
  match s with
  | [] => None
  | c :: s =>
    if decide (c = sep) then Some ([], s)
    else '(a, b) ← split_once sep s; Some (c :: a, b)
  end.

Definition starts_with (p s : str) : bool := bool_decide (p `prefix_of` s).

(** ** Validation of the request *)

(** [Result<String, &'static str>]: the key, or the status to reply with. *)
Inductive verdict :=
| Accepted (key : str)
| Rejected (status : string).

Definition BAD : verdict := Rejected "400 Bad Request".

Record headers := mkHeaders {
  h_upgrade : option str;
  h_connection : option str;
  h_version : option str;
  h_key : option str;
}.

Definition no_headers : headers := mkHeaders None None None None.

(** [match name.as_str() { .. }]. *)
Definition set_header (h : headers) (n v : str) : headers :=
  let name := to_ascii_lowercase (trim n) in
  let value := trim v in
  if decide (name = lit "upgrade") then
    mkHeaders (Some (to_ascii_lowercase value)) (h_connection h) (h_version h) (h_key h)
  else if decide (name = lit "connection") then
    mkHeaders (h_upgrade h) (Some (to_ascii_lowercase value)) (h_version h) (h_key h)
  else if decide (name = lit "sec-websocket-version") then
    mkHeaders (h_upgrade h) (h_connection h) (Some value) (h_key h)
  else if decide (name = lit "sec-websocket-key") then
    mkHeaders (h_upgrade h) (h_connection h) (h_version h) (Some value)
  else h.

(** The loop over the header lines; [None] is the early return. *)
Fixpoint parse_headers (lines : list str) (h : headers) : option headers :=
  match lines with
  | [] => Some h
  | line :: lines =>
    if decide (line = []) then parse_headers lines h
    else
      '(n, v) ← split_once 58 line;
      parse_headers lines (set_header h n v)
  end.

(** The checks after the loop. *)
Definition check_headers (h : headers) : verdict :=
  if decide (h_upgrade h <> Some (lit "websocket")) then BAD
  else
    let has_upgrade_token :=
      match h_connection h with
      | Some c => existsb (fun t => bool_decide (trim t = lit "upgrade")) (split_char 44 c)
      | None => false
      end in
    if negb has_upgrade_token then BAD
    else if decide (h_version h <> Some (lit "13")) then Rejected "426 Upgrade Required"
    else
      match h_key h with
      | None => BAD
      | Some key =>
        if decide (option_map (@length byte) (base64_decode (as_bytes key)) <> Some 16) then BAD
        else Accepted key
      end.

Definition check_lines (lines : list str) : verdict :=
  match parse_headers lines no_headers with
  | None => BAD
  | Some h => check_headers h
  end.

Definition parse_upgrade (request : bytes) : verdict :=
  match from_utf8 request with
  | None => BAD
  | Some text =>
    let lines := split_crlf text in
    let parts := split_char 32 (nth 0 lines []) in
    let method := nth 0 parts [] in
    let version := nth 2 parts [] in
    if bool_decide (method <> lit "GET") || negb (starts_with (lit "HTTP/1.") version) then BAD
    else check_lines (tail lines)
  end.

(** The asynchronous crate's, which counts the parts of the request line and
    decodes leniently. *)
Module Async.
Definition parse_upgrade (request : bytes) : verdict :=
  let lines := split_crlf (from_utf8_lossy request) in
  let parts := split_char 32 (nth 0 lines []) in
  if bool_decide (length parts <> 3) || bool_decide (nth 0 parts [] <> lit "GET") ||
     negb (starts_with (lit "HTTP/1.") (nth 2 parts [])) then BAD
  else check_lines (tail lines).
End Async.

(** ** Responses *)

Definition crlf : bytes := [x0d; x0a].

Definition success_response (key : str) : option bytes :=
  accept ← accept_key (as_bytes key);
  Some (str_bytes "HTTP/1.1 101 Switching Protocols" ++ crlf ++
        str_bytes "Upgrade: websocket" ++ crlf ++
        str_bytes "Connection: Upgrade" ++ crlf ++
        str_bytes "Sec-WebSocket-Accept: " ++ accept ++ crlf ++ crlf).

Module AsyncResponse.
Definition success_response (key : str) : option bytes :=
  accept ← compute_accept (as_bytes key);
  Some (str_bytes "HTTP/1.1 101 Switching Protocols" ++ crlf ++
        str_bytes "Upgrade: websocket" ++ crlf ++
        str_bytes "Connection: Upgrade" ++ crlf ++
        str_bytes "Sec-WebSocket-Accept: " ++ accept ++ crlf ++ crlf).
End AsyncResponse.

Definition error_response (status : string) : bytes :=
  if String.prefix "426" status then
    str_bytes "HTTP/1.1 " ++ str_bytes status ++ crlf ++
    str_bytes "Sec-WebSocket-Version: 13" ++ crlf ++ crlf
  else str_bytes "HTTP/1.1 " ++ str_bytes status ++ crlf ++ crlf.

(** ** The upgrade *)

Definition MAX_REQUEST_BYTES : nat := 8 * 1024.

(** [haystack.windows(needle.len()).position(..)]. *)
Fixpoint window_position (haystack needle : bytes) : option nat :=
  if decide (length haystack < length needle) then None
  else if decide (take (length needle) haystack = needle) then Some 0
  else
    match haystack with
    | [] => None
    | _ :: haystack => S <$> window_position haystack needle
    end.

Definition find_subsequence (haystack needle : bytes) : option nat :=
  if bool_decide (needle = []) || bool_decide (length haystack < length needle) then None
  else window_position haystack needle.

Definition end_of_headers : bytes := crlf ++ crlf.

(** How the request loop ends: with the bytes read and where the headers end,
    or giving up. *)
Inductive request_outcome :=
| Complete (buf : bytes) (header_end : nat)
| TooLong
| GiveUp
| Failed (e : ErrorKind).

Section Accept.
Context {T : Type} `{!Read T, !Write T}.
(** [Instant::now()], by how many readings were taken before. *)
Context (clock : nat -> Z).

(** The loop that collects the request; [None] is fuel exhaustion, which
    [request_loop_total] excludes. *)
Fixpoint request_loop (fuel : nat) (t : T) (buf : bytes) (deadline : Z) (reads : nat)
  : option (T * request_outcome) :=
  match fuel with
  | O => None
  | S fuel =>
    match find_subsequence buf end_of_headers with
    | Some pos => Some (t, Complete buf (pos + 4))
    | None =>
      if decide (MAX_REQUEST_BYTES < length buf) then Some (t, TooLong)
      else if decide (deadline <= clock reads)%Z then Some (t, GiveUp)
      else
        match read t 1024 with
        | (t, Ok []) => Some (t, GiveUp)
        | (t, Ok bs) => request_loop fuel t (buf ++ bs) deadline (S reads)
        | (t, Err e) =>
          if transient e then request_loop fuel t buf deadline (S reads)
          else Some (t, Failed e)
        end
    end
  end.

(** [accept_upgrade]; the connection is returned too, for what was written to
    it before a rejection dropped it. *)
Definition accept_upgrade (t : T) (first : option byte) (deadline : Z)
  : option (T * io_result (option (WsStream T))) :=
  '(t, outcome) ← request_loop (S (S (read_fuel t))) t (option_list first) deadline 0;
  match outcome with
  | TooLong =>
    '(t, _) ← write_all t (error_response "400 Bad Request");
    Some (t, Ok None)
  | GiveUp => Some (t, Ok None)
  | Failed e => Some (t, Err e)
  | Complete buf header_end =>
    let request := take header_end buf in
    let leftover := drop header_end buf in
    match parse_upgrade request with
    | Accepted key =>
      response ← success_response key;
      '(t, r) ← write_all t response;
      match r with
      | Err e => Some (t, Err e)
      | Ok _ =>
        let '(t, r) := flush t in
        match r with
        | Err e => Some (t, Err e)
        | Ok _ => Some (t, Ok (Some (new t leftover)))
        end
      end
    | Rejected status =>
      '(t, _) ← write_all t (error_response status);
      Some (t, Ok None)
    end
  end.
End Accept.

(** ** UTF-8 *)

(** The values a Rust [char] has. *)
Definition scalar (c : Z) : Prop := (0 <= c < 0xD800 \/ 0xE000 <= c < 0x110000)%Z.

Lemma between_byte lo hi z : (0 <= z < 256)%Z -> between lo hi (byte_of_Z z) = (lo <=? z)%Z && (z <=? hi)%Z.
Proof. intros. unfold between. by rewrite Z_of_byte_of_Z, Z.mod_small. Qed.

Lemma between_true lo hi z :
  (0 <= z < 256)%Z -> (lo <= z <= hi)%Z -> between lo hi (byte_of_Z z) = true.
Proof. intros. rewrite between_byte by done. lia. Qed.

Lemma between_false lo hi z :
  (0 <= z < 256)%Z -> (z < lo \/ hi < z)%Z -> between lo hi (byte_of_Z z) = false.
Proof. intros. rewrite between_byte by done. lia. Qed.

Lemma low6_byte z : (0 <= z < 64)%Z -> low6 (byte_of_Z (0x80 + z)) = z.
Proof.
  intros. unfold low6. rewrite Z_of_byte_of_Z, (Z.mod_small _ 256) by lia.
  replace (128 + z)%Z with (z + 2 * 64)%Z by lia. rewrite Z_mod_plus_full. by apply Z.mod_small.
Qed.

Lemma continuation_byte z : (0 <= z < 64)%Z -> continuation (byte_of_Z (0x80 + z)) = true.
Proof. intros. apply between_true; lia. Qed.

Lemma lead_mod b m z :
  (b mod m = 0)%Z -> (0 <= z < m)%Z -> (0 <= b)%Z -> (b + z < 256)%Z ->
  (Z_of_byte (byte_of_Z (b + z)) mod m = z)%Z.
Proof.
  intros Hb Hz H0 Hlt. rewrite Z_of_byte_of_Z, (Z.mod_small _ 256) by lia.
  rewrite Z.add_mod, Hb, Z.add_0_l, Z.mod_mod by lia. by apply Z.mod_small.
Qed.

Lemma second_ok_three z0 z1 :
  (0xE0 <= z0 <= 0xEF)%Z -> (0x80 <= z1 <= 0xBF)%Z -> (z0 = 0xE0 -> 0xA0 <= z1)%Z ->
  (z0 = 0xED -> z1 <= 0x9F)%Z -> second_ok (byte_of_Z z0) (byte_of_Z z1) = true.
Proof.
  intros. unfold second_ok. rewrite !between_byte by lia. lia.
Qed.

Lemma second_ok_four z0 z1 :
  (0xF0 <= z0 <= 0xF4)%Z -> (0x80 <= z1 <= 0xBF)%Z -> (z0 = 0xF0 -> 0x90 <= z1)%Z ->
  (z0 = 0xF4 -> z1 <= 0x8F)%Z -> second_ok (byte_of_Z z0) (byte_of_Z z1) = true.
Proof.
  intros. unfold second_ok. rewrite !between_byte by lia. lia.
Qed.

Lemma utf8_next_char c rest :
  scalar c -> exists b0 l, utf8_char c = b0 :: l /\ utf8_next b0 (l ++ rest) = (Some c, rest).
Proof.
  intros Hc. assert (0 <= c < 0x110000)%Z by (destruct Hc; lia). unfold utf8_char.
  pose proof (Z.mod_pos_bound c 64 ltac:(lia)).
  pose proof (Z.mod_pos_bound (c / 64) 64 ltac:(lia)).
  pose proof (Z.mod_pos_bound (c / 4096) 64 ltac:(lia)).
  pose proof (Z.div_mod c 64 ltac:(lia)). pose proof (Z.div_mod (c / 64) 64 ltac:(lia)).
  pose proof (Z.div_mod (c / 4096) 64 ltac:(lia)).
  assert (E2 : (c / 64 / 64 = c / 4096)%Z) by (rewrite Z.div_div by lia; done).
  assert (E3 : (c / 4096 / 64 = c / 262144)%Z) by (rewrite Z.div_div by lia; done).
  destruct (decide (c < 0x80)%Z); [|destruct (decide (c < 0x800)%Z);
    [|destruct (decide (c < 0x10000)%Z)]];
    eexists _, _; (split; [reflexivity|]); cbn [app]; unfold utf8_next.
  - rewrite between_true by lia. by rewrite Z_of_byte_of_Z, Z.mod_small by lia.
  - rewrite between_false, between_true, continuation_byte, low6_byte by lia.
    rewrite (lead_mod 0xC0 32) by (done || lia). repeat f_equal. lia.
  - rewrite (between_false 0 0x7F), (between_false 0xC2 0xDF), (between_true 0xE0 0xEF) by lia.
    rewrite second_ok_three by (destruct Hc; lia).
    rewrite continuation_byte, !low6_byte by lia.
    rewrite (lead_mod 0xE0 16) by (done || lia). repeat f_equal. lia.
  - rewrite (between_false 0 0x7F), (between_false 0xC2 0xDF), (between_false 0xE0 0xEF),
      (between_true 0xF0 0xF4) by lia.
    rewrite second_ok_four by lia.
    rewrite !continuation_byte, !low6_byte by lia.
    rewrite (lead_mod 0xF0 8) by (done || lia). repeat f_equal. lia.
Qed.

Lemma utf8_loops fuel s :
  length (as_bytes s) <= fuel -> Forall scalar s ->
  from_utf8_loop fuel (as_bytes s) = Some s /\ from_utf8_lossy_loop fuel (as_bytes s) = s.
Proof.
  intros Hf Hs. revert fuel Hf. induction Hs as [|c s Hc Hs IH]; intros fuel Hf.
  { by destruct fuel. }
  unfold as_bytes in *. rewrite fmap_cons, mjoin_cons in *.
  destruct (utf8_next_char c (mjoin (utf8_char <$> s)) Hc) as (b0 & l & E & Enext).
  rewrite E in *. cbn [app length] in Hf. destruct fuel as [|fuel]; [lia|].
  cbn [app from_utf8_loop from_utf8_lossy_loop]. rewrite Enext. cbn [mbind option_bind default].
  rewrite length_app in Hf. destruct (IH fuel) as [-> ->]; [lia|]. done.
Qed.

Lemma from_utf8_as_bytes s :
  Forall scalar s -> from_utf8 (as_bytes s) = Some s /\ from_utf8_lossy (as_bytes s) = s.
Proof. intros Hs. by apply utf8_loops. Qed.

(** ** Rendered requests *)

Definition CRLF : str := [13; 10]%Z.

(** The line of a header, name and value as written. *)
Definition header_line (f : str * str) : str := f.1 ++ (58%Z :: f.2).

Definition render (path : str) (hs : list (str * str)) : str :=
  lit "GET " ++ path ++ lit " HTTP/1.1" ++ CRLF ++
  mjoin ((fun f => header_line f ++ CRLF) <$> hs) ++ CRLF.

Definition plain_path (path : str) : Prop :=
  Forall scalar path /\ (32%Z ∉ path) /\ (13%Z ∉ path).

Definition plain_header (f : str * str) : Prop :=
  Forall scalar f.1 /\ Forall scalar f.2 /\ (13%Z ∉ f.1) /\ (13%Z ∉ f.2) /\ (58%Z ∉ f.1).

#[export] Instance scalar_dec c : Decision (scalar c).
Proof. unfold scalar. apply _. Defined.
#[export] Instance plain_path_dec path : Decision (plain_path path).
Proof. unfold plain_path. apply _. Defined.
#[export] Instance plain_header_dec f : Decision (plain_header f).
Proof. unfold plain_header. apply _. Defined.

(** The value of a header: the last of that name counts. *)
Definition field (name : str) (hs : list (str * str)) : option str :=
  last (omap (fun f => if decide (to_ascii_lowercase (trim f.1) = name) then Some (trim f.2)
                       else None) hs).

Lemma split_crlf_line l rest :
  13%Z ∉ l -> split_crlf (l ++ CRLF ++ rest) = l :: split_crlf rest.
Proof.
  induction l as [|c l IH]; intros Hl; [done|].
  apply not_elem_of_cons in Hl as [Hc Hl]. specialize (IH Hl).
  cbn [app]. destruct (l ++ CRLF ++ rest) as [|d t] eqn:E; [by destruct l|].
  cbn [split_crlf]. rewrite decide_False by (intros [-> _]; done).
  change (match t with [] => push d (split_crlf t) | _ => _ end) with (split_crlf (d :: t)).
  by rewrite IH.
Qed.

Lemma split_char_end sep l : sep ∉ l -> split_char sep l = [l].
Proof.
  induction l as [|c l IH]; intros Hl; [done|]. apply not_elem_of_cons in Hl as [Hc Hl].
  cbn [split_char]. rewrite decide_False by congruence. by rewrite IH.
Qed.

Lemma split_char_piece sep l rest :
  sep ∉ l -> split_char sep (l ++ sep :: rest) = l :: split_char sep rest.
Proof.
  induction l as [|c l IH]; intros Hl; cbn [app split_char]; [by rewrite decide_True|].
  apply not_elem_of_cons in Hl as [Hc Hl]. rewrite decide_False by congruence. by rewrite IH.
Qed.

Lemma split_once_piece sep l rest : sep ∉ l -> split_once sep (l ++ sep :: rest) = Some (l, rest).
Proof.
  induction l as [|c l IH]; intros Hl; cbn [app split_once]; [by rewrite decide_True|].
  apply not_elem_of_cons in Hl as [Hc Hl]. rewrite decide_False by congruence. by rewrite IH.
Qed.

Lemma header_line_no_cr f : plain_header f -> 13%Z ∉ header_line f.
Proof. intros (_ & _ & H1 & H2 & _). unfold header_line. set_solver. Qed.

Lemma split_crlf_headers hs rest :
  Forall plain_header hs ->
  split_crlf (mjoin ((fun f => header_line f ++ CRLF) <$> hs) ++ rest) =
    (header_line <$> hs) ++ split_crlf rest.
Proof.
  induction 1 as [|f hs Hf Hhs IH]; [done|].
  rewrite !fmap_cons, mjoin_cons, <- !app_assoc, split_crlf_line by by apply header_line_no_cr.
  by rewrite IH.
Qed.

Lemma parse_headers_lines hs h :
  Forall plain_header hs ->
  parse_headers ((header_line <$> hs) ++ [[]; []]) h =
    Some (fold_left (fun h f => set_header h f.1 f.2) hs h).
Proof.
  intros Hhs. revert h. induction Hhs as [|f hs Hf Hhs IH]; intros h; [done|].
  rewrite fmap_cons. cbn [app parse_headers fold_left].
  rewrite decide_False by (unfold header_line; by destruct f.1).
  destruct Hf as (_ & _ & _ & _ & Hf). change (header_line f) with (f.1 ++ (58%Z :: f.2)).
  rewrite split_once_piece by done. cbn [mbind option_bind]. apply IH.
Qed.

Lemma set_headers_fields hs :
  fold_left (fun h f => set_header h f.1 f.2) hs no_headers =
    mkHeaders (to_ascii_lowercase <$> field (lit "upgrade") hs)
      (to_ascii_lowercase <$> field (lit "connection") hs)
      (field (lit "sec-websocket-version") hs) (field (lit "sec-websocket-key") hs).
Proof.
  induction hs as [|f hs IH] using rev_ind; [done|].
  rewrite fold_left_app. cbn [fold_left]. rewrite IH. unfold field, set_header.
  rewrite !omap_app. cbn [omap list_omap h_upgrade h_connection h_version h_key].
  generalize (to_ascii_lowercase (trim f.1)) as name. intros name.
  destruct (decide (name = lit "upgrade")) as [->|?];
    [rewrite !decide_False, !app_nil_r, last_snoc by done; done|].
  destruct (decide (name = lit "connection")) as [->|?];
    [rewrite !decide_False, !app_nil_r, last_snoc by done; done|].
  destruct (decide (name = lit "sec-websocket-version")) as [->|?];
    [rewrite !decide_False, !app_nil_r, last_snoc by done; done|].
  destruct (decide (name = lit "sec-websocket-key")) as [->|?];
    [rewrite !app_nil_r, last_snoc by done; done|].
  by rewrite !app_nil_r.
Qed.

Lemma split_render path hs :
  plain_path path -> Forall plain_header hs ->
  split_crlf (render path hs) =
    (lit "GET " ++ path ++ lit " HTTP/1.1") :: (header_line <$> hs) ++ [[]; []].
Proof.
  intros (_ & _ & Hp) Hhs. unfold render.
  rewrite (app_assoc path), (app_assoc (lit "GET ")).
  rewrite split_crlf_line.
  - by rewrite split_crlf_headers.
  - rewrite !not_elem_of_app. split; [by vm_compute; set_solver|]. split; [done|].
    by vm_compute; set_solver.
Qed.

Lemma request_line_parts path :
  plain_path path ->
  split_char 32 (lit "GET " ++ path ++ lit " HTTP/1.1") = [lit "GET"; path; lit "HTTP/1.1"].
Proof.
  intros (_ & Hp & _).
  change (lit "GET ") with (lit "GET" ++ [32%Z]).
  change (lit " HTTP/1.1") with (32%Z :: lit "HTTP/1.1").
  rewrite <- app_assoc. cbn [app]. 
  rewrite split_char_piece by (vm_compute; set_solver).
  rewrite split_char_piece by done. by rewrite split_char_end by (vm_compute; set_solver).
Qed.

Lemma render_scalar path hs :
  plain_path path -> Forall plain_header hs -> Forall scalar (render path hs).
Proof.
  intros (Hp & _) Hhs. unfold render.
  assert (Hl : forall s, forallb (fun c => bool_decide (scalar c)) s = true -> Forall scalar s).
  { intros s H. rewrite forallb_forall in H. apply Forall_forall. intros c Hc.
    eapply bool_decide_eq_true_1, H. by apply list_elem_of_In. }
  rewrite !Forall_app. split_and!; [by apply Hl; vm_compute|done|by apply Hl; vm_compute..| |
    by apply Hl; vm_compute].
  induction Hhs as [|f hs (H1 & H2 & _) Hhs IH]; [constructor|].
  rewrite fmap_cons, mjoin_cons. unfold header_line.
  rewrite !Forall_app, Forall_cons. split_and!; [done| |done|by apply Hl; vm_compute|done].
  unfold scalar. lia.
Qed.

Lemma parse_upgrade_render path hs :
  plain_path path -> Forall plain_header hs ->
  let v := check_headers (mkHeaders (to_ascii_lowercase <$> field (lit "upgrade") hs)
      (to_ascii_lowercase <$> field (lit "connection") hs)
      (field (lit "sec-websocket-version") hs) (field (lit "sec-websocket-key") hs)) in
  parse_upgrade (as_bytes (render path hs)) = v /\
  Async.parse_upgrade (as_bytes (render path hs)) = v.
Proof.
  intros Hp Hhs v. unfold parse_upgrade, Async.parse_upgrade.
  destruct (from_utf8_as_bytes _ (render_scalar path hs Hp Hhs)) as [-> ->].
  rewrite split_render by done. cbn [nth tail]. rewrite request_line_parts by done.
  cbn [nth length]. unfold check_lines. rewrite parse_headers_lines, set_headers_fields by done.
  by split.
Qed.

(** [Upgrade: websocket], and a [Connection] with an [upgrade] token. *)
Definition wants_websocket (h : headers) : Prop :=
  h_upgrade h = Some (lit "websocket") /\
  exists c t, h_connection h = Some c /\ t ∈ split_char 44 c /\ trim t = lit "upgrade".

(** A key of sixteen bytes. *)
Definition good_key (key : str) : Prop :=
  exists b, base64_decode (as_bytes key) = Some b /\ length b = 16.

Lemma check_headers_cases h :
  (~ wants_websocket h /\ check_headers h = BAD) \/
  (wants_websocket h /\
    ((h_version h <> Some (lit "13") /\ check_headers h = Rejected "426 Upgrade Required") \/
     (h_version h = Some (lit "13") /\
      ((exists key, h_key h = Some key /\ good_key key /\ check_headers h = Accepted key) \/
       ((forall key, h_key h = Some key -> ~ good_key key) /\ check_headers h = BAD))))).
Proof.
  unfold check_headers, wants_websocket. destruct (decide (h_upgrade h <> _)) as [Hu|Hu];
    [left; naive_solver|].
  apply dec_stable in Hu. destruct (h_connection h) as [c|]; [|left; naive_solver].
  destruct (existsb _ _) eqn:Hc; cbn [negb].
  2: { left. split; [|done]. intros (_ & c' & t & [= <-] & Ht & Htrim).
    rewrite <- not_true_iff_false, existsb_exists in Hc. destruct Hc. exists t.
    split; [by apply list_elem_of_In|]. by apply bool_decide_eq_true_2. }
  right. apply existsb_exists in Hc as (t & Ht & Htrim). apply bool_decide_eq_true_1 in Htrim.
  apply list_elem_of_In in Ht. split; [split; [done|by exists c, t]|].
  destruct (decide (h_version h <> _)) as [Hv|Hv]; [by left|]. apply dec_stable in Hv.
  right. split; [done|]. unfold good_key. destruct (h_key h) as [k|]; [|right; naive_solver].
  destruct (base64_decode (as_bytes k)) as [b|] eqn:Hb; cbn [option_map].
  - destruct (decide (Some (length b) <> Some 16)) as [Hl|Hl]; [right; naive_solver|].
    apply dec_stable in Hl. left. exists k. naive_solver.
  - rewrite decide_True by done. right. naive_solver.
Qed.

Lemma lossy_exact fuel l s : from_utf8_loop fuel l = Some s -> from_utf8_lossy_loop fuel l = s.
Proof.
  revert l s. induction fuel as [|fuel IH]; intros l s E; cbn in *; [by simplify_eq|].
  destruct l as [|b0 l]; [by simplify_eq|]. destruct (utf8_next b0 l) as [[c|] l']; [|done].
  cbn in *. destruct (from_utf8_loop fuel l') as [s'|] eqn:E'; [|done]. simplify_eq/=.
  f_equal. by apply IH.
Qed.

(** ** Finding the end of the headers *)

Lemma window_position_bound h n p :
  window_position h n = Some p -> p + length n <= length h.
Proof.
  revert p. induction h as [|c h IH]; intros p E; cbn [window_position] in E.
  - case_decide; [done|]. case_decide; [simplify_eq; lia|done].
  - case_decide as Hl; [done|]. case_decide; [simplify_eq; lia|].
    destruct (window_position h n) as [q|]; [|done]. simplify_eq/=.
    specialize (IH q eq_refl). lia.
Qed.

Lemma window_position_app h n more p :
  window_position h n = Some p -> window_position (h ++ more) n = Some p.
Proof.
  revert p. induction h as [|c h IH]; intros p E; cbn [window_position] in E.
  - case_decide as Hl; [done|]. case_decide as Hn; [|done]. simplify_eq.
    destruct n as [|x n]; [|simpl in Hl; lia]. cbn [app].
    destruct more; cbn [window_position]; (rewrite decide_False by (simpl; lia));
      by rewrite decide_True.
  - case_decide as Hl; [done|]. cbn [app window_position].
    rewrite decide_False by (simpl in *; rewrite length_app; lia).
    change (c :: h ++ more) with ((c :: h) ++ more). rewrite take_app_le by lia.
    case_decide; [done|].
    destruct (window_position h n) as [q|]; [|done]. by rewrite (IH q eq_refl).
Qed.

Lemma window_position_take h n p k :
  window_position h n = Some p -> p + length n <= k -> window_position (take k h) n = Some p.
Proof.
  revert p k. induction h as [|c h IH]; intros p k E Hk; [by rewrite take_nil|].
  cbn [window_position] in E. case_decide as Hl; [done|]. destruct k as [|k].
  { assert (p = 0 /\ length n = 0) as [-> Hn] by lia. apply nil_length_inv in Hn as ->. done. }
  cbn [firstn window_position].
  change (c :: take k h) with (take (S k) (c :: h)).
  rewrite decide_False by (rewrite length_take; lia).
  rewrite take_take. case_decide as Hn.
  - simplify_eq. rewrite Nat.min_l by lia. by rewrite decide_True.
  - destruct (window_position h n) as [q|] eqn:Eq; [|done]. simplify_eq/=.
    rewrite (IH q k eq_refl) by lia.
    rewrite Nat.min_l by lia. by rewrite decide_False.
Qed.

Lemma find_window l : find_subsequence l end_of_headers = window_position l end_of_headers.
Proof.
  unfold find_subsequence. rewrite bool_decide_eq_false_2 by done. simpl orb.
  case_bool_decide as Hl; [|done]. destruct l; cbn [window_position]; by rewrite decide_True.
Qed.

(** A prefix of the input shows the end of the headers exactly when it
    reaches that far. *)
Lemma find_prefix full buf rest pos :
  full = buf ++ rest -> find_subsequence full end_of_headers = Some pos ->
  find_subsequence buf end_of_headers = if decide (pos + 4 <= length buf) then Some pos else None.
Proof.
  rewrite !find_window. intros -> E. case_decide as Hl.
  - apply (window_position_take _ _ _ (length buf)) in E; [|done]. by rewrite take_app_length in E.
  - destruct (window_position buf end_of_headers) as [q|] eqn:Eq; [|done].
    pose proof (window_position_bound _ _ _ Eq) as Hq.
    apply (window_position_app _ _ rest) in Eq. rewrite E in Eq. simplify_eq. simpl in Hq. lia.
Qed.

(** ** The request loop *)

Lemma request_loop_total {T} `{!Read T, !ReadLaws T} clock fuel (t : T) buf deadline reads :
  read_fuel t < fuel -> length buf <= MAX_REQUEST_BYTES + 1024 ->
  exists t' outcome, request_loop clock fuel t buf deadline reads = Some (t', outcome) /\
    match outcome with
    | Complete buf _ => length buf <= MAX_REQUEST_BYTES + 1024
    | _ => True
    end.
Proof.
  revert t buf reads. induction fuel as [|fuel IH]; intros t buf reads Hf Hb; [lia|].
  cbn [request_loop]. destruct (find_subsequence buf end_of_headers) as [pos|]; [by eexists _, _|].
  case_decide as Hlen; [by eexists _, _|]. case_decide; [by eexists _, _|].
  destruct (read t 1024) as [t1 [[|b bs]|e]] eqn:Er; [by eexists _, _| |].
  - pose proof (read_fits _ _ _ _ Er) as Hfit. apply read_spends in Er. simpl in Er.
    apply IH; [lia|]. rewrite length_app. lia.
  - apply read_fails in Er. destruct (transient e); [apply IH; lia|by eexists _, _].
Qed.

Lemma request_loop_complete clock fuel s o buf deadline reads full pos :
  (forall i, (clock i < deadline)%Z) -> Forall benign s -> script_fuel s < fuel ->
  full = buf ++ script_bytes s -> find_subsequence full end_of_headers = Some pos ->
  pos + 4 <= MAX_REQUEST_BYTES ->
  exists s' buf', Forall benign s' /\ full = buf' ++ script_bytes s' /\ pos + 4 <= length buf' /\
    request_loop clock fuel (mkTcp s [] o) buf deadline reads =
      Some (mkTcp s' [] o, Complete buf' (pos + 4)).
Proof.
  intros Hclock Hs Hf Hfull Hfind Hmax. revert s buf reads Hs Hf Hfull.
  induction fuel as [|fuel IH]; intros s buf reads Hs Hf Hfull; [lia|].
  cbn [request_loop]. rewrite (find_prefix _ _ _ _ Hfull Hfind).
  case_decide as Hpos; [by exists s, buf|].
  rewrite decide_False by lia. rewrite decide_False by (specialize (Hclock reads); lia).
  cbn [read tcp_Read rx tx sent]. destruct (script_read s 1024) as [s1 res] eqn:Er.
  assert (Hs1 : Forall benign s1) by (eapply script_read_Forall; [|exact Hs|exact Er]; done).
  destruct res as [[|b bs]|e].
  - apply script_read_eof in Er as [-> ->]; [|lia|done]. exfalso.
    rewrite app_nil_r in Hfull. subst full. rewrite find_window in Hfind.
    apply window_position_bound in Hfind. simpl in Hfind. lia.
  - pose proof (script_read_bytes _ _ _ _ Er) as Hbytes.
    pose proof (read_spends (R := list read_event) _ _ _ _ Er) as Hsp. simpl in Hsp.
    apply IH; [done|lia|]. by rewrite Hfull, Hbytes, app_assoc.
  - pose proof (script_read_err _ _ _ _ Er) as ->. apply Forall_cons in Hs as [He _].
    simpl in He. rewrite He. apply IH; [done| |by rewrite Hfull].
    unfold script_fuel in *. csimpl in Hf. lia.
Qed.

(** ** Theorems *)

(** The validation of an upgrade request, for any path and header lines:
    both crates return the same verdict on the request's bytes.  It is
    accepted, with the last key given, exactly when the last [Upgrade] header
    is [websocket] in any case, some token of the last [Connection] header is
    [upgrade], the version is 13 and the key decodes to sixteen bytes; 426 is
    the answer exactly when the version alone is wrong before the key is
    looked at; all else is a 400. *)
Theorem upgrade_verdicts path hs key :
  plain_path path -> Forall plain_header hs ->
  let request := as_bytes (render path hs) in
  let f name := field (lit name) hs in
  let wants := to_ascii_lowercase <$> f "upgrade" = Some (lit "websocket") /\
    exists c t, f "connection" = Some c /\ t ∈ split_char 44 (to_ascii_lowercase c) /\
                trim t = lit "upgrade" in
  parse_upgrade request = Async.parse_upgrade request /\
  (parse_upgrade request = Accepted key <->
     wants /\ f "sec-websocket-version" = Some (lit "13") /\
     f "sec-websocket-key" = Some key /\ good_key key) /\
  (parse_upgrade request = Rejected "426 Upgrade Required" <->
     wants /\ f "sec-websocket-version" <> Some (lit "13")) /\
  ((exists k, parse_upgrade request = Accepted k) \/
   parse_upgrade request = Rejected "426 Upgrade Required" \/ parse_upgrade request = BAD).
Proof.
  intros Hp Hhs request f wants.
  destruct (parse_upgrade_render path hs Hp Hhs) as [H1 H2]. unfold request.
  rewrite H1, H2. set (h := mkHeaders _ _ _ _).
  assert (Hw : wants_websocket h <-> wants).
  { unfold wants_websocket, wants, f. cbn [h h_upgrade h_connection].
    destruct (field (lit "connection") hs); naive_solver. }
  split; [done|]. rewrite <- Hw. unfold BAD in *.
  change (f "sec-websocket-version") with (h_version h).
  change (f "sec-websocket-key") with (h_key h). clearbody h. clear.
  destruct (check_headers_cases h) as [[Hn ->]|[Hy [[Hv ->]|[Hv [(k & Hk & Hg & ->)|[Hg ->]]]]]];
    (split; [|split]); naive_solver.
Qed.

Definition sample_headers : list (str * str) :=
  [ (lit "Host", lit " x"); (lit "Upgrade", lit " WebSocket");
    (lit "Connection", lit " keep-alive, Upgrade"); (lit "Sec-WebSocket-Version", lit " 13");
    (lit "sec-websocket-KEY", lit " dGhlIHNhbXBsZSBub25jZQ==") ].

Lemma upgrade_verdicts_witness :
  parse_upgrade (as_bytes (render (lit "/chat") sample_headers)) =
    Accepted (lit "dGhlIHNhbXBsZSBub25jZQ==").
Proof.
  destruct (upgrade_verdicts (lit "/chat") sample_headers (lit "dGhlIHNhbXBsZSBub25jZQ=="))
    as (_ & H & _).
  - apply (bool_decide_unpack _). vm_compute. exact I.
  - apply (bool_decide_unpack _). vm_compute. exact I.
  - apply H. split_and!.
    + vm_compute. reflexivity.
    + exists (lit "keep-alive, Upgrade"), (lit " upgrade"). split_and!.
      * vm_compute. reflexivity.
      * apply (bool_decide_unpack _). vm_compute. exact I.
      * vm_compute. reflexivity.
    + vm_compute. reflexivity.
    + vm_compute. reflexivity.
    + eexists. split; vm_compute; reflexivity.
Defined.

Definition request_bytes (lines : list string) : bytes :=
  mjoin ((fun l => str_bytes l ++ crlf) <$> lines) ++ crlf.

(** A request with everything an upgrade needs. *)
Definition http_request (request_line origin : bytes) : bytes :=
  request_line ++ crlf ++ str_bytes "Origin: " ++ origin ++ crlf ++
  request_bytes ["Upgrade: websocket"; "Connection: Upgrade"; "Sec-WebSocket-Version: 13";
    "Sec-WebSocket-Key: dGhlIHNhbXBsZSBub25jZQ=="].

(** On any request that is UTF-8 and whose request line has three parts
    the two crates return the same verdict.  Outside that they differ: a
    fourth part on the request line is let through by the synchronous crate
    alone, and a byte that is not UTF-8 by the asynchronous crate alone. *)
Theorem crates_agree_on_text request text :
  from_utf8 request = Some text ->
  (length (split_char 32 (nth 0 (split_crlf text) [])) = 3 ->
   parse_upgrade request = Async.parse_upgrade request) /\
  (exists key, 
     parse_upgrade (http_request (str_bytes "GET / HTTP/1.1 x") []) = Accepted key /\
     Async.parse_upgrade (http_request (str_bytes "GET / HTTP/1.1 x") []) = BAD /\
     parse_upgrade (http_request (str_bytes "GET / HTTP/1.1") [xff]) = BAD /\
     Async.parse_upgrade (http_request (str_bytes "GET / HTTP/1.1") [xff]) = Accepted key).
Proof.
  intros Htext. split.
  - intros Hparts. unfold parse_upgrade, Async.parse_upgrade. rewrite Htext.
    unfold from_utf8 in Htext. apply lossy_exact in Htext. unfold from_utf8_lossy.
    rewrite Htext, Hparts. rewrite (bool_decide_eq_false_2 (3 <> 3)) by tauto. done.
  - exists (lit "dGhlIHNhbXBsZSBub25jZQ=="). split_and!; vm_compute; reflexivity.
Qed.

Lemma crates_agree_on_text_witness :
  parse_upgrade (http_request (str_bytes "GET / HTTP/1.1") []) =
    Async.parse_upgrade (http_request (str_bytes "GET / HTTP/1.1") []).
Proof.
  refine (proj1 (crates_agree_on_text (http_request (str_bytes "GET / HTTP/1.1") [])
    (Z_of_byte <$> http_request (str_bytes "GET / HTTP/1.1") []) _) _); vm_compute; reflexivity.
Defined.

Lemma accept_upgrade_keeps clock s o first deadline request rest key response :
  (forall i, (clock i < deadline)%Z) -> Forall benign s ->
  option_list first ++ script_bytes s = request ++ rest ->
  find_subsequence (request ++ rest) end_of_headers = Some (length request - 4) ->
  4 <= length request <= MAX_REQUEST_BYTES ->
  parse_upgrade request = Accepted key -> success_response key = Some response ->
  exists s' leftover,
    accept_upgrade clock (mkTcp s [] o) first deadline =
      Some (mkTcp s' [] (o ++ response),
            Ok (Some (new (mkTcp s' [] (o ++ response)) leftover))) /\
    Forall benign s' /\ leftover ++ script_bytes s' = rest.
Proof.
  intros Hclock Hs Hfull Hfind Hlen Hkey Hresp.
  destruct (request_loop_complete clock (S (S (script_fuel s))) s o (option_list first)
    deadline 0 (request ++ rest) (length request - 4))
    as (s' & buf & Hs' & Hbuf & Hpos & E); try done; [lia|lia|].
  replace (length request - 4 + 4) with (length request) in * by lia.
  assert (Hreq : take (length request) buf = request).
  { apply (f_equal (take (length request))) in Hbuf.
    rewrite take_app_length, take_app_le in Hbuf by lia. done. }
  exists s', (drop (length request) buf). split_and!; [|done|].
  - unfold accept_upgrade. cbn [read_fuel tcp_Read rx]. rewrite E. cbn [mbind option_bind].
    rewrite Hreq, Hkey, Hresp. cbn [mbind option_bind].
    rewrite write_all_clear. done.
  - apply (f_equal (drop (length request))) in Hbuf.
    rewrite drop_app_length, drop_app_le in Hbuf by lia. done.
Qed.

(** A client that sends a good request is upgraded and loses nothing.
    Whatever the cut into reads and the retried timeouts, once the request
    ends (within the limit and before the deadline) the server has answered
    with the 101 response for its key and nothing else, and the stream it
    goes on with starts right after the request: the bytes already read past
    it and those still to come are the rest of the input, in order. *)
Theorem handshake_keeps_stream clock s o first deadline request rest key response :
  (forall i, (clock i < deadline)%Z) -> Forall benign s ->
  option_list first ++ script_bytes s = request ++ rest ->
  find_subsequence (request ++ rest) end_of_headers = Some (length request - 4) ->
  4 <= length request <= MAX_REQUEST_BYTES ->
  parse_upgrade request = Accepted key -> success_response key = Some response ->
  exists s' leftover,
    accept_upgrade clock (mkTcp s [] o) first deadline =
      Some (mkTcp s' [] (o ++ response),
            Ok (Some (new (mkTcp s' [] (o ++ response)) leftover))) /\
    Forall benign s' /\ leftover ++ script_bytes s' = rest.
Proof. apply accept_upgrade_keeps. Qed.

Definition sample_request : bytes := http_request (str_bytes "GET /chat HTTP/1.1") [].
Definition sample_frame : bytes :=
  encode_message (mkMessage true OP_BIN sample_mask [x61; x62; x63]).
Definition handshake_script : list read_event :=
  [ RChunk (take 20 sample_request); RFail WouldBlock;
    RChunk (drop 20 sample_request ++ take 3 sample_frame); RChunk (drop 3 sample_frame) ].

Lemma handshake_keeps_stream_witness :
  exists response s' leftover,
    accept_upgrade (fun _ => 0%Z) (mkTcp handshake_script [] []) None 1 =
      Some (mkTcp s' [] ([] ++ response),
            Ok (Some (new (mkTcp s' [] ([] ++ response)) leftover))) /\
    Forall benign s' /\ leftover ++ script_bytes s' = sample_frame.
Proof.
  destruct (success_response (lit "dGhlIHNhbXBsZSBub25jZQ==")) as [response|] eqn:Hr;
    [|exfalso; vm_compute in Hr; discriminate].
  exists response.
  refine (handshake_keeps_stream (fun _ => 0%Z) handshake_script [] None 1 sample_request
    sample_frame (lit "dGhlIHNhbXBsZSBub25jZQ==") response _ _ _ _ _ _ Hr).
  - intros i. reflexivity.
  - apply (bool_decide_unpack _). vm_compute. exact I.
  - vm_compute. reflexivity.
  - vm_compute. reflexivity.
  - apply (bool_decide_unpack _). vm_compute. exact I.
  - vm_compute. reflexivity.
Defined.

Lemma accept_upgrade_returns {T} `{!Read T, !Write T} `{!ReadLaws T, !WriteLaws T} clock (t : T)
    first deadline : exists t' r, accept_upgrade clock t first deadline = Some (t', r).
Proof.
  destruct (request_loop_total clock (S (S (read_fuel t))) t (option_list first) deadline 0)
    as (t' & outcome & E & _); [lia|destruct first; simpl; unfold MAX_REQUEST_BYTES; lia|].
  assert (Hw : forall (t : T) b, exists t' r, write_all t b = Some (t', r)).
  { intros t0 b. destruct (write_all_total t0 b) as [[t1 r] ->]. by exists t1, r. }
  unfold accept_upgrade. rewrite E. cbn [mbind option_bind]. destruct outcome as [buf e| | |e].
  - destruct (parse_upgrade (take e buf)) as [key|status].
    + unfold success_response. destruct (accept_key_total (as_bytes key)) as [v ->].
      cbn [mbind option_bind].
      edestruct (Hw t') as (t1 & r & ->). cbn [mbind option_bind].
      destruct r as [[]|]; [|by eexists _, _]. destruct (flush t1) as [t2 [[]|]]; by eexists _, _.
    + edestruct (Hw t') as (t1 & r & ->). by eexists _, _.
  - edestruct (Hw t') as (t1 & r & ->). by eexists _, _.
  - by eexists _, _.
  - by eexists _, _.
Qed.

(** The upgrade always comes to an end, over any transport that keeps
    the laws of [Io] and for any clock, and never holds more than the limit
    and one read; a request that passes the limit without ending is refused
    with a 400. *)
Theorem upgrade_bounded {T} `{!Read T, !Write T} `{!ReadLaws T, !WriteLaws T} clock (t : T)
    first deadline :
  (exists t' r, accept_upgrade clock t first deadline = Some (t', r)) /\
  (exists t' outcome,
     request_loop clock (S (S (read_fuel t))) t (option_list first) deadline 0 =
       Some (t', outcome) /\
     match outcome with
     | Complete buf _ => length buf <= MAX_REQUEST_BYTES + 1024
     | TooLong => exists t'' res,
         write_all t' (error_response "400 Bad Request") = Some (t'', res) /\
         accept_upgrade clock t first deadline = Some (t'', Ok None)
     | _ => True
     end).
Proof.
  split; [apply accept_upgrade_returns|].
  destruct (request_loop_total clock (S (S (read_fuel t))) t (option_list first) deadline 0)
    as (t' & outcome & E & Hb); [lia|destruct first; simpl; unfold MAX_REQUEST_BYTES; lia|].
  exists t', outcome. split; [exact E|]. destruct outcome; try done.
  destruct (write_all_total t' (error_response "400 Bad Request")) as [[t1 r] Ew].
  exists t1, r. split; [done|]. unfold accept_upgrade. rewrite E. cbn [mbind option_bind].
  by rewrite Ew.
Qed.

Lemma upgrade_bounded_witness :
  (exists t' r, accept_upgrade (fun _ => 0%Z) (mkTcp handshake_script [] []) None 1 = Some (t', r)) /\
  (exists t' outcome,
     request_loop (fun _ => 0%Z) (S (S (read_fuel (mkTcp handshake_script [] []))))
       (mkTcp handshake_script [] []) (option_list None) 1 0 = Some (t', outcome) /\
     match outcome with
     | Complete buf _ => length buf <= MAX_REQUEST_BYTES + 1024
     | TooLong => exists t'' res,
         write_all t' (error_response "400 Bad Request") = Some (t'', res) /\
         accept_upgrade (fun _ => 0%Z) (mkTcp handshake_script [] []) None 1 = Some (t'', Ok None)
     | _ => True
     end).
Proof. exact (upgrade_bounded (fun _ => 0%Z) (mkTcp handshake_script [] []) None 1). Defined.
