(* ===== verification/WsAsync.v ===== *)
(** * WsAsync: the WebSocket adapter of the asynchronous crate

    Models [WsStream] of [rust-lib-async/src/ws.rs].  The
    traits of tokio the adapter is built on and implements are the classes
    [PollRead] and [PollWrite]: one call is one poll, which may be [Pending].
    The parser is shown to be that of the synchronous crate, and the stream
    presented to be the same [decode] of the client's bytes. *)

From S2P Require Import Prelude Io WsFrame WsStream.
From Stdlib Require Import Strings.Byte.

(** ** tokio's traits *)

Inductive poll (A : Type) :=
| Ready (a : A)
| Pending.
Arguments Ready {A} a.
Arguments Pending {A}.

(** [poll_read r n]: a poll with [n] bytes of room in the buffer; its result
    is what was put there.  [poll_fuel] is a ghost that bounds the bytes still
    to come. *)
Class PollRead (R : Type) := {
  poll_read : R -> nat -> R * poll (io_result bytes);
  poll_fuel : R -> nat;
}.

Class PollWrite (W : Type) := {
  poll_write : W -> bytes -> W * poll (io_result nat);
  poll_flush : W -> W * poll (io_result ());
  poll_shutdown : W -> W * poll (io_result ());
}.

(** What tokio documents: a read fits the buffer, and what it returns is used
    up; writing does not bring the end of the input any further. *)
Class PollLaws (T : Type) `{!PollRead T, !PollWrite T} := {
  poll_read_spends r n r' bs :
    poll_read r n = (r', Ready (Ok bs)) ->
    length bs <= n /\ poll_fuel r' + length bs <= poll_fuel r;
  poll_read_stops r n r' res :
    poll_read r n = (r', res) -> poll_fuel r' <= poll_fuel r;
  poll_write_reads w b w' res : poll_write w b = (w', res) -> poll_fuel w' <= poll_fuel w;
}.

(** What is seen of a stream from its ends: the bytes still to arrive, those
    that have gone out, and that no read from here on fails. *)
Class PollStream (T : Type) `{!PollRead T, !PollWrite T} := {
  to_come : T -> bytes;
  gone_out : T -> bytes;
  calm : T -> Prop;
}.

(** What tokio documents of them: a read hands out the next bytes, at least one
    unless the stream is at its end, a write takes a prefix of what it is
    given, and either may not be ready.  A connection that is never ready to be
    read again is not considered. *)
Class PollStreamLaws (T : Type) `{!PollRead T, !PollWrite T, !PollStream T} := {
  ps_read r n r' res :
    0 < n -> calm r -> poll_read r n = (r', res) ->
    calm r' /\
    match res with
    | Ready (Ok bs) => to_come r = bs ++ to_come r' /\ (bs = [] -> to_come r = [])
    | Ready (Err _) => False
    | Pending => to_come r' = to_come r /\ poll_fuel r' < poll_fuel r
    end;
  ps_read_out r n r' res : poll_read r n = (r', res) -> gone_out r' = gone_out r;
  ps_write w b w' res :
    poll_write w b = (w', res) ->
    to_come w' = to_come w /\ (calm w -> calm w') /\
    match res with
    | Ready (Ok k) => k <= length b /\ gone_out w' = gone_out w ++ take k b
    | _ => gone_out w' = gone_out w
    end;
}.

(** ** State *)

Record WsStream (T : Type) := mkWs {
  inner : T;
  in_buf : bytes;
  ready : bytes;
  out_buf : bytes;
  out_pos : nat;
  close_sent : bool;
  eof : bool;
}.
Arguments mkWs {T} _ _ _ _ _ _ _.
Arguments inner {T} _.
Arguments in_buf {T} _.
Arguments ready {T} _.
Arguments out_buf {T} _.
Arguments out_pos {T} _.
Arguments close_sent {T} _.
Arguments eof {T} _.

Inductive Parsed :=
| Need
| Payload (p : bytes)
| Control
| Eof
| Error.

Section Adapter.
Context {T : Type} `{!PollRead T, !PollWrite T}.
Implicit Type w : WsStream T.

Definition with_inner (i : T) w :=
  mkWs i (in_buf w) (ready w) (out_buf w) (out_pos w) (close_sent w) (eof w).
Definition with_in_buf b w :=
  mkWs (inner w) b (ready w) (out_buf w) (out_pos w) (close_sent w) (eof w).
Definition with_ready r w :=
  mkWs (inner w) (in_buf w) r (out_buf w) (out_pos w) (close_sent w) (eof w).
Definition with_out b k w :=
  mkWs (inner w) (in_buf w) (ready w) b k (close_sent w) (eof w).
Definition with_close_sent w :=
  mkWs (inner w) (in_buf w) (ready w) (out_buf w) (out_pos w) true (eof w).
Definition with_eof w :=
  mkWs (inner w) (in_buf w) (ready w) (out_buf w) (out_pos w) (close_sent w) true.

(** ** Operations *)

Definition new (i : T) : WsStream T := mkWs i [] [] [] 0 false false.

Definition queue_frame w (opcode : Z) (payload : bytes) : WsStream T :=
  with_out (out_buf w ++ server_frame opcode payload) (out_pos w) w.

Definition queue_close w (code : Z) : WsStream T :=
  if close_sent w then w
  else queue_frame (with_close_sent w) OP_CLOSE (to_be_bytes 2 code).

(** The last part of [parse_one]: the length is known and [off] bytes of
    header are behind. *)
Definition finish_one w (opcode : Z) (fin : bool) (len off : Z) : Parsed * WsStream T :=
  let buf := in_buf w in
  if bool_decide (0x8 <= opcode)%Z && (negb fin || bool_decide (125 < len)%Z) then
    (Error, queue_close w 1002)
  else if decide (zlen buf < as_usize (off + 4 + len))%Z then (Need, w)
  else
    let mask := take 4 (drop (Z.to_nat off) buf) in
    let payload := unmask_from 0 mask (take (Z.to_nat len) (drop (Z.to_nat (off + 4)) buf)) in
    let w := with_in_buf (drop (Z.to_nat (as_usize (off + 4 + len))) buf) w in
    if decide (opcode = OP_BIN \/ opcode = OP_CONT) then (Payload payload, w)
    else if decide (opcode = OP_PING) then (Control, queue_frame w OP_PONG payload)
    else if decide (opcode = OP_PONG) then (Control, w)
    else if decide (opcode = OP_TEXT) then (Error, queue_close w 1003)
    else if decide (opcode = OP_CLOSE) then
      let code := if decide (2 <= zlen payload)%Z then from_be_bytes (take 2 payload)
                  else 1000%Z in
      (Eof, queue_close w code)
    else (Error, queue_close w 1002).

Definition parse_one w : Parsed * WsStream T :=
  match in_buf w with
  | b0 :: b1 :: _ =>
    let buf := in_buf w in
    let b0 := Z_of_byte b0 in
    let b1 := Z_of_byte b1 in
    if decide (Z.land b0 0x70 <> 0)%Z then (Error, queue_close w 1002)
    else
      let opcode := Z.land b0 0x0f in
      let fin := bool_decide (Z.land b0 0x80 <> 0)%Z in
      if decide (Z.land b1 0x80 = 0)%Z then (Error, queue_close w 1002)
      else
        let len := Z.land b1 0x7f in
        if decide (len = 126)%Z then
          if decide (zlen buf < 4)%Z then (Need, w)
          else finish_one w opcode fin (from_be_bytes (take 2 (drop 2 buf))) 4
        else if decide (len = 127)%Z then
          if decide (zlen buf < 10)%Z then (Need, w)
          else if decide (Z.land (Z_of_byte (nth 2 buf x00)) 0x80 <> 0)%Z then
            (Error, queue_close w 1002)
          else finish_one w opcode fin (from_be_bytes (take 8 (drop 2 buf))) 10
        else finish_one w opcode fin len 2
  | _ => (Need, w)
  end.

(** [flush_out]: the fuel is the bytes left, of which each round that goes on
    writes at least one. *)
Fixpoint flush_loop (fuel : nat) w : option (WsStream T * poll (io_result ())) :=
  match fuel with
  | O => None
  | S fuel =>
    if decide (out_pos w < length (out_buf w)) then
      let '(i, r) := poll_write (inner w) (drop (out_pos w) (out_buf w)) in
      let w := with_inner i w in
      match r with
      | Ready (Ok O) => Some (w, Ready (Err WriteZero))
      | Ready (Ok n) => flush_loop fuel (with_out (out_buf w) (out_pos w + n) w)
      | Ready (Err e) => Some (w, Ready (Err e))
      | Pending => Some (w, Pending)
      end
    else Some (with_out [] 0 w, Ready (Ok tt))
  end.

Definition flush_out w : option (WsStream T * poll (io_result ())) :=
  flush_loop (S (length (out_buf w) - out_pos w)) w.

Definition TMP_LEN : nat := 8 * 1024.

(** [poll_read]; [None] is fuel exhaustion, which [ws_poll_read_total]
    excludes. *)
Fixpoint ws_poll_read_loop (fuel : nat) w (n : nat)
  : option (WsStream T * poll (io_result bytes)) :=
  match fuel with
  | O => None
  | S fuel =>
    '(w, _) ← flush_out w;
    if decide (ready w <> []) then
      let k := length (ready w) `min` n in
      Some (with_ready (drop k (ready w)) w, Ready (Ok (take k (ready w))))
    else if eof w then Some (w, Ready (Ok []))
    else
      let '(parsed, w) := parse_one w in
      match parsed with
      | Payload p => ws_poll_read_loop fuel (with_ready (ready w ++ p) w) n
      | Control => ws_poll_read_loop fuel w n
      | Eof | Error => ws_poll_read_loop fuel (with_eof w) n
      | Need =>
        let '(i, r) := poll_read (inner w) TMP_LEN in
        let w := with_inner i w in
        match r with
        | Ready (Ok []) => Some (with_eof w, Ready (Ok []))
        | Ready (Ok filled) =>
          ws_poll_read_loop fuel (with_in_buf (in_buf w ++ filled) w) n
        | Ready (Err e) => Some (w, Ready (Err e))
        | Pending => Some (w, Pending)
        end
      end
  end.

Definition ws_poll_fuel w : nat :=
  length (ready w) + length (in_buf w) + 2 * poll_fuel (inner w) + (if eof w then 0 else 1).

Definition ws_poll_read w (n : nat) : option (WsStream T * poll (io_result bytes)) :=
  ws_poll_read_loop (S (ws_poll_fuel w)) w n.

Definition ws_poll_write w (buf : bytes) : option (WsStream T * poll (io_result nat)) :=
  '(w, r) ← flush_out w;
  match r with
  | Ready (Ok _) =>
    let w := with_out (out_buf w ++ server_frame OP_BIN buf) (out_pos w) w in
    '(w, _) ← flush_out w;
    Some (w, Ready (Ok (length buf)))
  | Ready (Err e) => Some (w, Ready (Err e))
  | Pending => Some (w, Pending)
  end.

Definition ws_poll_flush w : option (WsStream T * poll (io_result ())) :=
  '(w, r) ← flush_out w;
  match r with
  | Ready (Ok _) => let '(i, r) := poll_flush (inner w) in Some (with_inner i w, r)
  | other => Some (w, other)
  end.

Definition ws_poll_shutdown w : option (WsStream T * poll (io_result ())) :=
  '(w, r) ← flush_out (queue_close w 1000);
  match r with
  | Ready (Ok _) => let '(i, r) := poll_shutdown (inner w) in Some (with_inner i w, r)
  | other => Some (w, other)
  end.

(** ** The parser is the synchronous one *)

(** What the synchronous parser's verdict makes [parse_one] do. *)
Definition act w (p : WsFrame.Parsed) (c : Z) : Parsed * WsStream T :=
  let w' := with_in_buf (drop (Z.to_nat c) (in_buf w)) w in
  match p with
  | NeedMore => (Need, w)
  | Data q => (Payload q, w')
  | Ping q => (Control, queue_frame w' OP_PONG q)
  | Pong => (Control, w')
  | Close code => (Eof, queue_close w' code)
  | Protocol code => (Error, queue_close w' code)
  end.

Lemma with_in_buf_same w : with_in_buf (drop (Z.to_nat 0) (in_buf w)) w = w.
Proof. change (Z.to_nat 0) with 0. rewrite drop_0. by destruct w. Qed.

Lemma finish_one_act w opcode fin len off :
  finish_one w opcode fin len off =
    (let '(p, c) := parse_body (in_buf w) opcode fin len off in act w p c).
Proof.
  unfold finish_one, parse_body. destruct (bool_decide _ && _).
  { unfold act. by rewrite with_in_buf_same. }
  destruct (decide (zlen (in_buf w) < _)%Z); [done|].
  unfold act, interpret. by repeat case_decide.
Qed.

Lemma parse_one_act w :
  parse_one w = (let '(p, c) := parse_client_frame (in_buf w) in act w p c).
Proof.
  assert (Hbad : (Error, queue_close w 1002) = act w (Protocol 1002) 0).
  { unfold act. by rewrite with_in_buf_same. }
  unfold parse_one, parse_client_frame.
  destruct (in_buf w) as [|b0 [|b1 l]] eqn:E; [done..|]. cbv zeta.
  rewrite <- E, Hbad, !finish_one_act.
  repeat (case_decide; try done).
Qed.

(** ** Termination *)

Lemma flush_loop_total fuel w :
  length (out_buf w) - out_pos w < fuel -> exists w' r, flush_loop fuel w = Some (w', r).
Proof.
  revert w. induction fuel as [|fuel IH]; intros w Hf; [lia|]. cbn [flush_loop].
  case_decide; [|by eexists _, _].
  destruct (poll_write _ _) as [i [[[|k]|e]|]]; try by eexists _, _.
  apply IH. cbn. lia.
Qed.

(** What a flush leaves alone. *)
Lemma flush_loop_frame fuel w w' r :
  flush_loop fuel w = Some (w', r) ->
  in_buf w' = in_buf w /\ ready w' = ready w /\ close_sent w' = close_sent w /\ eof w' = eof w /\
  (r = Ready (Ok tt) -> out_buf w' = [] /\ out_pos w' = 0).
Proof.
  revert w. induction fuel as [|fuel IH]; intros w E; [done|]. cbn [flush_loop] in E.
  case_decide; [|by simplify_eq].
  destruct (poll_write _ _) as [i [[[|k]|e]|]]; simplify_eq/=; try done.
  by apply IH in E.
Qed.

Context `{!PollLaws T}.

Lemma flush_loop_reads fuel w w' r :
  flush_loop fuel w = Some (w', r) -> poll_fuel (inner w') <= poll_fuel (inner w).
Proof.
  revert w. induction fuel as [|fuel IH]; intros w E; [done|]. cbn [flush_loop] in E.
  case_decide; [|by simplify_eq].
  destruct (poll_write _ _) as [i res] eqn:Ew. apply poll_write_reads in Ew.
  destruct res as [[[|k]|e]|]; simplify_eq/=; try done. apply IH in E. cbn in E. lia.
Qed.

Lemma flush_out_total w :
  exists w' r, flush_out w = Some (w', r) /\ ws_poll_fuel w' <= ws_poll_fuel w /\ eof w' = eof w.
Proof.
  destruct (flush_loop_total (S (length (out_buf w) - out_pos w)) w) as (w' & r & E); [lia|].
  exists w', r. split; [done|]. pose proof (flush_loop_reads _ _ _ _ E).
  apply flush_loop_frame in E as (H1 & H2 & H3 & H4 & _).
  unfold ws_poll_fuel. rewrite H1, H2, H4. split; [lia|done].
Qed.

Lemma parse_one_spends w parsed w' :
  parse_one w = (parsed, w') -> inner w' = inner w /\ ready w' = ready w /\ eof w' = eof w /\
    match parsed with
    | Need => w' = w
    | Payload p => length (in_buf w') + 6 + length p <= length (in_buf w)
    | Control => length (in_buf w') + 6 <= length (in_buf w)
    | Eof | Error => length (in_buf w') <= length (in_buf w)
    end.
Proof.
  rewrite parse_one_act. destruct (parse_client_frame (in_buf w)) as [p c] eqn:E.
  assert (Hq : forall w0 code, inner (queue_close w0 code) = inner w0 /\
    ready (queue_close w0 code) = ready w0 /\ eof (queue_close w0 code) = eof w0 /\
    in_buf (queue_close w0 code) = in_buf w0).
  { intros w0 code. unfold queue_close. by destruct (close_sent w0). }
  assert (Hp : p <> NeedMore -> p <> Protocol 1002 -> 
    length (drop (Z.to_nat c) (in_buf w)) + 6 +
      (match p with Data q => length q | _ => 0 end) <= length (in_buf w)).
  { intros H1 H2. destruct (parse_cases _ _ _ E) as [[-> _]|[[-> _]|(Hc & op & pl & -> & Hl & _)]];
      [done..|]. rewrite length_drop. unfold zlen in *.
    assert (match interpret op pl with Data q => length q | _ => 0 end <= length pl)
      by (unfold interpret; repeat case_decide; lia). lia. }
  unfold act. intros Ha. destruct p as [q|q| |code| |code]; simplify_eq/=;
    try (split_and!; [done..|]; try (specialize (Hp ltac:(done) ltac:(done))); lia || done).
  - destruct (Hq (with_in_buf (drop (Z.to_nat c) (in_buf w)) w) code) as (-> & -> & -> & ->).
    cbn. rewrite length_drop. split_and!; [done..|lia].
  - destruct (Hq (with_in_buf (drop (Z.to_nat c) (in_buf w)) w) code) as (-> & -> & -> & ->).
    cbn. rewrite length_drop. split_and!; [done..|lia].
Qed.

Lemma ws_poll_read_loop_total fuel w n :
  ws_poll_fuel w < fuel ->
  exists w' r, ws_poll_read_loop fuel w n = Some (w', r) /\
    match r with
    | Ready (Ok bs) => length bs <= n /\ ws_poll_fuel w' + length bs <= ws_poll_fuel w
    | _ => ws_poll_fuel w' <= ws_poll_fuel w
    end.
Proof.
  revert w. induction fuel as [|fuel IH]; intros w0 Hf; [lia|]. cbn [ws_poll_read_loop].
  destruct (flush_out_total w0) as (w & r0 & -> & Hw & He0). cbn [mbind option_bind].
  destruct (decide (ready w <> [])) as [Hr|Hr].
  { eexists _, _. split; [done|]. cbv beta iota zeta. rewrite length_take. split; [lia|].
    revert Hw. unfold ws_poll_fuel. cbn. rewrite length_drop. lia. }
  destruct (eof w) eqn:He; [eexists _, _; split; [done|]; cbn; lia|].
  destruct (parse_one w) as [parsed w1] eqn:Ep.
  apply parse_one_spends in Ep as (Hi & Hrd & He1 & Hs).
  assert (Hgo : forall w2, ws_poll_fuel w2 < ws_poll_fuel w ->
    exists w' r, ws_poll_read_loop fuel w2 n = Some (w', r) /\
    match r with
    | Ready (Ok bs) => length bs <= n /\ ws_poll_fuel w' + length bs <= ws_poll_fuel w0
    | _ => ws_poll_fuel w' <= ws_poll_fuel w0
    end).
  { intros w2 H2. destruct (IH w2) as (w' & r & E & H); [lia|]. exists w', r. split; [done|].
    destruct r as [[bs|e]|]; [destruct H; split; lia|lia|lia]. }
  destruct parsed as [|p| | |].
  - subst w1. destruct (poll_read (inner w) TMP_LEN) as [i res] eqn:Er.
    pose proof (poll_read_stops _ _ _ _ Er) as Hstop.
    destruct res as [[[|b bs]|e]|].
    + eexists _, _. split; [done|]. split; [simpl; lia|].
      revert Hw. unfold ws_poll_fuel. cbn. rewrite He. lia.
    + apply poll_read_spends in Er as [_ Er]. apply Hgo. unfold ws_poll_fuel. cbn.
      rewrite length_app. cbn in *. lia.
    + eexists _, _. split; [done|]. revert Hw. unfold ws_poll_fuel. cbn. lia.
    + eexists _, _. split; [done|]. revert Hw. unfold ws_poll_fuel. cbn. lia.
  - apply Hgo. unfold ws_poll_fuel. cbn. rewrite length_app, Hi, Hrd, He1, He. lia.
  - apply Hgo. unfold ws_poll_fuel. rewrite Hi, Hrd, He1, He. lia.
  - apply Hgo. unfold ws_poll_fuel. cbn. rewrite Hi, Hrd, He. lia.
  - apply Hgo. unfold ws_poll_fuel. cbn. rewrite Hi, Hrd, He. lia.
Qed.

Lemma ws_poll_read_total w n :
  exists w' r, ws_poll_read w n = Some (w', r) /\
    match r with
    | Ready (Ok bs) => length bs <= n /\ ws_poll_fuel w' + length bs <= ws_poll_fuel w
    | _ => ws_poll_fuel w' <= ws_poll_fuel w
    end.
Proof. apply ws_poll_read_loop_total. lia. Qed.
End Adapter.

(** ** A concrete connection *)

Inductive aread_event :=
| AChunk (bs : bytes)
| AWait
| AFail (e : ErrorKind).

Inductive awrite_event :=
| ATake (n : nat)
| AFull
| AWFail (e : ErrorKind).

Record ATcp := mkATcp {
  arx : list aread_event;
  atx : list awrite_event;
  asent : bytes;
}.

Definition script_poll (s : list aread_event) (n : nat) : list aread_event * poll (io_result bytes) :=
  match s with
  | [] => ([], Ready (Ok []))
  | AChunk bs :: s' =>
    if decide (length bs <= n) then (s', Ready (Ok bs))
    else (AChunk (drop n bs) :: s', Ready (Ok (take n bs)))
  | AWait :: s' => (s', Pending)
  | AFail e :: s' => (s', Ready (Err e))
  end.

Definition ascript_fuel (s : list aread_event) : nat :=
  sum_list ((fun e => match e with AChunk bs => S (length bs) | _ => 1 end) <$> s).

Definition ascript_bytes (s : list aread_event) : bytes :=
  mjoin ((fun e => match e with AChunk bs => bs | _ => [] end) <$> s).

Definition atcp_write (t : ATcp) (b : bytes) : ATcp * poll (io_result nat) :=
  match atx t with
  | [] => (mkATcp (arx t) [] (asent t ++ b), Ready (Ok (length b)))
  | ATake n :: s => (mkATcp (arx t) s (asent t ++ take n b), Ready (Ok (length (take n b))))
  | AFull :: s => (mkATcp (arx t) s (asent t), Pending)
  | AWFail e :: s => (mkATcp (arx t) s (asent t), Ready (Err e))
  end.

#[export] Instance atcp_PollRead : PollRead ATcp := {
  poll_read t n := let '(s, r) := script_poll (arx t) n in (mkATcp s (atx t) (asent t), r);
  poll_fuel t := ascript_fuel (arx t);
}.

#[export] Instance atcp_PollWrite : PollWrite ATcp := {
  poll_write := atcp_write;
  poll_flush t := (t, Ready (Ok tt));
  poll_shutdown t := (t, Ready (Ok tt));
}.

Lemma script_poll_fuel s n s' r :
  script_poll s n = (s', r) ->
  match r with
  | Ready (Ok bs) => length bs <= n /\ ascript_fuel s' + length bs <= ascript_fuel s
  | _ => ascript_fuel s' < ascript_fuel s
  end.
Proof.
  unfold ascript_fuel. destruct s as [|[bs| |e] s]; cbn; intros; simplify_eq; csimpl;
    try (split; lia); try lia.
  case_decide; simplify_eq; csimpl; len_solve.
Qed.

#[export] Instance atcp_PollLaws : PollLaws ATcp.
Proof.
  split; cbn [poll_read poll_write poll_fuel atcp_PollRead atcp_PollWrite].
  - intros [s t o] n t' bs E. cbn [arx atx asent] in *.
    destruct (script_poll s n) as [s' r] eqn:Es.
    apply script_poll_fuel in Es. by simplify_eq.
  - intros [s t o] n t' res E. cbn [arx atx asent] in *.
    destruct (script_poll s n) as [s' r] eqn:Es.
    apply script_poll_fuel in Es. simplify_eq. cbn [arx]. destruct res as [[bs|e]|]; lia.
  - intros [s [|[k| |e] t] o] b t' res E; unfold atcp_write in E; by simplify_eq/=.
Qed.

(** Reads that arrive in time: data, or waits. *)
Definition lively (e : aread_event) : Prop :=
  match e with AChunk bs => bs <> [] | AWait => True | AFail _ => False end.

#[export] Instance lively_dec e : Decision (lively e).
Proof. destruct e; simpl; apply _. Defined.

Lemma script_poll_lively s n s' r :
  0 < n -> Forall lively s -> script_poll s n = (s', r) ->
  Forall lively s' /\
  match r with
  | Ready (Ok []) => s = [] /\ s' = []
  | Ready (Ok bs) => ascript_bytes s = bs ++ ascript_bytes s'
  | Ready (Err _) => False
  | Pending => ascript_bytes s = ascript_bytes s'
  end.
Proof.
  intros Hn Hs E. destruct Hs as [|[bs| |e] s He Hs]; cbn in E; simplify_eq; [done| |done|done].
  case_decide as Hl; simplify_eq; unfold ascript_bytes; rewrite !fmap_cons, !mjoin_cons.
  - by destruct bs.
  - split.
    + constructor; [|done]. simpl. intros Hd. apply (f_equal length) in Hd.
      rewrite length_drop in Hd. simpl in Hd. lia.
    + destruct (take n bs) as [|b l] eqn:Et.
      { apply (f_equal length) in Et. rewrite length_take in Et. simpl in Et. lia. }
      by rewrite <- Et, app_assoc, take_drop.
Qed.

#[export] Instance atcp_PollStream : PollStream ATcp := {
  to_come t := ascript_bytes (arx t);
  gone_out := asent;
  calm t := Forall lively (arx t);
}.

#[export] Instance atcp_PollStreamLaws : PollStreamLaws ATcp.
Proof.
  split; cbn [poll_read poll_write poll_fuel to_come gone_out calm atcp_PollRead atcp_PollWrite
    atcp_PollStream].
  - intros [s t o] n t' res Hn Hc E. cbn [arx atx asent] in *.
    destruct (script_poll s n) as [s' r] eqn:Es. pose proof (script_poll_fuel s n s' r Es) as Hf.
    apply script_poll_lively in Es as [Hl Hr]; [|done..]. simplify_eq. cbn [arx]. split; [done|].
    destruct res as [[[|b bs]|e]|]; [destruct Hr as [-> ->]| | |]; done.
  - intros [s t o] n t' res E. cbn [arx atx asent] in *. destruct (script_poll s n). by simplify_eq.
  - intros [s [|[k| |e] t] o] b t' res E; unfold atcp_write in E; simplify_eq/=; split_and!;
      rewrite ?firstn_all, ?length_take; try done; [lia|].
    f_equal. destruct (decide (k <= length b)); [f_equal; lia|]. by rewrite !take_ge by lia.
Qed.

(** ** What leaves the socket *)

Section Observed.
Context {T : Type} `{!PollRead T, !PollWrite T, !PollLaws T, !PollStream T, !PollStreamLaws T}.
Implicit Type w : WsStream T.

(** The bytes sent and those queued behind them. *)
Definition outbound w : bytes := gone_out (inner w) ++ drop (out_pos w) (out_buf w).

Definition out_ok w : Prop := out_pos w <= length (out_buf w).

Lemma flush_outbound w w' r :
  flush_out w = Some (w', r) -> out_ok w ->
  outbound w' = outbound w /\ out_ok w' /\
  (to_come (inner w') = to_come (inner w) /\ (calm (inner w) -> calm (inner w'))) /\
  in_buf w' = in_buf w /\ ready w' = ready w /\ close_sent w' = close_sent w /\ eof w' = eof w /\
  (r = Ready (Ok tt) -> outbound w' = gone_out (inner w')).
Proof.
  unfold flush_out. generalize (S (length (out_buf w) - out_pos w)) as fuel. intros fuel E Hok.
  pose proof (flush_loop_frame _ _ _ _ E) as (H1 & H2 & H3 & H4 & H5).
  enough (outbound w' = outbound w /\ out_ok w' /\
    to_come (inner w') = to_come (inner w) /\ (calm (inner w) -> calm (inner w'))) as (Ho & Hk & Hr).
  { split_and!; try done; try apply Hr. intros Hd. apply H5 in Hd as [Hb Hp]. unfold outbound.
    by rewrite Hb, Hp, app_nil_r. }
  clear H1 H2 H3 H4 H5. revert w E Hok. induction fuel as [|fuel IH]; intros w E Hok; [done|].
  cbn [flush_loop] in E. unfold out_ok, outbound in *. case_decide as Hlt.
  2: { simplify_eq/=. by rewrite !drop_ge by (simpl; lia). }
  destruct (poll_write (inner w) _) as [i res] eqn:Ew.
  apply ps_write in Ew as (Hc & Hcalm & Hres).
  set (left := drop (out_pos w) (out_buf w)) in *.
  assert (Hleft : length left = length (out_buf w) - out_pos w) by (unfold left; by rewrite length_drop).
  destruct res as [[[|m]|e]|].
  - destruct Hres as [_ Hg]. rewrite app_nil_r in Hg. simplify_eq/=. by rewrite Hg.
  - destruct Hres as [Hm Hg]. apply IH in E as (Ho & Hk & Hr1 & Hr2); [|cbn; lia].
    cbn [inner with_out with_inner out_pos out_buf] in *.
    split_and!; [|done|congruence|auto]. rewrite Ho, Hg, <- drop_drop. fold left.
    by rewrite <- app_assoc, take_drop.
  - simplify_eq/=. by rewrite Hres.
  - simplify_eq/=. by rewrite Hres.
Qed.

Lemma queue_frame_outbound w op p :
  out_ok w -> out_ok (queue_frame w op p) /\
    outbound (queue_frame w op p) = outbound w ++ server_frame op p.
Proof using Type.
  unfold out_ok, outbound, queue_frame. cbn. intros H. split; [rewrite length_app; lia|].
  by rewrite drop_app_le, app_assoc.
Qed.

(** ** The stream presented *)

Definition future w (more : bytes) : bytes * bytes :=
  let '(d, r) := if eof w then ([], []) else decode (in_buf w ++ more) in
  (ready w ++ d, outbound w ++ r).

Record ws_inv w : Prop := {
  wi_out : out_ok w;
  wi_close : close_sent w = true -> eof w = true;
}.

(** What [parse_one] does to what is still to come. *)
Lemma parse_one_future w parsed w1 more :
  parse_one w = (parsed, w1) -> ws_inv w -> eof w = false ->
  inner w1 = inner w /\
  match parsed with
  | Need => w1 = w /\ parse_client_frame (in_buf w) = (NeedMore, 0%Z)
  | Payload p => let w2 := with_ready (ready w1 ++ p) w1 in
      ws_inv w2 /\ eof w2 = false /\ future w2 more = future w more
  | Control => ws_inv w1 /\ eof w1 = false /\ future w1 more = future w more
  | Eof | Error => ws_inv (with_eof w1) /\ future (with_eof w1) more = future w more
  end.
Proof.
  rewrite parse_one_act. destruct (parse_client_frame (in_buf w)) as [p c] eqn:E.
  intros Ha HI He. pose proof (wi_out _ HI) as Hout.
  assert (Hc : close_sent w = false) by (destruct (close_sent w) eqn:Hc; [|done];
    by rewrite (wi_close _ HI Hc) in He).
  pose proof (decode_app_eq _ more _ _ E) as Hdec.
  unfold act, queue_close in Ha. cbn [close_sent with_in_buf] in Ha. rewrite Hc in Ha.
  destruct p as [q|q| |code| |code]; simplify_eq;
    try (specialize (Hdec ltac:(done)); unfold future; cbn; rewrite Hdec).
  - split; [done|]. rewrite He. split_and!; [by destruct HI|done|].
    destruct (decode (drop _ _ ++ more)) as [d r]. cbn. by rewrite app_assoc.
  - split; [done|]. rewrite He. split_and!; [|done|].
    + destruct HI. split; [|done]. unfold out_ok in *. cbn. rewrite length_app. lia.
    + destruct (decode (drop _ _ ++ more)) as [d r]. cbn. f_equal.
      destruct (queue_frame_outbound (with_in_buf (drop (Z.to_nat c) (in_buf w)) w) OP_PONG q)
        as [_ ->]; [done|].
      change (outbound (with_in_buf (drop (Z.to_nat c) (in_buf w)) w)) with (outbound w).
      by rewrite <- app_assoc.
  - split; [done|]. rewrite He. split_and!; [by destruct HI|done|done].
  - split; [done|]. rewrite He. split; [split; [|done]|].
    + unfold out_ok in *. cbn. rewrite length_app. lia.
    + f_equal. unfold outbound. cbn [inner out_pos out_buf with_eof queue_frame with_out
        with_close_sent with_in_buf].
      by rewrite drop_app_le, app_nil_r, app_assoc by done.
  - split; [done|]. split; [done|].
    destruct (parse_cases _ _ _ E) as [[_ ->]|[[? _]|(_ & op & pl & Hp & _)]]; [done..|].
    unfold interpret in Hp. by repeat case_decide.
  - split; [done|]. rewrite He. split; [split; [|done]|].
    + unfold out_ok in *. cbn. rewrite length_app. lia.
    + f_equal. unfold outbound. cbn [inner out_pos out_buf with_eof queue_frame with_out
        with_close_sent with_in_buf].
      by rewrite drop_app_le, app_nil_r, app_assoc by done.
Qed.

Lemma ws_poll_read_future fuel w n w' r :
  0 < n -> ws_poll_read_loop fuel w n = Some (w', r) -> ws_inv w -> calm (inner w) ->
  ws_inv w' /\ calm (inner w') /\
  match r with
  | Ready (Ok bs) => future w (to_come (inner w)) =
      (bs ++ (future w' (to_come (inner w'))).1, (future w' (to_come (inner w'))).2) /\
      (bs = [] -> future w' (to_come (inner w')) = ([], outbound w'))
  | Ready (Err _) => False
  | Pending => future w (to_come (inner w)) = future w' (to_come (inner w'))
  end.
Proof.
  intros Hn. revert w. induction fuel as [|fuel IH]; intros w0 E HI0 Hl; [done|].
  cbn [ws_poll_read_loop] in E. destruct (flush_out w0) as [[w r0]|] eqn:Ef; [|done].
  cbn [mbind option_bind] in E.
  apply flush_outbound in Ef as (Ho & Hok & [Hx Hcl] & Hi & Hr & Hc & He & _); [|apply HI0].
  assert (HI : ws_inv w) by (split; [done|]; rewrite Hc, He; apply HI0).
  assert (Hfut : forall more, future w0 more = future w more).
  { intros more. unfold future. by rewrite Ho, Hi, Hr, He. }
  rewrite Hfut. rewrite <- Hx. apply Hcl in Hl. clear w0 HI0 Hfut Ho Hok Hx Hcl Hi Hr Hc He.
  destruct (decide (ready w <> [])) as [Hne|Hne].
  { simplify_eq. split; [by destruct HI|]. split; [done|]. split.
    - unfold future. cbn. destruct (if eof w then _ else _) as [d rr]. cbn.
      by rewrite app_assoc, take_drop.
    - intros Ht. apply (f_equal length) in Ht. rewrite length_take in Ht.
      destruct (ready w); [done|]. cbn [length] in Ht. lia. }
  apply dec_stable in Hne. destruct (eof w) eqn:He.
  { simplify_eq. unfold future. rewrite He, Hne, !app_nil_r. done. }
  destruct (parse_one w) as [parsed w1] eqn:Ep.
  destruct (parse_one_future _ _ _ (to_come (inner w)) Ep HI He) as [Hx H].
  destruct parsed as [|p| | |].
  2-5: destruct H as (HI1 & H); try destruct H as (_ & H); rewrite <- H, <- Hx in *;
    apply IH in E; [exact E|exact HI1|exact Hl].
  destruct H as [-> Hparse].
  destruct (poll_read (inner w) TMP_LEN) as [i res] eqn:Er. pose proof (ps_read_out _ _ _ _ Er) as Hg.
  apply ps_read in Er as [Hs' Hres]; [|unfold TMP_LEN; lia|done].
  assert (HI1 : ws_inv (with_inner i w)) by by destruct HI.
  destruct res as [[[|b bs]|e]|].
  - destruct Hres as [_ H0]. rewrite H0 by done. simplify_eq. split; [by destruct HI1|]. split; [done|].
    unfold future, outbound. cbn [eof with_eof with_inner inner ready in_buf out_buf out_pos].
    rewrite He, Hne, Hg, !app_nil_r. by rewrite (decode_eq _ _ _ Hparse), !app_nil_r.
  - destruct Hres as [Hres _]. apply IH in E; [|by destruct HI1|done].
    assert (Hsame : future (with_in_buf (in_buf (with_inner i w) ++ b :: bs) (with_inner i w))
        (to_come i) = future w (to_come (inner w))).
    { unfold future, outbound. cbn [eof in_buf ready inner out_pos out_buf with_in_buf with_inner].
      by rewrite Hg, Hres, <- app_assoc. }
    rewrite <- Hsame. exact E.
  - done.
  - simplify_eq. split; [done|]. split; [done|]. destruct Hres as [Hres _]. unfold future, outbound.
    cbn [eof in_buf ready inner out_pos out_buf with_inner]. by rewrite Hg, Hres.
Qed.

(** Polling to the end of the stream. *)
Fixpoint poll_all (fuel : nat) w (n : nat) : option (WsStream T * bytes) :=
  match fuel with
  | O => None
  | S fuel =>
    '(w, r) ← ws_poll_read w n;
    match r with
    | Ready (Ok []) => Some (w, [])
    | Ready (Ok bs) => '(w, rest) ← poll_all fuel w n; Some (w, bs ++ rest)
    | Ready (Err _) => None
    | Pending => poll_all fuel w n
    end
  end.

(** ** The payload alone, from any state *)

Lemma flush_still w w' r :
  flush_out w = Some (w', r) ->
  (to_come (inner w') = to_come (inner w) /\ (calm (inner w) -> calm (inner w'))) /\
  in_buf w' = in_buf w /\ ready w' = ready w /\ eof w' = eof w.
Proof using PollStreamLaws0.
  unfold flush_out. generalize (S (length (out_buf w) - out_pos w)) as fuel. intros fuel E.
  pose proof (flush_loop_frame _ _ _ _ E) as (H1 & H2 & _ & H4 & _). split; [|done]. clear H1 H2 H4.
  revert w E. induction fuel as [|fuel IH]; intros w E; [done|]. cbn [flush_loop] in E.
  case_decide; [|by simplify_eq]. destruct (poll_write (inner w) _) as [i res] eqn:Ew.
  apply ps_write in Ew as (Hc & Hcalm & _).
  destruct res as [[[|m]|e]|]; [by simplify_eq| |by simplify_eq|by simplify_eq].
  apply IH in E as [H1 H2]. cbn in H1, H2. split; [congruence|auto].
Qed.

(** What a reader of the adapter has still to be given. *)
Definition presented w : bytes :=
  ready w ++ (if eof w then [] else (decode (in_buf w ++ to_come (inner w))).1).

Lemma parse_one_presented w parsed w1 :
  parse_one w = (parsed, w1) -> eof w = false -> ready w = [] ->
  inner w1 = inner w /\
  match parsed with
  | Need => w1 = w /\ decode (in_buf w) = ([], [])
  | Payload p => presented (with_ready (ready w1 ++ p) w1) = presented w
  | Control => presented w1 = presented w
  | Eof | Error => presented (with_eof w1) = presented w
  end.
Proof using Type.
  rewrite parse_one_act. destruct (parse_client_frame (in_buf w)) as [p c] eqn:E.
  intros Ha He Hr. pose proof (decode_app_eq _ (to_come (inner w)) _ _ E) as Hdec.
  assert (Hq : forall w0 code, inner (queue_close w0 code) = inner w0 /\
    ready (queue_close w0 code) = ready w0).
  { intros w0 code. unfold queue_close. by destruct (close_sent w0). }
  unfold act, presented in *.
  destruct p as [q|q| |code| |code]; simplify_eq; rewrite ?He, ?Hr;
    try (specialize (Hdec ltac:(done)); rewrite Hdec); cbn.
  - rewrite He, Hr. split; [done|]. clear Hdec. by destruct (decode _).
  - rewrite He, Hr. split; [done|]. clear Hdec. by destruct (decode _).
  - by rewrite He, Hr.
  - destruct (Hq (with_in_buf (drop (Z.to_nat c) (in_buf w)) w) code) as [-> ->]. cbn. by rewrite Hr.
  - split; [done|]. split; [done|]. exact (decode_eq _ _ _ E).
  - destruct (Hq (with_in_buf (drop (Z.to_nat c) (in_buf w)) w) code) as [-> ->]. cbn. by rewrite Hr.
Qed.

Lemma ws_poll_read_presented fuel w n w' r :
  0 < n -> ws_poll_read_loop fuel w n = Some (w', r) -> calm (inner w) ->
  calm (inner w') /\
  match r with
  | Ready (Ok bs) => presented w = bs ++ presented w' /\ (bs = [] -> presented w = [])
  | Ready (Err _) => False
  | Pending => presented w' = presented w
  end.
Proof using PollStreamLaws0.
  intros Hn. revert w. induction fuel as [|fuel IH]; intros w0 E Hl; [done|].
  cbn [ws_poll_read_loop] in E. destruct (flush_out w0) as [[w r0]|] eqn:Ef; [|done].
  cbn [mbind option_bind] in E. apply flush_still in Ef as ([Hx Hcl] & Hi & Hr & He). apply Hcl in Hl.
  assert (presented w0 = presented w) as -> by (unfold presented; by rewrite Hx, Hi, Hr, He).
  clear w0 Hx Hcl Hi Hr He. destruct (decide (ready w <> [])) as [Hne|Hne].
  { simplify_eq. split; [done|]. split.
    - unfold presented. cbn. by rewrite app_assoc, take_drop.
    - intros Ht. apply (f_equal length) in Ht. rewrite length_take in Ht.
      destruct (ready w); [done|]. cbn [length] in Ht. lia. }
  apply dec_stable in Hne. destruct (eof w) eqn:He.
  { simplify_eq. unfold presented. by rewrite He, Hne. }
  destruct (parse_one w) as [parsed w1] eqn:Ep.
  destruct (parse_one_presented _ _ _ Ep He Hne) as [Hx H].
  destruct parsed as [|p| | |].
  2-5: apply IH in E; [rewrite H in E; exact E|cbn; by rewrite Hx].
  destruct H as [-> Hd].
  destruct (poll_read (inner w) TMP_LEN) as [i res] eqn:Er.
  apply ps_read in Er as [Hs' Hres]; [|unfold TMP_LEN; lia|done].
  destruct res as [[[|b bs]|e]|]; [| |done|].
  - destruct Hres as [_ H0]. simplify_eq. split; [done|]. unfold presented.
    cbn [eof with_eof with_inner ready]. by rewrite He, Hne, H0, app_nil_r, Hd by done.
  - destruct Hres as [Hres _]. apply IH in E; [|done].
    assert (presented (with_in_buf (in_buf (with_inner i w) ++ b :: bs) (with_inner i w)) = presented w)
      as Hsame.
    { unfold presented. cbn [eof in_buf ready inner with_in_buf with_inner].
      by rewrite Hres, <- app_assoc. }
    rewrite Hsame in E. exact E.
  - destruct Hres as [Hres _]. simplify_eq. split; [done|]. unfold presented.
    cbn [eof in_buf ready inner with_inner]. by rewrite Hres.
Qed.

(** A poll that waits has used up one of the waits to come. *)
Lemma pending_progress fuel w n w' :
  ws_poll_read_loop fuel w n = Some (w', Pending) -> calm (inner w) ->
  ws_poll_fuel w' < ws_poll_fuel w.
Proof.
  revert w. induction fuel as [|fuel IH]; intros w0 E Hc0; [done|].
  cbn [ws_poll_read_loop] in E. destruct (flush_out_total w0) as (w & r0 & Ef & Hw & He0).
  rewrite Ef in E. apply flush_still in Ef as ([_ Hc] & _). apply Hc in Hc0.
  cbn [mbind option_bind] in E. case_decide; [done|].
  destruct (eof w) eqn:He; [done|]. destruct (parse_one w) as [parsed w1] eqn:Ep.
  apply parse_one_spends in Ep as (Hi & Hrd & He1 & Hs).
  destruct parsed as [|p| | |].
  - subst w1. destruct (poll_read (inner w) TMP_LEN) as [i res] eqn:Er.
    pose proof (ps_read (inner w) TMP_LEN _ _ ltac:(unfold TMP_LEN; lia) Hc0 Er) as [Hc1 Hres].
    destruct res as [[[|b bs]|e]|]; [done| |done|].
    + apply poll_read_spends in Er as [_ Er]. apply IH in E; [|done]. unfold ws_poll_fuel in *.
      cbn [ready in_buf inner with_in_buf with_inner eof] in *.
      rewrite length_app in E. rewrite He in *. cbn [length] in *. lia.
    + simplify_eq. unfold ws_poll_fuel in *. cbn [ready in_buf inner with_inner eof] in *. lia.
  - apply IH in E; [|cbn; by rewrite Hi]. unfold ws_poll_fuel in *. cbn in E. rewrite length_app, Hi, Hrd, He1, He in E.
    rewrite He in Hw. cbn in *. lia.
  - apply IH in E; [|by rewrite Hi]. unfold ws_poll_fuel in *. rewrite Hi, Hrd, He1, He in E. rewrite He in Hw. lia.
  - apply IH in E; [|cbn; by rewrite Hi]. unfold ws_poll_fuel in *. cbn in E. rewrite Hi, Hrd in E. rewrite He in Hw.
    cbn in *. lia.
  - apply IH in E; [|cbn; by rewrite Hi]. unfold ws_poll_fuel in *. cbn in E. rewrite Hi, Hrd in E. rewrite He in Hw.
    cbn in *. lia.
Qed.

Lemma poll_all_future fuel w n :
  0 < n -> ws_poll_fuel w < fuel -> ws_inv w -> calm (inner w) ->
  exists w', poll_all fuel w n = Some (w', (future w (to_come (inner w))).1) /\
    outbound w' = (future w (to_come (inner w))).2.
Proof.
  intros Hn. revert w. induction fuel as [|fuel IH]; intros w Hf HI Hl; [lia|].
  cbn [poll_all]. destruct (ws_poll_read_total w n) as (w1 & r & E & Hfuel).
  rewrite E. cbn [mbind option_bind]. unfold ws_poll_read in E.
  destruct r as [[bs|e]|].
  - apply ws_poll_read_future in E as (HI1 & Hl1 & Hfut & Hend); [|done..].
    rewrite Hfut. destruct bs as [|b bs]; [by rewrite (Hend eq_refl); exists w1|].
    destruct (IH w1) as (w2 & -> & H2); [simpl in Hfuel; lia|done|done|]. by exists w2.
  - by apply ws_poll_read_future in E as (_ & _ & H).
  - pose proof (pending_progress _ _ _ _ E Hl).
    apply ws_poll_read_future in E as (HI1 & Hl1 & ->); [|done..]. apply IH; [lia|done|done].
Qed.

(** A new adapter polled to its end. *)
Lemma poll_all_new (i : T) n :
  0 < n -> calm i ->
  exists w', poll_all (S (ws_poll_fuel (new i))) (new i) n = Some (w', (decode (to_come i)).1) /\
    outbound w' = gone_out i ++ (decode (to_come i)).2.
Proof.
  intros Hn Hc.
  assert (HI : ws_inv (new i)) by (split; [apply Nat.le_0_l|done]).
  destruct (poll_all_future (S (ws_poll_fuel (new i))) (new i) n Hn ltac:(lia) HI Hc) as (w' & E & Ho).
  exists w'. unfold future, outbound in E, Ho. cbn [new eof in_buf ready inner out_pos out_buf] in E, Ho.
  rewrite app_nil_l in *. destruct (decode (to_come i)) as [d r]. rewrite drop_nil, app_nil_r in Ho.
  split; [exact E|exact Ho].
Qed.
End Observed.

(** ** Theorems *)

(** The asynchronous parser is the synchronous one.  On every buffer the
    two take the same decision: wait, deliver the same payload, answer a ping
    with the same pong, end on the same close code or violation; the bytes
    consumed and the frame queued are those the synchronous adapter would
    consume and send. *)
Theorem parsers_agree {T} (w : WsStream T) :
  parse_one w =
    (let '(p, c) := parse_client_frame (in_buf w) in
     let w' := with_in_buf (drop (Z.to_nat c) (in_buf w)) w in
     match p with
     | NeedMore => (Need, w)
     | Data q => (Payload q, w')
     | Ping q => (Control, queue_frame w' OP_PONG q)
     | Pong => (Control, w')
     | Close code => (Eof, queue_close w' code)
     | Protocol code => (Error, queue_close w' code)
     end).
Proof. exact (parse_one_act w). Qed.

(** The asynchronous adapter presents the same stream as the synchronous
    one.  Whatever the cut into reads, and however often reads and writes are
    not ready or writes fail, polling to the end gives the payload [decode]
    finds in the bytes, and what was sent together with what is still queued
    is the same sequence of pongs and close. *)
Theorem async_presents_stream s t o n :
  Forall lively s -> 0 < n ->
  exists w', poll_all (S (ws_poll_fuel (new (mkATcp s t o)))) (new (mkATcp s t o)) n
      = Some (w', (decode (ascript_bytes s)).1) /\
    outbound w' = o ++ (decode (ascript_bytes s)).2.
Proof. intros Hl Hn. exact (poll_all_new (mkATcp s t o) n Hn Hl). Qed.

Definition async_script : list aread_event :=
  [ AChunk (take 5 (encode_message (mkMessage true OP_BIN sample_mask [x61; x62; x63])));
    AWait;
    AChunk (drop 5 (encode_message (mkMessage true OP_BIN sample_mask [x61; x62; x63])) ++
            encode_message text_message) ].

Lemma async_presents_stream_witness :
  exists w', poll_all (S (ws_poll_fuel (new (mkATcp async_script [AFull; ATake 1] []))))
      (new (mkATcp async_script [AFull; ATake 1] [])) 2 = Some (w', [x61; x62; x63]) /\
    outbound w' = server_frame OP_CLOSE (to_be_bytes 2 1003).
Proof.
  assert (Hl : Forall lively async_script)
    by (apply (bool_decide_unpack _); vm_compute; exact I).
  exact (async_presents_stream async_script [AFull; ATake 1] [] 2 Hl (le_S _ _ (le_n 1))).
Defined.

(** ** Reader and writer on one adapter

    tokio's [split] lets a reader and a writer task poll the same adapter in
    turns; the replies the reader queues and the frames the writer queues go
    through one buffer. *)

Inductive op :=
| OpRead (n : nat)
| OpWrite (buf : bytes)
| OpFlush
| OpShutdown.

(** One poll, and the write it accepted, if any. *)
Definition perform (w : WsStream ATcp) (o : op) : option (WsStream ATcp * list bytes) :=
  match o with
  | OpRead n => '(w, _) ← ws_poll_read w n; Some (w, [])
  | OpWrite buf =>
    '(w, r) ← ws_poll_write w buf;
    Some (w, match r with Ready (Ok _) => [buf] | _ => [] end)
  | OpFlush => '(w, _) ← ws_poll_flush w; Some (w, [])
  | OpShutdown => '(w, _) ← ws_poll_shutdown w; Some (w, [])
  end.

Fixpoint perform_all (w : WsStream ATcp) (os : list op) : option (WsStream ATcp * list bytes) :=
  match os with
  | [] => Some (w, [])
  | o :: os =>
    '(w, l) ← perform w o;
    '(w, l') ← perform_all w os;
    Some (w, l ++ l')
  end.

(** [emits w w' frames]: exactly these frames have been put behind what was
    on its way, and a close among them is the first one. *)
Record emits (w w' : WsStream ATcp) (frames : list (Z * bytes)) : Prop := {
  em_ok : out_ok w';
  em_out : outbound w' = outbound w ++ whole frames;
  em_ops : Forall (fun f => f.1 = OP_BIN \/ f.1 = OP_PONG \/ f.1 = OP_CLOSE) frames;
  em_close : length (of_opcode OP_CLOSE frames) + Nat.b2n (close_sent w) = Nat.b2n (close_sent w');
}.

Lemma emits_same w w' :
  out_ok w' -> outbound w' = outbound w -> close_sent w' = close_sent w -> emits w w' [].
Proof. intros H1 H2 H3. split; [done|by rewrite H2, app_nil_r|done|by rewrite H3]. Qed.

Lemma emits_trans w1 w2 w3 fs gs : emits w1 w2 fs -> emits w2 w3 gs -> emits w1 w3 (fs ++ gs).
Proof.
  intros [H1 H2 H3 H4] [H5 H6 H7 H8]. split; [done| |by apply Forall_app|].
  - by rewrite whole_app, H6, H2, app_assoc.
  - rewrite of_opcode_app, length_app. lia.
Qed.

Lemma flush_emits w w' r : flush_out w = Some (w', r) -> out_ok w -> emits w w' [].
Proof.
  intros E Hok. apply flush_outbound in E as (Ho & Hk & _ & _ & _ & Hc & _); [|done].
  by apply emits_same.
Qed.

Lemma queue_frame_emits w c p :
  out_ok w -> c = OP_BIN \/ c = OP_PONG -> emits w (queue_frame w c p) [(c, p)].
Proof.
  intros Hok Hc. destruct (queue_frame_outbound w c p Hok) as [Hk Ho]. split; [done| |constructor; [cbn; tauto|constructor]|].
  - rewrite Ho. unfold whole. cbn. by rewrite app_nil_r.
  - destruct Hc as [->| ->]; reflexivity.
Qed.

Lemma queue_close_emits w code :
  out_ok w -> exists fs, emits w (queue_close w code) fs /\ of_opcode OP_BIN fs = [].
Proof.
  intros Hok. unfold queue_close. destruct (close_sent w) eqn:Hc.
  - exists []. split; [by apply emits_same|done].
  - exists [(OP_CLOSE, to_be_bytes 2 code)]. split; [|done].
    destruct (queue_frame_outbound (with_close_sent w) OP_CLOSE (to_be_bytes 2 code) Hok) as [Hk Ho].
    split; [done| |constructor; [by right; right|constructor]|].
    + rewrite Ho. unfold whole. cbn. by rewrite app_nil_r.
    + by rewrite Hc.
Qed.

Lemma parse_one_emits w parsed w1 :
  parse_one w = (parsed, w1) -> out_ok w ->
  exists fs, emits w w1 fs /\ of_opcode OP_BIN fs = [].
Proof.
  rewrite parse_one_act. destruct (parse_client_frame (in_buf w)) as [p c]. unfold act.
  intros E Hok. set (w' := with_in_buf _ w) in E.
  assert (H' : emits w w' []) by by apply emits_same.
  assert (Hq : forall w0 code, emits w w0 [] ->
    exists fs, emits w (queue_close w0 code) fs /\ of_opcode OP_BIN fs = []).
  { intros w0 code H0. destruct (queue_close_emits w0 code (em_ok _ _ _ H0)) as (fs & Hf & Hb).
    exists fs. split; [|done]. by eapply (emits_trans _ _ _ []). }
  destruct p as [q|q| |code| |code]; simplify_eq; try (by exists []); try (by apply Hq).
  - exists [(OP_PONG, q)]. split; [|done].
    eapply (emits_trans _ _ _ []); [exact H'|]. apply queue_frame_emits; [done|tauto].
  - exists []. split; [by apply emits_same|done].
Qed.


(** A read queues replies only. *)
Lemma poll_read_emits fuel w n w' r :
  ws_poll_read_loop fuel w n = Some (w', r) -> out_ok w ->
  exists fs, emits w w' fs /\ of_opcode OP_BIN fs = [].
Proof.
  revert w. induction fuel as [|fuel IH]; intros w0 E Hok0; [done|].
  cbn [ws_poll_read_loop] in E. destruct (flush_out w0) as [[w r0]|] eqn:Ef; [|done].
  cbn [mbind option_bind] in E. apply flush_emits in Ef; [|done].
  assert (Hsame : forall w1, out_pos w1 = out_pos w -> out_buf w1 = out_buf w ->
    gone_out (inner w1) = gone_out (inner w) -> close_sent w1 = close_sent w ->
    exists fs, emits w0 w1 fs /\ of_opcode OP_BIN fs = []).
  { intros w1 H1 H2 H3 H4. exists []. split; [|done]. eapply (emits_trans _ _ _ [] []); [exact Ef|].
    pose proof (em_ok _ _ _ Ef). apply emits_same; [|unfold outbound|done].
    - unfold out_ok in *. by rewrite H1, H2.
    - by rewrite H1, H2, H3. }
  assert (Hgo : forall w1 fs, emits w0 w1 fs -> of_opcode OP_BIN fs = [] ->
    ws_poll_read_loop fuel w1 n = Some (w', r) ->
    exists fs, emits w0 w' fs /\ of_opcode OP_BIN fs = []).
  { intros w1 fs H1 Hb E1. apply IH in E1 as (gs & H2 & Hg); [|apply H1].
    exists (fs ++ gs). split; [by eapply emits_trans|]. by rewrite of_opcode_app, Hb, Hg. }
  case_decide; [simplify_eq; by apply Hsame|].
  destruct (eof w); [simplify_eq; by apply Hsame|].
  destruct (parse_one w) as [parsed w1] eqn:Ep.
  pose proof (parse_one_spends _ _ _ Ep) as (_ & _ & _ & Hneed).
  apply parse_one_emits in Ep as (fs & Hf & Hb); [|apply Ef].
  assert (Hfs : emits w0 w1 fs) by exact (emits_trans _ _ _ [] fs Ef Hf).
  assert (Hfs' : forall w2, out_pos w2 = out_pos w1 -> out_buf w2 = out_buf w1 ->
    inner w2 = inner w1 -> close_sent w2 = close_sent w1 -> emits w0 w2 fs).
  { intros w2 H1 H2 H3 H4. destruct Hfs as [K1 K2 K3 K4].
    split; unfold out_ok, outbound in *; by rewrite ?H1, ?H2, ?H3, ?H4. }
  destruct parsed as [|p| | |]; [|refine (Hgo _ fs _ Hb E); by apply Hfs'..].
  subst w1. cbn [poll_read atcp_PollRead] in E.
  destruct (script_poll (arx (inner w)) TMP_LEN) as [s' [[[|b bs]|e]|]] eqn:Es; simplify_eq;
    try by apply Hsame.
  destruct (Hsame (with_in_buf (in_buf (with_inner (mkATcp s' (atx (inner w)) (asent (inner w))) w)
    ++ b :: bs) (with_inner (mkATcp s' (atx (inner w)) (asent (inner w))) w)))
    as (gs & Hg & Hgb); [done..|]. by eapply Hgo.
Qed.

Lemma perform_emits w o :
  out_ok w ->
  exists w' l fs, perform w o = Some (w', l) /\ emits w w' fs /\ of_opcode OP_BIN fs = l.
Proof.
  intros Hok. destruct o as [n|buf| |]; cbn [perform].
  - destruct (ws_poll_read_total w n) as (w' & r & E & _). rewrite E.
    apply poll_read_emits in E as (fs & H); [|done]. by exists w', [], fs.
  - unfold ws_poll_write. destruct (flush_out_total w) as (w1 & r & E & _).
    rewrite E. apply flush_emits in E; [|done]. cbn [mbind option_bind].
    destruct r as [[u|e]|]; [|by exists w1, [], []..].
    fold (queue_frame w1 OP_BIN buf).
    destruct (flush_out_total (queue_frame w1 OP_BIN buf)) as (w2 & r2 & E2 & _). rewrite E2.
    pose proof (queue_frame_emits w1 OP_BIN buf (em_ok _ _ _ E) ltac:(by left)) as Hq.
    apply flush_emits in E2; [|apply Hq]. exists w2, [buf], [(OP_BIN, buf)]. split; [done|].
    split; [|done]. exact (emits_trans _ _ _ [] _ E (emits_trans _ _ _ _ [] Hq E2)).
  - unfold ws_poll_flush. destruct (flush_out_total w) as (w1 & r & E & _).
    rewrite E. apply flush_emits in E; [|done]. cbn [mbind option_bind].
    destruct r as [[u|e]|]; [|by exists w1, [], []..].
    eexists _, [], []. split; [done|]. split; [|done]. by destruct E.
  - unfold ws_poll_shutdown. destruct (queue_close_emits w 1000 Hok) as (fs & Hf & Hb).
    destruct (flush_out_total (queue_close w 1000)) as (w1 & r & E & _).
    rewrite E. apply flush_emits in E; [|apply Hf]. cbn [mbind option_bind].
    pose proof (emits_trans _ _ _ _ [] Hf E) as H. rewrite app_nil_r in H.
    destruct r as [[u|e]|]; [|by exists w1, [], fs..].
    eexists _, [], fs. split; [done|]. split; [|done]. by destruct H.
Qed.

Lemma perform_all_emits os w :
  out_ok w ->
  exists w' l fs, perform_all w os = Some (w', l) /\ emits w w' fs /\ of_opcode OP_BIN fs = l.
Proof.
  revert w. induction os as [|o os IH]; intros w Hok; cbn [perform_all].
  - exists w, [], []. split; [done|]. split; [by apply emits_same|done].
  - destruct (perform_emits w o Hok) as (w1 & l1 & fs & -> & Hf & <-). cbn [mbind option_bind].
    destruct (IH w1 (em_ok _ _ _ Hf)) as (w2 & l2 & gs & -> & Hg & <-). cbn [mbind option_bind].
    exists w2, (of_opcode OP_BIN fs ++ of_opcode OP_BIN gs), (fs ++ gs). split; [done|].
    split; [by eapply emits_trans|apply of_opcode_app].
Qed.

(** C33: Frames stay whole when reader and writer share the adapter.  Poll it
    in any order for reads, writes, flushes and shutdowns, over a socket that
    takes any number of bytes at a time, is full or fails: every poll returns,
    and what was sent with what is queued is a sequence of complete binary,
    pong and close frames.  Its binary frames are exactly the writes that were
    accepted, in order and each once, and a second close is never queued. *)
Theorem writes_stay_whole s t o os :
  exists w' accepted frames, perform_all (new (mkATcp s t o)) os = Some (w', accepted) /\
    outbound w' = o ++ whole frames /\ of_opcode OP_BIN frames = accepted /\
    Forall (fun f => f.1 = OP_BIN \/ f.1 = OP_PONG \/ f.1 = OP_CLOSE) frames /\
    length (of_opcode OP_CLOSE frames) <= 1.
Proof.
  destruct (perform_all_emits os (new (mkATcp s t o))) as (w' & l & fs & E & [_ Ho Hops Hc] & Hb);
    [apply Nat.le_0_l|].
  exists w', l, fs. split_and!; [done| |done|done|].
  - rewrite Ho. unfold outbound. cbn. by rewrite app_nil_r.
  - cbn in Hc. destruct (close_sent w'); cbn in Hc; lia.
Qed.
