(* ===== verification/Sniff.v ===== *)
(** * Sniff: raw aiomsg or WebSocket on one port (asynchronous crate)

    Models [sniff_and_wrap], [Sniffed] and [Prefixed] of
    [rust-lib-async/src/ws.rs].  The request is read one byte at a time
    through tokio's [read_exact]. *)

From S2P Require Import Prelude Io Protocol ProtocolAsync WsFrame WsStream WsAsync Upgrade Sha1.
From Stdlib Require Import Strings.Byte.

(** ** Data *)

(** The stream with the sniffed byte pushed back. *)
Record Prefixed (T : Type) := mkPrefixed {
  p_inner : T;
  prefix : bytes;
  pos : nat;
}.
Arguments mkPrefixed {T} _ _ _.
Arguments p_inner {T} _.
Arguments prefix {T} _.
Arguments pos {T} _.

Inductive Sniffed (T : Type) :=
| Raw (s : Prefixed T)
| Ws (s : WsAsync.WsStream T).
Arguments Raw {T} _.
Arguments Ws {T} _.

(** ** [Prefixed] *)

Section Prefixed.
Context {T : Type} `{!PollRead T, !PollWrite T}.

Definition new_prefixed (prefix : bytes) (inner : T) : Prefixed T := mkPrefixed inner prefix 0.

Definition prefixed_poll_read (me : Prefixed T) (n : nat)
  : Prefixed T * poll (io_result bytes) :=
  if decide (pos me < length (prefix me)) then
    let remaining := drop (pos me) (prefix me) in
    let k := length remaining `min` n in
    (mkPrefixed (p_inner me) (prefix me) (pos me + k), Ready (Ok (take k remaining)))
  else
    let '(i, r) := poll_read (p_inner me) n in (mkPrefixed i (prefix me) (pos me), r).

Definition prefixed_poll_write (me : Prefixed T) (b : bytes) : Prefixed T * poll (io_result nat) :=
  let '(i, r) := poll_write (p_inner me) b in (mkPrefixed i (prefix me) (pos me), r).

Definition prefixed_poll_flush (me : Prefixed T) : Prefixed T * poll (io_result ()) :=
  let '(i, r) := poll_flush (p_inner me) in (mkPrefixed i (prefix me) (pos me), r).

Definition prefixed_poll_shutdown (me : Prefixed T) : Prefixed T * poll (io_result ()) :=
  let '(i, r) := poll_shutdown (p_inner me) in (mkPrefixed i (prefix me) (pos me), r).
End Prefixed.

#[export] Instance Prefixed_PollRead `{!PollRead T} : PollRead (Prefixed T) := {
  poll_read := prefixed_poll_read;
  poll_fuel me := length (prefix me) - pos me + poll_fuel (p_inner me);
}.

#[export] Instance Prefixed_PollWrite `{!PollWrite T} : PollWrite (Prefixed T) := {
  poll_write := prefixed_poll_write;
  poll_flush := prefixed_poll_flush;
  poll_shutdown := prefixed_poll_shutdown;
}.

(** The adapter keeps the laws, so whatever runs on a stream runs on it. *)
#[export] Instance Prefixed_PollLaws `{PollLaws T} : PollLaws (Prefixed T).
Proof.
  split; cbn [poll_read poll_write poll_fuel Prefixed_PollRead Prefixed_PollWrite].
  - intros me n me' bs. unfold prefixed_poll_read. case_decide.
    + intros. simplify_eq/=. rewrite length_take, length_drop. lia.
    + destruct (poll_read (p_inner me) n) as [i r] eqn:E. intros. simplify_eq/=.
      apply poll_read_spends in E. lia.
  - intros me n me' res. unfold prefixed_poll_read. case_decide.
    + intros. simplify_eq/=. lia.
    + destruct (poll_read (p_inner me) n) as [i r] eqn:E. intros. simplify_eq/=.
      apply poll_read_stops in E. lia.
  - intros me b me' res. unfold prefixed_poll_write.
    destruct (poll_write (p_inner me) b) as [i r] eqn:E. intros. simplify_eq/=.
    apply poll_write_reads in E. lia.
Qed.

(** ** [Sniffed]: its reader and writer are those of the chosen variant *)

Section Sniffed.
Context {T : Type} `{!PollRead T, !PollWrite T}.

Definition sniffed_poll_read (me : Sniffed T) (n : nat) : option (Sniffed T * poll (io_result bytes)) :=
  match me with
  | Raw s => let '(s, r) := prefixed_poll_read s n in Some (Raw s, r)
  | Ws s => '(s, r) ← ws_poll_read s n; Some (Ws s, r)
  end.

Definition sniffed_poll_write (me : Sniffed T) (buf : bytes) : option (Sniffed T * poll (io_result nat)) :=
  match me with
  | Raw s => let '(s, r) := prefixed_poll_write s buf in Some (Raw s, r)
  | Ws s => '(s, r) ← ws_poll_write s buf; Some (Ws s, r)
  end.

Definition sniffed_poll_flush (me : Sniffed T) : option (Sniffed T * poll (io_result ())) :=
  match me with
  | Raw s => let '(s, r) := prefixed_poll_flush s in Some (Raw s, r)
  | Ws s => '(s, r) ← ws_poll_flush s; Some (Ws s, r)
  end.

Definition sniffed_poll_shutdown (me : Sniffed T) : option (Sniffed T * poll (io_result ())) :=
  match me with
  | Raw s => let '(s, r) := prefixed_poll_shutdown s in Some (Raw s, r)
  | Ws s => '(s, r) ← ws_poll_shutdown s; Some (Ws s, r)
  end.

(** Polling a sniffed stream to its end. *)
Fixpoint sniffed_poll_all (fuel : nat) (me : Sniffed T) (n : nat) : option (Sniffed T * bytes) :=
  match fuel with
  | O => None
  | S fuel =>
    '(me, r) ← sniffed_poll_read me n;
    match r with
    | Ready (Ok []) => Some (me, [])
    | Ready (Ok bs) => '(me, rest) ← sniffed_poll_all fuel me n; Some (me, bs ++ rest)
    | Ready (Err _) => None
    | Pending => sniffed_poll_all fuel me n
    end
  end.

Definition sniffed_fuel (me : Sniffed T) : nat :=
  match me with Raw s => poll_fuel s | Ws s => ws_poll_fuel s end.
End Sniffed.

(** [sniff_and_wrap] reads and writes the connection through tokio's [.await]s,
    the session polls it: two views of one stream, which meets no I/O error. *)
Class OneStream (T : Type) `{!AsyncRead T, !AsyncWrite T, !PollRead T, !PollWrite T, !PollStream T} := {
  one_incoming t : to_come t = incoming t;
  one_written t : gone_out t = written t;
  one_calm t : calm t;
}.

(** ** [sniff_and_wrap] *)

Section Sniff.
Context {T : Type} `{!AsyncRead T, !AsyncWrite T}.

(** [request.ends_with(b"\r\n\r\n")]. *)
Definition ends_with (l suffix : bytes) : bool := bool_decide (suffix `suffix_of` l).

Inductive request_end :=
| Whole (request : bytes)
| Overlong
| Cut.

(** The byte-by-byte loop; each round adds a byte and the length is checked,
    so the fuel cannot run out ([collect_total]). *)
Fixpoint collect (fuel : nat) (t : T) (request : bytes) : option (T * request_end) :=
  match fuel with
  | O => None
  | S fuel =>
    match a_read_exact t 1 with
    | (t, Err _) => Some (t, Cut)
    | (t, Ok b) =>
      let request := request ++ take 1 b in
      if ends_with request end_of_headers then Some (t, Whole request)
      else if decide (MAX_REQUEST_BYTES < length request) then Some (t, Overlong)
      else collect fuel t request
    end
  end.

Definition sniff_and_wrap (t : T) : option (T * io_result (option (Sniffed T))) :=
  match a_read_exact t 1 with
  | (t, Err _) => Some (t, Ok None)
  | (t, Ok first) =>
    if decide (first = [x00]) then Some (t, Ok (Some (Raw (new_prefixed [x00] t))))
    else if decide (first = [x47]) then
      '(t, outcome) ← collect (MAX_REQUEST_BYTES + 2) t [x47];
      match outcome with
      | Cut => Some (t, Ok None)
      | Overlong =>
        let '(t, _) := a_write_all t (error_response "400 Bad Request") in Some (t, Ok None)
      | Whole request =>
        match Upgrade.Async.parse_upgrade request with
        | Accepted key =>
          response ← AsyncResponse.success_response key;
          match a_write_all t response with
          | (t, Err e) => Some (t, Err e)
          | (t, Ok _) =>
            match a_flush t with
            | (t, Err e) => Some (t, Err e)
            | (t, Ok _) => Some (t, Ok (Some (Ws (WsAsync.new t))))
            end
          end
        | Rejected status =>
          let '(t, _) := a_write_all t (error_response status) in Some (t, Ok None)
        end
      end
    else Some (t, Ok None)
  end.
End Sniff.

(** ** Where the request ends *)

Lemma window_position_at h n p :
  window_position h n = Some p -> take (length n) (drop p h) = n.
Proof.
  revert p. induction h as [|c h IH]; intros p E; cbn [window_position] in E.
  - case_decide; [done|]. case_decide; [by simplify_eq|done].
  - case_decide; [done|]. case_decide; [by simplify_eq|].
    destruct (window_position h n) as [q|]; [|done]. simplify_eq/=. by apply IH.
Qed.

Lemma window_position_suffix l n : is_Some (window_position (l ++ n) n).
Proof.
  induction l as [|c l IH]; cbn [app].
  - destruct n; cbn [window_position]; (rewrite decide_False by (simpl; lia));
      rewrite decide_True by (by rewrite firstn_all); by eexists.
  - cbn [window_position]. rewrite decide_False by (simpl; rewrite length_app; lia).
    case_decide; [by eexists|]. destruct IH as [q ->]. by eexists.
Qed.

(** Along a request that ends at its first blank line, only the whole of it
    ends with one. *)
Lemma ends_with_whole p rest full :
  full = p ++ rest -> find_subsequence full end_of_headers = Some (length full - 4) ->
  4 <= length full ->
  ends_with p end_of_headers = bool_decide (rest = []).
Proof.
  intros Hfull Hfind Hlen. unfold ends_with. apply bool_decide_ext. split.
  - intros [l Hl]. destruct (window_position_suffix l end_of_headers) as [q Hq].
    rewrite <- Hl, <- find_window, (find_prefix _ _ _ _ Hfull Hfind) in Hq.
    case_decide as Hle; [|done]. subst full. rewrite length_app in *.
    apply nil_length_inv. lia.
  - intros ->. rewrite app_nil_r in Hfull. subst full. rewrite find_window in Hfind.
    apply window_position_at in Hfind. exists (take (length p - 4) p).
    rewrite <- (take_drop (length p - 4) p) at 1. f_equal.
    rewrite <- Hfind. symmetry. apply take_ge. rewrite length_drop. simpl. lia.
Qed.

Section SniffFacts.
Context {T : Type} `{!AsyncRead T, !AsyncWrite T, !AsyncReadLaws T, !AsyncDuplexLaws T}.

(** One byte at a time. *)
Lemma read_one (t : T) b rest :
  incoming t = b :: rest ->
  exists t', a_read_exact t 1 = (t', Ok [b]) /\ incoming t' = rest /\ written t' = written t.
Proof.
  intros E. destruct (a_read_exact_ok t 1) as (t' & Er & Hi); [rewrite E; simpl; lia|].
  rewrite E in Er, Hi. exists t'. split; [exact Er|]. split; [by rewrite Hi|].
  by apply a_read_exact_written in Er.
Qed.

Lemma read_none (t : T) :
  incoming t = [] -> exists t', a_read_exact t 1 = (t', Err UnexpectedEof) /\ written t' = written t.
Proof.
  intros E. destruct (a_read_exact_eof t 1) as [t' Er]; [rewrite E; simpl; lia|].
  exists t'. split; [done|]. by apply a_read_exact_written in Er.
Qed.

Lemma collect_whole fuel (t : T) request tail rest :
  incoming t = tail ++ rest -> tail <> [] ->
  find_subsequence (request ++ tail) end_of_headers = Some (length (request ++ tail) - 4) ->
  4 <= length (request ++ tail) <= MAX_REQUEST_BYTES + 1 -> length tail < fuel ->
  exists t', collect fuel t request = Some (t', Whole (request ++ tail)) /\
    incoming t' = rest /\ written t' = written t.
Proof.
  revert t request tail. induction fuel as [|fuel IH]; intros t request tail Hin Hne Hfind Hlen Hf;
    [lia|].
  destruct tail as [|b tail]; [done|]. cbn [collect].
  destruct (read_one t b (tail ++ rest) Hin) as (t1 & -> & Hin1 & Hw1). cbn [firstn].
  replace (request ++ b :: tail) with ((request ++ [b]) ++ tail) in * by by rewrite <- app_assoc.
  rewrite (ends_with_whole (request ++ [b]) tail _ eq_refl Hfind) by lia.
  case_bool_decide as Ht.
  - subst tail. exists t1. by rewrite app_nil_r.
  - assert (0 < length tail) by (destruct tail; [done|simpl; lia]).
    rewrite decide_False.
    + destruct (IH t1 (request ++ [b]) tail Hin1 Ht Hfind Hlen) as (t2 & -> & Hin2 & Hw2);
        [simpl in Hf; lia|]. exists t2. split_and!; congruence.
    + rewrite !length_app in Hlen. rewrite length_app. cbn [length] in *. lia.
Qed.

(** Without I/O errors the loop always ends. *)
Lemma collect_total fuel (t : T) request :
  MAX_REQUEST_BYTES + 1 < fuel + length request -> 0 < fuel ->
  exists t' o, collect fuel t request = Some (t', o) /\ written t' = written t /\
    match o with Whole r => length r <= S (max MAX_REQUEST_BYTES (length request)) | _ => True end.
Proof.
  revert t request. induction fuel as [|fuel IH]; intros t request Hf H0; [lia|]. cbn [collect].
  destruct (incoming t) as [|b rest] eqn:Hin.
  - destruct (read_none t Hin) as (t1 & -> & Hw). by exists t1, Cut.
  - destruct (read_one t b rest Hin) as (t1 & -> & Hin1 & Hw1). cbn [firstn].
    case_match.
    { exists t1, (Whole (request ++ [b])). split_and!; [done..|]. rewrite length_app. cbn [length]. lia. }
    case_decide; [by exists t1, Overlong|]. rewrite length_app in *. cbn [length] in *.
    destruct (IH t1 (request ++ [b])) as (t2 & o & E & Hw2 & Ho);
      [rewrite length_app; cbn [length]; lia|lia|].
    exists t2, o. split_and!; [done|congruence|]. destruct o; [|done..].
    rewrite length_app in Ho. cbn [length] in Ho. lia.
Qed.
End SniffFacts.

Lemma success_responses_agree key :
  AsyncResponse.success_response key = success_response key.
Proof.
  unfold AsyncResponse.success_response, success_response, compute_accept.
  by rewrite accept_key_eq, sha1_eq.
Qed.

(** ** Theorems *)

(** The first byte decides.  On a connection without I/O errors the
    sniff always ends; a zero byte gives the raw stream with that byte put
    back and everything else still unread, a peer that closes at once or
    starts with any byte but ['G'] is dropped, and in all these cases nothing
    is written. *)
Theorem first_byte_decides {T} `{!AsyncRead T, !AsyncWrite T, !AsyncReadLaws T}
    `{!AsyncDuplexLaws T} (t : T) :
  (exists t' r, sniff_and_wrap t = Some (t', Ok r)) /\
  match incoming t with
  | [] => exists t', sniff_and_wrap t = Some (t', Ok None) /\ written t' = written t
  | b :: rest =>
    (b = x00 -> exists t', sniff_and_wrap t = Some (t', Ok (Some (Raw (new_prefixed [x00] t')))) /\
       incoming t' = rest /\ written t' = written t) /\
    (b <> x00 -> b <> x47 ->
       exists t', sniff_and_wrap t = Some (t', Ok None) /\ written t' = written t)
  end.
Proof.
  unfold sniff_and_wrap. destruct (incoming t) as [|b rest] eqn:Hin.
  { destruct (read_none t Hin) as (t1 & -> & Hw).
    split; [by eexists _, _|by exists t1]. }
  destruct (read_one t b rest Hin) as (t1 & -> & Hin1 & Hw1).
  destruct (decide ([b] = [x00])) as [Hb|Hb].
  { injection Hb as ->. split; [by eexists _, _|]. split; [by exists t1|done]. }
  destruct (decide ([b] = [x47])) as [Hg|Hg].
  2: { split; [by eexists _, _|]. split; [congruence|]. intros _ _. by exists t1. }
  split; [|split; congruence].
  destruct (collect_total (MAX_REQUEST_BYTES + 2) t1 [x47]) as (t2 & o & -> & _);
    [cbn [length]; lia|lia|]. cbn [mbind option_bind]. destruct o as [request| |].
  - destruct (Upgrade.Async.parse_upgrade request) as [key|status].
    + rewrite success_responses_agree. unfold success_response.
      destruct (accept_key_total (as_bytes key)) as [v ->]. cbn [mbind option_bind].
      edestruct (a_write_all_ok t2) as (t3 & -> & _).
      destruct (a_flush_ok t3) as (t4 & -> & _). by eexists _, _.
    + edestruct (a_write_all_ok t2) as (t3 & -> & _). by eexists _, _.
  - edestruct (a_write_all_ok t2) as (t3 & -> & _). by eexists _, _.
  - by eexists _, _.
Qed.

Lemma first_byte_decides_witness :
  exists t', sniff_and_wrap (mkDuplex (mkPipe 3 [x00; x00; x12]) []) =
      Some (t', Ok (Some (Raw (new_prefixed [x00] t')))) /\
    incoming t' = [x00; x12] /\ written t' = [].
Proof.
  exact (proj1 (proj2 (first_byte_decides (mkDuplex (mkPipe 3 [x00; x00; x12]) []))) eq_refl).
Defined.

(** A client that sends a good request is upgraded by the asynchronous
    crate too: it has been sent the 101 response of the synchronous crate and
    nothing else, and not one byte behind the request has been taken from the
    connection. *)
Theorem sniff_upgrades {T} `{!AsyncRead T, !AsyncWrite T, !AsyncReadLaws T}
    `{!AsyncDuplexLaws T} (t : T) request rest key response :
  incoming t = (x47 :: request) ++ rest ->
  find_subsequence (x47 :: request) end_of_headers = Some (length (x47 :: request) - 4) ->
  4 <= length (x47 :: request) <= MAX_REQUEST_BYTES + 1 ->
  Upgrade.Async.parse_upgrade (x47 :: request) = Accepted key ->
  success_response key = Some response ->
  exists t', sniff_and_wrap t = Some (t', Ok (Some (Ws (WsAsync.new t')))) /\
    incoming t' = rest /\ written t' = written t ++ response.
Proof.
  intros Hin Hfind Hlen Hkey Hresp. unfold sniff_and_wrap.
  destruct (read_one t x47 (request ++ rest) Hin) as (t1 & -> & Hin1 & Hw1).
  rewrite decide_False by done. rewrite decide_True by done.
  destruct (collect_whole (MAX_REQUEST_BYTES + 2) t1 [x47] request rest) as (t2 & E & Hin2 & Hw2);
    [done| |done|done|cbn [length] in Hlen; lia|]; [by intros ->|].
  rewrite E. cbn [mbind option_bind app].
  rewrite Hkey, success_responses_agree, Hresp. cbn [mbind option_bind].
  destruct (a_write_all_ok t2 response) as (t3 & -> & Hw3 & Hin3).
  destruct (a_flush_ok t3) as (t4 & -> & Hw4 & Hin4).
  exists t4. split_and!; [done|congruence|congruence].
Qed.

Lemma sniff_upgrades_witness :
  exists response t',
    sniff_and_wrap (mkDuplex (mkPipe 3 (sample_request ++ sample_frame)) []) =
      Some (t', Ok (Some (Ws (WsAsync.new t')))) /\
    incoming t' = sample_frame /\ written t' = [] ++ response.
Proof.
  destruct (success_response (lit "dGhlIHNhbXBsZSBub25jZQ==")) as [response|] eqn:Hr;
    [|exfalso; vm_compute in Hr; discriminate].
  exists response.
  refine (sniff_upgrades (mkDuplex (mkPipe 3 (sample_request ++ sample_frame)) [])
    (tail sample_request) sample_frame (lit "dGhlIHNhbXBsZSBub25jZQ==") response _ _ _ _ Hr).
  - vm_compute. reflexivity.
  - vm_compute. reflexivity.
  - apply (bool_decide_unpack _). vm_compute. exact I.
  - vm_compute. reflexivity.
Defined.

Section Polled.
Context {T : Type} `{!AsyncRead T, !AsyncWrite T, !AsyncReadLaws T, !AsyncDuplexLaws T}.
Context `{!PollRead T, !PollWrite T, !PollLaws T, !PollStream T, !PollStreamLaws T, !OneStream T}.

Lemma sniffed_ws_poll_all fuel : forall (w : WsAsync.WsStream T) n,
  sniffed_poll_all fuel (Ws w) n = ('(w, bs) ← poll_all fuel w n; Some (Ws w, bs)).
Proof using Type.
  induction fuel as [|fuel IH]; intros w n; [done|]. cbn [sniffed_poll_all poll_all sniffed_poll_read].
  destruct (ws_poll_read w n) as [[w1 r]|]; cbn [mbind option_bind]; [|done].
  destruct r as [[[|b bs]|e]|]; cbn [mbind option_bind]; rewrite ?IH; try done.
  by destruct (poll_all fuel w1 n) as [[]|].
Qed.

(** A poll of the raw variant. *)
Lemma prefixed_poll_read_presented (me me' : Prefixed T) n r :
  0 < n -> prefixed_poll_read me n = (me', r) -> calm (p_inner me) ->
  calm (p_inner me') /\ gone_out (p_inner me') = gone_out (p_inner me) /\
  match r with
  | Ready (Ok bs) =>
      drop (pos me) (prefix me) ++ to_come (p_inner me) =
        bs ++ drop (pos me') (prefix me') ++ to_come (p_inner me') /\
      (bs = [] -> drop (pos me) (prefix me) ++ to_come (p_inner me) = [])
  | Ready (Err _) => False
  | Pending =>
      drop (pos me) (prefix me) ++ to_come (p_inner me) =
        drop (pos me') (prefix me') ++ to_come (p_inner me') /\ poll_fuel me' < poll_fuel me
  end.
Proof using PollStreamLaws0.
  intros Hn. unfold prefixed_poll_read. case_decide as Hlt; intros E Hc.
  - simplify_eq. cbn [p_inner prefix pos]. split_and!; [done..| |].
    + rewrite <- drop_drop, app_assoc. f_equal. rewrite <- (take_drop (length (drop (pos me) (prefix me)) `min` n)
        (drop (pos me) (prefix me))) at 1. done.
    + intros Ht. apply (f_equal length) in Ht. rewrite length_take, length_drop in Ht. cbn in Ht. lia.
  - destruct (poll_read (p_inner me) n) as [i res] eqn:Er. simplify_eq.
    pose proof (ps_read_out _ _ _ _ Er) as Hg. apply ps_read in Er as [Hc' Hres]; [|done..].
    cbn [p_inner prefix pos poll_fuel Prefixed_PollRead]. rewrite !drop_ge by lia. split_and!; [done..|].
    destruct r as [[bs|e]|]; [done|done|]. destruct Hres as [-> Hf]. split; [done|]. lia.
Qed.

Lemma sniffed_raw_poll_all fuel n : forall (me : Prefixed T),
  0 < n -> poll_fuel me < fuel ->
  exists me', sniffed_poll_all fuel (Raw me) n =
      Some (Raw me', drop (pos me) (prefix me) ++ to_come (p_inner me)) /\
    gone_out (p_inner me') = gone_out (p_inner me).
Proof using PollStreamLaws0 PollLaws0 OneStream0.
  induction fuel as [|fuel IH]; intros me Hn Hf; [lia|]. cbn [sniffed_poll_all sniffed_poll_read].
  destruct (prefixed_poll_read me n) as [me1 r] eqn:E. cbn [mbind option_bind].
  destruct (prefixed_poll_read_presented me me1 n r Hn E (one_calm _)) as (_ & Hg & Hr).
  destruct r as [[[|b bs]|e]|]; [| |done|].
  - destruct Hr as [_ ->]; [|done]. by exists me1.
  - destruct Hr as [Hr _]. pose proof (poll_read_spends (T := Prefixed T) me n me1 (b :: bs) E) as [_ Hs].
    cbn [length] in Hs. destruct (IH me1) as (me2 & -> & Hg2); [done|lia|]. cbn [mbind option_bind].
    exists me2. split; [by rewrite Hr|congruence].
  - destruct Hr as [Hr Hs]. destruct (IH me1) as (me2 & -> & Hg2); [done|lia|].
    exists me2. split; [by rewrite Hr|congruence].
Qed.

(** What has gone out behind a sniffed stream, and is queued to. *)
Definition sniffed_out (me : Sniffed T) : bytes :=
  match me with Raw s => gone_out (p_inner s) | Ws w => outbound w end.
End Polled.

(** C32: The sniff is transparent.  A connection that begins with a zero byte
    comes out of the sniff as a stream which, polled to its end, gives all of the
    connection's bytes, from the sniffed one on, while nothing has been written;
    one that begins with a good upgrade request, within the size limit, comes out
    as a stream which gives the payload of the frames behind the request, after
    the request has been answered, and with a reply for each ping and close. So
    it is whatever the cut into reads, and however often reads and writes are not
    ready. *)
Theorem sniffed_presents_stream {T} `{!AsyncRead T, !AsyncWrite T, !AsyncReadLaws T, !AsyncDuplexLaws T,
    !PollRead T, !PollWrite T, !PollLaws T, !PollStream T, !PollStreamLaws T, !OneStream T} (t : T) n :
  0 < n ->
  (forall rest, incoming t = x00 :: rest ->
    exists t' me me', sniff_and_wrap t = Some (t', Ok (Some me)) /\
      sniffed_poll_all (S (sniffed_fuel me)) me n = Some (me', x00 :: rest) /\
      sniffed_out me' = written t) /\
  (forall request rest key response,
    incoming t = (x47 :: request) ++ rest ->
    find_subsequence (x47 :: request) end_of_headers = Some (length (x47 :: request) - 4) ->
    4 <= length (x47 :: request) <= MAX_REQUEST_BYTES + 1 ->
    Upgrade.Async.parse_upgrade (x47 :: request) = Accepted key ->
    success_response key = Some response ->
    exists t' me me', sniff_and_wrap t = Some (t', Ok (Some me)) /\
      sniffed_poll_all (S (sniffed_fuel me)) me n = Some (me', (WsStream.decode rest).1) /\
      sniffed_out me' = (written t ++ response) ++ (WsStream.decode rest).2).
Proof.
  intros Hn. split.
  - intros rest E. destruct (first_byte_decides t) as [_ H]. rewrite E in H.
    destruct (proj1 H eq_refl) as (t' & Es & Hi & Hw). exists t', (Raw (new_prefixed [x00] t')).
    destruct (sniffed_raw_poll_all (S (poll_fuel (new_prefixed [x00] t'))) n (new_prefixed [x00] t'))
      as (me' & Em & Hg); [done|lia|].
    exists (Raw me'). split; [done|]. cbn [sniffed_fuel sniffed_out]. rewrite Em, Hg.
    cbn [new_prefixed pos prefix p_inner]. by rewrite one_incoming, one_written, Hi, Hw.
  - intros request rest key response E Hf Hl Hk Hr.
    destruct (sniff_upgrades t request rest key response E Hf Hl Hk Hr) as (t' & Es & Hi & Hw).
    exists t', (Ws (WsAsync.new t')).
    destruct (poll_all_new t' n Hn (one_calm _)) as (w' & Ew & Ho). exists (Ws w'). split; [done|].
    cbn [sniffed_fuel sniffed_out]. rewrite sniffed_ws_poll_all, Ew. cbn [mbind option_bind].
    by rewrite Ho, one_incoming, one_written, Hi, Hw.
Qed.

(** ** A concrete stream

    Its reads bring the next chunk of a script or are not ready, its writes
    take some bytes or are not ready. *)

Record Live := mkLive {
  live_rx : list (option (byte * bytes));
  live_tx : list (option nat);
  live_sent : bytes;
}.

Definition live_bytes (s : list (option (byte * bytes))) : bytes :=
  mjoin ((fun e => match e with Some (b, bs) => b :: bs | None => [] end) <$> s).

Definition live_fuel (s : list (option (byte * bytes))) : nat := length s + length (live_bytes s).

Definition put_back (bs : bytes) (s : list (option (byte * bytes))) : list (option (byte * bytes)) :=
  match bs with [] => s | b :: bs => Some (b, bs) :: s end.

Lemma put_back_bytes bs s : live_bytes (put_back bs s) = bs ++ live_bytes s.
Proof. by destruct bs. Qed.

Definition live_poll (s : list (option (byte * bytes))) (n : nat)
  : list (option (byte * bytes)) * poll (io_result bytes) :=
  match s with
  | [] => ([], Ready (Ok []))
  | None :: s => (s, Pending)
  | Some (b, bs) :: s => (put_back (drop n (b :: bs)) s, Ready (Ok (take n (b :: bs))))
  end.

(** [read_buf]: polls until the stream is ready. *)
Fixpoint live_ready (s : list (option (byte * bytes))) (n : nat) : list (option (byte * bytes)) * bytes :=
  match s with
  | [] => ([], [])
  | None :: s => live_ready s n
  | Some (b, bs) :: s => (put_back (drop n (b :: bs)) s, take n (b :: bs))
  end.

(** [read_exact]: what is left of the script behind [n] bytes. *)
Fixpoint live_behind (s : list (option (byte * bytes))) (n : nat) : list (option (byte * bytes)) :=
  match s with
  | [] => []
  | None :: s => live_behind s n
  | Some (b, bs) :: s =>
    if decide (length (b :: bs) <= n) then live_behind s (n - length (b :: bs))
    else put_back (drop n (b :: bs)) s
  end.

Definition live_write (t : Live) (b : bytes) : Live * poll (io_result nat) :=
  match live_tx t with
  | [] => (mkLive (live_rx t) [] (live_sent t ++ b), Ready (Ok (length b)))
  | Some n :: s =>
    (mkLive (live_rx t) s (live_sent t ++ take (S n) b), Ready (Ok (length (take (S n) b))))
  | None :: s => (mkLive (live_rx t) s (live_sent t), Pending)
  end.

Lemma live_ready_bytes s n :
  0 < n -> length (live_ready s n).2 <= n /\
    live_bytes s = (live_ready s n).2 ++ live_bytes (live_ready s n).1 /\
    ((live_ready s n).2 = [] -> live_bytes s = []).
Proof.
  intros Hn. induction s as [|[[b bs]|] s IH]; cbn [live_ready fst snd].
  - split_and!; [simpl; lia|done..].
  - rewrite put_back_bytes, app_assoc, take_drop. split_and!; [rewrite length_take; lia|done|].
    intros H. apply (f_equal length) in H. rewrite length_take in H. simpl in H. lia.
  - exact IH.
Qed.

Lemma live_behind_bytes s n : live_bytes (live_behind s n) = drop n (live_bytes s).
Proof.
  revert n. induction s as [|[[b bs]|] s IH]; intros n; cbn [live_behind].
  - by destruct n.
  - change (live_bytes (Some (b, bs) :: s)) with ((b :: bs) ++ live_bytes s). case_decide.
    + rewrite IH, drop_app, (drop_ge (b :: bs)) by done. done.
    + rewrite put_back_bytes, drop_app_le by lia. done.
  - apply IH.
Qed.

#[export] Instance Live_AsyncRead : AsyncRead Live := {
  a_read_exact t n :=
    if decide (n <= length (live_bytes (live_rx t)))
    then (mkLive (live_behind (live_rx t) n) (live_tx t) (live_sent t), Ok (take n (live_bytes (live_rx t))))
    else (mkLive [] (live_tx t) (live_sent t), Err UnexpectedEof);
  a_read_buf t n :=
    let '(s, bs) := live_ready (live_rx t) n in (mkLive s (live_tx t) (live_sent t), Ok bs);
  incoming t := live_bytes (live_rx t);
}.

#[export] Instance Live_AsyncWrite : AsyncWrite Live := {
  a_write_all t b := (mkLive (live_rx t) (live_tx t) (live_sent t ++ b), Ok tt);
  a_flush t := (t, Ok tt);
  written := live_sent;
}.

#[export] Instance Live_AsyncReadLaws : AsyncReadLaws Live.
Proof.
  split; cbn [a_read_exact a_read_buf incoming Live_AsyncRead].
  - intros t n Hn. rewrite decide_True by done. eexists. split; [done|]. apply live_behind_bytes.
  - intros t n Hn. rewrite decide_False by lia. by eexists.
  - intros t n Hn. pose proof (live_ready_bytes (live_rx t) n Hn) as H.
    destruct (live_ready (live_rx t) n) as [s bs]. eexists _, bs. by split.
Qed.

#[export] Instance Live_AsyncDuplexLaws : AsyncDuplexLaws Live.
Proof.
  split; cbn [a_read_exact a_read_buf a_write_all a_flush written Live_AsyncRead Live_AsyncWrite].
  - intros t b. by eexists.
  - intros t. by eexists.
  - intros t n t' res. case_decide; intros; by simplify_eq.
  - intros t n t' res. destruct (live_ready (live_rx t) n). intros. by simplify_eq.
Qed.

#[export] Instance Live_PollRead : PollRead Live := {
  poll_read t n := let '(s, r) := live_poll (live_rx t) n in (mkLive s (live_tx t) (live_sent t), r);
  poll_fuel t := live_fuel (live_rx t);
}.

#[export] Instance Live_PollWrite : PollWrite Live := {
  poll_write := live_write;
  poll_flush t := (t, Ready (Ok tt));
  poll_shutdown t := (t, Ready (Ok tt));
}.

#[export] Instance Live_PollStream : PollStream Live := {
  to_come t := live_bytes (live_rx t);
  gone_out := live_sent;
  calm _ := True;
}.

Lemma live_poll_spends s n s' r :
  live_poll s n = (s', r) ->
  match r with
  | Ready (Ok bs) => length bs <= n /\ live_fuel s' + length bs <= live_fuel s
  | _ => live_fuel s' < live_fuel s
  end.
Proof.
  unfold live_fuel. destruct s as [|[[b bs]|] s]; cbn [live_poll]; intros [= <- <-].
  - simpl. split; lia.
  - rewrite put_back_bytes, length_app, length_take, length_drop. split; [lia|].
    change (live_bytes (Some (b, bs) :: s)) with ((b :: bs) ++ live_bytes s). rewrite length_app.
    assert (length (put_back (drop n (b :: bs)) s) <= S (length s)) by (destruct (drop n (b :: bs)); simpl; lia).
    cbn [length] in *. lia.
  - change (live_bytes (None :: s)) with (live_bytes s). simpl. lia.
Qed.

#[export] Instance Live_PollLaws : PollLaws Live.
Proof.
  split; cbn [poll_read poll_write poll_fuel Live_PollRead Live_PollWrite].
  - intros t n t' bs E. destruct (live_poll (live_rx t) n) as [s r] eqn:Es.
    apply live_poll_spends in Es. by simplify_eq.
  - intros t n t' res E. destruct (live_poll (live_rx t) n) as [s r] eqn:Es.
    apply live_poll_spends in Es. simplify_eq. cbn [live_rx]. destruct res as [[bs|e]|]; lia.
  - intros [s [|[k|] t] o] b t' res E; unfold live_write in E; by simplify_eq/=.
Qed.

#[export] Instance Live_PollStreamLaws : PollStreamLaws Live.
Proof.
  split; cbn [poll_read poll_write poll_fuel to_come gone_out calm Live_PollRead Live_PollWrite
    Live_PollStream].
  - intros t n t' res Hn _ E. destruct (live_poll (live_rx t) n) as [s r] eqn:Es.
    pose proof (live_poll_spends _ _ _ _ Es) as Hf. simplify_eq. cbn [live_rx]. split; [done|].
    destruct (live_rx t) as [|[[b bs]|] s0]; cbn [live_poll] in Es; simplify_eq; [done| |done].
    rewrite put_back_bytes, app_assoc, take_drop. split; [done|].
    intros H. apply (f_equal length) in H. rewrite length_take in H. simpl in H. lia.
  - intros t n t' res E. destruct (live_poll (live_rx t) n). by simplify_eq.
  - intros [s [|[k|] t] o] b t' res E; unfold live_write in E; simplify_eq/=; split_and!; try done.
    + by rewrite firstn_all.
    + destruct b; simpl; [lia|]. rewrite length_take. lia.
    + f_equal. destruct b as [|x b]; [done|]. cbn. f_equal. rewrite length_take.
      destruct (decide (k <= length b)); [f_equal; lia|]. by rewrite !take_ge by lia.
Qed.

#[export] Instance Live_OneStream : OneStream Live.
Proof. by split. Qed.

Lemma sniffed_presents_stream_witness :
  let raw := mkLive [Some (x00, [x00]); None; Some (x00, [x02; x03])] [None] [] in
  let ws := mkLive (Some (x47, tail sample_request ++ take 3 sample_frame) :: None ::
                    put_back (drop 3 sample_frame) []) [None; Some 3] [] in
  (exists t' me me', sniff_and_wrap raw = Some (t', Ok (Some me)) /\
    sniffed_poll_all (S (sniffed_fuel me)) me 3 = Some (me', [x00; x00; x00; x02; x03]) /\
    sniffed_out me' = []) /\
  exists response, success_response (lit "dGhlIHNhbXBsZSBub25jZQ==") = Some response /\
  exists t' me me', sniff_and_wrap ws = Some (t', Ok (Some me)) /\
    sniffed_poll_all (S (sniffed_fuel me)) me 3 =
      Some (me', (WsStream.decode sample_frame).1) /\
    sniffed_out me' = ([] ++ response) ++ (WsStream.decode sample_frame).2.
Proof.
  intros raw ws. split.
  - apply (proj1 (sniffed_presents_stream raw 3 ltac:(lia))). reflexivity.
  - destruct (success_response (lit "dGhlIHNhbXBsZSBub25jZQ==")) as [response|] eqn:Hr;
      [|exfalso; vm_compute in Hr; discriminate].
    exists response. split; [done|].
    apply (proj2 (sniffed_presents_stream ws 3 ltac:(lia))) with (request := tail sample_request)
      (key := lit "dGhlIHNhbXBsZSBub25jZQ==").
    + vm_compute. reflexivity.
    + vm_compute. reflexivity.
    + apply (bool_decide_unpack _). vm_compute. exact I.
    + vm_compute. reflexivity.
    + exact Hr.
Defined.
