(* ===== verification/Conn.v ===== *)
(** * Conn: sessions of the synchronous crate

    Models the per-connection code of [rust-lib-sync/src/conn.rs] for plain
    TCP and WebSocket: the first-byte sniff, the HELLO handshake, the
    registration with the broker, the reader and the writer of a plain
    session and the single polling loop of a WebSocket session.

    The reader and the writer thread of a plain session share nothing but
    the two channels to the broker, so they are two functions: the reader
    over the read half and the command channel, the writer over the write
    half and the outbound channel.  A channel to the broker is [CmdTx], a
    channel from it the transcript of what receiving from it gives. *)

From S2P Require Import Prelude Io WsFrame WsStream Upgrade Protocol Broker.
From Stdlib Require Import Strings.Byte.

Definition HEARTBEAT_INTERVAL : Z := 5000000000.
Definition HEARTBEAT_TIMEOUT : Z := 15000000000.

(** ** Channels *)

(** [cmd_tx]: what was put on the channel, and after how many more messages
    the broker is gone ([None]: it outlives the connection). *)
Record CmdTx := mkCmdTx {
  queued : list Command;
  gone_after : option nat;
}.

Definition cmd_send (tx : CmdTx) (c : Command) : CmdTx * bool :=
  match gone_after tx with
  | None => (mkCmdTx (queued tx ++ [c]) None, true)
  | Some O => (tx, false)
  | Some (S n) => (mkCmdTx (queued tx ++ [c]) (Some n), true)
  end.

(** What one receive on [writer_rx] gives: a frame; nothing, as [Empty] of
    [try_recv] or [Timeout] of [recv_timeout]; or [Disconnected], for ever. *)
Inductive mail :=
| Mail (frame : bytes)
| NoMail.

Abbreviation Mailbox := (list mail).

Inductive received :=
| Got (frame : bytes)
| Nothing
| Disconnected.

Definition recv (rx : Mailbox) : Mailbox * received :=
  match rx with
  | [] => ([], Disconnected)
  | Mail f :: rx => (rx, Got f)
  | NoMail :: rx => (rx, Nothing)
  end.

(** What [TcpStream::peek] gives: the next byte, left in place. *)
Class Peek (R : Type) `{!Read R} := {
  peek : R -> R * io_result (option byte);
  peek_ok r r' b : peek r = (r', Ok b) -> r' = r;
  peek_err r r' e : peek r = (r', Err e) -> read_fuel r' < read_fuel r;
}.

(** ** Registry: the sockets [close] shuts down *)

Module Registry.
Section Registry.
Context {Stream : Type}.

Record Registry := mkRegistry {
  inner : gmap Z Stream;
  next : Z;
}.

Definition default : Registry := mkRegistry ∅ 0.

Definition register (r : Registry) (stream : Stream) : Registry * Z :=
  (mkRegistry (<[next r := stream]> (inner r)) (wrapping_add 64 (next r) 1), next r).

Definition deregister (r : Registry) (id : Z) : Registry :=
  mkRegistry (delete id (inner r)) (next r).

(** The streams [shutdown] is called on, in the map's order. *)
Definition shutdown_all (r : Registry) : list Stream := (map_to_list (inner r)).*2.
End Registry.
Arguments Registry : clear implicits.
End Registry.

(** ** The handshake *)

(** The test on the first frame of [read_hello] and [ws_read_hello]. *)
Definition hello_of (frame : bytes) : option Identity :=
  match decode frame with
  | Some (Hello version identity) =>
    if decide (version = PROTOCOL_VERSION) then Some identity else None
  | _ => None
  end.

Section Handshake.
Context {R : Type} `{!Read R}.
(** [Instant::now()], by how many readings were taken before. *)
Context (clock : nat -> Z).

(** The outer [None] is fuel exhaustion, here and below. *)
Fixpoint read_hello_loop (fuel : nat) (stream : R) (decoder : FrameDecoder) (deadline : Z)
    (readings : nat) : option (R * FrameDecoder * option Identity) :=
  match fuel with
  | O => None
  | S fuel =>
    match FrameDecoder.read1 decoder stream with
    | (decoder, stream, Err _) => Some (stream, decoder, None)
    | (decoder, stream, Ok (Frame frame)) => Some (stream, decoder, hello_of frame)
    | (decoder, stream, Ok Protocol.Pending) =>
      if decide (deadline <= clock readings)%Z then Some (stream, decoder, None)
      else read_hello_loop fuel stream decoder deadline (S readings)
    | (decoder, stream, Ok Closed) => Some (stream, decoder, None)
    end
  end.

Definition read_hello (stream : R) (decoder : FrameDecoder)
  : option (R * FrameDecoder * option Identity) :=
  read_hello_loop (S (read_fuel stream)) stream decoder (clock 0 + HEARTBEAT_TIMEOUT)%Z 1.

Fixpoint ws_read_hello_loop (fuel : nat) (ws : R) (decoder : FrameDecoder) (deadline : Z)
    (readings : nat) : option (R * FrameDecoder * option Identity) :=
  match fuel with
  | O => None
  | S fuel =>
    match FrameDecoder.pop decoder with
    | (Some frame, decoder) => Some (ws, decoder, hello_of frame)
    | (None, decoder) =>
      if decide (deadline <= clock readings)%Z then Some (ws, decoder, None)
      else
        match read ws 4096 with
        | (ws, Ok []) => Some (ws, decoder, None)
        | (ws, Ok bs) =>
          ws_read_hello_loop fuel ws (FrameDecoder.extend_from decoder bs) deadline (S readings)
        | (ws, Err e) =>
          if transient e then ws_read_hello_loop fuel ws decoder deadline (S readings)
          else Some (ws, decoder, None)
        end
    end
  end.

Definition ws_read_hello (ws : R) (decoder : FrameDecoder) (deadline : Z)
  : option (R * FrameDecoder * option Identity) :=
  ws_read_hello_loop (S (read_fuel ws)) ws decoder deadline 0.

(** [peek_first_byte] and [read_one_byte]. *)
Fixpoint peek_loop `{!Peek R} (fuel : nat) (stream : R) (deadline : Z) (readings : nat)
  : option (R * option byte) :=
  match fuel with
  | O => None
  | S fuel =>
    match peek stream with
    | (stream, Ok b) => Some (stream, b)
    | (stream, Err e) =>
      if transient e then
        if decide (deadline <= clock readings)%Z then Some (stream, None)
        else peek_loop fuel stream deadline (S readings)
      else Some (stream, None)
    end
  end.

Definition peek_first_byte `{!Peek R} (stream : R) (deadline : Z) : option (R * option byte) :=
  peek_loop (S (read_fuel stream)) stream deadline 0.

Fixpoint read_one_loop (fuel : nat) (r : R) (deadline : Z) (readings : nat)
  : option (R * option byte) :=
  match fuel with
  | O => None
  | S fuel =>
    match read r 1 with
    | (r, Ok bs) => Some (r, hd_error bs)
    | (r, Err e) =>
      if transient e then
        if decide (deadline <= clock readings)%Z then Some (r, None)
        else read_one_loop fuel r deadline (S readings)
      else Some (r, None)
    end
  end.

Definition read_one_byte (r : R) (deadline : Z) : option (R * option byte) :=
  read_one_loop (S (read_fuel r)) r deadline 0.
End Handshake.

(** ** Registration and forwarding *)

(** [register]: [answer] is what [accept_rx.recv()] gives, [None] when the
    broker dropped the sender; [writer] and [accept] name the channels made. *)
Definition register (tx : CmdTx) (peer : Identity) (writer accept : Sender)
    (answer : option bool) : CmdTx * bool :=
  match cmd_send tx (ConnectionUp peer writer accept) with
  | (tx, false) => (tx, false)
  | (tx, true) => (tx, bool_decide (answer = Some true))
  end.

(** The [match] on a decoded frame that [forward_frames] and [plain_session]
    share: heartbeats, a second HELLO and unknown types are dropped. *)
Definition forward (tx : CmdTx) (peer : Identity) (frame : bytes) : CmdTx * bool :=
  match decode frame with
  | Some Heartbeat | Some (Hello _ _) | None => (tx, true)
  | Some envelope => cmd_send tx (Received peer envelope)
  end.

Fixpoint forward_loop (fuel : nat) (decoder : FrameDecoder) (tx : CmdTx) (peer : Identity)
  : option (FrameDecoder * CmdTx * bool) :=
  match fuel with
  | O => None
  | S fuel =>
    match FrameDecoder.pop decoder with
    | (None, decoder) => Some (decoder, tx, true)
    | (Some frame, decoder) =>
      match forward tx peer frame with
      | (tx, false) => Some (decoder, tx, false)
      | (tx, true) => forward_loop fuel decoder tx peer
      end
    end
  end.

Definition forward_frames (decoder : FrameDecoder) (tx : CmdTx) (peer : Identity)
  : option (FrameDecoder * CmdTx * bool) :=
  forward_loop (S (length (buf decoder))) decoder tx peer.

(** ** Plain TCP: the reader and the writer *)

Fixpoint plain_writer {W} `{!Write W} (w : W) (rx : Mailbox) : option W :=
  match rx with
  | [] => Some w
  | Mail frame :: rx =>
    '(w, r) ← write_frame w frame;
    match r with
    | Ok _ => plain_writer w rx
    | Err _ => Some w
    end
  | NoMail :: rx =>
    '(w, r) ← write_frame w heartbeat;
    match r with
    | Ok _ => plain_writer w rx
    | Err _ => Some w
    end
  end.

(** The inline reader loop of [plain_session]. *)
Fixpoint plain_reader {R} `{!Read R} (fuel : nat) (stream : R) (tx : CmdTx) (peer : Identity)
  : option (R * CmdTx) :=
  match fuel with
  | O => None
  | S fuel =>
    '(stream, r) ← read_frame stream;
    match r with
    | Ok (Some frame) =>
      match forward tx peer frame with
      | (tx, true) => plain_reader fuel stream tx peer
      | (tx, false) => Some (stream, tx)
      end
    | Ok None => Some (stream, tx)
    | Err _ => Some (stream, tx)
    end
  end.

Section PlainSession.
Context {R W : Type} `{!Read R, !Write W}.
Context (clock : nat -> Z).

(** [clone] is what [try_clone] gives, [mailbox] what the outbound channel
    gives the writer until the broker or the reader's end hangs it up. *)
Definition plain_session (read_stream : R) (clone : option W) (tx : CmdTx)
    (my_identity : Identity) (writer accept : Sender) (answer : option bool)
    (mailbox : Mailbox) : option (R * option W * CmdTx) :=
  match clone with
  | None => Some (read_stream, None, tx)
  | Some write_stream =>
    '(write_stream, r) ← write_frame write_stream (hello my_identity);
    match r with
    | Err _ => Some (read_stream, Some write_stream, tx)
    | Ok _ =>
      '(read_stream, decoder, peer) ← read_hello clock read_stream FrameDecoder.new;
      match peer with
      | None => Some (read_stream, Some write_stream, tx)
      | Some peer =>
        match register tx peer writer accept answer with
        | (tx, false) => Some (read_stream, Some write_stream, tx)
        | (tx, true) =>
          '(_, tx, _) ← forward_frames decoder tx peer;
          '(read_stream, tx) ← plain_reader (S (read_fuel read_stream)) read_stream tx peer;
          write_stream ← plain_writer write_stream mailbox;
          Some (read_stream, Some write_stream, (cmd_send tx (ConnectionDown peer)).1)
        end
      end
    end
  end.
End PlainSession.

(** ** WebSocket: one polling loop *)

Section WsSession.
Context {T : Type} `{!Read T, !Write T}.
Context (clock : nat -> Z).

(** The inner loop: every frame the broker has queued.  The result also holds
    the time of the last send, the clock readings taken, and whether the
    broker has dropped the connection. *)
Fixpoint drain_outbound (ws : WsStream T) (rx : Mailbox) (last_send : Z) (t : nat)
  : option (WsStream T * Mailbox * Z * nat * bool) :=
  match rx with
  | [] => Some (ws, [], last_send, t, true)
  | NoMail :: rx => Some (ws, rx, last_send, t, false)
  | Mail frame :: rx =>
    '(ws, r) ← write_frame ws frame;
    match r with
    | Err _ => Some (ws, rx, last_send, t, false)
    | Ok _ => drain_outbound ws rx (clock t) (S t)
    end
  end.

(** The heartbeat of a quiet connection; [false] breaks the session loop. *)
Definition beat (ws : WsStream T) (last_send : Z) (t : nat)
  : option (WsStream T * Z * nat * bool) :=
  if decide (HEARTBEAT_INTERVAL <= clock t - last_send)%Z then
    '(ws, r) ← write_frame ws heartbeat;
    match r with
    | Err _ => Some (ws, last_send, S t, false)
    | Ok _ => Some (ws, clock (S t), S (S t), true)
    end
  else Some (ws, last_send, S t, true).

(** The session loop; the result tells whether it was left by [break], which
    reports the connection down, or by the [return] of a dropped connection. *)
Fixpoint session_loop (fuel : nat) (ws : WsStream T) (rx : Mailbox) (decoder : FrameDecoder)
    (tx : CmdTx) (peer : Identity) (last_send last_recv : Z) (t : nat)
  : option (WsStream T * CmdTx * bool) :=
  match fuel with
  | O => None
  | S fuel =>
    '(ws, rx, last_send, t, dropped) ← drain_outbound ws rx last_send t;
    if dropped : bool then Some (ws, tx, false)
    else
      '(ws, last_send, t, ok) ← beat ws last_send t;
      if negb ok then Some (ws, tx, true)
      else if decide (HEARTBEAT_TIMEOUT <= clock t - last_recv)%Z then Some (ws, tx, true)
      else
        match read ws (16 * 1024) with
        | (ws, Ok []) => Some (ws, tx, true)
        | (ws, Ok bs) =>
          '(decoder, tx, alive) ← forward_frames (FrameDecoder.extend_from decoder bs) tx peer;
          if alive : bool
          then session_loop fuel ws rx decoder tx peer last_send (clock (S t)) (S (S t))
          else Some (ws, tx, true)
        | (ws, Err e) =>
          if transient e
          then session_loop fuel ws rx decoder tx peer last_send last_recv (S t)
          else Some (ws, tx, true)
        end
  end.

(** What follows the upgrade.  [clock_up] and [clock_hello] are the readings
    [accept_upgrade] and [ws_read_hello] take. *)
Definition ws_session_upgraded (clock_hello : nat -> Z) (ws : WsStream T) (tx : CmdTx)
    (my_identity : Identity) (deadline : Z) (writer accept : Sender) (answer : option bool)
    (mailbox : Mailbox) : option (WsStream T * CmdTx) :=
  '(ws, r) ← write_frame ws (hello my_identity);
  match r with
  | Err _ => Some (ws, tx)
  | Ok _ =>
    '(ws, decoder, peer) ← ws_read_hello clock_hello ws FrameDecoder.new deadline;
    match peer with
    | None => Some (ws, tx)
    | Some peer =>
      match register tx peer writer accept answer with
      | (tx, false) => Some (ws, tx)
      | (tx, true) =>
        '(decoder, tx, alive) ← forward_frames decoder tx peer;
        if negb alive then Some (ws, (cmd_send tx (ConnectionDown peer)).1)
        else
          '(ws, tx, down) ←
            session_loop (S (read_fuel ws)) ws mailbox decoder tx peer (clock 0) (clock 1) 2;
          Some (ws, if down : bool then (cmd_send tx (ConnectionDown peer)).1 else tx)
      end
    end
  end.

Definition ws_session (clock_up clock_hello : nat -> Z) (stream : T) (first : option byte)
    (tx : CmdTx) (my_identity : Identity) (deadline : Z) (writer accept : Sender)
    (answer : option bool) (mailbox : Mailbox) : option (T * CmdTx) :=
  '(stream, r) ← accept_upgrade clock_up stream first deadline;
  match r with
  | Ok (Some ws) =>
    '(ws, tx) ←
      ws_session_upgraded clock_hello ws tx my_identity deadline writer accept answer mailbox;
    Some (inner ws, tx)
  | _ => Some (stream, tx)
  end.
End WsSession.

(** ** The bind-side sniff *)

Definition plain_or_ws_session {T W} `{!Read T, !Write T, !Write W, !Peek T}
    (clock clock_peek clock_up clock_hello : nat -> Z) (read_stream : T) (clone : option W)
    (tx : CmdTx) (my_identity : Identity) (sniff : bool) (writer accept : Sender)
    (answer : option bool) (mailbox : Mailbox) : option (T * option W * CmdTx) :=
  if negb sniff then
    plain_session clock read_stream clone tx my_identity writer accept answer mailbox
  else
    let deadline := (clock_peek 0%nat + HEARTBEAT_TIMEOUT)%Z in
    '(read_stream, b) ← peek_first_byte (fun i => clock_peek (S i)) read_stream deadline;
    match b with
    | None => Some (read_stream, clone, tx)
    | Some b =>
      if decide (b = x00) then
        plain_session clock read_stream clone tx my_identity writer accept answer mailbox
      else if decide (b = "G"%byte) then
        '(stream, tx) ← ws_session clock clock_up clock_hello read_stream None tx my_identity
          deadline writer accept answer mailbox;
        Some (stream, clone, tx)
      else Some (read_stream, clone, tx)
    end.

(** ** [peek] on a transport *)

Definition script_peek (s : list read_event) : list read_event * io_result (option byte) :=
  match s with
  | [] => ([], Ok None)
  | RChunk bs :: _ => (s, Ok (hd_error bs))
  | RFail e :: s => (s, Err e)
  end.

Lemma script_peek_ok s s' b : script_peek s = (s', Ok b) -> s' = s.
Proof. destruct s as [|[bs|e] s]; intros; by simplify_eq/=. Qed.

Lemma script_peek_err s s' e : script_peek s = (s', Err e) -> script_fuel s' < script_fuel s.
Proof. destruct s as [|[bs|e'] s]; intros; simplify_eq/=. unfold script_fuel. csimpl. lia. Qed.

#[export] Instance script_Peek : Peek (list read_event) :=
  {| peek := script_peek; peek_ok := script_peek_ok; peek_err := script_peek_err |}.

#[export, refine] Instance tcp_Peek : Peek Tcp :=
  {| peek t := let '(s, r) := script_peek (rx t) in (mkTcp s (tx t) (sent t), r) |}.
Proof.
  - intros [s w o] t' b E. cbn in E. destruct (script_peek s) as [s' r] eqn:Ep. simplify_eq.
    by rewrite (script_peek_ok s s' b Ep).
  - intros [s w o] t' e E. cbn in E. destruct (script_peek s) as [s' r] eqn:Ep. simplify_eq.
    exact (script_peek_err s s' e Ep).
Defined.

(** ** Forwarding: the reference *)

(** The envelope of a frame that is for the broker. *)
Definition application (frame : bytes) : option Envelope :=
  match decode frame with
  | Some Heartbeat | Some (Hello _ _) | None => None
  | Some envelope => Some envelope
  end.

Definition messages (bodies : list bytes) : list Envelope := omap application bodies.

(** Forwarding a list of frames, until the broker is gone. *)
Fixpoint forward_all (tx : CmdTx) (peer : Identity) (bodies : list bytes) : CmdTx * bool :=
  match bodies with
  | [] => (tx, true)
  | b :: bodies =>
    match forward tx peer b with
    | (tx, true) => forward_all tx peer bodies
    | (tx, false) => (tx, false)
    end
  end.

(** [sends tx tx' cs ok]: [cs] was queued in order, and unless [ok] the
    broker is gone. *)
Record sends (tx tx' : CmdTx) (cs : list Command) (ok : bool) : Prop := {
  sends_queued : queued tx' = queued tx ++ cs;
  sends_alive : gone_after tx = None -> ok = true /\ gone_after tx' = None;
}.

Lemma sends_refl tx : sends tx tx [] true.
Proof. split; [by rewrite app_nil_r|done]. Qed.

Lemma sends_trans tx1 tx2 tx3 cs cs' ok ok' :
  sends tx1 tx2 cs ok -> sends tx2 tx3 cs' ok' -> sends tx1 tx3 (cs ++ cs') ok'.
Proof.
  intros [Hq Ha] [Hq' Ha']. split; [by rewrite Hq', Hq, app_assoc|].
  intros H. destruct (Ha H). auto.
Qed.

Lemma cmd_send_sends tx c tx' ok :
  cmd_send tx c = (tx', ok) -> sends tx tx' (if ok then [c] else []) ok.
Proof.
  unfold cmd_send. intros E. destruct tx as [q [[|n]|]]; simplify_eq/=;
    split; cbn; rewrite ?app_nil_r; done.
Qed.

Lemma forward_sends tx peer f tx' ok :
  forward tx peer f = (tx', ok) ->
  exists es, es `prefix_of` option_list (application f) /\
    (ok = true -> es = option_list (application f)) /\
    sends tx tx' (Received peer <$> es) ok.
Proof.
  unfold forward, application. intros E.
  assert (Hskip : (tx, true) = (tx', ok) -> exists es, es `prefix_of` [] /\
    (ok = true -> es = []) /\ sends tx tx' (Received peer <$> es) ok).
  { intros ?. simplify_eq. exists []. split_and!; [done|done|apply sends_refl]. }
  assert (Hsend : forall e, cmd_send tx (Received peer e) = (tx', ok) ->
    exists es, es `prefix_of` [e] /\ (ok = true -> es = [e]) /\
      sends tx tx' (Received peer <$> es) ok).
  { intros e Ee%cmd_send_sends. exists (if ok then [e] else []).
    destruct ok; split_and!; try done. apply prefix_nil. }
  revert E. destruct (decode f) as [[]|]; first [exact Hskip | apply Hsend].
Qed.

Lemma forward_all_sends tx peer bodies tx' ok :
  forward_all tx peer bodies = (tx', ok) ->
  exists es, es `prefix_of` messages bodies /\ (ok = true -> es = messages bodies) /\
    sends tx tx' (Received peer <$> es) ok.
Proof.
  revert tx. induction bodies as [|b bodies IH]; intros tx E; cbn [forward_all] in E.
  { simplify_eq. exists []. split_and!; [done|done|apply sends_refl]. }
  destruct (forward tx peer b) as [tx1 ok1] eqn:E1.
  apply forward_sends in E1 as (es1 & Hp & Hok & Hs).
  assert (Hm : messages (b :: bodies) = option_list (application b) ++ messages bodies).
  { unfold messages. csimpl. by destruct (application b). }
  rewrite Hm. destruct ok1.
  - apply IH in E as (es & Hp' & Hok' & Hs'). rewrite Hok in Hs by done.
    exists (option_list (application b) ++ es). split_and!.
    + by apply prefix_app.
    + intros H. by rewrite Hok'.
    + rewrite fmap_app. by eapply sends_trans.
  - simplify_eq. exists es1. split_and!; [by apply prefix_app_r|done|done].
Qed.

(** While the broker lives, everything for it is forwarded. *)
Lemma forward_all_alive tx peer bodies :
  gone_after tx = None ->
  forward_all tx peer bodies =
    (mkCmdTx (queued tx ++ (Received peer <$> messages bodies)) None, true).
Proof.
  intros Hg. destruct (forward_all tx peer bodies) as [tx' ok] eqn:E.
  apply forward_all_sends in E as (es & _ & Hok & [Hq Ha]).
  destruct (Ha Hg) as [-> Hg']. rewrite Hok in Hq by done.
  destruct tx'. simpl in *. by subst.
Qed.

Lemma forward_all_app tx peer b1 b2 :
  forward_all tx peer (b1 ++ b2) =
    match forward_all tx peer b1 with
    | (tx, true) => forward_all tx peer b2
    | (tx, false) => (tx, false)
    end.
Proof.
  revert tx. induction b1 as [|b b1 IH]; intros tx; [done|]. cbn [app forward_all].
  destruct (forward tx peer b) as [tx1 []]; [apply IH|done].
Qed.

(** [forward_frames] forwards the complete frames and keeps the tail. *)
Lemma forward_loop_spec fuel d tx peer bodies tail :
  length (buf d) < fuel -> Forall small bodies -> partial tail ->
  buf d = wire bodies ++ tail ->
  exists d', forward_loop fuel d tx peer =
      Some (d', (forward_all tx peer bodies).1, (forward_all tx peer bodies).2) /\
    ((forward_all tx peer bodies).2 = true -> d' = mkDecoder tail (chunk_len d)).
Proof.
  revert d tx bodies. induction fuel as [|fuel IH]; intros d tx bodies Hf Hb Ht E; [lia|].
  cbn [forward_loop]. unfold FrameDecoder.pop.
  destruct (FrameDecoder.take_frame d) as [[x|] d1] eqn:Et.
  - apply take_frame_Some in Et as (Hd & Hx & Hc). rewrite Hd in E.
    apply wire_head in E as (bodies' & -> & E); [|done..].
    apply Forall_cons in Hb as [_ Hb]. cbn [forward_all].
    destruct (forward tx peer x) as [tx1 []]; [|by exists d1].
    rewrite <- Hc. apply IH; [|done..].
    apply (f_equal length) in Hd. revert Hd. unfold framed. len_solve.
  - apply take_frame_None in Et as [-> Hp]. rewrite E in Hp.
    assert (bodies = []) as -> by by eapply wire_nil. cbn. exists d. split; [done|].
    intros _. cbn in E. destruct d. cbn in *. by subst.
Qed.

Lemma forward_frames_spec d tx peer bodies tail :
  Forall small bodies -> partial tail -> buf d = wire bodies ++ tail ->
  exists d', forward_frames d tx peer =
      Some (d', (forward_all tx peer bodies).1, (forward_all tx peer bodies).2) /\
    ((forward_all tx peer bodies).2 = true -> d' = mkDecoder tail (chunk_len d)).
Proof. intros. apply forward_loop_spec; [lia|done..]. Qed.

Lemma forward_frames_any d tx peer :
  exists bodies d', forward_frames d tx peer =
    Some (d', (forward_all tx peer bodies).1, (forward_all tx peer bodies).2).
Proof.
  destruct (wire_split (buf d)) as (bodies & tail & Hb & Ht & E).
  destruct (forward_frames_spec d tx peer bodies tail Hb Ht E) as (d' & E' & _). eauto.
Qed.

(** ** The interface of a connection that only falters

    [gives r bs]: reading [r] to the end gives [bs], whatever the sizes of
    the reads, with nothing worse on the way than the failures a polling loop
    retries.  A benign transcript is such a stream, and by the adapter's
    theorems so is a WebSocket over one; the handshakes and the session loop
    are proved against this interface. *)
Class ByteStream (R : Type) `{!Read R} := {
  gives : R -> bytes -> Prop;
  gives_read r n r' res bs :
    0 < n -> gives r bs -> read r n = (r', res) ->
    match res with
    | Ok [] => bs = []
    | Ok l => exists bs', bs = l ++ bs' /\ gives r' bs'
    | Err e => transient e = true /\ gives r' bs
    end;
}.

#[export, refine] Instance script_ByteStream : ByteStream (list read_event) :=
  {| gives s bs := Forall benign s /\ script_bytes s = bs |}.
Proof.
  intros s n s' res bs Hn [Hs <-] E.
  assert (Hs' : Forall benign s') by by eapply (script_read_Forall benign); [|exact Hs|exact E].
  destruct res as [[|b l]|e].
  - by apply script_read_eof in E as [-> ->].
  - exists (script_bytes s'). split; [by eapply script_read_bytes|done].
  - pose proof (script_read_err _ _ _ _ E) as ->. apply Forall_cons in Hs as [He _]. done.
Defined.

#[export, refine] Instance ws_ByteStream : ByteStream (WsStream Tcp) :=
  {| gives w bs := ws_inv w /\ Forall benign (rx (inner w)) /\
       (future w (script_bytes (rx (inner w)))).1 = bs |}.
Proof.
  intros w n w' res bs Hn (HI & Hb & <-) E. cbn [read ws_Read] in E.
  destruct (ws_read_returns w n) as (w1 & r & E1 & _). rewrite E1 in E.
  change ((w1, r) = (w', res)) in E. simplify_eq.
  apply ws_read_loop_future in E1 as (HI' & Hb' & H); [|done..].
  destruct res as [[|b l]|e].
  - destruct H as [-> H]. by rewrite (H eq_refl).
  - destruct H as [-> _]. eexists. by split.
  - by destruct H as [? ->].
Defined.

(** Writing to a WebSocket that takes everything leaves its input alone. *)
Lemma ws_write_frame_gives (w : WsStream Tcp) bs frame :
  gives w bs ->
  exists w', write_frame w frame = Some (w', Ok tt) /\ gives w' bs /\ ws_fuel w' <= ws_fuel w.
Proof.
  intros (HI & Hb & <-). unfold write_frame, write_all.
  destruct frame as [|x frame]; [by exists w|]. cbn [length Nat.add write_all_loop write ws_Write].
  unfold ws_write. rewrite write_all_inner by done. cbn [mbind option_bind].
  change (default ?a (Some ?b)) with b. cbn [length].
  rewrite drop_ge by done.
  set (w' := with_inner _ w). exists w'. split_and!.
  - destruct (length frame); reflexivity.
  - split_and!; [by destruct HI|done|]. unfold w', future. cbn.
    by destruct (if eof w then _ else _).
  - done.
Qed.

Section Gives.
Context {R : Type} `{!Read R, !ReadLaws R, !ByteStream R}.

(** One [read1]: nothing of the stream is lost or made up. *)
Lemma read1_gives d r bs d' r' res :
  0 < chunk_len d -> gives r bs -> FrameDecoder.read1 d r = (d', r', res) ->
  chunk_len d' = chunk_len d /\
  match res with
  | Ok (Frame f) => small f /\ exists bs', gives r' bs' /\
      buf d ++ bs = framed f ++ buf d' ++ bs'
  | Ok Protocol.Pending => read_fuel r' < read_fuel r /\ exists bs', gives r' bs' /\
      buf d ++ bs = buf d' ++ bs'
  | Ok Closed => bs = [] /\ partial (buf d)
  | Err _ => False
  end.
Proof.
  intros Hc Hg E. unfold FrameDecoder.read1 in E.
  destruct (FrameDecoder.take_frame d) as [[x|] d1] eqn:Ht.
  { simplify_eq. apply take_frame_Some in Ht as (Hd & Hx & Hcl). split; [done|]. split; [done|].
    exists bs. split; [done|]. by rewrite Hd, <- app_assoc. }
  apply take_frame_None in Ht as [-> Hp].
  destruct (read r (chunk_len d)) as [r1 [[|b l]|e]] eqn:Er;
    pose proof (gives_read _ _ _ _ _ Hc Hg Er) as H; simplify_eq; [done| |].
  - destruct H as (bs' & -> & Hg').
    assert (Hf : read_fuel r1 < read_fuel r) by by eapply read_decreases.
    destruct (FrameDecoder.take_frame (FrameDecoder.extend_from d (b :: l))) as [[x|] d2] eqn:Ht;
      simplify_eq.
    + apply take_frame_Some in Ht as (Hd & Hx & Hcl). cbn in Hd, Hcl. split; [done|].
      split; [done|]. exists bs'. split; [done|].
      change (b :: l ++ bs') with ((b :: l) ++ bs'). by rewrite app_assoc, Hd, <- app_assoc.
    + apply take_frame_None in Ht as [-> _]. split; [done|]. split; [done|].
      exists bs'. split; [done|]. cbn. by rewrite <- app_assoc.
  - destruct H as [He Hg']. rewrite He in E. simplify_eq. split; [done|].
    split; [by eapply read_fails|]. by exists bs.
Qed.

Lemma read_hello_gives clock fuel r d deadline k bs bodies tail :
  read_fuel r < fuel -> 0 < chunk_len d -> (forall i, (clock i < deadline)%Z) ->
  gives r bs -> Forall small bodies -> partial tail -> buf d ++ bs = wire bodies ++ tail ->
  exists r' d', read_hello_loop clock fuel r d deadline k =
      Some (r', d', b ← hd_error bodies; hello_of b) /\
    match bodies with
    | [] => True
    | _ :: rest => exists bs', gives r' bs' /\ buf d' ++ bs' = wire rest ++ tail
    end.
Proof.
  intros Hf Hc Hcl. revert r d k bs Hf Hc. induction fuel as [|fuel IH];
    intros r d k bs Hf Hc Hg Hb Ht E; [lia|]. cbn [read_hello_loop].
  destruct (FrameDecoder.read1 d r) as [[d' r'] res] eqn:E1.
  apply (read1_gives _ _ bs) in E1 as [Hc' H]; [|done..].
  destruct res as [[f| |]|e]; [| | |done].
  - destruct H as (Hx & bs' & Hg' & Ebs). rewrite E in Ebs. symmetry in Ebs.
    apply wire_head in Ebs as (rest & -> & Hrest); [|done..].
    exists r', d'. split; [done|]. by exists bs'.
  - destruct H as (Hlt & bs' & Hg' & Ebs). rewrite decide_False by (specialize (Hcl k); lia).
    apply (IH _ _ _ bs'); [lia|lia|done..|by rewrite <- Ebs].
  - destruct H as [-> Hp]. rewrite app_nil_r in E. rewrite E in Hp.
    assert (bodies = []) as -> by by eapply wire_nil. by exists r', d'.
Qed.

Lemma ws_read_hello_gives clock fuel r d deadline k bs bodies tail :
  read_fuel r < fuel -> (forall i, (clock i < deadline)%Z) ->
  gives r bs -> Forall small bodies -> partial tail -> buf d ++ bs = wire bodies ++ tail ->
  exists r' d', ws_read_hello_loop clock fuel r d deadline k =
      Some (r', d', b ← hd_error bodies; hello_of b) /\ read_fuel r' <= read_fuel r /\
    match bodies with
    | [] => True
    | _ :: rest => exists bs', gives r' bs' /\ buf d' ++ bs' = wire rest ++ tail
    end.
Proof.
  intros Hf Hcl. revert r d k bs Hf. induction fuel as [|fuel IH];
    intros r d k bs Hf Hg Hb Ht E; [lia|]. cbn [ws_read_hello_loop]. unfold FrameDecoder.pop.
  destruct (FrameDecoder.take_frame d) as [[x|] d1] eqn:Et.
  { apply take_frame_Some in Et as (Hd & Hx & _). rewrite Hd, <- app_assoc in E.
    apply wire_head in E as (rest & -> & Hrest); [|done..].
    exists r, d1. split; [done|]. split; [done|]. by exists bs. }
  apply take_frame_None in Et as [-> Hp]. rewrite decide_False by (specialize (Hcl k); lia).
  destruct (read r 4096) as [r1 [[|b l]|e]] eqn:Er;
    pose proof (gives_read _ _ _ _ _ ltac:(apply Nat.lt_0_succ) Hg Er) as H.
  - assert (bs = []) as -> by exact H. rewrite app_nil_r in E. rewrite E in Hp.
    assert (bodies = []) as -> by by eapply wire_nil. apply read_spends in Er. simpl in Er.
    exists r1, d. split; [done|]. split; [lia|done].
  - destruct H as (bs' & -> & Hg'). assert (read_fuel r1 < read_fuel r) by by eapply read_decreases.
    destruct (IH r1 (FrameDecoder.extend_from d (b :: l)) (S k) bs')
      as (r' & d' & E' & Hle & H'); [lia|done..| |].
    { cbn. by rewrite <- app_assoc. }
    exists r', d'. split; [done|]. split; [lia|done].
  - destruct H as [He Hg']. rewrite He. apply read_fails in Er.
    destruct (IH r1 d (S k) bs) as (r' & d' & E' & Hle & H'); [lia|done..|].
    exists r', d'. split; [done|]. split; [lia|done].
Qed.
End Gives.

(** ** Every part returns *)

Section Returns.
Context {R : Type} `{!Read R, !ReadLaws R}.

Lemma read1_returns d (r r' : R) d' res :
  FrameDecoder.read1 d r = (d', r', res) ->
  read_fuel r' <= read_fuel r /\ (res = Ok Protocol.Pending -> read_fuel r' < read_fuel r).
Proof.
  intros E. unfold FrameDecoder.read1 in E.
  destruct (FrameDecoder.take_frame d) as [[x|] d1]; [by simplify_eq|].
  destruct (read r (chunk_len d1)) as [r1 [[|b l]|e]] eqn:Er.
  - apply read_spends in Er. simplify_eq. simpl in Er. split; [lia|done].
  - apply read_spends in Er. simpl in Er.
    destruct (FrameDecoder.take_frame (FrameDecoder.extend_from d1 (b :: l))) as [[x|] d2];
      simplify_eq; split; lia || done.
  - apply read_fails in Er. destruct (transient e); simplify_eq; split; lia || done.
Qed.

Lemma read_hello_returns clock fuel (r : R) d deadline k :
  read_fuel r < fuel ->
  exists r' d' p, read_hello_loop clock fuel r d deadline k = Some (r', d', p) /\
    read_fuel r' <= read_fuel r.
Proof.
  revert r d k. induction fuel as [|fuel IH]; intros r d k Hf; [lia|]. cbn [read_hello_loop].
  destruct (FrameDecoder.read1 d r) as [[d' r'] res] eqn:E.
  apply read1_returns in E as [Hle Hlt].
  destruct res as [[f| |]|e]; try (eexists _, _, _; by split).
  specialize (Hlt eq_refl). destruct (decide _); [eexists _, _, _; by split|].
  destruct (IH r' d' (S k) ltac:(lia)) as (r2 & d2 & p & E2 & H2).
  exists r2, d2, p. split; [done|lia].
Qed.

Lemma ws_read_hello_returns clock fuel (r : R) d deadline k :
  read_fuel r < fuel ->
  exists r' d' p, ws_read_hello_loop clock fuel r d deadline k = Some (r', d', p) /\
    read_fuel r' <= read_fuel r.
Proof.
  revert r d k. induction fuel as [|fuel IH]; intros r d k Hf; [lia|].
  cbn [ws_read_hello_loop]. destruct (FrameDecoder.pop d) as [[f|] d1]; [eexists _, _, _; by split|].
  destruct (decide _); [eexists _, _, _; by split|].
  destruct (read r 4096) as [r1 [[|b l]|e]] eqn:Er.
  - apply read_spends in Er. simpl in Er. eexists _, _, _. split; [done|lia].
  - assert (read_fuel r1 < read_fuel r) by by eapply read_decreases.
    destruct (IH r1 (FrameDecoder.extend_from d1 (b :: l)) (S k) ltac:(lia))
      as (r2 & d2 & p & E2 & H2). exists r2, d2, p. split; [done|lia].
  - apply read_fails in Er. destruct (transient e).
    + destruct (IH r1 d1 (S k) ltac:(lia)) as (r2 & d2 & p & E2 & H2).
      exists r2, d2, p. split; [done|lia].
    + eexists _, _, _. split; [done|lia].
Qed.

Lemma peek_returns `{!Peek R} clock fuel (r : R) deadline k :
  read_fuel r < fuel ->
  exists r' b, peek_loop clock fuel r deadline k = Some (r', b) /\ read_fuel r' <= read_fuel r.
Proof.
  revert r k. induction fuel as [|fuel IH]; intros r k Hf; [lia|]. cbn [peek_loop].
  destruct (peek r) as [r1 [b|e]] eqn:E.
  - apply peek_ok in E as ->. eexists _, _. by split.
  - apply peek_err in E. destruct (transient e); [|eexists _, _; split; [done|lia]].
    destruct (decide _); [eexists _, _; split; [done|lia]|].
    destruct (IH r1 (S k) ltac:(lia)) as (r2 & b & E2 & H2).
    exists r2, b. split; [done|lia].
Qed.

Lemma plain_reader_returns fuel (r : R) tx peer :
  read_fuel r < fuel ->
  exists r' tx' bodies, plain_reader fuel r tx peer = Some (r', tx') /\
    tx' = (forward_all tx peer bodies).1.
Proof.
  revert r tx. induction fuel as [|fuel IH]; intros r tx Hf; [lia|]. cbn [plain_reader].
  destruct (read_frame_returns r) as (r1 & res & -> & Hr). cbn [mbind option_bind].
  destruct res as [[f|]|e]; [|by exists r1, tx, []..].
  destruct (forward tx peer f) as [tx1 ok] eqn:E. destruct ok.
  - destruct (IH r1 tx1 ltac:(lia)) as (r2 & tx2 & bodies & -> & ->).
    exists r2, (forward_all tx1 peer bodies).1, (f :: bodies). split; [done|]. cbn [forward_all]. by rewrite E.
  - exists r1, tx1, [f]. split; [done|]. cbn [forward_all]. by rewrite E.
Qed.
End Returns.

Lemma write_frame_returns {W} `{!Write W, !WriteLaws W} (w : W) f :
  exists w' r, write_frame w f = Some (w', r).
Proof. destruct (write_all_total w f) as [[w' r] E]. by exists w', r. Qed.

Lemma plain_writer_returns {W} `{!Write W, !WriteLaws W} (w : W) rx :
  exists w', plain_writer w rx = Some w'.
Proof.
  revert w. induction rx as [|[f|] rx IH]; intros w; cbn [plain_writer]; [eauto|..];
    [destruct (write_frame_returns w f) as (w' & [[]|] & ->)
    |destruct (write_frame_returns w heartbeat) as (w' & [[]|] & ->)]; cbn; eauto.
Qed.

(** ** What a session tells the broker *)

(** The commands of one session: none, a registration that was turned down,
    or a registration, the messages of the peer and the end of the
    connection.  The end may be missing only where it need not be reported. *)
Inductive session_log (writer accept : Sender) (answer : option bool) (reports : Prop)
  : list Command -> Prop :=
| log_unregistered : session_log writer accept answer reports []
| log_rejected peer :
    answer <> Some true ->
    session_log writer accept answer reports [ConnectionUp peer writer accept]
| log_session peer es (down : bool) :
    answer = Some true ->
    Forall (fun e => exists f, application f = Some e) es ->
    (reports -> down = true) ->
    session_log writer accept answer reports
      (ConnectionUp peer writer accept :: (Received peer <$> es) ++
       (if down then [ConnectionDown peer] else [])).

Lemma session_log_weaken writer accept answer (P Q : Prop) cs :
  (Q -> P) -> session_log writer accept answer P cs -> session_log writer accept answer Q cs.
Proof. intros H [|peer Ha|peer es down Ha Hes Hd]; constructor; auto. Qed.

Lemma messages_application bodies :
  Forall (fun e => exists f, application f = Some e) (messages bodies).
Proof. apply Forall_forall. intros e (f & _ & Hf)%list_elem_of_omap. by exists f. Qed.

Lemma register_rejected tx peer writer accept answer tx' reports :
  register tx peer writer accept answer = (tx', false) ->
  exists cs, queued tx' = queued tx ++ cs /\ session_log writer accept answer reports cs.
Proof.
  unfold register. destruct (cmd_send tx _) as [tx1 ok] eqn:E.
  apply cmd_send_sends in E as [Hq _]. intros H. destruct ok.
  - destruct (decide (answer = Some true)) as [->|Hn]; [by rewrite bool_decide_true in H|].
    simplify_eq. eexists. split; [exact Hq|]. by constructor.
  - simplify_eq. eexists. split; [exact Hq|]. constructor.
Qed.

Lemma register_accepted tx peer writer accept answer tx' :
  register tx peer writer accept answer = (tx', true) ->
  answer = Some true /\ sends tx tx' [ConnectionUp peer writer accept] true.
Proof.
  unfold register. destruct (cmd_send tx _) as [tx1 ok] eqn:E.
  apply cmd_send_sends in E as Hs. intros H. destruct ok; [|done].
  destruct (decide (answer = Some true)) as [->|Hn]; [|by rewrite bool_decide_false in H].
  by simplify_eq.
Qed.

(** Some messages of the peer were passed on. *)
Definition forwards (tx tx' : CmdTx) (peer : Identity) : Prop :=
  exists es ok, Forall (fun e => exists f, application f = Some e) es /\
    sends tx tx' (Received peer <$> es) ok.

Lemma forwards_trans tx1 tx2 tx3 peer :
  forwards tx1 tx2 peer -> forwards tx2 tx3 peer -> forwards tx1 tx3 peer.
Proof.
  intros (es & ok & He & Hs) (es' & ok' & He' & Hs'). exists (es ++ es'), ok'.
  rewrite fmap_app. split; [by apply Forall_app|by eapply sends_trans].
Qed.

Lemma forward_all_forwards tx peer bodies : forwards tx (forward_all tx peer bodies).1 peer.
Proof.
  destruct (forward_all tx peer bodies) as [tx' ok] eqn:E.
  apply forward_all_sends in E as (es & [rest Hes] & _ & Hs). exists es, ok. split; [|done].
  pose proof (messages_application bodies) as Happ. rewrite Hes in Happ.
  by apply Forall_app in Happ as [Happ _].
Qed.

(** From the registration to the end. *)
Lemma session_ends tx tx1 tx2 peer writer accept answer (down : bool) (reports : Prop) :
  register tx peer writer accept answer = (tx1, true) -> forwards tx1 tx2 peer ->
  (reports -> gone_after tx = None /\ down = true) ->
  exists cs,
    queued (if down then (cmd_send tx2 (ConnectionDown peer)).1 else tx2) = queued tx ++ cs /\
    session_log writer accept answer reports cs.
Proof.
  intros [Ha Hs]%register_accepted (es & ok & Happ & Hs2) Hr.
  destruct (cmd_send tx2 (ConnectionDown peer)) as [tx3 ok3] eqn:E3.
  apply cmd_send_sends in E3 as Hs3.
  pose proof (sends_trans _ _ _ _ _ _ _ Hs Hs2) as H2.
  pose proof (sends_trans _ _ _ _ _ _ _ H2 Hs3) as H3.
  exists (ConnectionUp peer writer accept :: (Received peer <$> es) ++
    (if down && ok3 then [ConnectionDown peer] else [])).
  split.
  - destruct down; cbn [fst].
    + by rewrite (sends_queued _ _ _ _ H3).
    + by rewrite (sends_queued _ _ _ _ H2), app_nil_r.
  - constructor; [done|done|]. intros HR. destruct (Hr HR) as [Hg ->].
    by destruct (sends_alive _ _ _ _ H3 Hg) as [-> _].
Qed.

Lemma plain_session_log {R W} `{!Read R, !ReadLaws R, !Write W, !WriteLaws W} clock (r : R)
    (clone : option W) tx me writer accept answer mailbox :
  exists r' w' tx', plain_session clock r clone tx me writer accept answer mailbox =
      Some (r', w', tx') /\
    exists cs, queued tx' = queued tx ++ cs /\
      session_log writer accept answer (gone_after tx = None) cs.
Proof.
  assert (Hnone : forall (r' : R) (w' : option W), exists r2 w2 tx', Some (r', w', tx) = Some (r2, w2, tx') /\
    exists cs, queued tx' = queued tx ++ cs /\
      session_log writer accept answer (gone_after tx = None) cs).
  { intros r' w'. exists r', w', tx. split; [done|]. exists []. by rewrite app_nil_r; split; [|constructor]. }
  unfold plain_session. destruct clone as [w|]; [|apply Hnone].
  destruct (write_frame_returns w (hello me)) as (w1 & res & ->). cbn [mbind option_bind].
  destruct res as [[]|e]; [|apply Hnone].
  edestruct (read_hello_returns clock (S (read_fuel r)) r FrameDecoder.new) as (r1 & d & p & E & _);
    [lia|]. unfold read_hello. rewrite E. cbn [mbind option_bind].
  destruct p as [peer|]; [|apply Hnone].
  destruct (register tx peer writer accept answer) as [tx1 []] eqn:Er.
  2: { eapply register_rejected in Er as (cs & Hq & Hl). eauto 10. }
  destruct (forward_frames_any d tx1 peer) as (b1 & d1 & ->). cbn [mbind option_bind].
  destruct (plain_reader_returns (S (read_fuel r1)) r1 (forward_all tx1 peer b1).1 peer)
    as (r2 & tx2 & b2 & -> & ->); [lia|]. cbn [mbind option_bind].
  destruct (plain_writer_returns w1 mailbox) as (w2 & ->). cbn [mbind option_bind].
  eexists _, _, _. split; [done|].
  eapply (session_ends _ tx1 _ _ _ _ _ true); [done| |done].
  eapply forwards_trans; apply forward_all_forwards.
Qed.

(** How many receives find nothing before the channel hangs up. *)
Fixpoint idle (rx : Mailbox) : nat :=
  match rx with
  | [] => 0
  | Mail _ :: rx => idle rx
  | NoMail :: rx => S (idle rx)
  end.

Section WsReturns.
Context {T : Type} `{!Read T, !Write T, !ReadLaws T, !WriteLaws T, !DuplexLaws T}.
Implicit Type ws : WsStream T.

Lemma write_frame_fuel ws f :
  exists ws' r, write_frame ws f = Some (ws', r) /\ ws_fuel ws' <= ws_fuel ws.
Proof.
  destruct (write_frame_returns ws f) as (ws' & r & E). exists ws', r. split; [done|].
  exact (write_all_reads (T := WsStream T) ws f ws' r E).
Qed.

Lemma drain_outbound_returns clock ws rx ls t :
  exists ws' rx' ls' t' dropped,
    drain_outbound clock ws rx ls t = Some (ws', rx', ls', t', dropped) /\
    ws_fuel ws' <= ws_fuel ws /\ idle rx <= S (idle rx') /\ (0 < idle rx -> dropped = false).
Proof.
  revert ws ls t. induction rx as [|[f|] rx IH]; intros ws ls t; cbn [drain_outbound idle].
  - eexists _, _, _, _, _. split; [done|]. cbn. split_and!; lia.
  - destruct (write_frame_fuel ws f) as (ws1 & [[]|e] & -> & H1); cbn [mbind option_bind].
    + destruct (IH ws1 (clock t) (S t)) as (ws2 & rx2 & ls2 & t2 & dr & -> & H2 & H3 & H4).
      eexists _, _, _, _, _. split; [done|]. split_and!; [lia|done|done].
    + eexists _, _, _, _, _. split; [done|]. split_and!; [lia|lia|done].
  - eexists _, _, _, _, _. split; [done|]. cbn. split_and!; [lia|lia|done].
Qed.

Lemma beat_returns clock ws ls t :
  exists ws' ls' t' ok, beat clock ws ls t = Some (ws', ls', t', ok) /\ ws_fuel ws' <= ws_fuel ws.
Proof.
  unfold beat. destruct (decide _); [|by eexists _, _, _, _].
  destruct (write_frame_fuel ws heartbeat) as (ws1 & [[]|e] & -> & H1); cbn [mbind option_bind];
    by eexists _, _, _, _.
Qed.

Lemma session_loop_returns clock fuel ws rx d tx peer ls lr t :
  ws_fuel ws < fuel ->
  exists ws' tx' down, session_loop clock fuel ws rx d tx peer ls lr t = Some (ws', tx', down) /\
    forwards tx tx' peer /\ (ws_fuel ws < idle rx -> down = true).
Proof.
  revert ws rx d tx ls lr t. induction fuel as [|fuel IH]; intros ws rx d tx ls lr t Hf; [lia|].
  cbn [session_loop].
  destruct (drain_outbound_returns clock ws rx ls t) as (ws1 & rx1 & ls1 & t1 & dr & -> & H1 & Hi & Hd).
  cbn [mbind option_bind].
  assert (Hrefl : forwards tx tx peer) by (exists [], true; split; [done|apply sends_refl]).
  destruct dr.
  { exists ws1, tx, false. split_and!; [done|done|]. intros H. by rewrite Hd in * by lia. }
  destruct (beat_returns clock ws1 ls1 t1) as (ws2 & ls2 & t2 & ok & -> & H2).
  cbn [mbind option_bind]. destruct ok; cbn [negb]; [|by exists ws2, tx, true].
  destruct (decide _); [by exists ws2, tx, true|].
  destruct (read ws2 (16 * 1024)) as [ws3 [[|b l]|e]] eqn:Er; [by exists ws3, tx, true| |].
  - assert (H3 : read_fuel ws3 < read_fuel ws2) by by eapply read_decreases.
    change (ws_fuel ws3 < ws_fuel ws2) in H3.
    destruct (forward_frames_any (FrameDecoder.extend_from d (b :: l)) tx peer) as (b1 & d1 & ->).
    cbn [mbind option_bind]. pose proof (forward_all_forwards tx peer b1) as Hfw.
    destruct (forward_all tx peer b1) as [tx1 alive]. cbn [fst snd] in *.
    destruct alive; [|by exists ws3, tx1, true].
    destruct (IH ws3 rx1 d1 tx1 ls2 (clock (S t2)) (S (S t2))) as (ws4 & tx4 & down & E4 & Hfw4 & Hd4);
      [lia|].
    exists ws4, tx4, down. split_and!; [done|by eapply forwards_trans|]. intros. apply Hd4. lia.
  - assert (H3 : read_fuel ws3 < read_fuel ws2) by by eapply read_fails.
    change (ws_fuel ws3 < ws_fuel ws2) in H3.
    destruct (transient e); [|by exists ws3, tx, true].
    destruct (IH ws3 rx1 d tx ls2 lr (S t2)) as (ws4 & tx4 & down & E4 & Hfw4 & Hd4); [lia|].
    exists ws4, tx4, down. split_and!; [done|done|]. intros. apply Hd4. lia.
Qed.

Lemma ws_session_upgraded_log clock clock_hello ws tx me deadline writer accept answer mailbox :
  exists ws' tx', ws_session_upgraded clock clock_hello ws tx me deadline writer accept answer
      mailbox = Some (ws', tx') /\
    exists cs, queued tx' = queued tx ++ cs /\
      session_log writer accept answer (gone_after tx = None /\ ws_fuel ws < idle mailbox) cs.
Proof.
  assert (Hnone : forall ws', exists ws2 tx', Some (ws', tx) = Some (ws2, tx') /\
    exists cs, queued tx' = queued tx ++ cs /\
      session_log writer accept answer (gone_after tx = None /\ ws_fuel ws < idle mailbox) cs).
  { intros ws'. exists ws', tx. split; [done|]. exists [].
    by rewrite app_nil_r; split; [|constructor]. }
  unfold ws_session_upgraded.
  destruct (write_frame_fuel ws (hello me)) as (ws1 & [[]|e] & -> & H1); cbn [mbind option_bind];
    [|apply Hnone].
  edestruct (ws_read_hello_returns clock_hello (S (read_fuel ws1)) ws1 FrameDecoder.new deadline 0)
    as (ws2 & d & p & E & H2); [lia|]. unfold ws_read_hello. rewrite E. cbn [mbind option_bind].
  destruct p as [peer|]; [|apply Hnone].
  destruct (register tx peer writer accept answer) as [tx1 []] eqn:Er.
  2: { eapply register_rejected in Er as (cs & Hq & Hl). eauto 10. }
  destruct (forward_frames_any d tx1 peer) as (b1 & d1 & ->). cbn [mbind option_bind].
  pose proof (forward_all_forwards tx1 peer b1) as Hfw.
  destruct (forward_all tx1 peer b1) as [tx2 alive]. cbn [fst snd] in *.
  destruct alive; cbn [negb].
  - destruct (session_loop_returns clock (S (ws_fuel ws2)) ws2 mailbox d1 tx2 peer
      (clock 0) (clock 1) 2) as (ws3 & tx3 & down & E3 & Hfw3 & Hd); [lia|].
    cbn [read_fuel ws_Read]. rewrite E3. cbn [mbind option_bind]. eexists _, _. split; [done|].
    eapply session_ends; [done|by eapply forwards_trans|]. cbn [read_fuel ws_Read] in H2.
    intros [Hg Hi]. split; [done|]. apply Hd. lia.
  - eexists _, _. split; [done|]. eapply (session_ends _ tx1 _ _ _ _ _ true); [done..|]. by intros [? _].
Qed.

(** The upgrade does not bring the end of the input any further. *)
Lemma request_loop_fuel clock fuel (t t' : T) buf deadline k out :
  request_loop clock fuel t buf deadline k = Some (t', out) ->
  match out with
  | Complete buf' _ => length buf' + read_fuel t' <= length buf + read_fuel t
  | _ => True
  end.
Proof.
  revert t buf k. induction fuel as [|fuel IH]; intros t buf k E; [done|].
  cbn [request_loop] in E. destruct (find_subsequence buf end_of_headers); [by simplify_eq|].
  case_decide; [by simplify_eq|]. case_decide; [by simplify_eq|].
  destruct (read t 1024) as [t1 [[|b l]|e]] eqn:Er; [by simplify_eq|..].
  - apply IH in E. apply read_spends in Er. destruct out; [|done..].
    rewrite length_app in E. lia.
  - apply read_fails in Er. destruct (transient e); [|by simplify_eq].
    apply IH in E. destruct out; [lia|done..].
Qed.

Lemma accept_upgrade_fuel clock (t t' : T) first deadline ws :
  accept_upgrade clock t first deadline = Some (t', Ok (Some ws)) ->
  ws_fuel ws <= 2 * (length (option_list first) + read_fuel t) + 1.
Proof.
  unfold accept_upgrade. intros E.
  destruct (request_loop _ _ _ _ _ _) as [[t1 out]|] eqn:Er; [|done]. cbn [mbind option_bind] in E.
  apply request_loop_fuel in Er. destruct out as [buf e| | |].
  - destruct (parse_upgrade (take e buf)) as [key|status].
    + destruct (success_response key) as [resp|]; [|done]. cbn [mbind option_bind] in E.
      destruct (write_all t1 resp) as [[t2 [[]|]]|] eqn:Ew; [|done..]. cbn [mbind option_bind] in E.
      apply write_all_reads in Ew. pose proof (flush_reads t2) as Hfl.
      destruct (flush t2) as [t3 [[]|]]; [|done]. simplify_eq. cbn [fst] in Hfl.
      unfold ws_fuel, new. cbn. rewrite length_drop. lia.
    + by destruct (write_all _ _) as [[t2 r]|].
  - by destruct (write_all _ _) as [[t2 r]|].
  - done.
  - done.
Qed.
End WsReturns.

(** ** What a session delivers *)

Lemma cmd_tx_alive tx : gone_after tx = None -> tx = mkCmdTx (queued tx) None.
Proof. destruct tx. cbn. by intros ->. Qed.

Lemma plain_reader_quiet fuel (s : list read_event) tx peer bodies tail :
  script_fuel s < fuel -> gone_after tx = None ->
  Forall quiet s -> Forall small bodies -> partial tail -> script_bytes s = wire bodies ++ tail ->
  exists s', plain_reader fuel s tx peer =
    Some (s', mkCmdTx (queued tx ++ (Received peer <$> messages bodies)) None).
Proof.
  revert s tx bodies. induction fuel as [|fuel IH]; intros s tx bodies Hf Hg Hs Hb Ht E; [lia|].
  cbn [plain_reader]. destruct (read_frame_returns s) as (r1 & res & Er & Hr).
  destruct (read_frame_quiet s Hs) as (s' & Hs' & [(x & Hx & Ex & E1)|[Hn E1]]);
    rewrite Er in E1; simplify_eq; rewrite Er; cbn [mbind option_bind].
  - rewrite E in Ex. symmetry in Ex. apply wire_head in Ex as (rest & -> & Ex); [|done..].
    apply Forall_cons in Hb as [_ Hb].
    pose proof (forward_all_alive tx peer [x] Hg) as Hfw. cbn [forward_all] in Hfw.
    destruct (forward tx peer x) as [tx1 []]; [|done]. simplify_eq.
    destruct (IH s' (mkCmdTx (queued tx ++ (Received peer <$> messages [x])) None) rest)
      as (s2 & ->); [cbn in Hr; lia|done..|].
    exists s2. cbn [queued]. rewrite <- app_assoc, <- fmap_app. unfold messages.
    by rewrite <- omap_app.
  - rewrite E in Hn. assert (bodies = []) as -> by by eapply wire_nil.
    exists s'. cbn. by rewrite app_nil_r, <- cmd_tx_alive.
Qed.

Lemma script_fuel_length s : length s <= script_fuel s.
Proof. unfold script_fuel. induction s as [|[bs|e] s IH]; csimpl; lia. Qed.

(** What one read takes from a chunk that fits the decoder's scratch buffer. *)
Definition fits (e : read_event) : Prop :=
  match e with RChunk bs => length bs <= 16 * 1024 | RFail _ => True end.

#[export] Instance fits_dec e : Decision (fits e).
Proof. destruct e; simpl; apply _. Defined.

Lemma partial_prefix p q : partial (p ++ q) -> partial p.
Proof. intros H body rest Hs ->. apply (H body (rest ++ q) Hs). by rewrite app_assoc. Qed.

(** When [last] is the chunk that completes the HELLO, the handshake stops
    right behind it and holds what else that chunk brought. *)
Lemma read_hello_last clock fuel pre last post d deadline k body rest :
  (forall i, (clock i < deadline)%Z) -> length pre < fuel ->
  chunk_len d = 16 * 1024 -> Forall benign pre -> Forall fits pre ->
  last <> [] -> length last <= 16 * 1024 -> small body ->
  partial (buf d ++ script_bytes pre) -> buf d ++ script_bytes pre ++ last = framed body ++ rest ->
  read_hello_loop clock fuel (pre ++ RChunk last :: post) d deadline k =
    Some (post, mkDecoder rest (16 * 1024), hello_of body).
Proof.
  intros Hcl. revert d pre k. induction fuel as [|fuel IH];
    intros d pre k Hf Hc Hb Hfit Hl Hlen Hsm Hp E; [lia|].
  assert (Hnone : FrameDecoder.take_frame d = (None, d)).
  { destruct (FrameDecoder.take_frame d) as [[x|] d1] eqn:Et.
    - apply take_frame_Some in Et as (Hd & Hx & _). apply partial_prefix in Hp.
      by destruct (Hp x (buf d1) Hx).
    - by apply take_frame_None in Et as [-> _]. }
  cbn [read_hello_loop]. unfold FrameDecoder.read1. rewrite Hnone, Hc.
  cbn [read script_Read]. destruct Hb as [|e pre He Hb].
  - cbn [app script_read]. rewrite decide_True by done.
    destruct last as [|b l] eqn:El; [done|]. rewrite <- El in *.
    cbn in E. assert (Ht : FrameDecoder.take_frame (FrameDecoder.extend_from d last) =
      (Some body, mkDecoder rest (16 * 1024))).
    { unfold FrameDecoder.extend_from. rewrite E, Hc. by apply take_frame_framed. }
    by rewrite El in Ht |- *; rewrite Ht.
  - apply Forall_cons in Hfit as [Hfe Hfit]. rewrite script_bytes_cons in Hp, E.
    destruct e as [bs|e]; cbn [app script_read].
    + rewrite decide_True by done. cbn in He. destruct bs as [|b l] eqn:El; [done|].
      rewrite <- El in *. set (d2 := FrameDecoder.extend_from d bs).
      assert (Hp2 : partial (buf d2 ++ script_bytes pre)) by (cbn; by rewrite <- app_assoc).
      assert (Ht : FrameDecoder.take_frame d2 = (None, d2)).
      { destruct (FrameDecoder.take_frame d2) as [[x|] d1] eqn:Et.
        - apply take_frame_Some in Et as (Hd & Hx & _). apply partial_prefix in Hp2.
          by destruct (Hp2 x (buf d1) Hx).
        - by apply take_frame_None in Et as [-> _]. }
      assert (Hgo : read_hello_loop clock fuel (pre ++ RChunk last :: post) d2 deadline (S k) =
        Some (post, mkDecoder rest (16 * 1024), hello_of body)).
      { apply IH; try done; [cbn in Hf; lia|]. rewrite <- E. cbn. by rewrite <- !app_assoc. }
      subst d2. rewrite El in Ht, Hgo |- *. rewrite Ht, decide_False by (specialize (Hcl k); lia).
      exact Hgo.
    + cbn in He. rewrite He, decide_False by (specialize (Hcl k); lia).
      apply IH; try done. cbn in Hf. lia.
Qed.

Lemma small_hello peer : length peer = IDENTITY_SIZE -> small (T_HELLO :: PROTOCOL_VERSION :: peer).
Proof. intros H. unfold small. rewrite !zlen_cons. unfold zlen. by rewrite H. Qed.

Lemma hello_of_body peer : length peer = IDENTITY_SIZE ->
  hello_of (T_HELLO :: PROTOCOL_VERSION :: peer) = Some peer.
Proof.
  intros H. unfold hello_of.
  change (T_HELLO :: PROTOCOL_VERSION :: peer) with (body_of (Hello PROTOCOL_VERSION peer)).
  rewrite decode_body_of; [by rewrite decide_True|].
  split; [done|by apply small_hello].
Qed.

Lemma register_alive tx peer writer accept :
  gone_after tx = None ->
  register tx peer writer accept (Some true) =
    (mkCmdTx (queued tx ++ [ConnectionUp peer writer accept]) None, true).
Proof. intros Hg. unfold register, cmd_send. by rewrite Hg. Qed.

(** A plain session whose HELLO arrives with the frames [b1] and the bytes
    [t1] in one read, and which then receives [b2] and [t2]. *)
Lemma plain_session_run clock pre last post tx peer me writer accept mailbox (w : Tcp) b1 t1 b2 t2 :
  (forall i, (clock i < clock 0%nat + HEARTBEAT_TIMEOUT)%Z) -> gone_after tx = None ->
  Io.tx w = [] -> length peer = IDENTITY_SIZE ->
  Forall benign pre -> Forall fits pre -> length last <= 16 * 1024 -> Forall quiet post ->
  length (script_bytes pre) < length (hello peer) ->
  script_bytes pre ++ last = hello peer ++ wire b1 ++ t1 ->
  Forall small b1 -> partial t1 -> 
  script_bytes post = wire b2 ++ t2 -> Forall small b2 -> partial t2 ->
  exists r' w',
    plain_writer (mkTcp (rx w) [] (sent w ++ hello me)) mailbox = Some w' /\
    plain_session clock (pre ++ RChunk last :: post) (Some w) tx me writer accept (Some true)
      mailbox =
    Some (r', Some w',
      mkCmdTx (queued tx ++ ConnectionUp peer writer accept ::
        (Received peer <$> messages (b1 ++ b2)) ++ [ConnectionDown peer]) None).
Proof.
  intros Hcl Hg Htx Hpeer Hb Hfit Hlast Hpost Hpre Hfirst Hb1 Ht1 Esecond Hb2 Ht2.
  unfold plain_session. destruct w as [rw tw sw]. cbn in Htx. subst tw. unfold write_frame at 1.
  rewrite write_all_clear. cbn [mbind option_bind].
  rewrite hello_framed in Hpre, Hfirst by done.
  assert (Hne : last <> []).
  { intros ->. rewrite app_nil_r in Hfirst. apply (f_equal length) in Hfirst.
    rewrite length_app in Hfirst. lia. }
  unfold read_hello. rewrite (read_hello_last _ _ pre last post FrameDecoder.new _ _
    (T_HELLO :: PROTOCOL_VERSION :: peer) (wire b1 ++ t1)); try done.
  2: { cbn [read_fuel script_Read]. pose proof (script_fuel_length (pre ++ RChunk last :: post)) as H.
       rewrite length_app in H. simpl in H. lia. }
  2: by apply small_hello.
  2: { intros body rest Hs E. cbn in E. rewrite E, <- app_assoc in Hfirst. rewrite E in Hpre.
       apply framed_inj in Hfirst as [-> _]; [|done|by apply small_hello].
       rewrite length_app in Hpre. lia. }
  cbn [mbind option_bind]. rewrite hello_of_body, register_alive by done.
  edestruct forward_frames_spec as (d' & -> & _); [exact Hb1|exact Ht1|done|].
  cbn [mbind option_bind]. rewrite forward_all_alive by done. cbn [fst queued].
  edestruct plain_reader_quiet as (r' & ->); [| |exact Hpost|exact Hb2|exact Ht2|exact Esecond|];
    [cbn; lia|done|]. cbn [mbind option_bind queued].
  destruct (plain_writer_returns (mkTcp rw [] (sw ++ hello me)) mailbox) as (w' & Ew).
  rewrite Ew. cbn [mbind option_bind]. exists r', w'. split; [done|]. do 2 f_equal.
  unfold cmd_send. cbn [gone_after fst queued]. f_equal.
  unfold messages. by rewrite omap_app, fmap_app, <- !app_assoc.
Qed.

Section WsDelivers.
Implicit Type ws : WsStream Tcp.

Lemma drain_outbound_gives clock ws bs rx ls t :
  gives ws bs -> 0 < idle rx ->
  exists ws' rx' ls' t', drain_outbound clock ws rx ls t = Some (ws', rx', ls', t', false) /\
    gives ws' bs /\ ws_fuel ws' <= ws_fuel ws /\ idle rx = S (idle rx').
Proof.
  revert ws ls t. induction rx as [|[f|] rx IH]; intros ws ls t Hg Hi; cbn [drain_outbound idle] in *.
  - lia.
  - destruct (ws_write_frame_gives ws bs f Hg) as (ws1 & -> & Hg1 & H1). cbn [mbind option_bind].
    destruct (IH ws1 (clock t) (S t) Hg1 Hi) as (ws2 & rx2 & ls2 & t2 & -> & Hg2 & H2 & Hi2).
    exists ws2, rx2, ls2, t2. split_and!; [done..|lia|done].
  - by exists ws, rx, ls, t.
Qed.

Lemma beat_gives clock ws bs ls t :
  gives ws bs ->
  exists ws' ls' t', beat clock ws ls t = Some (ws', ls', t', true) /\ gives ws' bs /\
    ws_fuel ws' <= ws_fuel ws.
Proof.
  intros Hg. unfold beat. destruct (decide _); [|by eexists _, _, _].
  destruct (ws_write_frame_gives ws bs heartbeat Hg) as (ws1 & -> & Hg1 & H1).
  cbn [mbind option_bind]. by eexists _, _, _.
Qed.

(** The client is never silent for too long: at every look of the session loop,
    less than [HEARTBEAT_TIMEOUT] has gone by since the last time a read gave
    bytes, or since [since] if none has.  The looks are those of [session_loop],
    which take the readings of the clock in order. *)
Fixpoint heard (clock : nat -> Z) (fuel : nat) ws (rx : Mailbox) (last_send since : Z) (t : nat) : Prop :=
  match fuel with
  | O => True
  | S fuel =>
    match drain_outbound clock ws rx last_send t with
    | Some (ws, rx, last_send, t, false) =>
      match beat clock ws last_send t with
      | Some (ws, last_send, t, true) =>
        (clock t - since < HEARTBEAT_TIMEOUT)%Z /\
        match read ws (16 * 1024) with
        | (_, Ok []) => True
        | (ws, Ok _) => heard clock fuel ws rx last_send (clock (S t)) (S (S t))
        | (ws, Err _) => heard clock fuel ws rx last_send since (S t)
        end
      | _ => True
      end
    | _ => True
    end
  end.

#[export] Instance heard_dec clock fuel ws rx ls since t : Decision (heard clock fuel ws rx ls since t).
Proof.
  revert ws rx ls since t. induction fuel as [|fuel IH]; intros; cbn [heard]; [apply _|].
  destruct (drain_outbound _ _ _ _ _) as [[[[[? ?] ?] ?] []]|]; try apply _.
  destruct (beat _ _ _ _) as [[[[? ?] ?] []]|]; try apply _.
  destruct (read _ _) as [? [[|? ?]|?]]; apply _.
Defined.

(** Of the session behind an accepted upgrade. *)
Definition heard_session (clock clock_hello : nat -> Z) (deadline : Z) (me : Identity) (mailbox : Mailbox)
    ws : Prop :=
  match write_frame ws (hello me) with
  | Some (ws, Ok _) =>
    match ws_read_hello clock_hello ws FrameDecoder.new deadline with
    | Some (ws, _, Some _) => heard clock (S (read_fuel ws)) ws mailbox (clock 0%nat) (clock 1%nat) 2
    | _ => True
    end
  | _ => True
  end.

#[export] Instance heard_session_dec clock clock_hello deadline me mailbox ws :
  Decision (heard_session clock clock_hello deadline me mailbox ws).
Proof. unfold heard_session. repeat case_match; apply _. Defined.

#[global] Typeclasses Opaque heard heard_session.

Lemma session_loop_gives clock fuel ws rx d tx peer ls lr t bs bodies tail :
  ws_fuel ws < fuel -> ws_fuel ws < idle rx -> gone_after tx = None ->
  heard clock fuel ws rx ls lr t ->
  gives ws bs -> Forall small bodies -> partial tail -> partial (buf d) ->
  buf d ++ bs = wire bodies ++ tail ->
  exists ws', session_loop clock fuel ws rx d tx peer ls lr t =
    Some (ws', mkCmdTx (queued tx ++ (Received peer <$> messages bodies)) None, true).
Proof.
  revert ws rx d tx ls lr t bs bodies.
  induction fuel as [|fuel IH];
    intros ws rx d tx ls lr t bs bodies Hf Hi Hg Hh Hgv Hb Ht Hp E; [lia|].
  cbn [session_loop heard] in *.
  destruct (drain_outbound_gives clock ws bs rx ls t Hgv) as (ws1 & rx1 & ls1 & t1 & Ed & Hg1 & H1 & Hi1);
    [lia|]. rewrite Ed in *. cbn [mbind option_bind].
  destruct (beat_gives clock ws1 bs ls1 t1 Hg1) as (ws2 & ls2 & t2 & Eb & Hg2 & H2). rewrite Eb in *.
  cbn [mbind option_bind negb]. destruct Hh as [Hq Hh].
  rewrite decide_False by lia.
  destruct (read ws2 (16 * 1024)) as [ws3 [[|b l]|e]] eqn:Er;
    pose proof (gives_read (R := WsStream Tcp) _ _ _ _ _ ltac:(apply Nat.lt_0_succ) Hg2 Er) as H.
  - assert (bs = []) as -> by exact H. rewrite app_nil_r in E. rewrite E in Hp.
    assert (bodies = []) as -> by by eapply wire_nil. exists ws3.
    cbn [messages omap list_omap fmap list_fmap].
    by rewrite app_nil_r, <- cmd_tx_alive.
  - destruct H as (bs' & -> & Hg3).
    assert (H3 : read_fuel ws3 < read_fuel ws2) by by eapply read_decreases.
    change (ws_fuel ws3 < ws_fuel ws2) in H3.
    set (d2 := FrameDecoder.extend_from d (b :: l)).
    destruct (wire_split (buf d2)) as (b1 & t1' & Hb1 & Ht1 & Ew).
    destruct (wire_app_split b1 t1' bs' bodies tail) as (b2 & -> & E2); [done..| |].
    { rewrite <- E, app_assoc, <- Ew. cbn. by rewrite <- app_assoc. }
    apply Forall_app in Hb as [_ Hb2].
    destruct (forward_frames_spec d2 tx peer b1 t1' Hb1 Ht1 Ew) as (d3 & -> & Hd3).
    rewrite forward_all_alive in * by done. cbn [mbind option_bind fst snd] in *.
    rewrite Hd3 by done.
    destruct (IH ws3 rx1 (mkDecoder t1' (Protocol.chunk_len d2))
      (mkCmdTx (queued tx ++ (Received peer <$> messages b1)) None) ls2 (clock (S t2)) (S (S t2)) bs' b2)
      as (ws4 & ->); [lia|lia|done..|].
    exists ws4. cbn [queued]. unfold messages.
    by rewrite omap_app, fmap_app, <- app_assoc.
  - destruct H as [He Hg3]. assert (H3 : read_fuel ws3 < read_fuel ws2) by by eapply read_fails.
    change (ws_fuel ws3 < ws_fuel ws2) in H3. rewrite He.
    apply (IH ws3 rx1 d tx ls2 lr (S t2) bs bodies); try done; lia.
Qed.

Lemma ws_session_upgraded_run clock clock_hello ws bs tx peer me deadline writer accept mailbox
    bodies tail :
  heard_session clock clock_hello deadline me mailbox ws ->
  (forall i, (clock_hello i < deadline)%Z) ->
  gone_after tx = None -> ws_fuel ws < idle mailbox -> length peer = IDENTITY_SIZE ->
  gives ws bs -> bs = hello peer ++ wire bodies ++ tail -> Forall small bodies -> partial tail ->
  exists ws', ws_session_upgraded clock clock_hello ws tx me deadline writer accept (Some true)
      mailbox =
    Some (ws', mkCmdTx (queued tx ++ ConnectionUp peer writer accept ::
      (Received peer <$> messages bodies) ++ [ConnectionDown peer]) None).
Proof.
  intros Hcl Hclh Hg Hi Hpeer Hgv -> Hb Ht. unfold ws_session_upgraded, heard_session in *.
  destruct (ws_write_frame_gives ws _ (hello me) Hgv) as (ws1 & E1 & Hg1 & H1). rewrite E1 in *.
  cbn [mbind option_bind].
  rewrite hello_framed in Hg1 by done.
  edestruct (ws_read_hello_gives clock_hello (S (read_fuel ws1)) ws1 FrameDecoder.new deadline 0
    (framed (T_HELLO :: PROTOCOL_VERSION :: peer) ++ wire bodies ++ tail)
    ((T_HELLO :: PROTOCOL_VERSION :: peer) :: bodies) tail) as (ws2 & d & E & H2 & bs2 & Hg2 & E2);
    [lia|done|done|by constructor; [apply small_hello|]|done| |].
  { cbn [buf FrameDecoder.new app]. by rewrite wire_cons, <- app_assoc. }
  unfold ws_read_hello in *. rewrite E in *. cbn [mbind option_bind hd_error] in *.
  rewrite hello_of_body in * by done. rewrite register_alive by done.
  destruct (wire_split (buf d)) as (b1 & t1 & Hb1 & Ht1 & Ed).
  rewrite Ed, <- app_assoc in E2.
  destruct (wire_app_split b1 t1 bs2 bodies tail) as (b2 & -> & E3); [done..|].
  apply Forall_app in Hb as [_ Hb2].
  destruct (forward_frames_spec d (mkCmdTx (queued tx ++ [ConnectionUp peer writer accept]) None)
    peer b1 t1 Hb1 Ht1 Ed) as (d3 & -> & Hd3).
  rewrite forward_all_alive in * by done. cbn [mbind option_bind fst snd negb] in *.
  rewrite Hd3 by done. change (read_fuel ws2 <= ws_fuel ws1) in H2.
  destruct (session_loop_gives clock (S (read_fuel ws2)) ws2 mailbox (mkDecoder t1 (Protocol.chunk_len d))
    (mkCmdTx (queued (mkCmdTx (queued tx ++ [ConnectionUp peer writer accept]) None) ++
      (Received peer <$> messages b1)) None) peer (clock 0) (clock 1) 2 bs2 b2 tail)
    as (ws3 & ->); [cbn; lia|cbn in *; lia|done..|].
  cbn [mbind option_bind]. exists ws3. do 2 f_equal. unfold cmd_send. cbn [gone_after fst queued].
  f_equal. unfold messages. by rewrite omap_app, fmap_app, <- !app_assoc.
Qed.
End WsDelivers.
