(* ===== verification/ConnProps.v ===== *)
(** * ConnProps: what the sessions of the synchronous crate guarantee

    The theorems about [Conn]: what reaches the broker from a plain and from
    a WebSocket session, what the writer puts on the wire, which peers the
    handshake accepts, and that whatever the peer does a session is a
    well-bracketed conversation with the broker which leaves its connection
    table as it was. *)

From S2P Require Import Prelude Io WsFrame WsStream Upgrade Protocol Timers Broker Conn.
From Stdlib Require Import Strings.Byte.

(** ** Handshake *)

(** Both handshakes accept the same peers: over any connection that only
    falters, cut into reads in any way and before the deadline, [read_hello]
    and [ws_read_hello] return the identity exactly when the first complete
    frame of the stream is a HELLO of this protocol version, and leave every
    byte after that frame to the session, in the decoder or unread. *)
Theorem handshake_verdict {R} `{!Read R, !ReadLaws R, !ByteStream R} clock deadline (r : R)
    bs bodies tail :
  (forall i, (clock i < deadline)%Z) -> (forall i, (clock i < clock 0%nat + HEARTBEAT_TIMEOUT)%Z) ->
  gives r bs -> bs = wire bodies ++ tail -> Forall small bodies -> partial tail ->
  let verdict := b ← hd_error bodies; hello_of b in
  exists r1 d1 r2 d2,
    read_hello clock r FrameDecoder.new = Some (r1, d1, verdict) /\
    ws_read_hello clock r FrameDecoder.new deadline = Some (r2, d2, verdict) /\
    match bodies with
    | [] => True
    | _ :: rest =>
      (exists bs', gives r1 bs' /\ buf d1 ++ bs' = wire rest ++ tail) /\
      (exists bs', gives r2 bs' /\ buf d2 ++ bs' = wire rest ++ tail)
    end.
Proof.
  intros Hcl Hcl0 Hg -> Hb Ht.
  destruct (read_hello_gives clock (S (read_fuel r)) r FrameDecoder.new
    (clock 0%nat + HEARTBEAT_TIMEOUT)%Z 1 _ bodies tail ltac:(lia) ltac:(cbn; lia) Hcl0 Hg Hb Ht
    eq_refl) as (r1 & d1 & E1 & H1).
  destruct (ws_read_hello_gives clock (S (read_fuel r)) r FrameDecoder.new deadline 0 _ bodies tail
    ltac:(lia) Hcl Hg Hb Ht eq_refl) as (r2 & d2 & E2 & _ & H2).
  exists r1, d1, r2, d2. split_and!; [exact E1|exact E2|]. by destruct bodies.
Qed.

Definition peer_id : Identity := replicate 16 x2a.
Definition hello_body : bytes := T_HELLO :: PROTOCOL_VERSION :: peer_id.

(** The HELLO in two pieces, with the start of a heartbeat behind it. *)
Definition hello_script : list read_event :=
  [ RChunk (take 3 (hello peer_id)); RFail WouldBlock;
    RChunk (drop 3 (hello peer_id) ++ take 2 heartbeat); RChunk (drop 2 heartbeat) ].

Lemma handshake_verdict_witness :
  exists (r1 : list read_event) d1 (r2 : list read_event) d2,
    read_hello (fun _ => 0%Z) hello_script FrameDecoder.new = Some (r1, d1, Some peer_id) /\
    ws_read_hello (fun _ => 0%Z) hello_script FrameDecoder.new 1 = Some (r2, d2, Some peer_id) /\
    (exists bs', gives r1 bs' /\ buf d1 ++ bs' = wire [[T_HEARTBEAT]] ++ []) /\
    (exists bs', gives r2 bs' /\ buf d2 ++ bs' = wire [[T_HEARTBEAT]] ++ []).
Proof.
  refine (handshake_verdict (fun _ => 0%Z) 1 hello_script (script_bytes hello_script)
    [hello_body; [T_HEARTBEAT]] [] _ _ _ _ _ _).
  - intros i. reflexivity.
  - intros i. reflexivity.
  - split; [|reflexivity]. apply (bool_decide_unpack _). vm_compute. exact I.
  - vm_compute. reflexivity.
  - apply (bool_decide_unpack _). vm_compute. exact I.
  - apply partial_short. simpl. lia.
Defined.

(** ** Plain sessions *)

(** A plain session delivers the peer's stream.  When the read that
    completes the HELLO ends at a frame boundary, then however the rest is
    cut into reads the broker is told of the connection, of every DATA,
    DATA_REQ and ACK of the stream in order, and of the end when the peer
    closes; heartbeats, further HELLOs and unknown frames are dropped. *)
Theorem plain_session_delivers clock pre last post tx peer me writer accept mailbox (w : Tcp)
    b1 b2 tail :
  (forall i, (clock i < clock 0%nat + HEARTBEAT_TIMEOUT)%Z) -> gone_after tx = None ->
  Io.tx w = [] -> length peer = IDENTITY_SIZE ->
  Forall benign pre -> Forall fits pre -> length last <= 16 * 1024 -> Forall quiet post ->
  length (script_bytes pre) < length (hello peer) ->
  script_bytes pre ++ last = hello peer ++ wire b1 ->
  script_bytes post = wire b2 ++ tail ->
  Forall small b1 -> Forall small b2 -> partial tail ->
  script_bytes (pre ++ RChunk last :: post) = hello peer ++ wire (b1 ++ b2) ++ tail /\
  exists r' w',
    plain_session clock (pre ++ RChunk last :: post) (Some w) tx me writer accept (Some true)
      mailbox =
    Some (r', Some w',
      mkCmdTx (queued tx ++ ConnectionUp peer writer accept ::
        (Received peer <$> messages (b1 ++ b2)) ++ [ConnectionDown peer]) None).
Proof.
  intros Hcl Hg Hw Hp Hb Hf Hl Hq Hlen E1 E2 Hb1 Hb2 Ht. split.
  - assert (script_bytes (pre ++ RChunk last :: post) = (script_bytes pre ++ last) ++ script_bytes post)
      as ->.
    { unfold script_bytes. by rewrite fmap_app, join_app, <- app_assoc. }
    rewrite E1, E2. unfold wire. by rewrite fmap_app, join_app, <- !app_assoc.
  - destruct (plain_session_run clock pre last post tx peer me writer accept mailbox w b1 [] b2 tail)
      as (r' & w' & _ & E); try done; try apply partial_nil; [by rewrite app_nil_r|]. by exists r', w'.
Qed.

Definition greeting : bytes := str_bytes "hi".

Lemma plain_session_delivers_witness :
  script_bytes ([RChunk (take 3 (hello peer_id)); RFail TimedOut] ++
      RChunk (drop 3 (hello peer_id) ++ wire [[T_HEARTBEAT]]) ::
      [RChunk (take 4 (data greeting)); RFail Interrupted; RChunk (drop 4 (data greeting))])
    = hello peer_id ++ wire ([[T_HEARTBEAT]] ++ [T_DATA :: greeting]) ++ [] /\
  exists r' w',
    plain_session (fun _ => 0%Z)
      ([RChunk (take 3 (hello peer_id)); RFail TimedOut] ++
        RChunk (drop 3 (hello peer_id) ++ wire [[T_HEARTBEAT]]) ::
        [RChunk (take 4 (data greeting)); RFail Interrupted; RChunk (drop 4 (data greeting))])
      (Some (mkTcp [] [] [])) (mkCmdTx [] None) peer_id 1 2 (Some true) [NoMail] =
    Some (r', Some w',
      mkCmdTx ([] ++ ConnectionUp peer_id 1 2 :: [Received peer_id (Data greeting)] ++
               [ConnectionDown peer_id]) None).
Proof.
  refine (plain_session_delivers (fun _ => 0%Z) [RChunk (take 3 (hello peer_id)); RFail TimedOut]
    (drop 3 (hello peer_id) ++ wire [[T_HEARTBEAT]])
    [RChunk (take 4 (data greeting)); RFail Interrupted; RChunk (drop 4 (data greeting))]
    (mkCmdTx [] None) peer_id peer_id 1 2 [NoMail] (mkTcp [] [] []) [[T_HEARTBEAT]]
    [T_DATA :: greeting] [] _ _ _ _ _ _ _ _ _ _ _ _ _ _);
    try reflexivity; try (apply (bool_decide_unpack _); vm_compute; exact I).
  apply partial_nil.
Defined.

(** C35: A frame split by the read that completes the HELLO is not delivered,
    and its payload is read as frames.  The decoder of the handshake is
    dropped with the bytes it holds, and the reader starts over on the rest:
    a peer that sends its HELLO and one DATA frame whose payload ends in the
    encoding of other frames has those delivered instead of the DATA when the
    first read ends where they start. *)
Theorem split_frame_misread clock tx peer me writer accept mailbox (w : Tcp) x bodies :
  (forall i, (clock i < clock 0%nat + HEARTBEAT_TIMEOUT)%Z) -> gone_after tx = None ->
  Io.tx w = [] -> length peer = IDENTITY_SIZE -> 0 < length (wire bodies) ->
  length x <= 16 * 1000 -> Forall small bodies -> small (T_DATA :: x ++ wire bodies) ->
  exists r' w',
    plain_session clock
      [RChunk (hello peer ++ take (5 + length x) (data (x ++ wire bodies)));
       RChunk (drop (5 + length x) (data (x ++ wire bodies)))]
      (Some w) tx me writer accept (Some true) mailbox =
    Some (r', Some w',
      mkCmdTx (queued tx ++ ConnectionUp peer writer accept ::
        (Received peer <$> messages bodies) ++ [ConnectionDown peer]) None).
Proof.
  intros Hcl Hg Hw Hp Hpos Hx Hb Hs.
  assert (Hd : data (x ++ wire bodies) =
    (to_be_bytes 4 (zlen (T_DATA :: x ++ wire bodies)) ++ T_DATA :: x) ++ wire bodies).
  { rewrite data_framed by done. unfold framed. by rewrite <- app_assoc. }
  set (head := to_be_bytes 4 (zlen (T_DATA :: x ++ wire bodies)) ++ T_DATA :: x) in *.
  assert (Hl : 5 + length x = length head).
  { unfold head. rewrite length_app, length_to_be_bytes. simpl. lia. }
  rewrite Hd, Hl, take_app_length, drop_app_length.
  destruct (plain_session_run clock [] (hello peer ++ head) [RChunk (wire bodies)] tx peer me writer
    accept mailbox w [] head bodies []) as (r' & w' & _ & E); try done;
    [..|by exists r', w'].
  - rewrite length_app, hello_framed by done. unfold framed.
    rewrite length_app, length_to_be_bytes. cbn [length]. rewrite Hp. unfold IDENTITY_SIZE. lia.
  - constructor; [|done]. cbn. intros E. rewrite E in Hpos. simpl in Hpos. lia.
  - rewrite hello_framed by done. simpl. lia.
  - intros body rest Hsm E. apply (f_equal (fun l => l ++ wire bodies)) in E.
    rewrite <- Hd, data_framed, <- app_assoc in E by done.
    rewrite <- (app_nil_r (framed (T_DATA :: _))) in E.
    apply framed_inj in E as [_ E]; [|done..]. symmetry in E.
    apply app_nil in E as [_ E]. rewrite E in Hpos. simpl in Hpos. lia.
Qed.

(** The payload carries what looks like an acknowledgement. *)
Lemma split_frame_misread_witness :
  exists r' w',
    plain_session (fun _ => 0%Z)
      [RChunk (hello peer_id ++
         take (5 + 2) (data (greeting ++ wire [T_ACK :: replicate 16 x07])));
       RChunk (drop (5 + 2) (data (greeting ++ wire [T_ACK :: replicate 16 x07])))]
      (Some (mkTcp [] [] [])) (mkCmdTx [] None) peer_id 1 2 (Some true) [] =
    Some (r', Some w',
      mkCmdTx ([] ++ ConnectionUp peer_id 1 2 :: [Received peer_id (Ack (replicate 16 x07))] ++
               [ConnectionDown peer_id]) None).
Proof.
  apply (split_frame_misread (fun _ => 0%Z) (mkCmdTx [] None) peer_id peer_id 1 2 []
    (mkTcp [] [] []) greeting [T_ACK :: replicate 16 x07]);
    try reflexivity; try (apply (bool_decide_unpack _); vm_compute; exact I).
Defined.

(** ** WebSocket sessions *)

(** The adapter an accepted upgrade leaves behind: everything the client sends
    is still to come, nothing but the response has been written. *)
Lemma upgraded_ready clock s o first deadline request rest key response :
  (forall i, (clock i < deadline)%Z) -> Forall benign s ->
  option_list first ++ script_bytes s = request ++ rest ->
  find_subsequence (request ++ rest) end_of_headers = Some (length request - 4) ->
  4 <= length request <= MAX_REQUEST_BYTES ->
  parse_upgrade request = Accepted key -> success_response key = Some response ->
  exists ws, accept_upgrade clock (mkTcp s [] o) first deadline = Some (inner ws, Ok (Some ws)) /\
    gives ws (WsStream.decode rest).1 /\
    ws_fuel ws <= 2 * (length (option_list first) + script_fuel s) + 1 /\
    Io.tx (inner ws) = [] /\ close_sent ws = false /\ sent (inner ws) = o ++ response.
Proof.
  intros Hup Hs Hfull Hfind Hlen Hkey Hresp.
  destruct (accept_upgrade_keeps clock s o first deadline request rest key response)
    as (s' & leftover & E & Hs' & Hrest); [done..|].
  pose proof (accept_upgrade_fuel _ _ _ _ _ _ E) as Hfuel.
  cbn [read_fuel tcp_Read rx] in Hfuel.
  eexists (new (mkTcp s' [] (o ++ response)) leftover). split; [exact E|]. split; [|done].
  split; [by split|]. split; [done|]. unfold future.
  cbn [new inner rx eof rawbuf payload payload_pos sent]. rewrite Hrest.
  by destruct (WsStream.decode rest).
Qed.

(** C27: A WebSocket session delivers the client's stream, from the first
    byte of the HTTP request on.  However the input is cut into reads and
    whichever polls time out, as long as the client is never silent for the 15
    seconds after which the loop gives it up ([heard_session]) and the broker
    does not drop the connection: once the request is accepted and the payload of
    the client's frames starts with a HELLO, both within their deadline, the
    broker is told of the connection, of every DATA, DATA_REQ and ACK carried by
    the frames in order, however frames and protocol messages are cut against
    each other, and of the end; a protocol frame pipelined with the HELLO or the
    request is not lost. *)
Theorem ws_session_delivers clock clock_up clock_hello s o first deadline request rest key response
    tx peer me writer accept mailbox bodies tail :
  (forall i, (clock_up i < deadline)%Z) -> (forall i, (clock_hello i < deadline)%Z) ->
  (forall t ws, accept_upgrade clock_up (mkTcp s [] o) first deadline = Some (t, Ok (Some ws)) ->
     heard_session clock clock_hello deadline me mailbox ws) ->
  Forall benign s ->
  option_list first ++ script_bytes s = request ++ rest ->
  find_subsequence (request ++ rest) end_of_headers = Some (length request - 4) ->
  4 <= length request <= MAX_REQUEST_BYTES ->
  parse_upgrade request = Accepted key -> success_response key = Some response ->
  (WsStream.decode rest).1 = hello peer ++ wire bodies ++ tail ->
  length peer = IDENTITY_SIZE -> Forall small bodies -> partial tail ->
  gone_after tx = None -> 2 * (length (option_list first) + script_fuel s) + 1 < idle mailbox ->
  exists t',
    ws_session clock clock_up clock_hello (mkTcp s [] o) first tx me deadline writer accept
      (Some true) mailbox =
    Some (t', mkCmdTx (queued tx ++ ConnectionUp peer writer accept ::
      (Received peer <$> messages bodies) ++ [ConnectionDown peer]) None).
Proof.
  intros Hup Hhello Hcl Hs Hfull Hfind Hlen Hkey Hresp Hdec Hpeer Hb Ht Hg Hi.
  destruct (upgraded_ready clock_up s o first deadline request rest key response)
    as (ws & E & Hgv & Hfuel & _); [done..|].
  destruct (ws_session_upgraded_run clock clock_hello ws _ tx peer me deadline writer accept mailbox
    bodies tail (Hcl _ _ E) Hhello Hg ltac:(lia) Hpeer Hgv Hdec Hb Ht) as (ws' & E').
  unfold ws_session. rewrite E. cbn [mbind option_bind]. rewrite E'. by eexists.
Qed.

(** The HELLO and a DATA_REQ as one message cut across two WebSocket frames. *)
Definition client_payload : bytes := hello peer_id ++ wire [T_DATA :: greeting] ++ [x00].
Definition client_frames : bytes :=
  mjoin (encode_message <$>
    [ mkMessage false OP_BIN sample_mask (take 30 client_payload);
      mkMessage true OP_CONT sample_mask (drop 30 client_payload) ]).
Definition client_script : list read_event :=
  [ RChunk (take 20 sample_request); RFail WouldBlock;
    RChunk (drop 20 sample_request ++ take 9 client_frames); RChunk (drop 9 client_frames) ].

(** A client that takes its time: the session lasts longer than the timeout. *)
Definition slow_frames : bytes :=
  mjoin (encode_message <$>
    [ mkMessage false OP_BIN sample_mask (take 22 client_payload);
      mkMessage false OP_CONT sample_mask (take 4 (drop 22 client_payload));
      mkMessage true OP_CONT sample_mask (drop 26 client_payload) ]).
Definition slow_script : list read_event :=
  [ RChunk (take 20 sample_request); RFail WouldBlock;
    RChunk (drop 20 sample_request ++ take 29 slow_frames); RFail WouldBlock;
    RChunk (take 10 (drop 29 slow_frames)); RFail WouldBlock; RChunk (drop 39 slow_frames);
    RFail TimedOut ].

(** Two seconds from one look at the clock to the next. *)
Definition slow_clock (i : nat) : Z := 2000000000 * Z.of_nat i.

Definition slow_session : WsStream Tcp :=
  match accept_upgrade (fun _ => 0%Z) (mkTcp slow_script [] []) None 1 with
  | Some (_, Ok (Some ws)) => ws
  | _ => new (mkTcp [] [] []) []
  end.

Lemma slow_heard :
  heard_session slow_clock (fun _ => 0%Z) 1 peer_id (replicate 2000 NoMail) slow_session.
Proof. apply (bool_decide_unpack _). vm_compute. exact I. Qed.

Lemma ws_session_delivers_witness :
  exists response t',
    success_response (lit "dGhlIHNhbXBsZSBub25jZQ==") = Some response /\
    ws_session slow_clock (fun _ => 0%Z) (fun _ => 0%Z) (mkTcp slow_script [] []) None
      (mkCmdTx [] None) peer_id 1 1 2 (Some true) (replicate 2000 NoMail) =
    Some (t', mkCmdTx ([] ++ ConnectionUp peer_id 1 2 :: [Received peer_id (Data greeting)] ++
                       [ConnectionDown peer_id]) None).
Proof.
  destruct (success_response (lit "dGhlIHNhbXBsZSBub25jZQ==")) as [response|] eqn:Hr;
    [|exfalso; vm_compute in Hr; discriminate].
  exists response.
  assert (Hb : Forall benign slow_script) by (apply (bool_decide_unpack _); vm_compute; exact I).
  assert (Hd : (WsStream.decode slow_frames).1 =
    hello peer_id ++ wire [T_DATA :: greeting] ++ [x00]) by (vm_compute; reflexivity).
  assert (Ht : partial [x00]) by (apply partial_short; simpl; lia).
  refine (_ (ws_session_delivers slow_clock (fun _ => 0%Z) (fun _ => 0%Z) slow_script [] None 1
    sample_request slow_frames (lit "dGhlIHNhbXBsZSBub25jZQ==") response (mkCmdTx [] None) peer_id
    peer_id 1 2 (replicate 2000 NoMail) [T_DATA :: greeting] [x00]
    (fun _ => eq_refl) (fun _ => eq_refl) _ Hb _ _ _ _ Hr Hd eq_refl _ Ht eq_refl _)).
  - intros [t' E]. exists t'. split; [reflexivity|exact E].
  - intros t ws E. assert (ws = slow_session) as -> by (unfold slow_session; by rewrite E).
    exact slow_heard.
  - vm_compute. reflexivity.
  - vm_compute. reflexivity.
  - apply (bool_decide_unpack _). vm_compute. exact I.
  - vm_compute. reflexivity.
  - apply (bool_decide_unpack _). vm_compute. exact I.
  - apply (bool_decide_unpack _). vm_compute. exact I.
Defined.

(** ** The writer *)

Definition post (o : option Envelope) : mail :=
  match o with Some e => Mail (encode e) | None => NoMail end.

Definition posted (o : option Envelope) : bytes :=
  match o with Some e => body_of e | None => [T_HEARTBEAT] end.

Lemma write_frame_sent (w : Tcp) f :
  exists w' r p, write_frame w f = Some (w', r) /\ rx w' = rx w /\ sent w' = sent w ++ p /\
    p `prefix_of` f /\ (r = Ok tt -> p = f) /\ (Io.tx w = [] -> r = Ok tt /\ Io.tx w' = []).
Proof.
  destruct (write_frame_returns w f) as (w' & r & E). exists w', r.
  unfold write_frame in *. pose proof (write_all_sent w w' f r E) as (Hrx & p & Hs & Hp & Hok).
  exists p. split_and!; try done. intros H. destruct w as [a b c]. cbn in H. subst b.
  rewrite write_all_clear in E. by simplify_eq.
Qed.

Lemma wire_posted os :
  Forall (fun o => forall e, o = Some e -> sendable e) os ->
  mjoin ((fun m => match m with Mail f => f | NoMail => heartbeat end) <$> (post <$> os))
    = wire (posted <$> os).
Proof.
  unfold wire. induction 1 as [|[e|] os He Hos IH]; [done|..]; csimpl; rewrite IH.
  - by rewrite encode_framed by auto.
  - reflexivity.
Qed.

Lemma plain_writer_sent (w : Tcp) rx0 :
  exists w' p, plain_writer w rx0 = Some w' /\ rx w' = rx w /\ sent w' = sent w ++ p /\
    p `prefix_of` mjoin ((fun m => match m with Mail f => f | NoMail => heartbeat end) <$> rx0) /\
    (Io.tx w = [] ->
      p = mjoin ((fun m => match m with Mail f => f | NoMail => heartbeat end) <$> rx0)).
Proof.
  revert w. induction rx0 as [|m rx0 IH]; intros w.
  { exists w, []. by rewrite app_nil_r. }
  set (f := match m with Mail f => f | NoMail => heartbeat end).
  destruct (write_frame_sent w f) as (w1 & r & p & E & Hrx & Hs & Hp & Hok & Hclear).
  assert (Estep : plain_writer w (m :: rx0) =
    match r with Ok _ => plain_writer w1 rx0 | Err _ => Some w1 end).
  { cbn [plain_writer]. unfold f in E. destruct m; by rewrite E. }
  rewrite Estep. csimpl. fold f. destruct r as [[]|e].
  - rewrite Hok in * by done. destruct (IH w1) as (w2 & p2 & -> & Hrx2 & Hs2 & Hp2 & Hall).
    exists w2, (f ++ p2). split_and!; [done|congruence| | |].
    + by rewrite Hs2, Hs, app_assoc.
    + by apply prefix_app.
    + intros H. f_equal. apply Hall. by apply Hclear.
  - exists w1, p. split_and!; [done|done|done|by apply prefix_app_r|].
    intros H. by destruct (Hclear H).
Qed.

(** The writer keeps the order.  What it puts on the wire is the frames
    the broker queued, whole and in order, with a heartbeat wherever the
    queue stayed silent for the interval, so a peer that reads them back gets
    exactly the envelopes sent; a failing connection cuts this off at some
    byte, and nothing else is ever written or read. *)
Theorem writer_keeps_order (w : Tcp) os :
  Forall (fun o => forall e, o = Some e -> sendable e) os ->
  exists w' p, plain_writer w (post <$> os) = Some w' /\ rx w' = rx w /\
    sent w' = sent w ++ p /\ p `prefix_of` wire (posted <$> os) /\
    (Io.tx w = [] -> p = wire (posted <$> os)) /\
    Forall small (posted <$> os) /\
    decode <$> (posted <$> os) = (fun o => Some (default Heartbeat o)) <$> os.
Proof.
  intros Hos. destruct (plain_writer_sent w (post <$> os)) as (w' & p & E & Hrx & Hs & Hp & Hall).
  rewrite wire_posted in * by done. exists w', p. split_and!; try done.
  - clear -Hos. induction Hos as [|[e|] os He Hos IH]; [done|..]; (constructor; [|by apply IH]).
    + by destruct (He e eq_refl).
    + done.
  - clear -Hos. induction Hos as [|[e|] os He Hos IH]; [done|..]; csimpl; rewrite IH.
    + by rewrite (decode_body_of e (He e eq_refl)).
    + done.
Qed.

Lemma writer_keeps_order_witness :
  let os := [Some (Data greeting); None; Some (Ack (replicate 16 x07))] in
  exists w' p, plain_writer (mkTcp [] [WTake 3; WFail Interrupted] []) (post <$> os) = Some w' /\
    rx w' = [] /\ sent w' = [] ++ p /\ p `prefix_of` wire (posted <$> os) /\
    (Io.tx (mkTcp [] [WTake 3; WFail Interrupted] []) = [] -> p = wire (posted <$> os)) /\
    Forall small (posted <$> os) /\
    decode <$> (posted <$> os) = (fun o => Some (default Heartbeat o)) <$> os.
Proof.
  apply (writer_keeps_order (mkTcp [] [WTake 3; WFail Interrupted] [])
    [Some (Data greeting); None; Some (Ack (replicate 16 x07))]).
  apply Forall_cons. split; [by intros e [= <-]; vm_compute|].
  apply Forall_cons. split; [done|].
  apply Forall_cons. split; [by intros e [= <-]; vm_compute|done].
Defined.

(** ** Whatever the peer does *)

Section Bracket.
Context {T W : Type} `{!Read T, !Write T, !Write W}.
Context `{!ReadLaws T, !WriteLaws T, !DuplexLaws T, !WriteLaws W, !Peek T}.

Lemma ws_session_log clock clock_up clock_hello (t : T) first tx me deadline writer accept answer
    mailbox :
  exists t' tx', ws_session clock clock_up clock_hello t first tx me deadline writer accept answer
      mailbox = Some (t', tx') /\
    exists cs, queued tx' = queued tx ++ cs /\
      session_log writer accept answer
        (gone_after tx = None /\
         2 * (length (option_list first) + read_fuel t) + 1 < idle mailbox) cs.
Proof.
  unfold ws_session.
  destruct (accept_upgrade_returns clock_up t first deadline) as (t' & r & E).
  rewrite E. cbn [mbind option_bind].
  assert (Hnone : exists t2 tx', Some (t', tx) = Some (t2, tx') /\
    exists cs, queued tx' = queued tx ++ cs /\ session_log writer accept answer
      (gone_after tx = None /\
         2 * (length (option_list first) + read_fuel t) + 1 < idle mailbox) cs).
  { exists t', tx. split; [done|]. exists []. by rewrite app_nil_r; split; [|constructor]. }
  destruct r as [[ws|]|e]; [|exact Hnone..]. apply accept_upgrade_fuel in E.
  destruct (ws_session_upgraded_log clock clock_hello ws tx me deadline writer accept answer mailbox)
    as (ws' & tx' & -> & cs & Hq & Hlog). cbn [mbind option_bind].
  exists (inner ws'), tx'. split; [done|]. exists cs. split; [done|].
  eapply session_log_weaken; [|exact Hlog]. intros [? ?]. split; [done|lia].
Qed.

Lemma plain_or_ws_session_log clock clock_peek clock_up clock_hello (t : T) (clone : option W) tx me sniff
    writer accept answer mailbox :
  exists t' w' tx',
    plain_or_ws_session clock clock_peek clock_up clock_hello t clone tx me sniff writer accept answer
      mailbox = Some (t', w', tx') /\
    exists cs, queued tx' = queued tx ++ cs /\
      session_log writer accept answer
        (gone_after tx = None /\ 2 * read_fuel t + 1 < idle mailbox) cs.
Proof.
  assert (Hplain : forall r, exists t' w' tx',
    plain_session clock r clone tx me writer accept answer mailbox = Some (t', w', tx') /\
    exists cs, queued tx' = queued tx ++ cs /\ session_log writer accept answer
        (gone_after tx = None /\ 2 * read_fuel t + 1 < idle mailbox) cs).
  { intros r. destruct (plain_session_log clock r clone tx me writer accept answer mailbox)
      as (r' & w' & tx' & E & cs & Hq & Hlog).
    exists r', w', tx'. split; [done|]. exists cs. split; [done|].
    eapply session_log_weaken; [|exact Hlog]. by intros [? _]. }
  assert (Hnone : forall (r : T) (w : option W), exists t' w' tx',
    Some (r, w, tx) = Some (t', w', tx') /\
    exists cs, queued tx' = queued tx ++ cs /\ session_log writer accept answer
        (gone_after tx = None /\ 2 * read_fuel t + 1 < idle mailbox) cs).
  { intros r w. exists r, w, tx. split; [done|]. exists []. by rewrite app_nil_r; split; [|constructor]. }
  unfold plain_or_ws_session. destruct sniff; cbn [negb]; [|apply Hplain].
  edestruct (peek_returns (fun i => clock_peek (S i)) (S (read_fuel t)) t) as (t1 & b & E & H1); [lia|].
  unfold peek_first_byte. rewrite E. cbn [mbind option_bind]. destruct b as [b|]; [|apply Hnone].
  destruct (decide (b = x00)); [apply Hplain|]. destruct (decide _); [|apply Hnone].
  edestruct ws_session_log as (t2 & tx2 & E2 & cs & Hq & Hlog). rewrite E2. cbn [mbind option_bind].
  exists t2, clone, tx2. split; [done|]. exists cs. split; [done|].
  eapply session_log_weaken; [|exact Hlog]. change (length (option_list None)) with 0.
  intros [? ?]. split; [done|lia].
Qed.

(** C30: Whatever the peer does, a session ends, and the broker hears a
    well-bracketed conversation.  Over any transport that keeps the laws of
    [Io], for any clock, any answer of the broker and any point at which the
    broker goes away, the commands are nothing; or a registration alone, when
    it was turned down, so that a duplicate never reports the genuine
    connection as down; or a registration, only DATA, DATA_REQ and ACK of that
    very peer, and one report of the end, which can be missing only if the
    broker has gone or has itself dropped the connection. *)
Theorem sessions_bracket clock clock_peek clock_up clock_hello (t : T) (clone : option W) tx me sniff
    writer accept answer mailbox :
  exists t' w' tx',
    plain_or_ws_session clock clock_peek clock_up clock_hello t clone tx me sniff writer accept answer
      mailbox = Some (t', w', tx') /\
    exists cs, queued tx' = queued tx ++ cs /\
      session_log writer accept answer
        (gone_after tx = None /\ 2 * read_fuel t + 1 < idle mailbox) cs.
Proof. apply plain_or_ws_session_log. Qed.
End Bracket.

Lemma sessions_bracket_witness :
  exists t' w' tx',
    plain_or_ws_session (fun _ => 0%Z) (fun _ => 0%Z) (fun _ => 0%Z) (fun _ => 0%Z)
      (mkTcp client_script [] []) (Some (mkTcp [] [] [])) (mkCmdTx [] None) peer_id true 1 2
      (Some true) [NoMail] = Some (t', w', tx') /\
    exists cs, queued tx' = [] ++ cs /\
      session_log 1 2 (Some true)
        (gone_after (mkCmdTx [] None) = None /\
         2 * read_fuel (mkTcp client_script [] []) + 1 < idle [NoMail]) cs.
Proof.
  exact (sessions_bracket (fun _ => 0%Z) (fun _ => 0%Z) (fun _ => 0%Z) (fun _ => 0%Z)
    (mkTcp client_script [] []) (Some (mkTcp [] [] [])) (mkCmdTx [] None) peer_id true 1 2
    (Some true) [NoMail]).
Defined.

(** The bind side routes by the first byte without taking it: once the
    polls that time out before it have passed, [0x00] is a plain session and
    ['G'] a WebSocket session over the untouched stream; on any other byte,
    or when the peer closes, the connection is dropped with nothing written
    and nothing told to the broker. *)
Theorem sniff_routes clock clock_peek clock_up clock_hello s o (clone : option Tcp) tx me writer accept
    answer mailbox fails b :
  (forall i, (clock_peek (S i) < clock_peek 0%nat + HEARTBEAT_TIMEOUT)%Z) ->
  Forall (fun e => transient e = true) fails -> peek s = (s, Ok b) ->
  plain_or_ws_session clock clock_peek clock_up clock_hello
    (mkTcp ((RFail <$> fails) ++ s) [] o) clone tx me true writer accept answer mailbox =
  match b with
  | Some x00 =>
    plain_session clock (mkTcp s [] o) clone tx me writer accept answer mailbox
  | Some "G"%byte =>
    '(t, tx) ← ws_session clock clock_up clock_hello (mkTcp s [] o) None tx me
      (clock_peek 0%nat + HEARTBEAT_TIMEOUT)%Z writer accept answer mailbox;
    Some (t, clone, tx)
  | _ => Some (mkTcp s [] o, clone, tx)
  end.
Proof.
  intros Hcl Hf Hs. unfold plain_or_ws_session. cbn [negb]. cbv zeta.
  set (dl := (clock_peek 0%nat + HEARTBEAT_TIMEOUT)%Z) in *.
  assert (Hpeek : forall fuel k, length fails < fuel ->
    peek_loop (fun i => clock_peek (S i)) fuel (mkTcp ((RFail <$> fails) ++ s) [] o) dl k =
      Some (mkTcp s [] o, b)).
  { induction Hf as [|e fails He Hf IH]; intros [|fuel] k Hlen; csimpl in Hlen; try lia;
      cbn [peek_loop].
    - cbn in Hs |- *. by rewrite Hs.
    - cbn. rewrite He, decide_False by (specialize (Hcl k); lia). apply IH. lia. }
  unfold peek_first_byte. rewrite Hpeek.
  2: { cbn [read_fuel tcp_Read rx]. pose proof (script_fuel_length ((RFail <$> fails) ++ s)) as H.
       rewrite length_app, length_fmap in H. lia. }
  cbn [mbind option_bind]. destruct b as [b|]; [|done]. by destruct b.
Qed.

Lemma sniff_routes_witness :
  plain_or_ws_session (fun _ => 0%Z) (fun _ => 0%Z) (fun _ => 0%Z) (fun _ => 0%Z)
    (mkTcp ((RFail <$> [WouldBlock; TimedOut]) ++ [RChunk [x41; x00]]) [] [])
    (Some (mkTcp [] [] [])) (mkCmdTx [] None) peer_id true 1 2 (Some true) [] =
  Some (mkTcp [RChunk [x41; x00]] [] [], Some (mkTcp [] [] []), mkCmdTx [] None).
Proof.
  apply (sniff_routes (fun _ => 0%Z) (fun _ => 0%Z) (fun _ => 0%Z) (fun _ => 0%Z) [RChunk [x41; x00]] []
    (Some (mkTcp [] [] [])) (mkCmdTx [] None) peer_id 1 2 (Some true) [] [WouldBlock; TimedOut]
    (Some x41)).
  - intros i. reflexivity.
  - apply (bool_decide_unpack _). vm_compute. exact I.
  - reflexivity.
Defined.

(** ** Sessions and the broker *)

(** The answer the broker gives to a registration. *)
Definition broker_answer (b : Broker) (peer : Identity) : bool :=
  bool_decide (conns b !! peer = None).

Lemma handle_up_links b id w a b' es :
  handle_up b id w a = (b', es) ->
  es !! 0 = Some (Accept a (broker_answer b id)) /\
  if broker_answer b id then conns b' = <[id := w]> (conns b) /\ order b' = order b ++ [id]
  else b' = b.
Proof.
  unfold handle_up, broker_answer. destruct (conns b !! id) as [x|] eqn:E.
  - rewrite decide_True by done. rewrite bool_decide_false by done. intros. by simplify_eq.
  - rewrite decide_False by (by intros []). rewrite bool_decide_true by done.
    case_decide; [intros; by simplify_eq|].
    destruct (send_each _ _) as [b1 es1] eqn:E1. intros. simplify_eq.
    by apply send_each_links in E1 as [? ? -> -> ?].
Qed.

Lemma run_received b peer es b' fx :
  run b (Received peer <$> es) = (Some b', fx) -> conns b' = conns b /\ order b' = order b.
Proof.
  revert b fx. induction es as [|e es IH]; intros b fx; csimpl; [intros; by simplify_eq/=|].
  cbn [run handle]. destruct (handle_received b peer e) as [b1 fx1] eqn:E1.
  destruct (run b1 _) as [o fx2] eqn:E2. intros. simplify_eq.
  apply IH in E2 as [-> ->]. unfold handle_received in E1.
  destruct e as [| | |m p|m]; simplify_eq/=; try done. by destruct (pending b !! m); simplify_eq/=.
Qed.

Lemma remove_first_snoc id l : id ∉ l -> remove_first id (l ++ [id]) = l.
Proof.
  induction l as [|x l IH]; intros H; cbn; [by rewrite decide_True|].
  rewrite decide_False by set_solver. rewrite IH; set_solver.
Qed.

Lemma run_app b cs cs' :
  run b (cs ++ cs') =
    match run b cs with
    | (Some b1, es) => let '(o, es') := run b1 cs' in (o, es ++ es')
    | (None, es) => (None, es)
    end.
Proof.
  revert b. induction cs as [|c cs IH]; intros b; [by cbn; destruct (run b cs')|].
  cbn [app run]. destruct (handle b c) as [[b1|] es]; [|done]. rewrite IH.
  destruct (run b1 cs) as [[b2|] es2]; [|done].
  destruct (run b2 cs') as [o es3]. by rewrite app_assoc.
Qed.

(** A session leaves no trace in the broker.  When the broker processes
    the commands of one session whose end was reported, and the session was
    given the broker's own answer to its registration, the table of
    connections and the round-robin order are what they were before: an
    accepted peer is removed again, and a duplicate changes nothing at all. *)
Theorem session_leaves_no_trace b writer accept answer cs b' es :
  links_inv b ->
  (forall peer, ConnectionUp peer writer accept ∈ cs -> answer = Some (broker_answer b peer)) ->
  session_log writer accept answer True cs -> run b cs = (Some b', es) ->
  conns b' = conns b /\ order b' = order b /\
  (forall peer, cs = [ConnectionUp peer writer accept] -> b' = b).
Proof.
  intros HI Hans Hlog Hrun. destruct Hlog as [|peer Ha|peer msgs down Ha Hmsgs Hdown].
  - cbn in Hrun. by simplify_eq.
  - specialize (Hans peer ltac:(set_solver)). cbn [run handle] in Hrun.
    destruct (handle_up b peer writer accept) as [b1 fx] eqn:E.
    apply handle_up_links in E as [_ E]. revert E Hans.
    destruct (broker_answer b peer); intros E ->; [done|]. by simplify_eq.
  - rewrite Hdown in * by done. specialize (Hans peer ltac:(set_solver)). rewrite Ha in Hans.
    cbn [run handle] in Hrun. destruct (handle_up b peer writer accept) as [b1 fx] eqn:E.
    apply handle_up_links in E as [_ E]. injection Hans as Hans. rewrite <- Hans in E.
    symmetry in Hans. apply bool_decide_eq_true in Hans as Hnew. destruct E as [Hc Ho]. rewrite run_app in Hrun.
    destruct (run b1 (Received peer <$> msgs)) as [[b2|] fx2] eqn:E2; [|done].
    apply run_received in E2 as [Hc2 Ho2]. cbn in Hrun. simplify_eq. cbn.
    rewrite Hc2, Ho2, Hc, Ho. split_and!.
    + by rewrite delete_insert_id.
    + apply remove_first_snoc. rewrite (li_order b HI), Hnew. by intros [].
    + intros p Hp. by destruct msgs.
Qed.

Lemma session_leaves_no_trace_witness :
  let b := new_broker RoundRobin AtMostOnce (replicate 16 x00) in
  let cs := [ConnectionUp peer_id 1 2; Received peer_id (Data greeting); ConnectionDown peer_id] in
  exists b' es, run b cs = (Some b', es) /\ conns b' = conns b /\ order b' = order b /\
    (forall peer, cs = [ConnectionUp peer 1 2] -> b' = b).
Proof.
  cbv zeta. eexists _, _. split; [reflexivity|].
  refine (session_leaves_no_trace (new_broker RoundRobin AtMostOnce (replicate 16 x00)) 1 2 (Some true)
    [ConnectionUp peer_id 1 2; Received peer_id (Data greeting); ConnectionDown peer_id]
    _ _ (new_links_inv _ _ _) _ _ _).
  - intros peer _. reflexivity.
  - apply (log_session 1 2 (Some true) True peer_id [Data greeting] true);
      [reflexivity| |intros _; reflexivity].
    constructor; [|constructor]. exists (T_DATA :: greeting). reflexivity.
  - reflexivity.
Defined.
