(* ===== verification/ConnAsync.v ===== *)
(** * ConnAsync: sessions of the asynchronous crate

    Models [handle_connection] of [rust-lib-async/src/conn.rs] over tokio's
    reader and writer interfaces.
    The reader and the writer task of a connection work on the two halves of
    one stream, which tokio's [split] guards with a lock; a session is
    therefore one state and a schedule of [turn]s, each a branch that one of
    the two [select!]s takes.  A turn reads or writes a whole frame. *)

From S2P Require Import Prelude Io Protocol ProtocolAsync Broker Conn.
From Stdlib Require Import Strings.Byte.

(** The reader's [select!]: a frame (or the end of the stream) before the
    timeout, the timeout, the shutdown of the socket.  The writer's: a frame
    from the broker, a tick of the heartbeat interval, and the two ways its
    loop is left from outside. *)
Inductive turn :=
| ReadFrame
| ReadTimeout
| ReadShutdown
| WriteMail (frame : bytes)
| WriteTick
| WriterStop.

Section Session.
Context {T : Type} `{!AsyncRead T, !AsyncWrite T}.
Context (capacity : nat -> nat).

(** One turn of the writer task; [alive] until its loop is left. *)
Definition write_turn (t : T) (alive : bool) (frame : bytes) : T * bool :=
  if alive then
    match write_frame_async t frame with
    | (t, Ok _) => (t, true)
    | (t, Err _) => (t, false)
    end
  else (t, false).

(** The two loops, until the reader's is left.  When the schedule is used up
    the socket shuts down. *)
Fixpoint session_turns (turns : list turn) (t : T) (tx : CmdTx) (peer : Identity) (alive : bool)
  : option (T * CmdTx) :=
  match turns with
  | [] => Some (t, tx)
  | ReadShutdown :: _ => Some (t, tx)
  | ReadTimeout :: _ => Some (t, tx)
  | ReadFrame :: turns =>
    '(t, r) ← read_frame_async capacity t;
    match r with
    | Ok None => Some (t, tx)
    | Err _ => Some (t, tx)
    | Ok (Some frame) =>
      match ProtocolAsync.Async.decode frame with
      | Some Heartbeat | Some (Hello _ _) | None => session_turns turns t tx peer alive
      | Some envelope =>
        match cmd_send tx (Received peer envelope) with
        | (tx, true) => session_turns turns t tx peer alive
        | (tx, false) => Some (t, tx)
        end
      end
    end
  | WriteMail frame :: turns =>
    let '(t, alive) := write_turn t alive frame in session_turns turns t tx peer alive
  | WriteTick :: turns =>
    let '(t, alive) := write_turn t alive ProtocolAsync.Async.heartbeat in
    session_turns turns t tx peer alive
  | WriterStop :: turns => session_turns turns t tx peer false
  end.

Definition handle_connection (stream : T) (tx : CmdTx) (my_identity : Identity)
    (writer accept : Sender) (answer : option bool) (turns : list turn)
  : option (T * CmdTx * io_result ()) :=
  match write_frame_async stream (ProtocolAsync.Async.hello my_identity) with
  | (t, Err e) => Some (t, tx, Err e)
  | (t, Ok _) =>
    '(t, r) ← read_frame_async capacity t;
    match r with
    | Err e => Some (t, tx, Err e)
    | Ok None => Some (t, tx, Ok tt)
    | Ok (Some frame) =>
      match ProtocolAsync.Async.decode frame with
      | Some (Hello version peer) =>
        if decide (version <> PROTOCOL_VERSION) then Some (t, tx, Ok tt)
        else
          match cmd_send tx (ConnectionUp peer writer accept) with
          | (tx, false) => Some (t, tx, Ok tt)
          | (tx, true) =>
            if decide (answer <> Some true) then Some (t, tx, Ok tt)
            else
              '(t, tx) ← session_turns turns t tx peer true;
              Some (t, (cmd_send tx (ConnectionDown peer)).1, Ok tt)
          end
      | _ => Some (t, tx, Ok tt)
      end
    end
  end.
End Session.

(** ** What a session delivers and writes *)

(** The turns in which neither task is stopped from outside. *)
Definition undisturbed (u : turn) : Prop :=
  match u with ReadFrame | WriteMail _ | WriteTick => True | _ => False end.

#[export] Instance undisturbed_dec u : Decision (undisturbed u).
Proof. destruct u; simpl; apply _. Defined.

Definition reads (u : turn) : nat := match u with ReadFrame => 1 | _ => 0 end.

(** What a turn has the writer put on the wire. *)
Definition outgoing (u : turn) : bytes :=
  match u with WriteMail f => f | WriteTick => heartbeat | _ => [] end.

Section Unspilled.
Context {T : Type} `{!AsyncRead T, !AsyncWrite T}.
Context (capacity : nat -> nat).

(** No read of the session takes a byte of the next frame along
    ([whole_read]), from [t] on: on the buffers of [read_frame], of which
    [BytesMut] promises at least the size asked for, this says where the reads
    end. *)
Fixpoint unspilled (turns : list turn) (t : T) : Prop :=
  match turns with
  | ReadFrame :: turns =>
    whole_read capacity t /\
    match read_frame_async capacity t with Some (t, _) => unspilled turns t | None => True end
  | WriteMail frame :: turns => unspilled turns (write_turn t true frame).1
  | WriteTick :: turns => unspilled turns (write_turn t true ProtocolAsync.Async.heartbeat).1
  | _ => True
  end.

(** The same of the whole session, with the read of the peer's HELLO. *)
Definition unspilled_session (me : Identity) (turns : list turn) (t : T) : Prop :=
  unspilled (ReadFrame :: turns) (write_frame_async t (ProtocolAsync.Async.hello me)).1.

#[export] Instance unspilled_dec turns t : Decision (unspilled turns t).
Proof.
  revert t. induction turns as [|[] turns IH]; intros t; cbn [unspilled]; try apply _.
  destruct (read_frame_async capacity t) as [[t' ?]|]; apply _.
Defined.

#[export] Instance unspilled_session_dec me turns t : Decision (unspilled_session me turns t) :=
  unspilled_dec _ _.

(** So it is for every session whose buffers have exactly the size asked for. *)
Lemma exact_unspilled `{!AsyncReadLaws T} turns t : (forall n, capacity n = n) -> unspilled turns t.
Proof.
  intros Hc. revert t. induction turns as [|[] turns IH]; intros t; cbn [unspilled]; auto.
  split; [by apply exact_whole_read|]. repeat case_match; auto.
Qed.

Lemma exact_unspilled_session `{!AsyncReadLaws T} me turns t :
  (forall n, capacity n = n) -> unspilled_session me turns t.
Proof. apply exact_unspilled. Qed.
End Unspilled.

#[global] Typeclasses Opaque unspilled unspilled_session.

(** ** What a session reports, whatever becomes of its writes *)

(** Writes succeed and leave the incoming side alone. *)
Class AsyncQuietWrites (T : Type) `{!AsyncRead T, !AsyncWrite T} := {
  quiet_write_all w b : exists w', a_write_all w b = (w', Ok tt) /\ incoming w' = incoming w;
  quiet_flush w : exists w', a_flush w = (w', Ok tt) /\ incoming w' = incoming w;
}.

#[export] Instance duplex_quiet {T} `{AsyncDuplexLaws T} : AsyncQuietWrites T.
Proof.
  split.
  - intros w b. destruct (a_write_all_ok w b) as (w' & E & _ & Hi). by exists w'.
  - intros w. destruct (a_flush_ok w) as (w' & E & _ & Hi). by exists w'.
Qed.

Section Reports.
Context {T : Type} `{!AsyncRead T, !AsyncWrite T, !AsyncReadLaws T, !AsyncQuietWrites T}.
Context (capacity : nat -> nat) (enough : forall n, n <= capacity n).

Lemma read_frame_next (t : T) bodies tail :
  whole_read capacity t -> Forall small bodies -> partial tail -> incoming t = wire bodies ++ tail ->
  exists t', read_frame_async capacity t = Some (t', Ok (hd_error bodies)) /\
    match bodies with [] => True | _ :: rest => incoming t' = wire rest ++ tail end.
Proof using AsyncReadLaws0 enough.
  intros Hr Hb Ht E.
  destruct (read_frame_async_whole capacity t enough Hr) as (t' & [(x & Hx & Ex & Er)|[Hp Er]]); exists t'.
  - rewrite E in Ex. symmetry in Ex. apply wire_head in Ex as (rest & -> & Ex); done.
  - rewrite E in Hp. by assert (bodies = []) as -> by by eapply wire_nil.
Qed.

Lemma write_frame_quiet (t : T) frame :
  exists t', write_frame_async t frame = (t', Ok tt) /\ incoming t' = incoming t.
Proof using AsyncQuietWrites0.
  unfold write_frame_async. destruct (quiet_write_all t frame) as (t1 & -> & H1).
  destruct (quiet_flush t1) as (t2 & -> & H2). exists t2. by rewrite H2.
Qed.

(** The forwarding of the reader loop is that of the synchronous crate. *)
Lemma session_read_turn turns (t t' : T) tx peer alive frame :
  read_frame_async capacity t = Some (t', Ok (Some frame)) ->
  session_turns capacity (ReadFrame :: turns) t tx peer alive =
    match forward tx peer frame with
    | (tx, true) => session_turns capacity turns t' tx peer alive
    | (tx, false) => Some (t', tx)
    end.
Proof using Type.
  intros E. cbn [session_turns]. rewrite E. cbn [mbind option_bind].
  change (ProtocolAsync.Async.decode frame) with (decode frame). unfold forward.
  by destruct (decode frame) as [[]|].
Qed.

Lemma session_turns_report turns (t : T) tx peer bodies tail :
  Forall undisturbed turns -> length bodies < sum_list (reads <$> turns) ->
  unspilled capacity turns t -> gone_after tx = None -> Forall small bodies -> partial tail ->
  incoming t = wire bodies ++ tail ->
  exists t', session_turns capacity turns t tx peer true =
      Some (t', mkCmdTx (queued tx ++ (Received peer <$> messages bodies)) None).
Proof using All.
  intros Hu. revert t tx bodies. induction Hu as [|u turns Hu Hus IH];
    intros t tx bodies Hlen Hr Hg Hb Ht E; csimpl in Hlen; [lia|].
  destruct u as [| | |f| |]; try done; cbn [reads unspilled] in Hlen, Hr; cbn [session_turns].
  2-3: unfold write_turn in *;
    match goal with |- context [write_frame_async ?x ?f] =>
      destruct (write_frame_quiet x f) as (t1 & E1 & Hi); rewrite E1 in * end;
    apply IH; [lia|done..|congruence].
  destruct Hr as [Hr0 Hr]. destruct (read_frame_next t bodies tail Hr0 Hb Ht E) as (t1 & Er & Hrest).
  destruct bodies as [|b rest].
  - exists t1. rewrite Er. cbn [mbind option_bind hd_error].
    cbn [messages omap list_omap fmap list_fmap]. by rewrite !app_nil_r, <- cmd_tx_alive.
  - pose proof (session_read_turn turns t t1 tx peer true b Er) as Es. cbn [session_turns] in Es.
    rewrite Es. apply Forall_cons in Hb as [_ Hb]. cbn [length] in Hlen.
    pose proof (forward_all_alive tx peer [b] Hg) as Hfw. cbn [forward_all] in Hfw.
    destruct (forward tx peer b) as [tx1 []]; [|done]. simplify_eq.
    destruct (IH t1 (mkCmdTx (queued tx ++ (Received peer <$> messages [b])) None) rest)
      as (t2 & ->); [lia|by rewrite Er in Hr|done..|].
    exists t2. cbn [queued]. rewrite <- app_assoc, <- fmap_app. unfold messages. by rewrite <- omap_app.
Qed.

Lemma async_session_report (t : T) tx peer me writer accept turns bodies tail :
  unspilled_session capacity me turns t -> gone_after tx = None -> length peer = IDENTITY_SIZE ->
  incoming t = hello peer ++ wire bodies ++ tail -> Forall small bodies -> partial tail ->
  Forall undisturbed turns -> length bodies < sum_list (reads <$> turns) ->
  exists t',
    handle_connection capacity t tx me writer accept (Some true) turns =
      Some (t', mkCmdTx (queued tx ++ ConnectionUp peer writer accept ::
                  (Received peer <$> messages bodies) ++ [ConnectionDown peer]) None, Ok tt).
Proof using All.
  intros Hr Hg Hpeer Hin Hb Ht Hu Hlen. unfold handle_connection, unspilled_session in *.
  destruct (write_frame_quiet t (ProtocolAsync.Async.hello me)) as (t1 & E1 & Hi1). rewrite E1 in *.
  cbn [fst unspilled] in Hr. destruct Hr as [Hr0 Hr]. rewrite hello_framed in Hin by done.
  destruct (read_frame_next t1 ((T_HELLO :: PROTOCOL_VERSION :: peer) :: bodies) tail) as (t2 & E2 & Hi2);
    [done|by constructor; [apply small_hello|]|done|by rewrite Hi1, Hin, wire_cons, <- app_assoc|].
  rewrite E2 in *. cbn [mbind option_bind hd_error].
  change (ProtocolAsync.Async.decode ?f) with (decode f).
  change (T_HELLO :: PROTOCOL_VERSION :: peer) with (body_of (Hello PROTOCOL_VERSION peer)).
  rewrite decode_body_of by (split; [done|by apply small_hello]).
  rewrite decide_False by (by intros []). unfold cmd_send at 1. rewrite Hg.
  rewrite decide_False by (by intros []).
  destruct (session_turns_report turns t2
    (mkCmdTx (queued tx ++ [ConnectionUp peer writer accept]) None) peer bodies tail) as (t3 & ->); [done..|].
  cbn [mbind option_bind]. exists t3. do 3 f_equal. unfold cmd_send. cbn [gone_after fst queued].
  f_equal. by rewrite <- !app_assoc.
Qed.
End Reports.

Section Facts.
Context {T : Type} `{!AsyncRead T, !AsyncWrite T, !AsyncReadLaws T, !AsyncDuplexLaws T}.
Context (capacity : nat -> nat) (enough : forall n, n <= capacity n).

Lemma read_frame_turn (t : T) bodies tail :
  whole_read capacity t -> Forall small bodies -> partial tail -> incoming t = wire bodies ++ tail ->
  exists t', written t' = written t /\
    read_frame_async capacity t = Some (t', Ok (hd_error bodies)) /\
    match bodies with [] => True | _ :: rest => incoming t' = wire rest ++ tail end.
Proof using AsyncReadLaws0 AsyncDuplexLaws0 enough.
  intros Hr Hb Ht E. destruct (read_frame_next capacity enough t bodies tail Hr Hb Ht E) as (t' & Er & H).
  exists t'. by rewrite (read_frame_async_written capacity t t' _ Er).
Qed.

Lemma write_turn_ok (t : T) frame :
  exists t', write_turn t true frame = (t', true) /\ written t' = written t ++ frame /\
    incoming t' = incoming t.
Proof.
  unfold write_turn. destruct (write_frame_async_ok t frame) as (t' & -> & Hw & Hi). by exists t'.
Qed.

Lemma session_turns_run turns (t : T) tx peer bodies tail :
  Forall undisturbed turns -> length bodies < sum_list (reads <$> turns) ->
  unspilled capacity turns t -> gone_after tx = None -> Forall small bodies -> partial tail ->
  incoming t = wire bodies ++ tail ->
  exists t' p, session_turns capacity turns t tx peer true =
      Some (t', mkCmdTx (queued tx ++ (Received peer <$> messages bodies)) None) /\
    written t' = written t ++ p /\ p `prefix_of` mjoin (outgoing <$> turns).
Proof.
  intros Hu. revert t tx bodies. induction Hu as [|u turns Hu Hus IH];
    intros t tx bodies Hlen Hr Hg Hb Ht E; csimpl in Hlen; [lia|].
  assert (Hwrite : forall f, outgoing u = f -> length bodies < sum_list (reads <$> turns) ->
    unspilled capacity turns (write_turn t true f).1 ->
    (let '(t, alive) := write_turn t true f in session_turns capacity turns t tx peer alive) =
      session_turns capacity (u :: turns) t tx peer true ->
    exists t' p, session_turns capacity (u :: turns) t tx peer true =
        Some (t', mkCmdTx (queued tx ++ (Received peer <$> messages bodies)) None) /\
      written t' = written t ++ p /\ p `prefix_of` mjoin (outgoing <$> u :: turns)).
  { intros f Hf Hl Hu1 <-. destruct (write_turn_ok t f) as (t1 & E1 & Hw & Hi). rewrite E1 in *.
    destruct (IH t1 tx bodies) as (t2 & p & -> & Hw2 & Hp); [done..|by rewrite Hi|].
    exists t2, (f ++ p). split; [done|]. split; [by rewrite Hw2, Hw, app_assoc|].
    csimpl. rewrite Hf. by apply prefix_app. }
  destruct u as [| | |f| |]; try done; cbn [reads unspilled] in Hlen, Hr.
  - destruct Hr as [Hr0 Hr]. destruct (read_frame_turn t bodies tail Hr0 Hb Ht E) as (t1 & Hw & Er & Hrest).
    destruct bodies as [|b rest].
    + exists t1, []. cbn [session_turns]. rewrite Er. cbn [mbind option_bind hd_error].
      cbn [messages omap list_omap fmap list_fmap]. rewrite !app_nil_r, <- cmd_tx_alive by done.
      split_and!; [done|done|apply prefix_nil].
    + rewrite (session_read_turn capacity turns t t1 tx peer true b Er).
      apply Forall_cons in Hb as [_ Hb]. cbn [length] in Hlen.
      pose proof (forward_all_alive tx peer [b] Hg) as Hfw. cbn [forward_all] in Hfw.
      destruct (forward tx peer b) as [tx1 []]; [|done]. simplify_eq.
      destruct (IH t1 (mkCmdTx (queued tx ++ (Received peer <$> messages [b])) None) rest)
        as (t2 & p & -> & Hw2 & Hp); [lia| |done..|].
      { by rewrite Er in Hr. }
      exists t2, p. rewrite Hw2, Hw. split_and!; [|done|done].
      cbn [queued]. rewrite <- app_assoc, <- fmap_app. unfold messages. by rewrite <- omap_app.
  - by apply (Hwrite f); [|lia|..].
  - by apply (Hwrite heartbeat); [|lia|..].
Qed.
End Facts.

Lemma async_session_run {T} `{!AsyncRead T, !AsyncWrite T, !AsyncReadLaws T}
    `{!AsyncDuplexLaws T} capacity (t : T) tx peer me writer accept turns bodies tail :
  (forall n, n <= capacity n) -> unspilled_session capacity me turns t ->
  gone_after tx = None -> length peer = IDENTITY_SIZE ->
  incoming t = hello peer ++ wire bodies ++ tail -> Forall small bodies -> partial tail ->
  Forall undisturbed turns -> length bodies < sum_list (reads <$> turns) ->
  exists t' p,
    handle_connection capacity t tx me writer accept (Some true) turns =
      Some (t', mkCmdTx (queued tx ++ ConnectionUp peer writer accept ::
                  (Received peer <$> messages bodies) ++ [ConnectionDown peer]) None, Ok tt) /\
    written t' = written t ++ hello me ++ p /\ p `prefix_of` mjoin (outgoing <$> turns).
Proof.
  intros Hcap Hr Hg Hpeer Hin Hb Ht Hu Hlen. unfold handle_connection.
  destruct (write_frame_async_ok t (ProtocolAsync.Async.hello me)) as (t1 & E1 & Hw1 & Hi1).
  unfold unspilled_session in Hr. rewrite E1 in *. cbn [fst unspilled] in Hr. destruct Hr as [Hr0 Hr].
  rewrite hello_framed in Hin by done.
  destruct (read_frame_turn capacity Hcap t1 ((T_HELLO :: PROTOCOL_VERSION :: peer) :: bodies) tail)
    as (t2 & Hw2 & E2 & Hi2).
  { done. }
  { constructor; [by apply small_hello|done]. }
  { done. }
  { by rewrite Hi1, Hin, wire_cons, <- app_assoc. }
  rewrite E2 in *. cbn [mbind option_bind hd_error].
  change (ProtocolAsync.Async.decode ?f) with (decode f).
  change (T_HELLO :: PROTOCOL_VERSION :: peer) with (body_of (Hello PROTOCOL_VERSION peer)).
  rewrite decode_body_of by (split; [done|by apply small_hello]).
  rewrite decide_False by (by intros []). unfold cmd_send at 1. rewrite Hg.
  rewrite decide_False by (by intros []).
  destruct (session_turns_run capacity Hcap turns t2
    (mkCmdTx (queued tx ++ [ConnectionUp peer writer accept]) None) peer bodies tail)
    as (t3 & p & -> & Hw3 & Hp); [done..|].
  cbn [mbind option_bind]. exists t3, p. split_and!; [|by rewrite Hw3, Hw2, Hw1, <- app_assoc|done].
  do 3 f_equal. unfold cmd_send. cbn [gone_after fst queued]. f_equal. by rewrite <- !app_assoc.
Qed.

(** An asynchronous session delivers what a synchronous one does.  Over
    any tokio stream that keeps tokio's promises, with buffers of at least the
    size asked for as long as no read takes the start of the next frame along, in whatever order the
    reader's and the writer's turns come, a peer that sends its HELLO and then
    frames is registered, each of its DATA, DATA_REQ and ACK reaches the
    broker in order however the frames are cut, and the end is reported when
    it closes; what it is sent is our HELLO and then whole frames, in the
    order of the writer's turns. *)
Theorem async_session_delivers {T} `{!AsyncRead T, !AsyncWrite T, !AsyncReadLaws T}
    `{!AsyncDuplexLaws T} capacity (t : T) tx peer me writer accept turns bodies tail :
  (forall n, n <= capacity n) -> unspilled_session capacity me turns t ->
  gone_after tx = None -> length peer = IDENTITY_SIZE ->
  incoming t = hello peer ++ wire bodies ++ tail -> Forall small bodies -> partial tail ->
  Forall undisturbed turns -> length bodies < sum_list (reads <$> turns) ->
  exists t' p,
    handle_connection capacity t tx me writer accept (Some true) turns =
      Some (t', mkCmdTx (queued tx ++ ConnectionUp peer writer accept ::
                  (Received peer <$> messages bodies) ++ [ConnectionDown peer]) None, Ok tt) /\
    written t' = written t ++ hello me ++ p /\ p `prefix_of` mjoin (outgoing <$> turns).
Proof. apply async_session_run. Qed.

Definition a_peer : Identity := replicate 16 x2a.

Lemma async_session_delivers_witness :
  let turns := [WriteMail (ack (replicate 16 x01)); ReadFrame; WriteTick; ReadFrame] in
  exists t' p,
    handle_connection (fun n => n + 64)
      (mkDuplex (mkPipe 2 (hello a_peer ++ wire [T_DATA :: [x68; x69]] ++ [x00])) []) (mkCmdTx [] None)
      a_peer 1 2 (Some true) turns =
      Some (t', mkCmdTx ([] ++ ConnectionUp a_peer 1 2 :: [Received a_peer (Data [x68; x69])] ++
                         [ConnectionDown a_peer]) None, Ok tt) /\
    written t' = [] ++ hello a_peer ++ p /\ p `prefix_of` mjoin (outgoing <$> turns).
Proof.
  refine (async_session_delivers (fun n => n + 64)
    (mkDuplex (mkPipe 2 (hello a_peer ++ wire [T_DATA :: [x68; x69]] ++ [x00])) []) (mkCmdTx [] None)
    a_peer a_peer 1 2 [WriteMail (ack (replicate 16 x01)); ReadFrame; WriteTick; ReadFrame]
    [T_DATA :: [x68; x69]] [x00] (fun n => Nat.le_add_r n 64) _ eq_refl eq_refl eq_refl _ _ _ _).
  - apply (bool_decide_unpack _). vm_compute. exact I.
  - apply (bool_decide_unpack _). vm_compute. exact I.
  - apply partial_short. simpl. lia.
  - apply (bool_decide_unpack _). vm_compute. exact I.
  - cbn. lia.
Defined.
