(* ===== verification/Polled.v ===== *)
(** * Polled: a session's reads and writes on a sniffed stream

    [handle_connection] of the asynchronous crate reads and writes through
    tokio's [AsyncReadExt] and [AsyncWriteExt], whose methods poll the stream
    they are given.  What these methods do with the polls is a class here, and
    what they then give on [Sniffed] ([rust-lib-async/src/ws.rs]) is derived from
    the polls of [Prefixed] and [WsStream]. *)

From S2P Require Import Prelude Io Protocol ProtocolAsync Broker Conn ConnAsync WsFrame WsStream WsAsync Upgrade Sniff.
From Stdlib Require Import Strings.Byte.

(** ** tokio's methods *)

Class TokioExt (R : Type) := {
  tk_read_exact : R -> nat -> R * io_result bytes;
  tk_read_buf : R -> nat -> R * io_result bytes;
  tk_write_all : R -> bytes -> R * io_result ();
  tk_flush : R -> R * io_result ();
}.

Section Awaiting.
Context {R : Type}.
Context (pr : R -> nat -> option (R * poll (io_result bytes))).
Context (pw : R -> bytes -> option (R * poll (io_result nat))).
Context (pf : R -> option (R * poll (io_result ()))).

Definition prepend (bs : bytes) (res : io_result bytes) : io_result bytes :=
  match res with Ok rest => Ok (bs ++ rest) | Err e => Err e end.

(** [read_exact]: polls until the buffer is full; a poll that is not ready is
    repeated, one that brings nothing is the end of the stream. *)
Inductive exactly : R -> nat -> R -> io_result bytes -> Prop :=
| exactly_done r : exactly r 0 r (Ok [])
| exactly_wait r n r1 r' res :
    0 < n -> pr r n = Some (r1, Pending) -> exactly r1 n r' res -> exactly r n r' res
| exactly_more r n r1 bs r' res :
    0 < n -> pr r n = Some (r1, Ready (Ok bs)) -> bs <> [] -> exactly r1 (n - length bs) r' res ->
    exactly r n r' (prepend bs res)
| exactly_eof r n r1 :
    0 < n -> pr r n = Some (r1, Ready (Ok [])) -> exactly r n r1 (Err UnexpectedEof)
| exactly_err r n r1 e : 0 < n -> pr r n = Some (r1, Ready (Err e)) -> exactly r n r1 (Err e).

(** [read_buf]: polls until one is ready. *)
Inductive readily : R -> nat -> R -> io_result bytes -> Prop :=
| readily_wait r n r1 r' res : pr r n = Some (r1, Pending) -> readily r1 n r' res -> readily r n r' res
| readily_ready r n r1 res : pr r n = Some (r1, Ready res) -> readily r n r1 res.

(** [write_all]: polls until everything is taken; a write of nothing is
    [WriteZero]. *)
Inductive wholly : R -> bytes -> R -> io_result () -> Prop :=
| wholly_done r : wholly r [] r (Ok tt)
| wholly_wait r b r1 r' res :
    b <> [] -> pw r b = Some (r1, Pending) -> wholly r1 b r' res -> wholly r b r' res
| wholly_more r b r1 n r' res :
    b <> [] -> pw r b = Some (r1, Ready (Ok n)) -> 0 < n -> wholly r1 (drop n b) r' res -> wholly r b r' res
| wholly_zero r b r1 : b <> [] -> pw r b = Some (r1, Ready (Ok 0)) -> wholly r b r1 (Err WriteZero)
| wholly_err r b r1 e : b <> [] -> pw r b = Some (r1, Ready (Err e)) -> wholly r b r1 (Err e).

Inductive flushed : R -> R -> io_result () -> Prop :=
| flushed_wait r r1 r' res : pf r = Some (r1, Pending) -> flushed r1 r' res -> flushed r r' res
| flushed_ready r r1 res : pf r = Some (r1, Ready res) -> flushed r r1 res.

(** What tokio documents of its methods. *)
Class TokioLaws `{!TokioExt R} := {
  tk_read_exact_polls r n r' res : tk_read_exact r n = (r', res) -> exactly r n r' res;
  tk_read_buf_polls r n r' res : 0 < n -> tk_read_buf r n = (r', res) -> readily r n r' res;
  tk_write_all_polls r b r' res : tk_write_all r b = (r', res) -> wholly r b r' res;
  tk_flush_polls r r' res : tk_flush r = (r', res) -> flushed r r' res;
}.
End Awaiting.

(** [AsyncReadExt] and [AsyncWriteExt] on [Sniffed]. *)
Abbreviation SniffedTokio T :=
  (TokioLaws (R := Sniffed T) sniffed_poll_read sniffed_poll_write sniffed_poll_flush).

(** What a sniffed stream has still to give. *)
Definition sniffed_incoming {T} `{!PollRead T, !PollWrite T, !PollStream T} (me : Sniffed T) : bytes :=
  match me with
  | Raw s => drop (pos s) (prefix s) ++ to_come (p_inner s)
  | Ws w => presented w
  end.

#[export] Instance Sniffed_AsyncRead {T} `{!PollRead T, !PollWrite T, !PollStream T, !TokioExt (Sniffed T)}
  : AsyncRead (Sniffed T) := {
  a_read_exact := tk_read_exact;
  a_read_buf := tk_read_buf;
  incoming := sniffed_incoming;
}.

#[export] Instance Sniffed_AsyncWrite {T} `{!PollRead T, !PollWrite T, !PollStream T, !TokioExt (Sniffed T)}
  : AsyncWrite (Sniffed T) := {
  a_write_all := tk_write_all;
  a_flush := tk_flush;
  written := sniffed_out;
}.

(** A connection none of whose writes fails. *)
Class NoWriteErrors (T : Type) `{!PollRead T, !PollWrite T, !PollStream T} := {
  nw_write w b w' res :
    b <> [] -> poll_write w b = (w', res) ->
    match res with Ready (Ok k) => 0 < k | Ready (Err _) => False | Pending => True end;
  nw_flush w w' res :
    poll_flush w = (w', res) ->
    to_come w' = to_come w /\ match res with Ready (Err _) => False | _ => True end;
}.

Section Derived.
Context {T : Type} `{!AsyncRead T, !AsyncWrite T, !PollRead T, !PollWrite T, !PollLaws T}.
Context `{!PollStream T, !PollStreamLaws T, !OneStream T, !NoWriteErrors T}.

Lemma sniffed_poll_read_incoming (me me' : Sniffed T) n r :
  0 < n -> sniffed_poll_read me n = Some (me', r) ->
  match r with
  | Ready (Ok bs) => sniffed_incoming me = bs ++ sniffed_incoming me' /\ length bs <= n /\
      (bs = [] -> sniffed_incoming me = [])
  | Ready (Err _) => False
  | Pending => sniffed_incoming me = sniffed_incoming me'
  end.
Proof using PollLaws0 PollStreamLaws0 OneStream0.
  intros Hn E. destruct me as [s|w]; cbn [sniffed_poll_read] in E.
  - destruct (prefixed_poll_read s n) as [s' r'] eqn:Es. simplify_eq. cbn [sniffed_incoming].
    destruct (prefixed_poll_read_presented s s' n r Hn Es (one_calm _)) as (_ & _ & H).
    destruct r as [[bs|e]|]; [|done|by destruct H]. destruct H as [H1 H2]. split_and!; [done| |done].
    exact (proj1 (poll_read_spends (T := Prefixed T) s n s' bs Es)).
  - destruct (ws_poll_read_total w n) as (w1 & r1 & Ew & Hf). rewrite Ew in E. cbn [mbind option_bind] in E.
    simplify_eq. apply ws_poll_read_presented in Ew as [_ H]; [|done|apply one_calm].
    cbn [sniffed_incoming]. destruct r as [[bs|e]|]; [|done|done]. destruct H, Hf. done.
Qed.

Lemma exactly_incoming (me me' : Sniffed T) n res :
  exactly sniffed_poll_read me n me' res ->
  if decide (n <= length (sniffed_incoming me)) then
    res = Ok (take n (sniffed_incoming me)) /\ sniffed_incoming me' = drop n (sniffed_incoming me)
  else res = Err UnexpectedEof.
Proof using PollLaws0 PollStreamLaws0 OneStream0.
  intros H. induction H as [r|r n r1 r' res Hn E _ IH|r n r1 bs r' res Hn E Hbs _ IH|r n r1 Hn E|r n r1 e Hn E];
    try apply sniffed_poll_read_incoming in E; try done.
  - by rewrite E.
  - destruct E as (Hi & Hl & _). rewrite Hi, length_app.
    destruct (decide (n - length bs <= length (sniffed_incoming r1))).
    + destruct IH as [-> ->]. rewrite decide_True by lia.
      by rewrite take_app, drop_app, (take_ge bs), (drop_ge bs) by lia.
    + subst res. by rewrite decide_False by lia.
  - destruct E as (_ & _ & H0). rewrite H0 by done. rewrite decide_False by (simpl; lia). done.
Qed.

Lemma readily_incoming (me me' : Sniffed T) n res :
  0 < n -> readily sniffed_poll_read me n me' res ->
  exists bs, res = Ok bs /\ length bs <= n /\ sniffed_incoming me = bs ++ sniffed_incoming me' /\
    (bs = [] -> sniffed_incoming me = []).
Proof using PollLaws0 PollStreamLaws0 OneStream0.
  intros Hn H. induction H as [r n r1 r' res E _ IH|r n r1 res E];
    apply sniffed_poll_read_incoming in E; try done.
  - rewrite E. by apply IH.
  - destruct res as [bs|e]; [|done]. exists bs. destruct E as (H1 & H2 & H3). done.
Qed.

(** ** Writing *)

Lemma flush_no_error (w w' : WsAsync.WsStream T) r :
  flush_out w = Some (w', r) -> match r with Ready (Err _) => False | _ => True end.
Proof using NoWriteErrors0.
  unfold flush_out. generalize (S (length (out_buf w) - out_pos w)) as fuel. intros fuel. revert w.
  induction fuel as [|fuel IH]; intros w E; [done|]. cbn [flush_loop] in E. case_decide; [|by simplify_eq].
  destruct (poll_write (inner w) _) as [i res] eqn:Ew. apply nw_write in Ew.
  - destruct res as [[[|k]|e]|]; [lia| |done|by simplify_eq]. by apply IH in E.
  - intros Hd. apply (f_equal length) in Hd. rewrite length_drop in Hd. simpl in Hd. lia.
Qed.

Lemma flush_presented (w w' : WsAsync.WsStream T) r :
  flush_out w = Some (w', r) -> presented w' = presented w.
Proof using PollStreamLaws0.
  intros E. apply flush_still in E as ([Hx _] & Hi & Hr & He). unfold presented. by rewrite Hx, Hi, Hr, He.
Qed.

Lemma sniffed_poll_write_still (me me' : Sniffed T) b r :
  b <> [] -> sniffed_poll_write me b = Some (me', r) ->
  sniffed_incoming me' = sniffed_incoming me /\
  match r with Ready (Ok k) => 0 < k | Ready (Err _) => False | Pending => True end.
Proof using PollStreamLaws0 NoWriteErrors0.
  intros Hb E. destruct me as [s|w]; cbn [sniffed_poll_write] in E.
  - unfold prefixed_poll_write in E. destruct (poll_write (p_inner s) b) as [i res] eqn:Ew. simplify_eq.
    pose proof (nw_write _ _ _ _ Hb Ew) as Hr. apply ps_write in Ew as (Hi & _).
    cbn [sniffed_incoming p_inner pos prefix]. by rewrite Hi.
  - unfold ws_poll_write in E. destruct (flush_out w) as [[w1 r1]|] eqn:E1; [|done].
    pose proof (flush_no_error _ _ _ E1) as Hr1. apply flush_presented in E1.
    cbn [mbind option_bind] in E. destruct r1 as [[u|e]|]; cbn [mbind option_bind] in E; [|done|simplify_eq; split; [exact E1|done]].
    destruct (flush_out (with_out _ _ _)) as [[w2 r2]|] eqn:E2; [|done]. apply flush_presented in E2.
    cbn [mbind option_bind] in E. simplify_eq. cbn [sniffed_incoming]. rewrite E2, <- E1. split; [done|].
    destruct b; [done|simpl; lia].
Qed.

Lemma sniffed_poll_flush_still (me me' : Sniffed T) r :
  sniffed_poll_flush me = Some (me', r) ->
  sniffed_incoming me' = sniffed_incoming me /\ match r with Ready (Err _) => False | _ => True end.
Proof using PollStreamLaws0 NoWriteErrors0.
  intros E. destruct me as [s|w]; cbn [sniffed_poll_flush] in E.
  - unfold prefixed_poll_flush in E. destruct (poll_flush (p_inner s)) as [i res] eqn:Ew. simplify_eq.
    apply nw_flush in Ew as [Hi Hr]. cbn [sniffed_incoming p_inner pos prefix]. by rewrite Hi.
  - unfold ws_poll_flush in E. destruct (flush_out w) as [[w1 r1]|] eqn:E1; [|done].
    pose proof (flush_no_error _ _ _ E1) as Hr1. apply flush_presented in E1.
    cbn [mbind option_bind] in E. destruct r1 as [[u|e]|]; cbn [mbind option_bind] in E; [|done|simplify_eq; split; [exact E1|done]].
    destruct (poll_flush (inner w1)) as [i res] eqn:Ew. cbn [mbind option_bind] in E. simplify_eq. apply nw_flush in Ew as [Hi Hr].
    cbn [sniffed_incoming]. rewrite <- E1. split; [|done]. unfold presented.
    cbn [with_inner ready eof in_buf inner]. by rewrite Hi.
Qed.

(** ** The laws of the readers and writers *)

Context `{!TokioExt (Sniffed T)} {tokio : SniffedTokio T}.

#[export] Instance Sniffed_AsyncReadLaws : AsyncReadLaws (Sniffed T).
Proof using PollLaws0 PollStreamLaws0 OneStream0 tokio.
  split; cbn [a_read_exact a_read_buf incoming Sniffed_AsyncRead]; intros me n Hn.
  - destruct (tk_read_exact me n) as [me' res] eqn:E. apply (tk_read_exact_polls _ _ _ (TokioLaws := tokio)), exactly_incoming in E.
    rewrite decide_True in E by done. destruct E as [-> E]. by exists me'.
  - destruct (tk_read_exact me n) as [me' res] eqn:E. apply (tk_read_exact_polls _ _ _ (TokioLaws := tokio)), exactly_incoming in E.
    rewrite decide_False in E by lia. subst. by exists me'.
  - destruct (tk_read_buf me n) as [me' res] eqn:E. apply (tk_read_buf_polls _ _ _ (TokioLaws := tokio)), readily_incoming in E; [|done..].
    destruct E as (bs & -> & H). by exists me', bs.
Qed.

#[export] Instance Sniffed_AsyncQuietWrites : AsyncQuietWrites (Sniffed T).
Proof using PollStreamLaws0 NoWriteErrors0 tokio.
  split; cbn [a_write_all a_flush incoming Sniffed_AsyncRead Sniffed_AsyncWrite].
  - intros me b. destruct (tk_write_all me b) as [me' res] eqn:E. apply (tk_write_all_polls _ _ _ (TokioLaws := tokio)) in E. exists me'.
    induction E as [r|r b r1 r' res Hb E _ [[= ->] IH]|r b r1 k r' res Hb E Hk _ [[= ->] IH]|r b r1 Hb E|
      r b r1 e Hb E]; [done|..]; apply sniffed_poll_write_still in E as [H0 H]; try done.
    + split; [done|congruence].
    + split; [done|congruence].
    + lia.
  - intros me. destruct (tk_flush me) as [me' res] eqn:E. apply (tk_flush_polls _ _ _ (TokioLaws := tokio)) in E. exists me'.
    induction E as [r r1 r' res E _ [[= ->] IH]|r r1 res E]; apply sniffed_poll_flush_still in E as [H0 H].
    + split; [done|congruence].
    + destruct res as [[]|]; done.
Qed.
End Derived.

(** ** A concrete session

    On [Live] the polls that are not ready are counted, so that tokio's methods
    are loops that end. *)

#[export] Instance Live_NoWriteErrors : NoWriteErrors Live.
Proof.
  split; cbn [poll_write poll_flush Live_PollWrite].
  - intros [s [|[k|] t] o] b t' res Hb E; unfold live_write in E; simplify_eq/=; [|..|done].
    + destruct b; [done|simpl; lia].
    + destruct b; [done|simpl; lia].
  - intros t t' res E. by simplify_eq.
Qed.

Definition sniffed_inner (me : Sniffed Live) : Live :=
  match me with Raw s => p_inner s | Ws w => inner w end.

(** The writes that will not be ready, at most. *)
Definition write_waits (me : Sniffed Live) : nat := length (live_tx (sniffed_inner me)).

Fixpoint live_exactly (fuel : nat) (me : Sniffed Live) (n : nat) : Sniffed Live * io_result bytes :=
  match n, fuel with
  | O, _ => (me, Ok [])
  | _, O => (me, Err UnexpectedEof)
  | _, S fuel =>
    match sniffed_poll_read me n with
    | Some (me, Ready (Ok [])) => (me, Err UnexpectedEof)
    | Some (me, Ready (Ok bs)) =>
      let '(me, res) := live_exactly fuel me (n - length bs) in (me, prepend bs res)
    | Some (me, Ready (Err e)) => (me, Err e)
    | Some (me, Pending) => live_exactly fuel me n
    | None => (me, Err UnexpectedEof)
    end
  end.

Fixpoint live_readily (fuel : nat) (me : Sniffed Live) (n : nat) : Sniffed Live * io_result bytes :=
  match fuel with
  | O => (me, Err UnexpectedEof)
  | S fuel =>
    match sniffed_poll_read me n with
    | Some (me, Ready res) => (me, res)
    | Some (me, Pending) => live_readily fuel me n
    | None => (me, Err UnexpectedEof)
    end
  end.

Fixpoint live_wholly (fuel : nat) (me : Sniffed Live) (b : bytes) : Sniffed Live * io_result () :=
  match b, fuel with
  | [], _ => (me, Ok tt)
  | _, O => (me, Err WriteZero)
  | _, S fuel =>
    match sniffed_poll_write me b with
    | Some (me, Ready (Ok O)) => (me, Err WriteZero)
    | Some (me, Ready (Ok n)) => live_wholly fuel me (drop n b)
    | Some (me, Ready (Err e)) => (me, Err e)
    | Some (me, Pending) => live_wholly fuel me b
    | None => (me, Err WriteZero)
    end
  end.

Fixpoint live_flushed (fuel : nat) (me : Sniffed Live) : Sniffed Live * io_result () :=
  match fuel with
  | O => (me, Err WriteZero)
  | S fuel =>
    match sniffed_poll_flush me with
    | Some (me, Ready res) => (me, res)
    | Some (me, Pending) => live_flushed fuel me
    | None => (me, Err WriteZero)
    end
  end.

#[export] Instance Live_TokioExt : TokioExt (Sniffed Live) := {
  tk_read_exact me n := live_exactly (S (sniffed_fuel me)) me n;
  tk_read_buf me n := live_readily (S (sniffed_fuel me)) me n;
  tk_write_all me b := live_wholly (S (length b + write_waits me)) me b;
  tk_flush me := live_flushed (S (write_waits me)) me;
}.

Lemma live_poll_read (me : Sniffed Live) n :
  0 < n -> exists me' r, sniffed_poll_read me n = Some (me', r) /\
    match r with
    | Ready (Ok bs) => length bs <= n /\ sniffed_fuel me' + length bs <= sniffed_fuel me
    | Pending => sniffed_fuel me' < sniffed_fuel me
    | _ => True
    end.
Proof.
  intros Hn. destruct me as [s|w]; cbn [sniffed_poll_read sniffed_fuel].
  - destruct (prefixed_poll_read s n) as [s' r] eqn:E. eexists _, r. split; [done|]. cbn [sniffed_fuel].
    destruct r as [[bs|e]|]; [|done|].
    + exact (poll_read_spends (T := Prefixed Live) s n s' bs E).
    + by apply (prefixed_poll_read_presented s s' n Pending Hn E (one_calm _)).
  - destruct (ws_poll_read_total w n) as (w' & r & E & Hf). rewrite E. cbn [mbind option_bind].
    eexists _, r. split; [done|]. cbn [sniffed_fuel]. destruct r as [[bs|e]|]; [done|done|].
    exact (pending_progress _ _ _ _ E (one_calm _)).
Qed.

Lemma live_write_waits t b t' r :
  live_write t b = (t', r) ->
  length (live_tx t') <= length (live_tx t) /\ (r = Pending -> length (live_tx t') < length (live_tx t)).
Proof. unfold live_write. destruct (live_tx t) as [|[k|] s]; intros; simplify_eq/=; split; done || lia. Qed.

Lemma live_flush_waits (w w' : WsAsync.WsStream Live) r :
  flush_out w = Some (w', r) ->
  length (live_tx (inner w')) <= length (live_tx (inner w)) /\
  (r = Pending -> length (live_tx (inner w')) < length (live_tx (inner w))).
Proof.
  unfold flush_out. generalize (S (length (out_buf w) - out_pos w)) as fuel. intros fuel. revert w.
  induction fuel as [|fuel IH]; intros w E; [done|]. cbn [flush_loop] in E. case_decide; [|by simplify_eq].
  destruct (poll_write (inner w) _) as [i res] eqn:Ew. apply live_write_waits in Ew as [H1 H2].
  destruct res as [[[|k]|e]|]; simplify_eq/=; [split; done || lia| |split; done || lia|].
  - apply IH in E as [H3 H4]. cbn in H3, H4. split; [lia|]. intros Hr. apply H4 in Hr. lia.
  - split; [lia|auto].
Qed.

Lemma live_poll_write (me : Sniffed Live) b :
  b <> [] -> exists me' r, sniffed_poll_write me b = Some (me', r) /\
    write_waits me' <= write_waits me /\ (r = Pending -> write_waits me' < write_waits me).
Proof.
  intros Hb. unfold write_waits. destruct me as [s|w]; cbn [sniffed_poll_write sniffed_inner].
  - unfold prefixed_poll_write. destruct (poll_write (p_inner s) b) as [i r] eqn:E.
    eexists _, r. split; [done|]. cbn [sniffed_inner p_inner]. exact (live_write_waits _ _ _ _ E).
  - unfold ws_poll_write. destruct (flush_out_total w) as (w1 & r1 & E1 & _). rewrite E1.
    apply live_flush_waits in E1 as [H1 H2]. cbn [mbind option_bind].
    destruct r1 as [[u|e]|]; cbn [mbind option_bind].
    + destruct (flush_out_total (with_out (out_buf w1 ++ server_frame OP_BIN b) (out_pos w1) w1))
        as (w2 & r2 & E2 & _). rewrite E2. cbn [mbind option_bind]. apply live_flush_waits in E2 as [H3 _].
      cbn [inner with_out] in H3. eexists _, _. split; [done|]. cbn [sniffed_inner]. split; [lia|done].
    + eexists _, _. split; [done|]. done.
    + eexists _, _. split; [done|]. cbn [sniffed_inner]. split; [lia|]. intros _. by apply H2.
Qed.

Lemma live_poll_flush (me : Sniffed Live) :
  exists me' r, sniffed_poll_flush me = Some (me', r) /\ (r = Pending -> write_waits me' < write_waits me).
Proof.
  unfold write_waits. destruct me as [s|w]; cbn [sniffed_poll_flush].
  - by eexists _, _.
  - unfold ws_poll_flush. destruct (flush_out_total w) as (w1 & r1 & E1 & _). rewrite E1.
    apply live_flush_waits in E1 as [_ H2]. cbn [mbind option_bind].
    destruct r1 as [[u|e]|]; cbn [mbind option_bind poll_flush Live_PollWrite]; eexists _, _;
      (split; [done|]); [done|done|]. intros _. by apply H2.
Qed.

Lemma live_exactly_polls fuel : forall me n me' res,
  sniffed_fuel me < fuel -> live_exactly fuel me n = (me', res) -> exactly sniffed_poll_read me n me' res.
Proof.
  induction fuel as [|fuel IH]; intros me n me' res Hf E; [lia|].
  destruct n as [|n]; cbn [live_exactly] in E; [simplify_eq; constructor|].
  destruct (live_poll_read me (S n)) as (me1 & r & Er & Hr); [lia|]. rewrite Er in E.
  destruct r as [[[|b bs]|e]|].
  - simplify_eq. eapply exactly_eof; [lia|done].
  - destruct (live_exactly fuel me1 (S n - length (b :: bs))) as [me2 res2] eqn:E2. simplify_eq.
    eapply exactly_more; [lia|exact Er|done|]. apply IH; [|done]. cbn [length] in Hr. lia.
  - simplify_eq. eapply exactly_err; [lia|done].
  - eapply exactly_wait; [lia|exact Er|]. apply IH; [lia|done].
Qed.

Lemma live_readily_polls fuel : forall me n me' res,
  0 < n -> sniffed_fuel me < fuel -> live_readily fuel me n = (me', res) ->
  readily sniffed_poll_read me n me' res.
Proof.
  induction fuel as [|fuel IH]; intros me n me' res Hn Hf E; [lia|]. cbn [live_readily] in E.
  destruct (live_poll_read me n) as (me1 & r & Er & Hr); [lia|]. rewrite Er in E.
  destruct r as [r|]; [simplify_eq; by eapply readily_ready|].
  eapply readily_wait; [exact Er|]. apply IH; [done|lia|done].
Qed.

Lemma live_wholly_polls fuel : forall me b me' res,
  length b + write_waits me < fuel -> live_wholly fuel me b = (me', res) ->
  wholly sniffed_poll_write me b me' res.
Proof.
  induction fuel as [|fuel IH]; intros me b me' res Hf E; [lia|].
  destruct b as [|x b]; cbn [live_wholly] in E; [simplify_eq; constructor|].
  destruct (live_poll_write me (x :: b)) as (me1 & r & Er & Hw & Hp); [done|]. rewrite Er in E.
  destruct r as [[[|k]|e]|].
  - simplify_eq. by eapply wholly_zero.
  - eapply wholly_more; [done|exact Er|lia|]. apply IH; [|done]. rewrite length_drop. cbn [length] in *. lia.
  - simplify_eq. by eapply wholly_err.
  - specialize (Hp eq_refl). eapply wholly_wait; [done|exact Er|]. apply IH; [lia|done].
Qed.

Lemma live_flushed_polls fuel : forall me me' res,
  write_waits me < fuel -> live_flushed fuel me = (me', res) -> flushed sniffed_poll_flush me me' res.
Proof.
  induction fuel as [|fuel IH]; intros me me' res Hf E; [lia|]. cbn [live_flushed] in E.
  destruct (live_poll_flush me) as (me1 & r & Er & Hp). rewrite Er in E.
  destruct r as [r|]; [simplify_eq; by eapply flushed_ready|].
  specialize (Hp eq_refl). eapply flushed_wait; [exact Er|]. apply IH; [lia|done].
Qed.

#[export] Instance Live_SniffedTokio : SniffedTokio Live.
Proof.
  split; cbn [tk_read_exact tk_read_buf tk_write_all tk_flush Live_TokioExt].
  - intros me n me' res. apply live_exactly_polls. lia.
  - intros me n me' res Hn. apply live_readily_polls; lia.
  - intros me b me' res. apply live_wholly_polls. lia.
  - intros me me' res. apply live_flushed_polls. lia.
Qed.
