(* ===== verification/Tls.v ===== *)
(** * Tls: TLS sessions of the synchronous crate

    Models [tls_session], [tls_reader], [tls_writer] and [write_pending] of
    [rust-lib-sync/src/conn.rs].  The state machine of a TLS connection is
    rustls's: it is the class [Connection], with what rustls documents of it
    in [ConnectionLaws].  The reader and the writer thread share it, so a
    session is one state and a schedule of their turns; a turn is a critical
    section with the blocking call before it.  What the two mutexes guarantee
    between the lines of a turn is the subject of [TlsLocks]. *)

From S2P Require Import Prelude Io WsFrame WsStream Upgrade Protocol Broker Conn.
From Stdlib Require Import Strings.Byte.

(** ** rustls *)

(** [read_tls c raw] reads from the slice [raw]; [write_tls c] writes to a
    vector and returns what it put there.  The other fields are ghosts:
    [buffered] is the plaintext [reader] can give, [outq] the ciphertext not
    yet taken by [write_tls]; the loops use their lengths as fuel.
    [produced] and [sealed] are all ciphertext ever made and all plaintext
    ever accepted; [opens c raw] is the plaintext still to come if the peer
    sends [raw] from now on, and [sound c raw] says that [raw] is what an
    honest peer would send; [processed] that no packet waits to be
    processed. *)
Class Connection (C : Type) := {
  read_tls : C -> bytes -> C * io_result nat;
  process_new_packets : C -> C * bool;
  reader_read : C -> nat -> C * io_result bytes;
  writer_write : C -> bytes -> C * io_result nat;
  wants_write : C -> bool;
  write_tls : C -> C * io_result bytes;
  buffered : C -> bytes;
  outq : C -> bytes;
  produced : C -> bytes;
  sealed : C -> bytes;
  opens : C -> bytes -> bytes;
  sound : C -> bytes -> Prop;
  processed : C -> Prop;
}.

(** The two directions of a connection are independent. *)
Record same_in {C} `{!Connection C} (c c' : C) : Prop := {
  in_buffered : buffered c' = buffered c;
  in_opens raw : opens c' raw = opens c raw;
  in_sound raw : sound c raw -> sound c' raw;
  in_processed : processed c -> processed c';
}.

(** [makes c c' ct]: the ciphertext [ct] was queued behind the rest. *)
Record makes {C} `{!Connection C} (c c' : C) (ct : bytes) : Prop := {
  makes_outq : outq c' = outq c ++ ct;
  makes_produced : produced c' = produced c ++ ct;
}.

Class ConnectionLaws (C : Type) `{!Connection C} := {
  (** [read_tls] takes some of the slice; [Ok(0)] means the peer has said
      [close_notify], after which nothing counts; it fails when a buffer is
      full, and not when both are empty. *)
  read_tls_some (c : C) raw c' k : raw <> [] -> read_tls c raw = (c', Ok (S k)) ->
    S k <= length raw /\ buffered c' = buffered c /\
    forall more, opens c (raw ++ more) = opens c' (drop (S k) raw ++ more) /\
      (sound c (raw ++ more) -> sound c' (drop (S k) raw ++ more));
  read_tls_closed (c : C) raw c' : raw <> [] -> read_tls c raw = (c', Ok 0) ->
    buffered c' = buffered c /\
    forall x y, opens c x = opens c' y /\ (sound c x -> sound c' y);
  read_tls_full (c : C) raw c' e : raw <> [] -> read_tls c raw = (c', Err e) ->
    buffered c' = buffered c /\
    forall x, opens c' x = opens c x /\ (sound c x -> sound c' x);
  read_tls_room (c : C) raw : raw <> [] -> processed c -> buffered c = [] ->
    exists c' k, read_tls c raw = (c', Ok k);
  read_tls_out (c : C) raw : makes c (read_tls c raw).1 [] /\ sealed (read_tls c raw).1 = sealed c;
  (** Processing decrypts everything taken in; it may queue control records. *)
  process_ok (c : C) c' : process_new_packets c = (c', true) ->
    processed c' /\ forall x, opens c' x = opens c x /\ (sound c x -> sound c' x);
  process_sound (c : C) x : sound c x -> (process_new_packets c).2 = true;
  process_out (c : C) : exists ct, makes c (process_new_packets c).1 ct /\
    sealed (process_new_packets c).1 = sealed c;
  processed_opens (c : C) : processed c -> opens c [] = buffered c;
  (** [reader] gives what is buffered, or that there is nothing. *)
  reader_read_ok (c : C) n c' bs : 0 < n -> reader_read c n = (c', Ok bs) -> bs <> [] ->
    length bs <= n /\ buffered c = bs ++ buffered c' /\ (processed c -> processed c') /\
    forall x, opens c x = bs ++ opens c' x /\ (sound c x -> sound c' x);
  reader_read_none (c : C) n c' r : 0 < n -> reader_read c n = (c', r) ->
    (forall bs, r = Ok bs -> bs = []) -> buffered c = [] /\ same_in c c';
  reader_read_out (c : C) n : makes c (reader_read c n).1 [] /\
    sealed (reader_read c n).1 = sealed c;
  (** [writer] takes what its buffer has room for, at least a byte when
      nothing is queued. *)
  writer_takes (c : C) p : exists c' n ct, writer_write c p = (c', Ok n) /\
    n <= length p /\ makes c c' ct /\ sealed c' = sealed c ++ take n p /\ same_in c c' /\
    (outq c = [] -> p <> [] -> 0 < n);
  wants_iff (c : C) : wants_write c = true <-> outq c <> [];
  (** [write_tls] into memory does not fail and makes progress. *)
  write_tls_drains (c : C) : outq c <> [] -> exists c' bs, write_tls c = (c', Ok bs) /\
    bs <> [] /\ outq c = bs ++ outq c' /\ produced c' = produced c /\ sealed c' = sealed c /\
    same_in c c';
}.

(** ** Operations under the connection lock *)

Section Critical.
Context {C : Type} `{!Connection C}.

(** The outer [None] is fuel exhaustion, here and below. *)
Fixpoint drain_reader_loop (fuel : nat) (conn : C) (sink : bytes) : option (C * bytes) :=
  match fuel with
  | O => None
  | S fuel =>
    match reader_read conn (16 * 1024) with
    | (conn, Ok []) => Some (conn, sink)
    | (conn, Ok bs) => drain_reader_loop fuel conn (sink ++ bs)
    | (conn, Err _) => Some (conn, sink)
    end
  end.

Definition drain_reader (conn : C) (sink : bytes) : option (C * bytes) :=
  drain_reader_loop (S (length (buffered conn))) conn sink.

(** [while c.wants_write() { c.write_tls(&mut *cipher)?; }] *)
Fixpoint flush_loop (fuel : nat) (c : C) (cipher : bytes) : option (C * bytes * io_result ()) :=
  match fuel with
  | O => None
  | S fuel =>
    if wants_write c then
      match write_tls c with
      | (c, Ok bs) => flush_loop fuel c (cipher ++ bs)
      | (c, Err e) => Some (c, cipher, Err e)
      end
    else Some (c, cipher, Ok tt)
  end.

Definition flush_tls (c : C) (cipher : bytes) : option (C * bytes * io_result ()) :=
  flush_loop (S (length (outq c))) c cipher.

(** [while off < frame.len()]; [frame] is [&frame[off..]]. *)
Fixpoint encrypt_loop (fuel : nat) (c : C) (frame cipher : bytes)
  : option (C * bytes * io_result ()) :=
  match fuel with
  | O => None
  | S fuel =>
    match frame with
    | [] => Some (c, cipher, Ok tt)
    | _ =>
      match writer_write c frame with
      | (c, Err e) => Some (c, cipher, Err e)
      | (c, Ok n) =>
        '(c, cipher, r) ← flush_tls c cipher;
        match r with
        | Err e => Some (c, cipher, Err e)
        | Ok _ => encrypt_loop fuel c (drop n frame) cipher
        end
      end
    end
  end.

(** What [write_pending] does while it holds the connection lock. *)
Definition extract (c : C) (frame : option bytes) : option (C * bytes * io_result ()) :=
  '(c, cipher, r) ←
    match frame with
    | Some frame => encrypt_loop (S (S (length frame))) c frame []
    | None => Some (c, [], Ok tt)
    end;
  match r with
  | Err e => Some (c, cipher, Err e)
  | Ok _ => flush_tls c cipher
  end.

(** The inner loop of [tls_reader] over one chunk of ciphertext, [raw] being
    [&raw[off..n]]; [None] in the result is the fatal [return]. *)
Fixpoint feed_loop (fuel : nat) (c : C) (raw sink : bytes) : option (C * option bytes) :=
  match fuel with
  | O => None
  | S fuel =>
    let '(c, r) := read_tls c raw in
    let '(raw, fed_all) :=
      match r with
      | Ok O => (raw, true)
      | Ok k => (drop k raw, bool_decide (length raw <= k))
      | Err _ => (raw, false)
      end in
    match process_new_packets c with
    | (c, false) => Some (c, None)
    | (c, true) =>
      '(c, sink) ← drain_reader c sink;
      if fed_all : bool then Some (c, Some sink) else feed_loop fuel c raw sink
    end
  end.

Definition feed (c : C) (raw : bytes) : option (C * option bytes) :=
  feed_loop (S (length raw)) c raw [].
End Critical.

(** ** The two threads *)

(** Where the reader is: before [drain_plaintext]; between the connection
    lock and the next [forward_frames], with [needs_flush]; before a read;
    out of its loop. *)
Inductive phase :=
| PDrain
| PFlush (needs_flush : bool)
| PRead
| PDone.

Record Tls (C R W : Type) := mkTls {
  conn : C;
  read_sock : R;
  write_sock : W;
  decoder : FrameDecoder;
  cmd_tx : CmdTx;
  reading : phase;
  writer_rx : Mailbox;
  writing : bool;
}.
Arguments mkTls {C R W} _ _ _ _ _ _ _ _.
Arguments conn {C R W} _.
Arguments read_sock {C R W} _.
Arguments write_sock {C R W} _.
Arguments decoder {C R W} _.
Arguments cmd_tx {C R W} _.
Arguments reading {C R W} _.
Arguments writer_rx {C R W} _.
Arguments writing {C R W} _.

Inductive thread := Reader | Writer.

Section Session.
Context {C R W : Type} `{!Connection C, !Read R, !Write W}.
Implicit Type s : Tls C R W.

Definition with_conn (c : C) s := mkTls c (read_sock s) (write_sock s) (decoder s) (cmd_tx s)
  (reading s) (writer_rx s) (writing s).
Definition with_read_sock (r : R) s := mkTls (conn s) r (write_sock s) (decoder s) (cmd_tx s)
  (reading s) (writer_rx s) (writing s).
Definition with_write_sock (w : W) s := mkTls (conn s) (read_sock s) w (decoder s) (cmd_tx s)
  (reading s) (writer_rx s) (writing s).
Definition with_decoder d s := mkTls (conn s) (read_sock s) (write_sock s) d (cmd_tx s)
  (reading s) (writer_rx s) (writing s).
Definition with_cmd_tx tx s := mkTls (conn s) (read_sock s) (write_sock s) (decoder s) tx
  (reading s) (writer_rx s) (writing s).
Definition with_reading p s := mkTls (conn s) (read_sock s) (write_sock s) (decoder s) (cmd_tx s)
  p (writer_rx s) (writing s).
Definition with_writer rx b s := mkTls (conn s) (read_sock s) (write_sock s) (decoder s) (cmd_tx s)
  (reading s) rx b.

Definition write_pending (c : C) (w : W) (frame : option bytes)
  : option (C * W * io_result ()) :=
  '(c, cipher, r) ← extract c frame;
  match r with
  | Err e => Some (c, w, Err e)
  | Ok _ =>
    if decide (cipher = []) then Some (c, w, Ok tt)
    else '(w, r) ← write_all w cipher; Some (c, w, r)
  end.

(** [forward_frames] on the session's decoder; the reader stops unless the
    broker lives. *)
Definition hand_over (peer : Identity) s (next : phase) : option (Tls C R W) :=
  '(d, tx, alive) ← forward_frames (decoder s) (cmd_tx s) peer;
  Some (with_reading (if alive : bool then next else PDone) (with_cmd_tx tx (with_decoder d s))).

(** [drain_plaintext] up to the release of the connection lock; its flush is
    the reader's next turn. *)
Definition drain_plaintext s : option (Tls C R W) :=
  '(c, sink) ← drain_reader (conn s) [];
  Some (with_reading (PFlush (wants_write c))
    (with_decoder (FrameDecoder.extend_from (decoder s) sink) (with_conn c s))).

(** The reader, from one release of the connection lock to the next. *)
Definition reader_turn (peer : Identity) s : option (Tls C R W) :=
  match reading s with
  | PDrain =>
    s ← hand_over peer s PDrain;
    match reading s with
    | PDone => Some s
    | _ => drain_plaintext s
    end
  | PFlush needs_flush =>
    s ← (if needs_flush : bool then
          '(c, w, _) ← write_pending (conn s) (write_sock s) None;
          Some (with_write_sock w (with_conn c s))
         else Some s);
    hand_over peer s PRead
  | PRead =>
    match read (read_sock s) (16 * 1024) with
    | (r, Ok []) => Some (with_reading PDone (with_read_sock r s))
    | (r, Err _) => Some (with_reading PDone (with_read_sock r s))
    | (r, Ok raw) =>
      '(c, out) ← feed (conn s) raw;
      let s := with_conn c (with_read_sock r s) in
      match out with
      | None => Some (with_reading PDone s)
      | Some sink =>
        Some (with_reading (PFlush (wants_write c))
          (with_decoder (FrameDecoder.extend_from (decoder s) sink) s))
      end
    end
  | PDone => Some s
  end.

(** [tls_writer], one frame. *)
Definition writer_turn s : option (Tls C R W) :=
  if negb (writing s) then Some s
  else
    match recv (writer_rx s) with
    | (rx, Disconnected) => Some (with_writer rx false s)
    | (rx, m) =>
      let frame := match m with Got frame => frame | _ => heartbeat end in
      '(c, w, r) ← write_pending (conn s) (write_sock s) (Some frame);
      let s := with_conn c (with_write_sock w s) in
      Some (with_writer rx (match r with Ok _ => true | Err _ => false end) s)
    end.

Definition take_turn (peer : Identity) s (t : thread) : option (Tls C R W) :=
  match t with Reader => reader_turn peer s | Writer => writer_turn s end.

Fixpoint turns (peer : Identity) s (ts : list thread) : option (Tls C R W) :=
  match ts with
  | [] => Some s
  | t :: ts => s ← take_turn peer s t; turns peer s ts
  end.
End Session.

(** ** The session *)

(** [rustls::StreamOwned]: a connection and its socket as one stream, and
    what it is made of, the socket as its read and its write half. *)
Class StreamOwned (T C R W : Type) := {
  parts : T -> C * R * W;
}.

(** All it still reads comes from its socket. *)
Class StreamOwnedLaws (T C R W : Type) `{!StreamOwned T C R W, !Read T, !Read R} := {
  parts_fuel (t : T) c r w : parts t = (c, r, w) -> read_fuel r <= read_fuel t;
}.

Section TlsSession.
Context {T C R W : Type} `{!Connection C, !Read R, !Write W, !Read T, !Write T,
  !StreamOwned T C R W}.
Context (clock_sniff clock clock_ws clock_up clock_hello : nat -> Z).

(** What is left of a session: its stream, before the threads are started,
    or the state they share. *)
Inductive outcome :=
| Left (stream : T)
| Ran (s : Tls C R W).

(** From the HELLO on.  [clones] is whether both [try_clone] succeed. *)
Definition tls_exchange (stream : T) (decoder : FrameDecoder) (tx : CmdTx)
    (my_identity : Identity) (clones : bool) (writer accept : Sender) (answer : option bool)
    (mailbox : Mailbox) (ts : list thread) : option (outcome * CmdTx) :=
  '(stream, r) ← write_frame stream (hello my_identity);
  match r with
  | Err _ => Some (Left stream, tx)
  | Ok _ =>
    '(stream, decoder, peer) ← read_hello clock stream decoder;
    match peer with
    | None => Some (Left stream, tx)
    | Some peer =>
      if negb clones then Some (Left stream, tx)
      else
        match register tx peer writer accept answer with
        | (tx, false) => Some (Left stream, tx)
        | (tx, true) =>
          let '(c, r, w) := parts stream in
          s ← turns peer (mkTls c r w decoder tx PDrain mailbox true) ts;
          Some (Ran s,
            match reading s with
            | PDone => (cmd_send (cmd_tx s) (ConnectionDown peer)).1
            | _ => cmd_tx s
            end)
        end
    end
  end.

Definition tls_session (stream : T) (tx : CmdTx) (my_identity : Identity) (sniff clones : bool)
    (writer accept : Sender) (answer : option bool) (mailbox : Mailbox) (ts : list thread)
  : option (outcome * CmdTx) :=
  if negb sniff then
    tls_exchange stream FrameDecoder.new tx my_identity clones writer accept answer mailbox ts
  else
    let deadline := (clock_sniff 0%nat + HEARTBEAT_TIMEOUT)%Z in
    '(stream, b) ← read_one_byte (fun i => clock_sniff (S i)) stream deadline;
    match b with
    | None => Some (Left stream, tx)
    | Some b =>
      if decide (b = "G"%byte) then
        let deadline := (clock_up 0%nat + HEARTBEAT_TIMEOUT)%Z in
        '(stream, tx) ← ws_session clock_ws (fun i => clock_up (S i)) clock_hello stream
          (Some "G"%byte) tx my_identity deadline writer accept answer mailbox;
        Some (Left stream, tx)
      else if decide (b = x00) then
        tls_exchange stream (FrameDecoder.extend_from FrameDecoder.new [x00]) tx my_identity
          clones writer accept answer mailbox ts
      else Some (Left stream, tx)
    end.
End TlsSession.
Arguments outcome : clear implicits.

(** ** Lemmas on the critical sections *)

Section CriticalLemmas.
Context {C : Type} `{!Connection C, !ConnectionLaws C}.
Implicit Type c : C.

Lemma same_in_refl c : same_in c c.
Proof. by split. Qed.

Lemma same_in_trans c1 c2 c3 : same_in c1 c2 -> same_in c2 c3 -> same_in c1 c3.
Proof.
  intros [A1 A2 A3 A4] [B1 B2 B3 B4]. split.
  - by rewrite B1.
  - intros raw. by rewrite B2.
  - auto.
  - auto.
Qed.

Lemma makes_refl c : makes c c [].
Proof. by split; rewrite app_nil_r. Qed.

Lemma makes_trans c1 c2 c3 a b : makes c1 c2 a -> makes c2 c3 b -> makes c1 c3 (a ++ b).
Proof. intros [A1 A2] [B1 B2]. by split; rewrite ?B1, ?B2, ?A1, ?A2, app_assoc. Qed.

(** Nothing waits to be decrypted or read. *)
Definition settled c : Prop := processed c /\ buffered c = [].

Lemma settled_opens c : settled c -> opens c [] = [].
Proof. intros [Hp Hb]. by rewrite processed_opens. Qed.

(** What taking in ciphertext may do to the outbound side. *)
Definition replies c c' : Prop := exists ct, makes c c' ct /\ sealed c' = sealed c.

Lemma replies_trans c1 c2 c3 : replies c1 c2 -> replies c2 c3 -> replies c1 c3.
Proof.
  intros (a & Ha & Ea) (b & Hb & Eb). exists (a ++ b).
  split; [by eapply makes_trans|by rewrite Eb].
Qed.

Lemma reader_read_replies c n : replies c (reader_read c n).1.
Proof. destruct (reader_read_out c n) as [H1 H2]. by exists []. Qed.

Lemma read_tls_replies c raw : replies c (read_tls c raw).1.
Proof. destruct (read_tls_out c raw) as [H1 H2]. by exists []. Qed.

(** [drains c c' l]: the plaintext [l] was read off, and all of it. *)
Record drains c c' (l : bytes) : Prop := {
  dr_empty : buffered c' = [];
  dr_processed : processed c -> processed c';
  dr_opens x : opens c x = l ++ opens c' x;
  dr_sound x : sound c x -> sound c' x;
  dr_replies : replies c c';
}.

Lemma drain_reader_loop_spec fuel c sink :
  length (buffered c) < fuel ->
  exists c', drain_reader_loop fuel c sink = Some (c', sink ++ buffered c) /\
    drains c c' (buffered c).
Proof.
  revert c sink. induction fuel as [|fuel IH]; intros c sink Hf; [lia|].
  cbn [drain_reader_loop]. pose proof (reader_read_replies c (16 * 1024)) as Hre.
  destruct (reader_read c (16 * 1024)) as [c1 r] eqn:E. cbn [fst] in Hre.
  assert (Hnone : (forall bs, r = Ok bs -> bs = []) ->
    exists c', Some (c1, sink) = Some (c', sink ++ buffered c) /\ drains c c' (buffered c)).
  { intros Hr. apply reader_read_none in E as [Hb [H1 H2 H3 H4]]; [|lia|done].
    exists c1. rewrite Hb, app_nil_r. split; [done|]. split; [by rewrite H1|done|intros x; by rewrite H2|done|done]. }
  destruct r as [[|b bs]|e]; [apply Hnone; by intros ? [= <-]| |by apply Hnone].
  apply reader_read_ok in E as (Hn & Hb & Hp & Ho); [|lia|done].
  destruct (IH c1 (sink ++ b :: bs)) as (c' & -> & [D1 D2 D3 D4 D5]).
  { rewrite Hb, length_app in Hf. simpl in Hf. lia. }
  exists c'. rewrite Hb, app_assoc. split; [done|]. split; [done|auto| |intros x Hx|].
  - intros x. destruct (Ho x) as [-> _]. by rewrite D3, <- app_assoc.
  - apply D4, Ho, Hx.
  - by eapply replies_trans.
Qed.

Lemma drain_reader_spec c sink :
  exists c', drain_reader c sink = Some (c', sink ++ buffered c) /\ drains c c' (buffered c).
Proof. apply drain_reader_loop_spec. lia. Qed.

(** One round of [feed_loop] leaves nothing to decrypt or read. *)
Lemma process_drain_spec c sink :
  (process_new_packets c).2 = true ->
  exists c' l, drain_reader (process_new_packets c).1 sink = Some (c', sink ++ l) /\ settled c' /\
    replies c c' /\
    forall x, opens c x = l ++ opens c' x /\ (sound c x -> sound c' x).
Proof.
  intros Hok. destruct (process_out c) as (ct & Hm & Hse).
  destruct (process_new_packets c) as [c1 ok] eqn:E. cbn [fst snd] in *. subst ok.
  apply process_ok in E as [Hp Ho].
  destruct (drain_reader_spec c1 sink) as (c' & -> & [D1 D2 D3 D4 D5]).
  exists c', (buffered c1). split_and!; [done|by split; [apply D2|]| |].
  - eapply replies_trans; [by exists ct|done].
  - intros x. destruct (Ho x) as [<- H]. split; [apply D3|auto].
Qed.

(** Feeding a chunk to the end returns, whatever the peer sent; and from an
    honest peer it yields exactly the plaintext of the chunk. *)
Lemma feed_loop_spec fuel c raw sink :
  raw <> [] -> (settled c /\ length raw <= fuel) \/ S (length raw) <= fuel ->
  exists c' out, feed_loop fuel c raw sink = Some (c', out) /\ replies c c' /\
    forall more, sound c (raw ++ more) -> exists l, out = Some (sink ++ l) /\
      opens c (raw ++ more) = l ++ opens c' more /\ sound c' more /\ settled c'.
Proof.
  revert c raw sink. induction fuel as [|fuel IH]; intros c raw sink Hne Hf.
  { destruct raw; [done|]. simpl in Hf. lia. }
  cbn [feed_loop]. pose proof (read_tls_replies c raw) as Hre.
  destruct (read_tls c raw) as [c1 r] eqn:Er. cbn [fst] in Hre.
  assert (Hround : forall raw1 (fed : bool),
    (forall more, opens c (raw ++ more) = opens c1 (raw1 ++ more) /\
      (sound c (raw ++ more) -> sound c1 (raw1 ++ more))) ->
    (fed = true -> raw1 = []) -> (fed = false -> raw1 <> [] /\ length raw1 <= fuel) ->
    exists c' out,
      match process_new_packets c1 with
      | (c, false) => Some (c, None)
      | (c, true) =>
        '(c, sink) ← drain_reader c sink;
        if fed : bool then Some (c, Some sink) else feed_loop fuel c raw1 sink
      end = Some (c', out) /\ replies c c' /\
      forall more, sound c (raw ++ more) -> exists l, out = Some (sink ++ l) /\
        opens c (raw ++ more) = l ++ opens c' more /\ sound c' more /\ settled c').
  { intros raw1 fed Hr Hfed Hnot. destruct (process_out c1) as (ct & Hm & Hse).
    pose proof (process_drain_spec c1 sink) as Hpd. pose proof (process_sound c1) as Hps.
    destruct (process_new_packets c1) as [c2 []] eqn:Ep; cbn [fst snd] in *.
    2: { exists c2, None. split; [done|]. split; [eapply replies_trans; [done|by exists ct]|].
         intros more Hs. destruct (Hr more) as [_ H]. by specialize (Hps _ (H Hs)). }
    destruct (Hpd eq_refl) as (c3 & l & -> & Hset & Hre3 & Ho). cbn [mbind option_bind].
    assert (Hre' : replies c c3) by by eapply replies_trans.
    destruct fed.
    - rewrite (Hfed eq_refl) in Hr. exists c3, (Some (sink ++ l)). split_and!; [done|done|].
      intros more Hs. exists l. destruct (Hr more) as [-> Hs']. destruct (Ho more) as [Ho1 Ho2].
      split_and!; [done|done| |done]. by apply Ho2, Hs'.
    - destruct (Hnot eq_refl) as [Hne1 Hlen]. destruct (IH c3 raw1 (sink ++ l) Hne1) as
        (c' & out & -> & Hre4 & H); [by left|].
      exists c', out. split_and!; [done|by eapply replies_trans|]. intros more Hs.
      destruct (Hr more) as [-> Hs']. destruct (Ho (raw1 ++ more)) as [-> Ho2].
      destruct (H more) as (l' & -> & -> & Hs3 & Hset'); [by apply Ho2, Hs'|].
      exists (l ++ l'). by rewrite <- !app_assoc. }
  destruct r as [[|k]|e].
  - apply read_tls_closed in Er as [_ Ho]; [|done].
    destruct (Hround [] true) as (c' & out & E & H); [|done|done|by exists c', out].
    intros more. destruct (Ho (raw ++ more) more) as [-> H]. auto.
  - apply read_tls_some in Er as (Hk & _ & Ho); [|done].
    destruct (decide (length raw <= S k)) as [Hle|Hgt].
    + rewrite bool_decide_true by done. apply (Hround (drop (S k) raw) true); [exact Ho| |done].
      intros _. by apply drop_ge.
    + rewrite bool_decide_false by done. apply (Hround (drop (S k) raw) false); [exact Ho|done|]. intros _.
      split; [|rewrite length_drop; lia]. intros Hd. apply (f_equal length) in Hd.
      rewrite length_drop in Hd. simpl in Hd. lia.
  - destruct Hf as [[Hset Hf]|Hf].
    { destruct Hset as [Hp Hb]. destruct (read_tls_room c raw Hne Hp Hb) as (? & ? & ?).
      congruence. }
    apply read_tls_full in Er as [_ Ho]; [|done]. apply (Hround raw false); [|done|].
    + intros more. destruct (Ho (raw ++ more)) as [<- H]. auto.
    + intros _. split; [done|lia].
Qed.

Lemma feed_spec c raw :
  raw <> [] -> exists c' out, feed c raw = Some (c', out) /\ replies c c' /\
    forall more, sound c (raw ++ more) -> exists sink, out = Some sink /\
      opens c (raw ++ more) = sink ++ opens c' more /\ sound c' more /\ settled c'.
Proof. intros H. apply (feed_loop_spec _ c raw []); [done|]. right. lia. Qed.

Lemma flush_loop_spec fuel c cipher :
  length (outq c) < fuel ->
  exists c', flush_loop fuel c cipher = Some (c', cipher ++ outq c, Ok tt) /\
    outq c' = [] /\ produced c' = produced c /\ sealed c' = sealed c /\ same_in c c'.
Proof.
  revert c cipher. induction fuel as [|fuel IH]; intros c cipher Hf; [lia|]. cbn [flush_loop].
  destruct (wants_write c) eqn:Ew.
  - apply wants_iff in Ew. destruct (write_tls_drains c Ew) as (c1 & bs & -> & Hbs & Ho & H1 & H2 & H3).
    destruct (IH c1 (cipher ++ bs)) as (c' & -> & H4 & H5 & H6 & H7).
    { rewrite Ho, length_app in Hf. destruct bs; [done|]. simpl in Hf. lia. }
    exists c'. rewrite Ho, app_assoc, H5, H6. split_and!; try done. by eapply same_in_trans.
  - assert (outq c = []) as Ho.
    { destruct (decide (outq c = [])) as [|Hn]; [done|]. apply wants_iff in Hn. congruence. }
    exists c. rewrite Ho, app_nil_r. split_and!; try done.
Qed.

Lemma flush_tls_spec c cipher :
  exists c', flush_tls c cipher = Some (c', cipher ++ outq c, Ok tt) /\
    outq c' = [] /\ produced c' = produced c /\ sealed c' = sealed c /\ same_in c c'.
Proof. apply flush_loop_spec. lia. Qed.

Lemma encrypt_loop_spec fuel c frame cipher :
  (outq c = [] /\ length frame < fuel) \/ S (length frame) < fuel ->
  exists c' ct out, encrypt_loop fuel c frame cipher = Some (c', cipher ++ out, Ok tt) /\
    out ++ outq c' = outq c ++ ct /\ produced c' = produced c ++ ct /\
    sealed c' = sealed c ++ frame /\ same_in c c'.
Proof.
  revert c frame cipher. induction fuel as [|fuel IH]; intros c frame cipher Hf; [lia|].
  cbn [encrypt_loop]. destruct frame as [|b frame].
  { exists c, [], []. rewrite !app_nil_r. split_and!; try done; apply same_in_refl. }
  destruct (writer_takes c (b :: frame)) as (c1 & n & ct1 & -> & Hn & [M1 M2] & Hs1 & Hi1 & Hpos).
  destruct (flush_tls_spec c1 cipher) as (c2 & -> & F1 & F2 & F3 & F4). cbn [mbind option_bind].
  destruct (IH c2 (drop n (b :: frame)) (cipher ++ outq c1)) as (c' & ct & out & -> & I1 & I2 & I3 & I4).
  { left. split; [done|]. rewrite length_drop.
    destruct Hf as [[Ho Hf]|Hf]; [|lia]. specialize (Hpos Ho ltac:(done)). lia. }
  exists c', (ct1 ++ ct), (outq c1 ++ out). rewrite <- app_assoc. split_and!; [done|..].
  - rewrite F1, app_nil_l in I1. by rewrite <- app_assoc, I1, M1, <- app_assoc.
  - by rewrite I2, F2, M2, <- app_assoc.
  - by rewrite I3, F3, Hs1, <- app_assoc, take_drop.
  - eapply same_in_trans; [|done]. by eapply same_in_trans.
Qed.

(** The critical section of [write_pending] takes everything that is queued
    and, behind it, the whole frame, whatever its length. *)
Lemma extract_spec c frame :
  exists c' ct, extract c frame = Some (c', outq c ++ ct, Ok tt) /\ outq c' = [] /\
    produced c' = produced c ++ ct /\ sealed c' = sealed c ++ default [] frame /\ same_in c c'.
Proof.
  unfold extract. destruct frame as [frame|].
  - destruct (encrypt_loop_spec (S (S (length frame))) c frame []) as
      (c1 & ct & out & -> & H1 & H2 & H3 & H4); [lia|]. cbn [mbind option_bind].
    destruct (flush_tls_spec c1 ([] ++ out)) as (c' & -> & F1 & F2 & F3 & F4).
    exists c', ct. rewrite app_nil_l, H1. split_and!; try done.
    + by rewrite F2, H2.
    + by rewrite F3, H3.
    + by eapply same_in_trans.
  - cbn [mbind option_bind]. destruct (flush_tls_spec c []) as (c' & -> & F1 & F2 & F3 & F4).
    exists c', []. rewrite !app_nil_r. by split_and!.
Qed.
End CriticalLemmas.
