(* ===== verification/TlsProps.v ===== *)
(** * TlsProps: what a TLS session guarantees

    Theorems about [Tls]: under every schedule of the two threads a session
    delivers exactly the peer's messages, whatever an attacker feeds it the
    session ends and its conversation with the broker is well-bracketed, and
    [write_pending] sends a frame of any length whole.  They are proved for
    every connection that keeps the laws of [Tls]; [Null] is one. *)

From S2P Require Import Prelude Io WsFrame WsStream Upgrade Protocol Broker Conn ConnProps Tls.
From Stdlib Require Import Strings.Byte.

(** ** [write_pending] *)

Section WritePending.
Context {C W : Type} `{!Connection C, !ConnectionLaws C, !Write W, !WriteLaws W}.

Lemma write_pending_returns (c : C) (w : W) frame :
  exists c' w' r, write_pending c w frame = Some (c', w', r) /\ same_in c c' /\ outq c' = [] /\
    sealed c' = sealed c ++ default [] frame.
Proof.
  unfold write_pending. destruct (extract_spec c frame) as (c' & ct & -> & Ho & _ & Hs & Hi).
  cbn [mbind option_bind]. destruct (decide _); [by eexists _, _, _|].
  destruct (write_all_total w (outq c ++ ct)) as [[w' r] ->]. by exists c', w', r.
Qed.
End WritePending.

(** ** Turns return *)

Definition weight (p : phase) : nat :=
  match p with PDrain => 2 | PFlush _ => 1 | _ => 0 end.

(** The reader's turns of a schedule. *)
Fixpoint reads (ts : list thread) : nat :=
  match ts with
  | [] => 0
  | Reader :: ts => S (reads ts)
  | Writer :: ts => reads ts
  end.

Section Turns.
Context {C R W : Type} `{!Connection C, !ConnectionLaws C, !Read R, !ReadLaws R, !Write W,
  !WriteLaws W}.
Implicit Type s : Tls C R W.

(** Reader turns a session can still take. *)
Definition remaining s : nat := 2 * read_fuel (read_sock s) + weight (reading s).

Definition finished s : Prop := reading s = PDone.

#[export] Instance finished_dec s : Decision (finished s).
Proof. unfold finished. destruct (reading s); [right|right|right|left]; done. Defined.

Lemma hand_over_returns peer s next :
  exists s' bodies, hand_over peer s next = Some s' /\
    cmd_tx s' = (forward_all (cmd_tx s) peer bodies).1 /\
    reading s' = (if (forward_all (cmd_tx s) peer bodies).2 then next else PDone) /\
    read_sock s' = read_sock s /\ conn s' = conn s.
Proof.
  unfold hand_over. destruct (forward_frames_any (decoder s) (cmd_tx s) peer) as (bodies & d & ->).
  cbn [mbind option_bind]. by eexists _, bodies.
Qed.

(** A turn of the reader returns, passes on messages of the peer only, and
    brings the session closer to its end. *)
Lemma reader_turn_returns peer s :
  exists s', reader_turn peer s = Some s' /\ forwards (cmd_tx s) (cmd_tx s') peer /\
    (~ finished s -> finished s' \/ remaining s' < remaining s) /\ (finished s -> s' = s).
Proof.
  assert (Hrefl : forall tx, forwards tx tx peer).
  { intros tx. exists [], true. split; [done|apply sends_refl]. }
  unfold reader_turn, drain_plaintext, finished, remaining. destruct (reading s) as [|nf| |] eqn:Hp.
  - destruct (hand_over_returns peer s PDrain) as (s1 & b & -> & Ht & Hr & Hs & Hc).
    cbn [mbind option_bind]. pose proof (forward_all_forwards (cmd_tx s) peer b) as Hf.
    rewrite <- Ht in Hf. rewrite Hr.
    destruct (forward_all (cmd_tx s) peer b).2.
    + destruct (drain_reader_spec (conn s1) []) as (c & -> & _). cbn [mbind option_bind].
      eexists. split; [done|]. split; [exact Hf|]. split; [|done]. intros _. right.
      cbn [read_sock reading with_reading with_decoder with_conn weight]. rewrite Hs. lia.
    + exists s1. split; [done|]. split; [exact Hf|]. split; [by left|done].
  - assert (exists s1, (if nf then '(c, w, _) ← write_pending (conn s) (write_sock s) None;
        Some (with_write_sock w (with_conn c s)) else Some s) = Some s1 /\
      cmd_tx s1 = cmd_tx s /\ read_sock s1 = read_sock s) as (s1 & -> & Ht1 & Hr1).
    { destruct nf; [|by exists s].
      destruct (write_pending_returns (conn s) (write_sock s) None) as (c & w & r & -> & _).
      by eexists. }
    cbn [mbind option_bind].
    destruct (hand_over_returns peer s1 PRead) as (s2 & b & -> & Ht & Hr & Hs & Hc).
    pose proof (forward_all_forwards (cmd_tx s1) peer b) as Hf. rewrite <- Ht, Ht1 in Hf.
    exists s2. split; [done|]. split; [exact Hf|]. split; [|done]. intros _. rewrite Hr, Hs, Hr1.
    destruct (forward_all (cmd_tx s1) peer b).2; [right; cbn; lia|by left].
  - destruct (read (read_sock s) (16 * 1024)) as [r [[|x raw]|e]] eqn:Er;
      [by eexists; split_and!; [done|apply Hrefl|by left|done]| |
       by eexists; split_and!; [done|apply Hrefl|by left|done]].
    apply read_spends in Er. cbn [length] in Er.
    destruct (feed_spec (conn s) (x :: raw)) as (c & out & -> & _); [done|].
    cbn [mbind option_bind]. destruct out as [sink|];
      eexists; (split; [done|]); (split; [apply Hrefl|]); (split; [|done]); intros _.
    + right. cbn [read_sock reading with_reading with_decoder with_conn with_read_sock weight]. lia.
    + by left.
  - exists s. split; [done|]. split; [apply Hrefl|]. done.
Qed.

(** A turn of the writer leaves the reader's side alone. *)
Lemma writer_turn_returns s :
  exists s', writer_turn s = Some s' /\ same_in (conn s) (conn s') /\
    read_sock s' = read_sock s /\ decoder s' = decoder s /\ cmd_tx s' = cmd_tx s /\
    reading s' = reading s.
Proof.
  unfold writer_turn. destruct (writing s); cbn [negb]; [|by exists s; split_and!; try apply same_in_refl].
  destruct (recv (writer_rx s)) as [rx [f| |]] eqn:Er.
  3: by eexists; split_and!; [done|apply same_in_refl|..].
  all: match goal with |- context [write_pending _ _ (Some ?f)] =>
         destruct (write_pending_returns (conn s) (write_sock s) (Some f)) as (c & w & r & -> & Hi & _)
       end; cbn [mbind option_bind]; eexists; by split_and!.
Qed.

Lemma turns_return peer ts s :
  exists s', turns peer s ts = Some s' /\ forwards (cmd_tx s) (cmd_tx s') peer /\
    (remaining s < reads ts -> finished s') /\ (finished s -> finished s').
Proof.
  revert s. induction ts as [|[|] ts IH]; intros s; cbn [turns take_turn].
  - exists s. split_and!; [done| |cbn [reads]; lia|done]. exists [], true. split; [done|apply sends_refl].
  - destruct (reader_turn_returns peer s) as (s1 & -> & Hf & Hdec & Hfin). cbn [mbind option_bind].
    destruct (IH s1) as (s' & -> & Hf' & Hd' & Hfin').
    exists s'. split_and!; [done|by eapply forwards_trans| |].
    + cbn [reads]. intros Hlt.
      destruct (decide (finished s)) as [Hs|Hs]; [apply Hfin'; by rewrite (Hfin Hs)|].
      destruct (Hdec Hs) as [H|H]; [auto|]. apply Hd'. lia.
    + intros H. apply Hfin'. by rewrite (Hfin H).
  - destruct (writer_turn_returns s) as (s1 & -> & _ & Hr & _ & Ht & Hp). cbn [mbind option_bind].
    destruct (IH s1) as (s' & -> & Hf' & Hd' & Hfin'). exists s'.
    rewrite Ht in Hf'. unfold remaining, finished in *. rewrite Hr, Hp in *. by split_and!.
Qed.
End Turns.

(** ** Whatever the peer does *)

Section Bracket.
Context {T C R W : Type} `{!Connection C, !ConnectionLaws C, !Read R, !ReadLaws R, !Write W,
  !WriteLaws W, !Read T, !ReadLaws T, !Write T, !WriteLaws T, !DuplexLaws T, !StreamOwned T C R W,
  !StreamOwnedLaws T C R W}.

Lemma read_one_returns clock fuel (r : T) deadline k :
  read_fuel r < fuel ->
  exists r' b, read_one_loop clock fuel r deadline k = Some (r', b) /\ read_fuel r' <= read_fuel r.
Proof.
  revert r k. induction fuel as [|fuel IH]; intros r k Hf; [lia|]. cbn [read_one_loop].
  destruct (read r 1) as [r1 [bs|e]] eqn:E.
  { apply read_spends in E. eexists _, _. split; [done|lia]. }
  apply read_fails in E. destruct (transient e); [|eexists _, _; split; [done|lia]].
  destruct (decide _); [eexists _, _; split; [done|lia]|].
  destruct (IH r1 (S k)) as (r' & b & H & Hle); [lia|]. exists r', b. split; [done|lia].
Qed.

(** What a session must be granted to end by itself: a broker that lives, and
    turns for the reader (or, for a WebSocket, polls) until the peer is done. *)
Definition granted (t : T) (tx : CmdTx) (mailbox : Mailbox) (ts : list thread) : Prop :=
  gone_after tx = None /\ 2 * read_fuel t + 2 < reads ts /\
  2 * (1 + read_fuel t) + 1 < idle mailbox.

Lemma tls_exchange_log clock (t : T) d tx me clones writer accept answer mailbox ts :
  exists o tx', tls_exchange (C := C) (R := R) (W := W) clock t d tx me clones writer accept answer mailbox ts
      = Some (o, tx') /\
    exists cs, queued tx' = queued tx ++ cs /\
      session_log writer accept answer (granted t tx mailbox ts) cs.
Proof.
  assert (Hnone : forall t', exists (o : outcome T C R W) tx', Some (Left t', tx) = Some (o, tx') /\
    exists cs, queued tx' = queued tx ++ cs /\
      session_log writer accept answer (granted t tx mailbox ts) cs).
  { intros t'. exists (Left t'), tx. split; [done|]. exists [].
    split; [by rewrite app_nil_r|constructor]. }
  unfold tls_exchange.
  destruct (write_frame_returns t (hello me)) as (t1 & r1 & E1). rewrite E1.
  apply write_all_reads in E1. cbn [mbind option_bind]. destruct r1 as [[]|e]; [|apply Hnone].
  edestruct (read_hello_returns clock (S (read_fuel t1)) t1 d) as (t2 & d2 & p & E & Hle); [lia|].
  unfold read_hello. rewrite E. cbn [mbind option_bind]. destruct p as [peer|]; [|apply Hnone].
  destruct clones; cbn [negb]; [|apply Hnone].
  destruct (register tx peer writer accept answer) as [tx1 []] eqn:Ereg.
  - destruct (parts t2) as [[c r] w] eqn:Ep.
    destruct (turns_return peer ts (mkTls c r w d2 tx1 PDrain mailbox true))
      as (s' & -> & Hf & Hdone & _). cbn [mbind option_bind].
    eexists _, _. split; [done|].
    assert (Hd : granted t tx mailbox ts -> gone_after tx = None /\ bool_decide (finished s') = true).
    { intros (Hg & Hr & _). split; [done|]. apply bool_decide_true. apply Hdone.
      apply parts_fuel in Ep. unfold remaining. cbn [read_sock reading weight]. lia. }
    destruct (session_ends tx tx1 (cmd_tx s') peer writer accept answer
      (bool_decide (finished s')) (granted t tx mailbox ts) Ereg Hf Hd) as (cs & Hq & Hlog).
    exists cs. split; [|done]. rewrite <- Hq. f_equal.
    destruct (decide (finished s')) as [Hf'|Hn].
    + rewrite bool_decide_true by done. by rewrite Hf'.
    + rewrite bool_decide_false by done. unfold finished in Hn. by destruct (reading s').
  - apply (register_rejected _ _ _ _ _ _ (granted t tx mailbox ts)) in Ereg as (cs & Hq & Hlog).
    eexists _, _. split; [done|]. by exists cs.
Qed.

Lemma tls_session_log clock_sniff clock clock_ws clock_up clock_hello (t : T) tx me sniff
    clones writer accept answer mailbox ts :
  exists o tx', tls_session (C := C) (R := R) (W := W) clock_sniff clock clock_ws clock_up clock_hello t tx me sniff
      clones writer accept answer mailbox ts = Some (o, tx') /\
    exists cs, queued tx' = queued tx ++ cs /\
      session_log writer accept answer (granted t tx mailbox ts) cs.
Proof.
  unfold tls_session. destruct sniff; cbn [negb]; [|apply tls_exchange_log].
  assert (Hnone : forall t', exists (o : outcome T C R W) tx', Some (Left t', tx) = Some (o, tx') /\
    exists cs, queued tx' = queued tx ++ cs /\
      session_log writer accept answer (granted t tx mailbox ts) cs).
  { intros t'. exists (Left t'), tx. split; [done|]. exists [].
    split; [by rewrite app_nil_r|constructor]. }
  edestruct (read_one_returns (fun i => clock_sniff (S i)) (S (read_fuel t)) t) as (t1 & b & E & Hle); [lia|].
  unfold read_one_byte. rewrite E. cbn [mbind option_bind]. destruct b as [b|]; [|apply Hnone].
  destruct (decide (b = "G"%byte)); [|destruct (decide (b = x00)); [|apply Hnone]].
  2: { edestruct (tls_exchange_log clock t1) as (o & tx' & -> & cs & Hq & Hlog).
       eexists _, _. split; [done|]. exists cs. split; [done|].
       eapply session_log_weaken; [|exact Hlog]. unfold granted. intros (? & ? & ?).
       split_and!; [done|lia..]. }
  edestruct ws_session_log as (t2 & tx2 & E2 & cs & Hq & Hlog). rewrite E2. cbn [mbind option_bind].
  eexists _, _. split; [done|]. exists cs. split; [done|].
  eapply session_log_weaken; [|exact Hlog]. intros (? & _ & ?).
  split; [done|]. change (length (option_list (Some _))) with 1. lia.
Qed.

(** Whatever the peer sends over TLS, a session ends and the broker hears
    a well-bracketed conversation.  For every connection that keeps rustls's
    laws, every schedule of the reader and the writer, every clock and every
    answer of the broker, no loop of the session runs for ever, not even the
    one that refeeds ciphertext when rustls's buffers are full; and the
    commands are nothing, a registration that was turned down, or a
    registration, messages of that very peer, and one report of the end. *)
Theorem tls_sessions_bracket clock_sniff clock clock_ws clock_up clock_hello (t : T) tx me sniff
    clones writer accept answer mailbox ts :
  exists o tx', tls_session (C := C) (R := R) (W := W) clock_sniff clock clock_ws clock_up clock_hello t tx me sniff
      clones writer accept answer mailbox ts = Some (o, tx') /\
    exists cs, queued tx' = queued tx ++ cs /\
      session_log writer accept answer (granted t tx mailbox ts) cs.
Proof. apply tls_session_log. Qed.
End Bracket.

(** ** What a session delivers *)

(** The peer's bytes arrive and the connection then closes: [tls_reader]
    gives up on any failing read. *)
Definition steady (e : read_event) : Prop :=
  match e with RChunk bs => bs <> [] | RFail _ => False end.

#[export] Instance steady_dec e : Decision (steady e).
Proof. destruct e; simpl; apply _. Defined.

Lemma script_steady s n s' r :
  0 < n -> Forall steady s -> script_read s n = (s', r) ->
  Forall steady s' /\
  match r with
  | Ok [] => s = []
  | Ok bs => script_bytes s = bs ++ script_bytes s'
  | Err _ => False
  end.
Proof.
  intros Hn Hs E. destruct Hs as [|[bs|e] s He Hs]; cbn in E; simplify_eq; [done| |done].
  case_decide; simplify_eq; rewrite script_bytes_cons.
  - split; [done|]. by destruct bs.
  - split; [constructor; [|done]|].
    + cbn. intros Hd. apply (f_equal length) in Hd. rewrite length_drop in Hd. simpl in Hd. lia.
    + destruct (take n bs) as [|b l] eqn:Et.
      * apply (f_equal length) in Et. rewrite length_take in Et. simpl in Et. lia.
      * by rewrite script_bytes_cons, <- Et, app_assoc, take_drop.
Qed.

(** The stream before it is taken apart, as a byte stream: what is left of
    it is what the connection makes of the socket's bytes. *)
Class TlsStream (T C W : Type) `{!Connection C, !Read T, !Write T, !ByteStream T,
    !StreamOwned T C (list read_event) W} := {
  split_stream (t : T) bs c r w : gives t bs -> parts t = (c, r, w) ->
    Forall steady r /\ sound c (script_bytes r) /\ processed c /\ opens c (script_bytes r) = bs;
  stream_writes (t : T) bs f : gives t bs ->
    exists t', write_frame t f = Some (t', Ok tt) /\ gives t' bs;
}.

Section Delivers.
Context {C W : Type} `{!Connection C, !ConnectionLaws C, !Write W, !WriteLaws W}.
Implicit Type s : Tls C (list read_event) W.

Definition plaintext s : bytes :=
  buf (decoder s) ++ opens (conn s) (script_bytes (read_sock s)).

(** The frames [bodies] are still to be passed on. *)
Record ahead s (bodies : list bytes) (tail : bytes) : Prop := {
  ah_alive : gone_after (cmd_tx s) = None;
  ah_small : Forall small bodies;
  ah_tail : partial tail;
  ah_steady : Forall steady (read_sock s);
  ah_sound : sound (conn s) (script_bytes (read_sock s));
  ah_plain : plaintext s = wire bodies ++ tail;
  ah_phase : match reading s with
             | PDrain => processed (conn s)
             | PFlush _ => settled (conn s)
             | PRead => settled (conn s) /\ partial (buf (decoder s))
             | PDone => False
             end;
}.

Definition passed (tx tx' : CmdTx) (peer : Identity) (bodies : list bytes) : Prop :=
  tx' = mkCmdTx (queued tx ++ (Received peer <$> messages bodies)) None.

Lemma passed_nil tx peer : gone_after tx = None -> passed tx tx peer [].
Proof. intros H. unfold passed. cbn. rewrite app_nil_r. by apply cmd_tx_alive. Qed.

Lemma passed_trans tx1 tx2 tx3 peer b1 b2 :
  passed tx1 tx2 peer b1 -> passed tx2 tx3 peer b2 -> passed tx1 tx3 peer (b1 ++ b2).
Proof.
  unfold passed, messages. intros -> ->. cbn [queued]. by rewrite omap_app, fmap_app, app_assoc.
Qed.

Lemma hand_over_ahead peer s next bodies tail :
  gone_after (cmd_tx s) = None -> Forall small bodies -> partial tail ->
  plaintext s = wire bodies ++ tail ->
  exists s' b1 b2, hand_over peer s next = Some s' /\ bodies = b1 ++ b2 /\
    passed (cmd_tx s) (cmd_tx s') peer b1 /\ reading s' = next /\ conn s' = conn s /\
    read_sock s' = read_sock s /\ partial (buf (decoder s')) /\ plaintext s' = wire b2 ++ tail.
Proof.
  intros Hg Hb Ht E. unfold plaintext in *.
  destruct (wire_split (buf (decoder s))) as (b1 & t1 & Hb1 & Ht1 & Ed).
  rewrite Ed, <- app_assoc in E.
  destruct (wire_app_split b1 t1 (opens (conn s) (script_bytes (read_sock s))) bodies tail)
    as (b2 & -> & E2); [done..|].
  destruct (forward_frames_spec (decoder s) (cmd_tx s) peer b1 t1 Hb1 Ht1 Ed) as (d & Ef & Hd).
  unfold hand_over. rewrite Ef. rewrite forward_all_alive in * by done.
  cbn [mbind option_bind fst snd] in *. rewrite Hd by done. by eexists _, b1, b2.
Qed.

Lemma reader_turn_ahead peer s bodies tail :
  ahead s bodies tail ->
  exists s' b1 b2, reader_turn peer s = Some s' /\ bodies = b1 ++ b2 /\
    passed (cmd_tx s) (cmd_tx s') peer b1 /\ ((finished s' /\ b2 = []) \/ ahead s' b2 tail).
Proof.
  intros [Hg Hb Ht Hst Hso Hpl Hph]. unfold reader_turn, drain_plaintext.
  destruct (reading s) as [|nf| |] eqn:Hp; [..|done].
  - destruct (hand_over_ahead peer s PDrain bodies tail) as
      (s1 & b1 & b2 & -> & -> & Hpa & Hr1 & Hc1 & Hs1 & Hpd & Hpl1); [done..|].
    cbn [mbind option_bind]. rewrite Hr1.
    destruct (drain_reader_spec (conn s1) []) as (c & -> & [D1 D2 D3 D4 D5]). cbn [mbind option_bind].
    eexists _, b1, b2. split_and!; [done|done|exact Hpa|]. right. apply Forall_app in Hb as [_ Hb].
    rewrite Hc1 in *. split; cbn; try done.
    + by rewrite Hpa.
    + by rewrite Hs1.
    + rewrite Hs1. by apply D4.
    + unfold plaintext in *. rewrite <- Hpl1. cbn. by rewrite Hs1, Hc1, D3, <- app_assoc.
    + by split; [apply D2|].
  - assert (exists s1, (if nf then '(c, w, _) ← write_pending (conn s) (write_sock s) None;
        Some (with_write_sock w (with_conn c s)) else Some s) = Some s1 /\
      cmd_tx s1 = cmd_tx s /\ read_sock s1 = read_sock s /\ decoder s1 = decoder s /\
      same_in (conn s) (conn s1)) as (s1 & -> & Ht1 & Hr1 & Hd1 & [I1 I2 I3 I4]).
    { destruct nf; [|by exists s; split_and!; try apply same_in_refl].
      destruct (write_pending_returns (conn s) (write_sock s) None) as (c & w & r & -> & Hi & _).
      by eexists. }
    cbn [mbind option_bind].
    destruct (hand_over_ahead peer s1 PRead bodies tail) as
      (s2 & b1 & b2 & -> & -> & Hpa & Hr2 & Hc2 & Hs2 & Hpd & Hpl2); [by rewrite Ht1|done|done| |].
    { rewrite <- Hpl. unfold plaintext. by rewrite Hd1, Hr1, I2. }
    rewrite Ht1 in Hpa. exists s2, b1, b2. split_and!; [done|done|done|]. right.
    apply Forall_app in Hb as [_ Hb].
    split; rewrite ?Hr2, ?Hs2, ?Hr1, ?Hc2; try done; [by rewrite Hpa|by apply I3|].
    destruct Hph as [P1 P2]. split; [split; [by apply I4|by rewrite I1]|done].
  - destruct Hph as [Hset Hpart]. cbn [read script_Read].
    destruct (script_read (read_sock s) (16 * 1024)) as [r res] eqn:Er.
    apply script_steady in Er as [Hst' Hres]; [|lia|done].
    destruct res as [[|x raw]|e]; [| |done].
    + unfold plaintext in Hpl. rewrite Hres in Hpl. cbn in Hpl. rewrite settled_opens, app_nil_r in Hpl by done.
      rewrite Hpl in Hpart. assert (bodies = []) as -> by by eapply wire_nil.
      eexists _, [], []. split_and!; [done|done|by apply passed_nil|by left].
    + destruct (feed_spec (conn s) (x :: raw)) as (c & out & -> & _ & Hfeed); [done|].
      rewrite Hres in Hso. destruct (Hfeed _ Hso) as (sink & -> & Ho & Hso' & Hset').
      cbn [mbind option_bind]. eexists _, [], bodies. split_and!; [done|done|by apply passed_nil|].
      right. split; cbn; try done. rewrite <- Hpl. unfold plaintext. cbn [decoder conn read_sock with_reading
        with_decoder with_conn with_read_sock buf FrameDecoder.extend_from].
      by rewrite Hres, Ho, <- app_assoc.
Qed.

Lemma turns_ahead peer ts s bodies tail :
  (finished s /\ gone_after (cmd_tx s) = None /\ bodies = []) \/ ahead s bodies tail ->
  exists s' b1 b2, turns peer s ts = Some s' /\ bodies = b1 ++ b2 /\
    passed (cmd_tx s) (cmd_tx s') peer b1 /\ (finished s' -> b2 = []).
Proof.
  revert s bodies. induction ts as [|t ts IH]; intros s bodies H; cbn [turns].
  { assert (Hg : gone_after (cmd_tx s) = None) by (destruct H as [(_ & ? & _)|[]]; done).
    exists s, [], bodies. split_and!; [done|done|by apply passed_nil|]. intros Hf.
    destruct H as [(_ & _ & ->)|[]]; [done|]. unfold finished in Hf. by rewrite Hf in *. }
  enough (exists s1 b1 b2, take_turn peer s t = Some s1 /\ bodies = b1 ++ b2 /\
    passed (cmd_tx s) (cmd_tx s1) peer b1 /\
    ((finished s1 /\ gone_after (cmd_tx s1) = None /\ b2 = []) \/ ahead s1 b2 tail))
    as (s1 & b1 & b2 & -> & -> & Hp1 & H1).
  { cbn [mbind option_bind]. destruct (IH s1 b2 H1) as (s' & b3 & b4 & -> & -> & Hp2 & Hf).
    exists s', (b1 ++ b3), b4. split_and!; [done|by rewrite app_assoc|by eapply passed_trans|done]. }
  destruct t; cbn [take_turn].
  - destruct H as [(Hf & Hg & ->)|H].
    + destruct (reader_turn_returns peer s) as (s1 & -> & _ & _ & Hs). rewrite (Hs Hf).
      exists s, [], []. split_and!; [done|done|by apply passed_nil|by left].
    + destruct (reader_turn_ahead peer s bodies tail H) as (s1 & b1 & b2 & -> & -> & Hp & H1).
      exists s1, b1, b2. split_and!; [done|done|done|]. destruct H1 as [[? ->]|]; [left|by right].
      split_and!; [done| |done]. by rewrite Hp.
  - destruct (writer_turn_returns s) as (s1 & -> & [I1 I2 I3 I4] & Hr & Hd & Ht & Hp).
    exists s1, [], bodies.
    assert (Hg : gone_after (cmd_tx s) = None) by (destruct H as [(_ & ? & _)|[]]; done).
    rewrite Ht. split_and!; [done|done|by apply passed_nil|]. destruct H as [(Hf & _ & ->)|[]].
    + left. split_and!; [|done|done]. unfold finished. by rewrite Hp.
    + right. split; rewrite ?Ht, ?Hr, ?Hp; try done; [by apply I3| |].
      * unfold plaintext in *. by rewrite Hd, Hr, I2.
      * unfold settled in *. rewrite I1, Hd. destruct (reading s); naive_solver.
Qed.
End Delivers.

Lemma read_one_gives {R} `{!Read R, !ReadLaws R, !ByteStream R} clock fuel (r : R) deadline k b bs :
  read_fuel r < fuel -> (forall i, (clock i < deadline)%Z) -> gives r (b :: bs) ->
  exists r', read_one_loop clock fuel r deadline k = Some (r', Some b) /\ gives r' bs /\
    read_fuel r' <= read_fuel r.
Proof.
  intros Hf Hcl. revert r k Hf. induction fuel as [|fuel IH]; intros r k Hf Hg; [lia|].
  cbn [read_one_loop]. destruct (read r 1) as [r1 res] eqn:E.
  pose proof (gives_read r 1 r1 res _ ltac:(lia) Hg E) as H.
  destruct res as [[|x l]|e]; [done| |].
  - destruct H as (bs' & Hb & Hg'). pose proof (read_fits _ _ _ _ E). apply read_spends in E.
    destruct l; [|simpl in *; lia]. simplify_eq/=. exists r1. split_and!; [done|done|lia].
  - destruct H as [-> Hg']. apply read_fails in E. rewrite decide_False by (specialize (Hcl k); lia).
    destruct (IH r1 (S k)) as (r' & H & Hg2 & Hle); [lia|done|]. exists r'. split_and!; [done|done|lia].
Qed.

Section DeliversSession.
Context {T C W : Type} `{!Connection C, !ConnectionLaws C, !Write W, !WriteLaws W,
  !Read T, !ReadLaws T, !Write T, !DuplexLaws T, !ByteStream T,
  !StreamOwned T C (list read_event) W, !StreamOwnedLaws T C (list read_event) W, !TlsStream T C W}.

Lemma tls_exchange_delivers clock (t : T) d tx me peer writer accept mailbox ts bs bodies tail :
  (forall i, (clock i < clock 0%nat + HEARTBEAT_TIMEOUT)%Z) -> gone_after tx = None ->
  length peer = IDENTITY_SIZE -> Forall small bodies -> partial tail -> 0 < Protocol.chunk_len d ->
  gives t bs -> buf d ++ bs = hello peer ++ wire bodies ++ tail -> 2 * read_fuel t + 2 < reads ts ->
  exists s, tls_exchange (C := C) (R := list read_event) (W := W) clock t d tx me true writer accept
      (Some true) mailbox ts =
    Some (Ran s, mkCmdTx (queued tx ++ ConnectionUp peer writer accept ::
      (Received peer <$> messages bodies) ++ [ConnectionDown peer]) None).
Proof.
  intros Hcl Hg Hpeer Hb Ht Hd Hgv E Hts. unfold tls_exchange.
  destruct (stream_writes t bs (hello me) Hgv) as (t1 & E1 & Hg1). rewrite E1.
  apply write_all_reads in E1. cbn [mbind option_bind].
  rewrite hello_framed in E by done.
  edestruct (read_hello_returns clock (S (read_fuel t1)) t1 d) as (t2 & d2 & p & E2 & Hle); [lia|].
  edestruct (read_hello_gives clock (S (read_fuel t1)) t1 d (clock 0%nat + HEARTBEAT_TIMEOUT)%Z 1 bs
    ((T_HELLO :: PROTOCOL_VERSION :: peer) :: bodies) tail) as (t3 & d3 & E3 & bs3 & Hg3 & Eb3);
    [lia|done|done|done|by constructor; [apply small_hello|]|done|by rewrite wire_cons, <- app_assoc|].
  unfold read_hello. rewrite E3. rewrite E3 in E2. simplify_eq. cbn [mbind option_bind hd_error negb].
  rewrite hello_of_body, register_alive by done.
  destruct (parts t2) as [[c r] w] eqn:Ep.
  destruct (split_stream _ _ _ _ _ Hg3 Ep) as (Hst & Hso & Hpr & Ho). apply parts_fuel in Ep.
  set (s0 := mkTls c r w d2 _ PDrain mailbox true).
  destruct (turns_ahead peer ts s0 bodies tail) as (s' & b1 & b2 & Et & -> & Hpass & Hfin).
  { right. split; try done. unfold plaintext, s0. cbn [buf decoder conn read_sock]. by rewrite Ho. }
  destruct (turns_return peer ts s0) as (s2 & Et2 & _ & Hdone & _).
  rewrite Et in Et2. simplify_eq. cbn [mbind option_bind]. rewrite Et. cbn [mbind option_bind].
  assert (Hf : finished s2).
  { apply Hdone. unfold remaining, s0. cbn [read_sock reading weight].
    change (script_fuel r) with (read_fuel r). lia. }
  rewrite (Hfin Hf), Hf, Hpass, app_nil_r. exists s2. unfold cmd_send, s0.
  cbn [gone_after fst queued cmd_tx]. do 3 f_equal. by rewrite <- !app_assoc.
Qed.

Lemma tls_session_run clock_sniff clock clock_ws clock_up clock_hello (t : T) tx me peer sniff
    writer accept mailbox ts bodies tail :
  (forall i, (clock i < clock 0%nat + HEARTBEAT_TIMEOUT)%Z) ->
  (forall i, (clock_sniff i < clock_sniff 0%nat + HEARTBEAT_TIMEOUT)%Z) ->
  gone_after tx = None -> length peer = IDENTITY_SIZE -> Forall small bodies -> partial tail ->
  gives t (hello peer ++ wire bodies ++ tail) -> 2 * read_fuel t + 2 < reads ts ->
  exists s, tls_session (C := C) (R := list read_event) (W := W) clock_sniff clock clock_ws clock_up
      clock_hello t tx me sniff true writer accept (Some true) mailbox ts =
    Some (Ran s, mkCmdTx (queued tx ++ ConnectionUp peer writer accept ::
      (Received peer <$> messages bodies) ++ [ConnectionDown peer]) None).
Proof.
  intros Hcl Hcs Hg Hpeer Hb Ht Hgv Hts. unfold tls_session. destruct sniff; cbn [negb].
  - assert (exists h, hello peer = x00 :: h) as [h Eh].
    { rewrite hello_framed by done. unfold framed, zlen. cbn [length]. rewrite Hpeer. by eexists. }
    rewrite Eh in Hgv. cbn [app] in Hgv.
    destruct (read_one_gives (fun i => clock_sniff (S i)) (S (read_fuel t)) t
      (clock_sniff 0%nat + HEARTBEAT_TIMEOUT)%Z 0 x00 _ ltac:(lia) (fun i => Hcs (S i)) Hgv)
      as (t1 & E & Hg1 & Hle).
    unfold read_one_byte. rewrite E. cbn [mbind option_bind].
    rewrite decide_False, decide_True by done.
    apply (tls_exchange_delivers clock t1 (FrameDecoder.extend_from FrameDecoder.new [x00]) tx me peer writer accept mailbox ts
      _ bodies tail Hcl Hg Hpeer Hb Ht (Nat.lt_0_succ _) Hg1); [by rewrite Eh|lia].
  - by apply (tls_exchange_delivers clock t FrameDecoder.new tx me peer writer accept mailbox ts
      _ bodies tail Hcl Hg Hpeer Hb Ht (Nat.lt_0_succ _) Hgv).
Qed.
(** A TLS session delivers the peer's stream, under every schedule of its
    two threads.  However the ciphertext is cut into reads, whenever rustls's
    buffers fill up, whatever the writer sends between two turns of the reader
    and whether or not the session was sniffed, the broker is told of the
    connection, of every DATA, DATA_REQ and ACK in the plaintext in order and
    of the end when the peer closes; the byte the sniff consumed and the
    plaintext left over from the handshake are not lost. *)
Theorem tls_session_delivers clock_sniff clock clock_ws clock_up clock_hello (t : T) tx me peer sniff
    writer accept mailbox ts bodies tail :
  (forall i, (clock i < clock 0%nat + HEARTBEAT_TIMEOUT)%Z) ->
  (forall i, (clock_sniff i < clock_sniff 0%nat + HEARTBEAT_TIMEOUT)%Z) ->
  gone_after tx = None -> length peer = IDENTITY_SIZE -> Forall small bodies -> partial tail ->
  gives t (hello peer ++ wire bodies ++ tail) -> 2 * read_fuel t + 2 < reads ts ->
  exists s, tls_session (C := C) (R := list read_event) (W := W) clock_sniff clock clock_ws clock_up
      clock_hello t tx me sniff true writer accept (Some true) mailbox ts =
    Some (Ran s, mkCmdTx (queued tx ++ ConnectionUp peer writer accept ::
      (Received peer <$> messages bodies) ++ [ConnectionDown peer]) None).
Proof. apply tls_session_run. Qed.
End DeliversSession.

(** ** What a session writes *)

(** The plaintext a mailbox holds, with a heartbeat for each silence. *)
Definition mails (rx : Mailbox) : bytes :=
  mjoin ((fun m => match m with Mail f => f | NoMail => heartbeat end) <$> rx).

Section Writes.
Context {C R : Type} `{!Connection C, !ConnectionLaws C, !Read R, !ReadLaws R}.
Implicit Type s : Tls C R Tcp.

(** [write_pending] over a socket: all or, if the socket fails, a prefix of
    what was queued and the frame's ciphertext behind it. *)
Lemma write_pending_sent (c : C) (w : Tcp) frame :
  exists c' w' r ct p, write_pending c w frame = Some (c', w', r) /\ same_in c c' /\
    outq c' = [] /\ produced c' = produced c ++ ct /\ sealed c' = sealed c ++ default [] frame /\
    sent w' = sent w ++ p /\ p `prefix_of` outq c ++ ct /\
    (Io.tx w = [] -> r = Ok tt /\ p = outq c ++ ct /\ Io.tx w' = []).
Proof.
  unfold write_pending. destruct (extract_spec c frame) as (c' & ct & -> & Ho & Hp & Hs & Hi).
  cbn [mbind option_bind]. destruct (decide (outq c ++ ct = [])) as [He|Hne].
  - exists c', w, (Ok tt), ct, []. rewrite He, app_nil_r. by split_and!.
  - destruct (write_frame_sent w (outq c ++ ct)) as (w' & r & p & E & _ & Hsent & Hpre & Hok & Hclear).
    unfold write_frame in E. rewrite E. cbn [mbind option_bind]. exists c', w', r, ct, p.
    split_and!; try done. intros Htx. destruct (Hclear Htx) as [-> ?]. split_and!; [done|auto|done].
Qed.

(** [in_order base s]: what is on the wire and what waits behind it is all
    the ciphertext made since [base], in the order it was made. *)
Record in_order (base : bytes) s : Prop := {
  io_intact : Io.tx (write_sock s) = [];
  io_wire : produced (conn s) = base ++ sent (write_sock s) ++ outq (conn s);
}.

Lemma write_pending_in_order base s c w r ct p :
  in_order base s ->
  produced c = produced (conn s) ++ ct -> outq c = [] -> p = outq (conn s) ++ ct ->
  sent w = sent (write_sock s) ++ p -> Io.tx w = [] ->
  forall s', conn s' = c -> write_sock s' = w -> r = Ok tt -> in_order base s'.
Proof.
  intros [Hi Hw] Hp Ho -> Hs Ht s' <- <- _. split; [done|].
  by rewrite Hp, Hw, Ho, Hs, app_nil_r, <- !app_assoc.
Qed.

(** Ciphertext queued by the reader stays behind what is queued already. *)
Lemma replies_in_order base s s' :
  in_order base s -> replies (conn s) (conn s') -> write_sock s' = write_sock s -> in_order base s'.
Proof.
  intros [Hi Hw] (ct & [Mo Mp] & _) E. split; rewrite E; [done|].
  by rewrite Mp, Mo, Hw, <- !app_assoc.
Qed.

Lemma hand_over_frame peer s next s' :
  hand_over peer s next = Some s' -> conn s' = conn s /\ write_sock s' = write_sock s /\
    writer_rx s' = writer_rx s /\ writing s' = writing s.
Proof.
  unfold hand_over. destruct (forward_frames _ _ _) as [[[d tx] a]|]; [|done].
  cbn [mbind option_bind]. by intros [= <-].
Qed.

Lemma reader_turn_in_order base peer s s' :
  in_order base s -> reader_turn peer s = Some s' ->
  in_order base s' /\ sealed (conn s') = sealed (conn s) /\ writer_rx s' = writer_rx s.
Proof.
  intros HI. unfold reader_turn, drain_plaintext. destruct (reading s) as [|nf| |].
  - destruct (hand_over peer s PDrain) as [s1|] eqn:Eh; [|done]. cbn [mbind option_bind].
    apply hand_over_frame in Eh as (Hc & Hw & Hrx & _).
    assert (HI1 : in_order base s1) by (destruct HI; by split; rewrite ?Hc, ?Hw).
    destruct (reading s1).
    4: { intros [= <-]. by rewrite Hc, Hrx. }
    all: destruct (drain_reader_spec (conn s1) []) as (c & -> & [_ _ _ _ Hre]); cbn [mbind option_bind];
      intros [= <-]; (split; [by eapply replies_in_order|]); destruct Hre as (ct & _ & Hs);
      cbn; by rewrite Hs, Hc, Hrx.
  - intros E. enough (exists s1, (if nf then '(c, w, _) ← write_pending (conn s) (write_sock s) None;
        Some (with_write_sock w (with_conn c s)) else Some s) = Some s1 /\ in_order base s1 /\
      sealed (conn s1) = sealed (conn s) /\ writer_rx s1 = writer_rx s) as (s1 & E1 & HI1 & Hs1 & Hr1).
    { rewrite E1 in E. cbn [mbind option_bind] in E. apply hand_over_frame in E as (Hc & Hw & Hrx & _).
      rewrite Hc, Hrx. split; [|done]. destruct HI1. by split; rewrite ?Hc, ?Hw. }
    destruct nf; [|by exists s].
    destruct (write_pending_sent (conn s) (write_sock s) None) as
      (c & w & r & ct & p & -> & _ & Ho & Hp & Hse & Hsent & _ & Hok).
    destruct (Hok (io_intact _ _ HI)) as (-> & -> & Htx). eexists. split; [done|].
    split; [by eapply write_pending_in_order|]. cbn. by rewrite Hse, app_nil_r.
  - destruct (read (read_sock s) (16 * 1024)) as [r [[|x raw]|e]]; [by intros [= <-]; destruct HI| |
      by intros [= <-]; destruct HI].
    destruct (feed_spec (conn s) (x :: raw)) as (c & out & -> & Hre & _); [done|].
    cbn [mbind option_bind]. intros E.
    assert (conn s' = c /\ write_sock s' = write_sock s /\ writer_rx s' = writer_rx s) as (Hc & Hw & Hrx)
      by (destruct out; by simplify_eq). rewrite <- Hc in Hre.
    split; [by eapply replies_in_order|]. by destruct Hre as (ct & _ & ->).
  - by intros [= <-].
Qed.

Lemma writer_turn_in_order base s s' :
  in_order base s -> writer_turn s = Some s' ->
  in_order base s' /\ sealed (conn s') ++ mails (writer_rx s') = sealed (conn s) ++ mails (writer_rx s).
Proof.
  intros HI. unfold writer_turn. destruct (writing s); cbn [negb]; [|by intros [= <-]].
  assert (Hsend : forall frame rx s', mails (writer_rx s) = frame ++ mails rx ->
    ('(c, w, r) ← write_pending (conn s) (write_sock s) (Some frame);
     Some (with_writer rx (match r with Ok _ => true | Err _ => false end)
       (with_conn c (with_write_sock w s)))) = Some s' ->
    in_order base s' /\ sealed (conn s') ++ mails (writer_rx s') = sealed (conn s) ++ mails (writer_rx s)).
  { intros frame rx s1 Hm. destruct (write_pending_sent (conn s) (write_sock s) (Some frame)) as
      (c & w & r & ct & p & -> & _ & Ho & Hp & Hse & Hsent & _ & Hok). cbn [mbind option_bind].
    destruct (Hok (io_intact _ _ HI)) as (-> & -> & Htx). intros [= <-].
    split; [by eapply write_pending_in_order|]. cbn. by rewrite Hse, Hm, <- app_assoc. }
  destruct (writer_rx s) as [|[f|] rx]; cbn [recv].
  - intros [= <-]. split; [by destruct HI|done].
  - by apply Hsend.
  - by apply Hsend.
Qed.

(** Under every schedule of its two threads a TLS session sends what it
    should, in order.  While the socket takes what it is given, the bytes on
    the wire followed by those still queued in rustls are exactly the
    ciphertext made since the session began, no record lost, repeated or
    moved, whether the reader's control records or the writer's frames made
    it; and the plaintext sealed in it is the frames the broker queued, each
    whole however far it exceeds rustls's buffer, in order, with a heartbeat
    for each silence. *)
Theorem tls_wire_in_order base peer ts s :
  in_order base s ->
  exists s', turns peer s ts = Some s' /\ in_order base s' /\
    sealed (conn s') ++ mails (writer_rx s') = sealed (conn s) ++ mails (writer_rx s).
Proof.
  revert s. induction ts as [|[|] ts IH]; intros s HI; cbn [turns take_turn]; [by exists s|..].
  - destruct (reader_turn_returns peer s) as (s1 & E & _). rewrite E. cbn [mbind option_bind].
    apply (reader_turn_in_order base) in E as (HI1 & <- & <-); [|done]. by apply IH.
  - destruct (writer_turn_returns s) as (s1 & E & _). rewrite E. cbn [mbind option_bind].
    apply (writer_turn_in_order base) in E as (HI1 & <-); [|done]. by apply IH.
Qed.
End Writes.
