(* ===== verification/TlsNull.v ===== *)
(** * TlsNull: a connection that keeps the laws of [Tls]

    A toy protocol with rustls's interface: the cipher is the identity, the
    byte [KEY_UPDATE] is a control record that is answered in kind, the byte
    [FORGED] is a fatal error, and both buffers hold four bytes, so that every
    loop of the session goes round.  It shows that the laws the theorems of
    [TlsProps] assume can be kept, and carries their witnesses. *)

From S2P Require Import Prelude Io WsFrame WsStream Upgrade Protocol Broker Conn ConnProps Tls TlsProps.
From Stdlib Require Import Strings.Byte.

Definition KEY_UPDATE : byte := xff.
Definition FORGED : byte := xfe.
Definition LIMIT : nat := 4.

Record Null := mkNull {
  n_in : bytes;
  n_plain : bytes;
  n_out : bytes;
  n_made : bytes;
  n_said : bytes;
}.

Definition text (l : bytes) : bytes := filter (fun b => b <> KEY_UPDATE) l.
Definition control (l : bytes) : bytes := filter (fun b => b = KEY_UPDATE) l.

Definition null_read_tls (c : Null) (raw : bytes) : Null * io_result nat :=
  if decide (LIMIT <= length (n_in c)) then (c, Err OtherError)
  else
    let k := (LIMIT - length (n_in c)) `min` length raw in
    (mkNull (n_in c ++ take k raw) (n_plain c) (n_out c) (n_made c) (n_said c), Ok k).

Definition null_process (c : Null) : Null * bool :=
  if decide (FORGED ∈ n_in c) then (c, false)
  else (mkNull [] (n_plain c ++ text (n_in c)) (n_out c ++ control (n_in c))
          (n_made c ++ control (n_in c)) (n_said c), true).

Definition null_reader_read (c : Null) (n : nat) : Null * io_result bytes :=
  match n_plain c with
  | [] => (c, Err WouldBlock)
  | l => (mkNull (n_in c) (drop n l) (n_out c) (n_made c) (n_said c), Ok (take n l))
  end.

Definition null_writer_write (c : Null) (p : bytes) : Null * io_result nat :=
  let k := (LIMIT - length (n_out c)) `min` length p in
  (mkNull (n_in c) (n_plain c) (n_out c ++ take k p) (n_made c ++ take k p) (n_said c ++ take k p),
   Ok k).

Definition null_write_tls (c : Null) : Null * io_result bytes :=
  (mkNull (n_in c) (n_plain c) (drop 3 (n_out c)) (n_made c) (n_said c), Ok (take 3 (n_out c))).

#[export] Instance null_Connection : Connection Null := {
  read_tls := null_read_tls;
  process_new_packets := null_process;
  reader_read := null_reader_read;
  writer_write := null_writer_write;
  wants_write c := bool_decide (n_out c <> []);
  write_tls := null_write_tls;
  buffered := n_plain;
  outq := n_out;
  produced := n_made;
  sealed := n_said;
  opens c raw := n_plain c ++ text (n_in c ++ raw);
  sound c raw := FORGED ∉ n_in c ++ raw;
  processed c := n_in c = [];
}.

Lemma text_app l k : text (l ++ k) = text l ++ text k.
Proof. apply filter_app. Qed.

Lemma makes_nothing (c c' : Null) : n_out c' = n_out c -> n_made c' = n_made c -> makes c c' [].
Proof. intros H1 H2. split; cbn; by rewrite ?H1, ?H2, app_nil_r. Qed.

#[export] Instance null_ConnectionLaws : ConnectionLaws Null.
Proof.
  split; cbn [read_tls process_new_packets reader_read writer_write wants_write write_tls buffered outq
    produced sealed opens sound processed null_Connection].
  - intros c raw c' k Hne E. unfold null_read_tls in E. case_decide; [done|]. injection E as <- Hk.
    rewrite <- Hk. split; [lia|]. split; [done|]. intros more. cbn [n_plain n_in].
    rewrite <- !app_assoc, (app_assoc (take _ _)), take_drop. done.
  - intros c raw c' Hne E. unfold null_read_tls in E. case_decide; simplify_eq.
    destruct raw; [done|]. simpl in *. lia.
  - intros c raw c' e Hne E. unfold null_read_tls in E. case_decide; by simplify_eq.
  - intros c raw Hne Hp _. unfold null_read_tls. rewrite Hp. cbn. eauto.
  - intros c raw. unfold null_read_tls. case_decide; by split; [apply makes_nothing|].
  - intros c c' E. unfold null_process in E. case_decide; simplify_eq. cbn. split; [done|].
    intros x. rewrite !text_app, app_assoc. split; [done|]. set_solver.
  - intros c x Hs. unfold null_process. rewrite decide_False by set_solver. done.
  - intros c. unfold null_process. case_decide; [exists []|exists (control (n_in c))];
      split; try done. by apply makes_nothing.
  - intros c Hp. rewrite Hp. by rewrite app_nil_r.
  - intros c n c' bs Hn E Hbs. unfold null_reader_read in E.
    destruct (n_plain c) as [|b l]; simplify_eq. cbn [n_plain n_in]. rewrite length_take.
    split; [lia|]. rewrite take_drop. split; [done|]. split; [done|]. intros x.
    by rewrite app_assoc, take_drop.
  - intros c n c' r Hn E Hr. unfold null_reader_read in E.
    destruct (n_plain c) as [|b l] eqn:Ep; simplify_eq; [by split; [|apply same_in_refl]|].
    specialize (Hr _ eq_refl). destruct n; [lia|]. done.
  - intros c n. unfold null_reader_read. destruct (n_plain c); by split; [apply makes_nothing|].
  - intros c p. unfold null_writer_write. eexists _, _, _. split; [done|].
    split; [lia|]. split; [by split|]. split; [done|]. split; [by split|].
    intros Ho Hp. rewrite Ho. destruct p; [done|]. unfold LIMIT. simpl. lia.
  - intros c. by rewrite bool_decide_eq_true.
  - intros c Ho. unfold null_write_tls. eexists _, _. split; [done|]. cbn.
    split; [by destruct (n_out c)|]. rewrite take_drop. split_and!; try done.
Qed.

(** ** The stream over it *)

Record NullStream := mkStream {
  ns_conn : Null;
  ns_rx : list read_event;
  ns_tx : Tcp;
}.

Definition null_read (t : NullStream) (n : nat) : NullStream * io_result bytes :=
  let c := ns_conn t in
  match n_plain c with
  | [] =>
    match script_read (ns_rx t) 8 with
    | (r, Err e) => (mkStream c r (ns_tx t), Err e)
    | (r, Ok []) => (mkStream c r (ns_tx t), Ok [])
    | (r, Ok raw) =>
      let all := n_in c ++ raw in
      if decide (FORGED ∈ all) then (mkStream c r (ns_tx t), Err OtherError)
      else
        let c' l := mkNull [] l (n_out c ++ control all) (n_made c ++ control all) (n_said c) in
        match text all with
        | [] => (mkStream (c' []) r (ns_tx t), Err Interrupted)
        | l => (mkStream (c' (drop n l)) r (ns_tx t), Ok (take n l))
        end
    end
  | l => (mkStream (mkNull (n_in c) (drop n l) (n_out c) (n_made c) (n_said c)) (ns_rx t) (ns_tx t),
          Ok (take n l))
  end.

#[export] Instance null_Read : Read NullStream := {
  read := null_read;
  read_fuel t := script_fuel (ns_rx t) + length (n_plain (ns_conn t)) + length (n_in (ns_conn t));
}.

Lemma length_text l : length (text l) <= length l.
Proof. apply length_filter. Qed.

#[export] Instance null_ReadLaws : ReadLaws NullStream.
Proof.
  assert (Hread : forall s n s' bs, script_read s n = (s', Ok bs) -> script_fuel s' + length bs <= script_fuel s)
    by exact (read_spends (R := list read_event)).
  assert (Hfail : forall s n s' e, script_read s n = (s', Err e) -> script_fuel s' < script_fuel s)
    by exact (read_fails (R := list read_event)).
  split; cbn [read read_fuel null_Read]; unfold null_read.
  - intros t n t' bs E. destruct (n_plain _) as [|b l].
    + destruct (script_read _ _) as [r [[|x raw]|e]]; simplify_eq; [simpl; lia|].
      case_decide; simplify_eq. destruct (text _) as [|y k]; simplify_eq. rewrite length_take. lia.
    + simplify_eq. rewrite length_take. lia.
  - intros t n t' bs E. destruct (n_plain (ns_conn t)) as [|b l] eqn:Ep.
    + destruct (script_read _ _) as [r [[|x raw]|e]] eqn:Er; simplify_eq; apply Hread in Er.
      * cbn [ns_rx ns_conn]. rewrite Ep. simpl in *. lia.
      * case_decide; simplify_eq. pose proof (length_text (n_in (ns_conn t) ++ x :: raw)) as Hl.
        destruct (text _) as [|y k]; simplify_eq. cbn [ns_rx ns_conn n_plain n_in].
        rewrite length_app in Hl. rewrite length_take, length_drop. simpl in *. lia.
    + simplify_eq. cbn [ns_rx ns_conn n_plain n_in]. rewrite length_take, length_drop. lia.
  - intros t n t' e E. destruct (n_plain _) as [|b l] eqn:Ep; [|done].
    destruct (script_read _ _) as [r [[|x raw]|e']] eqn:Er; simplify_eq.
    + apply Hread in Er. cbn [length] in Er.
      case_decide; [|destruct (text _) as [|y k]]; simplify_eq;
        cbn [ns_rx ns_conn n_plain n_in]; rewrite ?Ep; cbn [length]; lia.
    + apply Hfail in Er. cbn [ns_rx ns_conn]. rewrite Ep. cbn [length]. lia.
Qed.

#[export] Instance null_Write : Write NullStream := {
  write t p :=
    let c := ns_conn t in
    let w := ns_tx t in
    (mkStream (mkNull (n_in c) (n_plain c) [] (n_made c ++ p) (n_said c ++ p)) (ns_rx t)
       (mkTcp (rx w) (tx w) (sent w ++ n_out c ++ p)), Ok (length p));
  flush t := (t, Ok tt);
  write_fuel t := 0;
}.

#[export] Instance null_WriteLaws : WriteLaws NullStream.
Proof. split; cbn; intros; by simplify_eq. Qed.

#[export] Instance null_DuplexLaws : DuplexLaws NullStream.
Proof. split; cbn; intros; by simplify_eq. Qed.

#[export] Instance null_StreamOwned : StreamOwned NullStream Null (list read_event) Tcp := {
  parts t := (ns_conn t, ns_rx t, ns_tx t);
}.

#[export] Instance null_StreamOwnedLaws : StreamOwnedLaws NullStream Null (list read_event) Tcp.
Proof. split. intros t c r w E. cbn in E |- *. simplify_eq. lia. Qed.

#[export, refine] Instance null_ByteStream : ByteStream NullStream :=
  {| gives t bs := Forall steady (ns_rx t) /\ n_in (ns_conn t) = [] /\
       sound (ns_conn t) (script_bytes (ns_rx t)) /\
       opens (ns_conn t) (script_bytes (ns_rx t)) = bs |}.
Proof.
  intros t n t' res bs Hn (Hst & Hin & Hso & <-) E. cbn [read null_Read] in E. unfold null_read in E.
  cbn [sound opens null_Connection] in *. rewrite Hin in *. cbn [app] in *.
  destruct (n_plain (ns_conn t)) as [|b l] eqn:Ep.
  - destruct (script_read (ns_rx t) 8) as [r q] eqn:Er.
    apply script_steady in Er as [Hst' Hq]; [|lia|done].
    destruct q as [[|x raw]|e]; [|rewrite Hq in Hso|done].
    + simplify_eq. by rewrite Hq.
    + rewrite decide_False in E by set_solver. rewrite Hq, (text_app (x :: raw)).
      destruct (text (x :: raw)) as [|y k] eqn:Et; simplify_eq; cbn [ns_rx ns_conn n_in n_plain].
      * split; [done|]. split_and!; [done|done|set_solver|done].
      * destruct (take n (y :: k)) as [|z m] eqn:Etk; [by destruct n; [lia|]|].
        exists (drop n (y :: k) ++ text (script_bytes r)). rewrite <- Etk, (app_assoc (take _ _)), take_drop.
        split; [done|]. split_and!; [done|done|set_solver|done].
  - simplify_eq. destruct (take n (b :: l)) as [|z m] eqn:Etk; [by destruct n; [lia|]|].
    exists (drop n (b :: l) ++ text (script_bytes (ns_rx t))). rewrite <- Etk, (app_assoc (take _ _)), take_drop.
    split; [done|]. by split_and!.
Defined.

#[export] Instance null_TlsStream : TlsStream NullStream Null Tcp.
Proof.
  split.
  - intros t bs c r w (Hst & Hin & Hso & Ho) E. cbn in E. simplify_eq. by split_and!.
  - intros t bs f (Hst & Hin & Hso & Ho). unfold write_frame, write_all.
    cbn [write_fuel null_Write]. destruct f as [|b f]; [by exists t|].
    cbn [length Nat.add write_all_loop write null_Write]. rewrite drop_ge by done.
    eexists. split; [by destruct (length f + 0)|]. by split_and!.
Qed.

(** ** Witnesses *)

Definition fresh : Null := mkNull [] [] [] [] [].

(** A peer's HELLO and one message, cut up, with control records between. *)
Definition cipher_script : list read_event :=
  [ RChunk (take 7 (hello peer_id)); RChunk (drop 7 (hello peer_id) ++ [KEY_UPDATE; x00]);
    RChunk (take 5 (drop 1 (data greeting))); RChunk [KEY_UPDATE];
    RChunk (drop 6 (data greeting)) ].

Definition tls_stream : NullStream := mkStream fresh cipher_script (mkTcp [] [] []).

(** The reader gets a turn in two. *)
Definition schedule : list thread := mjoin (replicate 150 [Writer; Reader]).

Definition at_noon (_ : nat) : Z := 0.

Lemma tls_session_delivers_witness :
  exists s : Tls Null (list read_event) Tcp,
    tls_session at_noon at_noon at_noon at_noon at_noon tls_stream (mkCmdTx [] None)
      peer_id true true 1 2 (Some true) [Mail (data greeting); NoMail] schedule =
    Some (Ran s, mkCmdTx ([] ++ ConnectionUp peer_id 1 2 ::
      (Received peer_id <$> messages [T_DATA :: greeting]) ++ [ConnectionDown peer_id]) None).
Proof.
  apply (tls_session_delivers (C := Null) (W := Tcp) at_noon at_noon at_noon at_noon at_noon tls_stream
    (mkCmdTx [] None) peer_id peer_id true 1 2 [Mail (data greeting); NoMail] schedule
    [T_DATA :: greeting] []).
  - intros i. reflexivity.
  - intros i. reflexivity.
  - reflexivity.
  - reflexivity.
  - apply (bool_decide_unpack _). vm_compute. exact I.
  - apply partial_nil.
  - split_and!; [|reflexivity| |vm_compute; reflexivity];
      apply (bool_decide_unpack _); vm_compute; exact I.
  - apply (bool_decide_unpack _). vm_compute. exact I.
Defined.

Definition mid_session : Tls Null (list read_event) Tcp :=
  mkTls fresh cipher_script (mkTcp [] [] []) FrameDecoder.new (mkCmdTx [] None) PRead
    [Mail (data greeting); NoMail] true.

Lemma tls_wire_in_order_witness :
  exists s', turns peer_id mid_session [Writer; Reader; Reader; Reader; Writer] = Some s' /\
    in_order [] s' /\ sealed (conn s') ++ mails (writer_rx s') = [] ++ data greeting ++ heartbeat ++ [].
Proof.
  refine (tls_wire_in_order [] peer_id [Writer; Reader; Reader; Reader; Writer] mid_session _).
  split; reflexivity.
Defined.

Lemma tls_sessions_bracket_witness :
  exists (o : outcome NullStream Null (list read_event) Tcp) tx',
    tls_session at_noon at_noon at_noon at_noon at_noon
      (mkStream fresh [RChunk [x00; FORGED]; RFail TimedOut] (mkTcp [] [] [])) (mkCmdTx [] (Some 1))
      peer_id true true 1 2 None [] [Reader] = Some (o, tx') /\
    exists cs, queued tx' = [] ++ cs /\
      session_log 1 2 None (granted (mkStream fresh [RChunk [x00; FORGED]; RFail TimedOut]
        (mkTcp [] [] [])) (mkCmdTx [] (Some 1)) [] [Reader]) cs.
Proof.
  exact (tls_sessions_bracket (C := Null) (R := list read_event) (W := Tcp) at_noon at_noon at_noon
    at_noon at_noon (mkStream fresh [RChunk [x00; FORGED]; RFail TimedOut] (mkTcp [] [] []))
    (mkCmdTx [] (Some 1)) peer_id true true 1 2 None [] [Reader]).
Defined.
