(* ===== verification/TlsWhole.v ===== *)
(** * TlsWhole: both directions of a TLS session at once

    [TlsProps] shows what a TLS session delivers and, from the start of its
    threads, that what it writes is in order.  Here the two meet over the whole
    session, HELLO included ([tls_session_whole]): what it seals for the peer is
    its HELLO and then its mailbox, and what it reports is the peer's messages. *)

From S2P Require Import Prelude Io Protocol Broker Conn ConnProps Tls TlsProps TlsNull.
From Stdlib Require Import Strings.Byte.

(** The writer's turns in a schedule. *)
Fixpoint writers (ts : list thread) : nat :=
  match ts with
  | [] => 0
  | Writer :: ts => S (writers ts)
  | Reader :: ts => writers ts
  end.

(** What a stream has sealed before it is taken apart. *)
Definition sealed_before {T C} `{!Connection C, !StreamOwned T C (list read_event) Tcp} (t : T) : bytes :=
  sealed (parts t).1.1.

(** What is known of the write half of a stream before it is taken apart:
    [intact t] while the socket has taken all it was given; reading seals
    nothing, and a frame written is sealed whole. *)
Class TlsDuplex (T C : Type) `{!Connection C, !Read T, !Write T,
    !StreamOwned T C (list read_event) Tcp} := {
  intact : T -> Prop;
  intact_parts t c r w : intact t -> parts t = (c, r, w) ->
    Io.tx w = [] /\ produced c = Io.sent w ++ outq c;
  intact_read t n : intact t -> intact (read t n).1 /\
    sealed_before (read t n).1 = sealed_before t;
  intact_write t f t' : intact t -> write_frame t f = Some (t', Ok tt) ->
    intact t' /\ sealed_before t' = sealed_before t ++ f;
}.

Section Turns.
Context {C R : Type} `{!Connection C, !ConnectionLaws C, !Read R, !ReadLaws R}.
Implicit Type s : Tls C R Tcp.

Lemma reader_turn_writing peer s s' : reader_turn peer s = Some s' -> writing s' = writing s.
Proof.
  unfold reader_turn, drain_plaintext. destruct (reading s) as [|nf| |].
  - destruct (hand_over peer s PDrain) as [s1|] eqn:Eh; [|done]. cbn [mbind option_bind].
    apply hand_over_frame in Eh as (_ & _ & _ & <-).
    destruct (reading s1); [..|by intros [= <-]];
      destruct (drain_reader (conn s1) []) as [[c l]|]; cbn [mbind option_bind]; by intros; simplify_eq.
  - destruct nf; cbn [mbind option_bind].
    + destruct (write_pending (conn s) (write_sock s) None) as [[[c w] r]|]; [|done].
      cbn [mbind option_bind]. by intros (_ & _ & _ & ->)%hand_over_frame.
    + by intros (_ & _ & _ & ->)%hand_over_frame.
  - destruct (read (read_sock s) (16 * 1024)) as [r [[|x raw]|e]]; [by intros [= <-]| |by intros [= <-]].
    destruct (feed (conn s) (x :: raw)) as [[c [out|]]|]; cbn [mbind option_bind]; by intros; simplify_eq.
  - by intros [= <-].
Qed.

(** While the socket takes what it is given, each turn of the writer takes one
    item of its mailbox. *)
Lemma writer_turn_takes base s s' :
  in_order base s -> writing s = true \/ writer_rx s = [] -> writer_turn s = Some s' ->
  writer_rx s' = drop 1 (writer_rx s) /\ (writing s' = true \/ writer_rx s' = []).
Proof.
  intros HI Hw. unfold writer_turn. destruct (writing s); cbn [negb].
  2: { intros [= <-]. destruct Hw as [|Hw]; [done|]. rewrite Hw. auto. }
  assert (Hsend : forall frame rx,
    ('(c, w, r) ← write_pending (conn s) (write_sock s) (Some frame);
     Some (with_writer rx (match r with Ok _ => true | Err _ => false end)
       (with_conn c (with_write_sock w s)))) = Some s' -> writer_rx s' = rx /\ writing s' = true).
  { intros frame rx. destruct (write_pending_sent (conn s) (write_sock s) (Some frame)) as
      (c & w & r & ct & p & -> & _ & _ & _ & _ & _ & _ & Hok). cbn [mbind option_bind].
    destruct (Hok (io_intact _ _ HI)) as (-> & _ & _). by intros [= <-]. }
  destruct (writer_rx s) as [|[f|] rx]; cbn [recv].
  - intros [= <-]. auto.
  - intros [-> ?]%Hsend. auto.
  - intros [-> ?]%Hsend. auto.
Qed.

Lemma turns_take base peer ts : forall s s',
  in_order base s -> writing s = true \/ writer_rx s = [] -> turns peer s ts = Some s' ->
  in_order base s' /\ writer_rx s' = drop (writers ts) (writer_rx s) /\
  sealed (conn s') ++ mails (writer_rx s') = sealed (conn s) ++ mails (writer_rx s).
Proof.
  induction ts as [|[|] ts IH]; intros s s' HI Hw; cbn [turns take_turn writers].
  - intros [= <-]. by rewrite drop_0.
  - destruct (reader_turn peer s) as [s1|] eqn:E; [|done]. cbn [mbind option_bind]. intros E'.
    pose proof (reader_turn_writing _ _ _ E) as Hw1.
    apply (reader_turn_in_order base) in E as (HI1 & <- & Hrx); [|done].
    rewrite <- Hrx, <- Hw1 in *. by apply IH.
  - destruct (writer_turn s) as [s1|] eqn:E; [|done]. cbn [mbind option_bind]. intros E'.
    pose proof (writer_turn_takes base s s1 HI Hw E) as [Hrx Hw1].
    apply (writer_turn_in_order base) in E as (HI1 & <-); [|done].
    destruct (IH s1 s' HI1 Hw1 E') as (HI' & Hd & Hs). split_and!; [done| |done].
    rewrite Hd, Hrx. by destruct (writer_rx s); cbn; rewrite ?drop_nil.
Qed.
End Turns.

(** ** Up to the start of the threads *)

Section Handshake.
Context {T C : Type} `{!Connection C, !Read T, !Write T, !StreamOwned T C (list read_event) Tcp,
  !TlsDuplex T C}.

(** [unsealed t t']: the write half is as it was. *)
Definition unsealed (t t' : T) : Prop :=
  intact t -> intact t' /\ sealed_before t' = sealed_before t.

Lemma unsealed_refl t : unsealed t t.
Proof. by intros. Qed.

Lemma unsealed_trans t1 t2 t3 : unsealed t1 t2 -> unsealed t2 t3 -> unsealed t1 t3.
Proof. intros H1 H2 Hi. destruct (H1 Hi) as [Hi2 <-]. by apply H2. Qed.

Lemma read_unsealed t n t' r : read t n = (t', r) -> unsealed t t'.
Proof. intros E Hi. pose proof (intact_read t n Hi) as H. by rewrite E in H. Qed.

Lemma read_one_unsealed clock fuel : forall t deadline k t' b,
  read_one_loop clock fuel t deadline k = Some (t', b) -> unsealed t t'.
Proof.
  induction fuel as [|fuel IH]; intros t deadline k t' b E; [done|]. cbn [read_one_loop] in E.
  destruct (read t 1) as [t1 [bs|e]] eqn:Er; apply read_unsealed in Er; [by simplify_eq|].
  destruct (transient e); [|by simplify_eq]. case_decide; [by simplify_eq|].
  eapply unsealed_trans; [exact Er|by eapply IH].
Qed.

Lemma read1_unsealed d (t : T) d' t' r : FrameDecoder.read1 d t = (d', t', r) -> unsealed t t'.
Proof.
  unfold FrameDecoder.read1. destruct (FrameDecoder.take_frame d) as [[f|] d1].
  - intros; simplify_eq. apply unsealed_refl.
  - destruct (read t _) as [t1 q] eqn:Er. apply read_unsealed in Er.
    intros E. repeat case_match; by simplify_eq.
Qed.

Lemma read_hello_unsealed clock fuel : forall (t : T) d deadline k t' d' p,
  read_hello_loop clock fuel t d deadline k = Some (t', d', p) -> unsealed t t'.
Proof.
  induction fuel as [|fuel IH]; intros t d deadline k t' d' p E; [done|]. cbn [read_hello_loop] in E.
  destruct (FrameDecoder.read1 d t) as [[d1 t1] r] eqn:Er. apply read1_unsealed in Er.
  destruct r as [[f| |]|e]; [by simplify_eq| |by simplify_eq..].
  case_decide; [by simplify_eq|]. eapply unsealed_trans; [exact Er|by eapply IH].
Qed.

(** A session whose threads have run started them on a write half that has
    sealed the HELLO and no more. *)
Definition started (t : T) (me peer : Identity) (mailbox : Mailbox) (ts : list thread)
    (s : Tls C (list read_event) Tcp) : Prop :=
  exists t2 c r w d tx, turns peer (mkTls c r w d tx PDrain mailbox true) ts = Some s /\
    parts t2 = (c, r, w) /\
    (intact t -> intact t2 /\ sealed c = sealed_before t ++ hello me).

Lemma exchange_started clock (t : T) d tx me clones writer accept answer mailbox ts s tx' :
  tls_exchange clock t d tx me clones writer accept answer mailbox ts = Some (Ran s, tx') ->
  exists peer, started t me peer mailbox ts s.
Proof.
  unfold tls_exchange. intros E.
  destruct (write_frame t (hello me)) as [[t1 [[]|e]]|] eqn:E1; cbn [mbind option_bind] in E; [|done..].
  unfold read_hello in E. destruct (read_hello_loop _ _ t1 d _ _) as [[[t2 d2] [p|]]|] eqn:E2;
    cbn [mbind option_bind] in E; [|done..].
  destruct clones; cbn [negb] in E; [|done].
  destruct (register tx p writer accept answer) as [tx1 []]; [|done].
  destruct (parts t2) as [[c r] w] eqn:Ep.
  destruct (turns p _ ts) as [s1|] eqn:Et; cbn [mbind option_bind] in E; [|done]. simplify_eq.
  exists p, t2, c, r, w, d2, tx1. split_and!; [done|done|]. intros Hi.
  destruct (intact_write t (hello me) t1 Hi E1) as [Hi1 Hs1].
  destruct (read_hello_unsealed _ _ _ _ _ _ _ _ _ E2 Hi1) as [Hi2 Hs2].
  split; [done|]. rewrite <- Hs1, <- Hs2. unfold sealed_before. by rewrite Ep.
Qed.

Lemma session_started clock_sniff clock clock_ws clock_up clock_hello (t : T) tx me sniff clones writer
    accept answer mailbox ts s tx' :
  tls_session clock_sniff clock clock_ws clock_up clock_hello t tx me sniff clones writer accept answer
    mailbox ts = Some (Ran s, tx') ->
  exists peer, started t me peer mailbox ts s.
Proof.
  unfold tls_session. destruct sniff; cbn [negb]; [|apply exchange_started].
  destruct (read_one_byte _ t _) as [[t1 [b|]]|] eqn:E1; cbn [mbind option_bind]; [|done..].
  destruct (decide (b = "G"%byte)).
  { destruct (ws_session _ _ _ t1 _ _ _ _ _ _ _ _) as [[t2 tx2]|]; cbn [mbind option_bind]; done. }
  destruct (decide (b = x00)); [|done].
  intros (peer & t2 & c & r & w & d & tx2 & Et & Ep & H)%exchange_started.
  exists peer, t2, c, r, w, d, tx2. split_and!; [done|done|]. intros Hi.
  apply read_one_unsealed in E1. destruct (E1 Hi) as [Hi1 Hs1]. destruct (H Hi1) as [Hi2 ->].
  by rewrite Hs1.
Qed.
End Handshake.

(** ** The whole session *)

Section Whole.
Context {T C : Type} `{!Connection C, !ConnectionLaws C, !Read T, !ReadLaws T, !Write T, !DuplexLaws T,
  !ByteStream T, !StreamOwned T C (list read_event) Tcp, !StreamOwnedLaws T C (list read_event) Tcp,
  !TlsStream T C Tcp, !TlsDuplex T C}.

Lemma session_seals clock_sniff clock clock_ws clock_up clock_hello (t : T) tx me sniff clones writer
    accept answer mailbox ts s tx' :
  tls_session clock_sniff clock clock_ws clock_up clock_hello t tx me sniff clones writer accept answer
    mailbox ts = Some (Ran s, tx') ->
  intact t -> length mailbox <= writers ts ->
  sealed (conn s) = sealed_before t ++ hello me ++ mails mailbox /\
  produced (conn s) = Io.sent (write_sock s) ++ outq (conn s).
Proof.
  intros (peer & t2 & c & r & w & d & tx2 & Et & Ep & H)%session_started Hi Hw.
  destruct (H Hi) as [Hi2 Hs]. destruct (intact_parts _ _ _ _ Hi2 Ep) as [Htx Hp].
  eapply (turns_take []) in Et as (HI & Hrx & Hse); [|by split|by left]. cbn [writer_rx conn] in Hrx, Hse.
  rewrite Hrx, drop_ge in Hse by done. unfold mails at 1 in Hse. cbn in Hse.
  rewrite app_nil_r, Hs, <- app_assoc in Hse. split; [done|]. by destruct HI.
Qed.

Lemma tls_session_runs_whole clock_sniff clock clock_ws clock_up clock_hello (t : T) tx me peer sniff
    writer accept mailbox ts bodies tail :
  (forall i, (clock i < clock 0%nat + HEARTBEAT_TIMEOUT)%Z) ->
  (forall i, (clock_sniff i < clock_sniff 0%nat + HEARTBEAT_TIMEOUT)%Z) ->
  gone_after tx = None -> length peer = IDENTITY_SIZE -> Forall small bodies -> partial tail ->
  gives t (hello peer ++ wire bodies ++ tail) -> 2 * read_fuel t + 2 < reads ts ->
  intact t -> length mailbox <= writers ts ->
  exists s, tls_session (C := C) (R := list read_event) (W := Tcp) clock_sniff clock clock_ws clock_up
      clock_hello t tx me sniff true writer accept (Some true) mailbox ts =
    Some (Ran s, mkCmdTx (queued tx ++ ConnectionUp peer writer accept ::
      (Received peer <$> messages bodies) ++ [ConnectionDown peer]) None) /\
    sealed (conn s) = sealed_before t ++ hello me ++ mails mailbox /\
    produced (conn s) = Io.sent (write_sock s) ++ outq (conn s).
Proof.
  intros Hcl Hcs Hg Hp Hb Ht Hgv Hr Hi Hw.
  destruct (tls_session_run clock_sniff clock clock_ws clock_up clock_hello t tx me peer sniff writer
    accept mailbox ts bodies tail) as [s E]; [done..|].
  exists s. split; [done|]. by eapply session_seals.
Qed.

(** C17: Both directions of a TLS session.  Whatever the schedule of its two
    threads, as long as each gets its turns and the socket takes what it is
    given: the broker is told of the connection, of the peer's messages in
    order and of the end; and the plaintext sealed for the peer, all of whose
    records are on the wire or queued behind it in order, is our HELLO and then
    every frame of the mailbox, with a heartbeat for each silence. *)
Theorem tls_session_whole clock_sniff clock clock_ws clock_up clock_hello (t : T) tx me peer sniff
    writer accept mailbox ts bodies tail :
  (forall i, (clock i < clock 0%nat + HEARTBEAT_TIMEOUT)%Z) ->
  (forall i, (clock_sniff i < clock_sniff 0%nat + HEARTBEAT_TIMEOUT)%Z) ->
  gone_after tx = None -> length peer = IDENTITY_SIZE -> Forall small bodies -> partial tail ->
  gives t (hello peer ++ wire bodies ++ tail) -> 2 * read_fuel t + 2 < reads ts ->
  intact t -> length mailbox <= writers ts ->
  exists s, tls_session (C := C) (R := list read_event) (W := Tcp) clock_sniff clock clock_ws clock_up
      clock_hello t tx me sniff true writer accept (Some true) mailbox ts =
    Some (Ran s, mkCmdTx (queued tx ++ ConnectionUp peer writer accept ::
      (Received peer <$> messages bodies) ++ [ConnectionDown peer]) None) /\
    sealed (conn s) = sealed_before t ++ hello me ++ mails mailbox /\
    produced (conn s) = Io.sent (write_sock s) ++ outq (conn s).
Proof. apply tls_session_runs_whole. Qed.
End Whole.

(** ** The toy connection keeps the laws *)

#[export, refine] Instance null_TlsDuplex : TlsDuplex NullStream Null :=
  {| intact t := Io.tx (ns_tx t) = [] /\
       n_made (ns_conn t) = Io.sent (ns_tx t) ++ n_out (ns_conn t) |}.
Proof.
  - intros t c r w [H1 H2] E. cbn in E. by simplify_eq.
  - intros t n [H1 H2]. cbn [read null_Read]. unfold null_read.
    destruct (n_plain (ns_conn t)); [|done].
    destruct (script_read (ns_rx t) 8) as [r [[|x raw]|e]]; [done| |done].
    case_decide; [done|]. cbv zeta.
    destruct (text _); cbn; (split; [|done]); (split; [done|]); by rewrite H2, <- app_assoc.
  - intros t f t' [H1 H2]. unfold write_frame, write_all. cbn [write_fuel null_Write].
    destruct f as [|b f]; [intros; cbn in *; simplify_eq; by rewrite app_nil_r|].
    cbn [length Nat.add write_all_loop write null_Write]. rewrite drop_ge by done.
    intros E. assert (Some (t', Ok tt) = Some (mkStream (mkNull (n_in (ns_conn t)) (n_plain (ns_conn t)) []
      (n_made (ns_conn t) ++ b :: f) (n_said (ns_conn t) ++ b :: f)) (ns_rx t)
      (mkTcp (Io.rx (ns_tx t)) (Io.tx (ns_tx t)) (Io.sent (ns_tx t) ++ n_out (ns_conn t) ++ b :: f)), Ok ()))
      as E' by (rewrite <- E; by destruct (length f + 0)).
    injection E' as ->. cbn. rewrite H1, H2, app_nil_r, app_assoc. done.
Defined.

Lemma tls_session_whole_witness :
  exists s : Tls Null (list read_event) Tcp,
    tls_session at_noon at_noon at_noon at_noon at_noon tls_stream (mkCmdTx [] None)
      peer_id true true 1 2 (Some true) [Mail (data greeting); NoMail] schedule =
    Some (Ran s, mkCmdTx ([] ++ ConnectionUp peer_id 1 2 ::
      (Received peer_id <$> messages [T_DATA :: greeting]) ++ [ConnectionDown peer_id]) None) /\
    sealed (conn s) = sealed (ns_conn tls_stream) ++ hello peer_id ++ mails [Mail (data greeting); NoMail] /\
    produced (conn s) = Io.sent (write_sock s) ++ outq (conn s).
Proof.
  pose proof (tls_session_whole (C := Null) at_noon at_noon at_noon at_noon at_noon tls_stream
    (mkCmdTx [] None) peer_id peer_id true 1 2 [Mail (data greeting); NoMail] schedule
    [T_DATA :: greeting] []) as H. apply H.
  - intros i. reflexivity.
  - intros i. reflexivity.
  - reflexivity.
  - reflexivity.
  - apply (bool_decide_unpack _). vm_compute. exact I.
  - apply partial_nil.
  - split_and!; [|reflexivity| |vm_compute; reflexivity];
      apply (bool_decide_unpack _); vm_compute; exact I.
  - apply (bool_decide_unpack _). vm_compute. exact I.
  - by split.
  - apply (bool_decide_unpack _). vm_compute. exact I.
Defined.
