(* ===== verification/TlsLocks.v ===== *)
(** * TlsLocks: the two mutexes of a TLS session

    [Tls] runs a session in turns.  Here the turns are taken apart at every
    point where [tls_reader], [tls_writer] and [write_pending] of
    [rust-lib-sync/src/conn.rs] block: on the connection mutex, on the
    write-socket mutex, on the socket.  The steps of the two threads
    interleave freely, and a socket write takes some bytes at a time.  The
    theorems are the claims the module's header makes of this design. *)

From S2P Require Import Prelude Io WsFrame WsStream Upgrade Protocol Broker Conn ConnProps Tls.
From S2P Require Import TlsProps TlsNull.
From Stdlib Require Import Strings.Byte.

(** Where a thread is.  [Idle] is blocked on the outside: the reader in
    [read_sock.read], the writer in [writer_rx.recv_timeout]. *)
Inductive pc :=
| Idle
| WantDrain
| InDrain
| WantFeed (raw : bytes)
| InFeed (raw : bytes)
| Flush (needs_flush : bool)
| WantW (frame : option bytes)
| WantC (frame : option bytes)
| InExtract (frame : option bytes)
| Writing (cipher : bytes)
| Dead.

(** The points at which a thread holds the write-socket or the connection
    mutex. *)
Definition holds_w (p : pc) : bool :=
  match p with WantC _ | InExtract _ | Writing _ => true | _ => false end.

Definition holds_c (p : pc) : bool :=
  match p with InDrain | InFeed _ | InExtract _ => true | _ => false end.

#[export] Instance thread_eq_dec : EqDecision thread.
Proof. solve_decision. Defined.

Record Shared (C : Type) := mkShared {
  tls : C;
  wlock : option thread;
  clock : option thread;
  on_wire : bytes;
  broken : bool;
  pcs : thread -> pc;
}.
Arguments mkShared {C} _ _ _ _ _ _.
Arguments tls {C} _.
Arguments wlock {C} _.
Arguments clock {C} _.
Arguments on_wire {C} _.
Arguments broken {C} _.
Arguments pcs {C} _.

Definition upd (f : thread -> pc) (t : thread) (p : pc) : thread -> pc :=
  fun t' => if decide (t' = t) then p else f t'.

Section Locks.
Context {C : Type} `{!Connection C}.
Implicit Types s : Shared C.

Definition goto t p s := mkShared (tls s) (wlock s) (clock s) (on_wire s) (broken s) (upd (pcs s) t p).
Definition set_tls (c : C) s := mkShared c (wlock s) (clock s) (on_wire s) (broken s) (pcs s).
Definition set_wlock l s := mkShared (tls s) l (clock s) (on_wire s) (broken s) (pcs s).
Definition set_clock l s := mkShared (tls s) (wlock s) l (on_wire s) (broken s) (pcs s).
Definition put b s := mkShared (tls s) (wlock s) (clock s) (on_wire s ++ b) (broken s) (pcs s).
Definition break s := mkShared (tls s) (wlock s) (clock s) (on_wire s) true (pcs s).

(** Where a thread goes when its [write_pending] is done. *)
Definition after_write (t : thread) (ok : bool) : pc :=
  match t, ok with
  | Reader, _ => Idle
  | Writer, true => Idle
  | Writer, false => Dead
  end.

(** Work arrives from outside. *)
Inductive arrives : Shared C -> Shared C -> Prop :=
| arrives_raw s raw : pcs s Reader = Idle -> raw <> [] -> arrives s (goto Reader (WantFeed raw) s)
| arrives_eof s : pcs s Reader = Idle -> arrives s (goto Reader Dead s)
| arrives_mail s frame : pcs s Writer = Idle -> arrives s (goto Writer (WantW (Some frame)) s)
| arrives_hangup s : pcs s Writer = Idle -> arrives s (goto Writer Dead s).

(** One step of thread [t]. *)
Inductive step (t : thread) : Shared C -> Shared C -> Prop :=
| lock_drain s : pcs s t = WantDrain -> clock s = None ->
    step t s (goto t InDrain (set_clock (Some t) s))
| drain s c sink : pcs s t = InDrain -> drain_reader (tls s) [] = Some (c, sink) ->
    step t s (goto t (Flush (wants_write c)) (set_clock None (set_tls c s)))
| lock_feed s raw : pcs s t = WantFeed raw -> clock s = None ->
    step t s (goto t (InFeed raw) (set_clock (Some t) s))
| fed s raw c sink : pcs s t = InFeed raw -> feed (tls s) raw = Some (c, Some sink) ->
    step t s (goto t (Flush (wants_write c)) (set_clock None (set_tls c s)))
| fatal s raw c : pcs s t = InFeed raw -> feed (tls s) raw = Some (c, None) ->
    step t s (goto t Dead (set_clock None (set_tls c s)))
| flush_control s : pcs s t = Flush true -> step t s (goto t (WantW None) s)
| nothing_to_flush s : pcs s t = Flush false -> step t s (goto t Idle s)
| lock_socket s frame : pcs s t = WantW frame -> wlock s = None ->
    step t s (goto t (WantC frame) (set_wlock (Some t) s))
| lock_conn s frame : pcs s t = WantC frame -> clock s = None ->
    step t s (goto t (InExtract frame) (set_clock (Some t) s))
| extracted s frame c cipher : pcs s t = InExtract frame ->
    extract (tls s) frame = Some (c, cipher, Ok tt) ->
    step t s (goto t (Writing cipher) (set_clock None (set_tls c s)))
| extract_fails s frame c cipher e : pcs s t = InExtract frame ->
    extract (tls s) frame = Some (c, cipher, Err e) ->
    step t s (goto t (after_write t false) (set_wlock None (set_clock None (set_tls c s))))
| socket_takes s cipher k : pcs s t = Writing cipher -> broken s = false ->
    0 < k <= length cipher ->
    step t s (goto t (Writing (drop k cipher)) (put (take k cipher) s))
| socket_fails s cipher : pcs s t = Writing cipher -> cipher <> [] ->
    step t s (goto t (after_write t false) (set_wlock None (break s)))
| written s : pcs s t = Writing [] ->
    step t s (goto t (after_write t true) (set_wlock None s)).

Definition any_step s s' : Prop := arrives s s' \/ exists t, step t s s'.

(** A session as the threads start: nobody holds a lock. *)
Definition start (c : C) : Shared C :=
  mkShared c None None [] false (fun t => match t with Reader => WantDrain | Writer => Idle end).

(** ** The invariant *)

(** Extracted and not yet written. *)
Definition cipher_of (p : pc) : bytes := match p with Writing cipher => cipher | _ => [] end.

Definition unsent s : bytes := cipher_of (pcs s Reader) ++ cipher_of (pcs s Writer).

Record lock_inv (base : bytes) s : Prop := {
  li_w t : wlock s = Some t <-> holds_w (pcs s t) = true;
  li_c t : clock s = Some t <-> holds_c (pcs s t) = true;
  li_feed t raw : pcs s t = WantFeed raw \/ pcs s t = InFeed raw -> raw <> [];
  li_prefix : base ++ on_wire s `prefix_of` produced (tls s);
  li_order : broken s = false -> produced (tls s) = base ++ on_wire s ++ unsent s ++ outq (tls s);
}.

Lemma upd_same f t p : upd f t p t = p.
Proof. unfold upd. by rewrite decide_True. Qed.

Lemma upd_other f t t' p : t' <> t -> upd f t p t' = f t'.
Proof. intros H. unfold upd. by rewrite decide_False. Qed.

(** *** Ownership *)

(** [owned l h f]: the lock [l] is held by the thread at a point where [h]
    says so. *)
Definition owned (l : option thread) (h : pc -> bool) (f : thread -> pc) : Prop :=
  forall t, l = Some t <-> h (f t) = true.

Lemma owned_acquire h f t p : owned None h f -> h p = true -> owned (Some t) h (upd f t p).
Proof.
  intros Ho Hp t'. destruct (decide (t' = t)) as [->|Hn].
  - by rewrite upd_same.
  - rewrite upd_other by done. split; [by intros [= ->]|]. intros H. by apply Ho in H.
Qed.

Lemma owned_release l h f t p : owned l h f -> h (f t) = true -> h p = false -> owned None h (upd f t p).
Proof.
  intros Ho Ht Hp t'. destruct (decide (t' = t)) as [->|Hn].
  - by rewrite upd_same, Hp.
  - rewrite upd_other by done. split; [done|]. intros H. apply Ho in H, Ht. congruence.
Qed.

Lemma owned_keep l h f t p : owned l h f -> h p = h (f t) -> owned l h (upd f t p).
Proof.
  intros Ho Hp t'. destruct (decide (t' = t)) as [->|Hn].
  - by rewrite upd_same, Hp.
  - by rewrite upd_other.
Qed.

Lemma owned_unique l h f t t' : owned l h f -> h (f t) = true -> h (f t') = true -> t = t'.
Proof. intros Ho H H'. apply Ho in H, H'. congruence. Qed.

(** *** Unsent ciphertext *)

Lemma cipher_of_holds p : holds_w p = false -> cipher_of p = [].
Proof. by destruct p. Qed.

(** Only the holder of the write-socket mutex has any. *)
Lemma unsent_holder l s t : owned l holds_w (pcs s) -> holds_w (pcs s t) = true ->
  unsent s = cipher_of (pcs s t).
Proof.
  intros Ho Ht. assert (Hn : forall t', t' <> t -> cipher_of (pcs s t') = []).
  { intros t' Hne. apply cipher_of_holds. destruct (holds_w (pcs s t')) eqn:E; [|done].
    by destruct Hne, (owned_unique _ _ _ _ _ Ho E Ht). }
  unfold unsent. destruct t; [by rewrite (Hn Writer), app_nil_r|by rewrite (Hn Reader)].
Qed.

Lemma unsent_same s s' t p :
  pcs s' = upd (pcs s) t p -> cipher_of p = cipher_of (pcs s t) -> unsent s' = unsent s.
Proof.
  intros E Hp. unfold unsent. rewrite E. destruct t.
  - by rewrite upd_same, upd_other, Hp.
  - by rewrite upd_same, upd_other, Hp.
Qed.

Context `{!ConnectionLaws C}.

(** *** Every step keeps it *)

Lemma start_inv c base : produced c = base ++ outq c -> lock_inv base (start c).
Proof.
  intros H. split; cbn.
  - by intros [].
  - by intros [].
  - by intros [] raw [|].
  - rewrite app_nil_r, H. by apply prefix_app_r.
  - intros _. by rewrite H.
Qed.

(** A step of thread [t] that queues [ct] in the connection and leaves the
    wire alone. *)
Lemma queue_inv base s s' t p ct :
  lock_inv base s -> pcs s' = upd (pcs s) t p ->
  owned (wlock s') holds_w (pcs s') -> owned (clock s') holds_c (pcs s') ->
  (forall raw, p = WantFeed raw \/ p = InFeed raw -> raw <> []) ->
  on_wire s' = on_wire s -> broken s' = broken s ->
  makes (tls s) (tls s') ct -> cipher_of p = cipher_of (pcs s t) -> lock_inv base s'.
Proof.
  intros [Hw Hc Hf Hpre Ho] Hp Hw' Hc' Hf' Hon Hbr [M1 M2] Hci. split; [done|done| | |].
  - intros t' raw. rewrite Hp. destruct (decide (t' = t)) as [->|Hn].
    + rewrite upd_same. apply Hf'.
    + rewrite upd_other by done. apply Hf.
  - rewrite Hon, M2. by apply prefix_app_r.
  - rewrite Hbr, Hon, M1, M2. intros Hb. rewrite (unsent_same s s' t p), (Ho Hb) by done.
    by rewrite <- !app_assoc.
Qed.

Lemma arrives_inv base s s' : arrives s s' -> lock_inv base s -> lock_inv base s'.
Proof.
  intros Ha HI. pose proof HI as [Hw Hc _ _ _].
  destruct Ha as [s raw Hp Hr|s Hp|s frame Hp|s Hp];
    (eapply queue_inv; [exact HI|done|apply owned_keep; [done|by rewrite Hp]..| |done|done|
      apply makes_refl|by rewrite Hp]); intros ? [[=]|[=]]; by subst.
Qed.

Lemma extracted_inv base s s' t frame c cipher :
  lock_inv base s -> pcs s t = InExtract frame -> extract (tls s) frame = Some (c, cipher, Ok tt) ->
  s' = goto t (Writing cipher) (set_clock None (set_tls c s)) -> lock_inv base s'.
Proof.
  intros [Hw Hc Hf Hpre Ho] Hp E ->.
  destruct (extract_spec (tls s) frame) as (c' & ct & E' & Hout & Hprod & _). rewrite E' in E. simplify_eq.
  assert (Hw' : owned (wlock s) holds_w (upd (pcs s) t (Writing (outq (tls s) ++ ct))))
    by (apply owned_keep; [done|by rewrite Hp]).
  split; cbn.
  - exact Hw'.
  - eapply owned_release; [done|by rewrite Hp|done].
  - intros t' raw. destruct (decide (t' = t)) as [->|Hn].
    + rewrite upd_same. by intros [|].
    + rewrite upd_other by done. apply Hf.
  - rewrite Hprod. by apply prefix_app_r.
  - intros Hb. rewrite Hprod, Hout, app_nil_r, (Ho Hb).
    rewrite (unsent_holder (wlock s) s t), Hp by (done || by rewrite Hp).
    rewrite (unsent_holder (wlock s) _ t); cbn; rewrite ?upd_same; [|done..].
    cbn. by rewrite <- !app_assoc.
Qed.

Lemma socket_takes_inv base s t cipher k :
  lock_inv base s -> pcs s t = Writing cipher -> broken s = false -> 0 < k <= length cipher ->
  lock_inv base (goto t (Writing (drop k cipher)) (put (take k cipher) s)).
Proof.
  intros [Hw Hc Hf Hpre Ho] Hp Hb Hk.
  assert (Hu : unsent s = cipher) by (rewrite (unsent_holder (wlock s) s t), Hp; by rewrite ?Hp).
  assert (Hw' : owned (wlock s) holds_w (upd (pcs s) t (Writing (drop k cipher))))
    by (apply owned_keep; [done|by rewrite Hp]).
  assert (E : base ++ (on_wire s ++ take k cipher) ++ drop k cipher ++ outq (tls s) = produced (tls s)).
  { rewrite (Ho Hb), Hu. rewrite <- app_assoc, (app_assoc (take k cipher)), take_drop. done. }
  split; cbn.
  - exact Hw'.
  - apply owned_keep; [done|by rewrite Hp].
  - intros t' raw. destruct (decide (t' = t)) as [->|Hn].
    + rewrite upd_same. by intros [|].
    + rewrite upd_other by done. apply Hf.
  - rewrite <- E. eexists. by rewrite <- !app_assoc.
  - intros _. rewrite (unsent_holder (wlock s) _ t); cbn; rewrite ?upd_same; [|done..]. by rewrite <- E.
Qed.

Lemma release_inv base s s' t (ok : bool) (b : bool) :
  lock_inv base s -> holds_w (pcs s t) = true -> holds_c (pcs s t) = false ->
  cipher_of (pcs s t) = [] \/ b = true ->
  s' = goto t (after_write t ok) (set_wlock None (if b then break s else s)) -> lock_inv base s'.
Proof.
  intros [Hw Hc Hf Hpre Ho] Hh Hn Hb ->.
  assert (Hp : holds_w (after_write t ok) = false /\ holds_c (after_write t ok) = false /\
    cipher_of (after_write t ok) = [] /\
    forall raw, ~ (after_write t ok = WantFeed raw \/ after_write t ok = InFeed raw)).
  { by destruct t, ok; split_and!; try done; intros ? [|]. }
  destruct Hp as (P1 & P2 & P3 & P4).
  destruct b; (split; cbn; [by eapply owned_release|by apply owned_keep; [|congruence]| | |]);
    try (intros t' raw; destruct (decide (t' = t)) as [->|Hne];
         [rewrite upd_same; intros H; by destruct (P4 raw)|rewrite upd_other by done; apply Hf]);
    try done.
  intros Hbr. destruct Hb as [Hci|]; [|done]. rewrite (Ho Hbr).
  rewrite (unsent_same s (goto t (after_write t ok) (set_wlock None s)) t (after_write t ok)) by (done || congruence). done.
Qed.

(** The obligations of [queue_inv] for one rule. *)
Ltac ownership Hp Hl :=
  unfold goto, set_clock, set_wlock, set_tls; cbn [pcs wlock clock];
  first [ apply owned_keep; [done|by rewrite Hp]
        | apply owned_acquire; [by rewrite <- Hl|done]
        | eapply owned_release; [done|by rewrite Hp|done] ].

Ltac queued HI Hp Hl :=
  eapply queue_inv;
    [exact HI|reflexivity|ownership Hp Hl|ownership Hp Hl|by intros ? [|]|done|done
    |try apply makes_refl; try done|by rewrite Hp].

Lemma step_inv base t s s' : step t s s' -> lock_inv base s -> lock_inv base s'.
Proof.
  intros Hs HI. pose proof HI as [Hw Hc Hf _ _].
  destruct Hs as [s Hp Hl|s c sink Hp E|s raw Hp Hl|s raw c sink Hp E|s raw c Hp E|s Hp|s Hp
    |s frame Hp Hl|s frame Hp Hl|s frame c cipher Hp E|s frame c cipher e Hp E|s cipher k Hp Hb Hk
    |s cipher Hp Hne|s Hp].
  - queued HI Hp Hl.
  - destruct (drain_reader_spec (tls s) []) as (c' & E' & [_ _ _ _ (ct & Hm & _)]).
    rewrite E in E'. simplify_eq. queued HI Hp E.
  - eapply queue_inv; [exact HI|reflexivity|ownership Hp Hl|ownership Hp Hl| |done|done
      |apply makes_refl|by rewrite Hp].
    intros ? [[=]|[=]]; subst. apply (Hf t). by left.
  - destruct (feed_spec (tls s) raw) as (c' & out & E' & (ct & Hm & _) & _); [apply (Hf t); by right|].
    rewrite E in E'. simplify_eq. queued HI Hp E.
  - destruct (feed_spec (tls s) raw) as (c' & out & E' & (ct & Hm & _) & _); [apply (Hf t); by right|].
    rewrite E in E'. simplify_eq. queued HI Hp E.
  - queued HI Hp Hp.
  - queued HI Hp Hp.
  - queued HI Hp Hl.
  - queued HI Hp Hl.
  - by eapply extracted_inv.
  - destruct (extract_spec (tls s) frame) as (c' & ct & E' & _). congruence.
  - by apply socket_takes_inv.
  - eapply (release_inv base s _ t false true); try done; rewrite ?Hp; try done. by right.
  - eapply (release_inv base s _ t true false); try done; rewrite ?Hp; try done. by left.
Qed.

Lemma reachable_inv base c s :
  produced c = base ++ outq c -> rtc any_step (start c) s -> lock_inv base s.
Proof.
  intros Hc Hr. apply (start_inv c base) in Hc. revert Hc. induction Hr as [|s1 s2 s3 H Hr IH]; [done|].
  intros HI. apply IH. destruct H as [H|[t H]]; [by eapply arrives_inv|by eapply step_inv].
Qed.

(** ** Progress *)

Definition at_rest (p : pc) : Prop := p = Idle \/ p = Dead.

#[local] Instance at_rest_dec p : Decision (at_rest p).
Proof. destruct p; first [by left; left|by left; right|by right; intros [|]]. Defined.

(** The holder of the connection mutex gives it back, whatever the socket
    and the other thread do. *)
Lemma conn_holder_steps base s t :
  lock_inv base s -> clock s = Some t ->
  exists s', step t s s' /\ clock s' = None /\ on_wire s' = on_wire s.
Proof.
  intros [Hw Hc Hf _ _] Hl. apply Hc in Hl. destruct (pcs s t) as [| | |raw|raw| | | |frame| |] eqn:Hp;
    try done.
  - destruct (drain_reader_spec (tls s) []) as (c & E & _). eexists. by split; [eapply drain|].
  - destruct (feed_spec (tls s) raw) as (c & [sink|] & E & _); [apply (Hf t); by right|..];
      eexists; (split; [first [by eapply fed|by eapply fatal]|done]).
  - destruct (extract_spec (tls s) frame) as (c & ct & E & _). eexists. by split; [eapply extracted|].
Qed.

(** Nobody waits for ever: while a thread has work, some thread can step. *)
Lemma somebody_steps base s t :
  lock_inv base s -> ~ at_rest (pcs s t) -> exists t' s', step t' s s'.
Proof.
  intros HI Hr. pose proof HI as [Hw Hc _ _ _].
  assert (Hconn : forall frame t', pcs s t' = WantC frame -> exists t' s', step t' s s').
  { intros frame t' Hp. destruct (clock s) as [h|] eqn:Hl.
    - destruct (conn_holder_steps base s h HI Hl) as (s' & Hs & _). eauto.
    - eexists t', _. by eapply lock_conn. }
  assert (Hwrite : forall cipher t', pcs s t' = Writing cipher -> exists t' s', step t' s s').
  { intros [|b cipher] t' Hp; eexists t', _; [by eapply written|].
    by eapply socket_fails; [exact Hp|]. }
  assert (Hholder : forall t', clock s = Some t' -> exists t' s', step t' s s').
  { intros t' Hl. destruct (conn_holder_steps base s t' HI Hl) as (s' & Hs & _). eauto. }
  destruct (pcs s t) as [| | |raw|raw|[]|frame|frame|frame|cipher|] eqn:Hp.
  - by destruct Hr; left.
  - destruct (clock s) as [h|] eqn:Hl; [by eapply Hholder|]. eexists t, _. by apply lock_drain.
  - apply (Hholder t). apply Hc. by rewrite Hp.
  - destruct (clock s) as [h|] eqn:Hl; [by eapply Hholder|]. eexists t, _. by eapply lock_feed.
  - apply (Hholder t). apply Hc. by rewrite Hp.
  - eexists t, _. by apply flush_control.
  - eexists t, _. by apply nothing_to_flush.
  - destruct (wlock s) as [h|] eqn:Hl; [|eexists t, _; by eapply lock_socket].
    assert (Hh : holds_w (pcs s h) = true) by by apply Hw.
    destruct (pcs s h) as [| | | | | | |fr|fr|ci|] eqn:Hph; try done; [by eapply Hconn| |by eapply Hwrite].
    apply (Hholder h). apply Hc. by rewrite Hph.
  - by eapply Hconn.
  - apply (Hholder t). apply Hc. by rewrite Hp.
  - by eapply Hwrite.
  - by destruct Hr; right.
Qed.

(** How far a thread is from rest. *)
Definition stage (p : pc) : nat :=
  match p with
  | WantDrain | WantFeed _ => 8
  | InDrain | InFeed _ => 7
  | Flush _ => 6
  | WantW _ => 5
  | WantC _ => 4
  | InExtract _ => 3
  | Writing _ => 2
  | Idle | Dead => 0
  end.

Definition rank s : nat := stage (pcs s Reader) + stage (pcs s Writer).

Lemma rank_goto t p s : rank (goto t p s) + stage (pcs s t) = rank s + stage p.
Proof.
  unfold rank, goto. cbn. destruct t; rewrite upd_same, upd_other by done; lia.
Qed.

Lemma rank_locks (s s' : Shared C) : pcs s' = pcs s -> rank s' = rank s.
Proof. intros H. unfold rank. by rewrite H. Qed.

Lemma unsent_goto_length t p s :
  length (unsent (goto t p s)) + length (cipher_of (pcs s t)) =
  length (unsent s) + length (cipher_of p).
Proof.
  unfold unsent, goto. cbn. destruct t; rewrite upd_same, upd_other, !length_app by done; lia.
Qed.

Lemma step_ranks t s s' :
  step t s s' -> rank s' < rank s \/ (rank s' = rank s /\ length (unsent s') < length (unsent s)).
Proof.
  intros Hs. assert (Hlow : forall s0 p, pcs s0 = pcs s -> stage p < stage (pcs s t) ->
    s' = goto t p s0 -> rank s' < rank s).
  { intros s0 p E Hp ->. pose proof (rank_goto t p s0) as H. rewrite E in H.
    rewrite (rank_locks s s0) in H by done. lia. }
  destruct Hs as [s Hp Hl|s c sink Hp E|s raw Hp Hl|s raw c sink Hp E|s raw c Hp E|s Hp|s Hp
    |s frame Hp Hl|s frame Hp Hl|s frame c cipher Hp E|s frame c cipher e Hp E|s cipher k Hp Hb Hk
    |s cipher Hp Hne|s Hp];
    try (left; eapply Hlow; [|rewrite Hp|reflexivity]; [done|cbn; lia]);
    try (left; eapply Hlow; [|rewrite Hp|reflexivity]; [done|destruct t; cbn; lia]).
  right. pose proof (rank_goto t (Writing (drop k cipher)) (put (take k cipher) s)) as H1.
  pose proof (unsent_goto_length t (Writing (drop k cipher)) (put (take k cipher) s)) as H2.
  change (pcs (put (take k cipher) s) t) with (pcs s t) in *. rewrite Hp in *. cbn in H1.
  change (rank (put (take k cipher) s)) with (rank s) in H1.
  change (unsent (put (take k cipher) s)) with (unsent s) in H2. cbn [cipher_of] in H2.
  rewrite length_drop in H2. split; lia.
Qed.

Lemma steps_terminate s : Acc (fun s' s => exists t, step t s s') s.
Proof.
  remember (rank s) as n eqn:Hn. revert s Hn. induction (lt_wf n) as [n _ IHn]. intros s Hn.
  remember (length (unsent s)) as m eqn:Hm. revert s Hn Hm.
  induction (lt_wf m) as [m _ IHm]. intros s Hn Hm. constructor. intros s' [t Hs].
  apply step_ranks in Hs as [H|[H1 H2]].
  - eapply IHn; [|reflexivity]. lia.
  - eapply IHm; [| |reflexivity]; lia.
Qed.

(** ** Theorems *)

(** C15: Records never reorder on the wire.  However the reader and the writer
    interleave, however few bytes the socket takes at a time and wherever it
    fails, what is on the wire is a prefix of the ciphertext in the order it
    was encrypted; while the socket works, the rest is what the holder of the
    write-socket mutex has extracted and what rustls still queues, and when
    nobody holds the mutex nothing is in between. *)
Theorem records_in_order base c s :
  produced c = base ++ outq c -> rtc any_step (start c) s ->
  base ++ on_wire s `prefix_of` produced (tls s) /\
  (broken s = false ->
    produced (tls s) = base ++ on_wire s ++ unsent s ++ outq (tls s) /\
    (wlock s = None -> unsent s = [])).
Proof.
  intros Hc Hr. destruct (reachable_inv base c s Hc Hr) as [Hw _ _ Hpre Ho].
  split; [done|]. intros Hb. split; [by apply Ho|]. intros Hn. unfold unsent.
  rewrite !cipher_of_holds; [done|..]; apply not_true_is_false; intros H; apply Hw in H; congruence.
Qed.

(** The connection mutex is never held across a blocking call.  Whoever
    holds it is inside one of the three crypto sections, alone, and its next
    step releases it without waiting for the socket or for the other thread,
    so a backpressured write cannot keep the reader from decrypting what it
    has read. *)
Theorem conn_lock_is_prompt base c s t :
  produced c = base ++ outq c -> rtc any_step (start c) s -> clock s = Some t ->
  (forall t', holds_c (pcs s t') = true <-> t' = t) /\
  (forall cipher, pcs s t <> Writing cipher) /\
  exists s', step t s s' /\ clock s' = None /\ on_wire s' = on_wire s.
Proof.
  intros Hc Hr Hl. pose proof (reachable_inv base c s Hc Hr) as HI. pose proof HI as [_ Hco _ _ _].
  split_and!.
  - intros t'. rewrite <- (Hco t'), Hl. split; [by intros [= ->]|by intros ->].
  - intros cipher Hp. apply Hco in Hl. by rewrite Hp in Hl.
  - by eapply conn_holder_steps.
Qed.

(** C16: The two mutexes cannot deadlock, and every request is served.  From
    every state a session can reach, no sequence of steps goes on for ever
    without new work from outside, whatever the scheduler does; and it can
    only stop when both threads are back in their blocking calls or have
    ended, with both mutexes free. *)
Theorem locks_never_deadlock base c s :
  produced c = base ++ outq c -> rtc any_step (start c) s ->
  Acc (fun s' s => exists t, step t s s') s /\
  ((forall t s', ~ step t s s') ->
    (forall t, at_rest (pcs s t)) /\ wlock s = None /\ clock s = None).
Proof.
  intros Hc Hr. pose proof (reachable_inv base c s Hc Hr) as HI. split; [apply steps_terminate|].
  intros Hstuck. assert (Hrest : forall t, at_rest (pcs s t)).
  { intros t. destruct (decide (at_rest (pcs s t))) as [|Hn]; [done|].
    destruct (somebody_steps base s t HI Hn) as (t' & s' & Hs). by destruct (Hstuck t' s'). }
  pose proof HI as [Hw Hco _ _ _]. split_and!; [done|..].
  - destruct (wlock s) as [t|] eqn:E; [|done]. assert (H : holds_w (pcs s t) = true) by by apply Hw.
    destruct (Hrest t) as [Hp|Hp]; by rewrite Hp in H.
  - destruct (clock s) as [t|] eqn:E; [|done]. assert (H : holds_c (pcs s t) = true) by by apply Hco.
    destruct (Hrest t) as [Hp|Hp]; by rewrite Hp in H.
Qed.
End Locks.

(** ** A run *)

(** The writer is in the middle of a socket write, and the reader has been
    told to answer a key update. *)
Definition stalled (s : Shared Null) : Prop :=
  pcs s Reader = WantW None /\ wlock s = Some Writer /\ clock s = None /\ broken s = false /\
  on_wire s = take 3 heartbeat /\ pcs s Writer = Writing (drop 3 heartbeat).

(** The states on the way: the reader finds nothing to drain and goes to its
    read; the writer gets a heartbeat to send, takes both mutexes, extracts
    it and writes three bytes of it; the reader reads a key update. *)
Definition run0 : Shared Null := start fresh.
Definition run1 := goto Reader InDrain (set_clock (Some Reader) run0).
Definition run2 := goto Reader (Flush false) (set_clock None (set_tls fresh run1)).
Definition run3 := goto Reader Idle run2.
Definition run4 := goto Writer (WantW (Some heartbeat)) run3.
Definition run5 := goto Reader (WantFeed [KEY_UPDATE]) run4.
Definition run6 := goto Writer (WantC (Some heartbeat)) (set_wlock (Some Writer) run5).
Definition run7 := goto Writer (InExtract (Some heartbeat)) (set_clock (Some Writer) run6).
Definition run8 := goto Writer (Writing heartbeat)
  (set_clock None (set_tls (mkNull [] [] [] heartbeat heartbeat) run7)).
Definition run9 := goto Writer (Writing (drop 3 heartbeat)) (put (take 3 heartbeat) run8).
Definition run10 := goto Reader (InFeed [KEY_UPDATE]) (set_clock (Some Reader) run9).
Definition run11 := goto Reader (Flush true) (set_clock None
  (set_tls (mkNull [] [] [KEY_UPDATE] (heartbeat ++ [KEY_UPDATE]) heartbeat) run10)).
Definition run12 := goto Reader (WantW None) run11.

Tactic Notation "go" constr(t) uconstr(H) := right; exists t; refine H; vm_compute; reflexivity.

Lemma stalled_reachable : exists s, rtc any_step (start fresh) s /\ stalled s.
Proof.
  exists run12. split; [|by split_and!].
  apply (rtc_l _ run0 run1); [go Reader (lock_drain Reader run0 _ _)|].
  apply (rtc_l _ run1 run2); [go Reader (drain Reader run1 fresh [] _ _)|].
  apply (rtc_l _ run2 run3); [go Reader (nothing_to_flush Reader run2 _)|].
  apply (rtc_l _ run3 run4); [left; by apply arrives_mail|].
  apply (rtc_l _ run4 run5); [left; by apply arrives_raw|].
  apply (rtc_l _ run5 run6); [go Writer (lock_socket Writer run5 _ _ _)|].
  apply (rtc_l _ run6 run7); [go Writer (lock_conn Writer run6 _ _ _)|].
  apply (rtc_l _ run7 run8); [go Writer (extracted Writer run7 (Some heartbeat) _ _ _ _)|].
  apply (rtc_l _ run8 run9).
  { right. exists Writer. apply (socket_takes Writer run8 heartbeat 3); [reflexivity|reflexivity|].
    apply (bool_decide_unpack _). vm_compute. exact I. }
  apply (rtc_l _ run9 run10); [go Reader (lock_feed Reader run9 _ _ _)|].
  apply (rtc_l _ run10 run11); [go Reader (fed Reader run10 [KEY_UPDATE] _ [] _ _)|].
  apply (rtc_l _ run11 run12); [go Reader (flush_control Reader run11 _)|].
  apply rtc_refl.
Qed.

(** A reader with a control record to send waits for the socket.  From a
    state the session can reach, and for as long as the socket takes nothing
    of what the writer is writing, the reader stays at the write-socket mutex
    and reads and decrypts nothing, whatever else happens. *)
Theorem control_flush_waits_for_socket :
  exists s, rtc any_step (start fresh) s /\ stalled s /\
    forall s', rtc (fun a b => any_step a b /\ on_wire b = on_wire a /\ broken b = false) s s' ->
      pcs s' Reader = WantW None.
Proof.
  destruct stalled_reachable as (s & Hr & Hs). exists s. split_and!; [done|done|].
  intros s' Hrun. enough (stalled s') as [? _] by done. clear Hr.
  induction Hrun as [|s1 s2 s3 (Hstep & Hw & Hb) Hrun IH]; [done|]. apply IH. clear IH Hrun.
  destruct Hs as (H1 & H2 & H3 & H4 & H5 & H6). exfalso.
  destruct Hstep as [Ha|[[|] Hstep]].
  - destruct Ha; congruence.
  - destruct Hstep; simplify_eq; congruence.
  - destruct Hstep as [| | | | | | | | | | |s cipher k Hp Hbr Hk|s cipher Hp Hne|s Hp]; try congruence.
    + cbn [on_wire goto put] in Hw. apply (f_equal length) in Hw.
      rewrite length_app, length_take in Hw. lia.
    + done.
    + by rewrite Hp in H6.
Qed.

Lemma fresh_produced : produced fresh = [] ++ outq fresh.
Proof. reflexivity. Qed.

Lemma records_in_order_witness :
  exists s, rtc any_step (start fresh) s /\ stalled s /\
    [] ++ on_wire s `prefix_of` produced (tls s) /\
    (broken s = false ->
      produced (tls s) = [] ++ on_wire s ++ unsent s ++ outq (tls s) /\
      (wlock s = None -> unsent s = [])).
Proof.
  destruct stalled_reachable as (s & Hr & Hs). exists s. split_and!; [exact Hr|exact Hs|..];
    apply (records_in_order [] fresh s fresh_produced Hr).
Defined.

Lemma conn_lock_is_prompt_witness :
  exists s, clock s = Some Reader /\
    (forall t', holds_c (pcs s t') = true <-> t' = Reader) /\
    (forall cipher, pcs s Reader <> Writing cipher) /\
    exists s', step Reader s s' /\ clock s' = None /\ on_wire s' = on_wire s.
Proof.
  exists (goto Reader InDrain (set_clock (Some Reader) (start fresh))). split; [reflexivity|].
  apply (conn_lock_is_prompt [] fresh _ Reader fresh_produced); [|reflexivity].
  eapply rtc_l; [|apply rtc_refl]. right. exists Reader. by apply lock_drain.
Defined.

Lemma locks_never_deadlock_witness :
  exists s, rtc any_step (start fresh) s /\ stalled s /\
    Acc (fun s' s => exists t, step t s s') s /\
    ((forall t s', ~ step t s s') ->
      (forall t, at_rest (pcs s t)) /\ wlock s = None /\ clock s = None).
Proof.
  destruct stalled_reachable as (s & Hr & Hs). exists s. split_and!; [exact Hr|exact Hs|..];
    apply (locks_never_deadlock [] fresh s fresh_produced Hr).
Defined.
