(* ===== verification/Loops.v ===== *)
(** * Loops: accepting, connecting and reconnecting, synchronous crate

    Models [handle_connection], [accept_loop], [connect_loop] and
    [sleep_with_shutdown] of [rust-lib-sync/src/conn.rs].  What the operating
    system does, the accepted and dialled connections and the readings of the
    shutdown flag, is a list of rounds; a session inside a round is one of
    [Conn] or [Tls].  The threads an accept loop spawns are the jobs it
    returns. *)

From S2P Require Import Prelude Io WsFrame WsStream Upgrade Protocol Broker Conn ConnProps Tls.
From S2P Require Import TlsProps TlsNull.
From Stdlib Require Import Strings.Byte.

Definition CONNECT_TIMEOUT : Z := 1000000000.
Definition ACCEPT_POLL : Z := 50000000.
Definition NAP : Z := 20000000.

Section Wrap.
Context {ServerConfig ClientConfig ServerName : Type}.

Inductive Acceptor :=
| AcceptPlain
| AcceptTls (cfg : ServerConfig).

Inductive Connector :=
| ConnectPlain
| ConnectTls (cfg : ClientConfig) (name : ServerName).

Inductive Wrap :=
| Plain
| TlsServer (cfg : ServerConfig)
| TlsClient (cfg : ClientConfig) (name : ServerName).

Definition wrap_accept (a : Acceptor) : Wrap :=
  match a with AcceptPlain => Plain | AcceptTls cfg => TlsServer cfg end.

Definition wrap_connect (c : Connector) : Wrap :=
  match c with ConnectPlain => Plain | ConnectTls cfg name => TlsClient cfg name end.
End Wrap.
Arguments Acceptor : clear implicits.
Arguments Connector : clear implicits.
Arguments Wrap : clear implicits.

(** What a session meets outside: the clock's readings at each of its loops,
    the results of [try_clone], the channels it makes and the broker's answer,
    the frames the broker queues and the schedule of a TLS session's threads. *)
Record Env (W : Type) := mkEnv {
  now_peek : nat -> Z;
  now : nat -> Z;
  now_ws : nat -> Z;
  now_up : nat -> Z;
  now_hello : nat -> Z;
  write_clone : option W;
  tls_clones : bool;
  writer_ch : Sender;
  accept_ch : Sender;
  verdict : option bool;
  outbound : Mailbox;
  scheduled : list thread;
}.
Arguments mkEnv {W} _ _ _ _ _ _ _ _ _ _ _ _.
Arguments now_peek {W} _ _.
Arguments now {W} _ _.
Arguments now_ws {W} _ _.
Arguments now_up {W} _ _.
Arguments now_hello {W} _ _.
Arguments write_clone {W} _.
Arguments tls_clones {W} _.
Arguments writer_ch {W} _.
Arguments accept_ch {W} _.
Arguments verdict {W} _.
Arguments outbound {W} _.
Arguments scheduled {W} _.

Section Handle.
Context {S C R W T : Type} `{!Read S, !Write S, !Peek S, !Write W}.
Context `{!Connection C, !Read R, !Read T, !Write T, !StreamOwned T C R W}.
Context {ServerConfig ClientConfig ServerName : Type}.
(** [ServerConnection::new], [ClientConnection::new] and [StreamOwned::new]. *)
Context (server_connection : ServerConfig -> option C).
Context (client_connection : ClientConfig -> ServerName -> option C).
Context (stream_owned : C -> S -> T).

(** [reg_clone] is the result of the [try_clone] for the registry. *)
Definition handle_connection (raw : S) (wrap : Wrap ServerConfig ClientConfig ServerName)
    (tx : CmdTx) (identity : Identity) (registry : Registry.Registry S) (sniff : bool)
    (reg_clone : option S) (env : Env W) : option (CmdTx * Registry.Registry S) :=
  match reg_clone with
  | None => Some (tx, registry)
  | Some s =>
    let '(registry, reg_id) := Registry.register registry s in
    let tls (conn : option C) (sniff : bool) :=
      match conn with
      | None => Some tx
      | Some conn =>
        '(_, tx) ← tls_session (C := C) (R := R) (W := W) (now_peek env) (now env) (now_ws env)
          (now_up env) (now_hello env) (stream_owned conn raw) tx identity sniff (tls_clones env)
          (writer_ch env) (accept_ch env) (verdict env) (outbound env) (scheduled env);
        Some tx
      end in
    tx ← match wrap with
         | Plain =>
           '(_, _, tx) ← plain_or_ws_session (now env) (now_peek env) (now_up env) (now_hello env) raw
             (write_clone env) tx identity sniff (writer_ch env) (accept_ch env) (verdict env)
             (outbound env);
           Some tx
         | TlsServer cfg => tls (server_connection cfg) sniff
         | TlsClient cfg name => tls (client_connection cfg name) false
         end;
    Some (tx, Registry.deregister registry reg_id)
  end.

(** ** [accept_loop] *)

(** A handler thread: its connection, wrapped, and whether it sniffs. *)
Definition job : Type := S * Wrap ServerConfig ClientConfig ServerName * bool.

(** A round is the reading of the shutdown flag and what [accept] gives when
    it is not set.  The result is the handlers, and whether the loop has been left (and
    joins them); both kinds of [Err] sleep for [ACCEPT_POLL] and go on. *)
Fixpoint accept_loop (acceptor : Acceptor ServerConfig) (rounds : list (bool * io_result S))
    (handlers : list job) : list job * bool :=
  match rounds with
  | [] => (handlers, false)
  | (shutdown, r) :: rounds =>
    if shutdown : bool then (handlers, true)
    else
      match r with
      | Ok stream =>
        accept_loop acceptor rounds (handlers ++ [(stream, wrap_accept acceptor, true)])
      | Err WouldBlock => accept_loop acceptor rounds handlers
      | Err _ => accept_loop acceptor rounds handlers
      end
  end.

(** ** [connect_loop] *)

Record connect_round := mkRound {
  shutdown_before : bool;
  dialled : option (S * option S * Env W);
  shutdown_after : bool;
}.

(** The commands, the registry, and whether the loop has been left. *)
Fixpoint connect_loop (connector : Connector ClientConfig ServerName) (tx : CmdTx)
    (identity : Identity) (registry : Registry.Registry S) (rounds : list connect_round)
  : option (CmdTx * Registry.Registry S * bool) :=
  match rounds with
  | [] => Some (tx, registry, false)
  | r :: rounds =>
    if shutdown_before r then Some (tx, registry, true)
    else
      '(tx, registry) ←
        match dialled r with
        | Some (stream, clone, env) =>
          handle_connection stream (wrap_connect connector) tx identity registry false clone env
        | None => Some (tx, registry)
        end;
      if shutdown_after r then Some (tx, registry, true)
      else connect_loop connector tx identity registry rounds
  end.
End Handle.

(** ** [sleep_with_shutdown] *)

(** [elapsed k] and [flag k] are the [k]-th readings of the time since the
    start and of the shutdown flag; between two of them the thread naps.  The
    result is how many naps it took. *)
Fixpoint sleep_loop (fuel : nat) (elapsed : nat -> Z) (flag : nat -> bool) (total : Z) (k : nat)
  : option nat :=
  match fuel with
  | O => None
  | S fuel =>
    if decide (elapsed k < total)%Z then
      if flag k then Some k else sleep_loop fuel elapsed flag total (S k)
    else Some k
  end.

Definition sleep_with_shutdown (elapsed : nat -> Z) (flag : nat -> bool) (total : Z) : option nat :=
  sleep_loop (2 + Z.to_nat (total / NAP)) elapsed flag total 0.

(** ** Theorems *)

Section Sleep.
Context (elapsed : nat -> Z) (flag : nat -> bool) (total late : Z).
(** A nap takes at least its time, and is over [late] after it at most. *)
Context (Hnap : forall k, (elapsed k + NAP <= elapsed (S k) <= elapsed k + NAP + late)%Z).
Context (Hstart : (0 <= elapsed 0)%Z).

Lemma elapsed_naps k : (Z.of_nat k * NAP <= elapsed k)%Z.
Proof.
  induction k as [|k IH]; [done|]. specialize (Hnap k). rewrite Nat2Z.inj_succ. lia.
Qed.

Lemma sleep_loop_spec fuel k :
  (total < Z.of_nat (fuel + k - 1) * NAP)%Z -> 0 < fuel ->
  exists j, sleep_loop fuel elapsed flag total k = Some j /\ k <= j /\
    ((total <= elapsed j)%Z \/ flag j = true) /\
    forall i, k <= i < j -> flag i = false /\ (elapsed i < total)%Z.
Proof.
  revert k. induction fuel as [|fuel IH]; intros k Hf Hpos; [lia|]. cbn [sleep_loop].
  destruct (decide (elapsed k < total)%Z) as [Hlt|Hge].
  - destruct (flag k) eqn:Hfl; [exists k; split_and!; [done|done|by right|lia]|].
    destruct fuel as [|fuel].
    { pose proof (elapsed_naps k). replace (1 + k - 1) with k in Hf by lia. lia. }
    destruct (IH (S k)) as (j & -> & Hj & Hend & Hbefore); [|lia|].
    { replace (S fuel + S k - 1) with (S (S fuel) + k - 1) by lia. done. }
    exists j. split_and!; [done|lia|done|]. intros i Hi.
    destruct (decide (i = k)) as [->|]; [done|]. apply Hbefore. lia.
  - exists k. split_and!; [done|done|left; lia|lia].
Qed.

(** The wait between two connection attempts ends.  With naps of 20 ms
    that are late by [late] at most, [sleep_with_shutdown] returns after at
    most one nap more than fit into the delay; it returns only when the delay
    is over or the shutdown flag is set, never sleeps past a reading that
    showed either, and so overshoots both the delay and a shutdown by no more
    than one nap. *)
Theorem reconnect_delay_bounded :
  exists j, sleep_with_shutdown elapsed flag total = Some j /\
    ((total <= elapsed j)%Z \/ flag j = true) /\
    (forall i, i < j -> flag i = false /\ (elapsed i < total)%Z) /\
    (0 < j -> (elapsed j < total + NAP + late)%Z) /\
    (Z.of_nat j <= Z.max 0 (total / NAP) + 1)%Z.
Proof.
  destruct (sleep_loop_spec (2 + Z.to_nat (total / NAP)) 0) as (j & E & _ & Hend & Hbefore).
  { pose proof (Z.mod_pos_bound total NAP ltac:(done)).
    pose proof (Z.div_mod total NAP ltac:(done)). unfold NAP in *. lia. }
  { lia. }
  exists j. split_and!; [exact E|exact Hend|intros i Hi; apply Hbefore; lia| |].
  - intros Hj. destruct j as [|j]; [lia|]. destruct (Hbefore j) as [_ Hlt]; [lia|].
    specialize (Hnap j). lia.
  - destruct j as [|j]; [lia|]. destruct (Hbefore j) as [_ Hlt]; [lia|].
    pose proof (elapsed_naps j). assert (Z.of_nat j <= total / NAP)%Z; [|lia].
    apply Z.div_le_lower_bound; [done|lia].
Qed.
End Sleep.

Lemma reconnect_delay_bounded_witness :
  exists j, sleep_with_shutdown (fun k => Z.of_nat k * (NAP + 1000))%Z (fun k => bool_decide (k = 3))
      100000000 = Some j /\
    ((100000000 <= Z.of_nat j * (NAP + 1000))%Z \/ bool_decide (j = 3) = true) /\
    (forall i, i < j -> bool_decide (i = 3) = false /\ (Z.of_nat i * (NAP + 1000) < 100000000)%Z) /\
    (0 < j -> (Z.of_nat j * (NAP + 1000) < 100000000 + NAP + 1000)%Z) /\
    (Z.of_nat j <= Z.max 0 (100000000 / NAP) + 1)%Z.
Proof.
  apply (reconnect_delay_bounded (fun k => Z.of_nat k * (NAP + 1000))%Z (fun k => bool_decide (k = 3))
    100000000 1000).
  - intros k. unfold NAP. lia.
  - reflexivity.
Defined.

(** ** The accept loop *)

Section Accept.
Context {S ServerConfig ClientConfig ServerName : Type}.
Implicit Type rounds : list (bool * io_result S).

Lemma accept_loop_spec (acceptor : Acceptor ServerConfig) rounds
    (hs : list (job (S := S) (ClientConfig := ClientConfig) (ServerName := ServerName))) :
  exists before, before `prefix_of` rounds /\ Forall (fun r => r.1 = false) before /\
    accept_loop acceptor rounds hs =
      (hs ++ omap (fun r => match r.2 with
                            | Ok s => Some (s, wrap_accept acceptor, true)
                            | Err _ => None
                            end) before,
       bool_decide (length before < length rounds)) /\
    (length before < length rounds -> exists r after, rounds = before ++ r :: after /\ r.1 = true).
Proof.
  revert hs. induction rounds as [|[flag r] rounds IH]; intros hs.
  { exists []. cbn. rewrite app_nil_r. split_and!; try done; lia. }
  destruct flag; cbn [accept_loop].
  { exists []. cbn. rewrite app_nil_r. split_and!; [apply prefix_nil|done|done|].
    intros _. by eexists (true, r), rounds. }
  assert (Hgo : forall hs', (exists before, before `prefix_of` rounds /\ Forall (fun r => r.1 = false) before /\
      accept_loop acceptor rounds hs' = (hs' ++ omap (fun r => match r.2 with
          | Ok s => Some (s, wrap_accept acceptor, true) | Err _ => None end) before,
        bool_decide (length before < length rounds)) /\
      (length before < length rounds -> exists r after, rounds = before ++ r :: after /\ r.1 = true)) ->
    hs' = hs ++ option_list (match r with Ok s => Some (s, wrap_accept acceptor, true) | Err _ => None end) ->
    exists before, before `prefix_of` (false, r) :: rounds /\ Forall (fun r => r.1 = false) before /\
      accept_loop acceptor rounds hs' = (hs ++ omap (fun r => match r.2 with
          | Ok s => Some (s, wrap_accept acceptor, true) | Err _ => None end) before,
        bool_decide (length before < length ((false, r) :: rounds))) /\
      (length before < length ((false, r) :: rounds) ->
        exists r' after, (false, r) :: rounds = before ++ r' :: after /\ r'.1 = true)).
  { intros hs' (before & Hp & Hf & E & Hend) ->. exists ((false, r) :: before). split_and!.
    - by apply prefix_cons.
    - by constructor.
    - rewrite E. f_equal.
      + rewrite <- app_assoc. f_equal. csimpl. by destruct r.
      + apply bool_decide_ext. cbn [length]. lia.
    - cbn. intros Hlt. destruct Hend as (r' & after & -> & Hr); [lia|]. by exists r', after. }
  destruct r as [s|[]]; (eapply Hgo; [apply IH|]); cbn; by rewrite ?app_nil_r.
Qed.

(** The accept loop serves every connection until shutdown and none after.
    Whatever errors [accept] reports in between, the handler threads are
    exactly one for each connection accepted before the first reading of a set
    shutdown flag, in order, each of them sniffing and wrapped as the socket
    was bound; the loop is left at that reading and not before. *)
Theorem accepts_until_shutdown (acceptor : Acceptor ServerConfig) rounds :
  exists before, before `prefix_of` rounds /\ Forall (fun r => r.1 = false) before /\
    accept_loop (ClientConfig := ClientConfig) (ServerName := ServerName) acceptor rounds [] =
      (omap (fun r => match r.2 with
                      | Ok s => Some (s, wrap_accept acceptor, true)
                      | Err _ => None
                      end) before,
       bool_decide (length before < length rounds)) /\
    (length before < length rounds -> exists r after, rounds = before ++ r :: after /\ r.1 = true).
Proof. apply (accept_loop_spec acceptor rounds []). Qed.
End Accept.

(** ** The connect loop *)

(** Every socket in the registry has an older number than the next one. *)
Definition reg_ok {S} (r : Registry.Registry S) : Prop :=
  (0 <= Registry.next r)%Z /\
  forall id, is_Some (Registry.inner r !! id) -> (0 <= id < Registry.next r)%Z.

Lemma register_next {S} (r : Registry.Registry S) s :
  (0 <= Registry.next r)%Z -> (Registry.next r + 1 < 2 ^ 64)%Z ->
  Registry.next (Registry.register r s).1 = (Registry.next r + 1)%Z.
Proof. intros H0 H1. cbn. unfold wrapping_add. apply wrap_to_small. lia. Qed.

(** Registering and deregistering again leaves the table as it was. *)
Lemma deregister_register {S} (r : Registry.Registry S) s :
  reg_ok r -> (Registry.next r + 1 < 2 ^ 64)%Z ->
  let '(r1, id) := Registry.register r s in
  let r' := Registry.deregister r1 id in
  Registry.inner r' = Registry.inner r /\ Registry.next r' = (Registry.next r + 1)%Z /\ reg_ok r'.
Proof.
  intros [H0 Hr] Hn. pose proof (register_next r s H0 Hn) as Hnext. cbn in *.
  assert (Hnew : Registry.inner r !! Registry.next r = None).
  { destruct (_ !! _) eqn:E; [|done]. specialize (Hr _ (ex_intro _ _ E)). lia. }
  assert (Hi : delete (Registry.next r) (<[Registry.next r:=s]> (Registry.inner r)) = Registry.inner r)
    by (by apply delete_insert_id).
  split_and!; [done|done|]. unfold reg_ok. cbn. rewrite Hi, Hnext. split; [lia|].
  intros id H. specialize (Hr id H). lia.
Qed.

Section Connect.
Context {S C R W T : Type} `{!Read S, !ReadLaws S, !Write S, !WriteLaws S, !DuplexLaws S, !Peek S,
  !Write W, !WriteLaws W}.
Context `{!Connection C, !ConnectionLaws C, !Read R, !ReadLaws R, !Read T, !ReadLaws T, !Write T,
  !WriteLaws T, !DuplexLaws T, !StreamOwned T C R W, !StreamOwnedLaws T C R W}.
Context {ServerConfig ClientConfig ServerName : Type}.
Context (server_connection : ServerConfig -> option C).
Context (client_connection : ClientConfig -> ServerName -> option C).
Context (stream_owned : C -> S -> T).

#[local] Abbreviation handle_connection := (Loops.handle_connection (S := S) (C := C) (R := R) (W := W)
  (T := T) server_connection client_connection stream_owned).
#[local] Abbreviation connect_loop := (Loops.connect_loop (S := S) (C := C) (R := R) (W := W) (T := T)
  server_connection client_connection stream_owned).

(** The session of one connection may run to its end. *)
Definition allowed (wrap : Wrap ServerConfig ClientConfig ServerName) (raw : S) (tx : CmdTx)
    (env : Env W) : Prop :=
  gone_after tx = None /\
  match wrap with
  | Plain => 2 * read_fuel raw + 1 < idle (outbound env)
  | TlsServer cfg => forall conn, server_connection cfg = Some conn ->
      granted (stream_owned conn raw) tx (outbound env) (scheduled env)
  | TlsClient cfg name => forall conn, client_connection cfg name = Some conn ->
      granted (stream_owned conn raw) tx (outbound env) (scheduled env)
  end.

Lemma handle_connection_log raw wrap tx me registry sniff clone env :
  exists tx' registry',
    handle_connection raw wrap tx me registry sniff clone env = Some (tx', registry') /\
    (reg_ok registry -> (Registry.next registry + 1 < 2 ^ 64)%Z ->
      Registry.inner registry' = Registry.inner registry /\ reg_ok registry' /\
      (Registry.next registry' <= Registry.next registry + 1)%Z) /\
    exists cs, queued tx' = queued tx ++ cs /\
      session_log (writer_ch env) (accept_ch env) (verdict env) (allowed wrap raw tx env) cs.
Proof.
  unfold Loops.handle_connection. destruct clone as [s|].
  2: { exists tx, registry. split_and!; [done|intros; split_and!; [done|done|lia]|].
       exists []. split; [by rewrite app_nil_r|constructor]. }
  pose proof (deregister_register registry s) as Hreg.
  destruct (Registry.register registry s) as [reg1 id]. cbv zeta in Hreg |- *.
  assert (Htls : forall conn sniff,
    (allowed wrap raw tx env -> forall c, conn = Some c ->
      granted (stream_owned c raw) tx (outbound env) (scheduled env)) ->
    exists tx',
    match conn with
    | None => Some tx
    | Some conn =>
      '(_, tx) ← tls_session (C := C) (R := R) (W := W) (now_peek env) (now env) (now_ws env)
        (now_up env) (now_hello env) (stream_owned conn raw) tx me sniff (tls_clones env)
        (writer_ch env) (accept_ch env) (verdict env) (outbound env) (scheduled env);
      Some tx
    end = Some tx' /\ exists cs, queued tx' = queued tx ++ cs /\
      session_log (writer_ch env) (accept_ch env) (verdict env) (allowed wrap raw tx env) cs).
  { intros [conn|] sn Hgr.
    - destruct (tls_session_log (C := C) (R := R) (W := W) (now_peek env) (now env) (now_ws env)
        (now_up env) (now_hello env) (stream_owned conn raw) tx me sn (tls_clones env) (writer_ch env)
        (accept_ch env) (verdict env) (outbound env) (scheduled env)) as (o & tx' & E & cs & Hq & Hlog).
      rewrite E.
      exists tx'. split; [done|]. exists cs. split; [done|].
      eapply session_log_weaken; [|exact Hlog]. intros H. by apply (Hgr H).
    - exists tx. split; [done|]. exists []. split; [by rewrite app_nil_r|constructor]. }
  enough (exists tx', match wrap with
    | Plain =>
      '(_, _, tx) ← plain_or_ws_session (now env) (now_peek env) (now_up env) (now_hello env) raw
        (write_clone env) tx me sniff (writer_ch env) (accept_ch env) (verdict env) (outbound env);
      Some tx
    | TlsServer cfg => match server_connection cfg with
        | None => Some tx
        | Some conn =>
          '(_, tx) ← tls_session (C := C) (R := R) (W := W) (now_peek env) (now env) (now_ws env)
            (now_up env) (now_hello env) (stream_owned conn raw) tx me sniff (tls_clones env)
            (writer_ch env) (accept_ch env) (verdict env) (outbound env) (scheduled env);
          Some tx
        end
    | TlsClient cfg name => match client_connection cfg name with
        | None => Some tx
        | Some conn =>
          '(_, tx) ← tls_session (C := C) (R := R) (W := W) (now_peek env) (now env) (now_ws env)
            (now_up env) (now_hello env) (stream_owned conn raw) tx me false (tls_clones env)
            (writer_ch env) (accept_ch env) (verdict env) (outbound env) (scheduled env);
          Some tx
        end
    end = Some tx' /\ exists cs, queued tx' = queued tx ++ cs /\
      session_log (writer_ch env) (accept_ch env) (verdict env) (allowed wrap raw tx env) cs)
    as (tx' & E & Hlog).
  { exists tx', (Registry.deregister reg1 id). split_and!.
    - rewrite E. done.
    - intros Hok Hn. destruct (Hreg Hok Hn) as (Hi & Hx & Hok'). split_and!; [done|done|lia].
    - done. }
  destruct wrap as [|cfg|cfg name]; [|apply Htls; by intros [_ H]..].
  destruct (plain_or_ws_session_log (now env) (now_peek env) (now_up env) (now_hello env) raw
    (write_clone env) tx me sniff (writer_ch env) (accept_ch env) (verdict env) (outbound env))
    as (t' & w' & tx' & E & cs & Hq & Hlog).
  rewrite E. cbn [mbind option_bind]. exists tx'. split; [done|]. exists cs. split; [done|].
  eapply session_log_weaken; [|exact Hlog]. by intros [Hg Hi].
Qed.

(** [sessions wrap tx tx' n]: the commands between are those of at most [n]
    sessions, one after the other. *)
Inductive sessions (wrap : Wrap ServerConfig ClientConfig ServerName) : CmdTx -> CmdTx -> nat -> Prop :=
| sessions_none tx n : sessions wrap tx tx n
| sessions_more tx tx1 tx' raw env cs n :
    queued tx1 = queued tx ++ cs ->
    session_log (writer_ch env) (accept_ch env) (verdict env) (allowed wrap raw tx env) cs ->
    sessions wrap tx1 tx' n -> sessions wrap tx tx' (Datatypes.S n).

Lemma sessions_wait wrap tx tx' n : sessions wrap tx tx' n -> sessions wrap tx tx' (Datatypes.S n).
Proof. induction 1; [constructor|by econstructor]. Qed.

(** A connect loop is one session after the other.  Whatever is dialled,
    refused, lost and redialled, plainly or over TLS, the broker hears from it
    the well-bracketed conversation of each connection, complete before the
    next begins, so it never registers twice at a time; every socket it put
    into the registry is out of it again, and no other is touched; and it ends
    only at a set shutdown flag. *)
Theorem reconnects_one_at_a_time connector tx me registry rounds :
  exists tx' registry' ended,
    connect_loop connector tx me registry rounds = Some (tx', registry', ended) /\
    sessions (wrap_connect connector) tx tx' (length rounds) /\
    (reg_ok registry -> (Registry.next registry + Z.of_nat (length rounds) < 2 ^ 64)%Z ->
      Registry.inner registry' = Registry.inner registry) /\
    (ended = true -> exists r, r ∈ rounds /\ (shutdown_before r = true \/ shutdown_after r = true)) /\
    (ended = false -> Forall (fun r => shutdown_before r = false /\ shutdown_after r = false) rounds).
Proof.
  revert tx registry. induction rounds as [|r rounds IH]; intros tx registry.
  { exists tx, registry, false. split_and!; [done|constructor|done|done|done]. }
  cbn [Loops.connect_loop]. destruct (shutdown_before r) eqn:Hb.
  { exists tx, registry, true. split_and!; [done|constructor|done| |done].
    intros _. exists r. split; [left|by left]. }
  assert (Hround : exists tx1 reg1,
    match dialled r with
    | Some (stream, clone, env) => Loops.handle_connection server_connection client_connection
        stream_owned stream (wrap_connect connector) tx me registry false clone env
    | None => Some (tx, registry)
    end = Some (tx1, reg1) /\
    (reg_ok registry -> (Registry.next registry + 1 < 2 ^ 64)%Z ->
      Registry.inner reg1 = Registry.inner registry /\ reg_ok reg1 /\
      (Registry.next reg1 <= Registry.next registry + 1)%Z) /\
    forall tx' n, sessions (wrap_connect connector) tx1 tx' n ->
      sessions (wrap_connect connector) tx tx' (Datatypes.S n)).
  { destruct (dialled r) as [[[stream clone] env]|].
    - destruct (handle_connection_log stream (wrap_connect connector) tx me registry false clone env)
        as (tx1 & reg1 & E & Hreg & cs & Hq & Hlog).
      exists tx1, reg1. split_and!; [done|done|]. intros tx' n Hs. by econstructor.
    - exists tx, registry. split_and!; [done|intros; split_and!; [done|done|lia]|].
      intros tx' n. apply sessions_wait. }
  destruct Hround as (tx1 & reg1 & -> & Hreg & Hmore). cbn [mbind option_bind].
  destruct (shutdown_after r) eqn:Ha.
  - exists tx1, reg1, true. split_and!; [done|apply Hmore; constructor| | |done].
    + intros Hok Hn. cbn [length] in Hn. apply Hreg; [done|lia].
    + intros _. exists r. split; [left|by right].
  - destruct (IH tx1 reg1) as (tx' & reg' & ended & -> & Hs & Hin & Het & Hef).
    exists tx', reg', ended. split_and!; [done|by apply Hmore| | |].
    + intros Hok Hn. cbn [length] in Hn. destruct (Hreg Hok) as (<- & Hok1 & Hle); [lia|].
      apply Hin; [done|lia].
    + intros H. destruct (Het H) as (r' & Hr' & Hf). exists r'. split; [by right|done].
    + intros H. constructor; [done|by apply Hef].
Qed.
End Connect.

(** A connection that is refused, one whose TLS client says nothing, and the
    flag. *)
Definition quiet_env : Env Tcp :=
  mkEnv at_noon at_noon at_noon at_noon at_noon None true 1 2 (Some true) [] [Reader].

Definition demo_rounds : list (connect_round (S := Tcp) (W := Tcp)) :=
  [ mkRound false None false;
    mkRound false (Some (mkTcp [] [] [], Some (mkTcp [] [] []), quiet_env)) false;
    mkRound true None false ].

Definition demo_owned (c : Null) (s : Tcp) : NullStream := mkStream c (rx s) (mkTcp [] (tx s) (sent s)).

Lemma reconnects_one_at_a_time_witness :
  exists tx' registry' ended,
    connect_loop (C := Null) (R := list read_event) (W := Tcp) (T := NullStream)
      (fun _ : () => Some fresh) (fun _ _ : () => Some fresh) demo_owned
      (ConnectTls tt tt) (mkCmdTx [] None) peer_id Registry.default demo_rounds =
      Some (tx', registry', ended) /\
    sessions (T := NullStream) (W := Tcp) (fun _ : () => Some fresh) (fun _ _ : () => Some fresh) demo_owned
      (TlsClient tt tt) (mkCmdTx [] None) tx' 3 /\
    (reg_ok (S := Tcp) Registry.default -> (0 + 3 < 2 ^ 64)%Z -> Registry.inner registry' = ∅) /\
    (ended = true -> exists r, r ∈ demo_rounds /\ (shutdown_before r = true \/ shutdown_after r = true)) /\
    (ended = false ->
      Forall (fun r => shutdown_before r = false /\ shutdown_after r = false) demo_rounds).
Proof.
  exact (reconnects_one_at_a_time (C := Null) (R := list read_event) (W := Tcp) (T := NullStream)
    (fun _ : () => Some fresh) (fun _ _ : () => Some fresh) demo_owned (ConnectTls tt tt)
    (mkCmdTx [] None) peer_id Registry.default demo_rounds).
Defined.
