(* ===== verification/System.v ===== *)
(** * System: one socket of the synchronous crate, all threads at once

    Puts the broker, the command channel, the registry and any number of
    sessions together as a step relation, with [Socket::close] of
    [rust-lib-sync/src/lib.rs] running against them.  A session is what [Conn]
    and [Tls] prove of it, a registration and the commands of a
    [session_log], here in the steps in which they interleave with everything
    else: it registers its socket ([handle_connection]), completes its
    handshake and sends [ConnectionUp] ([register]), is answered, forwards
    messages, reports its end and deregisters. *)

From S2P Require Import Prelude Io WsFrame WsStream Upgrade Protocol Timers Broker Conn.
From S2P Require Import ConnProps Tls TlsProps TlsNull Loops.
From Stdlib Require Import Strings.Byte.

(** Where a session is.  Its number names its socket and its two channels;
    [rid] is its number in the registry. *)
Inductive spc :=
| SNew
| SReg (rid : Z)
| SWait (rid : Z) (peer : Identity)
| SOpen (rid : Z) (peer : Identity)
| SEnding (rid : Z)
| SDone.

(** Where the first call of [close] is: not made; the flags are set; [Close]
    is sent; [shutdown_all] has returned. *)
Inductive cpc := NotClosing | Flagged | CloseSent | AllShut.

Record System := mkSystem {
  broker : option Broker;
  queue : list Command;
  registry : Registry.Registry nat;
  sess : list spc;
  shut : gset nat;
  closer : cpc;
}.

Definition set_sess i p s :=
  mkSystem (broker s) (queue s) (registry s) (<[i := p]> (sess s)) (shut s) (closer s).
Definition set_registry r s := mkSystem (broker s) (queue s) r (sess s) (shut s) (closer s).
Definition set_closer c s := mkSystem (broker s) (queue s) (registry s) (sess s) (shut s) c.
Definition set_shut x s := mkSystem (broker s) (queue s) (registry s) (sess s) x (closer s).
Definition spawn s :=
  mkSystem (broker s) (queue s) (registry s) (sess s ++ [SNew]) (shut s) (closer s).

(** [cmd_tx.send]: it fails once the broker has dropped the receiver. *)
Definition submit (c : Command) s :=
  mkSystem (broker s) (match broker s with Some _ => queue s ++ [c] | None => queue s end) (registry s) (sess s) (shut s)
    (closer s).

(** The broker's answer to [ConnectionUp] reaches the session that waits. *)
Definition answered (c : Command) (b : Broker) (l : list spc) : list spc :=
  match c with
  | ConnectionUp peer i _ =>
    match l !! i with
    | Some (SWait rid _) => <[i := if broker_answer b peer then SOpen rid peer else SEnding rid]> l
    | _ => l
    end
  | _ => l
  end.

(** What comes from outside: connections, their peers, the application and
    the timers. *)
Inductive outside : System -> System -> Prop :=
| o_connection s : outside s (spawn s)
| o_hello s i rid peer : sess s !! i = Some (SReg rid) -> is_Some (broker s) ->
    outside s (submit (ConnectionUp peer i i) (set_sess i (SWait rid peer) s))
| o_hello_late s i rid : sess s !! i = Some (SReg rid) -> broker s = None ->
    outside s (set_sess i (SEnding rid) s)
| o_message s i rid peer e : sess s !! i = Some (SOpen rid peer) -> is_Some (broker s) ->
    outside s (submit (Received peer e) s)
| o_message_late s i rid peer : sess s !! i = Some (SOpen rid peer) -> broker s = None ->
    outside s (set_sess i (SEnding rid) s)
| o_hangup s i rid peer : sess s !! i = Some (SOpen rid peer) ->
    outside s (submit (ConnectionDown peer) (set_sess i (SEnding rid) s))
| o_send s to data : outside s (submit (Send to data) s)
| o_timeout s m : outside s (submit (ResendTimeout m) s)
| o_close s : closer s = NotClosing -> outside s (set_closer Flagged s).

(** What the socket does by itself. *)
Inductive inside : System -> System -> Prop :=
| i_register s i : sess s !! i = Some SNew ->
    inside s (set_sess i (SReg (Registry.next (registry s)))
      (set_registry (Registry.register (registry s) i).1 s))
| i_no_clone s i : sess s !! i = Some SNew -> inside s (set_sess i SDone s)
| i_no_hello s i rid : sess s !! i = Some (SReg rid) -> inside s (set_sess i (SEnding rid) s)
| i_dropped s i rid peer : sess s !! i = Some (SWait rid peer) -> broker s = None ->
    inside s (set_sess i (SEnding rid) s)
| i_shut_down s i rid peer : sess s !! i = Some (SOpen rid peer) -> i ∈ shut s ->
    inside s (submit (ConnectionDown peer) (set_sess i (SEnding rid) s))
| i_deregister s i rid : sess s !! i = Some (SEnding rid) ->
    inside s (set_sess i SDone (set_registry (Registry.deregister (registry s) rid) s))
| i_handles s b c q b' es : broker s = Some b -> queue s = c :: q -> handle b c = (Some b', es) ->
    inside s (mkSystem (Some b') q (registry s) (answered c b (sess s)) (shut s) (closer s))
| i_ends s b c q es : broker s = Some b -> queue s = c :: q -> handle b c = (None, es) ->
    inside s (mkSystem None [] (registry s) (sess s) (shut s) (closer s))
| i_send_close s : closer s = Flagged -> inside s (set_closer CloseSent (submit Close s))
| i_shutdown_all s : closer s = CloseSent ->
    inside s (set_closer AllShut
      (set_shut (shut s ∪ list_to_set (Registry.shutdown_all (registry s))) s)).

Definition sys_step s s' : Prop := outside s s' \/ inside s s'.

(** [SocketBuilder::build]. *)
Definition fresh_system (mode : SendMode) (del : DeliveryGuarantee) (uuid : bytes) : System :=
  mkSystem (Some (new_broker mode del uuid)) [] Registry.default [] ∅ NotClosing.

(** ** The registry *)

Definition rid_of (p : spc) : option Z :=
  match p with
  | SReg rid | SWait rid _ | SOpen rid _ | SEnding rid => Some rid
  | SNew | SDone => None
  end.

Definition news (l : list spc) : nat :=
  sum_list_with (fun p => match p with SNew => 1 | _ => 0 end) l.

Record regs (r : Registry.Registry nat) (l : list spc) : Prop := {
  r_ok : reg_ok r;
  r_in i p rid : l !! i = Some p -> rid_of p = Some rid -> Registry.inner r !! rid = Some i;
  r_count : (Registry.next r + Z.of_nat (news l) <= Z.of_nat (length l))%Z;
}.

Lemma regs_change r l i x y :
  regs r l -> l !! i = Some x -> (rid_of y = rid_of x \/ rid_of y = None) -> y <> SNew ->
  regs r (<[i := y]> l).
Proof.
  intros [Hok Hin Hc] Hx Hy Hn. split; [done| |].
  - intros j p rid Hj Hp. apply list_lookup_insert_Some in Hj as [(<- & <- & _)|[_ Hj]]; [|by eapply Hin].
    destruct Hy as [Hy|Hy]; [|congruence]. apply (Hin i x); [done|congruence].
  - rewrite length_insert. pose proof (sum_list_with_insert
      (fun p => match p with SNew => 1 | _ => 0 end) l i x y Hx). unfold news in *.
    destruct x, y; try done; lia.
Qed.

Lemma regs_spawn r l : regs r l -> regs r (l ++ [SNew]).
Proof.
  intros [Hok Hin Hc]. split; [done| |].
  - intros j p rid Hj Hp. apply lookup_snoc_Some in Hj as [[_ Hj]|[_ <-]]; [by eapply Hin|done].
  - unfold news in *. rewrite sum_list_with_snoc, length_app. simpl. lia.
Qed.

Lemma regs_register r l i :
  regs r l -> l !! i = Some SNew -> (Z.of_nat (length l) < 2 ^ 64)%Z ->
  regs (Registry.register r i).1 (<[i := SReg (Registry.next r)]> l).
Proof.
  intros [[H0 Hok] Hin Hc] Hi Hl.
  pose proof (sum_list_with_insert (fun p => match p with SNew => 1 | _ => 0 end) l i SNew
    (SReg (Registry.next r)) Hi) as Hs. cbn in Hs. unfold news in *.
  assert (Hn : Registry.next (Registry.register r i).1 = (Registry.next r + 1)%Z) by (apply register_next; lia).
  split.
  - split; [lia|]. rewrite Hn. cbn. intros id [v H].
    apply lookup_insert_Some in H as [[<- _]|[_ H]]; [lia|]. specialize (Hok id (ex_intro _ _ H)). lia.
  - intros j p rid Hj Hp. cbn. apply list_lookup_insert_Some in Hj as [(<- & <- & _)|[Hne Hj]].
    + cbn in Hp. simplify_eq. apply lookup_insert_eq.
    + pose proof (Hin j p rid Hj Hp) as H. rewrite lookup_insert_ne; [done|].
      intros <-. specialize (Hok _ (ex_intro _ _ H)). lia.
  - rewrite length_insert, Hn. unfold news. lia.
Qed.

Lemma regs_deregister r l i rid :
  regs r l -> l !! i = Some (SEnding rid) -> regs (Registry.deregister r rid) (<[i := SDone]> l).
Proof.
  intros H Hi. pose proof (r_in _ _ H i _ rid Hi eq_refl) as Hrid.
  pose proof (regs_change r l i _ SDone H Hi ltac:(by right) ltac:(done)) as [[H0 Hok] Hin Hc].
  split; [|intros j p rid' Hj Hp|done].
  - split; [done|]. cbn. intros id [v Hv]. apply lookup_delete_Some in Hv as [_ Hv]. apply Hok. by eexists.
  - cbn. pose proof (Hin j p rid' Hj Hp) as Hr. rewrite lookup_delete_ne; [done|]. intros <-.
    assert (j = i) as -> by congruence.
    rewrite list_lookup_insert_eq in Hj by (by eapply lookup_lt_Some). by simplify_eq.
Qed.

(** ** The connection table *)

Definition down_of (c : Command) : option Identity :=
  match c with ConnectionDown p => Some p | _ => None end.

Definition up_of (c : Command) : option nat :=
  match c with ConnectionUp _ i _ => Some i | _ => None end.

Lemma elem_of_downs p (q : list Command) : p ∈ omap down_of q <-> ConnectionDown p ∈ q.
Proof.
  rewrite list_elem_of_omap. split.
  - intros (c & Hc & E). destruct c; by simplify_eq/=.
  - intros H. by exists (ConnectionDown p).
Qed.

Lemma elem_of_ups i (q : list Command) : i ∈ omap up_of q <-> exists p a, ConnectionUp p i a ∈ q.
Proof.
  rewrite list_elem_of_omap. split.
  - intros (c & Hc & E). destruct c; simplify_eq/=. eauto.
  - intros (p & a & H). by exists (ConnectionUp p i a).
Qed.

(** The broker's table, the queue and the sessions agree: a session that is
    open is the table's entry for its peer, and no report that would remove
    it is under way; an entry belongs to an open session or its removal is
    under way, once. *)
Record table (b : Broker) (q : list Command) (l : list spc) : Prop := {
  t_open i r p : l !! i = Some (SOpen r p) -> conns b !! p = Some i /\ ConnectionDown p ∉ q;
  t_conns p i : conns b !! p = Some i ->
    (exists r, l !! i = Some (SOpen r p)) \/ ConnectionDown p ∈ q;
  t_down p : ConnectionDown p ∈ q -> is_Some (conns b !! p);
  t_downs : NoDup (omap down_of q);
  t_up p i a : ConnectionUp p i a ∈ q -> exists r, l !! i = Some (SWait r p);
  t_ups : NoDup (omap up_of q);
}.

Definition settling (p : spc) : bool :=
  match p with SWait _ _ | SOpen _ _ => false | _ => true end.

(** A session that is not known to the broker yet, or no more, moves. *)
Lemma table_change b q l i x y :
  table b q l -> l !! i = Some x -> settling x = true -> settling y = true -> table b q (<[i := y]> l).
Proof.
  intros [H1 H2 H3 H4 H5 H6] Hx Sx Sy. split; try done.
  - intros j r p Hj. apply list_lookup_insert_Some in Hj as [(<- & -> & _)|[_ Hj]]; [done|by eapply H1].
  - intros p j Hj. destruct (H2 p j Hj) as [[r Hr]|]; [left|by right]. exists r.
    rewrite list_lookup_insert_ne; [done|]. intros ->. simplify_eq.
  - intros p j a Hj. destruct (H5 p j a Hj) as [r Hr]. exists r.
    rewrite list_lookup_insert_ne; [done|]. intros ->. simplify_eq.
Qed.

Lemma table_spawn b q l : table b q l -> table b q (l ++ [SNew]).
Proof.
  intros [H1 H2 H3 H4 H5 H6]. split; try done.
  - intros j r p Hj. apply lookup_snoc_Some in Hj as [[_ Hj]|[_ Hj]]; [by eapply H1|done].
  - intros p j Hj. destruct (H2 p j Hj) as [[r Hr]|]; [left|by right]. exists r. by apply lookup_app_l_Some.
  - intros p j a Hj. destruct (H5 p j a Hj) as [r Hr]. exists r. by apply lookup_app_l_Some.
Qed.

(** A command that is about no connection's beginning or end. *)
Lemma table_submit b q l c :
  table b q l -> down_of c = None -> up_of c = None -> table b (q ++ [c]) l.
Proof.
  intros [H1 H2 H3 H4 H5 H6] Hd Hu.
  assert (Hin : forall x, down_of x <> None \/ up_of x <> None -> x ∈ q ++ [c] -> x ∈ q).
  { intros x Hx Hxq. apply elem_of_app in Hxq as [|Hxq]; [done|].
    apply list_elem_of_singleton in Hxq as ->. by destruct Hx. }
  split.
  - intros i r p Hi. destruct (H1 i r p Hi) as [? Hn]. split; [done|]. intros Hq. apply Hn, Hin; [by left|done].
  - intros p i Hi. destruct (H2 p i Hi) as [|]; [by left|right]. apply elem_of_app. by left.
  - intros p Hp. apply H3, Hin; [by left|done].
  - rewrite omap_app. cbn. by rewrite Hd, app_nil_r.
  - intros p i a Hp. eapply H5, Hin; [by right|done].
  - rewrite omap_app. cbn. by rewrite Hu, app_nil_r.
Qed.

Lemma table_hello b q l i r p :
  table b q l -> l !! i = Some (SReg r) ->
  table b (q ++ [ConnectionUp p i i]) (<[i := SWait r p]> l).
Proof.
  intros [H1 H2 H3 H4 H5 H6] Hi. pose proof (lookup_lt_Some _ _ _ Hi) as Hlt.
  assert (Hin : forall x, ConnectionDown x ∈ q ++ [ConnectionUp p i i] <-> ConnectionDown x ∈ q).
  { intros x. rewrite elem_of_app, list_elem_of_singleton. naive_solver. }
  split.
  - intros j r' p' Hj. rewrite Hin.
    apply list_lookup_insert_Some in Hj as [(<- & [=] & _)|[_ Hj]]. by eapply H1.
  - intros p' j Hj. rewrite Hin. destruct (H2 p' j Hj) as [[r' Hr]|]; [left|by right]. exists r'.
    rewrite list_lookup_insert_ne; [done|]. intros ->. simplify_eq.
  - intros p'. rewrite Hin. apply H3.
  - rewrite omap_app. cbn. by rewrite app_nil_r.
  - intros p' j a Hj. apply elem_of_app in Hj as [Hj|Hj].
    + destruct (H5 p' j a Hj) as [r' Hr]. exists r'.
      rewrite list_lookup_insert_ne; [done|]. intros ->. simplify_eq.
    + apply list_elem_of_singleton in Hj as [= -> -> ->]. exists r. by rewrite list_lookup_insert_eq.
  - rewrite omap_app. cbn. apply NoDup_app. split_and!; [done| |apply NoDup_singleton].
    intros x Hx. rewrite list_elem_of_singleton. intros ->.
    apply elem_of_ups in Hx as (p' & a & Hx). destruct (H5 p' i a Hx). simplify_eq.
Qed.

Lemma table_leave b q l i r p y :
  table b q l -> l !! i = Some (SOpen r p) -> settling y = true ->
  table b (q ++ [ConnectionDown p]) (<[i := y]> l).
Proof.
  intros [H1 H2 H3 H4 H5 H6] Hi Hy. destruct (H1 i r p Hi) as [Hc Hn].
  assert (Hother : forall j x, l !! j = Some x -> j <> i -> <[i := y]> l !! j = Some x).
  { intros j x Hj Hne. by rewrite list_lookup_insert_ne. }
  split.
  - intros j r' p' Hj. apply list_lookup_insert_Some in Hj as [(<- & -> & _)|[Hne Hj]]; [done|].
    destruct (H1 j r' p' Hj) as [Hc' Hn']. split; [done|].
    rewrite elem_of_app, list_elem_of_singleton. intros [|[= ->]]; [done|]. congruence.
  - intros p' j Hj. destruct (decide (p' = p)) as [->|Hne].
    { right. apply elem_of_app. right. by apply list_elem_of_singleton. }
    destruct (H2 p' j Hj) as [[r' Hr]|]; [left|right; apply elem_of_app; by left]. exists r'.
    apply Hother; [done|]. intros ->. simplify_eq.
  - intros p'. rewrite elem_of_app, list_elem_of_singleton. intros [?|[= ->]]; [by apply H3|by eexists].
  - rewrite omap_app. cbn. apply NoDup_app. split_and!; [done| |apply NoDup_singleton].
    intros x Hx. rewrite list_elem_of_singleton. intros ->. by apply elem_of_downs in Hx.
  - intros p' j a Hj. apply elem_of_app in Hj as [Hj|Hj]; [|by apply list_elem_of_singleton in Hj].
    destruct (H5 p' j a Hj) as [r' Hr]. exists r'. apply Hother; [done|]. intros ->. simplify_eq.
  - rewrite omap_app. cbn. by rewrite app_nil_r.
Qed.

(** What a command does to the table. *)
Lemma handle_conns b c b' es :
  handle b c = (Some b', es) ->
  conns b' = match c with
             | ConnectionUp p i _ => if broker_answer b p then <[p := i]> (conns b) else conns b
             | ConnectionDown p => delete p (conns b)
             | _ => conns b
             end.
Proof.
  destruct c as [i d|p i a|p|p e|m|]; cbn [handle]; intros E; simplify_eq.
  - destruct (handle_send b i d) eqn:E1. simplify_eq. by destruct (handle_send_links _ _ _ _ _ E1).
  - destruct (handle_up b p i a) as [b1 es1] eqn:E1. simplify_eq.
    apply handle_up_links in E1 as [_ E1]. destruct (broker_answer b p); [apply E1|congruence].
  - by simplify_eq/=.
  - unfold handle_received in E. destruct e as [| | |m d|m]; simplify_eq/=; try done.
    by destruct (pending b !! m); simplify_eq/=.
  - unfold handle_resend in E. destruct (pending b !! m); simplify_eq/=; [|done].
    destruct (p_retries _); simplify_eq/=; [done|]. case_decide; simplify_eq/=; [done|].
    destruct (transmit _ _ _ _) eqn:E1. simplify_eq. by apply transmit_frame in E1 as [[] _].
Qed.

Lemma table_tail b c q l :
  table b (c :: q) l -> down_of c = None -> up_of c = None -> table b q l.
Proof.
  intros [H1 H2 H3 H4 H5 H6] Hd Hu. split.
  - intros i r p Hi. destruct (H1 i r p Hi) as [? Hn]. split; [done|]. intros Hq. apply Hn. by right.
  - intros p i Hi. destruct (H2 p i Hi) as [|Hin]; [by left|]. apply elem_of_cons in Hin as [<-|]; [done|by right].
  - intros p Hp. apply H3. by right.
  - csimpl in H4. by rewrite Hd in H4.
  - intros p i a Hp. eapply H5. by right.
  - csimpl in H6. by rewrite Hu in H6.
Qed.

Lemma table_ext b b' q l : conns b' = conns b -> table b q l -> table b' q l.
Proof. intros E [H1 H2 H3 H4 H5 H6]. split; rewrite ?E; done. Qed.

Lemma table_accept b b' q l p i a r :
  table b (ConnectionUp p i a :: q) l -> conns b !! p = None -> conns b' = <[p := i]> (conns b) ->
  l !! i = Some (SWait r p) -> table b' q (<[i := SOpen r p]> l).
Proof.
  intros [H1 H2 H3 H4 H5 H6] Hnew E Hi. pose proof (lookup_lt_Some _ _ _ Hi) as Hlt.
  assert (Hn : ConnectionDown p ∉ q).
  { intros Hd. destruct (H3 p ltac:(by right)). congruence. }
  csimpl in H6. apply NoDup_cons in H6 as [Hi6 H6]. split.
  - intros j r' p' Hj. rewrite E. apply list_lookup_insert_Some in Hj as [(<- & [= <- <-] & _)|[Hne Hj]].
    + by rewrite lookup_insert_eq.
    + destruct (H1 j r' p' Hj) as [Hc Hd]. rewrite lookup_insert_ne by congruence.
      split; [done|]. intros Hq. apply Hd. by right.
  - intros p' j. rewrite E. intros [[<- <-]|[Hne Hj]]%lookup_insert_Some.
    + left. exists r. by rewrite list_lookup_insert_eq.
    + destruct (H2 p' j Hj) as [[r' Hr]|Hd].
      * left. exists r'. rewrite list_lookup_insert_ne; [done|]. intros ->. simplify_eq.
      * right. by apply elem_of_cons in Hd as [|].
  - intros p' Hp. rewrite E. destruct (decide (p = p')) as [->|Hne]; [by rewrite lookup_insert_eq|].
    rewrite lookup_insert_ne by done. apply H3. by right.
  - exact H4.
  - intros p' j a' Hj. destruct (H5 p' j a' ltac:(by right)) as [r' Hr]. exists r'.
    rewrite list_lookup_insert_ne; [done|]. intros ->. destruct Hi6. apply elem_of_ups. eauto.
  - exact H6.
Qed.

Lemma table_reject b q l p i a r :
  table b (ConnectionUp p i a :: q) l -> l !! i = Some (SWait r p) -> table b q (<[i := SEnding r]> l).
Proof.
  intros [H1 H2 H3 H4 H5 H6] Hi. csimpl in H6. apply NoDup_cons in H6 as [Hi6 H6]. split.
  - intros j r' p' Hj. apply list_lookup_insert_Some in Hj as [(<- & [=] & _)|[Hne Hj]].
    destruct (H1 j r' p' Hj) as [Hc Hd]. split; [done|]. intros Hq. apply Hd. by right.
  - intros p' j Hj. destruct (H2 p' j Hj) as [[r' Hr]|Hd].
    + left. exists r'. rewrite list_lookup_insert_ne; [done|]. intros ->. simplify_eq.
    + right. by apply elem_of_cons in Hd as [|].
  - intros p' Hp. apply H3. by right.
  - exact H4.
  - intros p' j a' Hj. destruct (H5 p' j a' ltac:(by right)) as [r' Hr]. exists r'.
    rewrite list_lookup_insert_ne; [done|]. intros ->. destruct Hi6. apply elem_of_ups. eauto.
  - exact H6.
Qed.

Lemma table_remove b b' q l p :
  table b (ConnectionDown p :: q) l -> conns b' = delete p (conns b) -> table b' q l.
Proof.
  intros [H1 H2 H3 H4 H5 H6] E. csimpl in H4. apply NoDup_cons in H4 as [Hp H4].
  rewrite elem_of_downs in Hp. split.
  - intros j r' p' Hj. destruct (H1 j r' p' Hj) as [Hc Hd]. rewrite E.
    rewrite lookup_delete_ne; [split; [done|]|]; [intros Hq; apply Hd; by right|].
    intros ->. apply Hd. left.
  - intros p' j. rewrite E. intros [Hne Hj]%lookup_delete_Some.
    destruct (H2 p' j Hj) as [|Hd]; [by left|right]. apply elem_of_cons in Hd as [[= ->]|]; done.
  - intros p' Hq. rewrite E, lookup_delete_ne; [apply H3; by right|]. by intros ->.
  - exact H4.
  - intros p' j a Hj. eapply H5. by right.
  - exact H6.
Qed.

Lemma table_handles b c q l b' es :
  table b (c :: q) l -> handle b c = (Some b', es) -> table b' q (answered c b l).
Proof.
  intros HT E. apply handle_conns in E. destruct c as [i d|p i a|p|p e|m|]; cbn [answered].
  - eapply table_ext; [exact E|]. by eapply table_tail.
  - destruct (t_up _ _ _ HT p i a ltac:(left)) as [r Hr]. rewrite Hr. unfold broker_answer in *.
    destruct (decide (conns b !! p = None)) as [Hn|Hn].
    + rewrite bool_decide_true in * by done. by eapply table_accept.
    + rewrite bool_decide_false in * by done. eapply table_ext; [exact E|]. by eapply table_reject.
  - by eapply table_remove.
  - eapply table_ext; [exact E|]. by eapply table_tail.
  - eapply table_ext; [exact E|]. by eapply table_tail.
  - eapply table_ext; [exact E|]. by eapply table_tail.
Qed.

(** ** Closing *)

(** The commands the broker still gets to see. *)
Fixpoint before_close (q : list Command) : list Command :=
  match q with
  | [] => []
  | Close :: _ => []
  | c :: q => c :: before_close q
  end.

Lemma before_close_elem c q : c ∈ before_close q -> c ∈ q.
Proof.
  induction q as [|x q IH]; [done|].
  destruct x; cbn; first [by intros ?%not_elem_of_nil|rewrite !elem_of_cons; intros [->|H]; auto].
Qed.

Lemma before_close_snoc q c : Close ∈ q -> before_close (q ++ [c]) = before_close q.
Proof.
  induction q as [|x q IH]; [by intros ?%not_elem_of_nil|]. intros [<-|H]%elem_of_cons; [done|].
  destruct x; cbn; by rewrite ?IH.
Qed.

(** [close] has called [shutdown_all]: every session that is open, or that
    the broker could still accept, has had its socket shut down. *)
Record closing s : Prop := {
  cl_sent : closer s = CloseSent \/ closer s = AllShut -> broker s = None \/ Close ∈ queue s;
  cl_open i r p : closer s = AllShut -> sess s !! i = Some (SOpen r p) -> i ∈ shut s;
  cl_up p i a : closer s = AllShut -> ConnectionUp p i a ∈ before_close (queue s) -> i ∈ shut s;
}.

Record sys_inv s : Prop := {
  si_regs : regs (registry s) (sess s);
  si_table : match broker s with
             | Some b => table b (queue s) (sess s)
             | None => queue s = []
             end;
  si_closing : closing s;
}.

(** A session moves without opening, and nothing else changes. *)
Lemma closing_move s s' :
  closing s -> closer s' = closer s -> broker s' = broker s -> queue s' = queue s ->
  shut s' = shut s ->
  (forall i r p, sess s' !! i = Some (SOpen r p) -> sess s !! i = Some (SOpen r p)) -> closing s'.
Proof. intros [H1 H2 H3] E1 E2 E3 E4 Ho. split; rewrite E1, ?E2, ?E3, ?E4; eauto. Qed.

(** A command is queued; after [shutdown_all] the broker will not see it. *)
Lemma closing_submit s c : closing s -> closing (submit c s).
Proof.
  intros [H1 H2 H3]. unfold submit. split; cbn.
  - intros H. destruct (H1 H) as [->|Hq]; [by left|right]. destruct (broker s); [|done].
    apply elem_of_app. by left.
  - exact H2.
  - intros p i a Hc Hin. apply (H3 p i a Hc). destruct (broker s) eqn:E; [|done].
    destruct (H1 ltac:(by right)) as [?|Hq]; [congruence|]. by rewrite before_close_snoc in Hin.
Qed.

Lemma insert_not_open (l : list spc) i y j r p :
  (forall r p, y <> SOpen r p) -> <[i := y]> l !! j = Some (SOpen r p) -> l !! j = Some (SOpen r p).
Proof. intros Hy [(_ & -> & _)|[_ H]]%list_lookup_insert_Some; [by destruct (Hy r p)|done]. Qed.

(** ** Every step keeps it *)

Lemma table_of s b : sys_inv s -> broker s = Some b -> table b (queue s) (sess s).
Proof. intros [_ H _] E. by rewrite E in H. Qed.

(** A step that moves one session between states the broker does not know. *)
Lemma move_inv s s' i x y :
  sys_inv s -> sess s !! i = Some x -> settling x = true \/ broker s = None -> settling y = true ->
  y <> SNew -> regs (registry s') (<[i := y]> (sess s)) ->
  sess s' = <[i := y]> (sess s) -> broker s' = broker s -> queue s' = queue s ->
  shut s' = shut s -> closer s' = closer s -> sys_inv s'.
Proof.
  intros HI Hx Sx Sy Hy Hr E1 E2 E3 E4 E5. split.
  - by rewrite E1.
  - rewrite E1, E2, E3. destruct (broker s) as [b|] eqn:Eb.
    + destruct Sx as [Sx|]; [|done]. eapply table_change; [by apply table_of|done..].
    + pose proof (si_table _ HI) as H. by rewrite Eb in H.
  - eapply closing_move; [apply HI|done..|]. intros j r p. rewrite E1. apply insert_not_open.
    by intros ? ? ->.
Qed.

(** A session reports its end. *)
Lemma leave_inv s i r p :
  sys_inv s -> sess s !! i = Some (SOpen r p) ->
  sys_inv (submit (ConnectionDown p) (set_sess i (SEnding r) s)).
Proof.
  intros HI Hi. split; cbn.
  - eapply regs_change; [apply HI|done|by left|done].
  - destruct (broker s) as [b|] eqn:Eb.
    + eapply table_leave; [by apply table_of|done..].
    + pose proof (si_table _ HI) as H. by rewrite Eb in H.
  - apply closing_submit. eapply closing_move; [apply HI|done..|]. intros j r' p'. by apply insert_not_open.
Qed.

(** A command that concerns no connection's beginning or end is queued. *)
Lemma submit_inv s c :
  sys_inv s -> down_of c = None -> up_of c = None -> sys_inv (submit c s).
Proof.
  intros HI Hd Hu. split; cbn.
  - apply HI.
  - destruct (broker s) as [b|] eqn:Eb.
    + apply table_submit; [by apply table_of|done..].
    + pose proof (si_table _ HI) as H. by rewrite Eb in H.
  - apply closing_submit, HI.
Qed.

Lemma outside_inv s s' : outside s s' -> sys_inv s -> sys_inv s'.
Proof.
  intros Hs HI. destruct Hs as [s|s i rid peer Hi [b Hb]|s i rid Hi Hb|s i rid peer e Hi Hb
    |s i rid peer Hi Hb|s i rid peer Hi|s to d|s m|s Hc].
  - split; cbn.
    + apply regs_spawn, HI.
    + destruct (broker s) as [b|] eqn:Eb; [by apply table_spawn, table_of|].
      pose proof (si_table _ HI) as H. by rewrite Eb in H.
    + eapply closing_move; [apply HI|done..|]. cbn. intros i r p.
      by intros [[_ H]|[_ H]]%lookup_snoc_Some.
  - split; cbn.
    + eapply regs_change; [apply HI|done|by left|done].
    + rewrite Hb. apply table_hello; [by apply table_of|done].
    + apply closing_submit. eapply closing_move; [apply HI|done..|]. intros j r p. by apply insert_not_open.
  - eapply (move_inv s _ i _ (SEnding rid)); try done; [by right|].
    eapply regs_change; [apply HI|done|by left|done].
  - by apply submit_inv.
  - eapply (move_inv s _ i _ (SEnding rid)); try done; [by right|].
    eapply regs_change; [apply HI|done|by left|done].
  - by eapply leave_inv.
  - by apply submit_inv.
  - by apply submit_inv.
  - destruct HI as [H1 H2 [C1 C2 C3]]. split; [done|done|]. split; cbn; [by intros []|done|done].
Qed.

Lemma closing_handles s b c q b' es :
  sys_inv s -> broker s = Some b -> queue s = c :: q -> handle b c = (Some b', es) ->
  closing (mkSystem (Some b') q (registry s) (answered c b (sess s)) (shut s) (closer s)).
Proof.
  intros HI Hb Hq E. destruct (si_closing _ HI) as [C1 C2 C3].
  assert (Hc : c <> Close) by by intros ->.
  assert (Hbefore : before_close (queue s) = c :: before_close q) by (rewrite Hq; by destruct c).
  split; cbn.
  - intros H. destruct (C1 H) as [?|Hin]; [congruence|right]. rewrite Hq in Hin.
    by apply elem_of_cons in Hin as [<-|].
  - intros i r p Ha Hi. destruct c as [|p' i' a| | | |]; cbn [answered] in Hi; try by eapply C2.
    destruct (sess s !! i') as [[| |rid x| | |]|] eqn:Ei; try by eapply C2.
    apply list_lookup_insert_Some in Hi as [(<- & _ & _)|[_ Hi]]; [|by eapply C2].
    apply (C3 p' i' a Ha). rewrite Hbefore. left.
  - intros p i a Ha Hin. apply (C3 p i a Ha). rewrite Hbefore. by right.
Qed.

Lemma regs_answered r l c b : regs r l -> regs r (answered c b l).
Proof.
  intros H. destruct c as [|p i a| | | |]; try done. cbn [answered].
  destruct (l !! i) as [[| |rid x| | |]|] eqn:Ei; try done.
  eapply regs_change; [done|done|left|]; by destruct (broker_answer b p).
Qed.

(** What [shutdown_all] reaches. *)
Lemma elem_of_shutdown_all (r : Registry.Registry nat) i rid :
  Registry.inner r !! rid = Some i -> i ∈ Registry.shutdown_all r.
Proof.
  intros H. unfold Registry.shutdown_all. apply list_elem_of_fmap. exists (rid, i). split; [done|].
  by apply elem_of_map_to_list.
Qed.

Lemma inside_inv s s' :
  inside s s' -> (Z.of_nat (length (sess s)) < 2 ^ 64)%Z -> sys_inv s -> sys_inv s'.
Proof.
  intros Hs Hlen HI. destruct Hs as [s i Hi|s i Hi|s i rid Hi|s i rid peer Hi Hb|s i rid peer Hi Hsh
    |s i rid Hi|s b c q b' es Hb Hq E|s b c q es Hb Hq E|s Hc|s Hc].
  - eapply (move_inv s _ i _ (SReg (Registry.next (registry s)))); try done; [by left|].
    by apply regs_register; [apply HI|..].
  - eapply (move_inv s _ i _ SDone); try done; [by left|].
    eapply regs_change; [apply HI|done|by right|done].
  - eapply (move_inv s _ i _ (SEnding rid)); try done; [by left|].
    eapply regs_change; [apply HI|done|by left|done].
  - eapply (move_inv s _ i _ (SEnding rid)); try done; [by right|].
    eapply regs_change; [apply HI|done|by left|done].
  - by eapply leave_inv.
  - eapply (move_inv s _ i _ SDone); try done; [by left|]. by apply regs_deregister; [apply HI|].
  - pose proof (table_of s b HI Hb) as HT. rewrite Hq in HT. split; cbn.
    + apply regs_answered, HI.
    + by eapply table_handles.
    + by eapply closing_handles.
  - split; cbn; [apply HI|done|]. destruct (si_closing _ HI) as [C1 C2 C3].
    split; cbn; [by left|done|]. intros p i a _ Hin. by apply not_elem_of_nil in Hin.
  - pose proof (submit_inv s Close HI eq_refl eq_refl) as [H1 H2 [C1 C2 C3]]. split; [done|done|].
    split; cbn; [|done|done]. intros _. destruct (broker s); [right|by left].
    apply elem_of_app. right. by apply list_elem_of_singleton.
  - pose proof HI as [H1 H2 [C1 C2 C3]]. split; [done|done|]. split; cbn.
    + intros _. apply C1. by left.
    + intros i r p _ Hi. apply elem_of_union_r, elem_of_list_to_set.
      eapply elem_of_shutdown_all. by eapply (r_in _ _ H1).
    + intros p i a _ Hin. apply before_close_elem in Hin.
      destruct (broker s) as [b|] eqn:Eb; [|rewrite H2 in Hin; by apply not_elem_of_nil in Hin].
      destruct (t_up _ _ _ H2 p i a Hin) as [r Hr].
      apply elem_of_union_r, elem_of_list_to_set. eapply elem_of_shutdown_all. by eapply (r_in _ _ H1).
Qed.

Lemma fresh_inv mode del uuid : sys_inv (fresh_system mode del uuid).
Proof.
  split; cbn.
  - split; [|done|done]. split; [done|]. intros id [x Hx]. cbn in Hx. by rewrite lookup_empty in Hx.
  - split; cbn.
    + intros i r p H. by rewrite lookup_nil in H.
    + intros p i H. by rewrite lookup_empty in H.
    + intros p H. by apply not_elem_of_nil in H.
    + apply NoDup_nil_2.
    + intros p i a H. by apply not_elem_of_nil in H.
    + apply NoDup_nil_2.
  - split; cbn; [by intros []|done|done].
Qed.

(** No session is forgotten. *)
Lemma step_length s s' : sys_step s s' -> length (sess s) <= length (sess s').
Proof.
  intros [[]|[]]; cbn; rewrite ?length_insert, ?length_app; try lia.
  unfold answered. destruct c; try lia. destruct (_ !! _) as [[]|]; rewrite ?length_insert; lia.
Qed.

Lemma reachable_sys_inv mode del uuid s :
  rtc sys_step (fresh_system mode del uuid) s -> (Z.of_nat (length (sess s)) < 2 ^ 64)%Z -> sys_inv s.
Proof.
  revert s. apply (rtc_ind_r (fun s => (Z.of_nat (length (sess s)) < 2 ^ 64)%Z -> sys_inv s));
    [intros; apply fresh_inv|]. intros s s' Hr Hs IH Hlen.
  pose proof (step_length _ _ Hs). destruct Hs as [Hs|Hs].
  - eapply outside_inv; [exact Hs|]. apply IH. lia.
  - eapply inside_inv; [exact Hs|lia|]. apply IH. lia.
Qed.

(** ** Termination *)

Definition sess_stage (p : spc) : nat :=
  match p with
  | SNew => 5 | SReg _ => 4 | SWait _ _ => 3 | SOpen _ _ => 2 | SEnding _ => 1 | SDone => 0
  end.

Definition close_stage (c : cpc) : nat :=
  match c with NotClosing => 6 | Flagged => 4 | CloseSent => 2 | AllShut => 0 end.

Definition work s : nat :=
  2 * sum_list_with sess_stage (sess s) + length (queue s) + close_stage (closer s).

Lemma answered_stage c b l :
  sum_list_with sess_stage (answered c b l) <= sum_list_with sess_stage l.
Proof.
  destruct c as [|p i a| | | |]; cbn [answered]; try lia.
  destruct (l !! i) as [[| |rid x| | |]|] eqn:Ei; try lia.
  pose proof (sum_list_with_insert sess_stage l i _
    (if broker_answer b p then SOpen rid p else SEnding rid) Ei) as H.
  destruct (broker_answer b p); cbn in H; lia.
Qed.

Lemma inside_works s s' : inside s s' -> work s' < work s.
Proof.
  assert (Hmove : forall s i x y, sess s !! i = Some x -> sess_stage y < sess_stage x ->
    sum_list_with sess_stage (<[i := y]> (sess s)) < sum_list_with sess_stage (sess s)).
  { intros s0 i x y Hi Hy. pose proof (sum_list_with_insert sess_stage (sess s0) i x y Hi). lia. }
  intros [s0 i Hi|s0 i Hi|s0 i rid Hi|s0 i rid peer Hi Hb|s0 i rid peer Hi Hsh
    |s0 i rid Hi|s0 b c q b' es Hb Hq E|s0 b c q es Hb Hq E|s0 Hc|s0 Hc]; unfold work; cbn.
  - pose proof (Hmove _ _ _ (SReg (Registry.next (registry s0))) Hi ltac:(cbn; lia)). lia.
  - pose proof (Hmove _ _ _ SDone Hi ltac:(cbn; lia)). lia.
  - pose proof (Hmove _ _ _ (SEnding rid) Hi ltac:(cbn; lia)). lia.
  - pose proof (Hmove _ _ _ (SEnding rid) Hi ltac:(cbn; lia)). lia.
  - pose proof (Hmove _ _ _ (SEnding rid) Hi ltac:(cbn; lia)).
    destruct (broker s0); rewrite ?length_app; simpl; lia.
  - pose proof (Hmove _ _ _ SDone Hi ltac:(cbn; lia)). lia.
  - rewrite Hq. pose proof (answered_stage c b (sess s0)). simpl. lia.
  - rewrite Hq. simpl. lia.
  - rewrite Hc. destruct (broker s0); rewrite ?length_app; simpl; lia.
  - rewrite Hc. simpl. lia.
Qed.

Lemma inside_terminates s : Acc (fun s' s => inside s s') s.
Proof.
  remember (work s) as n eqn:Hn. revert s Hn. induction (lt_wf n) as [n _ IH]. intros s Hn.
  constructor. intros s' Hs. apply inside_works in Hs. eapply IH; [|reflexivity]. lia.
Qed.

(** While the broker lives it can take the next command. *)
Lemma broker_steps s b c q : broker s = Some b -> queue s = c :: q -> exists s', inside s s'.
Proof.
  intros Hb Hq. destruct (handle b c) as [[b'|] es] eqn:E; eexists; [by eapply i_handles|by eapply i_ends].
Qed.

Lemma stuck_is_done s :
  sys_inv s -> closer s = AllShut -> (forall s', ~ inside s s') ->
  broker s = None /\ Forall (fun p => p = SDone) (sess s).
Proof.
  intros HI Hc Hstuck. destruct (si_closing _ HI) as [C1 C2 C3].
  assert (Hb : broker s = None).
  { destruct (C1 ltac:(by right)) as [|Hq]; [done|]. destruct (broker s) as [b|] eqn:Eb; [|done].
    destruct (queue s) as [|c q] eqn:Eq; [by apply not_elem_of_nil in Hq|].
    destruct (broker_steps s b c q Eb Eq) as [s' Hs]. by destruct (Hstuck s'). }
  split; [done|]. apply Forall_lookup. intros i p Hi.
  destruct p as [|rid|rid peer|rid peer|rid|]; [..|done]; exfalso; eapply Hstuck.
  - by eapply i_register.
  - by eapply i_no_hello.
  - by eapply i_dropped.
  - eapply i_shut_down; [done|by eapply C2].
  - by eapply i_deregister.
Qed.

(** ** Theorems *)

(** C18: The broker's table is the open sessions.  However connections,
    handshakes, messages, hang-ups and the broker interleave, a session that
    is open is the table's entry for its peer under its own channel; two
    sessions are never open with the same peer, a duplicate having been turned
    down; an entry without an open session has its removal under way; and no
    report of an end is ever under way that would remove the entry of a
    session that is still open. *)
Theorem table_is_open_sessions mode del uuid s b :
  rtc sys_step (fresh_system mode del uuid) s -> (Z.of_nat (length (sess s)) < 2 ^ 64)%Z ->
  broker s = Some b ->
  (forall i rid p, sess s !! i = Some (SOpen rid p) ->
    conns b !! p = Some i /\ ConnectionDown p ∉ queue s) /\
  (forall i j rid rid' p, sess s !! i = Some (SOpen rid p) -> sess s !! j = Some (SOpen rid' p) ->
    i = j) /\
  (forall p i, conns b !! p = Some i ->
    (exists rid, sess s !! i = Some (SOpen rid p)) \/ ConnectionDown p ∈ queue s).
Proof.
  intros Hr Hl Hb. pose proof (table_of s b (reachable_sys_inv _ _ _ _ Hr Hl) Hb) as [H1 H2 _ _ _ _].
  split_and!; [done| |done]. intros i j r r' p Hi Hj.
  destruct (H1 i r p Hi) as [Ei _], (H1 j r' p Hj) as [Ej _]. congruence.
Qed.

(** C19: [close] leaves no connection behind.  Once its [shutdown_all] has
    returned, at whatever points it was interleaved with connections coming
    up, every session that is open, now or at any later time, has had its
    socket shut down: a session the broker accepts has put its socket into the
    registry before, and one that registers too late is not accepted. *)
Theorem close_reaches_every_session mode del uuid s i rid p :
  rtc sys_step (fresh_system mode del uuid) s -> (Z.of_nat (length (sess s)) < 2 ^ 64)%Z ->
  closer s = AllShut -> sess s !! i = Some (SOpen rid p) -> i ∈ shut s.
Proof.
  intros Hr Hl Hc Hi. by eapply (cl_open _ (si_closing _ (reachable_sys_inv _ _ _ _ Hr Hl))).
Qed.

(** C12: [close] returns.  From any state in which it has called
    [shutdown_all], the socket's own steps cannot go on for ever, in whatever
    order they are taken, and they stop only when the broker has ended and
    every session is over and deregistered, so that every thread [close]
    joins ends; no help from any peer is needed. *)
Theorem close_completes mode del uuid s :
  rtc sys_step (fresh_system mode del uuid) s -> (Z.of_nat (length (sess s)) < 2 ^ 64)%Z ->
  closer s = AllShut ->
  Acc (fun s' s => inside s s') s /\
  ((forall s', ~ inside s s') -> broker s = None /\ Forall (fun p => p = SDone) (sess s)).
Proof.
  intros Hr Hl Hc. split; [apply inside_terminates|]. intros Hstuck.
  apply stuck_is_done; [by eapply reachable_sys_inv|done..].
Qed.

(** *** A run: one peer comes up, another hangs in its handshake, and the
    socket is closed. *)
Definition up_cmd : Command := ConnectionUp peer_id 0 0.
Definition sys0 : System := fresh_system RoundRobin AtMostOnce (replicate 16 x00).
Definition sys1 := spawn (spawn sys0).
Definition sys2 := set_sess 0 (SReg 0) (set_registry (Registry.register (registry sys1) 0).1 sys1).
Definition sys3 := set_sess 1 (SReg 1) (set_registry (Registry.register (registry sys2) 1).1 sys2).
Definition sys4 := submit up_cmd (set_sess 0 (SWait 0 peer_id) sys3).
Definition broker5 : Broker := (handle_up (new_broker RoundRobin AtMostOnce (replicate 16 x00)) peer_id 0 0).1.
Definition sys5 := mkSystem (Some broker5) [] (registry sys4) [SOpen 0 peer_id; SReg 1] ∅ NotClosing.
Definition sys6 := set_closer Flagged sys5.
Definition sys7 := set_closer CloseSent (submit Close sys6).
Definition sys8 := set_closer AllShut
  (set_shut (shut sys7 ∪ list_to_set (Registry.shutdown_all (registry sys7))) sys7).

Lemma sys5_reachable : rtc sys_step sys0 sys5.
Proof.
  apply (rtc_l _ _ (spawn sys0)); [left; constructor|].
  apply (rtc_l _ _ sys1); [left; constructor|].
  apply (rtc_l _ _ sys2); [right; apply (i_register sys1 0); reflexivity|].
  apply (rtc_l _ _ sys3); [right; apply (i_register sys2 1); reflexivity|].
  apply (rtc_l _ _ sys4); [left; by apply (o_hello sys3 0 0 peer_id); [|eexists]|].
  apply rtc_once. right.
  exact (i_handles sys4 (new_broker RoundRobin AtMostOnce (replicate 16 x00)) up_cmd [] broker5
    [Accept 0 true] eq_refl eq_refl eq_refl).
Qed.

Lemma sys8_reachable : rtc sys_step sys0 sys8.
Proof.
  etransitivity; [apply sys5_reachable|].
  apply (rtc_l _ _ sys6); [left; by apply o_close|].
  apply (rtc_l _ _ sys7); [right; by apply i_send_close|].
  apply rtc_once. right. by apply i_shutdown_all.
Qed.

Lemma table_is_open_sessions_witness :
  (forall i rid p, sess sys5 !! i = Some (SOpen rid p) ->
    conns broker5 !! p = Some i /\ ConnectionDown p ∉ queue sys5) /\
  (forall i j rid rid' p, sess sys5 !! i = Some (SOpen rid p) -> sess sys5 !! j = Some (SOpen rid' p) ->
    i = j) /\
  (forall p i, conns broker5 !! p = Some i ->
    (exists rid, sess sys5 !! i = Some (SOpen rid p)) \/ ConnectionDown p ∈ queue sys5).
Proof.
  exact (table_is_open_sessions RoundRobin AtMostOnce (replicate 16 x00) sys5 broker5 sys5_reachable
    eq_refl eq_refl).
Defined.

Lemma close_reaches_every_session_witness : sess sys8 !! 0 = Some (SOpen 0 peer_id) /\ 0 ∈ shut sys8.
Proof.
  split; [reflexivity|].
  exact (close_reaches_every_session RoundRobin AtMostOnce (replicate 16 x00) sys8 0 0 peer_id
    sys8_reachable eq_refl eq_refl eq_refl).
Defined.

Lemma close_completes_witness :
  Acc (fun s' s => inside s s') sys8 /\
  ((forall s', ~ inside sys8 s') -> broker sys8 = None /\ Forall (fun p => p = SDone) (sess sys8)).
Proof.
  exact (close_completes RoundRobin AtMostOnce (replicate 16 x00) sys8 sys8_reachable eq_refl eq_refl).
Defined.
