(* ===== verification/Socket.v ===== *)
(** * Socket: the public interface of the synchronous crate

    Models [SocketBuilder] and [Socket] of [rust-lib-sync/src/lib.rs].  A
    [Socket] is cheap to clone and all clones share one [Inner], so the
    operations take and return that state.  The threads are what [spawn] was
    given; sockets and name resolution of the operating system, and the uuid
    generator, are arguments.  [socket_refines] says what any sequence of calls
    comes to, in terms of the calls before and behind the first [close]. *)

From S2P Require Import Prelude Io WsFrame WsStream Upgrade Protocol Timers Broker Conn.
From S2P Require Import ConnProps Tls TlsProps TlsNull Loops.
From Stdlib Require Import Strings.Byte.

(** [crate::Error] and [crate::Result]. *)
Inductive Error :=
| Io (e : ErrorKind)
| Closed
| BadAddress
| InvalidServerName.

Abbreviation Result := (sum Error).
Abbreviation Good := inr.
Abbreviation Bad := inl.

(** ** The builder *)

Record SocketBuilder := mkBuilder {
  b_send_mode : SendMode;
  b_delivery : DeliveryGuarantee;
  b_identity : option Identity;
  b_reconnect_delay : nat -> Z;
}.

(** A delay is drawn anew for each attempt: [b_reconnect_delay k] is what the
    strategy returns the [k]-th time. *)
Definition default_builder : SocketBuilder :=
  mkBuilder RoundRobin AtMostOnce None (fun _ => 100000000%Z).

Definition builder : SocketBuilder := default_builder.

Definition set_send_mode (b : SocketBuilder) (mode : SendMode) : SocketBuilder :=
  mkBuilder mode (b_delivery b) (b_identity b) (b_reconnect_delay b).

Definition set_delivery_guarantee (b : SocketBuilder) (g : DeliveryGuarantee) : SocketBuilder :=
  mkBuilder (b_send_mode b) g (b_identity b) (b_reconnect_delay b).

Definition set_identity (b : SocketBuilder) (id : Identity) : SocketBuilder :=
  mkBuilder (b_send_mode b) (b_delivery b) (Some id) (b_reconnect_delay b).

Definition set_reconnect_delay (b : SocketBuilder) (f : nat -> Z) : SocketBuilder :=
  mkBuilder (b_send_mode b) (b_delivery b) (b_identity b) f.

(** ** The socket *)

Section Socket.
Context {Listener SocketAddr Stream ServerConfig ClientConfig ServerName : Type}.

(** What [thread::spawn] is given by [bind_with] and [connect_with]. *)
Inductive Thread :=
| AcceptLoop (listener : Listener) (acceptor : Acceptor ServerConfig)
| ConnectLoop (addr : SocketAddr) (connector : Connector ClientConfig ServerName).

(** What a receive on [recv_rx] meets; when the list is used up the broker has
    dropped the sender. *)
Inductive delivery_event :=
| Incoming (from : Identity) (data : bytes)
| Quiet.

(** [streams_shut] is what [shutdown] was called on, [joined] what was
    joined. *)
Record Inner := mkInner {
  identity : Identity;
  reconnect_delay : nat -> Z;
  cmd_tx : CmdTx;
  recv_rx : list delivery_event;
  shutdown : bool;
  registry : Registry.Registry Stream;
  threads : list Thread;
  broker_thread : bool;
  closed : bool;
  streams_shut : list Stream;
  joined : list Thread;
}.

Implicit Type s : Inner.

Definition with_cmd_tx tx s := mkInner (identity s) (reconnect_delay s) tx (recv_rx s) (shutdown s)
  (registry s) (threads s) (broker_thread s) (closed s) (streams_shut s) (joined s).
Definition with_recv_rx rx s := mkInner (identity s) (reconnect_delay s) (cmd_tx s) rx (shutdown s)
  (registry s) (threads s) (broker_thread s) (closed s) (streams_shut s) (joined s).
Definition with_threads ts s := mkInner (identity s) (reconnect_delay s) (cmd_tx s) (recv_rx s)
  (shutdown s) (registry s) ts (broker_thread s) (closed s) (streams_shut s) (joined s).

(** [build]: [uuid] is the identity drawn when none was set, [uuid'] the one
    the broker draws its salt from; [incoming] is what the broker will put on
    the receive channel. *)
Definition build (b : SocketBuilder) (uuid uuid' : bytes) (incoming : list delivery_event)
  : Inner * Broker :=
  (mkInner (default uuid (b_identity b)) (b_reconnect_delay b) (mkCmdTx [] None) incoming false
     Registry.default [] true false [] [],
   new_broker (b_send_mode b) (b_delivery b) uuid').

Definition new (uuid uuid' : bytes) (incoming : list delivery_event) : Inner * Broker :=
  build default_builder uuid uuid' incoming.

(** [listen] is what [TcpListener::bind] and then [local_addr] give. *)
Definition bind_with s (listen : io_result (Listener * io_result SocketAddr))
    (acceptor : Acceptor ServerConfig) : Inner * Result SocketAddr :=
  match listen with
  | Err e => (s, Bad (Io e))
  | Ok (_, Err e) => (s, Bad (Io e))
  | Ok (listener, Ok local_addr) =>
    (with_threads (threads s ++ [AcceptLoop listener acceptor]) s, Good local_addr)
  end.

Definition bind s listen : Inner * Result SocketAddr := bind_with s listen AcceptPlain.

Definition bind_tls s listen (config : ServerConfig) : Inner * Result SocketAddr :=
  bind_with s listen (AcceptTls config).

(** [resolve] is what [to_socket_addrs] gives. *)
Definition connect_with s (resolve : io_result (list SocketAddr))
    (connector : Connector ClientConfig ServerName) : Inner * Result () :=
  if closed s then (s, Bad Closed)
  else
    match resolve with
    | Err e => (s, Bad (Io e))
    | Ok addrs =>
      match hd_error addrs with
      | None => (s, Bad BadAddress)
      | Some resolved => (with_threads (threads s ++ [ConnectLoop resolved connector]) s, Good tt)
      end
    end.

Definition connect s resolve : Inner * Result () := connect_with s resolve ConnectPlain.

(** [parse_name] is [ServerName::try_from]. *)
Definition connect_tls (parse_name : bytes -> option ServerName) s resolve (server_name : bytes)
    (config : ClientConfig) : Inner * Result () :=
  match parse_name server_name with
  | None => (s, Bad InvalidServerName)
  | Some name => connect_with s resolve (ConnectTls config name)
  end.

Definition dispatch s (to : option Identity) (data : bytes) : Inner * Result () :=
  match cmd_send (cmd_tx s) (Send to data) with
  | (tx, true) => (with_cmd_tx tx s, Good tt)
  | (tx, false) => (with_cmd_tx tx s, Bad Closed)
  end.

Definition send s (data : bytes) : Inner * Result () := dispatch s None data.

Definition send_to s (to : Identity) (data : bytes) : Inner * Result () := dispatch s (Some to) data.

(** A blocking receive waits through [Quiet]. *)
Fixpoint recv_blocking (rx : list delivery_event) : list delivery_event * option (Identity * bytes) :=
  match rx with
  | [] => ([], None)
  | Incoming from data :: rx => (rx, Some (from, data))
  | Quiet :: rx => recv_blocking rx
  end.

Definition recv_identity s : Inner * option (Identity * bytes) :=
  let '(rx, r) := recv_blocking (recv_rx s) in (with_recv_rx rx s, r).

Definition recv s : Inner * option bytes :=
  let '(s, r) := recv_identity s in (s, snd <$> r).

(** [Quiet] is a timeout here. *)
Definition recv_timeout s : Inner * option bytes :=
  match recv_rx s with
  | [] => (s, None)
  | Incoming _ data :: rx => (with_recv_rx rx s, Some data)
  | Quiet :: rx => (with_recv_rx rx s, None)
  end.

(** [iter::from_fn] over [recv] and [recv_identity]: the items until the first
    [None].  The fuel is the length of the channel. *)
Fixpoint identity_messages_loop (fuel : nat) s : option (Inner * list (Identity * bytes)) :=
  match fuel with
  | O => None
  | S fuel =>
    match recv_identity s with
    | (s, None) => Some (s, [])
    | (s, Some m) => '(s, l) ← identity_messages_loop fuel s; Some (s, m :: l)
    end
  end.

Definition identity_messages s : option (Inner * list (Identity * bytes)) :=
  identity_messages_loop (S (length (recv_rx s))) s.

Fixpoint messages_loop (fuel : nat) s : option (Inner * list bytes) :=
  match fuel with
  | O => None
  | S fuel =>
    match recv s with
    | (s, None) => Some (s, [])
    | (s, Some m) => '(s, l) ← messages_loop fuel s; Some (s, m :: l)
    end
  end.

Definition messages s : option (Inner * list bytes) := messages_loop (S (length (recv_rx s))) s.

(** [close].  Joining the broker's thread means the broker has dropped its end
    of the command channel. *)
Definition close s : Inner :=
  if closed s then s
  else
    let tx := (cmd_send (cmd_tx s) Close).1 in
    mkInner (identity s) (reconnect_delay s)
      (if broker_thread s then mkCmdTx (queued tx) (Some 0) else tx) (recv_rx s) true (registry s) []
      false true (streams_shut s ++ Registry.shutdown_all (registry s)) (joined s ++ threads s).

(** ** A program's calls, in order *)

(** The calls that may change the socket, with what the operating system gives
    each of them. *)
Inductive call :=
| CBind (listen : io_result (Listener * io_result SocketAddr)) (acceptor : Acceptor ServerConfig)
| CConnect (resolve : io_result (list SocketAddr)) (connector : Connector ClientConfig ServerName)
| CSend (to : option Identity) (data : bytes)
| CRecv
| CRecvTimeout
| CClose.

Inductive answer :=
| ABind (r : Result SocketAddr)
| AConnect (r : Result ())
| ASend (r : Result ())
| ARecv (r : option bytes)
| AClose.

Definition perform s (c : call) : Inner * answer :=
  match c with
  | CBind listen acceptor => let '(s, r) := bind_with s listen acceptor in (s, ABind r)
  | CConnect resolve connector => let '(s, r) := connect_with s resolve connector in (s, AConnect r)
  | CSend to data => let '(s, r) := dispatch s to data in (s, ASend r)
  | CRecv => let '(s, r) := recv s in (s, ARecv r)
  | CRecvTimeout => let '(s, r) := recv_timeout s in (s, ARecv r)
  | CClose => (close s, AClose)
  end.

Fixpoint perform_all s (cs : list call) : Inner * list answer :=
  match cs with
  | [] => (s, [])
  | c :: cs =>
    let '(s, a) := perform s c in
    let '(s, l) := perform_all s cs in (s, a :: l)
  end.

End Socket.
Arguments Thread : clear implicits.
Arguments Inner : clear implicits.
Arguments call : clear implicits.
Arguments answer : clear implicits.

Section SocketProps.
Context {Listener SocketAddr Stream ServerConfig ClientConfig ServerName : Type}.
Abbreviation Inner := (Inner Listener SocketAddr Stream ServerConfig ClientConfig ServerName).
Abbreviation call := (call Listener SocketAddr ServerConfig ClientConfig ServerName).
Abbreviation answer := (answer SocketAddr).
Implicit Type calls before after : list call.

Definition built (b : SocketBuilder) (uuid uuid' : bytes) (incoming : list delivery_event) : Inner :=
  (build b uuid uuid' incoming).1.

(** ** What the calls promise *)

(** The calls before the first one that [p] holds of, and those behind it. *)
Fixpoint until {C} (p : C -> bool) (l : list C) : list C :=
  match l with [] => [] | c :: l => if p c then [] else c :: until p l end.

Fixpoint behind {C} (p : C -> bool) (l : list C) : list C :=
  match l with [] => [] | c :: l => if p c then l else behind p l end.

Lemma until_none {C} (p : C -> bool) l : existsb p (until p l) = false.
Proof. induction l as [|c l IH]; cbn; [done|]. destruct (p c) eqn:E; cbn; by rewrite ?E. Qed.

Definition is_close (c : call) : bool :=
  match c with CClose => true | _ => false end.

Lemma calls_split calls :
  calls = until is_close calls ++ (if existsb is_close calls then CClose :: behind is_close calls else []).
Proof. induction calls as [|[] calls IH]; cbn; f_equal; done. Qed.

Definition payload (e : delivery_event) : option bytes :=
  match e with Incoming _ data => Some data | Quiet => None end.

Definition got (a : answer) : option bytes :=
  match a with ARecv r => r | _ => None end.

(** What binding and connecting come to, by what the system gives. *)
Definition listening (listen : io_result (Listener * io_result SocketAddr)) : Result SocketAddr :=
  match listen with
  | Ok (_, Ok addr) => Good addr
  | Ok (_, Err e) | Err e => Bad (Io e)
  end.

Definition dialling (resolve : io_result (list SocketAddr)) : Result () :=
  match resolve with
  | Ok (_ :: _) => Good tt
  | Ok [] => Bad BadAddress
  | Err e => Bad (Io e)
  end.

(** The answers of an open socket, and those of a closed one; what the receives
    give is the same of both ([receives]). *)
Definition granted (c : call) (a : answer) : Prop :=
  match c with
  | CBind listen _ => a = ABind (listening listen)
  | CConnect resolve _ => a = AConnect (dialling resolve)
  | CSend _ _ => a = ASend (Good tt)
  | CRecv | CRecvTimeout => exists r, a = ARecv r
  | CClose => a = AClose
  end.

Definition refused (c : call) (a : answer) : Prop :=
  match c with
  | CSend _ _ => a = ASend (Bad Closed)
  | CConnect _ _ => a = AConnect (Bad Closed)
  | _ => granted c a
  end.

Definition is_receive (c : call) : bool :=
  match c with CRecv | CRecvTimeout => true | _ => false end.

(** [receives rx calls answers rx']: the receives among the calls take the
    channel from [rx] to [rx'].  [recv] waits for the next message, and gives
    none only when the broker has gone; [recv_timeout] gives what comes in its
    time. *)
Inductive receives : list delivery_event -> list call -> list answer -> list delivery_event -> Prop :=
| receives_nothing rx : receives rx [] [] rx
| receives_message pauses from data rx calls answers rx' :
  receives rx calls answers rx' ->
  receives (replicate pauses Quiet ++ Incoming from data :: rx) (CRecv :: calls)
    (ARecv (Some data) :: answers) rx'
| receives_end pauses calls answers rx' :
  receives [] calls answers rx' ->
  receives (replicate pauses Quiet) (CRecv :: calls) (ARecv None :: answers) rx'
| receives_in_time e rx calls answers rx' :
  receives rx calls answers rx' ->
  receives (e :: rx) (CRecvTimeout :: calls) (ARecv (payload e) :: answers) rx'
| receives_gone calls answers rx' :
  receives [] calls answers rx' -> receives [] (CRecvTimeout :: calls) (ARecv None :: answers) rx'
| receives_other rx c a calls answers rx' :
  is_receive c = false -> receives rx calls answers rx' ->
  receives rx (c :: calls) (a :: answers) rx'.

(** The command and the thread a call adds on an open socket, and the thread on
    a closed one. *)
Definition sent (c : call) : option Command :=
  match c with CSend to data => Some (Send to data) | _ => None end.

Definition started (c : call) : option (Thread Listener SocketAddr ServerConfig ClientConfig ServerName) :=
  match c with
  | CBind (Ok (l, Ok _)) acceptor => Some (AcceptLoop l acceptor)
  | CConnect (Ok (addr :: _)) connector => Some (ConnectLoop addr connector)
  | _ => None
  end.

Definition started_late (c : call) : option (Thread Listener SocketAddr ServerConfig ClientConfig ServerName) :=
  match c with CBind _ _ => started c | _ => None end.

Lemma recv_blocking_cut rx :
  match recv_blocking rx with
  | (rx', Some (from, data)) => exists n, rx = replicate n Quiet ++ Incoming from data :: rx'
  | (rx', None) => rx' = [] /\ exists n, rx = replicate n Quiet
  end.
Proof.
  induction rx as [|[from d| ] rx IH]; cbn; [by split; [|exists 0]|by exists 0|].
  destruct (recv_blocking rx) as [rx' [[from d]|]].
  - destruct IH as [n ->]. by exists (S n).
  - destruct IH as [-> [n ->]]. split; [done|]. by exists (S n).
Qed.

Lemma perform_receives (s : Inner) c calls answers rx' :
  let '(s', a) := perform s c in
  receives (recv_rx s') calls answers rx' -> receives (recv_rx s) (c :: calls) (a :: answers) rx'.
Proof.
  destruct c as [[[l [addr|e]]|e] acc|r k|to d| | | ]; cbn; try by apply receives_other.
  - unfold connect_with. destruct (closed s), r as [[|x l]|e]; cbn; by apply receives_other.
  - unfold dispatch. destruct (cmd_send _ _) as [tx []]; cbn; by apply receives_other.
  - unfold recv, recv_identity. pose proof (recv_blocking_cut (recv_rx s)) as H.
    destruct (recv_blocking (recv_rx s)) as [rx [[from d]|]]; cbn.
    + destruct H as [n ->]. apply receives_message.
    + destruct H as [-> [n ->]]. apply receives_end.
  - unfold recv_timeout. destruct (recv_rx s) as [|e rx] eqn:E; [|destruct e]; cbn; rewrite ?E;
      [apply receives_gone|apply (receives_in_time (Incoming _ _))|apply (receives_in_time Quiet)].
  - unfold close. destruct (closed s); cbn; by apply receives_other.
Qed.

Lemma perform_all_receives calls : forall s : Inner,
  let '(s', answers) := perform_all s calls in receives (recv_rx s) calls answers (recv_rx s').
Proof.
  induction calls as [|c calls IH]; intros s; cbn [perform_all]; [constructor|].
  pose proof (perform_receives s c) as H. destruct (perform s c) as [s1 a].
  specialize (IH s1). destruct (perform_all s1 calls) as [s2 l]. by apply H.
Qed.

Lemma perform_all_app calls calls' : forall s : Inner,
  perform_all s (calls ++ calls') =
    let '(s, l) := perform_all s calls in
    let '(s, l') := perform_all s calls' in (s, l ++ l').
Proof.
  induction calls as [|c calls IH]; intros s; cbn [perform_all app].
  { by destruct (perform_all s calls'). }
  destruct (perform s c) as [s1 a]. rewrite IH. destruct (perform_all s1 calls) as [s2 l].
  by destruct (perform_all s2 calls').
Qed.

(** The state in which nothing but the calls' own additions has changed. *)
Record opened (s s' : Inner) (cmds : list Command) (ts : list (Thread Listener SocketAddr ServerConfig ClientConfig ServerName)) : Prop := {
  op_closed : closed s' = false;
  op_flag : shutdown s' = shutdown s;
  op_broker : broker_thread s' = broker_thread s;
  op_tx : cmd_tx s' = mkCmdTx (queued (cmd_tx s) ++ cmds) None;
  op_threads : threads s' = threads s ++ ts;
  op_joined : joined s' = joined s;
}.

Lemma open_perform (s : Inner) c :
  closed s = false -> gone_after (cmd_tx s) = None -> is_close c = false ->
  let '(s', a) := perform s c in
  granted c a /\ opened s s' (option_list (sent c)) (option_list (started c)).
Proof.
  intros Hc Hg Hn. assert (Htx : cmd_tx s = mkCmdTx (queued (cmd_tx s) ++ []) None).
  { rewrite app_nil_r, <- Hg. by destruct (cmd_tx s). }
  destruct c as [[[l [addr|e]]|e] acc|r k|to d| | | ]; cbn; try done;
    try (split; [done|]; split; cbn; rewrite ?app_nil_r in *; done).
  - unfold connect_with. rewrite Hc. destruct r as [[|x l]|e]; cbn; (split; [done|]); split; cbn;
      rewrite ?app_nil_r in *; done.
  - unfold dispatch, cmd_send. rewrite Hg. split; [done|]. split; cbn; rewrite ?app_nil_r; done.
  - unfold recv, recv_identity. destruct (recv_blocking (recv_rx s)). split; [by eexists|].
    split; cbn; rewrite ?app_nil_r in *; done.
  - unfold recv_timeout. destruct (recv_rx s) as [|[] rx]; (split; [by eexists|]); split; cbn;
      rewrite ?app_nil_r in *; done.
Qed.

Lemma open_perform_all calls : forall s : Inner,
  closed s = false -> gone_after (cmd_tx s) = None -> existsb is_close calls = false ->
  let '(s', answers) := perform_all s calls in
  Forall2 granted calls answers /\ opened s s' (omap sent calls) (omap started calls).
Proof.
  induction calls as [|c calls IH]; intros s Hc Hg Hn; cbn [perform_all].
  { split; [done|]. split; rewrite ?app_nil_r, <- ?Hg; try done. by destruct (cmd_tx s). }
  apply orb_false_iff in Hn as [Hn1 Hn2]. pose proof (open_perform s c Hc Hg Hn1) as H.
  destruct (perform s c) as [s1 a]. destruct H as [Ha []].
  specialize (IH s1 op_closed0 ltac:(by rewrite op_tx0) Hn2).
  destruct (perform_all s1 calls) as [s2 l]. destruct IH as [Hl []].
  split; [by constructor|]. csimpl.
  split; try congruence; [rewrite op_tx1, op_tx0|rewrite op_threads1, op_threads0]; cbn;
    rewrite <- app_assoc; [by destruct (sent c)|by destruct (started c)].
Qed.

Lemma recv_blocking_payloads rx :
  omap payload rx = option_list (snd <$> (recv_blocking rx).2) ++ omap payload (recv_blocking rx).1.
Proof. induction rx as [|[] rx IH]; csimpl; [done..|]. by rewrite IH. Qed.

Lemma closed_perform (s : Inner) c :
  closed s = true -> gone_after (cmd_tx s) = Some 0 ->
  let '(s', a) := perform s c in
  refused c a /\ closed s' = true /\ shutdown s' = shutdown s /\ cmd_tx s' = cmd_tx s /\
  streams_shut s' = streams_shut s /\ joined s' = joined s /\
  threads s' = threads s ++ option_list (started_late c) /\
  omap payload (recv_rx s) = option_list (got a) ++ omap payload (recv_rx s').
Proof.
  intros Hc Hg. destruct c as [[[l [addr|e]]|e] acc|r k|to d| | | ]; cbn; rewrite ?app_nil_r; try done.
  - unfold connect_with. by rewrite Hc.
  - unfold dispatch, cmd_send. rewrite Hg. cbn. by destruct s.
  - unfold recv, recv_identity. rewrite (recv_blocking_payloads (recv_rx s)).
    destruct (recv_blocking (recv_rx s)) as [rx r]. cbn. split_and!; try done. by eexists.
  - unfold recv_timeout. destruct (recv_rx s) as [|[] rx] eqn:E; cbn; rewrite ?E; split_and!; try done;
      by eexists.
  - unfold close. by rewrite Hc.
Qed.

Lemma closed_perform_all calls : forall s : Inner,
  closed s = true -> gone_after (cmd_tx s) = Some 0 ->
  let '(s', answers) := perform_all s calls in
  Forall2 refused calls answers /\ closed s' = true /\ shutdown s' = shutdown s /\ cmd_tx s' = cmd_tx s /\
  streams_shut s' = streams_shut s /\ joined s' = joined s /\
  threads s' = threads s ++ omap started_late calls /\
  omap payload (recv_rx s) = omap got answers ++ omap payload (recv_rx s').
Proof.
  induction calls as [|c calls IH]; intros s Hc Hg; cbn [perform_all]; [split_and!; by rewrite ?app_nil_r|].
  pose proof (closed_perform s c Hc Hg) as H. destruct (perform s c) as [s1 a].
  destruct H as (Hr & Hc1 & Hf & Ht & Hs & Hj & Hl & Hp). specialize (IH s1 Hc1 ltac:(congruence)).
  destruct (perform_all s1 calls) as [s2 l].
  destruct IH as (IHr & IHc & IHf & IHt & IHs & IHj & IHl & IHp).
  split_and!; [by constructor|congruence..| |].
  - rewrite IHl, Hl, <- app_assoc. csimpl. by destruct (started_late c).
  - rewrite Hp, IHp. csimpl. by destruct (got a).
Qed.

(** The state behind the first [close]. *)
Lemma closed_after b uuid uuid' incoming before :
  existsb is_close before = false ->
  let '(s0, answers) := perform_all (built b uuid uuid' incoming) before in
  Forall2 granted before answers /\
  closed s0 = false /\ shutdown s0 = false /\ queued (cmd_tx s0) = omap sent before /\
  threads s0 = omap started before /\ joined s0 = [] /\
  threads (close s0) = [] /\ joined (close s0) = omap started before /\ closed (close s0) = true /\
  shutdown (close s0) = true /\
  recv_rx (close s0) = recv_rx s0 /\ cmd_tx (close s0) = mkCmdTx (omap sent before ++ [Close]) (Some 0).
Proof.
  intros Hn. pose proof (open_perform_all before (built b uuid uuid' incoming) eq_refl eq_refl Hn) as H.
  destruct (perform_all _ before) as [s0 l]. destruct H as [Hl []]. cbn in *.
  unfold close. rewrite op_closed0, op_broker0, op_tx0, op_threads0, op_joined0. by split_and!.
Qed.

(** C20: The socket does what its interface promises, over any sequence of calls
    on a new socket.  Up to the first [close], every send is accepted, and every
    bind and connect answers what listening and resolving gave; from then on,
    every send and connect fails with [Closed], while binds still answer so.
    The broker has been handed the sends made before the first [close], in
    order, and then one [Close], however many follow.  The first [close] joins
    the loops started before it, one per bind and connect that succeeded, in
    order; the loops that a later bind starts are joined by no [close], and
    without one none is joined.  The receives, open or closed, take the
    messages that arrive in order, none skipped and none twice: [recv] waits for
    the next one, and [recv_timeout] gives it if it comes in its time. *)
Theorem socket_refines b uuid uuid' incoming calls :
  let '(s, answers) := perform_all (built b uuid uuid' incoming) calls in
  let before := until is_close calls in
  let after := behind is_close calls in
  let closing := existsb is_close calls in
  (exists answers1 answers2,
    answers = answers1 ++ (if closing then AClose :: answers2 else []) /\
    Forall2 granted before answers1 /\ Forall2 refused after answers2) /\
  queued (cmd_tx s) = omap sent before ++ (if closing then [Close] else []) /\
  joined s = (if closing then omap started before else []) /\
  threads s = (if closing then omap started_late after else omap started before) /\
  closed s = closing /\ shutdown s = closing /\
  receives incoming calls answers (recv_rx s).
Proof.
  pose proof (perform_all_receives calls (built b uuid uuid' incoming)) as Hr.
  destruct (perform_all _ calls) as [s answers] eqn:E. intros before after closing.
  rewrite (calls_split calls), perform_all_app in E. fold before after closing in E. revert E.
  pose proof (closed_after b uuid uuid' incoming before (until_none _ _)) as H.
  destruct (perform_all _ before) as [s0 l]. destruct H as (Hg & Hc & Hs & Hq & Ht & Hj & Ht1 & Hj1 & Hc1 & Hs1 & _ & Hq1).
  destruct closing eqn:Ec; cbn [perform_all perform].
  - pose proof (closed_perform_all after (close s0) Hc1 ltac:(by rewrite Hq1)) as H.
    destruct (perform_all (close s0) after) as [s2 l2]. destruct H as (Hr2 & Hc2 & Hf2 & Hq2 & _ & Hj2 & Ht2 & _).
    intros [= <- <-]. split; [by exists l, l2|]. rewrite Hq2, Hq1, Hj2, Ht2, Ht1, Hc2, Hf2. by split_and!.
  - intros [= <- <-]. rewrite !app_nil_r in *. split; [|by split_and!].
    exists l, []. split_and!; [by rewrite app_nil_r|done|].
    assert (Hno : after = []); [|by rewrite Hno].
    subst after closing. clear -Ec. induction calls as [|[] calls IH]; cbn in *; auto; done.
Qed.

(** [close] is final. Whatever was done before it, it joins every loop that
    was started and ends the command channel with one [Close] after the sends,
    in order; whatever is done after it, sends and connects fail with [Closed],
    nothing more reaches the broker, no stream is shut down or thread joined
    again, a second [close] changes nothing, and the receives give the messages
    delivered before, in order, and then nothing. *)
Theorem close_is_final b uuid uuid' incoming before after :
  existsb is_close before = false ->
  let s0 := (perform_all (built b uuid uuid' incoming) before).1 in
  let s1 := close s0 in
  let '(s2, answers) := perform_all s1 after in
  threads s1 = [] /\ joined s1 = omap started before /\
  queued (cmd_tx s1) = omap sent before ++ [Close] /\ recv_rx s1 = recv_rx s0 /\
  Forall2 refused after answers /\ cmd_tx s2 = cmd_tx s1 /\
  streams_shut s2 = streams_shut s1 /\ joined s2 = joined s1 /\ close s2 = s2 /\
  omap payload (recv_rx s1) = omap got answers ++ omap payload (recv_rx s2).
Proof.
  intros Hn s0 s1. pose proof (closed_after b uuid uuid' incoming before Hn) as H.
  subst s1 s0. destruct (perform_all _ before) as [s0 l]. cbn [fst].
  destruct H as (_ & _ & _ & _ & _ & _ & Ht1 & Hj1 & Hc1 & _ & Hr1 & Hq1).
  pose proof (closed_perform_all after (close s0) Hc1 ltac:(by rewrite Hq1)) as H.
  destruct (perform_all _ after) as [s2 answers]. destruct H as (Hr & Hc & _ & Htx & Hss & Hjj & _ & Hp).
  split_and!; try done; [by rewrite Hq1|]. unfold close at 1. by rewrite Hc.
Qed.

Definition item (e : delivery_event) : option (Identity * bytes) :=
  match e with Incoming from data => Some (from, data) | Quiet => None end.

Lemma recv_blocking_items rx :
  match recv_blocking rx with
  | (rx', None) => rx' = [] /\ omap item rx = []
  | (rx', Some m) => omap item rx = m :: omap item rx' /\ length rx' < length rx
  end.
Proof.
  induction rx as [|[from d| ] rx IH]; cbn; [done|by split; [|lia]|].
  destruct (recv_blocking rx) as [rx' [m|]]; [|done]. destruct IH. split; [done|lia].
Qed.

Lemma identity_messages_all fuel (s : Inner) :
  length (recv_rx s) < fuel ->
  identity_messages_loop fuel s = Some (with_recv_rx [] s, omap item (recv_rx s)).
Proof.
  revert s. induction fuel as [|fuel IH]; intros s Hf; [lia|]. cbn [identity_messages_loop].
  unfold recv_identity. pose proof (recv_blocking_items (recv_rx s)) as H.
  destruct (recv_blocking (recv_rx s)) as [rx [m|]]; destruct H as [H1 H2].
  - rewrite IH by (cbn; lia). cbn. by rewrite H1.
  - subst rx. by rewrite H2.
Qed.

Lemma messages_identity fuel : forall s : Inner,
  messages_loop fuel s =
  ('(s', l) ← identity_messages_loop fuel s; Some (s', l.*2)).
Proof.
  induction fuel as [|fuel IH]; intros s; [done|]. cbn [messages_loop identity_messages_loop].
  unfold recv. destruct (recv_identity s) as [s' [m|]]; cbn; [|done].
  rewrite IH. by destruct (identity_messages_loop fuel s') as [[]|].
Qed.

(** The iterators give everything. However long the pauses between them,
    [identity_messages] and [messages] yield exactly the messages delivered, in
    order, and end when the broker has dropped the channel, which they leave
    empty. *)
Theorem messages_give_all (s : Inner) :
  identity_messages s = Some (with_recv_rx [] s, omap item (recv_rx s)) /\
  messages s = Some (with_recv_rx [] s, omap payload (recv_rx s)).
Proof.
  unfold identity_messages, messages.
  rewrite messages_identity, identity_messages_all by lia. split; [done|]. cbn. do 2 f_equal.
  induction (recv_rx s) as [|[] l IH]; csimpl; by rewrite ?IH.
Qed.

(** [bind] on a closed socket reports success and starts a loop, which finds
    the shutdown flag set and serves nobody. *)
Lemma bind_after_close_serves_nobody (s : Inner) l addr acceptor (r : io_result Stream) rounds :
  closed (close s) = true /\
  bind_with (close s) (Ok (l, Ok addr)) acceptor =
    (with_threads (threads (close s) ++ [AcceptLoop l acceptor]) (close s), Good addr) /\
  (closed s = false -> shutdown (close s) = true) /\
  accept_loop (ClientConfig := ClientConfig) (ServerName := ServerName) acceptor
    ((true, r) :: rounds) [] = ([], true).
Proof. unfold close. by destruct (closed s) eqn:E; split_and!. Qed.
End SocketProps.

Definition demo_calls : list (call nat nat unit unit unit) :=
  [CBind (Ok (7, Ok 25)) AcceptPlain; CSend None [x01]; CConnect (Ok []) ConnectPlain;
   CConnect (Ok [1; 2]) ConnectPlain; CSend (Some []) [x02]].

Definition late_calls : list (call nat nat unit unit unit) := [CSend None []; CRecv; CRecv].

Lemma close_is_final_witness :
  let s0 := (perform_all (built (Stream := unit) default_builder [] [] [Incoming [] [x03]]) demo_calls).1 in
  let s1 := close s0 in
  let '(s2, answers) := perform_all s1 late_calls in
  threads s1 = [] /\ joined s1 = omap started demo_calls /\
  queued (cmd_tx s1) = omap sent demo_calls ++ [Close] /\ recv_rx s1 = recv_rx s0 /\
  Forall2 refused late_calls answers /\ cmd_tx s2 = cmd_tx s1 /\
  streams_shut s2 = streams_shut s1 /\ joined s2 = joined s1 /\ close s2 = s2 /\
  omap payload (recv_rx s1) = omap got answers ++ omap payload (recv_rx s2).
Proof.
  apply (close_is_final default_builder [] [] [Incoming [] [x03]] demo_calls late_calls).
  reflexivity.
Defined.
