(* ===== verification/EndToEnd.v ===== *)
(** * EndToEnd: two sockets over one plain connection

    Composes [Broker], the plain sessions of [Conn] and [Socket::messages]: the
    payloads one program sends, through its broker, its writer thread, the
    bytes on the wire, in any cut that [clean_cut] allows, the other side's
    session and broker, to the other program; and the acknowledgements all the way back. *)

From S2P Require Import Prelude Io Protocol Timers Broker BrokerProps Conn ConnProps Loops Socket.
From Stdlib Require Import Strings.Byte.

(** The calls of [Socket::send] and [send_to] as the broker sees them. *)
Definition sends (ms : list (option Identity * bytes)) : list Command :=
  (fun m => Send m.1 m.2) <$> ms.

(** What the broker hands to a writer, and what the writer takes from its
    mailbox. *)
Definition frame_to (w : Sender) (e : Effect) : option bytes :=
  match e with Transmit tx frame => if decide (tx = w) then Some frame else None | _ => None end.

Definition mail_frame (m : mail) : option bytes :=
  match m with Mail f => Some f | NoMail => None end.

(** What the broker puts on the receive channel. *)
Definition delivered (e : Effect) : option delivery_event :=
  match e with Deliver from payload => Some (Incoming from payload) | _ => None end.

(** What the writer puts on the wire for a mailbox. *)
Definition written (mb : Mailbox) : bytes :=
  mjoin ((fun m => match m with Mail f => f | NoMail => heartbeat end) <$> mb).

(** A cut of a peer's bytes, its HELLO first, into reads: faults that the
    handshake retries before, interruptions after, and the read that completes
    the HELLO ending at a frame boundary. *)
Record clean_cut (r : list read_event) (peer : Identity) (rest : bytes) : Prop := {
  cc_bytes : script_bytes r = hello peer ++ rest;
  cc_cut : exists pre last post b1, r = pre ++ RChunk last :: post /\
    Forall benign pre /\ Forall fits pre /\ length last <= 16 * 1024 /\ Forall quiet post /\
    length (script_bytes pre) < length (hello peer) /\
    Forall small b1 /\ script_bytes pre ++ last = hello peer ++ wire b1;
}.

(** ** The sending broker *)

(** The envelope that carries a message, tracked or not. *)
Definition carries (m : option Identity * bytes) (e : Envelope) : Prop :=
  e = Data m.2 \/ exists id, length id = MSG_ID_SIZE /\ e = DataReq id m.2.

Definition envelope_id (e : Envelope) : option MsgId :=
  match e with DataReq id _ => Some id | _ => None end.

Lemma route_sole_frame b id w target frame b' es :
  sole b id w -> target = None \/ target = Some id -> route b target frame = (b', es) ->
  omap (frame_to w) es = [frame] /\ pending b' = pending b.
Proof.
  intros (Hc & Ho & _) Ht. unfold route, send_to_conn. destruct target as [i|].
  - destruct Ht as [|[= ->]]; [done|]. rewrite Hc, lookup_singleton_eq.
    intros; simplify_eq/=. by rewrite decide_True.
  - destruct (send_mode b).
    + unfold next_round_robin. rewrite Ho, decide_False by done.
      change (zlen [id]) with 1%Z. rewrite Z.mod_1_r. simpl. rewrite Hc, lookup_singleton_eq.
      intros; simplify_eq/=. by rewrite decide_True.
    + rewrite Hc, map_to_list_singleton. intros; simplify_eq/=. by rewrite decide_True.
Qed.

Lemma handle_send_frame b id w m b' es :
  sole b id w -> for_peer id m -> handle_send b m.1 m.2 = (b', es) ->
  sole b' id w /\ exists e, omap (frame_to w) es = [encode e] /\ carries m e /\
    forall k, is_Some (pending b' !! k) -> is_Some (pending b !! k) \/ envelope_id e = Some k.
Proof.
  intros Hs Hm E. split; [by eapply same_links_sole; [eapply handle_send_links|]|].
  unfold handle_send in E.
  rewrite decide_False in E by (destruct Hs as [-> _]; apply map_non_empty_singleton).
  unfold transmit in E. destruct (tracks b m.1).
  - destruct (next_msg_id b) as [k b1] eqn:E1. unfold next_msg_id in E1. injection E1 as <- <-.
    destruct (route _ m.1 _) as [b2 es2] eqn:E2. simplify_eq.
    eapply route_sole_frame in E2 as [Hf Hp]; [|by destruct Hs as (?&?&?)|done]. cbn in Hp.
    eexists (DataReq _ m.2). csimpl. split_and!; [exact Hf| |].
    + right. eexists. split; [|done]. apply length_id_of, Hs.
    + intros k. rewrite Hp, lookup_insert_is_Some. naive_solver.
  - eapply route_sole_frame in E as [Hf Hp]; [|done..].
    exists (Data m.2). split_and!; [exact Hf|by left|]. intros k. rewrite Hp. by left.
Qed.

Lemma send_each_frames b id w ms b' es :
  sole b id w -> Forall (for_peer id) ms -> send_each b ms = (b', es) ->
  sole b' id w /\ exists envs, omap (frame_to w) es = encode <$> envs /\ Forall2 carries ms envs /\
    forall k, is_Some (pending b' !! k) -> is_Some (pending b !! k) \/ k ∈ omap envelope_id envs.
Proof.
  intros Hs Hm. revert b es Hs. induction Hm as [|m ms Hm Hms IH]; intros b es Hs E; cbn in E.
  { simplify_eq. split; [done|]. exists []. split_and!; [done|constructor|by left]. }
  destruct m as [i p]. destruct (handle_send b i p) as [b1 es1] eqn:E1.
  destruct (send_each b1 ms) as [b2 es2] eqn:E2. simplify_eq.
  destruct (handle_send_frame b id w (i, p) b1 es1 Hs Hm E1) as (Hs1 & e & Hf & Hc & Hp).
  destruct (IH b1 es2 Hs1 E2) as (Hs2 & envs & Hfs & Hcs & Hps).
  split; [done|]. exists (e :: envs). rewrite omap_app, Hf, Hfs. csimpl.
  split_and!; [done|by constructor|]. intros k [[H|H]%Hp|H]%Hps; [by left|right..].
  - rewrite H. by left.
  - destruct (envelope_id e); set_solver.
Qed.

Lemma run_sends ms : forall b, run b (sends ms) = let '(b', es) := send_each b ms in (Some b', es).
Proof.
  induction ms as [|[i p] ms IH]; intros b; [done|].
  change (sends ((i, p) :: ms)) with (Send i p :: sends ms). cbn [run handle send_each].
  destruct (handle_send b i p) as [b1 es1]. rewrite IH.
  by destruct (send_each b1 ms).
Qed.

Lemma send_each_buffers ms : forall b, conns b = ∅ ->
  send_each b ms = (with_buffer (buffer b ++ ms) b, []).
Proof.
  induction ms as [|[i p] ms IH]; intros b Hc; cbn [send_each].
  { rewrite app_nil_r. by destruct b. }
  unfold handle_send. rewrite decide_True by done. rewrite IH by done. cbn. by rewrite <- app_assoc.
Qed.

(** From a fresh broker: what was sent before the peer is there and what is
    sent after it go out alike, in the order of the calls. *)
Lemma sender_run mode del uuid b w acc ms1 ms2 :
  8 <= length uuid -> Forall (for_peer b) (ms1 ++ ms2) ->
  exists bA fx envs,
    run (new_broker mode del uuid) (sends ms1 ++ ConnectionUp b w acc :: sends ms2) = (Some bA, fx) /\
    sole bA b w /\ omap (frame_to w) fx = encode <$> envs /\ Forall2 carries (ms1 ++ ms2) envs /\
    forall k, is_Some (pending bA !! k) -> k ∈ omap envelope_id envs.
Proof.
  intros Hu [Hm1 Hm2]%Forall_app. set (b0 := new_broker mode del uuid).
  rewrite ConnProps.run_app, run_sends, (send_each_buffers ms1 b0) by done. cbn [run handle].
  destruct (handle_up _ b w acc) as [b2 es2] eqn:E2.
  assert (sole b2 b w /\ exists envs, omap (frame_to w) es2 = encode <$> envs /\ Forall2 carries ms1 envs /\
    forall k, is_Some (pending b2 !! k) -> k ∈ omap envelope_id envs) as (Hs2 & envs1 & Hf1 & Hc1 & Hp1).
  { unfold handle_up in E2. cbn in E2. rewrite lookup_empty, decide_False in E2 by (by intros []).
    assert (Hs0 : sole (mkBroker mode del {[b := w]} [b] 0 [] ∅ (take 8 uuid) 0) b w).
    { split_and!; [done..|]. cbn. rewrite length_take. lia. }
    rewrite insert_empty in E2. case_decide as Hb.
    - subst ms1. simplify_eq. split; [exact Hs0|]. exists []. split_and!; [done|constructor|].
      intros k. cbn. rewrite lookup_empty. by intros [].
    - destruct (send_each _ ms1) as [b3 es3] eqn:E3. simplify_eq.
      destruct (send_each_frames _ b w ms1 b2 es3 Hs0 Hm1 E3) as (Hs3 & envs & Hf & Hc & Hp).
      split; [done|]. exists envs. split_and!; [exact Hf|done|]. intros k [Hk|]%Hp; [|done].
      cbn in Hk. rewrite lookup_empty in Hk. by destruct Hk. }
  rewrite run_sends. destruct (send_each b2 ms2) as [b3 es3] eqn:E3.
  destruct (send_each_frames b2 b w ms2 b3 es3 Hs2 Hm2 E3) as (Hs3 & envs2 & Hf2 & Hc2 & Hp2).
  exists b3, (es2 ++ es3), (envs1 ++ envs2). split_and!; [done|done|..].
  - by rewrite omap_app, Hf1, Hf2, fmap_app.
  - by apply Forall2_app.
  - intros k. rewrite omap_app. intros [?%Hp1|]%Hp2; set_solver.
Qed.

(** ** The wire *)

Lemma mailbox_posts (mb : Mailbox) : forall envs : list Envelope,
  omap mail_frame mb = encode <$> envs ->
  exists os : list (option Envelope), mb = post <$> os /\ omap (fun o => o) os = envs.
Proof.
  induction mb as [|[f| ] mb IH]; intros envs E; csimpl in E.
  - destruct envs; [|done]. by exists [].
  - destruct envs as [|e envs]; simplify_eq/=. destruct (IH envs) as (os & -> & <-); [done|].
    by exists (Some e :: os).
  - destruct (IH envs E) as (os & -> & <-). by exists (None :: os).
Qed.

(** The envelopes a broker handles, as they are sent. *)
Definition is_message (e : Envelope) : Prop :=
  sendable e /\ match e with Data _ | DataReq _ _ | Ack _ => True | _ => False end.

Lemma posted_messages os :
  Forall (fun o => forall e, o = Some e -> is_message e) os ->
  Conn.messages (posted <$> os) = omap (fun o => o) os /\ Forall small (posted <$> os).
Proof.
  induction 1 as [|o os Ho Hos [IH1 IH2]]; [done|]. unfold Conn.messages in *. csimpl.
  destruct o as [e|]; cbn [posted].
  - destruct (Ho e eq_refl) as [He Hm]. unfold application at 1. rewrite decode_body_of by done.
    rewrite IH1. split; [by destruct e|]. constructor; [|done]. by destruct He.
  - rewrite IH1. split; [done|]. by constructor.
Qed.

Lemma posted_are os :
  Forall is_message (omap (fun o => o) os) ->
  Forall (fun o => forall e, o = Some e -> is_message e) os.
Proof.
  induction os as [|[e|] os IH]; intros He; csimpl in He; [done|..].
  - apply Forall_cons in He as [? ?]. constructor; [by intros ? [= <-]|by apply IH].
  - constructor; [done|by apply IH].
Qed.

(** What a session reads from a writer's bytes is what the writer was given. *)
Lemma session_carries clock r peer mb envs me writer accept mailbox :
  (forall i, (clock i < clock 0%nat + HEARTBEAT_TIMEOUT)%Z) -> length peer = IDENTITY_SIZE ->
  omap mail_frame mb = encode <$> envs -> Forall is_message envs ->
  clean_cut r peer (written mb) ->
  exists r' w',
    plain_session clock r (Some (mkTcp [] [] [])) (mkCmdTx [] None) me writer accept (Some true)
      mailbox =
    Some (r', Some w',
      mkCmdTx (ConnectionUp peer writer accept :: (Received peer <$> envs) ++ [ConnectionDown peer]) None) /\
    Io.sent w' = hello me ++ written mailbox.
Proof.
  intros Hcl Hp Hmb He [Hbytes (pre & last & post' & b1 & -> & Hpre & Hfit & Hl & Hpost & Hlen & Hb1 & E1)].
  destruct (mailbox_posts mb envs Hmb) as (os & -> & <-).
  pose proof (posted_are os He) as Hos.
  destruct (posted_messages os Hos) as [Hmsgs Hsmall].
  unfold written in Hbytes. rewrite wire_posted in Hbytes
    by (eapply Forall_impl; [exact Hos|]; intros o Ho e Ee; by apply Ho).
  assert (Ecut : wire b1 ++ [] ++ script_bytes post' = wire (posted <$> os) ++ []).
  { apply (app_inv_head (hello peer)). rewrite app_nil_r, <- Hbytes, app_assoc, <- E1. cbn [app].
    unfold script_bytes. by rewrite fmap_app, join_app, <- app_assoc. }
  apply wire_app_split in Ecut as (b2 & Eos & E2); [|done..|apply partial_nil]. cbn [app] in E2.
  rewrite Eos in Hsmall. apply Forall_app in Hsmall as [_ Hb2].
  destruct (plain_session_run clock pre last post' (mkCmdTx [] None) peer me writer accept mailbox
    (mkTcp [] [] []) b1 [] b2 []) as (r' & w' & Ew & Es); try done; try apply partial_nil.
  { by rewrite app_nil_r. }
  exists r', w'. rewrite Es, <- Eos, Hmsgs. split; [done|].
  destruct (plain_writer_sent (mkTcp [] [] (hello me)) mailbox) as (w2 & p & Ew2 & _ & Hs & _ & Hall).
  cbn [rx Io.sent app] in Ew. rewrite Ew in Ew2. simplify_eq. rewrite Hs. by rewrite Hall.
Qed.

(** ** The receiving broker, and the acknowledgements *)

Definition reply (peer : Identity) (w : Sender) (e : Envelope) : list Effect :=
  match e with
  | Data p => [Deliver peer p]
  | DataReq m p => [Deliver peer p; Transmit w (ack m)]
  | _ => []
  end.

Lemma run_replies b peer w ms envs :
  conns b !! peer = Some w -> Forall2 carries ms envs ->
  run b (Received peer <$> envs) = (Some b, mjoin (reply peer w <$> envs)).
Proof.
  intros Hc. induction 1 as [|m e ms envs He Hes IH]; [done|]. csimpl. cbn [run handle].
  destruct He as [->|(id & _ & ->)]; cbn [handle_received route]; unfold send_to_conn;
    by rewrite ?Hc, IH.
Qed.

Lemma replies_deliver peer w ms envs :
  Forall2 carries ms envs ->
  omap delivered (mjoin (reply peer w <$> envs)) = (fun m => Incoming peer m.2) <$> ms /\
  omap (frame_to w) (mjoin (reply peer w <$> envs)) = encode <$> (Ack <$> omap envelope_id envs).
Proof.
  induction 1 as [|m e ms envs He Hes [IH1 IH2]]; [done|]. csimpl. rewrite !omap_app, IH1, IH2.
  destruct He as [->|(id & _ & ->)]; cbn; [done|]. by rewrite decide_True.
Qed.

(** The commands of a receiving session, for a broker with nothing buffered. *)
Lemma receiver_run b peer w acc ms envs :
  conns b !! peer = None -> buffer b = [] -> Forall2 carries ms envs ->
  exists b' fx, run b (ConnectionUp peer w acc :: (Received peer <$> envs) ++ [ConnectionDown peer])
      = (Some b', fx) /\
    omap delivered fx = (fun m => Incoming peer m.2) <$> ms /\
    omap (frame_to w) fx = encode <$> (Ack <$> omap envelope_id envs).
Proof.
  intros Hc Hb He. cbn [run handle]. unfold handle_up. rewrite Hc, decide_False by (by intros []).
  rewrite decide_True by done. rewrite ConnProps.run_app.
  set (b1 := with_order _ _). rewrite (run_replies b1 peer w ms envs); [|apply lookup_insert_eq|done].
  cbn. do 2 eexists. split; [done|].
  rewrite !app_nil_r. by apply replies_deliver.
Qed.

Lemma run_acks peer ids : forall b, exists b' fx,
  run b (Received peer <$> (Ack <$> ids)) = (Some b', fx) /\ conns b' = conns b /\
  forall k, is_Some (pending b' !! k) <-> is_Some (pending b !! k) /\ k ∉ ids.
Proof.
  induction ids as [|m ids IH]; intros b.
  { exists b, []. split_and!; [done..|]. set_solver. }
  csimpl. cbn [run handle handle_received]. destruct (pending b !! m) as [p|] eqn:E.
  - destruct (IH (with_pending (delete m (pending b)) b)) as (b' & fx & -> & Hc & Hp).
    do 2 eexists. split_and!; [done|done|]. intros k. rewrite Hp. cbn.
    rewrite lookup_delete_is_Some. set_solver.
  - destruct (IH b) as (b' & fx & -> & Hc & Hp). do 2 eexists. split_and!; [done|done|].
    intros k. rewrite Hp, not_elem_of_cons. split; [|naive_solver].
    intros [Hk ?]. split_and!; [done| |done]. intros ->. rewrite E in Hk. by destruct Hk.
Qed.

(** ** There and back *)

(** A payload whose frame fits the length prefix. *)
Definition fits_frame (m : option Identity * bytes) : Prop := (zlen m.2 + 17 < 2 ^ 32)%Z.

#[export] Instance fits_frame_dec m : Decision (fits_frame m).
Proof. unfold fits_frame. apply _. Defined.

Lemma carries_messages ms envs :
  Forall fits_frame ms -> Forall2 carries ms envs ->
  Forall is_message envs /\ Forall is_message (Ack <$> omap envelope_id envs).
Proof.
  intros Hm He. revert Hm. induction He as [|m e ms envs He Hes IH]; [done|].
  intros [Hm [IH1 IH2]%IH]%Forall_cons. unfold fits_frame in Hm. csimpl.
  destruct He as [->|(id & Hid & ->)]; cbn [envelope_id]; csimpl.
  - split; [|done]. constructor; [|done]. split; [|done]. split; [done|].
    unfold small. cbn. rewrite zlen_cons. lia.
  - assert (Hz : zlen id = 16%Z) by (unfold zlen; by rewrite Hid).
    split; (constructor; [|done]); (split; [|done]); (split; [done|]);
      unfold small; cbn [body_of]; rewrite zlen_cons, ?zlen_app; lia.
Qed.

Section TwoSockets.
Context (mode : SendMode) (del : DeliveryGuarantee) (uuid : bytes) (a b : Identity).
Context (wA accA wB accB : Sender) (ms1 ms2 : list (option Identity * bytes)).
Context (clockA clockB : nat -> Z).

Hypothesis clockA_ok : forall i, (clockA i < clockA 0%nat + HEARTBEAT_TIMEOUT)%Z.
Hypothesis clockB_ok : forall i, (clockB i < clockB 0%nat + HEARTBEAT_TIMEOUT)%Z.
Hypothesis a_length : length a = IDENTITY_SIZE.
Hypothesis b_length : length b = IDENTITY_SIZE.
Hypothesis uuid_length : length uuid = 16.
Hypothesis for_b : Forall (for_peer b) (ms1 ++ ms2).
Hypothesis fit : Forall fits_frame (ms1 ++ ms2).

(** What the sending broker does: messages sent before and after the peer is
    there. *)
Definition sender : option Broker * list Effect :=
  run (new_broker mode del uuid) (sends ms1 ++ ConnectionUp b wA accA :: sends ms2).

(** The session and the broker at [b], reading [a]'s bytes. *)
Lemma delivery_run mbA rB mbB bB :
  omap mail_frame mbA = omap (frame_to wA) sender.2 -> clean_cut rB a (written mbA) ->
  conns bB !! a = None -> buffer bB = [] ->
  exists bA envs rB' wB' bB' fxB,
    sender.1 = Some bA /\
    plain_session clockB rB (Some (mkTcp [] [] [])) (mkCmdTx [] None) b wB accB (Some true) mbB =
      Some (rB', Some wB', mkCmdTx
        (ConnectionUp a wB accB :: (Received a <$> envs) ++ [ConnectionDown a]) None) /\
    Io.sent wB' = hello b ++ written mbB /\
    run bB (ConnectionUp a wB accB :: (Received a <$> envs) ++ [ConnectionDown a]) = (Some bB', fxB) /\
    omap delivered fxB = (fun m => Incoming a m.2) <$> ms1 ++ ms2 /\
    omap (frame_to wB) fxB = encode <$> (Ack <$> omap envelope_id envs) /\
    Forall is_message (Ack <$> omap envelope_id envs) /\
    forall k, is_Some (pending bA !! k) -> k ∈ omap envelope_id envs.
Proof.
  intros Hmb Hcut Hc Hb.
  destruct (sender_run mode del uuid b wA accA ms1 ms2) as (bA & fxA & envs & Er & _ & Hf & He & Hp);
    [lia|done|]. unfold sender in *. rewrite Er in Hmb |- *. cbn [fst snd] in *. rewrite Hf in Hmb.
  destruct (carries_messages _ _ fit He) as [Hm Hack].
  destruct (session_carries clockB rB a mbA envs b wB accB mbB) as (rB' & wB' & Es & Hs); [done..|].
  destruct (receiver_run bB a wB accB _ envs Hc Hb He) as (bB' & fxB & Eb & Hd & Ha).
  exists bA, envs, rB', wB', bB', fxB. by split_and!.
Qed.

(** What one program sends, the other receives. Everything the first sends
    to its peer (to nobody in particular or by identity), in either send mode
    and with or without acknowledgements, before the connection is there or
    after, comes out of [identity_messages] at the other end, once each and in
    order, under the sender's identity: however long its writer pauses
    (heartbeats), and however the bytes are cut into reads, provided the read
    that completes the HELLO ends at a frame boundary. *)
Theorem delivered_end_to_end {L SA St SC CC SN} mbA rB mbB bB bld u u' :
  omap mail_frame mbA = omap (frame_to wA) sender.2 -> clean_cut rB a (written mbA) ->
  conns bB !! a = None -> buffer bB = [] ->
  exists rB' wB' txB bB' fxB s,
    plain_session clockB rB (Some (mkTcp [] [] [])) (mkCmdTx [] None) b wB accB (Some true) mbB =
      Some (rB', Some wB', txB) /\
    run bB (queued txB) = (Some bB', fxB) /\
    identity_messages (built (Listener := L) (SocketAddr := SA) (Stream := St) (ServerConfig := SC)
      (ClientConfig := CC) (ServerName := SN) bld u u' (omap delivered fxB)) =
      Some (s, (fun m => (a, m.2)) <$> ms1 ++ ms2).
Proof.
  intros Hmb Hcut Hc Hb.
  destruct (delivery_run mbA rB mbB bB Hmb Hcut Hc Hb)
    as (bA & envs & rB' & wB' & bB' & fxB & _ & Es & _ & Eb & Hd & _).
  do 6 eexists. split_and!; [exact Es|exact Eb|]. unfold identity_messages.
  rewrite identity_messages_all by lia. do 2 f_equal. cbn [built build fst recv_rx]. rewrite Hd.
  clear. induction (ms1 ++ ms2); csimpl; by f_equal.
Qed.

(** Acknowledgements settle everything. When the receiving broker's
    acknowledgements travel back over the same connection, whatever the pauses
    and the cut into reads, the sender's session reports exactly these and then
    the end, and after handling them the sending broker has nothing pending:
    every message that was tracked has been acknowledged, and no resend is
    due. *)
Theorem acknowledged_end_to_end mbA mbB rA rB bB :
  omap mail_frame mbA = omap (frame_to wA) sender.2 -> clean_cut rB a (written mbA) ->
  conns bB !! a = None -> buffer bB = [] ->
  exists bA rB' wB' txB bB' fxB,
    sender.1 = Some bA /\
    plain_session clockB rB (Some (mkTcp [] [] [])) (mkCmdTx [] None) b wB accB (Some true) mbB =
      Some (rB', Some wB', txB) /\
    run bB (queued txB) = (Some bB', fxB) /\
    (omap mail_frame mbB = omap (frame_to wB) fxB -> clean_cut rA b (written mbB) ->
     Io.sent wB' = script_bytes rA /\
     exists rA' wA' acks bA' fxA,
       plain_session clockA rA (Some (mkTcp [] [] [])) (mkCmdTx [] None) a wA accA (Some true) mbA =
         Some (rA', Some wA', mkCmdTx (ConnectionUp b wA accA :: acks ++ [ConnectionDown b]) None) /\
       Io.sent wA' = script_bytes rB /\
       run bA acks = (Some bA', fxA) /\ pending bA' = ∅).
Proof.
  intros Hmb Hcut Hc Hb.
  destruct (delivery_run mbA rB mbB bB Hmb Hcut Hc Hb)
    as (bA & envs & rB' & wB' & bB' & fxB & Ea & Es & Hs & Eb & _ & Hf & Hack & Hp).
  do 6 eexists. split_and!; [exact Ea|exact Es|exact Eb|]. intros HmbB HcutB.
  rewrite Hf in HmbB. split; [by rewrite Hs, (cc_bytes _ _ _ HcutB)|].
  destruct (session_carries clockA rA b mbB _ a wA accA mbA clockA_ok b_length HmbB Hack HcutB)
    as (rA' & wA' & EsA & HsA).
  destruct (run_acks b (omap envelope_id envs) bA) as (bA' & fxA' & Er & _ & Hpend).
  do 5 eexists. split_and!; [exact EsA|by rewrite HsA, (cc_bytes _ _ _ Hcut)|exact Er|].
  apply map_empty. intros k. apply eq_None_not_Some. intros [Hk Hn]%Hpend. by apply Hn, Hp.
Qed.
End TwoSockets.

(** ** A concrete pair *)

(** A HELLO in two reads with a timeout in between, and the rest in two with
    an interruption. *)
Definition demo_cut (peer : Identity) (rest : bytes) : list read_event :=
  [RChunk (take 3 (hello peer)); RFail TimedOut; RChunk (drop 3 (hello peer));
   RChunk (take 10 rest); RFail Interrupted; RChunk (drop 10 rest)].

Lemma demo_cut_clean peer rest :
  length peer = IDENTITY_SIZE -> 10 < length rest -> clean_cut (demo_cut peer rest) peer rest.
Proof.
  intros Hp Hr.
  assert (Hh : length (hello peer) = 22).
  { rewrite hello_framed by done. unfold framed. rewrite length_app, length_to_be_bytes. cbn [length].
    by rewrite Hp. }
  split.
  - unfold demo_cut, script_bytes. cbn [fmap list_fmap mjoin list_join app].
    rewrite app_nil_r, take_drop, app_assoc. by rewrite take_drop.
  - exists [RChunk (take 3 (hello peer)); RFail TimedOut], (drop 3 (hello peer)),
      [RChunk (take 10 rest); RFail Interrupted; RChunk (drop 10 rest)], [].
    split_and!; [done|..].
    + repeat constructor. cbn [benign]. intros E. apply (f_equal length) in E.
      rewrite length_take, Hh in E. done.
    + rewrite !Forall_cons. cbn [fits]. rewrite length_take, Hh. split_and!; [lia|done|constructor].
    + rewrite length_drop, Hh. lia.
    + rewrite !Forall_cons. cbn [quiet]. split_and!; [|done| |constructor]; intros E;
        apply (f_equal length) in E; rewrite ?length_take, ?length_drop in E; cbn [length] in E; lia.
    + unfold script_bytes. cbn [fmap list_fmap mjoin list_join app]. rewrite !app_nil_r, length_take, Hh. lia.
    + constructor.
    + unfold script_bytes, wire. cbn [fmap list_fmap mjoin list_join app].
      by rewrite !app_nil_r, take_drop.
Qed.

Definition demo_before : list (option Identity * bytes) := [(None, greeting)].
Definition demo_after : list (option Identity * bytes) := [(Some peerB, [x01]); (None, [])].
Definition demo_sender : option Broker * list Effect :=
  sender RoundRobin AtLeastOnce demo_uuid peerB 1 2 demo_before demo_after.
Definition demo_mailbox : Mailbox := NoMail :: (Mail <$> omap (frame_to 1) demo_sender.2).
Definition demo_receiver : Broker := new_broker Publish AtMostOnce demo_uuid.
Definition demo_acks : Mailbox :=
  (fun k => Mail (ack (id_of (take 8 demo_uuid) k))) <$> [0; 1; 2]%Z.

Lemma delivered_end_to_end_witness :
  exists rB' wB' txB bB' fxB s,
    plain_session (fun _ => 0%Z) (demo_cut peerA (written demo_mailbox)) (Some (mkTcp [] [] []))
      (mkCmdTx [] None) peerB 3 4 (Some true) [] = Some (rB', Some wB', txB) /\
    run demo_receiver (queued txB) = (Some bB', fxB) /\
    identity_messages (built (Listener := unit) (SocketAddr := unit) (Stream := unit)
      (ServerConfig := unit) (ClientConfig := unit) (ServerName := unit) default_builder [] []
      (omap delivered fxB)) = Some (s, [(peerA, greeting); (peerA, [x01]); (peerA, [])]).
Proof.
  apply (delivered_end_to_end RoundRobin AtLeastOnce demo_uuid peerA peerB 1 2 3 4 demo_before demo_after
    (fun _ => 0%Z)) with (mbA := demo_mailbox).
  - intros i. reflexivity.
  - reflexivity.
  - reflexivity.
  - reflexivity.
  - apply (bool_decide_unpack _). vm_compute. exact I.
  - repeat (constructor; [vm_compute; reflexivity|]). constructor.
  - vm_compute. reflexivity.
  - apply demo_cut_clean; [reflexivity|]. apply Nat.ltb_lt. vm_compute. reflexivity.
  - reflexivity.
  - reflexivity.
Defined.

Lemma acknowledged_end_to_end_witness :
  exists bA rA' wA' acks bA' fxA,
    demo_sender.1 = Some bA /\
    plain_session (fun _ => 0%Z) (demo_cut peerB (written demo_acks)) (Some (mkTcp [] [] []))
      (mkCmdTx [] None) peerA 1 2 (Some true) demo_mailbox =
      Some (rA', Some wA', mkCmdTx (ConnectionUp peerB 1 2 :: acks ++ [ConnectionDown peerB]) None) /\
    run bA acks = (Some bA', fxA) /\ size (pending bA) = 3 /\ pending bA' = ∅.
Proof.
  destruct (acknowledged_end_to_end RoundRobin AtLeastOnce demo_uuid peerA peerB 1 2 3 4 demo_before
    demo_after (fun _ => 0%Z) (fun _ => 0%Z)) with (mbA := demo_mailbox) (mbB := demo_acks)
    (rA := demo_cut peerB (written demo_acks)) (rB := demo_cut peerA (written demo_mailbox))
    (bB := demo_receiver) as (bA & rB' & wB' & txB & bB' & fxB & Ea & Es & Er & H).
  - intros i. reflexivity.
  - intros i. reflexivity.
  - reflexivity.
  - reflexivity.
  - reflexivity.
  - apply (bool_decide_unpack _). vm_compute. exact I.
  - repeat (constructor; [vm_compute; reflexivity|]). constructor.
  - vm_compute. reflexivity.
  - apply demo_cut_clean; [reflexivity|]. apply Nat.ltb_lt. vm_compute. reflexivity.
  - reflexivity.
  - reflexivity.
  - vm_compute in Es. injection Es as <- <- <-. vm_compute in Er. injection Er as <- <-.
    destruct H as (_ & rA' & wA' & acks & bA' & fxA & EsA & _ & ErA & Hp).
    + vm_compute. reflexivity.
    + apply demo_cut_clean; [reflexivity|]. apply Nat.ltb_lt. vm_compute. reflexivity.
    + exists bA, rA', wA', acks, bA', fxA. split; [exact Ea|]. split; [exact EsA|].
      split; [exact ErA|]. split; [|exact Hp].
      assert (H3 : (fun b => size (pending b)) <$> demo_sender.1 = Some 3) by (vm_compute; reflexivity).
      change (demo_sender.1 = Some bA) in Ea. rewrite Ea in H3. by injection H3.
Defined.
