(* ===== verification/WsOut.v ===== *)
(** * WsOut: what a WebSocket session of the synchronous crate writes

    [ConnProps] shows what a [ws_session] of [rust-lib-sync/src/conn.rs] hands
    to the broker; here is the other direction.  One thread writes three kinds
    of frames on one connection: what the broker queued and heartbeats, from the
    session loop, and the replies the adapter makes inside a read.
    [ws_session_writes_whole] shows that they never mix: the connection carries
    whole frames, the broker's in order and each in one binary frame, and
    nothing after a close.  [delivered_to_browser] puts a sending broker in
    front: what a program sends is what a WebSocket client reads. *)

From S2P Require Import Prelude Io WsFrame WsStream Upgrade Protocol Timers Broker BrokerProps Conn.
From S2P Require Import ConnProps EndToEnd.
From Stdlib Require Import Strings.Byte.

(** ** What an operation puts on the connection *)

(** Exactly these frames have been written, to a connection that takes
    everything. *)
Record emits (w w' : WsStream Tcp) (frames : list (Z * bytes)) : Prop := {
  em_tx : Io.tx (inner w') = [];
  em_sent : sent (inner w') = sent (inner w) ++ whole frames;
}.

Definition open (w : WsStream Tcp) : Prop := Io.tx (inner w) = [] /\ close_sent w = false.

(** The frames of a session: binary frames and pongs, and then, if the client
    closed or broke the protocol, one close. *)
Definition is_data (f : Z * bytes) : Prop := f.1 = OP_BIN \/ f.1 = OP_PONG.
Definition is_pong (f : Z * bytes) : Prop := f.1 = OP_PONG.

Definition close_last (frames : list (Z * bytes)) : Prop :=
  exists data, Forall is_data data /\ (frames = data \/ exists c, frames = data ++ [(OP_CLOSE, c)]).

(** After an operation that leaves the stream open the frames are data, after
    one that ends it there may be a close. *)
Definition leaves (w w' : WsStream Tcp) (frames : list (Z * bytes)) : Prop :=
  emits w w' frames /\ Forall is_data frames /\ close_sent w' = false.

Definition ends (w w' : WsStream Tcp) (frames : list (Z * bytes)) : Prop :=
  emits w w' frames /\ close_last frames.

Lemma emits_nil w w' : inner w' = inner w -> Io.tx (inner w) = [] -> emits w w' [].
Proof. intros E Ht. split; rewrite E; [done|]. by rewrite app_nil_r. Qed.

Lemma emits_after w1 w2 w3 fs gs : emits w1 w2 fs -> emits w2 w3 gs -> emits w1 w3 (fs ++ gs).
Proof.
  intros [H1 H2] [H3 H4]. split; [done|]. by rewrite whole_app, H4, H2, app_assoc.
Qed.

Lemma close_last_data fs : Forall is_data fs -> close_last fs.
Proof. intros H. exists fs. split; [done|by left]. Qed.

Lemma close_last_app fs gs : Forall is_data fs -> close_last gs -> close_last (fs ++ gs).
Proof.
  intros Hf (data & Hd & Hg). exists (fs ++ data). split; [by apply Forall_app|].
  destruct Hg as [->|[c ->]]; [by left|right]. exists c. by rewrite app_assoc.
Qed.

Lemma leaves_refl w : open w -> leaves w w [].
Proof. intros [Ht Hc]. split_and!; [by apply emits_nil|done|done]. Qed.

Lemma leaves_open w w' fs : leaves w w' fs -> open w'.
Proof. intros ([Ht _] & _ & Hc). by split. Qed.

Lemma leaves_trans w1 w2 w3 fs gs : leaves w1 w2 fs -> leaves w2 w3 gs -> leaves w1 w3 (fs ++ gs).
Proof.
  intros (H1 & H2 & _) (H3 & H4 & H5). split_and!; [by eapply emits_after|by apply Forall_app|done].
Qed.

Lemma leaves_ends w1 w2 w3 fs gs : leaves w1 w2 fs -> ends w2 w3 gs -> ends w1 w3 (fs ++ gs).
Proof.
  intros (H1 & H2 & _) (H3 & H4). split; [by eapply emits_after|by apply close_last_app].
Qed.

Lemma ends_leaves w w' fs : leaves w w' fs -> ends w w' fs.
Proof. intros (H1 & H2 & _). split; [done|by apply close_last_data]. Qed.

(** Binary frames of a sequence; replies have none. *)
Abbreviation binaries := (of_opcode OP_BIN).

Lemma pongs_data fs : Forall is_pong fs -> Forall is_data fs /\ binaries fs = [].
Proof.
  intros H. split; [eapply Forall_impl; [exact H|]; by right|].
  induction H as [|[c p] fs Hc Hf IH]; [done|]. unfold of_opcode in *. unfold is_pong in Hc. cbn in Hc.
  by rewrite filter_cons_False by (cbn; rewrite Hc; done).
Qed.

(** ** One operation after the other *)

Lemma write_all_open (w : WsStream Tcp) b :
  Io.tx (inner w) = [] ->
  write_all (inner w) b = Some (mkTcp (rx (inner w)) [] (sent (inner w) ++ b), Ok tt).
Proof. intros H. destruct (inner w) as [r t o]. simpl in *. subst. apply write_all_clear. Qed.

(** A protocol frame is one binary frame. *)
Lemma write_frame_leaves (w : WsStream Tcp) f :
  open w -> f <> [] ->
  exists w', write_frame w f = Some (w', Ok tt) /\ leaves w w' [(OP_BIN, f)].
Proof.
  intros [Ht Hc] Hf. unfold write_frame, write_all. destruct f as [|x f]; [done|].
  cbn [length Nat.add write_all_loop write ws_Write]. unfold ws_write.
  rewrite write_all_open by done. cbn [mbind option_bind].
  change (default ?a (Some ?b)) with b. cbn [length]. rewrite drop_ge by done.
  set (w' := with_inner _ w). exists w'. split; [destruct (length f); reflexivity|].
  split_and!; [split; [done|]|by constructor; [left|]|done]. cbn. by rewrite app_nil_r.
Qed.

(** A close that has not been sent. *)
Lemma send_close_emits w code :
  open w ->
  exists w', send_close w code = Some w' /\ emits w w' [(OP_CLOSE, to_be_bytes 2 code)] /\
    payload w' = payload w /\ payload_pos w' = payload_pos w.
Proof.
  intros [Ht Hc]. unfold send_close. rewrite Hc.
  rewrite (write_all_open (with_close_sent w)) by done. cbn [mbind option_bind].
  eexists. split; [done|]. split; [|done]. split; [done|]. cbn. by rewrite app_nil_r.
Qed.

Lemma pump_emits fuel w w' r :
  pump_loop fuel w = Some (w', r) -> open w -> eof w = false ->
  exists pongs b, r = Ok b /\ Forall is_pong pongs /\
    ((emits w w' pongs /\ close_sent w' = false /\ eof w' = false) \/
     (exists c, emits w w' (pongs ++ [(OP_CLOSE, c)]) /\ eof w' = true /\ b = true /\
        payload w' = payload w /\ payload_pos w' = payload_pos w)).
Proof.
  revert w. induction fuel as [|fuel IH]; intros w E [Ht Hc] He; [done|]. cbn [pump_loop] in E.
  destruct (parse_client_frame (rawbuf w)) as [p c] eqn:Ep.
  assert (Hclose : forall w0 code, open w0 -> inner w0 = inner w ->
    payload w0 = payload w -> payload_pos w0 = payload_pos w ->
    (w1 ← send_close w0 code; Some (with_eof w1, Ok true)) = Some (w', r) ->
    exists c, r = Ok true /\ emits w w' [(OP_CLOSE, c)] /\ eof w' = true /\
      payload w' = payload w /\ payload_pos w' = payload_pos w).
  { intros w0 code Ho Hi Hp Hpp E0. destruct (send_close_emits w0 code Ho) as (w1 & E1 & [H1 H2] & H3 & H4).
    rewrite E1 in E0. simplify_eq/=. exists (to_be_bytes 2 code). split_and!; try done; try congruence.
    split; [done|]. cbn. by rewrite H2, Hi. }
  destruct p as [p|p| |code| |code].
  - simplify_eq. exists [], true. split_and!; [done..|left]. split; [by apply emits_nil|done].
  - rewrite (write_all_open (drain c w)) in E by done. cbn [mbind option_bind flush tcp_Write] in E.
    apply IH in E as (pongs & b & -> & Hp & H); [|done..].
    exists ((OP_PONG, p) :: pongs), b. split; [done|]. split; [by constructor|].
    set (w1 := with_inner _ _) in *.
    assert (H1 : emits w w1 [(OP_PONG, p)]).
    { split; [done|]. cbn. by rewrite app_nil_r. }
    destruct H as [(He' & Hc' & Heo)|(cc & He' & Hrest)].
    + left. split; [exact (emits_after _ _ _ [_] _ H1 He')|done].
    + right. exists cc. split; [exact (emits_after _ _ _ [_] _ H1 He')|done].
  - apply IH in E as (pongs & b & -> & Hp & H); [|done..].
    exists pongs, b. split_and!; [done..|].
    assert (H1 : emits w (drain c w) []) by by apply emits_nil.
    destruct H as [(He' & Hc' & Heo)|(cc & He' & Hrest)].
    + left. split; [exact (emits_after _ _ _ [] _ H1 He')|done].
    + right. exists cc. split; [exact (emits_after _ _ _ [] _ H1 He')|done].
  - apply (Hclose (drain c w)) in E as (cc & -> & H1 & H2 & H3 & H4); try done.
    exists [], true. split_and!; [done..|right]. by exists cc.
  - simplify_eq. exists [], false. split_and!; [done..|left]. split; [by apply emits_nil|done].
  - apply (Hclose w) in E as (cc & -> & H1 & H2 & H3 & H4); try done.
    exists [], true. split_and!; [done..|right]. by exists cc.
Qed.

(** A read writes pongs; if it sends a close it reports the end. *)
Lemma ws_read_emits fuel w n w' r :
  ws_read_loop fuel w n = Some (w', r) -> open w ->
  exists pongs, Forall is_pong pongs /\
    ((emits w w' pongs /\ close_sent w' = false) \/
     (r = Ok [] /\ exists c, emits w w' (pongs ++ [(OP_CLOSE, c)]))).
Proof.
  revert w. induction fuel as [|fuel IH]; intros w E [Ht Hc]; [done|]. cbn [ws_read_loop] in E.
  destruct (decide (payload_pos w < length (payload w))) as [Hp|Hp].
  { exists []. split; [done|left]. simplify_eq. split; [apply emits_nil|]; by case_decide. }
  destruct (eof w) eqn:He.
  { exists []. split; [done|left]. simplify_eq. by split; [apply emits_nil|]. }
  destruct (pump w) as [[w1 r1]|] eqn:Epu; [|done]. cbn [mbind option_bind] in E.
  apply pump_emits in Epu as (pongs & b & -> & Hpo & H); [|done..].
  destruct H as [(He1 & Hc1 & Heo)|(c & He1 & Heo & -> & Hpl & Hpos)].
  - assert (Ho1 : open w1) by (split; [apply He1|done]). destruct b.
    + apply IH in E as (pongs2 & Hp2 & H2); [|done].
      exists (pongs ++ pongs2). split; [by apply Forall_app|].
      destruct H2 as [[H2 Hc2]|(-> & c & H2)]; [left|right].
      * split; [by eapply emits_after|done].
      * split; [done|]. exists c. rewrite <- app_assoc. by eapply emits_after.
    + destruct (inner w1) as [s t o] eqn:Hi. cbn [read tcp_Read rx Io.tx sent] in E.
      destruct (script_read s WsStream.chunk_len) as [s' res].
      assert (Hin : forall w2, inner w2 = mkTcp s' t o -> close_sent w2 = close_sent w1 ->
        emits w w2 pongs /\ open w2).
      { intros w2 Hi2 Hc2. destruct He1 as [H1 H2]. rewrite Hi in *. cbn in *.
        split; [split; by rewrite Hi2|split; by rewrite ?Hi2, ?Hc2]. }
      destruct res as [[|x bs]|e].
      * exists pongs. split; [done|left]. simplify_eq. split; by apply Hin.
      * destruct (Hin (with_rawbuf (rawbuf (with_inner (mkTcp s' t o) w1) ++ x :: bs)
          (with_inner (mkTcp s' t o) w1)) eq_refl eq_refl) as [Hem Hop].
        apply IH in E as (pongs2 & Hp2 & H2); [|done].
        exists (pongs ++ pongs2). split; [by apply Forall_app|].
        destruct H2 as [[H2 Hc2]|(-> & c & H2)]; [left|right].
        -- split; [by eapply emits_after|done].
        -- split; [done|]. exists c. rewrite <- app_assoc. by eapply emits_after.
      * exists pongs. split; [done|left]. simplify_eq. split; by apply Hin.
  - exists pongs. split; [done|right]. destruct fuel as [|fuel]; [done|].
    cbn [ws_read_loop] in E. rewrite Hpl, Hpos, decide_False, Heo in E by done. simplify_eq.
    split; [done|]. by exists c.
Qed.

Lemma read_leaves (w w' : WsStream Tcp) n r :
  read w n = (w', r) -> open w ->
  exists fs, binaries fs = [] /\ (leaves w w' fs \/ (r = Ok [] /\ ends w w' fs)).
Proof.
  intros E Ho. cbn [read ws_Read] in E. destruct (ws_read_returns w n) as (w1 & r1 & E1 & _).
  rewrite E1 in E. change ((w1, r1) = (w', r)) in E. simplify_eq.
  apply ws_read_emits in E1 as (pongs & Hp & H); [|done].
  destruct (pongs_data _ Hp) as [Hd Hb]. destruct H as [[H Hc]|(-> & c & H)].
  - exists pongs. split; [done|left]. by split_and!.
  - exists (pongs ++ [(OP_CLOSE, c)]). rewrite of_opcode_app, Hb. split; [done|right].
    split; [done|]. split; [done|]. exists pongs. split; [done|right]. by exists c.
Qed.

(** ** The session's loops *)

(** The frames still in the mailbox. *)
Definition mails (mb : Mailbox) : list bytes := omap mail_frame mb.

(** The broker's frames with heartbeats put in between. *)
Inductive paced : list bytes -> list bytes -> Prop :=
| paced_nil : paced [] []
| paced_frame f ms ws : paced ms ws -> paced (f :: ms) (f :: ws)
| paced_beat ms ws : paced ms ws -> paced ms (heartbeat :: ws).

Lemma paced_app ms1 ws1 ms2 ws2 :
  paced ms1 ws1 -> paced ms2 ws2 -> paced (ms1 ++ ms2) (ws1 ++ ws2).
Proof. induction 1; intros H2; cbn; [done|by constructor; auto..]. Qed.

Lemma paced_refl ms : paced ms ms.
Proof. induction ms; by constructor. Qed.

(** The frames there at the first look, before the mailbox is found empty. *)
Fixpoint first_mails (mb : Mailbox) : list bytes :=
  match mb with
  | Mail f :: mb => f :: first_mails mb
  | _ => []
  end.

(** No frame is empty: each has its length prefix. *)
Definition full (m : mail) : Prop := m <> Mail [].

Lemma drain_leaves clock ws rx ls t :
  open ws -> Forall full rx ->
  exists ws' rx' ls' t' dropped p fs,
    drain_outbound clock ws rx ls t = Some (ws', rx', ls', t', dropped) /\
    leaves ws ws' fs /\ binaries fs = p /\ mails rx = p ++ mails rx' /\ Forall full rx' /\
    (dropped = true -> rx' = []) /\ first_mails rx = p.
Proof.
  intros Ho Hrx. revert ws ls t Ho. induction Hrx as [|m rx Hm Hrx IH]; intros ws ls t Ho;
    cbn [drain_outbound].
  - exists ws, [], ls, t, true, [], []. split_and!; try done; by apply leaves_refl.
  - destruct m as [f|].
    + destruct (write_frame_leaves ws f Ho) as (ws1 & -> & H1).
      { intros ->. by apply Hm. }
      cbn [mbind option_bind].
      destruct (IH ws1 (clock t) (S t) (leaves_open _ _ _ H1))
        as (ws2 & rx' & ls' & t' & dr & p & fs & -> & H2 & Hp & Hm2 & Hrx' & Hd & Hfm).
      exists ws2, rx', ls', t', dr, (f :: p), ((OP_BIN, f) :: fs).
      split_and!; [done|exact (leaves_trans _ _ _ [_] _ H1 H2)| | |done|done|cbn; by rewrite Hfm].
      * unfold of_opcode in *. rewrite filter_cons_True by done. csimpl. by rewrite Hp.
      * unfold mails in *. csimpl. by rewrite Hm2.
    + exists ws, rx, ls, t, false, [], []. split_and!; try done; by apply leaves_refl.
Qed.

Lemma beat_leaves clock ws ls t :
  open ws ->
  exists ws' ls' t' fs, beat clock ws ls t = Some (ws', ls', t', true) /\ leaves ws ws' fs /\
    paced [] (binaries fs).
Proof.
  intros Ho. unfold beat. destruct (decide _).
  - destruct (write_frame_leaves ws heartbeat Ho ltac:(done)) as (ws1 & -> & H1).
    cbn [mbind option_bind]. do 3 eexists. exists [(OP_BIN, heartbeat)].
    split; [done|]. split; [done|]. repeat constructor.
  - do 3 eexists. exists []. split; [done|]. split; [|constructor].
    by apply leaves_refl.
Qed.

Lemma session_loop_writes clock fuel ws rx d tx peer ls lr t ws' tx' down :
  session_loop clock fuel ws rx d tx peer ls lr t = Some (ws', tx', down) ->
  open ws -> Forall full rx ->
  exists fs p q, ends ws ws' fs /\ mails rx = p ++ q /\ paced p (binaries fs) /\
    (down = false -> q = []) /\ first_mails rx `prefix_of` p.
Proof.
  revert ws rx d tx ls lr t. induction fuel as [|fuel IH]; intros ws rx d tx ls lr t E Ho Hrx; [done|].
  cbn [session_loop] in E.
  destruct (drain_leaves clock ws rx ls t Ho Hrx)
    as (ws1 & rx1 & ls1 & t1 & dr & p1 & fs1 & E1 & H1 & Hb1 & Hm1 & Hrx1 & Hdr & Hfm).
  rewrite E1 in E. cbn [mbind option_bind] in E.
  destruct dr.
  { injection E as <- <- <-. exists fs1, p1, []. rewrite Hdr in Hm1 by done.
    split_and!; [by apply ends_leaves|done|rewrite Hb1; apply paced_refl|done|by rewrite Hfm]. }
  destruct (beat_leaves clock ws1 ls1 t1 (leaves_open _ _ _ H1)) as (ws2 & ls2 & t2 & fs2 & E2 & H2 & Hb2).
  rewrite E2 in E. cbn [mbind option_bind negb] in E.
  pose proof (leaves_trans _ _ _ _ _ H1 H2) as H12.
  assert (Hp12 : paced p1 (binaries (fs1 ++ fs2))).
  { rewrite of_opcode_app, Hb1, <- (app_nil_r p1) at 1. apply paced_app; [apply paced_refl|done]. }
  assert (Hstop : forall w fs, binaries fs = [] -> ends ws2 w fs ->
    exists fs p q, ends ws w fs /\ mails rx = p ++ q /\ paced p (binaries fs) /\
      (true = false -> q = []) /\ first_mails rx `prefix_of` p).
  { intros w fs Hb H. exists ((fs1 ++ fs2) ++ fs), p1, (mails rx1).
    split_and!; [by eapply leaves_ends|done| |done|by rewrite Hfm].
    by rewrite of_opcode_app, Hb, app_nil_r. }
  assert (Hgo : forall w fs d tx ls lr t, binaries fs = [] -> leaves ws2 w fs ->
    session_loop clock fuel w rx1 d tx peer ls lr t = Some (ws', tx', down) ->
    exists fs p q, ends ws ws' fs /\ mails rx = p ++ q /\ paced p (binaries fs) /\
      (down = false -> q = []) /\ first_mails rx `prefix_of` p).
  { intros w fs d0 tx0 ls0 lr0 t0 Hb H E0.
    destruct (IH _ _ _ _ _ _ _ E0 (leaves_open _ _ _ H) Hrx1) as (gs & p & q & Hg & Hm & Hp & Hq & _).
    exists ((fs1 ++ fs2) ++ fs ++ gs), (p1 ++ p), q.
    split_and!; [|by rewrite <- app_assoc, <- Hm| |done|rewrite Hfm; by eexists].
    - eapply leaves_ends; [done|]. by eapply leaves_ends.
    - rewrite of_opcode_app, (of_opcode_app _ fs), Hb. by apply paced_app. }
  assert (Hnil : ends ws2 ws2 []) by by eapply ends_leaves, leaves_refl, leaves_open.
  case_decide as Hq; [simplify_eq; by apply (Hstop _ [])|].
  destruct (read ws2 (16 * 1024)) as [ws3 r] eqn:Er.
  destruct (read_leaves _ _ _ _ Er (leaves_open _ _ _ H2)) as (fs & Hb & [H|[-> H]]);
    [|simplify_eq; by eapply Hstop].
  destruct r as [[|b bs]|e].
  - simplify_eq. eapply Hstop; [exact Hb|by apply ends_leaves].
  - destruct (forward_frames _ tx peer) as [[[d' tx2] alive]|]; [|done]. cbn [mbind option_bind] in E.
    destruct alive; [by eapply Hgo|]. simplify_eq. eapply Hstop; [exact Hb|by apply ends_leaves].
  - destruct (transient e); [by eapply Hgo|]. simplify_eq.
    eapply Hstop; [exact Hb|by apply ends_leaves].
Qed.

Lemma ws_read_hello_writes clock fuel (ws : WsStream Tcp) d deadline k ws' d' peer :
  ws_read_hello_loop clock fuel ws d deadline k = Some (ws', d', peer) -> open ws ->
  exists fs, binaries fs = [] /\
    match peer with Some _ => leaves ws ws' fs | None => ends ws ws' fs end.
Proof.
  revert ws d k. induction fuel as [|fuel IH]; intros ws d k E Ho; [done|].
  cbn [ws_read_hello_loop] in E.
  assert (Hnil : leaves ws ws []) by by apply leaves_refl.
  assert (Hhere : forall p, exists fs, binaries fs = [] /\
    match p : option Identity with Some _ => leaves ws ws fs | None => ends ws ws fs end).
  { intros p. exists []. split; [done|]. destruct p; [done|by apply ends_leaves]. }
  destruct (FrameDecoder.pop d) as [[f|] d1]; [simplify_eq; apply Hhere|].
  case_decide as Hq; [simplify_eq; apply (Hhere None)|].
  destruct (read ws 4096) as [ws1 r] eqn:Er.
  destruct (read_leaves _ _ _ _ Er Ho) as (fs & Hb & [H|[-> H]]); [|simplify_eq; by exists fs].
  assert (Hgo : forall d k, ws_read_hello_loop clock fuel ws1 d deadline k = Some (ws', d', peer) ->
    exists fs, binaries fs = [] /\
      match peer with Some _ => leaves ws ws' fs | None => ends ws ws' fs end).
  { intros d0 k0 E0. destruct (IH _ _ _ E0 (leaves_open _ _ _ H)) as (gs & Hg & H').
    exists (fs ++ gs). split; [by rewrite of_opcode_app, Hb, Hg|].
    destruct peer; [by eapply leaves_trans|by eapply leaves_ends]. }
  destruct r as [[|b bs]|e].
  - simplify_eq. exists fs. split; [done|by apply ends_leaves].
  - by eapply Hgo.
  - destruct (transient e); [by eapply Hgo|]. simplify_eq. exists fs. split; [done|by apply ends_leaves].
Qed.

Lemma ws_session_upgraded_writes clock clock_hello ws tx me deadline writer accept answer mailbox ws' tx' :
  ws_session_upgraded clock clock_hello ws tx me deadline writer accept answer mailbox
    = Some (ws', tx') ->
  open ws -> Forall full mailbox ->
  exists fs p q, ends ws ws' ((OP_BIN, hello me) :: fs) /\ mails mailbox = p ++ q /\
    paced p (binaries fs) /\
    (answer = Some true -> gone_after tx = None -> tx' <> tx -> first_mails mailbox `prefix_of` p).
Proof.
  unfold ws_session_upgraded. intros E Ho Hm.
  destruct (write_frame_leaves ws (hello me) Ho ltac:(done)) as (ws1 & E1 & H1).
  rewrite E1 in E. cbn [mbind option_bind] in E.
  destruct (ws_read_hello clock_hello ws1 FrameDecoder.new deadline) as [[[ws2 d] peer]|] eqn:Eh; [|done].
  cbn [mbind option_bind] in E.
  apply ws_read_hello_writes in Eh as (fs & Hb & Hfs); [|by eapply leaves_open].
  assert (Hquiet : forall gs w, binaries gs = [] -> ends ws1 w gs ->
    (answer = Some true -> gone_after tx = None -> tx' = tx) ->
    exists fs p q, ends ws w ((OP_BIN, hello me) :: fs) /\ mails mailbox = p ++ q /\
      paced p (binaries fs) /\
      (answer = Some true -> gone_after tx = None -> tx' <> tx ->
        first_mails mailbox `prefix_of` p)).
  { intros gs w Hg H Htx. exists gs, [], (mails mailbox). rewrite Hg.
    split_and!; [exact (leaves_ends _ _ _ [_] _ H1 H)|done|constructor|].
    intros Ha Hgo Hne. by rewrite Htx in Hne. }
  destruct peer as [peer|]; [|simplify_eq; by eapply Hquiet].
  destruct (register tx peer writer accept answer) as [tx1 reg] eqn:Er.
  assert (Hreg : answer = Some true -> gone_after tx = None -> reg = true /\ gone_after tx1 = None).
  { intros -> Hg. rewrite register_alive in Er by done. by simplify_eq. }
  destruct reg; [|simplify_eq; eapply Hquiet; [exact Hb|by apply ends_leaves|]].
  2: { intros Ha Hg. by destruct (Hreg Ha Hg). }
  destruct (forward_frames_any d tx1 peer) as (bodies & d2 & Ef). rewrite Ef in E.
  destruct (forward_all tx1 peer bodies) as [tx2 alive] eqn:Efa. cbn [fst snd mbind option_bind] in E.
  destruct alive; cbn [negb] in E.
  2: { simplify_eq. eapply Hquiet; [exact Hb|by apply ends_leaves|]. intros Ha Hg.
       destruct (Hreg Ha Hg) as [_ Hg1]. by rewrite forward_all_alive in Efa. }
  destruct (session_loop clock _ ws2 mailbox d2 tx2 peer _ _ 2) as [[[ws3 tx3] down]|] eqn:El; [|done].
  cbn [mbind option_bind] in E.
  apply session_loop_writes in El as (gs & p & q & Hg & Hmm & Hp & _ & Hfm);
    [|by eapply leaves_open|done].
  simplify_eq. exists (fs ++ gs), p, q. split_and!; [|done| |done].
  - eapply (leaves_ends _ _ _ [_] _ H1). by eapply leaves_ends.
  - by rewrite of_opcode_app, Hb.
Qed.

(** ** Whole sessions *)

Lemma behind_hello me fs : close_last ((OP_BIN, hello me) :: fs) -> close_last fs.
Proof.
  intros (data & Hd & Hcl). destruct data as [|f data].
  { destruct Hcl as [Hcl|[c Hcl]]; [done|]. by injection Hcl. }
  apply Forall_cons in Hd as [_ Hd]. exists data. split; [done|].
  destruct Hcl as [Hcl|[c Hcl]]; injection Hcl as _ ->; [by left|right; by exists c].
Qed.

(** C28: A WebSocket session writes whole frames, in order. Behind its 101
    response a session that was asked for properly writes, on a connection that
    takes what is written, a sequence of complete frames: its HELLO first; then
    pongs, and binary frames that are exactly what the broker queued, each frame
    whole in one message and in order, up to the frame the session ended at,
    with heartbeats in between; and, if the client closed or broke the protocol,
    one close behind which nothing follows. *)
Theorem ws_session_writes_whole clock clock_up clock_hello s o first deadline request rest key
    response tx me writer accept answer mailbox :
  (forall i, (clock_up i < deadline)%Z) -> Forall benign s ->
  option_list first ++ script_bytes s = request ++ rest ->
  find_subsequence (request ++ rest) end_of_headers = Some (length request - 4) ->
  4 <= length request <= MAX_REQUEST_BYTES ->
  parse_upgrade request = Accepted key -> success_response key = Some response ->
  Forall full mailbox ->
  exists t' tx' frames p q,
    ws_session clock clock_up clock_hello (mkTcp s [] o) first tx me deadline writer accept
      answer mailbox = Some (t', tx') /\
    sent t' = o ++ response ++ whole ((OP_BIN, hello me) :: frames) /\ close_last frames /\
    mails mailbox = p ++ q /\ paced p (binaries frames).
Proof.
  intros Hup Hs Hfull Hfind Hlen Hkey Hresp Hm.
  destruct (upgraded_ready clock_up s o first deadline request rest key response)
    as (ws & E & _ & _ & Ho & Hc & Hw); [done..|].
  destruct (ws_session_upgraded_log clock clock_hello ws tx me deadline writer accept answer mailbox)
    as (ws' & tx' & E' & _).
  pose proof (ws_session_upgraded_writes _ _ _ _ _ _ _ _ _ _ _ _ E' (conj Ho Hc) Hm)
    as (fs & p & q & [[_ Hsent] Hcl] & Hpq & Hp & _).
  exists (inner ws'), tx', fs, p, q. unfold ws_session. rewrite E. cbn [mbind option_bind].
  rewrite E'. split; [done|]. split; [by rewrite Hsent, Hw, <- app_assoc|].
  split; [by eapply behind_hello|done].
Qed.

(** A session whose client leaves one frame inside a message: the HELLO it is
    sent, a heartbeat, the mailbox's frame, a pong and a close. *)
Definition talkative_frames : bytes :=
  mjoin (encode_message <$> [mkMessage true OP_BIN sample_mask (hello peer_id)]) ++
  client_frame true OP_PING sample_mask [x61] ++ client_frame true OP_CLOSE sample_mask [].
Definition talkative_script : list read_event :=
  [RChunk (sample_request ++ talkative_frames)].
Definition talkative_mailbox : Mailbox := [Mail (data greeting); NoMail; Mail (data []); NoMail].

Lemma ws_session_writes_whole_witness :
  exists response t' tx' frames p q,
    success_response (lit "dGhlIHNhbXBsZSBub25jZQ==") = Some response /\
    ws_session (fun i => 1000 * Z.of_nat i)%Z (fun _ => 0%Z) (fun _ => 0%Z)
      (mkTcp talkative_script [] []) None (mkCmdTx [] None) peer_id 1 1 2 (Some true)
      talkative_mailbox = Some (t', tx') /\
    sent t' = [] ++ response ++ whole ((OP_BIN, hello peer_id) :: frames) /\ close_last frames /\
    mails talkative_mailbox = p ++ q /\ paced p (binaries frames).
Proof.
  destruct (success_response (lit "dGhlIHNhbXBsZSBub25jZQ==")) as [response|] eqn:Hr;
    [|exfalso; vm_compute in Hr; discriminate].
  exists response.
  assert (Hb : Forall benign talkative_script) by (apply (bool_decide_unpack _); vm_compute; exact I).
  assert (Hm : Forall full talkative_mailbox).
  { repeat constructor; intros E; vm_compute in E; discriminate E. }
  refine (_ (ws_session_writes_whole (fun i => 1000 * Z.of_nat i)%Z (fun _ => 0%Z) (fun _ => 0%Z)
    talkative_script [] None 1 sample_request talkative_frames (lit "dGhlIHNhbXBsZSBub25jZQ==") response
    (mkCmdTx [] None) peer_id 1 2 (Some true) talkative_mailbox
    (fun _ => eq_refl) Hb _ _ _ _ Hr Hm)).
  - intros (t' & tx' & frames & p & q & H). exists t', tx', frames, p, q. split; [reflexivity|exact H].
  - vm_compute. reflexivity.
  - vm_compute. reflexivity.
  - apply (bool_decide_unpack _). vm_compute. exact I.
  - vm_compute. reflexivity.
Defined.

(** What that session's client reads: the HELLO, the message, the pong, and the
    close; the session ended before the second message was looked at. *)
Definition talkative_reads : option (list Z) :=
  response ← success_response (lit "dGhlIHNhbXBsZSBub25jZQ==");
  '(t, _) ← ws_session (fun _ => 0%Z) (fun _ => 0%Z) (fun _ => 0%Z) (mkTcp talkative_script [] [])
    None (mkCmdTx [] None) peer_id 1 1 2 (Some true) talkative_mailbox;
  frames ← read_server_frames 20 (drop (length response) (sent t));
  Some frames.*1.

Example talkative_session : talkative_reads = Some [OP_BIN; OP_BIN; OP_PONG; OP_CLOSE].
Proof. vm_compute. reflexivity. Qed.

(** ** A browser at the other end *)

Lemma payload_of_carries m e : carries m e -> payload_of (encode e) = Some m.2.
Proof.
  intros [->|(id & Hid & ->)]; [apply payload_of_data|by apply payload_of_data_req].
Qed.

(** Reading the payloads out of the binary frames skips the heartbeats. *)
Lemma paced_payloads ms ws : paced ms ws -> omap payload_of ws = omap payload_of ms.
Proof. induction 1 as [|f ms ws H IH|ms ws H IH]; csimpl; [done|by rewrite IH|]. exact IH. Qed.

Lemma mails_full mb : Forall (fun f => f <> []) (mails mb) -> Forall full mb.
Proof.
  unfold mails. induction mb as [|[f|] mb IH]; csimpl; [done|..]; intros H.
  - apply Forall_cons in H as [Hf H]. constructor; [by intros [= ->]|by apply IH].
  - constructor; [done|by apply IH].
Qed.

(** The payloads in the first frames are the first messages. *)
Lemma carried_prefix ms envs p q :
  Forall2 carries ms envs -> encode <$> envs = p ++ q -> omap payload_of p = take (length p) ms.*2.
Proof.
  intros H. revert p. induction H as [|m e ms envs Hm H IH]; intros [|f p] E; csimpl in E; [done..|].
  injection E as <- E. csimpl. rewrite (payload_of_carries _ _ Hm). cbn [length firstn]. f_equal. by apply IH.
Qed.

(** Frames whose bytes a [u64] counts can be read back. *)
Lemma server_frame_longer c p : (zlen p < zlen (server_frame c p))%Z.
Proof.
  unfold server_frame. rewrite zlen_cons, zlen_app.
  match goal with |- context [Z.add (zlen ?l) (zlen p)] => pose proof (zlen_nonneg l) end. lia.
Qed.

Lemma whole_longer frames :
  Forall (fun f => zlen f.2 <= zlen (whole frames))%Z frames /\
  (Z.of_nat (length frames) <= zlen (whole frames))%Z.
Proof.
  induction frames as [|[c p] frames [IH1 IH2]]; [done|].
  change (whole ((c, p) :: frames)) with (server_frame c p ++ whole frames). rewrite zlen_app.
  pose proof (server_frame_longer c p). pose proof (zlen_nonneg p). pose proof (zlen_nonneg (whole frames)).
  split; [|cbn [length]; lia]. constructor; [cbn; lia|].
  eapply Forall_impl; [exact IH1|]. intros f Hf. cbn in Hf. lia.
Qed.

Lemma close_last_readable me frames :
  close_last frames -> (zlen (whole ((OP_BIN, hello me) :: frames)) < 2 ^ 64)%Z ->
  read_server_frames (S (length (whole ((OP_BIN, hello me) :: frames))))
    (whole ((OP_BIN, hello me) :: frames)) = Some ((OP_BIN, hello me) :: frames).
Proof.
  intros Hc Hz. destruct (whole_longer ((OP_BIN, hello me) :: frames)) as [Hl Hn].
  apply read_whole; [|unfold zlen in Hn; lia].
  assert (Ho : Forall (fun f => 0 <= f.1 < 16)%Z frames).
  { destruct Hc as (data & Hd & Hc).
    assert (H : Forall (fun f : Z * bytes => 0 <= f.1 < 16)%Z data).
    { eapply Forall_impl; [exact Hd|]. by intros [o p] [H|H]; cbn in *; rewrite H. }
    destruct Hc as [->|[c ->]]; [done|]. apply Forall_app. by repeat constructor. }
  rewrite Forall_forall in Hl |- *. intros f Hf. split; [|pose proof (Hl f Hf); lia].
  apply elem_of_cons in Hf as [->|Hf]; [done|]. by eapply Forall_forall in Ho.
Qed.

(** A session whose client sends its HELLO in time reports it. *)
Lemma ws_session_upgraded_reports clock clock_hello (ws : WsStream Tcp) tx peer me deadline writer accept
    mailbox bodies tail :
  (forall i, (clock_hello i < deadline)%Z) -> gone_after tx = None -> length peer = IDENTITY_SIZE ->
  gives ws (hello peer ++ wire bodies ++ tail) -> Forall small bodies -> partial tail ->
  exists ws' tx', ws_session_upgraded clock clock_hello ws tx me deadline writer accept (Some true)
      mailbox = Some (ws', tx') /\ tx' <> tx.
Proof.
  intros Hclh Hg Hpeer Hgv Hb Ht. unfold ws_session_upgraded.
  destruct (ws_write_frame_gives ws _ (hello me) Hgv) as (ws1 & -> & Hg1 & H1). cbn [mbind option_bind].
  rewrite hello_framed in Hg1 by done.
  edestruct (ws_read_hello_gives clock_hello (S (read_fuel ws1)) ws1 FrameDecoder.new deadline 0
    (framed (T_HELLO :: PROTOCOL_VERSION :: peer) ++ wire bodies ++ tail)
    ((T_HELLO :: PROTOCOL_VERSION :: peer) :: bodies) tail) as (ws2 & d & E & _);
    [lia|done|done|by constructor; [apply small_hello|]|done| |].
  { cbn [buf FrameDecoder.new app]. by rewrite wire_cons, <- app_assoc. }
  unfold ws_read_hello. rewrite E. cbn [mbind option_bind hd_error]. rewrite hello_of_body by done.
  pose proof (register_alive tx peer writer accept Hg) as Er. rewrite Er.
  set (tx1 := mkCmdTx _ None) in *.
  destruct (forward_frames_any d tx1 peer) as (b1 & d1 & ->). cbn [mbind option_bind].
  pose proof (forward_all_forwards tx1 peer b1) as Hfw.
  destruct (forward_all tx1 peer b1) as [tx2 alive] eqn:Ea. rewrite forward_all_alive in Ea by done.
  injection Ea as Ea <-. cbn [fst snd negb] in *.
  destruct (session_loop_returns clock (S (ws_fuel ws2)) ws2 mailbox d1 tx2 peer
    (clock 0) (clock 1) 2) as (ws3 & tx3 & down & E3 & Hfw3 & _); [lia|].
  cbn [read_fuel ws_Read]. rewrite E3. cbn [mbind option_bind]. eexists _, _. split; [done|].
  destruct (forwards_trans _ _ _ _ Hfw Hfw3) as (es & ok & _ & [Hq _]). intros Heq.
  destruct (cmd_send tx3 (ConnectionDown peer)) as [tx4 ok4] eqn:E4. apply cmd_send_sends in E4 as [Hq4 _].
  assert (Hlen : length (queued tx) = length (queued (if down then tx4 else tx3)))
    by (destruct down; [rewrite <- Heq at 1|rewrite <- Heq at 1]; done).
  unfold tx1 in Hq. cbn [queued] in Hq. destruct down; rewrite ?Hq4, Hq, !length_app in Hlen; simpl in Hlen; lia.
Qed.


(** A program that sends three messages, one of them before the browser is
    there; the last comes to the mailbox when the browser has been quiet for a
    while. *)
Definition browser_run : option Broker * list Effect :=
  run (new_broker RoundRobin AtLeastOnce demo_uuid)
    (sends demo_before ++ ConnectionUp peer_id 1 2 ::
     sends [(Some peer_id, [x01]); (None, [])]).
Definition browser_mailbox : Mailbox :=
  let mail := Mail <$> omap (frame_to 1) browser_run.2 in
  take 2 mail ++ [NoMail; NoMail] ++ drop 2 mail ++ replicate 2000 NoMail.
Abbreviation browser_session :=
  (ws_session slow_clock (fun _ => 0%Z) (fun _ => 0%Z)
    (mkTcp slow_script [] []) None (mkCmdTx [] None) peerA 1 1 2 (Some true) browser_mailbox).

