(* ===== verification/LoopsAsync.v ===== *)
(** * LoopsAsync: accepting, connecting and shutting down (asynchronous crate)

    Models [Shutdown] of [rust-lib-async/src/lib.rs] and [accept_loop],
    [connect_loop] and [sniff_then_handle] of [rust-lib-async/src/conn.rs].  A
    round of a loop is the branch its [select!] takes, with what that branch
    brings; tokio and the TLS handshake are arguments. *)

From S2P Require Import Prelude Io Protocol ProtocolAsync Broker Conn ConnAsync WsFrame.
From S2P Require Import WsStream WsAsync Upgrade Sha1 Sniff Polled.
From Stdlib Require Import Strings.Byte.

Definition CONNECT_TIMEOUT : Z := 1000000000.

(** ** The shutdown signal *)

(** A receiver of the [watch] channel: the value it borrows now, and the
    values it will be told of; after the last of them the sender is dropped. *)
Record Shutdown := mkShutdown {
  current : bool;
  changes : list bool;
}.

Definition new_shutdown (rx : Shutdown) : Shutdown := rx.

Definition is_shutdown (s : Shutdown) : bool := current s.

(** The loop of [Shutdown::recv]: [changed] fails once the sender is gone. *)
Fixpoint wait_changes (value : bool) (cs : list bool) : Shutdown :=
  match cs with
  | [] => mkShutdown value []
  | v :: cs => if v : bool then mkShutdown v cs else wait_changes v cs
  end.

Definition shutdown_recv (s : Shutdown) : Shutdown :=
  if current s then s else wait_changes (current s) (changes s).

(** ** Connections *)

Inductive Acceptor (TlsAcceptor : Type) :=
| AcceptPlain
| AcceptTls (a : TlsAcceptor).
Arguments AcceptPlain {TlsAcceptor}.
Arguments AcceptTls {TlsAcceptor} a.

Inductive Connector (TlsConnector ServerName : Type) :=
| ConnectPlain
| ConnectTls (c : TlsConnector) (name : ServerName).
Arguments ConnectPlain {TlsConnector ServerName}.
Arguments ConnectTls {TlsConnector ServerName} c name.

(** What a session meets: its channels, the broker's answer to its
    registration, and the turns of its two loops. *)
Record Env := mkEnv {
  writer_ch : Sender;
  accept_ch : Sender;
  verdict : option bool;
  turns : list turn;
}.

Section Loops.
Context {S T TlsAcceptor TlsConnector ServerName : Type}.
Context `{!AsyncRead S, !AsyncWrite S, !AsyncRead T, !AsyncWrite T}.
Context `{!AsyncRead (Sniffed S), !AsyncWrite (Sniffed S), !AsyncRead (Sniffed T), !AsyncWrite (Sniffed T)}.
Context (capacity : nat -> nat).
Context (tls_accept : TlsAcceptor -> S -> io_result T).
Context (tls_connect : TlsConnector -> ServerName -> S -> io_result T).

Definition sniff_then_handle {U} `{!AsyncRead U, !AsyncWrite U, !AsyncRead (Sniffed U),
    !AsyncWrite (Sniffed U)} (stream : U) (tx : CmdTx) (identity : Identity) (env : Env)
  : option (CmdTx * io_result ()) :=
  '(_, r) ← sniff_and_wrap stream;
  match r with
  | Err e => Some (tx, Err e)
  | Ok None => Some (tx, Ok tt)
  | Ok (Some sniffed) =>
    '(_, tx, r) ← ConnAsync.handle_connection capacity sniffed tx identity (writer_ch env)
      (accept_ch env) (verdict env) (turns env);
    Some (tx, r)
  end.

(** The task spawned for an accepted connection. *)
Definition serve (stream : S) (acceptor : Acceptor TlsAcceptor) (tx : CmdTx) (identity : Identity)
    (env : Env) : option (CmdTx * io_result ()) :=
  match acceptor with
  | AcceptPlain => sniff_then_handle stream tx identity env
  | AcceptTls a =>
    match tls_accept a stream with
    | Ok tls => sniff_then_handle tls tx identity env
    | Err _ => Some (tx, Ok tt)
    end
  end.

(** A branch of the accept loop's [select!]. *)
Inductive accept_branch :=
| AcceptShutdown
| AcceptGives (r : io_result S).

(** The tasks spawned, and whether the loop was left.  They are detached:
    nothing waits for them. *)
Fixpoint accept_loop (acceptor : Acceptor TlsAcceptor) (rounds : list accept_branch)
  : list (S * Acceptor TlsAcceptor) * bool :=
  match rounds with
  | [] => ([], false)
  | AcceptShutdown :: _ => ([], true)
  | AcceptGives (Ok stream) :: rounds =>
    let '(l, e) := accept_loop acceptor rounds in ((stream, acceptor) :: l, e)
  | AcceptGives (Err _) :: rounds => accept_loop acceptor rounds
  end.

(** A branch of the connect loop's first [select!]. *)
Inductive dial :=
| DialShutdown
| DialGives (r : io_result S)
| DialTimeout.

(** A round: the flag at the head of the loop, the dial, the session of the
    connection if there is one, the flag behind it, and whether shutdown came
    before the delay was over. *)
Record connect_round := mkRound {
  flag_before : bool;
  dialled : dial;
  session : Env;
  flag_after : bool;
  sleep_cut : bool;
}.

(** The session of a round, over the stream dialled or over TLS on it. *)
Definition connect_session (connector : Connector TlsConnector ServerName) (stream : S) (tx : CmdTx)
    (identity : Identity) (env : Env) : option CmdTx :=
  match connector with
  | ConnectPlain =>
    '(_, tx, _) ← ConnAsync.handle_connection capacity stream tx identity (writer_ch env)
      (accept_ch env) (verdict env) (turns env);
    Some tx
  | ConnectTls c name =>
    match tls_connect c name stream with
    | Ok tls =>
      '(_, tx, _) ← ConnAsync.handle_connection capacity tls tx identity (writer_ch env)
        (accept_ch env) (verdict env) (turns env);
      Some tx
    | Err _ => Some tx
    end
  end.

Fixpoint connect_loop (connector : Connector TlsConnector ServerName) (tx : CmdTx)
    (identity : Identity) (rounds : list connect_round) : option (CmdTx * bool) :=
  match rounds with
  | [] => Some (tx, false)
  | r :: rounds =>
    if flag_before r then Some (tx, true)
    else
      let rest tx :=
        if flag_after r then Some (tx, true)
        else if sleep_cut r then Some (tx, true)
        else connect_loop connector tx identity rounds in
      match dialled r with
      | DialShutdown => Some (tx, true)
      | DialGives (Ok stream) =>
        tx ← connect_session connector stream tx identity (session r);
        rest tx
      | DialGives (Err _) => rest tx
      | DialTimeout => rest tx
      end
  end.
End Loops.

(** ** Sessions end, whatever the stream does *)

Lemma fill_loop_total {R} `{!AsyncRead R} capacity fuel (r : R) len buf :
  0 < fuel -> len < fuel + length buf ->
  exists r' res, fill_loop capacity fuel r len buf = Some (r', res).
Proof.
  revert r buf. induction fuel as [|fuel IH]; intros r buf H0 Hf; [lia|]. cbn [fill_loop].
  case_decide as Hl; [|eauto]. destruct (a_read_buf r _) as [r1 [[|b bs]|e]]; [eauto| |destruct e; eauto].
  apply IH; len_solve.
Qed.

Lemma read_frame_async_total {R} `{!AsyncRead R} capacity (r : R) :
  exists r' res, read_frame_async capacity r = Some (r', res).
Proof.
  unfold read_frame_async. destruct (a_read_exact r 4) as [r1 [l|e]]; [|destruct e; eauto].
  apply fill_loop_total; cbn [length]; lia.
Qed.

Lemma sends_forwards tx tx' peer e ok :
  (exists f, application f = Some e) -> cmd_send tx (Received peer e) = (tx', ok) -> forwards tx tx' peer.
Proof.
  intros Hf E%cmd_send_sends. exists (if ok then [e] else []), ok. destruct ok; split; auto.
Qed.

Lemma session_turns_forwards {T} `{!AsyncRead T, !AsyncWrite T} capacity ts : forall (t : T) tx peer alive,
  exists t' tx', session_turns capacity ts t tx peer alive = Some (t', tx') /\ forwards tx tx' peer.
Proof.
  assert (Hrefl : forall tx peer, forwards tx tx peer).
  { intros tx peer. exists [], true. split; [done|apply sends_refl]. }
  induction ts as [|u ts IH]; intros t tx peer alive; [by exists t, tx|].
  destruct u as [| | |f| |]; try (by exists t, tx); cbn [session_turns].
  - destruct (read_frame_async_total capacity t) as (t1 & res & Er).
    destruct res as [[frame|]|e]; [|rewrite Er; by exists t1, tx..].
    pose proof (session_read_turn capacity ts t t1 tx peer alive frame Er) as Hstep.
    cbn [session_turns] in Hstep. rewrite Hstep. clear Hstep.
    pose proof (forward_all_forwards tx peer [frame]) as Hf. cbn [forward_all] in Hf.
    destruct (forward tx peer frame) as [tx1 []]; cbn [fst] in Hf; [|by exists t1, tx1].
    destruct (IH t1 tx1 peer alive) as (t2 & tx2 & -> & H2). exists t2, tx2. split; [done|].
    by eapply forwards_trans.
  - destruct (write_turn t alive f) as [t1 a1]. apply IH.
  - destruct (write_turn t alive _) as [t1 a1]. apply IH.
  - apply IH.
Qed.

Lemma async_session_log {T} `{!AsyncRead T, !AsyncWrite T} capacity (t : T) tx me writer accept answer ts :
  exists t' tx' r, handle_connection capacity t tx me writer accept answer ts = Some (t', tx', r) /\
    exists cs, queued tx' = queued tx ++ cs /\
      session_log writer accept answer (gone_after tx = None) cs.
Proof.
  assert (Hnone : forall (t' : T) (r : io_result ()), exists t2 tx' r2, Some (t', tx, r) = Some (t2, tx', r2) /\
    exists cs, queued tx' = queued tx ++ cs /\ session_log writer accept answer (gone_after tx = None) cs).
  { intros t' r. exists t', tx, r. split; [done|]. exists []. by rewrite app_nil_r; split; [|constructor]. }
  unfold handle_connection. destruct (write_frame_async t _) as [t1 [[]|e]]; [|apply Hnone].
  destruct (read_frame_async_total capacity t1) as (t2 & [[frame|]|e] & ->); cbn [mbind option_bind];
    [|apply Hnone..].
  destruct (Async.decode frame) as [[v peer| | | |]|]; try apply Hnone.
  case_decide; [apply Hnone|]. destruct (cmd_send tx _) as [tx1 ok] eqn:E.
  assert (Er : register tx peer writer accept answer = (tx1, ok && bool_decide (answer = Some true))).
  { unfold register. rewrite E. by destruct ok. }
  destruct ok; cbn [andb] in Er.
  2: { eapply register_rejected in Er as (cs & Hq & Hl). eauto 10. }
  destruct (decide (answer <> Some true)) as [Hn|Hy%dec_stable].
  { rewrite bool_decide_false in Er by done. eapply register_rejected in Er as (cs & Hq & Hl). eauto 10. }
  rewrite bool_decide_true in Er by done.
  destruct (session_turns_forwards capacity ts t2 tx1 peer true) as (t3 & tx3 & -> & Hf).
  cbn [mbind option_bind]. do 3 eexists. split; [done|].
  by apply (session_ends tx tx1 tx3 peer writer accept answer true).
Qed.

(** ** The loops *)

(** [async_sessions tx tx' n]: the commands between are those of at most [n]
    sessions, one after the other. *)
Inductive async_sessions : CmdTx -> CmdTx -> nat -> Prop :=
| asessions_none tx n : async_sessions tx tx n
| asessions_more tx tx1 tx' env cs n :
    queued tx1 = queued tx ++ cs ->
    session_log (writer_ch env) (accept_ch env) (verdict env) (gone_after tx = None) cs ->
    async_sessions tx1 tx' n -> async_sessions tx tx' (S n).

Lemma async_sessions_wait tx tx' n : async_sessions tx tx' n -> async_sessions tx tx' (S n).
Proof. induction 1; [constructor|by econstructor]. Qed.

(** The round's ways to end the loop. *)
Definition round_ends {S} (r : connect_round (S := S)) : Prop :=
  flag_before r = true \/ dialled r = DialShutdown \/ flag_after r = true \/ sleep_cut r = true.

Section LoopFacts.
Context {S T TlsAcceptor TlsConnector ServerName : Type}.
Context `{!AsyncRead S, !AsyncWrite S, !AsyncRead T, !AsyncWrite T}.
Context `{!AsyncRead (Sniffed S), !AsyncWrite (Sniffed S), !AsyncRead (Sniffed T), !AsyncWrite (Sniffed T)}.
Context (capacity : nat -> nat).
Context (tls_accept : TlsAcceptor -> S -> io_result T).
Context (tls_connect : TlsConnector -> ServerName -> S -> io_result T).

(** C26: The asynchronous connect loop, too, is one session after the other.
    Whatever is dialled, refused, timed out, lost and redialled, plainly or over
    TLS, and whatever the streams do, the loop gets through every round; the
    broker hears the well-bracketed conversation of each connection, complete
    before the next begins, with its end always reported while the broker
    lives; and the loop is left only by a shutdown seen in some round. *)
Theorem async_reconnects_one_at_a_time connector tx me rounds :
  exists tx' ended,
    connect_loop (S := S) (T := T) capacity tls_connect connector tx me rounds = Some (tx', ended) /\
    async_sessions tx tx' (length rounds) /\
    (ended = true -> Exists round_ends rounds) /\
    (ended = false -> Forall (fun r => ~ round_ends r) rounds).
Proof.
  revert tx. induction rounds as [|r rounds IH]; intros tx.
  { exists tx, false. split_and!; [done|constructor|done|done]. }
  cbn [connect_loop]. destruct (flag_before r) eqn:Hb.
  { exists tx, true. split_and!; [done|constructor|intros _; left; by left|done]. }
  assert (Hrest : forall tx1, (forall tx' n, async_sessions tx1 tx' n -> async_sessions tx tx' (Datatypes.S n)) ->
    dialled r <> DialShutdown ->
    exists tx' ended,
      (if flag_after r then Some (tx1, true) else if sleep_cut r then Some (tx1, true)
       else connect_loop capacity tls_connect connector tx1 me rounds) = Some (tx', ended) /\
      async_sessions tx tx' (length (r :: rounds)) /\
      (ended = true -> Exists round_ends (r :: rounds)) /\
      (ended = false -> Forall (fun r => ~ round_ends r) (r :: rounds))).
  { intros tx1 Hmore Hd. destruct (flag_after r) eqn:Ha.
    { exists tx1, true. split_and!; [done|apply Hmore; constructor| |done].
      intros _. left. do 2 right. by left. }
    destruct (sleep_cut r) eqn:Hc.
    { exists tx1, true. split_and!; [done|apply Hmore; constructor| |done].
      intros _. left. by do 3 right. }
    destruct (IH tx1) as (tx' & ended & -> & Hs & Ht & Hf). exists tx', ended.
    split_and!; [done|by apply Hmore|by right; auto|]. intros H. constructor; [|by auto].
    unfold round_ends. rewrite Ha, Hb, Hc. naive_solver. }
  destruct (dialled r) as [|[stream|e]|] eqn:Hd.
  - exists tx, true. split_and!; [done|constructor|intros _; left; right; by left|done].
  - assert (exists tx1, connect_session (T := T) capacity tls_connect connector stream tx me (session r) =
        Some tx1 /\ forall tx' n, async_sessions tx1 tx' n -> async_sessions tx tx' (Datatypes.S n))
      as (tx1 & -> & Hmore); [|by apply Hrest].
    destruct connector as [|c name]; cbn [connect_session].
    + destruct (async_session_log capacity stream tx me (writer_ch (session r)) (accept_ch (session r))
        (verdict (session r)) (turns (session r))) as (t' & tx1 & res & -> & cs & Hq & Hlog).
      exists tx1. split; [done|]. intros. by econstructor.
    + destruct (tls_connect c name stream) as [tls|e].
      * destruct (async_session_log capacity tls tx me (writer_ch (session r)) (accept_ch (session r))
          (verdict (session r)) (turns (session r))) as (t' & tx1 & res & -> & cs & Hq & Hlog).
        exists tx1. split; [done|]. intros. by econstructor.
      * exists tx. split; [done|]. intros tx' n. apply async_sessions_wait.
  - apply Hrest; [|done]. intros tx' n. apply async_sessions_wait.
  - apply Hrest; [|done]. intros tx' n. apply async_sessions_wait.
Qed.

(** The connections among the branches an accept loop takes. *)
Definition accepted (b : accept_branch (S := S)) : option S :=
  match b with AcceptGives (Ok s) => Some s | _ => None end.

Lemma accept_loop_tasks (acceptor : Acceptor TlsAcceptor) (before : list (io_result S)) after :
  accept_loop acceptor ((AcceptGives <$> before) ++ AcceptShutdown :: after) =
    ((fun s => (s, acceptor)) <$> omap accepted (AcceptGives <$> before), true).
Proof. induction before as [|[s|e] before IH]; csimpl; [done|by rewrite IH|exact IH]. Qed.

Lemma sniff_then_handle_log {U} `{!AsyncRead U, !AsyncWrite U, !AsyncReadLaws U, !AsyncDuplexLaws U,
    !AsyncRead (Sniffed U), !AsyncWrite (Sniffed U)} (t : U) tx me env :
  exists tx' r cs, sniff_then_handle capacity t tx me env = Some (tx', r) /\
    queued tx' = queued tx ++ cs /\
    session_log (writer_ch env) (accept_ch env) (verdict env) (gone_after tx = None) cs.
Proof.
  unfold sniff_then_handle. destruct (first_byte_decides t) as [(t1 & r & ->) _].
  cbn [mbind option_bind]. destruct r as [sniffed|].
  - destruct (async_session_log capacity sniffed tx me (writer_ch env) (accept_ch env) (verdict env)
      (turns env)) as (t' & tx1 & res & -> & cs & Hq & Hlog). by exists tx1, res, cs.
  - exists tx, (Ok tt), []. rewrite app_nil_r. split_and!; [done..|constructor].
Qed.

(** The asynchronous accept loop serves every connection until shutdown.
    Whatever errors [accept] reports in between, it spawns one task for each
    connection accepted before it takes the shutdown branch, in order, and none
    after; and each of these tasks, over any streams that keep tokio's promises,
    plain or TLS, ends having held one well-bracketed conversation with the
    broker, or none. *)
Theorem async_serves_until_shutdown `{!AsyncReadLaws S, !AsyncDuplexLaws S, !AsyncReadLaws T,
    !AsyncDuplexLaws T} (acceptor : Acceptor TlsAcceptor) (before : list (io_result S)) after :
  accept_loop acceptor ((AcceptGives <$> before) ++ AcceptShutdown :: after) =
    ((fun s => (s, acceptor)) <$> omap accepted (AcceptGives <$> before), true) /\
  forall s tx me env, exists tx' r cs,
    serve (T := T) capacity tls_accept s acceptor tx me env = Some (tx', r) /\
    queued tx' = queued tx ++ cs /\
    session_log (writer_ch env) (accept_ch env) (verdict env) (gone_after tx = None) cs.
Proof.
  split; [apply accept_loop_tasks|]. intros s tx me env. destruct acceptor as [|a]; cbn [serve].
  - apply sniff_then_handle_log.
  - destruct (tls_accept a s) as [tls|e]; [apply sniff_then_handle_log|].
    exists tx, (Ok tt), []. rewrite app_nil_r. split_and!; [done..|constructor].
Qed.
End LoopFacts.

(** ** From the first byte to the broker *)

(** [speaks input stream]: a client whose bytes are [input] offers the
    protocol stream [stream], either raw or in the frames of an upgraded
    connection. *)
Inductive speaks (input stream : bytes) : Prop :=
| speaks_raw : input = stream -> speaks input stream
| speaks_ws request rest key :
    input = (x47 :: request) ++ rest ->
    find_subsequence (x47 :: request) end_of_headers = Some (length (x47 :: request) - 4) ->
    4 <= length (x47 :: request) <= MAX_REQUEST_BYTES + 1 ->
    Upgrade.Async.parse_upgrade (x47 :: request) = Accepted key ->
    (WsStream.decode rest).1 = stream ->
    speaks input stream.

Lemma hello_head peer rest : exists tail, hello peer ++ rest = x00 :: tail.
Proof. eexists. unfold hello, put_len_prefix. vm_compute (to_be_bytes 4 _). done. Qed.

Section Sniffing.
Context {T : Type} `{!AsyncRead T, !AsyncWrite T, !AsyncReadLaws T, !AsyncDuplexLaws T}.
Context `{!PollRead T, !PollWrite T, !PollLaws T, !PollStream T, !PollStreamLaws T}.
Context `{!OneStream T, !NoWriteErrors T, !TokioExt (Sniffed T)}.

Lemma sniff_speaks (t : T) peer stream :
  speaks (incoming t) (hello peer ++ stream) ->
  exists t' sniffed, sniff_and_wrap t = Some (t', Ok (Some sniffed)) /\
    incoming sniffed = hello peer ++ stream.
Proof using AsyncReadLaws0 AsyncDuplexLaws0 OneStream0.
  intros [E|request rest key E Hf Hl Hk Hd].
  - destruct (first_byte_decides t) as [_ H]. rewrite E in H.
    destruct (hello_head peer stream) as [tail Eh]. rewrite Eh in H |- *.
    destruct (proj1 H eq_refl) as (t' & Es & Hi & _). exists t', (Raw (new_prefixed [x00] t')).
    split; [done|]. change (x00 :: to_come t' = x00 :: tail). by rewrite one_incoming, Hi.
  - destruct (success_response key) as [response|] eqn:Hr.
    2: { unfold success_response in Hr. destruct (accept_key_total (as_bytes key)) as [v Ev].
         by rewrite Ev in Hr. }
    destruct (sniff_upgrades t request rest key response E Hf Hl Hk Hr) as (t' & Es & Hi & _).
    exists t', (Ws (WsAsync.new t')). split; [done|].
    change ((WsStream.decode ([] ++ to_come t')).1 = hello peer ++ stream).
    by rewrite one_incoming, Hi.
Qed.
End Sniffing.

(** C25: The bind side of the asynchronous crate serves raw peers and WebSocket
    clients alike.  A connection that offers a HELLO and then frames, whether as
    raw bytes or, after a good upgrade request, in WebSocket frames cut against
    the protocol's in any way, is registered under the HELLO's identity; each
    DATA, DATA_REQ and ACK reaches the broker in order, and the end is reported
    when the client closes. What the session reads is what tokio's methods get
    by polling the stream the sniff hands over, however often it is not ready;
    the connection meets no I/O error, and no read of a protocol frame takes
    the start of the next one along (none does when its buffer has exactly the
    size asked for). *)
Theorem async_serves_raw_and_ws {T} `{!AsyncRead T, !AsyncWrite T, !AsyncReadLaws T, !AsyncDuplexLaws T,
    !PollRead T, !PollWrite T, !PollLaws T, !PollStream T, !PollStreamLaws T, !OneStream T,
    !NoWriteErrors T, !TokioExt (Sniffed T), !SniffedTokio T} capacity (t : T) tx peer me env bodies tail :
  (forall n, n <= capacity n) ->
  (forall t' sniffed, sniff_and_wrap t = Some (t', Ok (Some sniffed)) ->
     unspilled_session capacity me (turns env) sniffed) ->
  gone_after tx = None -> length peer = IDENTITY_SIZE ->
  speaks (incoming t) (hello peer ++ wire bodies ++ tail) -> Forall small bodies -> partial tail ->
  verdict env = Some true -> Forall undisturbed (turns env) ->
  length bodies < sum_list (reads <$> turns env) ->
  sniff_then_handle capacity t tx me env =
    Some (mkCmdTx (queued tx ++ ConnectionUp peer (writer_ch env) (accept_ch env) ::
            (Received peer <$> messages bodies) ++ [ConnectionDown peer]) None, Ok tt).
Proof.
  intros Hcap Hr Hg Hp Hs Hb Ht Hv Hu Hlen. unfold sniff_then_handle.
  destruct (sniff_speaks t peer _ Hs) as (t' & sniffed & E & Hi). rewrite E. cbn [mbind option_bind].
  rewrite Hv. destruct (async_session_report capacity Hcap sniffed tx peer me (writer_ch env) (accept_ch env)
    (turns env) bodies tail (Hr t' sniffed E) Hg Hp Hi Hb Ht Hu Hlen) as (t2 & ->). done.
Qed.

(** ** Concrete streams *)

Definition demo_env : Env := mkEnv 1 2 (Some true) [ReadFrame; WriteTick; ReadFrame].
Definition demo_stream : bytes := hello a_peer ++ wire [T_DATA :: [x68; x69]] ++ [x00].

(** The stream in three WebSocket frames, in two chunks that are not cut where
    the frames are. *)
Definition demo_frames : bytes :=
  mjoin (encode_message <$>
    [ mkMessage false OP_BIN sample_mask (take 22 demo_stream);
      mkMessage false OP_CONT sample_mask (take 7 (drop 22 demo_stream));
      mkMessage true OP_CONT sample_mask (drop 29 demo_stream) ]).

Definition demo_live : Live :=
  mkLive (put_back (sample_request ++ take 40 demo_frames) (None :: put_back (drop 40 demo_frames) []))
    [None; Some 5] [].

Lemma async_serves_until_shutdown_witness :
  accept_loop (S := Live) (TlsAcceptor := unit) AcceptPlain
    ((AcceptGives <$> [Ok demo_live; Err WouldBlock]) ++ AcceptShutdown ::
      [AcceptGives (Ok (mkLive [] [] []))]) =
    ([(demo_live, AcceptPlain)], true) /\
  forall s tx me env, exists tx' r cs,
    serve (S := Live) (T := Live) (TlsAcceptor := unit) (fun n => n) (fun _ _ => Err UnexpectedEof) s
      AcceptPlain tx me env = Some (tx', r) /\
    queued tx' = queued tx ++ cs /\
    session_log (writer_ch env) (accept_ch env) (verdict env) (gone_after tx = None) cs.
Proof.
  exact (async_serves_until_shutdown (S := Live) (T := Live) (fun n => n)
    (fun (_ : unit) _ => Err UnexpectedEof) AcceptPlain
    [Ok demo_live; Err WouldBlock] [AcceptGives (Ok (mkLive [] [] []))]).
Defined.

Definition demo_sniffed : Sniffed Live :=
  match sniff_and_wrap demo_live with
  | Some (_, Ok (Some sniffed)) => sniffed
  | _ => Raw (new_prefixed [] demo_live)
  end.

Lemma demo_unspilled : unspilled_session (fun n => n + 8) a_peer (turns demo_env) demo_sniffed.
Proof. apply (bool_decide_unpack _). vm_compute. exact I. Qed.

Lemma async_serves_raw_and_ws_witness :
  sniff_then_handle (fun n => n + 8) demo_live (mkCmdTx [] None) a_peer demo_env =
    Some (mkCmdTx ([] ++ ConnectionUp a_peer 1 2 :: [Received a_peer (Protocol.Data [x68; x69])] ++
                   [ConnectionDown a_peer]) None, Ok tt).
Proof.
  apply (async_serves_raw_and_ws (T := Live) (fun n => n + 8) demo_live (mkCmdTx [] None) a_peer a_peer
    demo_env [T_DATA :: [x68; x69]] [x00]).
  - intros n. lia.
  - intros t' sniffed E.
    assert (sniffed = demo_sniffed) as -> by (unfold demo_sniffed; by rewrite E).
    exact demo_unspilled.
  - reflexivity.
  - reflexivity.
  - apply (speaks_ws _ _ (tail sample_request) demo_frames (lit "dGhlIHNhbXBsZSBub25jZQ==")).
    + vm_compute. reflexivity.
    + vm_compute. reflexivity.
    + apply (bool_decide_unpack _). vm_compute. exact I.
    + vm_compute. reflexivity.
    + vm_compute. reflexivity.
  - apply (bool_decide_unpack _). vm_compute. exact I.
  - apply partial_short. simpl. lia.
  - reflexivity.
  - apply (bool_decide_unpack _). vm_compute. exact I.
  - cbn. lia.
Defined.
