(* ===== verification/SocketAsync.v ===== *)
(** * SocketAsync: the public interface of the asynchronous crate

    Models [SocketBuilder] and [Socket] of [rust-lib-async/src/lib.rs], and
    shows that a program sees the same answers from it as from the synchronous
    crate's ([Socket.v]) wherever the two have the same call, unless it connects
    to an address that does not resolve. *)

From S2P Require Import Prelude Io Protocol Timers BrokerAsync Broker Conn Loops LoopsAsync Socket.
From Stdlib Require Import Strings.Byte.

Module Async.

(** [crate::Error]. *)
Inductive Error :=
| Io (e : ErrorKind)
| Closed
| InvalidServerName.

Record SocketBuilder := mkBuilder {
  b_send_mode : SendMode;
  b_delivery : DeliveryGuarantee;
  b_identity : option Identity;
  b_reconnect_delay : nat -> Z;
}.

Definition default_builder : SocketBuilder :=
  mkBuilder RoundRobin AtMostOnce None (fun _ => 100000000%Z).

Definition builder : SocketBuilder := default_builder.

Definition set_send_mode (b : SocketBuilder) (mode : SendMode) : SocketBuilder :=
  mkBuilder mode (b_delivery b) (b_identity b) (b_reconnect_delay b).

Definition set_delivery_guarantee (b : SocketBuilder) (g : DeliveryGuarantee) : SocketBuilder :=
  mkBuilder (b_send_mode b) g (b_identity b) (b_reconnect_delay b).

Definition set_identity (b : SocketBuilder) (id : Identity) : SocketBuilder :=
  mkBuilder (b_send_mode b) (b_delivery b) (Some id) (b_reconnect_delay b).

Definition set_reconnect_delay (b : SocketBuilder) (f : nat -> Z) : SocketBuilder :=
  mkBuilder (b_send_mode b) (b_delivery b) (b_identity b) f.

Section Socket.
Context {Listener SocketAddr Addr TlsAcceptor TlsConnector ServerName : Type}.

(** What [tokio::spawn] is given by [spawn_accept] and [spawn_connect]; an
    address is resolved anew at each attempt. *)
Inductive Task :=
| AcceptLoop (listener : Listener) (acceptor : LoopsAsync.Acceptor TlsAcceptor)
| ConnectLoop (addr : Addr) (connector : LoopsAsync.Connector TlsConnector ServerName).

(** [close_signal] is the value of the [watch] channel, [awaited] the tasks
    whose end was awaited. *)
Record Inner := mkInner {
  identity : Identity;
  reconnect_delay : nat -> Z;
  cmd_tx : CmdTx;
  recv_rx : list delivery_event;
  close_signal : bool;
  closed : bool;
  broker_handle : bool;
  tasks : list Task;
  awaited : list Task;
}.

Implicit Type s : Inner.

Definition with_cmd_tx tx s := mkInner (identity s) (reconnect_delay s) tx (recv_rx s) (close_signal s)
  (closed s) (broker_handle s) (tasks s) (awaited s).
Definition with_recv_rx rx s := mkInner (identity s) (reconnect_delay s) (cmd_tx s) rx (close_signal s)
  (closed s) (broker_handle s) (tasks s) (awaited s).
Definition with_tasks ts s := mkInner (identity s) (reconnect_delay s) (cmd_tx s) (recv_rx s)
  (close_signal s) (closed s) (broker_handle s) ts (awaited s).

(** [build]; the broker draws its salt from [uuid']. *)
Definition build (b : SocketBuilder) (uuid uuid' : bytes) (incoming : list delivery_event)
  : Inner * BrokerAsync.Broker :=
  (mkInner (default uuid (b_identity b)) (b_reconnect_delay b) (mkCmdTx [] None) incoming false false true
     [] [],
   BrokerAsync.new_broker (b_send_mode b) (b_delivery b) uuid').

Definition new (uuid uuid' : bytes) (incoming : list delivery_event) : Inner * BrokerAsync.Broker :=
  build default_builder uuid uuid' incoming.

Definition spawn_accept s (listener : Listener) (acceptor : LoopsAsync.Acceptor TlsAcceptor) : Inner :=
  with_tasks (tasks s ++ [AcceptLoop listener acceptor]) s.

Definition bind s (listen : io_result (Listener * io_result SocketAddr)) : Inner * (Error + SocketAddr) :=
  match listen with
  | Err e => (s, inl (Io e))
  | Ok (_, Err e) => (s, inl (Io e))
  | Ok (listener, Ok local_addr) => (spawn_accept s listener LoopsAsync.AcceptPlain, inr local_addr)
  end.

Definition bind_tls s (listen : io_result (Listener * io_result SocketAddr)) (config : TlsAcceptor)
  : Inner * (Error + SocketAddr) :=
  match listen with
  | Err e => (s, inl (Io e))
  | Ok (_, Err e) => (s, inl (Io e))
  | Ok (listener, Ok local_addr) =>
    (spawn_accept s listener (LoopsAsync.AcceptTls config), inr local_addr)
  end.

Definition spawn_connect s (addr : Addr) (connector : LoopsAsync.Connector TlsConnector ServerName)
  : Inner * (Error + ()) :=
  if closed s then (s, inl Closed)
  else (with_tasks (tasks s ++ [ConnectLoop addr connector]) s, inr tt).

Definition connect s (addr : Addr) : Inner * (Error + ()) := spawn_connect s addr LoopsAsync.ConnectPlain.

Definition connect_tls (parse_name : bytes -> option ServerName) s (addr : Addr) (server_name : bytes)
    (config : TlsConnector) : Inner * (Error + ()) :=
  match parse_name server_name with
  | None => (s, inl InvalidServerName)
  | Some name => spawn_connect s addr (LoopsAsync.ConnectTls config name)
  end.

Definition dispatch s (to : option Identity) (data : bytes) : Inner * (Error + ()) :=
  match cmd_send (cmd_tx s) (Send to data) with
  | (tx, true) => (with_cmd_tx tx s, inr tt)
  | (tx, false) => (with_cmd_tx tx s, inl Closed)
  end.

Definition send s (data : bytes) : Inner * (Error + ()) := dispatch s None data.

Definition send_to s (to : Identity) (data : bytes) : Inner * (Error + ()) := dispatch s (Some to) data.

Definition recv_identity s : Inner * option (Identity * bytes) :=
  let '(rx, r) := recv_blocking (recv_rx s) in (with_recv_rx rx s, r).

Definition recv s : Inner * option bytes :=
  let '(s, r) := recv_identity s in (s, snd <$> r).

(** The streams of [messages] and [identity_messages], to their end. *)
Fixpoint messages_loop (fuel : nat) s : option (Inner * list bytes) :=
  match fuel with
  | O => None
  | S fuel =>
    match recv s with
    | (s, Some data) => '(s, l) ← messages_loop fuel s; Some (s, data :: l)
    | (s, None) => Some (s, [])
    end
  end.

Definition messages s : option (Inner * list bytes) := messages_loop (S (length (recv_rx s))) s.

Fixpoint identity_messages_loop (fuel : nat) s : option (Inner * list (Identity * bytes)) :=
  match fuel with
  | O => None
  | S fuel =>
    match recv_identity s with
    | (s, Some item) => '(s, l) ← identity_messages_loop fuel s; Some (s, item :: l)
    | (s, None) => Some (s, [])
    end
  end.

Definition identity_messages s : option (Inner * list (Identity * bytes)) :=
  identity_messages_loop (S (length (recv_rx s))) s.

(** [close], to its end: every task and the broker have been awaited. *)
Definition close s : Inner :=
  if closed s then s
  else
    let tx := (cmd_send (cmd_tx s) Close).1 in
    mkInner (identity s) (reconnect_delay s)
      (if broker_handle s then mkCmdTx (queued tx) (Some 0) else tx) (recv_rx s) true true false
      [] (awaited s ++ tasks s).
End Socket.
Arguments Task : clear implicits.
Arguments Inner : clear implicits.
End Async.

(** ** The two crates' interfaces agree *)

Section Agree.
Context {Listener SocketAddr Addr Stream TlsAcceptor TlsConnector ServerName : Type}.
Abbreviation Task := (Async.Task Listener Addr TlsAcceptor TlsConnector ServerName).
Abbreviation AInner := (Async.Inner Listener Addr TlsAcceptor TlsConnector ServerName).
Abbreviation Thread := (Socket.Thread Listener SocketAddr TlsAcceptor TlsConnector ServerName).
Abbreviation SInner := (Socket.Inner Listener SocketAddr Stream TlsAcceptor TlsConnector ServerName).

(** What resolving an address gives ([to_socket_addrs]), and whether a server
    name is one ([ServerName::try_from]). *)
Context (lookup : Addr -> io_result (list SocketAddr)) (parse_name : bytes -> option ServerName).

(** The calls both crates have. *)
Inductive call :=
| CBind (listen : io_result (Listener * io_result SocketAddr)) (tls : option TlsAcceptor)
| CConnect (addr : Addr) (tls : option (TlsConnector * bytes))
| CSend (to : option Identity) (data : bytes)
| CRecv
| CClose.

Implicit Types (a : AInner) (s : SInner).

Definition sync_perform s (c : call) : SInner * Socket.answer SocketAddr :=
  match c with
  | CBind listen None => let '(s, r) := bind s listen in (s, ABind r)
  | CBind listen (Some config) => let '(s, r) := bind_tls s listen config in (s, ABind r)
  | CConnect addr None => let '(s, r) := connect s (lookup addr) in (s, AConnect r)
  | CConnect addr (Some (config, name)) =>
    let '(s, r) := connect_tls parse_name s (lookup addr) name config in (s, AConnect r)
  | CSend to data => let '(s, r) := dispatch s to data in (s, ASend r)
  | CRecv => let '(s, r) := recv s in (s, ARecv r)
  | CClose => (close s, AClose)
  end.

Definition sync_error (e : Async.Error) : Socket.Error :=
  match e with
  | Async.Io e => Socket.Io e
  | Async.Closed => Socket.Closed
  | Async.InvalidServerName => Socket.InvalidServerName
  end.

Definition sync_result {A} (r : Async.Error + A) : Socket.Result A :=
  match r with inl e => inl (sync_error e) | inr a => inr a end.

Definition async_perform a (c : call) : AInner * Socket.answer SocketAddr :=
  match c with
  | CBind listen None => let '(a, r) := Async.bind a listen in (a, ABind (sync_result r))
  | CBind listen (Some config) => let '(a, r) := Async.bind_tls a listen config in (a, ABind (sync_result r))
  | CConnect addr None => let '(a, r) := Async.connect a addr in (a, AConnect (sync_result r))
  | CConnect addr (Some (config, name)) =>
    let '(a, r) := Async.connect_tls parse_name a addr name config in (a, AConnect (sync_result r))
  | CSend to data => let '(a, r) := Async.dispatch a to data in (a, ASend (sync_result r))
  | CRecv => let '(a, r) := Async.recv a in (a, ARecv r)
  | CClose => (Async.close a, AClose)
  end.

Section PerformAll.
Context {S : Type} (perform : S -> call -> S * Socket.answer SocketAddr).

Fixpoint perform_each (s : S) (cs : list call) : S * list (Socket.answer SocketAddr) :=
  match cs with
  | [] => (s, [])
  | c :: cs =>
    let '(s, a) := perform s c in
    let '(s, l) := perform_each s cs in (s, a :: l)
  end.
End PerformAll.

(** A task and a thread with the same loop to run.  The synchronous crate has
    resolved the address; the asynchronous one resolves it at each attempt. *)
Definition same_loop (t : Task) (th : Thread) : Prop :=
  match t, th with
  | Async.AcceptLoop l LoopsAsync.AcceptPlain, Socket.AcceptLoop l' Loops.AcceptPlain => l = l'
  | Async.AcceptLoop l (LoopsAsync.AcceptTls c), Socket.AcceptLoop l' (Loops.AcceptTls c') =>
    l = l' /\ c = c'
  | Async.ConnectLoop addr LoopsAsync.ConnectPlain, Socket.ConnectLoop x Loops.ConnectPlain =>
    exists more, lookup addr = Ok (x :: more)
  | Async.ConnectLoop addr (LoopsAsync.ConnectTls c n), Socket.ConnectLoop x (Loops.ConnectTls c' n') =>
    (exists more, lookup addr = Ok (x :: more)) /\ c = c' /\ n = n'
  | _, _ => False
  end.

(** The two states stand for the same socket. *)
Record agree a s : Prop := {
  ag_identity : Async.identity a = Socket.identity s;
  ag_tx : Async.cmd_tx a = Socket.cmd_tx s;
  ag_rx : Async.recv_rx a = Socket.recv_rx s;
  ag_signal : Async.close_signal a = Socket.shutdown s;
  ag_closed : Async.closed a = Socket.closed s;
  ag_broker : Async.broker_handle a = Socket.broker_thread s;
  ag_tasks : Forall2 same_loop (Async.tasks a) (Socket.threads s);
  ag_awaited : Forall2 same_loop (Async.awaited a) (Socket.joined s);
}.

(** A connect that gets as far as the address finds one. *)
Definition resolvable (c : call) : Prop :=
  match c with
  | CConnect addr None => exists x more, lookup addr = Ok (x :: more)
  | CConnect addr (Some (_, name)) => parse_name name = None \/ exists x more, lookup addr = Ok (x :: more)
  | _ => True
  end.

Definition is_closing (c : call) : bool :=
  match c with CClose => true | _ => false end.

Lemma spawn_agree a s t th :
  agree a s -> same_loop t th ->
  agree (Async.with_tasks (Async.tasks a ++ [t]) a) (Socket.with_threads (Socket.threads s ++ [th]) s).
Proof. intros [] H. split; cbn; try done. apply Forall2_app; [done|by repeat constructor]. Qed.

(** A connect on sockets that are closed, or to an address that resolves. *)
Lemma connect_agree a s addr k k' :
  agree a s ->
  Socket.closed s = true \/
    (exists x more, lookup addr = Ok (x :: more) /\ same_loop (Async.ConnectLoop addr k) (Socket.ConnectLoop x k')) ->
  let '(a', r) := Async.spawn_connect a addr k in
  let '(s', r') := connect_with s (lookup addr) k' in
  agree a' s' /\ sync_result r = r'.
Proof.
  intros H Hx. unfold Async.spawn_connect, connect_with. rewrite (ag_closed _ _ H).
  destruct (Socket.closed s) eqn:Ec; [done|]. destruct Hx as [|(x & more & Ex & Hl)]; [done|].
  rewrite Ex. cbn. split; [by apply spawn_agree|done].
Qed.

Lemma async_perform_agree a s c :
  agree a s -> Socket.closed s = true \/ resolvable c ->
  agree (async_perform a c).1 (sync_perform s c).1 /\ (async_perform a c).2 = (sync_perform s c).2.
Proof.
  intros H Hc. pose proof H as [Hi Ht Hr Hs Hcl Hb Hk Hj].
  destruct c as [listen tls|addr tls|to d| | ]; cbn [async_perform sync_perform].
  - destruct tls as [c|]; destruct listen as [[l [addr|e]]|e]; cbn; (split; [|done]);
      first [by apply spawn_agree|done].
  - destruct tls as [[c name]|].
    + unfold Async.connect_tls, connect_tls. destruct (parse_name name) as [n|] eqn:En; [|done].
      pose proof (connect_agree a s addr (LoopsAsync.ConnectTls c n) (Loops.ConnectTls c n) H) as Hca.
      destruct (Async.spawn_connect _ _ _), (connect_with _ _ _). destruct Hca as [Ha <-]; [|done].
      destruct Hc as [|[|(x & more & Ex)]]; [by left|congruence|right]. exists x, more. cbn. eauto.
    + pose proof (connect_agree a s addr LoopsAsync.ConnectPlain Loops.ConnectPlain H) as Hca.
      unfold Async.connect, connect.
      destruct (Async.spawn_connect _ _ _), (connect_with _ _ _). destruct Hca as [Ha <-]; [|done].
      destruct Hc as [|(x & more & Ex)]; [by left|right]. exists x, more. cbn. eauto.
  - unfold Async.dispatch, dispatch. rewrite Ht.
    destruct (cmd_send (Socket.cmd_tx s) (Send to d)) as [tx []]; by split.
  - unfold Async.recv, Async.recv_identity, recv, recv_identity. rewrite Hr.
    destruct (recv_blocking (Socket.recv_rx s)) as [rx r]. by split.
  - unfold Async.close, close. rewrite Hcl. destruct (Socket.closed s) eqn:Ec; cbn; [done|].
    split; [|done]. split; cbn; try done; [by rewrite Ht, Hb|by apply Forall2_app].
Qed.

(** Closing closes, and nothing opens again. *)
Lemma sync_perform_closed s c :
  (sync_perform s c).1.(Socket.closed) = is_closing c || Socket.closed s.
Proof.
  destruct c as [[[l [x|e]]|e] [k|]|addr [[k n]|]|to d| | ]; cbn; try done;
    unfold connect_tls, connect, connect_with, dispatch, recv, recv_identity, close;
    repeat case_match; cbn; simplify_eq; done.
Qed.

Lemma perform_each_agree cs : forall a s,
  agree a s -> Socket.closed s = true \/ Forall resolvable (until is_closing cs) ->
  let '(a', answers) := perform_each async_perform a cs in
  let '(s', answers') := perform_each sync_perform s cs in
  answers = answers' /\ agree a' s' /\ Socket.closed s' = existsb is_closing cs || Socket.closed s.
Proof.
  induction cs as [|c cs IH]; intros a s H Hf; [done|]. cbn [perform_each existsb until].
  assert (Hc : Socket.closed s = true \/ resolvable c).
  { destruct Hf as [|Hf]; [by left|right]. cbn [until] in Hf.
    destruct (is_closing c) eqn:E; [by destruct c|by inversion Hf]. }
  pose proof (async_perform_agree a s c H Hc) as [H1 H2]. pose proof (sync_perform_closed s c) as H3.
  destruct (async_perform a c) as [a1 x], (sync_perform s c) as [s1 y]. cbn in H1, H2, H3.
  assert (Hf1 : Socket.closed s1 = true \/ Forall resolvable (until is_closing cs)).
  { rewrite H3. destruct Hf as [->|Hf]; [left; by rewrite orb_true_r|]. cbn [until] in Hf.
    destruct (is_closing c); [by left|right; by inversion Hf]. }
  specialize (IH a1 s1 H1 Hf1).
  destruct (perform_each async_perform a1 cs), (perform_each sync_perform s1 cs).
  destruct IH as (-> & IH & ->). rewrite H3. split_and!; [congruence|done|].
  by destruct (is_closing c), (existsb is_closing cs), (Socket.closed s).
Qed.

(** Where they differ: a connect, on an open socket, to an address that does not
    resolve. *)
Lemma connects_differ a s addr tls :
  agree a s -> Socket.closed s = false -> ~ resolvable (CConnect addr tls) ->
  (exists t, async_perform a (CConnect addr tls) =
    (Async.with_tasks (Async.tasks a ++ [t]) a, AConnect (Good tt))) /\
  sync_perform s (CConnect addr tls) = (s, AConnect (dialling (lookup addr))) /\
  dialling (lookup addr) <> Good tt.
Proof.
  intros H Hc Hn.
  assert (Hd : (exists e, lookup addr = Err e) \/ lookup addr = Ok []).
  { destruct (lookup addr) as [[|x more]|e] eqn:E; [by right| |by left; eexists].
    destruct Hn. destruct tls as [[k n]|]; [right|]; by exists x, more. }
  unfold async_perform, sync_perform, Async.connect_tls, Async.connect, Async.spawn_connect,
    connect_tls, connect, connect_with. rewrite (ag_closed _ _ H), Hc.
  destruct tls as [[k name]|]; [destruct (parse_name name) as [n|] eqn:En|].
  2: { destruct Hn. by left. }
  all: (split; [by eexists|]); by destruct Hd as [[e ->]| ->].
Qed.

(** C22: The two crates' sockets are interchangeable, up to how they resolve an
    address.  A program makes the same calls on an asynchronous and on a
    synchronous socket built alike, in whatever order and with the same answers
    from the system (the resolver's the same throughout) and the same messages
    arriving.  If every connect before the first [close] that has a valid
    server name, or needs none, is to an address that resolves, it gets the same
    results from both, errors included; the same commands have been handed to
    the two brokers, and the same loops have been started and waited for. But
    the first connect of an open socket to an address that does not resolve
    tells them apart: the synchronous one returns the resolver's error, or
    [BadAddress], and starts nothing, while the asynchronous one returns [Ok]
    and starts a loop. *)
Theorem sockets_agree mode g id delay uuid uuid' incoming cs :
  Forall resolvable (until is_closing cs) ->
  let a := (Async.build (Async.mkBuilder mode g id delay) uuid uuid' incoming).1 in
  let s := (build (Socket.mkBuilder mode g id delay) uuid uuid' incoming).1 in
  let '(a', answers) := perform_each async_perform a cs in
  let '(s', answers') := perform_each sync_perform s cs in
  answers = answers' /\ agree a' s' /\
  forall addr tls, existsb is_closing cs = false -> ~ resolvable (CConnect addr tls) ->
    (exists t, async_perform a' (CConnect addr tls) =
      (Async.with_tasks (Async.tasks a' ++ [t]) a', AConnect (Good tt))) /\
    sync_perform s' (CConnect addr tls) = (s', AConnect (dialling (lookup addr))) /\
    dialling (lookup addr) <> Good tt.
Proof.
  intros Hf a s. assert (Hag : agree a s) by by split.
  pose proof (perform_each_agree cs a s Hag (or_intror Hf)) as H.
  destruct (perform_each async_perform a cs) as [a' l], (perform_each sync_perform s cs) as [s' l'].
  destruct H as (-> & H & Hc). split_and!; [done|done|]. intros addr tls Hn.
  apply connects_differ; [done|]. by rewrite Hc, Hn.
Qed.
End Agree.

(** A program that binds, connects once by name and once with a server name
    that is none, sends and closes; and the address that nobody knows. *)
Definition demo_lookup (addr : bytes) : io_result (list bytes) :=
  if decide (addr = [x01]) then Ok [[x7f]; [x7e]] else Ok [].

Definition demo_names (name : bytes) : option bytes := if decide (name = []) then None else Some name.

Definition shared_calls : list (call (Listener := unit) (SocketAddr := bytes) (Addr := bytes) (TlsAcceptor := unit) (TlsConnector := unit)) :=
  [CBind (Ok (tt, Ok [x05])) None; CConnect [x01] None; CConnect [] (Some (tt, []));
   CConnect [x01] (Some (tt, [x02])); CSend None [x03]; CRecv].

Lemma sockets_agree_witness :
  let '(s', answers) := perform_each (sync_perform (Stream := unit) demo_lookup demo_names)
    (build builder [] [] [Incoming [] [x04]]).1 shared_calls in
  answers = [ABind (Good [x05]); AConnect (Good tt); AConnect (Bad InvalidServerName); AConnect (Good tt);
    ASend (Good tt); ARecv (Some [x04])] /\
  (sync_perform demo_lookup demo_names s' (CConnect [x09] None)).2 = AConnect (Bad BadAddress) /\
  (perform_each (async_perform demo_names)
    (Async.build Async.builder [] [] [Incoming [] [x04]]).1 shared_calls).2 = answers.
Proof.
  destruct (sockets_agree (Stream := unit) demo_lookup demo_names RoundRobin AtMostOnce None
    (b_reconnect_delay builder) [] [] [Incoming [] [x04]] shared_calls) as (H1 & _ & H).
  { repeat (apply Forall_cons; split); try exact I; try apply Forall_nil; cbn;
      try (by left); try right; by do 2 eexists. }
  split; [reflexivity|]. split; [|exact H1].
  refine (f_equal snd (proj1 (proj2 (H [x09] None eq_refl _)))).
  intros (x & more & E). vm_compute in E. discriminate E.
Defined.
