(* ===== verification/SystemAsync.v ===== *)
(** * SystemAsync: closing an asynchronous socket while its tasks run

    The tasks of a [Socket] of [rust-lib-async], the broker and a caller of
    [close], as one transition system.  A task is where it waits: at each
    [.await] of [connect_loop] and [handle_connection] (or of [accept_loop]),
    and what it does next depends on what wakes it.  Only some of these places
    also wait for the shutdown signal.  Steps are labelled by who makes them:
    the runtime, the program, or the peer at the other end. *)

From S2P Require Import Prelude.

(** Where a task of [Socket] waits. *)
Inductive pc :=
| Accepting     (* accept_loop: select! { shutdown, accept } *)
| AtHead        (* connect_loop: while !shutdown.is_shutdown() *)
| Dialling      (* select! { shutdown, timeout(connect) } *)
| TlsHandshake  (* c.connect(name, stream).await *)
| Greeting      (* handle_connection: write_frame(hello).await *)
| AwaitHello    (* read_frame(..).await *)
| AwaitAnswer   (* accept_rx.await *)
| Serving       (* select! { shutdown, timeout(read_frame) } *)
| AtCheck       (* if shutdown.is_shutdown() { break } *)
| Sleeping      (* select! { shutdown, sleep } *)
| Ended.

#[export] Instance pc_eq_dec : EqDecision pc.
Proof. solve_decision. Defined.

(** Where the caller of [close] is; [Joining l] awaits the tasks [l]. *)
Inductive closer :=
| NotCalled
| Swapped       (* closed.swap(true) *)
| Signalled     (* close_tx.send(true) *)
| Told          (* cmd_tx.send(Command::Close) *)
| Joining (l : list nat)
| JoinBroker
| Returned.

Record system := mkSystem {
  s_closed : bool;
  s_signal : bool;
  s_stop : bool;
  s_broker : bool;
  s_tasks : list pc;
  s_closer : closer;
}.

Inductive label := Runtime | Program | Peer.

(** One task's moves, given the value of the shutdown signal and whether the
    broker still runs. *)
Inductive wakes (signal broker : bool) : label -> pc -> pc -> Prop :=
| w_accept_stop : signal = true -> wakes signal broker Runtime Accepting Ended
| w_accept : wakes signal broker Peer Accepting Accepting
| w_head : wakes signal broker Runtime AtHead (if signal then Ended else Dialling)
| w_dial_stop : signal = true -> wakes signal broker Runtime Dialling Ended
| w_dial_timeout : wakes signal broker Runtime Dialling AtCheck
| w_dial_failed : wakes signal broker Peer Dialling AtCheck
| w_dialled : wakes signal broker Peer Dialling Greeting
| w_dialled_tls : wakes signal broker Peer Dialling TlsHandshake
| w_tls_failed : wakes signal broker Peer TlsHandshake AtCheck
| w_tls : wakes signal broker Peer TlsHandshake Greeting
| w_hello_failed : wakes signal broker Runtime Greeting AtCheck
| w_hello : wakes signal broker Runtime Greeting AwaitHello
| w_no_hello : wakes signal broker Peer AwaitHello AtCheck
| w_greeted : wakes signal broker Peer AwaitHello AwaitAnswer
| w_rejected : wakes signal broker Runtime AwaitAnswer AtCheck
| w_accepted : broker = true -> wakes signal broker Runtime AwaitAnswer Serving
| w_session_stop : signal = true -> wakes signal broker Runtime Serving AtCheck
| w_session_timeout : wakes signal broker Runtime Serving AtCheck
| w_session_closed : wakes signal broker Peer Serving AtCheck
| w_check : wakes signal broker Runtime AtCheck (if signal then Ended else Sleeping)
| w_sleep_stop : signal = true -> wakes signal broker Runtime Sleeping Ended
| w_slept : wakes signal broker Runtime Sleeping AtHead.

(** [close]'s own moves. *)
Inductive closes : system -> system -> Prop :=
| c_swap sg st b ts : closes (mkSystem false sg st b ts NotCalled) (mkSystem true sg st b ts Swapped)
| c_signal c sg st b ts : closes (mkSystem c sg st b ts Swapped) (mkSystem c true st b ts Signalled)
| c_tell c sg st b ts : closes (mkSystem c sg st b ts Signalled) (mkSystem c sg true b ts Told)
| c_take c sg st b ts :
    closes (mkSystem c sg st b ts Told) (mkSystem c sg st b ts (Joining (seq 0 (length ts))))
| c_join c sg st b ts i l :
    ts !! i = Some Ended ->
    closes (mkSystem c sg st b ts (Joining (i :: l))) (mkSystem c sg st b ts (Joining l))
| c_joined c sg st b ts : closes (mkSystem c sg st b ts (Joining [])) (mkSystem c sg st b ts JoinBroker)
| c_broker c sg st ts : closes (mkSystem c sg st false ts JoinBroker) (mkSystem c sg st false ts Returned).

(** The calls of the program while others run: [bind] does not look at
    [closed], [connect] does. *)
Inductive step : label -> system -> system -> Prop :=
| s_task lb c sg st b ts cl i p p' :
    ts !! i = Some p -> wakes sg b lb p p' ->
    step lb (mkSystem c sg st b ts cl) (mkSystem c sg st b (<[i := p']> ts) cl)
| s_stop_broker c sg ts cl :
    step Runtime (mkSystem c sg true true ts cl) (mkSystem c sg true false ts cl)
| s_close s s' : closes s s' -> s_closer s <> NotCalled -> step Runtime s s'
| s_call_close s s' : closes s s' -> s_closer s = NotCalled -> step Program s s'
| s_bind c sg st b ts cl :
    step Program (mkSystem c sg st b ts cl) (mkSystem c sg st b (ts ++ [Accepting]) cl)
| s_connect sg st b ts cl :
    step Program (mkSystem false sg st b ts cl) (mkSystem false sg st b (ts ++ [AtHead]) cl).

Definition any_step s s' := exists lb, step lb s s'.
Definition quiet_step s s' := step Runtime s s'.

Definition fresh : system := mkSystem false false false true [] NotCalled.

Definition reachable (s : system) : Prop := rtc any_step fresh s.

(** ** The invariant *)

(** A task that only its peer can wake, or that is about to be one. *)
Definition handshaking (p : pc) : Prop := p = TlsHandshake \/ p = Greeting \/ p = AwaitHello.

#[export] Instance handshaking_dec p : Decision (handshaking p).
Proof. unfold handshaking. apply _. Defined.

(** What [close] has done by the time it is where it is. *)
Definition close_inv (s : system) : Prop :=
  match s_closer s with
  | NotCalled | Swapped => True
  | Signalled => s_signal s = true
  | Told | JoinBroker => s_signal s = true /\ s_stop s = true
  | Joining l => s_signal s = true /\ s_stop s = true /\ Forall (fun i => i < length (s_tasks s)) l
  | Returned => s_signal s = true /\ s_stop s = true /\ s_broker s = false
  end.

Lemma closes_close_inv s s' : closes s s' -> close_inv s -> close_inv s'.
Proof.
  unfold close_inv. destruct 1; cbn; try naive_solver.
  - intros [? ?]. split_and!; [done..|]. apply Forall_forall. intros i Hi%elem_of_seq. lia.
  - intros (? & ? & ?%Forall_cons). naive_solver.
Qed.

Lemma step_close_inv lb s s' : step lb s s' -> close_inv s -> close_inv s'.
Proof.
  destruct 1 as [lb c sg st b ts cl i p p' Hi Hw|c sg ts cl|s s' Hc _|s s' Hc _|
    c sg st b ts cl|sg st b ts cl]; [|..|by apply closes_close_inv|by apply closes_close_inv| |];
    unfold close_inv; cbn.
  - by rewrite length_insert.
  - destruct cl; naive_solver.
  - destruct cl; try done. intros (? & ? & Hl). split_and!; [done..|].
    eapply Forall_impl; [exact Hl|]. cbn. intros i Hi. rewrite length_app. lia.
  - destruct cl; try done. intros (? & ? & Hl). split_and!; [done..|].
    eapply Forall_impl; [exact Hl|]. cbn. intros i Hi. rewrite length_app. lia.
Qed.

Lemma reachable_close_inv s : reachable s -> close_inv s.
Proof.
  unfold reachable. apply (rtc_ind_r (fun s => close_inv s)); [done|].
  intros x y _ [lb Hst] Hx. by eapply step_close_inv.
Qed.

(** ** What is left to do once the signal is set *)

Definition task_work (p : pc) : nat :=
  match p with
  | Ended => 0
  | AtHead | AtCheck | Accepting => 1
  | Dialling | Sleeping | Serving => 2
  | AwaitAnswer => 3
  | AwaitHello => 4
  | Greeting => 5
  | TlsHandshake => 6
  end.

Definition closer_work (n : nat) (c : closer) : nat :=
  match c with
  | NotCalled => n + 7
  | Swapped => n + 6
  | Signalled => n + 5
  | Told => n + 4
  | Joining l => length l + 3
  | JoinBroker => 2
  | Returned => 0
  end.

Definition work (s : system) : nat :=
  sum_list (task_work <$> s_tasks s) + closer_work (length (s_tasks s)) (s_closer s) +
  (if s_broker s then 1 else 0).

Lemma wakes_work b p p' : wakes true b Runtime p p' -> task_work p' < task_work p.
Proof. inversion 1; cbn; lia. Qed.

Lemma task_work_insert ts i p p' :
  ts !! i = Some p -> task_work p' < task_work p ->
  sum_list (task_work <$> <[i := p']> ts) < sum_list (task_work <$> ts).
Proof.
  revert i. induction ts as [|q ts IH]; intros [|i] Hi Hw; csimpl; simplify_eq/=; [lia|].
  specialize (IH i Hi Hw). lia.
Qed.

Lemma quiet_step_work s s' : s_signal s = true -> quiet_step s s' -> work s' < work s.
Proof.
  intros Hs Hq. unfold quiet_step in Hq. remember Runtime as lb eqn:El. revert El Hs.
  destruct Hq as [lb c sg st b ts cl i p p' Hi Hw|c sg ts cl|s s' Hc Hn|s s' Hc Hn|
    c sg st b ts cl|sg st b ts cl]; intros El; cbn; intros Hs; try done; subst.
  - unfold work. cbn [s_tasks s_closer s_broker]. rewrite length_insert.
    pose proof (task_work_insert ts i p p' Hi (wakes_work _ _ _ Hw)). lia.
  - unfold work. cbn [s_tasks s_closer s_broker]. lia.
  - destruct Hc; try done; unfold work; cbn [s_tasks s_closer s_broker closer_work length];
      rewrite ?length_seq; lia.
Qed.

(** ** Progress *)

Lemma quiet_signal s s' : quiet_step s s' -> s_signal s = true -> s_signal s' = true.
Proof.
  unfold quiet_step. intros Hq. remember Runtime as lb eqn:El. revert El.
  destruct Hq as [| |s s' Hc _|s s' Hc _| |]; intros; cbn in *; try done; by destruct Hc.
Qed.

Lemma quiet_handshaking s s' :
  quiet_step s s' -> Forall (fun p => ~ handshaking p) (s_tasks s) ->
  Forall (fun p => ~ handshaking p) (s_tasks s').
Proof.
  unfold quiet_step. intros Hq. remember Runtime as lb eqn:El. revert El.
  destruct Hq as [lb c sg st b ts cl i p p' Hi Hw|c sg ts cl|s s' Hc _|s s' Hc _| |]; intros El;
    cbn in *; try done; [|by destruct Hc].
  intros Hf. subst. apply Forall_insert; [done|].
  assert (Hp : ~ handshaking p) by (eapply Forall_lookup_1 in Hf; [exact Hf|exact Hi]).
  unfold handshaking in *. inversion Hw; subst; try destruct sg; naive_solver.
Qed.

Lemma task_moves b p :
  p <> Ended -> ~ (p = TlsHandshake \/ p = AwaitHello) -> exists p', wakes true b Runtime p p'.
Proof.
  intros Hp Hh. destruct p; try (exfalso; naive_solver); eexists; by constructor.
Qed.

Lemma task_step s i p :
  s_signal s = true -> s_tasks s !! i = Some p -> p <> Ended -> ~ (p = TlsHandshake \/ p = AwaitHello) ->
  exists s', quiet_step s s'.
Proof.
  destruct s as [c sg st b ts cl]. cbn. intros -> Hi Hp Hh.
  destruct (task_moves b p Hp Hh) as [p' Hw]. eexists. by eapply s_task.
Qed.

(** Where nothing moves without a peer, [close] has returned and everything
    has ended, or some task is in its handshake. *)
Lemma quiet_end s :
  close_inv s -> s_signal s = true -> s_closer s <> NotCalled -> s_closer s <> Swapped ->
  Forall (fun p => ~ handshaking p) (s_tasks s) ->
  (exists s', quiet_step s s') \/
  s_closer s = Returned /\ s_broker s = false /\ Forall (eq Ended) (s_tasks s).
Proof.
  intros HI Hs Hn Hw Hh.
  destruct (decide (Exists (fun p => p <> Ended) (s_tasks s))) as [Hex|Hall].
  { left. apply Exists_exists in Hex as (p & Hp & Hne). apply list_elem_of_lookup in Hp as [i Hi].
    apply (task_step s i p Hs Hi Hne). eapply Forall_lookup_1 in Hh; [|exact Hi].
    unfold handshaking in Hh. naive_solver. }
  assert (Hend : Forall (eq Ended) (s_tasks s)).
  { apply Forall_forall. intros p Hp. destruct (decide (p = Ended)) as [->|Hne]; [done|].
    destruct Hall. apply Exists_exists. by exists p. }
  destruct s as [c sg st b ts cl]. unfold close_inv in HI. cbn in *.
  destruct cl as [| | | |[|i l]| |]; try done.
  - left. eexists. by apply s_close; [constructor|].
  - left. eexists. by apply s_close; [constructor|].
  - left. eexists. by apply s_close; [constructor|].
  - left. destruct HI as (_ & _ & [Hi _]%Forall_cons).
    destruct (lookup_lt_is_Some_2 ts i Hi) as [p Hp]. eexists. apply s_close; [|done].
    apply c_join. rewrite Hp. f_equal. symmetry. by eapply Forall_lookup_1 in Hend.
  - left. destruct HI as [_ ->]. destruct b; [eexists; apply s_stop_broker|].
    eexists. by apply s_close; [constructor|].
  - right. by destruct HI as (_ & _ & ->).
Qed.

(** The caller is past setting the signal. *)
Definition closing (s : system) : Prop :=
  match s_closer s with NotCalled | Swapped => False | _ => True end.

Lemma quiet_closing s s' : quiet_step s s' -> closing s -> closing s'.
Proof.
  unfold quiet_step, closing. intros Hq. remember Runtime as lb eqn:El. revert El.
  destruct Hq as [| |s s' Hc _|s s' Hc _| |]; intros; cbn in *; try done; by destruct Hc.
Qed.

Lemma closing_signal s : close_inv s -> closing s -> s_signal s = true.
Proof. unfold close_inv, closing. destruct (s_closer s); naive_solver. Qed.

Lemma quiet_terminates n : forall s s', s_signal s = true -> nsteps quiet_step n s s' -> n <= work s.
Proof.
  induction n as [|n IH]; intros s s' Hs Hn; [lia|]. inversion Hn as [|? s1 s2 ? Hst Hrest]; subst.
  pose proof (quiet_step_work s s2 Hs Hst). pose proof (quiet_signal s s2 Hst Hs) as Hs2.
  specialize (IH s2 s' Hs2 Hrest). lia.
Qed.

Lemma quiet_completes n : forall s,
  work s <= n -> close_inv s -> closing s -> Forall (fun p => ~ handshaking p) (s_tasks s) ->
  exists s', rtc quiet_step s s' /\ s_closer s' = Returned /\ s_broker s' = false /\
    Forall (eq Ended) (s_tasks s').
Proof.
  induction n as [|n IH]; intros s Hn HI Hc Hh.
  - destruct (quiet_end s HI) as [[s' Hq]|H]; [by apply closing_signal| | |done| |by exists s].
    1, 2: intros E; unfold closing in Hc; by rewrite E in Hc.
    pose proof (quiet_step_work s s' (closing_signal s HI Hc) Hq). lia.
  - destruct (quiet_end s HI) as [[s' Hq]|H]; [by apply closing_signal| | |done| |by exists s].
    1, 2: intros E; unfold closing in Hc; by rewrite E in Hc.
    pose proof (quiet_step_work s s' (closing_signal s HI Hc) Hq).
    destruct (IH s') as (s2 & Hr & H2); [lia|by eapply step_close_inv|by eapply quiet_closing|
      by eapply quiet_handshaking|].
    exists s2. split; [|done]. by eapply rtc_l.
Qed.

(** ** Theorems *)

(** C23: [close] completes when no task is in its handshake. From any state the
    socket can get into, once [close] has given the signal and no task it must
    wait for is between having a connection and having the peer's HELLO, the
    runtime alone, without a word from any peer and whatever it schedules
    first, gets to a state where [close] has returned, every task has ended and
    the broker is gone; and no schedule of it runs for longer than [work]
    steps. *)
Theorem async_close_completes s :
  reachable s -> closing s -> Forall (fun p => ~ handshaking p) (s_tasks s) ->
  (forall n s', nsteps quiet_step n s s' -> n <= work s) /\
  forall s', rtc quiet_step s s' ->
    exists s'', rtc quiet_step s' s'' /\ s_closer s'' = Returned /\ s_broker s'' = false /\
      Forall (eq Ended) (s_tasks s'').
Proof.
  intros HI%reachable_close_inv Hc Hh. split.
  - intros n s'. apply quiet_terminates. by apply closing_signal.
  - intros s' Hr. induction Hr as [s|s s1 s' Hst Hr IH].
    + by eapply quiet_completes.
    + apply IH; [by eapply step_close_inv|by eapply quiet_closing|by eapply quiet_handshaking].
Qed.

(** [close] has yet to see the end of task [i]. *)
Definition to_join (i : nat) (s : system) : Prop :=
  match s_closer s with
  | Joining l => i ∈ l
  | JoinBroker | Returned => False
  | _ => i < length (s_tasks s)
  end.

Definition without_peer s s' := step Runtime s s' \/ step Program s s'.

Lemma closes_to_join s s' i p :
  closes s s' -> p <> Ended -> s_tasks s !! i = Some p -> to_join i s ->
  s_tasks s' !! i = Some p /\ to_join i s'.
Proof.
  unfold to_join. intros Hc Hp Hi Hin.
  destruct Hc as [| | | |? ? ? ? ? k l Hk| |]; cbn in *; split; try done.
  - apply elem_of_seq. lia.
  - apply elem_of_cons in Hin as [->|]; [|done]. rewrite Hi in Hk. by simplify_eq.
  - by apply elem_of_nil in Hin.
Qed.

Lemma handshake_stays s s' i p :
  p = TlsHandshake \/ p = AwaitHello -> without_peer s s' ->
  s_tasks s !! i = Some p -> to_join i s -> s_tasks s' !! i = Some p /\ to_join i s'.
Proof.
  intros Hp Hst. assert (exists lb, lb <> Peer /\ step lb s s') as (lb & Hlb & Hs)
    by (destruct Hst; [by exists Runtime|by exists Program]). clear Hst.
  assert (Hne : p <> Ended) by naive_solver.
  destruct Hs as [lb c sg st b ts cl j q q' Hj Hw|c sg ts cl|s s' Hc _|s s' Hc _|
    c sg st b ts cl|sg st b ts cl]; [|..|by apply closes_to_join|by apply closes_to_join| |];
    unfold to_join; cbn.
  - intros Hi Hin. destruct (decide (i = j)) as [<-|Hij].
    + rewrite Hi in Hj. simplify_eq. exfalso. destruct Hp as [-> | ->]; inversion Hw; congruence.
    + by rewrite list_lookup_insert_ne, length_insert by done.
  - done.
  - intros Hi Hin. rewrite lookup_app_l by by eapply lookup_lt_Some. rewrite length_app.
    split; [done|]. destruct cl; try done; lia.
  - intros Hi Hin. rewrite lookup_app_l by by eapply lookup_lt_Some. rewrite length_app.
    split; [done|]. destruct cl; try done; lia.
Qed.

(** C24: [close] waits for a peer that does not answer. A task that has
    connected and waits for the TLS handshake or for the HELLO is woken by
    nothing but its peer: the wait has neither a timeout nor a branch for the
    shutdown signal. While the peer says nothing, no schedule of the runtime and
    no call of the program brings [close], which awaits the task, to its end. *)
Theorem async_close_waits_for_handshake s i p :
  p = TlsHandshake \/ p = AwaitHello -> s_tasks s !! i = Some p -> to_join i s ->
  forall s', rtc without_peer s s' -> s_tasks s' !! i = Some p /\ s_closer s' <> Returned.
Proof.
  intros Hp Hi Hj s' Hr. induction Hr as [s|s s1 s' Hst Hr IH].
  - split; [done|]. intros E. unfold to_join in Hj. by rewrite E in Hj.
  - destruct (handshake_stays s s1 i p Hp Hst Hi Hj). by apply IH.
Qed.

(** ** Concrete states *)

(** One step of a concrete run: of task [i], or of [close] or the program. *)
Ltac run_task i lb rule :=
  eapply rtc_l; [exists lb; eapply (s_task lb _ _ _ _ _ _ i); [reflexivity|by apply rule]|cbn].
Ltac run_step rule := eapply rtc_l; [eexists; rule|cbn].

(** Connected, and waiting for the peer's HELLO. *)
Lemma reach_await_hello : reachable (mkSystem false false false true [AwaitHello] NotCalled).
Proof.
  unfold reachable, fresh. run_step ltac:(apply s_connect).
  run_task 0 Runtime w_head. run_task 0 Peer w_dialled. run_task 0 Runtime w_hello. apply rtc_refl.
Qed.

Lemma reach_closing : reachable (mkSystem true true false true [Serving; Accepting] Signalled).
Proof.
  eapply transitivity; [exact reach_await_hello|].
  run_task 0 Peer w_greeted. run_task 0 Runtime w_accepted. run_step ltac:(apply s_bind).
  run_step ltac:(by apply s_call_close; [apply c_swap|]).
  run_step ltac:(by apply s_close; [apply c_signal|]). apply rtc_refl.
Qed.

Lemma async_close_completes_witness :
  let s := mkSystem true true false true [Serving; Accepting] Signalled in
  (forall n s', nsteps quiet_step n s s' -> n <= work s) /\
  forall s', rtc quiet_step s s' ->
    exists s'', rtc quiet_step s' s'' /\ s_closer s'' = Returned /\ s_broker s'' = false /\
      Forall (eq Ended) (s_tasks s'').
Proof.
  apply (async_close_completes (mkSystem true true false true [Serving; Accepting] Signalled)).
  - exact reach_closing.
  - exact I.
  - apply (bool_decide_unpack _). vm_compute. exact I.
Defined.

Lemma async_close_waits_for_handshake_witness :
  let s := mkSystem true true true true [AwaitHello] (Joining [0]) in
  reachable s /\
  forall s', rtc without_peer s s' -> s_tasks s' !! 0 = Some AwaitHello /\ s_closer s' <> Returned.
Proof.
  split.
  - eapply transitivity; [exact reach_await_hello|].
    run_step ltac:(by apply s_call_close; [apply c_swap|]).
    run_step ltac:(by apply s_close; [apply c_signal|]).
    run_step ltac:(by apply s_close; [apply c_tell|]).
    run_step ltac:(by apply s_close; [apply c_take|]). apply rtc_refl.
  - apply (async_close_waits_for_handshake (mkSystem true true true true [AwaitHello] (Joining [0])) 0
      AwaitHello).
    + right. reflexivity.
    + reflexivity.
    + cbn. left.
Defined.
