(* ===== verification/CrossCrate.v ===== *)
(** * CrossCrate: the two crates talking to each other

    [EndToEnd] puts two synchronous sockets on one connection.  Here either end
    may be of the asynchronous crate: its broker ([BrokerAsync]), which runs
    like the synchronous one ([async_like]), and its session ([ConnAsync]).
    Whatever the pairing, what one program sends the other receives, and the
    acknowledgements settle everything. *)

From S2P Require Import Prelude Io Protocol ProtocolAsync Timers Broker BrokerProps BrokerAsync.
From S2P Require Import Conn ConnProps Tls TlsProps TlsWhole ConnAsync Loops Socket SocketAsync EndToEnd.
From Stdlib Require Import Strings.Byte.

Abbreviation async_run := BrokerAsync.run.
Abbreviation async_broker := BrokerAsync.new_broker.

(** ** The asynchronous broker on the commands of a synchronous one *)

(** A [Command] of the asynchronous crate; there is no [ResendTimeout]. *)
Definition async_of (c : Broker.Command) : option BrokerAsync.Command :=
  match c with
  | Broker.Send identity data => Some (BrokerAsync.Send identity data)
  | Broker.ConnectionUp identity writer accept => Some (BrokerAsync.ConnectionUp identity writer accept)
  | Broker.ConnectionDown identity => Some (BrokerAsync.ConnectionDown identity)
  | Broker.Received identity envelope => Some (BrokerAsync.Received identity envelope)
  | Broker.ResendTimeout _ => None
  | Broker.Close => Some BrokerAsync.Close
  end.

Definition events (cs : list Broker.Command) : list Event := Cmd <$> omap async_of cs.

(** What sessions and the application send while the socket is open. *)
Definition lively (c : Broker.Command) : Prop :=
  match c with Broker.ResendTimeout _ | Broker.Close => False | _ => True end.

#[export] Instance lively_dec c : Decision (lively c).
Proof. destruct c; apply _. Defined.

Lemma events_commands clock cs : forall b,
  monotone clock -> queue_inv clock b -> Forall lively cs ->
  run_commands clock b (events cs) = cs.
Proof.
  induction cs as [|c cs IH]; intros b Hm HI Hl; [done|]. apply Forall_cons in Hl as [Hc Hl].
  assert (exists d, events (c :: cs) = Cmd d :: events cs /\ sync_of d = c /\ d <> BrokerAsync.Close)
    as (d & -> & Hd & Hn) by (destruct c; try done; by eexists).
  cbn [run_commands sync_commands app]. rewrite Hd. cbn [app]. f_equal.
  destruct (step_sim clock b (Cmd d) Hm HI) as (o & es & es' & E & _ & _ & HI').
  rewrite E. destruct o as [b'|]; [apply IH; auto|].
  destruct d; try done; cbn in E; repeat case_match; simplify_eq.
Qed.

(** On such commands the asynchronous broker runs like the synchronous one. *)
Lemma async_like clock b cs b' es' :
  monotone clock -> queue_inv clock b -> Forall lively cs -> Broker.run (abs b) cs = (Some b', es') ->
  exists b1, async_run clock b (events cs) = Some (Some b1, visible es') /\ abs b1 = b' /\
    queue_inv clock b1.
Proof.
  intros Hm HI Hl E. destruct (run_sim clock b (events cs) Hm HI) as (o & es & es1 & E1 & E2 & E3 & H).
  rewrite (events_commands clock cs b Hm HI Hl), E in E2. destruct o as [b1|]; simplify_eq/=.
  exists b1. split_and!; [done|done|by apply H].
Qed.

Lemma omap_visible {A} (f : Effect -> option A) es :
  (forall m, f (TimerSend m) = None) -> omap f (visible es) = omap f es.
Proof.
  intros Hf. unfold visible. induction es as [|e es IH]; [done|].
  destruct e; rewrite ?filter_cons_True, ?filter_cons_False by (cbn; tauto); csimpl;
    by rewrite ?Hf, IH.
Qed.

Lemma frames_visible w es : omap (frame_to w) (visible es) = omap (frame_to w) es.
Proof. by apply omap_visible. Qed.

Lemma delivered_visible es : omap delivered (visible es) = omap delivered es.
Proof. by apply omap_visible. Qed.

(** ** What a session of either crate reports *)

(** The writer's turns as the mailbox they take from: the frames of the broker,
    and the ticks. *)
Definition post_of (u : turn) : option mail :=
  match u with WriteMail f => Some (Mail f) | WriteTick => Some NoMail | _ => None end.

Definition posts (us : list turn) : Mailbox := omap post_of us.

Lemma outgoing_posts us : mjoin (outgoing <$> us) = EndToEnd.written (posts us).
Proof.
  unfold posts, EndToEnd.written. induction us as [|u us IH]; [done|].
  destruct u; csimpl; by rewrite ?IH.
Qed.

Section Session.
Context {T : Type} `{!AsyncRead T, !AsyncWrite T, !AsyncReadLaws T, !AsyncDuplexLaws T}.
Context (capacity : nat -> nat) (enough : forall n, n <= capacity n).

(** With a turn for each frame of the peer, the writer's frames all go out
    before the end of the peer's stream ends the session. *)
Lemma session_turns_whole turns (t : T) tx peer bodies :
  Forall undisturbed turns -> sum_list (ConnAsync.reads <$> turns) = length bodies ->
  unspilled capacity (turns ++ [ReadFrame]) t ->
  gone_after tx = None -> Forall small bodies -> incoming t = wire bodies ->
  exists t', session_turns capacity (turns ++ [ReadFrame]) t tx peer true =
      Some (t', mkCmdTx (queued tx ++ (Broker.Received peer <$> Conn.messages bodies)) None) /\
    ProtocolAsync.written t' = ProtocolAsync.written t ++ EndToEnd.written (posts turns).
Proof using All.
  intros Hu. revert t tx bodies. induction Hu as [|u turns Hu Hus IH];
    intros t tx bodies Hlen Hr Hg Hb E; rewrite <- (app_nil_r (wire bodies)) in E.
  { destruct bodies; [|done].
    destruct (read_frame_turn capacity enough t [] [] (proj1 Hr) Hb partial_nil E) as (t1 & Hw & Er & _).
    exists t1. cbn [app session_turns]. rewrite Er, Hw. cbn [mbind option_bind hd_error].
    cbn. rewrite !app_nil_r. by rewrite <- cmd_tx_alive. }
  assert (Hwrite : forall f, outgoing u = f -> sum_list (ConnAsync.reads <$> turns) = length bodies ->
    unspilled capacity (turns ++ [ReadFrame]) (write_turn t true f).1 ->
    (let '(t, alive) := write_turn t true f in
       session_turns capacity (turns ++ [ReadFrame]) t tx peer alive) =
      session_turns capacity ((u :: turns) ++ [ReadFrame]) t tx peer true ->
    exists t', session_turns capacity ((u :: turns) ++ [ReadFrame]) t tx peer true =
        Some (t', mkCmdTx (queued tx ++ (Broker.Received peer <$> Conn.messages bodies)) None) /\
      ProtocolAsync.written t' = ProtocolAsync.written t ++ EndToEnd.written (posts (u :: turns))).
  { intros f Hf Hl Hu1 <-. destruct (write_turn_ok t f) as (t1 & E1 & Hw & Hi). rewrite E1 in *.
    destruct (IH t1 tx bodies) as (t2 & -> & Hw2); [done..|by rewrite Hi, E, app_nil_r|].
    exists t2. split; [done|]. by rewrite <- !outgoing_posts in *; csimpl; rewrite Hw2, Hw, Hf, app_assoc. }
  csimpl in Hlen. destruct u as [| | |f| |]; try done; cbn [ConnAsync.reads] in Hlen;
    cbn [app unspilled] in Hr.
  2: by apply (Hwrite f). 2: by apply (Hwrite heartbeat).
  destruct bodies as [|b rest]; [done|]. destruct Hr as [Hr0 Hr].
  destruct (read_frame_turn capacity enough t (b :: rest) [] Hr0 Hb partial_nil E) as (t1 & Hw & Er & Hrest).
  cbn [app]. rewrite (session_read_turn capacity (turns ++ [ReadFrame]) t t1 tx peer true b Er).
  apply Forall_cons in Hb as [_ Hb]. injection Hlen as Hlen.
  pose proof (forward_all_alive tx peer [b] Hg) as Hfw. cbn [forward_all] in Hfw.
  destruct (forward tx peer b) as [tx1 []]; [|done]. simplify_eq.
  destruct (IH t1 (mkCmdTx (queued tx ++ (Broker.Received peer <$> Conn.messages [b])) None) rest)
    as (t2 & -> & Hw2); [done|by rewrite Er in Hr|done..|by rewrite Hrest, app_nil_r|].
  exists t2. split; [|by rewrite Hw2, Hw].
  cbn [queued]. rewrite <- app_assoc, <- fmap_app. unfold Conn.messages. by rewrite <- omap_app.
Qed.

(** The session, with what its writer is given in [posts turns]. *)
Lemma async_session_whole (t : T) peer me writer accept turns bodies :
  length peer = IDENTITY_SIZE -> incoming t = hello peer ++ wire bodies -> Forall small bodies ->
  Forall undisturbed turns -> sum_list (ConnAsync.reads <$> turns) = length bodies ->
  unspilled_session capacity me (turns ++ [ReadFrame]) t ->
  exists t',
    ConnAsync.handle_connection capacity t (mkCmdTx [] None) me writer accept (Some true) (turns ++ [ReadFrame]) =
      Some (t', mkCmdTx (Broker.ConnectionUp peer writer accept ::
                  (Broker.Received peer <$> Conn.messages bodies) ++ [Broker.ConnectionDown peer]) None, Ok tt) /\
    ProtocolAsync.written t' = ProtocolAsync.written t ++ hello me ++ EndToEnd.written (posts turns).
Proof using All.
  intros Hpeer Hin Hb Hu Hlen Hr. unfold ConnAsync.handle_connection.
  destruct (write_frame_async_ok t (ProtocolAsync.Async.hello me)) as (t1 & E1 & Hw1 & Hi1).
  unfold unspilled_session in Hr. rewrite E1 in *. cbn [fst unspilled] in Hr. destruct Hr as [Hr0 Hr].
  rewrite hello_framed in Hin by done.
  destruct (read_frame_turn capacity enough t1 ((T_HELLO :: PROTOCOL_VERSION :: peer) :: bodies) [])
    as (t2 & Hw2 & E2 & Hi2).
  { done. }
  { constructor; [by apply small_hello|done]. }
  { apply partial_nil. }
  { by rewrite Hi1, Hin, app_nil_r, wire_cons. }
  rewrite E2 in *. rewrite app_nil_r in Hi2. cbn [mbind option_bind hd_error].
  change (ProtocolAsync.Async.decode ?f) with (decode f).
  change (T_HELLO :: PROTOCOL_VERSION :: peer) with (body_of (Hello PROTOCOL_VERSION peer)).
  rewrite decode_body_of by (split; [done|by apply small_hello]).
  rewrite decide_False by (by intros []). unfold cmd_send at 1. cbn [gone_after].
  rewrite decide_False by (by intros []).
  destruct (session_turns_whole turns t2
    (mkCmdTx (queued (mkCmdTx [] None) ++ [Broker.ConnectionUp peer writer accept]) None) peer
    bodies) as (t3 & -> & Hw3); [done..|].
  cbn [mbind option_bind]. exists t3. split; [done|].
  by rewrite Hw3, Hw2, Hw1, <- app_assoc.
Qed.
End Session.

Inductive crate := SyncCrate | AsyncCrate.

(** A session of the crate at [me], on a connection over which [peer] sends
    its HELLO and then [rest] and closes, and no I/O error occurs, reports [cs]
    to its broker and writes its HELLO and then [mb], the heartbeats included.
    In the synchronous crate the HELLO comes within the 15 seconds it has, and
    in the clear the read that completes it ends at a frame boundary
    ([clean_cut]; [split_frame_misread] is what happens otherwise); the reads
    are cut in any other way, and over [tls] in any way at all, for every
    connection that keeps rustls's laws and every schedule of the two threads
    that gives each its turns.
    In the asynchronous crate this is so over any stream that keeps tokio's
    promises, with buffers of at least the size asked for and every order of
    the turns of the two tasks, when no read of a frame takes the start of the
    next one along ([unspilled_session]: always so with buffers of exactly that size,
    [exact_unspilled_session]; [spare_capacity_swallows] is what happens
    otherwise). *)
Definition reports (tls : bool) (c : crate) (peer me : Identity) (w acc : Sender) (mb : Mailbox)
    (rest : bytes) (cs : list Broker.Command) : Prop :=
  match c with
  | SyncCrate =>
    if tls then
      forall (T C : Type) (Cn : Connection C) (_ : ConnectionLaws C) (Rd : Read T)
        (_ : ReadLaws T) (Wr : Write T) (_ : DuplexLaws T) (By : ByteStream T)
        (So : StreamOwned T C (list read_event) Tcp) (_ : StreamOwnedLaws T C (list read_event) Tcp)
        (_ : TlsStream T C Tcp) (Dx : TlsDuplex T C)
        clock_sniff clock clock_ws clock_up clock_hello sniff (t : T) ts,
      (forall i, (clock i < clock 0%nat + HEARTBEAT_TIMEOUT)%Z) ->
      (forall i, (clock_sniff i < clock_sniff 0%nat + HEARTBEAT_TIMEOUT)%Z) ->
      gives t (hello peer ++ rest) -> intact t ->
      2 * read_fuel t + 2 < TlsProps.reads ts -> length mb <= writers ts ->
      exists s,
        tls_session (C := C) (R := list read_event) (W := Tcp) clock_sniff clock clock_ws clock_up
          clock_hello t (mkCmdTx [] None) me sniff true w acc (Some true) mb ts =
          Some (Ran s, mkCmdTx cs None) /\
        sealed (conn s) = sealed_before (C := C) t ++ hello me ++ EndToEnd.written mb
    else
      forall clock r,
      (forall i, (clock i < clock 0%nat + HEARTBEAT_TIMEOUT)%Z) -> clean_cut r peer rest ->
      exists r' w',
        plain_session clock r (Some (mkTcp [] [] [])) (mkCmdTx [] None) me w acc (Some true) mb =
          Some (r', Some w', mkCmdTx cs None) /\
        Io.sent w' = hello me ++ EndToEnd.written mb
  | AsyncCrate => forall (T : Type) (R : AsyncRead T) (W : AsyncWrite T) (_ : AsyncReadLaws T)
      (_ : AsyncDuplexLaws T) capacity (t : T) turns bodies,
      (forall n, n <= capacity n) -> unspilled_session capacity me (turns ++ [ReadFrame]) t ->
      incoming t = hello peer ++ rest -> Forall small bodies ->
      rest = wire bodies -> Forall undisturbed turns -> posts turns = mb ->
      sum_list (ConnAsync.reads <$> turns) = length bodies ->
      exists t',
        ConnAsync.handle_connection capacity t (mkCmdTx [] None) me w acc (Some true) (turns ++ [ReadFrame]) =
          Some (t', mkCmdTx cs None, Ok tt) /\
        ProtocolAsync.written t' = ProtocolAsync.written t ++ hello me ++ EndToEnd.written mb
  end.

(** Either crate's session reads what either crate's writer was given. *)
Lemma session_reports tls c peer me w acc mb mbP envs :
  length peer = IDENTITY_SIZE -> omap mail_frame mbP = encode <$> envs -> Forall is_message envs ->
  reports tls c peer me w acc mb (EndToEnd.written mbP)
    (Broker.ConnectionUp peer w acc :: (Broker.Received peer <$> envs) ++ [Broker.ConnectionDown peer]).
Proof.
  intros Hp Hmb He. destruct (mailbox_posts mbP envs Hmb) as (os & -> & <-).
  pose proof (posted_are os He) as Hos. destruct (posted_messages os Hos) as [Hmsgs Hsmall].
  assert (Hw : EndToEnd.written (post <$> os) = wire (posted <$> os)).
  { apply wire_posted. eapply Forall_impl; [exact Hos|]. intros o Ho e Ee. by apply Ho. }
  destruct c; [destruct tls|]; cbn [reports].
  - intros T C ? ? ? ? ? ? ? ? ? ? ? cs c cw cu ch sniff t ts Hc Hcs Hg Hi Hr Hwr.
    rewrite Hw, <- (app_nil_r (wire _)) in Hg.
    destruct (tls_session_runs_whole cs c cw cu ch t (mkCmdTx [] None) me peer sniff w acc mb ts
      (posted <$> os) [] Hc Hcs eq_refl Hp Hsmall partial_nil Hg Hr Hi Hwr) as (s & E & Hs & _).
    exists s. rewrite Hmsgs in E. by split.
  - intros clock r Hcl Hcut. by eapply session_carries.
  - intros T ? ? ? ? capacity t turns bodies Hcap Hr Hin Hb Hw' Hu <- Hlen. rewrite Hw in Hin, Hw'.
    rewrite <- (app_nil_r (wire (_ <$> _))), <- (app_nil_r (wire bodies)) in Hw'.
    destruct (wire_split_unique _ [] _ [] Hsmall Hb partial_nil partial_nil Hw') as [<- _].
    rewrite <- Hmsgs. by eapply async_session_whole.
Qed.

(** ** The brokers of the two crates *)

(** A new socket's broker of either crate on the commands its sessions and its
    application send. *)
Definition broker_run (c : crate) (clock : nat -> Instant) mode del uuid (cs : list Broker.Command)
  : option (option Broker.Broker * list Effect) :=
  match c with
  | SyncCrate => Some (Broker.run (Broker.new_broker mode del uuid) cs)
  | AsyncCrate =>
    match async_run clock (async_broker mode del uuid) (events cs) with
    | Some (Some b, es) => Some (Some (abs b), es)
    | Some (None, es) => Some (None, es)
    | None => None
    end
  end.

Lemma broker_runs_alike c clock mode del uuid cs b' es' :
  BrokerAsync.monotone clock -> Forall lively cs ->
  Broker.run (Broker.new_broker mode del uuid) cs = (Some b', es') ->
  exists es, broker_run c clock mode del uuid cs = Some (Some b', es) /\
    omap delivered es = omap delivered es' /\
    forall w, omap (frame_to w) es = omap (frame_to w) es'.
Proof.
  intros Hm Hl E. destruct c; cbn [broker_run].
  - exists es'. by rewrite E.
  - destruct (async_like clock (async_broker mode del uuid) cs b' es' Hm
      (new_queue_inv clock mode del uuid) Hl E) as (b1 & -> & <- & _).
    eexists. split_and!; [done|apply delivered_visible|]. intros w. apply frames_visible.
Qed.

Lemma lively_sends ms : Forall lively (sends ms).
Proof. apply Forall_fmap, Forall_true. done. Qed.

Lemma lively_received peer es : Forall lively (Broker.Received peer <$> es).
Proof. apply Forall_fmap, Forall_true. done. Qed.

Lemma lively_session peer w acc es :
  Forall lively (Broker.ConnectionUp peer w acc :: (Broker.Received peer <$> es) ++
    [Broker.ConnectionDown peer]).
Proof.
  constructor; [done|]. apply Forall_app. split; [apply lively_received|]. by apply Forall_singleton.
Qed.

Section Pair.
Context (cA cB : crate) (clockA clockB : nat -> Instant).
Context (modeA modeB : SendMode) (delA delB : DeliveryGuarantee) (uuidA uuidB : bytes) (a b : Identity).
Context (wA accA wB accB : Sender) (ms1 ms2 : list (option Identity * bytes)).

Hypothesis clockA_ok : BrokerAsync.monotone clockA.
Hypothesis clockB_ok : BrokerAsync.monotone clockB.
Hypothesis a_length : length a = IDENTITY_SIZE.
Hypothesis b_length : length b = IDENTITY_SIZE.
Hypothesis uuid_length : length uuidA = 16.
Hypothesis for_b : Forall (for_peer b) (ms1 ++ ms2).
Hypothesis fit : Forall fits_frame (ms1 ++ ms2).

(** What the sending broker is told: messages sent before and after the peer is
    there. *)
Definition pair_commands : list Broker.Command :=
  sends ms1 ++ Broker.ConnectionUp b wA accA :: sends ms2.

(** What a session with [peer] reports. *)
Definition session_commands (peer : Identity) (w acc : Sender) (envs : list Envelope) : list Broker.Command :=
  Broker.ConnectionUp peer w acc :: (Broker.Received peer <$> envs) ++ [Broker.ConnectionDown peer].

(** The two brokers: what the sender's puts on the connection, the receiver's
    delivers, and its answers settle what is pending. *)
Lemma pair_runs :
  exists envs bA fxA bB fxB bA' fxA',
    let ids := Ack <$> omap envelope_id envs in
    (broker_run cA clockA modeA delA uuidA pair_commands = Some (Some bA, fxA) /\
     omap (frame_to wA) fxA = encode <$> envs /\ Forall is_message envs) /\
    (broker_run cB clockB modeB delB uuidB (session_commands a wB accB envs) = Some (Some bB, fxB) /\
     omap delivered fxB = (fun m => Incoming a m.2) <$> ms1 ++ ms2 /\
     omap (frame_to wB) fxB = encode <$> ids /\ Forall is_message ids) /\
    broker_run cA clockA modeA delA uuidA (pair_commands ++ (Broker.Received b <$> ids)) =
      Some (Some bA', fxA') /\ Broker.pending bA' = ∅.
Proof using All.
  destruct (sender_run modeA delA uuidA b wA accA ms1 ms2) as (bA & fx & envs & Er & _ & Hf & He & Hp);
    [lia|done|].
  destruct (carries_messages _ _ fit He) as [Hmsg Hack].
  destruct (receiver_run (Broker.new_broker modeB delB uuidB) a wB accB _ envs eq_refl eq_refl He)
    as (bB & fx' & Eb & Hd & Hfb).
  destruct (run_acks b (omap envelope_id envs) bA) as (bA' & fx2 & Ea & _ & Hpend).
  set (acks := Broker.Received b <$> _) in *.
  assert (Eall : Broker.run (Broker.new_broker modeA delA uuidA) (pair_commands ++ acks) =
    (Some bA', fx ++ fx2)) by (unfold pair_commands; by rewrite ConnProps.run_app, Er, Ea).
  assert (HlA : Forall lively pair_commands).
  { apply Forall_app. split; [apply lively_sends|]. constructor; [done|apply lively_sends]. }
  destruct (broker_runs_alike cA clockA _ _ _ _ _ _ clockA_ok HlA Er) as (fxA & EA & _ & HfA).
  destruct (broker_runs_alike cB clockB _ _ _ _ _ _ clockB_ok (lively_session a wB accB envs) Eb)
    as (fxB & EB & HdB & HfB).
  destruct (broker_runs_alike cA clockA _ _ _ _ _ _ clockA_ok
    (Forall_app_2 _ _ _ HlA (lively_received _ _)) Eall) as (fxA' & EA' & _).
  exists envs, bA, fxA, bB, fxB, bA', fxA'. cbv zeta. rewrite HfA, HfB, HdB.
  split_and!; try done.
  apply map_empty. intros k. apply eq_None_not_Some. intros [Hk Hn]%Hpend. by apply Hn, Hp.
Qed.

Context (tls : bool).

(** C2: Two sockets, of either crate each, on one connection.  What one program
    sends to the other, before the connection is there or after, its broker
    delivers, once each and in order, under the sender's identity, when the
    receiving session has reported what it read; and when the receiving
    broker's answers have travelled back, the sending broker has nothing
    pending.  So for each of the four pairings of the crates, in the clear or
    over TLS, in either send mode and with either guarantee, for whatever
    heartbeats the two brokers' frames are mixed with and for every schedule of
    a session's loops, as long as no resend falls due meanwhile.  The sessions are those of [reports]: the
    connection meets no I/O error, the HELLO comes in time, and the reads may
    be cut in any way, except that in
    the clear the read that completes the HELLO of a synchronous session ends
    at a frame boundary, and that no read of an asynchronous session takes the
    start of the next frame along with the end of one (none does when its
    buffer has exactly the size asked for). *)
Theorem crates_interwork :
  exists bA fxA cmdsB bB fxB acks bA' fxA',
    broker_run cA clockA modeA delA uuidA pair_commands = Some (Some bA, fxA) /\
    broker_run cB clockB modeB delB uuidB cmdsB = Some (Some bB, fxB) /\
    omap delivered fxB = (fun m => Incoming a m.2) <$> ms1 ++ ms2 /\
    broker_run cA clockA modeA delA uuidA (pair_commands ++ acks) = Some (Some bA', fxA') /\
    Broker.pending bA' = ∅ /\
    forall mbA mbB,
      omap mail_frame mbA = omap (frame_to wA) fxA -> omap mail_frame mbB = omap (frame_to wB) fxB ->
      reports tls cB a b wB accB mbB (EndToEnd.written mbA) cmdsB /\
      reports tls cA b a wA accA mbA (EndToEnd.written mbB)
        (Broker.ConnectionUp b wA accA :: acks ++ [Broker.ConnectionDown b]).
Proof.
  destruct pair_runs as (envs & bA & fxA & bB & fxB & bA' & fxA' & (EA & HfA & HmA) &
    (EB & Hd & HfB & HmB) & EA' & Hp).
  exists bA, fxA, (session_commands a wB accB envs), bB, fxB, (Broker.Received b <$> (Ack <$> omap envelope_id envs)), bA', fxA'.
  split_and!; try done. intros mbA mbB HA HB. rewrite HfA in HA. rewrite HfB in HB.
  split; by apply session_reports.
Qed.
End Pair.

(** An asynchronous socket sends to a synchronous one. *)
Lemma crates_interwork_witness :
  let cmdsA := pair_commands peerB 1 2 demo_before demo_after in
  exists bA fxA cmdsB bB fxB acks bA' fxA',
    broker_run AsyncCrate ticking RoundRobin AtLeastOnce demo_uuid cmdsA = Some (Some bA, fxA) /\
    broker_run SyncCrate ticking Publish AtMostOnce demo_uuid cmdsB = Some (Some bB, fxB) /\
    omap delivered fxB = (fun m => Incoming peerA m.2) <$> demo_before ++ demo_after /\
    broker_run AsyncCrate ticking RoundRobin AtLeastOnce demo_uuid (cmdsA ++ acks) = Some (Some bA', fxA') /\
    Broker.pending bA' = ∅ /\
    forall mbA mbB,
      omap mail_frame mbA = omap (frame_to 1) fxA -> omap mail_frame mbB = omap (frame_to 3) fxB ->
      reports false SyncCrate peerA peerB 3 4 mbB (EndToEnd.written mbA) cmdsB /\
      reports false AsyncCrate peerB peerA 1 2 mbA (EndToEnd.written mbB)
        (Broker.ConnectionUp peerB 1 2 :: acks ++ [Broker.ConnectionDown peerB]).
Proof.
  apply (crates_interwork AsyncCrate SyncCrate ticking ticking RoundRobin Publish AtLeastOnce
    AtMostOnce demo_uuid demo_uuid peerA peerB 1 2 3 4 demo_before demo_after
    ticking_monotone ticking_monotone).
  1-3: reflexivity.
  - apply (bool_decide_unpack _). vm_compute. exact I.
  - repeat (constructor; [vm_compute; reflexivity|]). constructor.
Defined.
