(* ===== verification/FanOut.v ===== *)
(** * FanOut: one socket and all its peers

    [CrossCrate] joins two sockets; here one socket sends to any number of
    peers, each of either crate.  What each peer is owed is said by the send
    mode alone ([share]); [every_peer_gets_its_share] shows that this is what
    the peer's program receives, and that the peers' acknowledgements, in
    whatever order they come back, settle everything. *)

From S2P Require Import Prelude Io Protocol Timers Broker BrokerProps.
From S2P Require Import Conn ConnProps Loops Socket SocketAsync EndToEnd CrossCrate.
From Stdlib Require Import Strings.Byte.

(** ** What each peer is owed *)

Section Share.
Context (mode : SendMode) (ids : list Identity).

(** Is a message with this target for the peer that was the [i]-th to connect,
    when [k] messages have gone round before it? *)
Definition takes (k i : nat) (target : option Identity) : bool :=
  match target with
  | Some id => bool_decide (ids !! i = Some id)
  | None =>
    match mode with
    | Publish => true
    | RoundRobin => bool_decide (k mod length ids = i)
    end
  end.

(** A message to nobody in particular moves the turn on. *)
Definition advance (k : nat) (target : option Identity) : nat :=
  match target, mode with None, RoundRobin => S k | _, _ => k end.

Fixpoint share {A} (k i : nat) (ms : list (option Identity * A)) : list A :=
  match ms with
  | [] => []
  | (target, x) :: ms =>
    (if takes k i target then [x] else []) ++ share (advance k target) i ms
  end.

Lemma share_Forall2 {A B} (R : A -> B -> Prop) i ms ys : forall k,
  Forall2 (fun m y => R m.2 y) ms ys -> Forall2 R (share k i ms) (share k i (zip ms.*1 ys)).
Proof.
  intros k H. revert k. induction H as [|[t x] y ms ys Hxy H IH]; intros k; [constructor|].
  cbn. apply Forall2_app; [|apply IH]. destruct (takes k i t); by repeat constructor.
Qed.

(** Nothing is lost: every message to nobody in particular or to one of the
    peers is in somebody's share. *)
Lemma share_covers {A} (ms : list (option Identity * A)) : forall k t x,
  ids <> [] -> (t, x) ∈ ms -> (forall id, t = Some id -> id ∈ ids) ->
  exists i, i < length ids /\ x ∈ share k i ms.
Proof.
  induction ms as [|[t' x'] ms IH]; intros k t x Hne Hin Ht; [by apply elem_of_nil in Hin|].
  apply elem_of_cons in Hin as [[= <- <-]|Hin].
  - assert (exists i, i < length ids /\ takes k i t = true) as (i & Hi & Hk).
    { destruct t as [id|]; cbn.
      - destruct (list_elem_of_lookup_1 _ _ (Ht id eq_refl)) as [i Hi].
        exists i. split; [by apply lookup_lt_Some in Hi|by apply bool_decide_eq_true].
      - assert (0 < length ids) by (destruct ids; [done|cbn; lia]).
        exists (k mod length ids). split; [apply Nat.mod_upper_bound; lia|].
        destruct mode; [by apply bool_decide_eq_true|done]. }
    exists i. split; [done|]. cbn. rewrite Hk. set_solver.
  - destruct (IH (advance k t') t x Hne Hin Ht) as (i & Hi & Hx). exists i. split; [done|]. set_solver.
Qed.
End Share.

(** Under PUBLISH everybody is owed everything; under ROUND_ROBIN the [i]-th
    of [n] peers every [n]-th message from the [i]-th on. *)
Lemma publish_share {A} ids i (xs : list A) k :
  share Publish ids k i ((fun x => (None, x)) <$> xs) = xs.
Proof. revert k. induction xs as [|x xs IH]; intros k; [done|]. csimpl. by rewrite IH. Qed.

Lemma round_robin_turn {A} ids i (xs : list A) : forall k d j,
  d < length ids -> (k + d) mod length ids = i ->
  share RoundRobin ids k i ((fun x => (None, x)) <$> xs) !! j = xs !! (d + j * length ids).
Proof.
  induction xs as [|x xs IH]; intros k d j Hd Hi; [done|]. cbn [fmap list_fmap share takes advance].
  pose proof (Nat.mod_upper_bound k (length ids) ltac:(lia)) as Hlt.
  assert (Hmod : (k + d) mod length ids = (k mod length ids + d) mod length ids)
    by (by rewrite Nat.Div0.add_mod_idemp_l).
  rewrite Hi in Hmod. destruct d as [|d].
  - rewrite Nat.add_0_r, Nat.mod_small in Hmod by done. rewrite bool_decide_true by done.
    destruct j as [|j]; [done|]. cbn [app]. rewrite lookup_cons.
    rewrite (IH (S k) (length ids - 1) j) by
      (try lia; rewrite <- Hi; replace (S k + (length ids - 1)) with (k + 1 * length ids) by lia;
       rewrite Nat.Div0.mod_add, Nat.add_0_r; done).
    replace (0 + S j * length ids) with (S (length ids - 1 + j * length ids)) by lia. done.
  - rewrite bool_decide_false.
    + cbn [app]. rewrite (IH (S k) d j) by (try lia; rewrite <- Hi; f_equal; lia). done.
    + intros Hk. rewrite Hk in Hmod. destruct (decide (i + S d < length ids)) as [Hs|Hs].
      * rewrite Nat.mod_small in Hmod by done. lia.
      * replace (i + S d) with (i + S d - length ids + 1 * length ids) in Hmod by lia.
        rewrite Nat.Div0.mod_add, Nat.mod_small in Hmod by lia. lia.
Qed.

Lemma round_robin_share {A} ids i (xs : list A) j :
  i < length ids ->
  share RoundRobin ids 0 i ((fun x => (None, x)) <$> xs) !! j = xs !! (i + j * length ids).
Proof. intros Hi. apply round_robin_turn; [done|]. by apply Nat.mod_small. Qed.

(** ** The broker with its peers *)

(** The broker serves exactly the connections [ls], in the order they came up,
    [k] messages into its rounds. *)
Record linked (mode : SendMode) (ls : list (Identity * Sender)) (k : nat) (b : Broker) : Prop := {
  lk_mode : send_mode b = mode;
  lk_conns : conns b = list_to_map ls;
  lk_order : order b = ls.*1;
  lk_cursor : rr_cursor b = Z.of_nat k;
  lk_buffer : buffer b = [];
  lk_salt : length (salt b) = 8;
}.

Section Linked.
Context (ls : list (Identity * Sender)).
Hypothesis ids_nodup : NoDup ls.*1.
Hypothesis writers_nodup : NoDup ls.*2.

Lemma writer_of i id w id' w' :
  ls !! i = Some (id, w) -> (list_to_map ls : gmap Identity Sender) !! id' = Some w' ->
  w' = w <-> id' = id.
Proof using All.
  intros Hi H. apply elem_of_list_to_map_2 in H. apply list_elem_of_lookup in H as [j Hj]. split.
  - intros ->. assert (i = j) as ->.
    { eapply (NoDup_lookup ls.*2); [done|by rewrite list_lookup_fmap, Hi|by rewrite list_lookup_fmap, Hj]. }
    congruence.
  - intros ->. assert (i = j) as ->.
    { eapply (NoDup_lookup ls.*1); [done|by rewrite list_lookup_fmap, Hi|by rewrite list_lookup_fmap, Hj]. }
    congruence.
Qed.

Lemma sent_to_conn mode k b i id w id' f :
  linked mode ls k b -> ls !! i = Some (id, w) ->
  omap (frame_to w) (send_to_conn b id' f) = if decide (ls.*1 !! i = Some id') then [f] else [].
Proof using All.
  intros [_ Hc _ _ _ _] Hi. unfold send_to_conn. rewrite Hc.
  rewrite list_lookup_fmap, Hi. cbn [fmap option_fmap option_map fst].
  destruct (list_to_map ls !! id') as [w'|] eqn:E.
  - cbn. destruct (writer_of i id w id' w' Hi E) as [H1 H2].
    destruct (decide (w' = w)) as [Hw|Hw]; [rewrite (H1 Hw); by rewrite decide_True|].
    rewrite decide_False; [done|]. intros [= <-]. by apply Hw, H2.
  - rewrite decide_False; [done|]. intros [= <-]. apply not_elem_of_list_to_map_2 in E. apply E.
    apply list_elem_of_fmap. exists (id, w). split; [done|]. by eapply list_elem_of_lookup_2.
Qed.

Lemma transmits_to w f (l : list (Identity * Sender)) :
  omap (frame_to w) ((fun '(_, tx) => Transmit tx f) <$> l) = (fun _ => f) <$> filter (fun x => x.2 = w) l.
Proof.
  induction l as [|[id tx] l IH]; [done|]. csimpl. rewrite filter_cons. cbn.
  destruct (decide (tx = w)); csimpl; by rewrite IH.
Qed.

Lemma sole_writer i id w :
  ls !! i = Some (id, w) -> filter (fun x => x.2 = w) ls = [(id, w)].
Proof using writers_nodup.
  clear ids_nodup. revert i. induction ls as [|[id' w'] l IH]; intros i Hi; [done|]. rewrite filter_cons.
  apply NoDup_cons in writers_nodup as [Hn Hd]. destruct i as [|i]; simplify_eq/=.
  - rewrite decide_True by done. f_equal. apply elem_of_nil_inv. intros [id2 w2].
    rewrite list_elem_of_filter. cbn. intros [-> Hin]. apply Hn. apply list_elem_of_fmap. by exists (id2, w).
  - rewrite decide_False; [by eapply IH|]. intros ->. apply Hn. apply list_elem_of_fmap.
    exists (id, w). split; [done|]. by eapply list_elem_of_lookup_2.
Qed.

Lemma published_to i id w f :
  ls !! i = Some (id, w) ->
  omap (frame_to w) ((fun '(_, tx) => Transmit tx f) <$>
    map_to_list (list_to_map ls : gmap Identity Sender)) = [f].
Proof using All.
  intros Hi. rewrite transmits_to. apply Permutation_singleton_r.
  rewrite (map_to_list_to_map ls) by done. by rewrite (sole_writer i id w).
Qed.

Lemma route_frames mode k b i id w target f b' es :
  linked mode ls k b -> ls !! i = Some (id, w) -> (Z.of_nat k + 1 < 2 ^ 64)%Z ->
  route b target f = (b', es) ->
  linked mode ls (advance mode k target) b' /\ pending b' = pending b /\
  omap (frame_to w) es = if takes mode ls.*1 k i target then [f] else [].
Proof using All.
  intros HL Hi Hk E. unfold route in E. pose proof HL as [Hm Hc Ho Hr Hbuf Hsalt].
  destruct target as [id'|]; [|rewrite Hm in E; destruct mode].
  - simplify_eq. split; [done|]. split; [done|]. rewrite (sent_to_conn _ k b' i id w id' f HL Hi).
    cbn. by destruct (decide _); rewrite ?bool_decide_true, ?bool_decide_false by done.
  - unfold next_round_robin in E. rewrite Ho, Hr in E.
    assert (Hne : ls.*1 <> []) by (intros H0; apply fmap_nil_inv in H0; by rewrite H0 in Hi).
    rewrite decide_False in E by done.
    assert (Hlen : 0 < length ls.*1) by (destruct (ls.*1); [done|cbn; lia]).
    unfold zlen in E. rewrite <- Nat2Z.inj_mod, Nat2Z.id in E.
    destruct (lookup_lt_is_Some_2 ls.*1 (k mod length ls.*1)) as [id' Hid'];
      [apply Nat.mod_upper_bound; lia|].
    rewrite Hid' in E. simplify_eq. split; [|split; [done|]].
    + split; cbn; try done. unfold wrapping_add. rewrite wrap_to_small by lia. cbn [advance]. lia.
    + unfold send_to_conn. cbn. rewrite Hc.
      pose proof (sent_to_conn RoundRobin k b i id w id' f HL Hi) as H. unfold send_to_conn in H. rewrite Hc in H.
      rewrite H. cbn. destruct (decide _) as [Hq|Hq].
      * rewrite bool_decide_true; [done|]. exact (NoDup_lookup _ _ _ _ ids_nodup Hid' Hq).
      * rewrite bool_decide_false; [done|]. intros <-. by apply Hq.
  - simplify_eq. split; [done|]. split; [done|]. rewrite Hc. by apply (published_to i id).
Qed.

(** A message of the application goes out as one envelope, to those it is
    for. *)
Lemma handle_send_frames mode k b m b' es :
  linked mode ls k b -> ls <> [] -> (Z.of_nat k + 1 < 2 ^ 64)%Z -> handle_send b m.1 m.2 = (b', es) ->
  exists e, linked mode ls (advance mode k m.1) b' /\ carries m e /\
    (forall i id w, ls !! i = Some (id, w) ->
       omap (frame_to w) es = if takes mode ls.*1 k i m.1 then [encode e] else []) /\
    forall x, is_Some (pending b' !! x) -> is_Some (pending b !! x) \/ envelope_id e = Some x.
Proof using All.
  intros HL Hne Hk E. unfold handle_send in E. pose proof HL as [Hm Hc Ho Hr Hbuf Hsalt].
  destruct (lookup_lt_is_Some_2 ls 0) as [[id0 w0] H0]; [by destruct ls; [|cbn; lia]|].
  rewrite decide_False in E.
  2: { rewrite Hc. intros H. apply (f_equal (fun m => m !! id0)) in H. rewrite lookup_empty in H.
       apply not_elem_of_list_to_map_2 in H. apply H, list_elem_of_fmap. exists (id0, w0).
       split; [done|]. by eapply list_elem_of_lookup_2. }
  unfold transmit in E. destruct (tracks b m.1).
  - unfold next_msg_id in E. set (b1 := with_pending _ _) in E.
    destruct (route b1 m.1 _) as [b2 es2] eqn:E2. injection E as <- <-.
    assert (HL1 : linked mode ls k b1) by by split.
    eexists (DataReq _ m.2). split_and!.
    + by eapply route_frames.
    + right. eexists. split; [|done]. by apply length_id_of.
    + intros i id w Hi. csimpl. by eapply route_frames.
    + intros x. destruct (route_frames mode k b1 0 id0 w0 _ _ _ _ HL1 H0 Hk E2) as (_ & -> & _).
      cbn. rewrite lookup_insert_is_Some. naive_solver.
  - exists (Data m.2). split_and!.
    + by eapply route_frames.
    + by left.
    + intros i id w Hi. by eapply route_frames.
    + intros x. destruct (route_frames mode k b 0 id0 w0 _ _ _ _ HL H0 Hk E) as (_ & -> & _). by left.
Qed.

Lemma send_each_shares mode ms : forall k b b' es,
  linked mode ls k b -> ls <> [] -> (Z.of_nat k + zlen ms < 2 ^ 64)%Z -> send_each b ms = (b', es) ->
  exists envs k', linked mode ls k' b' /\ Forall2 carries ms envs /\
    (forall i id w, ls !! i = Some (id, w) ->
       omap (frame_to w) es = encode <$> share mode ls.*1 k i (zip ms.*1 envs)) /\
    forall x, is_Some (pending b' !! x) -> is_Some (pending b !! x) \/ x ∈ omap envelope_id envs.
Proof using All.
  induction ms as [|[t p] ms IH]; intros k b b' es HL Hne Hk E; cbn [send_each] in E.
  { simplify_eq. exists [], k. split_and!; [done|constructor|done|by left]. }
  destruct (handle_send b t p) as [b1 es1] eqn:E1. destruct (send_each b1 ms) as [b2 es2] eqn:E2.
  simplify_eq. rewrite zlen_cons in Hk. pose proof (zlen_nonneg ms).
  destruct (handle_send_frames mode k b (t, p) b1 es1 HL Hne ltac:(lia) E1) as (e & HL1 & He & Hf & Hp).
  cbn [fst] in *. assert (advance mode k t <= S k) by (destruct t, mode; cbn; lia).
  destruct (IH _ b1 b' es2 HL1 Hne ltac:(lia) E2) as (envs & k' & HL2 & Hes & Hfs & Hps).
  exists (e :: envs), k'. split_and!; [done|by constructor| |].
  - intros i id w Hi. rewrite omap_app, (Hf i id w Hi), (Hfs i id w Hi). csimpl.
    rewrite fmap_app. by destruct (takes _ _ _ _ _).
  - intros x [[Hx|Hx]%Hp|Hx]%Hps; [by left|right|right]; csimpl; [rewrite Hx; by left|].
    destruct (envelope_id e); set_solver.
Qed.
End Linked.

(** ** Coming up, and being acknowledged *)

(** A peer: its identity and the channels the sender has for it; then its own
    side, the crate, the socket and the channels it has for the sender. *)
Record Peer := mkPeer {
  peer_id : Identity;
  tx_to : Sender;
  accept_to : Sender;
  peer_crate : crate;
  peer_clock : nat -> Instant;
  peer_mode : SendMode;
  peer_delivery : DeliveryGuarantee;
  peer_uuid : bytes;
  tx_back : Sender;
  accept_back : Sender;
}.

Definition ups (ps : list Peer) : list Broker.Command :=
  (fun p => Broker.ConnectionUp (peer_id p) (tx_to p) (accept_to p)) <$> ps.

Definition links (ps : list Peer) : list (Identity * Sender) := (fun p => (peer_id p, tx_to p)) <$> ps.

Lemma run_ups mode ps : forall ls b,
  linked mode ls 0 b -> NoDup (ls ++ links ps).*1 ->
  exists b' fx, Broker.run b (ups ps) = (Some b', fx) /\ linked mode (ls ++ links ps) 0 b' /\
    pending b' = pending b /\ forall w, omap (frame_to w) fx = [].
Proof.
  induction ps as [|p ps IH]; intros ls b HL Hd.
  { exists b, []. split_and!; [done|by rewrite app_nil_r|done|done]. }
  cbn [ups fmap list_fmap Broker.run handle]. unfold handle_up. destruct HL as [Hm Hc Ho Hr Hb Hs].
  assert (Hn : conns b !! peer_id p = None).
  { rewrite Hc. apply not_elem_of_list_to_map_1. rewrite fmap_app in Hd. apply NoDup_app in Hd as (_ & Hd & _).
    intros Hin. apply (Hd _ Hin). cbn. by left. }
  rewrite Hn, decide_False by (by intros []). cbn [buffer with_order with_conns].
  rewrite Hb, decide_True by done.
  set (b1 := with_order _ _). change (links (p :: ps)) with ([(peer_id p, tx_to p)] ++ links ps) in *.
  rewrite app_assoc in Hd |- *.
  destruct (IH (ls ++ [(peer_id p, tx_to p)]) b1) as (b' & fx & E & HL' & Hp & Hf); [|done|].
  { split; cbn; [done| |by rewrite Ho, fmap_app|done|done|done].
    rewrite Hc, list_to_map_snoc; [done|]. rewrite Hc in Hn. by apply not_elem_of_list_to_map_2. }
  unfold ups in E. rewrite E. do 2 eexists. split_and!; [done|done|done|]. intros w. apply Hf.
Qed.

Definition ack_id (c : Broker.Command) : option MsgId :=
  match c with Broker.Received _ (Ack m) => Some m | _ => None end.

Definition is_ack (c : Broker.Command) : Prop := is_Some (ack_id c).

Lemma run_any_acks cs : forall b, Forall is_ack cs ->
  exists b' fx, Broker.run b cs = (Some b', fx) /\
    forall k, is_Some (pending b' !! k) <-> is_Some (pending b !! k) /\ k ∉ omap ack_id cs.
Proof.
  induction cs as [|c cs IH]; intros b Hc.
  { exists b, []. split; [done|]. set_solver. }
  apply Forall_cons in Hc as [[m Hm] Hcs].
  destruct c as [| | |i [| | | |m']| |]; cbn in Hm; simplify_eq. csimpl.
  destruct (run_acks i [m] b) as (b1 & fx1 & E1 & _ & Hp1). cbn in E1.
  destruct (match pending b !! m with Some _ => _ | None => _ end) as [b2 es2]. simplify_eq.
  destruct (IH b1 Hcs) as (b' & fx & -> & Hp).
  do 2 eexists. split; [done|]. intros k. rewrite Hp, Hp1, !not_elem_of_cons.
  pose proof (not_elem_of_nil k). tauto.
Qed.

Lemma lively_acks cs : Forall is_ack cs -> Forall lively cs.
Proof. intros H. eapply Forall_impl; [exact H|]. by intros [] [m Hm]. Qed.

(** ** The whole fan *)

Section Fan.
Context (cA : crate) (clockA : nat -> Instant) (mode : SendMode) (del : DeliveryGuarantee).
Context (uuid : bytes) (a : Identity) (ps : list Peer) (ms : list (option Identity * bytes)).

Hypothesis clock_ok : BrokerAsync.monotone clockA.
Hypothesis a_length : length a = IDENTITY_SIZE.
Hypothesis uuid_length : length uuid = 16.
Hypothesis some_peer : ps <> [].
Hypothesis peers_ok : Forall (fun p => BrokerAsync.monotone (peer_clock p) /\
  length (peer_id p) = IDENTITY_SIZE) ps.
Hypothesis ids_distinct : NoDup (peer_id <$> ps).
Hypothesis writers_distinct : NoDup (tx_to <$> ps).
Hypothesis few : (zlen ms < 2 ^ 64)%Z.
Hypothesis fit : Forall fits_frame ms.
Hypothesis known : Forall (fun m => forall id, m.1 = Some id -> id ∈ peer_id <$> ps) ms.

Abbreviation ids := (peer_id <$> ps).

Definition fan_commands : list Broker.Command := ups ps ++ sends ms.

Lemma links_ids : (links ps).*1 = ids.
Proof. unfold links. by rewrite <- list_fmap_compose. Qed.

Lemma links_writers : (links ps).*2 = tx_to <$> ps.
Proof. unfold links. by rewrite <- list_fmap_compose. Qed.

(** The envelopes of the [i]-th peer. *)
Definition envelopes (envs : list Envelope) (i : nat) : list Envelope :=
  share mode ids 0 i (zip ms.*1 envs).

Lemma fan_sends :
  exists bA fx envs,
    Broker.run (Broker.new_broker mode del uuid) fan_commands = (Some bA, fx) /\
    Forall2 carries ms envs /\
    (forall i p, ps !! i = Some p -> omap (frame_to (tx_to p)) fx = encode <$> envelopes envs i) /\
    forall x, is_Some (pending bA !! x) -> x ∈ omap envelope_id envs.
Proof using All.
  destruct (run_ups mode ps [] (Broker.new_broker mode del uuid)) as (b1 & fx1 & E1 & HL & Hp1 & Hf1).
  { split; cbn; try done. rewrite length_take. lia. }
  { cbn. by rewrite links_ids. }
  unfold fan_commands. rewrite ConnProps.run_app, E1, run_sends.
  destruct (send_each b1 ms) as [b2 fx2] eqn:E2.
  assert (Hids : NoDup (links ps).*1) by by rewrite links_ids.
  assert (Hws : NoDup (links ps).*2) by by rewrite links_writers.
  destruct (send_each_shares (links ps) Hids Hws mode ms 0 b1 b2 fx2 HL) as (envs & k' & _ & He & Hf & Hp);
    [by destruct ps|done|done|].
  exists b2, (fx1 ++ fx2), envs. split_and!; [done|done| |].
  - intros i p Hi. rewrite omap_app, Hf1. unfold envelopes. rewrite <- links_ids. cbn [app].
    apply (Hf i (peer_id p)). unfold links. by rewrite list_lookup_fmap, Hi.
  - intros x [Hx|]%Hp; [|done]. rewrite Hp1 in Hx. cbn in Hx. rewrite lookup_empty in Hx. by destruct Hx.
Qed.

(** What the [i]-th peer is sent is its share of the messages. *)
Lemma envelopes_carry envs i :
  Forall2 carries ms envs ->
  Forall2 carries ((fun x => (None, x)) <$> share mode ids 0 i ms) (envelopes envs i).
Proof using All.
  intros He. apply Forall2_fmap_l. unfold envelopes.
  apply (share_Forall2 mode ids (fun x e => carries (None, x) e) i ms envs 0).
  eapply Forall2_impl; [exact He|]. intros m e [->|H]; [by left|by right].
Qed.

Lemma share_fits i : Forall fits_frame ((fun x => (@None Identity, x)) <$> share mode ids 0 i ms).
Proof using All.
  apply Forall_fmap, Forall_forall. intros x Hx.
  assert (Hin : forall (l : list (option Identity * bytes)) k, x ∈ share mode ids k i l -> exists t, (t, x) ∈ l).
  { clear. induction l as [|[t y] l IH]; intros k Hx; [by apply elem_of_nil in Hx|]. cbn in Hx.
    apply elem_of_app in Hx as [Hx|Hx].
    - destruct (takes _ _ _ _ _); [|by apply elem_of_nil in Hx]. apply list_elem_of_singleton in Hx as ->.
      exists t. by left.
    - destruct (IH _ Hx) as [t' H]. exists t'. by right. }
  destruct (Hin ms 0 Hx) as [t Ht]. rewrite Forall_forall in fit. exact (fit _ Ht).
Qed.

(** Every id that is pending is in somebody's envelopes. *)
Lemma pending_somewhere envs x :
  Forall2 carries ms envs -> x ∈ omap envelope_id envs ->
  exists i p, ps !! i = Some p /\ x ∈ omap envelope_id (envelopes envs i).
Proof using All.
  intros He (e & Hin & Hx)%list_elem_of_omap. apply list_elem_of_lookup in Hin as [j Hj].
  destruct (Forall2_lookup_r _ _ _ _ _ He Hj) as ([t y] & Hm & _).
  destruct (share_covers mode ids (zip ms.*1 envs) 0 t e) as (i & Hi & Hsh).
  - by destruct ps.
  - apply list_elem_of_lookup. exists j. apply lookup_zip_with_Some. exists t, e.
    split_and!; [done| |done]. by rewrite list_lookup_fmap, Hm.
  - intros id ->. rewrite Forall_lookup in known. exact (known j _ Hm id eq_refl).
  - rewrite length_fmap in Hi. destruct (lookup_lt_is_Some_2 ps i Hi) as [p Hp].
    exists i, p. split; [done|]. apply list_elem_of_omap. by exists e.
Qed.

(** The acknowledgements of the [i]-th peer, as its session at the sender
    reports them. *)
Definition acks_of (envs : list Envelope) (i : nat) (p : Peer) : list Broker.Command :=
  Broker.Received (peer_id p) <$> (Ack <$> omap envelope_id (envelopes envs i)).

Lemma acks_are id l : Forall is_ack (Broker.Received id <$> (Ack <$> l)).
Proof using All. apply Forall_fmap, Forall_fmap, Forall_true. intros m. by eexists. Qed.

Lemma acks_settle envs bA order :
  Forall2 carries ms envs -> (forall x, is_Some (pending bA !! x) -> x ∈ omap envelope_id envs) ->
  order ≡ₚ mjoin (imap (acks_of envs) ps) ->
  Forall is_ack order /\ exists bA' fx, Broker.run bA order = (Some bA', fx) /\ pending bA' = ∅.
Proof using All.
  intros He Hp Ho.
  assert (Hacks : Forall is_ack order).
  { rewrite Ho. apply Forall_join, Forall_forall. intros l (i & p & Hl & _)%elem_of_lookup_imap. subst.
    apply acks_are. }
  split; [done|]. destruct (run_any_acks order bA Hacks) as (bA' & fx & E & Hpend).
  exists bA', fx. split; [done|]. apply map_empty. intros x. apply eq_None_not_Some.
  intros [Hx Hn]%Hpend. apply Hn. destruct (pending_somewhere envs x He (Hp x Hx)) as (i & p & Hi & Hin).
  rewrite Ho. apply list_elem_of_omap. exists (Broker.Received (peer_id p) (Ack x)). split; [|done].
  apply list_elem_of_join. exists (acks_of envs i p). split.
  - unfold acks_of. do 2 apply list_elem_of_fmap_2. done.
  - apply elem_of_lookup_imap. by exists i, p.
Qed.

Context (tls : bool).

(** C1: One socket, any number of peers.  Each peer's program receives exactly its
    share of what the application sends, once each and in order: under PUBLISH
    everything, under ROUND_ROBIN every [n]-th message in the order the peers
    came up, and in either mode what is sent to it by identity.  And when the
    peers' acknowledgements have come back, in whatever order they reach the
    broker, nothing is pending.  For peers and a sender of either crate, in the
    clear or over TLS, with either guarantee, for whatever heartbeats come in
    between and every schedule of a session's loops, as long as no resend falls
    due meanwhile.  The sessions are those of [reports]: the
    connection meets no I/O error, the HELLO comes in time, and the reads may
    be cut in any way, except that in
    the clear the read that completes the HELLO of a synchronous session ends
    at a frame boundary, and that no read of an asynchronous session takes the
    start of the next frame along with the end of one (none does when its
    buffer has exactly the size asked for). *)
Theorem every_peer_gets_its_share :
  exists bA fxA acks,
    broker_run cA clockA mode del uuid fan_commands = Some (Some bA, fxA) /\
    (forall i p, ps !! i = Some p ->
       exists cmds bB fxB acked,
         broker_run (peer_crate p) (peer_clock p) (peer_mode p) (peer_delivery p) (peer_uuid p) cmds =
           Some (Some bB, fxB) /\
         omap delivered fxB = Incoming a <$> share mode ids 0 i ms /\ acks !! i = Some acked /\
         forall mb mb', omap mail_frame mb = omap (frame_to (tx_to p)) fxA ->
           omap mail_frame mb' = omap (frame_to (tx_back p)) fxB ->
           reports tls (peer_crate p) a (peer_id p) (tx_back p) (accept_back p) mb' (EndToEnd.written mb) cmds /\
           reports tls cA (peer_id p) a (tx_to p) (accept_to p) mb (EndToEnd.written mb')
             (Broker.ConnectionUp (peer_id p) (tx_to p) (accept_to p) :: acked ++
                [Broker.ConnectionDown (peer_id p)])) /\
    forall order, order ≡ₚ mjoin acks ->
      exists bA' fx, broker_run cA clockA mode del uuid (fan_commands ++ order) = Some (Some bA', fx) /\
        pending bA' = ∅.
Proof.
  destruct fan_sends as (bA & fx & envs & Er & He & Hf & Hp).
  assert (Hl : Forall lively fan_commands).
  { apply Forall_app. split; [apply Forall_fmap, Forall_true; done|apply lively_sends]. }
  destruct (broker_runs_alike cA clockA mode del uuid _ _ _ clock_ok Hl Er) as (fxA & EA & _ & HfA).
  exists bA, fxA, (imap (acks_of envs) ps). split; [done|]. split.
  - intros i p Hi. destruct (Forall_lookup_1 _ _ _ _ peers_ok Hi) as [Hck Hid].
    pose proof (envelopes_carry envs i He) as Hc.
    destruct (carries_messages _ _ (share_fits i) Hc) as [Hmsg Hack].
    destruct (receiver_run (Broker.new_broker (peer_mode p) (peer_delivery p) (peer_uuid p)) a (tx_back p)
      (accept_back p) _ _ eq_refl eq_refl Hc) as (bB & fx' & Eb & Hd & Hfb).
    destruct (broker_runs_alike (peer_crate p) (peer_clock p) _ _ _ _ _ _ Hck
      (lively_session a (tx_back p) (accept_back p) (envelopes envs i)) Eb) as (fxB & EB & HdB & HfB).
    exists (session_commands a (tx_back p) (accept_back p) (envelopes envs i)), bB, fxB, (acks_of envs i p).
    split_and!; [done| |by rewrite list_lookup_imap, Hi|].
    + rewrite HdB, Hd, <- list_fmap_compose. by apply list_fmap_ext.
    + intros mb mb' Hmb Hmb'. rewrite HfA, (Hf i p Hi) in Hmb. rewrite HfB, Hfb in Hmb'.
      split; by apply session_reports.
  - intros order Ho. destruct (acks_settle envs bA order He Hp Ho) as (Hacks & bA' & fx' & E & Hempty).
    destruct (broker_runs_alike cA clockA mode del uuid (fan_commands ++ order) bA' (fx ++ fx') clock_ok)
      as (fxA' & EA' & _).
    { apply Forall_app. split; [done|by apply lively_acks]. }
    { by rewrite ConnProps.run_app, Er, E. }
    by exists bA', fxA'.
Qed.
End Fan.

(** ** Three peers, five messages *)

Abbreviation third := (replicate 16 x0c).
Abbreviation hub := (replicate 16 x0d).

Definition three_peers : list Peer :=
  [ mkPeer peerA 1 11 SyncCrate BrokerAsync.ticking RoundRobin AtMostOnce demo_uuid 21 31;
    mkPeer peerB 2 12 AsyncCrate BrokerAsync.ticking Publish AtMostOnce demo_uuid 22 32;
    mkPeer third 3 13 AsyncCrate BrokerAsync.ticking RoundRobin AtLeastOnce demo_uuid 23 33 ].

Definition five_messages : list (option Identity * bytes) :=
  [(None, [x01]); (None, [x02]); (Some peerA, [x03]); (None, [x04]); (None, [x05])].

Lemma every_peer_gets_its_share_witness :
  (fun i => share RoundRobin (peer_id <$> three_peers) 0 i five_messages) <$> [0; 1; 2] =
    [ [[x01]; [x03]; [x05]]; [[x02]]; [[x04]] ] /\
  exists bA fxA acks,
    broker_run AsyncCrate BrokerAsync.ticking RoundRobin AtLeastOnce demo_uuid
      (fan_commands three_peers five_messages) = Some (Some bA, fxA) /\
    (forall i p, three_peers !! i = Some p ->
       exists cmds bB fxB acked,
         broker_run (peer_crate p) (peer_clock p) (peer_mode p) (peer_delivery p) (peer_uuid p) cmds =
           Some (Some bB, fxB) /\
         omap delivered fxB =
           Incoming hub <$> share RoundRobin (peer_id <$> three_peers) 0 i five_messages /\
         acks !! i = Some acked /\
         forall mb mb', omap mail_frame mb = omap (frame_to (tx_to p)) fxA ->
           omap mail_frame mb' = omap (frame_to (tx_back p)) fxB ->
           reports true (peer_crate p) hub (peer_id p) (tx_back p) (accept_back p) mb'
             (EndToEnd.written mb) cmds /\
           reports true AsyncCrate (peer_id p) hub (tx_to p) (accept_to p) mb (EndToEnd.written mb')
             (Broker.ConnectionUp (peer_id p) (tx_to p) (accept_to p) :: acked ++
                [Broker.ConnectionDown (peer_id p)])) /\
    forall order, order ≡ₚ mjoin acks ->
      exists bA' fx, broker_run AsyncCrate BrokerAsync.ticking RoundRobin AtLeastOnce demo_uuid
        (fan_commands three_peers five_messages ++ order) = Some (Some bA', fx) /\ pending bA' = ∅.
Proof.
  split; [vm_compute; reflexivity|].
  apply (every_peer_gets_its_share AsyncCrate BrokerAsync.ticking RoundRobin AtLeastOnce demo_uuid hub
    three_peers five_messages BrokerAsync.ticking_monotone).
  - reflexivity.
  - reflexivity.
  - discriminate.
  - repeat (constructor; [split; [exact BrokerAsync.ticking_monotone|reflexivity]|]). constructor.
  - apply (bool_decide_unpack _). vm_compute. exact I.
  - apply (bool_decide_unpack _). vm_compute. exact I.
  - reflexivity.
  - repeat (constructor; [vm_compute; reflexivity|]). constructor.
  - repeat (constructor; [intros id H; try discriminate H|]); [|constructor].
    injection H as <-. by left.
Defined.
