(* ===== verification/TlsConfig.v ===== *)
(** * TlsConfig: how the programs make their TLS configurations

    Models the functions of the examples that read certificates from PEM files
    or make them up: [server_config] and [client_config] of the two
    conformance agents, [self_signed_configs] and [server_config_from_pem] of
    the two TLS demos, and [gen_test_certs.rs].  They chain calls of rustls, rustls_pemfile and rcgen,
    which are outside the repository (the class [Rustls]); what is modelled is
    the chain: the order of the calls, what is [unwrap]ped and what is passed
    on.  Each copy is translated on its own. *)

From S2P Require Import Prelude Io.
From Stdlib Require Import Strings.Byte.

(** ** Panics, and the [?] operator *)

Inductive outcome (A : Type) :=
| Returns (a : A)
| Panics.
Arguments Returns {A} a.
Arguments Panics {A}.

#[export] Instance outcome_ret : MRet outcome := @Returns.
#[export] Instance outcome_bind : MBind outcome := fun A B f m =>
  match m with Returns a => f a | Panics => Panics end.
#[export] Instance io_ret : MRet io_result := @Ok.
#[export] Instance io_bind : MBind io_result := fun A B f m =>
  match m with Ok a => f a | Err e => Err e end.

Definition unwrap {A} (r : io_result A) : outcome A :=
  match r with Ok a => Returns a | Err _ => Panics end.

(** [expect] and [unwrap] of an [Option] or of a library's [Result], which is
    its value if it succeeded. *)
Definition expect {A} (o : option A) : outcome A :=
  match o with Some a => Returns a | None => Panics end.

(** [ok_or_else(|| Error::new(kind, ..))] and [map_err(|e| Error::new(kind, e))]. *)
Definition ok_or {A} (e : ErrorKind) (o : option A) : io_result A :=
  match o with Some a => Ok a | None => Err e end.

(** [collect::<io::Result<Vec<_>>>()]: the first error, or all values. *)
Fixpoint collect {A} (items : list (io_result A)) : io_result (list A) :=
  match items with
  | [] => Ok []
  | item :: items => a ← item; l ← collect items; mret (a :: l)
  end.

(** ** The libraries

    [open] is [File::open]; [certs] and [private_key] are rustls_pemfile's on a
    [BufReader] of the file; the builders come from [builder_with_provider] of
    the ring provider and [with_safe_default_protocol_versions];
    [generate_simple_self_signed] gives rcgen's certificate and key in DER. *)
Class Rustls (File Cert Key ServerBuilder ClientBuilder Roots ServerConfig ClientConfig : Type) := {
  open : bytes -> io_result File;
  certs : File -> list (io_result Cert);
  private_key : File -> io_result (option Key);
  server_builder : option ServerBuilder;
  client_builder : option ClientBuilder;
  with_single_cert : ServerBuilder -> list Cert -> Key -> option ServerConfig;
  empty_roots : Roots;
  add_root : Roots -> Cert -> option Roots;
  with_root_certificates : ClientBuilder -> Roots -> ClientConfig;
  generate_simple_self_signed : list bytes -> option (Cert * Key);
}.

Section Configs.
Context {File Cert Key ServerBuilder ClientBuilder Roots ServerConfig ClientConfig : Type}.
Context `{!Rustls File Cert Key ServerBuilder ClientBuilder Roots ServerConfig ClientConfig}.

(** ** The synchronous crate's examples *)

Definition server_config (cert_pem key_pem : bytes) : outcome ServerConfig :=
  file ← unwrap (open cert_pem);
  certs ← unwrap (collect (certs file));
  file ← unwrap (open key_pem);
  key ← unwrap (private_key file);
  key ← expect key;
  builder ← expect server_builder;
  expect (with_single_cert builder certs key).

(** [for cert in certs { roots.add(cert.unwrap()).unwrap(); }]. *)
Fixpoint add_all (items : list (io_result Cert)) (roots : Roots) : outcome Roots :=
  match items with
  | [] => Returns roots
  | cert :: items => cert ← unwrap cert; roots ← expect (add_root roots cert); add_all items roots
  end.

Definition client_config (ca_pem : bytes) : outcome ClientConfig :=
  file ← unwrap (open ca_pem);
  roots ← add_all (certs file) empty_roots;
  builder ← expect client_builder;
  Returns (with_root_certificates builder roots).

Definition self_signed_configs (name : bytes) : outcome (ServerConfig * ClientConfig) :=
  '(cert, key) ← expect (generate_simple_self_signed [name]);
  builder ← expect server_builder;
  server ← expect (with_single_cert builder [cert] key);
  roots ← expect (add_root empty_roots cert);
  builder ← expect client_builder;
  Returns (server, with_root_certificates builder roots).

Definition server_config_from_pem (cert_pem key_pem : bytes) : io_result ServerConfig :=
  file ← open cert_pem;
  certs ← collect (certs file);
  file ← open key_pem;
  key ← private_key file;
  key ← ok_or InvalidData key;
  builder ← ok_or InvalidData server_builder;
  ok_or InvalidData (with_single_cert builder certs key).
End Configs.

(** ** The asynchronous crate's *)

Module AsyncConfigs.
Section Configs.
Context {File Cert Key ServerBuilder ClientBuilder Roots ServerConfig ClientConfig : Type}.
Context `{!Rustls File Cert Key ServerBuilder ClientBuilder Roots ServerConfig ClientConfig}.

Definition server_config (cert_pem key_pem : bytes) : outcome ServerConfig :=
  file ← unwrap (open cert_pem);
  certs ← unwrap (collect (certs file));
  file ← unwrap (open key_pem);
  key ← unwrap (private_key file);
  key ← expect key;
  builder ← expect server_builder;
  expect (with_single_cert builder certs key).

Fixpoint add_all (items : list (io_result Cert)) (roots : Roots) : outcome Roots :=
  match items with
  | [] => Returns roots
  | cert :: items => cert ← unwrap cert; roots ← expect (add_root roots cert); add_all items roots
  end.

Definition client_config (ca_pem : bytes) : outcome ClientConfig :=
  file ← unwrap (open ca_pem);
  roots ← add_all (certs file) empty_roots;
  builder ← expect client_builder;
  Returns (with_root_certificates builder roots).

Definition self_signed_configs (name : bytes) : outcome (ServerConfig * ClientConfig) :=
  '(cert, key) ← expect (generate_simple_self_signed [name]);
  builder ← expect server_builder;
  server ← expect (with_single_cert builder [cert] key);
  roots ← expect (add_root empty_roots cert);
  builder ← expect client_builder;
  Returns (server, with_root_certificates builder roots).

Definition server_config_from_pem (cert_pem key_pem : bytes) : io_result ServerConfig :=
  file ← open cert_pem;
  certs ← collect (certs file);
  file ← open key_pem;
  key ← private_key file;
  key ← ok_or InvalidData key;
  builder ← ok_or InvalidData server_builder;
  ok_or InvalidData (with_single_cert builder certs key).
End Configs.
End AsyncConfigs.

(** ** What they give *)

Lemma bind_returns {A B} (m : outcome A) (f : A -> outcome B) b :
  m ≫= f = Returns b <-> exists a, m = Returns a /\ f a = Returns b.
Proof. destruct m; cbn; naive_solver. Qed.

Lemma bind_ok {A B} (m : io_result A) (f : A -> io_result B) b :
  m ≫= f = Ok b <-> exists a, m = Ok a /\ f a = Ok b.
Proof. destruct m; cbn; naive_solver. Qed.

Lemma unwrap_returns {A} (r : io_result A) a : unwrap r = Returns a <-> r = Ok a.
Proof. destruct r; cbn; naive_solver. Qed.

Lemma expect_returns {A} (o : option A) a : expect o = Returns a <-> o = Some a.
Proof. destruct o; cbn; naive_solver. Qed.

Lemma ok_or_ok {A} e (o : option A) a : ok_or e o = Ok a <-> o = Some a.
Proof. destruct o; cbn; naive_solver. Qed.

Lemma collect_ok {A} (items : list (io_result A)) l : collect items = Ok l <-> items = Ok <$> l.
Proof.
  revert l. induction items as [|item items IH]; intros l; cbn [collect].
  - destruct l; naive_solver.
  - rewrite bind_ok. setoid_rewrite bind_ok. destruct l as [|a l]; csimpl; [naive_solver|].
    split.
    + intros (x & -> & l' & ->%IH & [= -> ->]). done.
    + intros [= -> Hl]. exists a. split; [done|]. exists l. split; [by apply IH|done].
Qed.

Section Facts.
Context {File Cert Key ServerBuilder ClientBuilder Roots ServerConfig ClientConfig : Type}.
Context `{!Rustls File Cert Key ServerBuilder ClientBuilder Roots ServerConfig ClientConfig}.

(** A library value that both say what a chain of calls needs. *)
Definition configured (cert_pem key_pem : bytes) (cfg : ServerConfig) : Prop :=
  exists cf kf l key builder,
    open cert_pem = Ok cf /\ certs cf = Ok <$> l /\ open key_pem = Ok kf /\
    private_key kf = Ok (Some key) /\ server_builder = Some builder /\
    with_single_cert builder l key = Some cfg.

Lemma server_config_spec cert_pem key_pem cfg :
  server_config cert_pem key_pem = Returns cfg <-> configured cert_pem key_pem cfg.
Proof.
  unfold server_config, configured. repeat setoid_rewrite bind_returns.
  repeat setoid_rewrite unwrap_returns. repeat setoid_rewrite expect_returns.
  setoid_rewrite collect_ok. naive_solver.
Qed.

Lemma from_pem_spec cert_pem key_pem cfg :
  server_config_from_pem cert_pem key_pem = Ok cfg <-> configured cert_pem key_pem cfg.
Proof.
  unfold server_config_from_pem, configured. repeat setoid_rewrite bind_ok.
  repeat setoid_rewrite ok_or_ok. setoid_rewrite collect_ok. naive_solver.
Qed.

(** The demo's way and the agents' way of loading a server's configuration
    are the same, but that the one returns an error where the other panics:
    the file must open, every certificate of the file must parse, the other
    file must hold a key, and the key must fit. *)
Theorem from_pem_agrees cert_pem key_pem cfg :
  (server_config_from_pem cert_pem key_pem = Ok cfg <-> configured cert_pem key_pem cfg) /\
  (server_config cert_pem key_pem = Returns cfg <-> configured cert_pem key_pem cfg) /\
  ((exists e, server_config_from_pem cert_pem key_pem = Err e) <->
   server_config cert_pem key_pem = Panics).
Proof.
  split_and!; [apply from_pem_spec|apply server_config_spec|].
  pose proof (from_pem_spec cert_pem key_pem) as H1.
  pose proof (server_config_spec cert_pem key_pem) as H2.
  destruct (server_config_from_pem cert_pem key_pem) as [c|e], (server_config cert_pem key_pem) as [d|].
  - naive_solver.
  - exfalso. specialize (proj1 (H1 c) eq_refl) as H. apply H2 in H. done.
  - exfalso. specialize (proj1 (H2 d) eq_refl) as H. apply H1 in H. done.
  - naive_solver.
Qed.

Lemma add_all_returns items : forall roots roots',
  add_all items roots = Returns roots' <->
  exists l, items = Ok <$> l /\ foldl (fun r c => r ← r; add_root r c) (Some roots) l = Some roots'.
Proof.
  induction items as [|item items IH]; intros roots roots'; cbn [add_all].
  - split; [intros [= ->]; by exists []|]. intros ([|] & ? & ?); naive_solver.
  - rewrite bind_returns. setoid_rewrite unwrap_returns. setoid_rewrite bind_returns.
    setoid_rewrite expect_returns. setoid_rewrite IH. split.
    + intros (c & -> & r & Hr & l & -> & Hl). exists (c :: l). split; [done|].
      cbn. by rewrite Hr.
    + intros ([|c l] & Hi & Hl); [done|]. injection Hi as -> ->. cbn in Hl.
      destruct (add_root roots c) as [r|] eqn:Hr; [by eauto 10|].
      exfalso. clear -Hl. induction l as [|x l IH]; [done|]. by apply IH.
Qed.

(** A client trusts exactly the certificates of the file, all of which parse
    and are taken. *)
Theorem client_config_trusts ca_pem cfg :
  client_config ca_pem = Returns cfg <->
  exists file l roots builder,
    open ca_pem = Ok file /\ certs file = Ok <$> l /\
    foldl (fun r c => r ← r; add_root r c) (Some empty_roots) l = Some roots /\
    client_builder = Some builder /\ cfg = with_root_certificates builder roots.
Proof.
  unfold client_config. repeat setoid_rewrite bind_returns. setoid_rewrite unwrap_returns.
  setoid_rewrite add_all_returns. setoid_rewrite expect_returns. naive_solver.
Qed.

(** The demo's client trusts the one certificate the server shows. *)
Lemma self_signed_returns name server client :
  self_signed_configs name = Returns (server, client) ->
  exists cert key sb cb roots,
    generate_simple_self_signed [name] = Some (cert, key) /\
    with_single_cert sb [cert] key = Some server /\
    add_root empty_roots cert = Some roots /\ client = with_root_certificates cb roots.
Proof.
  unfold self_signed_configs. repeat setoid_rewrite bind_returns.
  intros ([cert key] & Hg & H). apply expect_returns in Hg. revert H.
  repeat setoid_rewrite bind_returns. repeat setoid_rewrite expect_returns. naive_solver.
Qed.

(** The two crates' copies compute the same. *)
Lemma async_configs_agree :
  (forall c k, AsyncConfigs.server_config c k = server_config c k) /\
  (forall ca, AsyncConfigs.client_config ca = client_config ca) /\
  (forall name, AsyncConfigs.self_signed_configs name = self_signed_configs name) /\
  (forall c k, AsyncConfigs.server_config_from_pem c k = server_config_from_pem c k).
Proof. by split_and!. Qed.
End Facts.

(** ** [gen_test_certs.rs]

    The certificate the conformance suite's TLS scenarios share. *)

Class Rcgen (Params San KeyPair Certificate : Type) := {
  params_new : option Params;
  dns_name : bytes -> option San;
  ip_address : bytes -> San;
  set_names : list San -> Params -> Params;
  push_common_name : bytes -> Params -> Params;
  set_validity : Z * Z * Z -> Z * Z * Z -> Params -> Params;
  generate : option KeyPair;
  self_signed : Params -> KeyPair -> option Certificate;
  pem : Certificate -> bytes;
  serialize_pem : KeyPair -> bytes;
}.

(** [Path::join] with a file name, on Unix. *)
Definition path_join (dir file : bytes) : bytes :=
  match last dir with
  | None => file
  | Some c => if decide (c = x2f) then dir ++ file else dir ++ [x2f] ++ file
  end.

Section GenTestCerts.
Context {Params San KeyPair Certificate : Type} `{!Rcgen Params San KeyPair Certificate}.

(** [main]: what is written to which file, in order, and what is printed.
    [write] is what the file system answers, [display] how a path shows. *)
Definition gen_test_certs (argv : list bytes) (write : bytes -> bytes -> io_result ())
    (display : bytes -> bytes) : outcome (list (bytes * bytes) * bytes) :=
  out ← expect (argv !! 1);
  params ← expect params_new;
  name ← expect (dns_name (str_bytes "localhost"));
  let params := set_names [name; ip_address [x7f; x00; x00; x01]] params in
  let params := push_common_name (str_bytes "aiomsg conformance test") params in
  let params := set_validity (2020, 1, 1)%Z (4096, 1, 1)%Z params in
  key ← expect generate;
  cert ← expect (self_signed params key);
  let cert_file := (path_join out (str_bytes "cert.pem"), pem cert) in
  let key_file := (path_join out (str_bytes "key.pem"), serialize_pem key) in
  _ ← unwrap (write cert_file.1 cert_file.2);
  _ ← unwrap (write key_file.1 key_file.2);
  Returns ([cert_file; key_file],
    str_bytes "wrote cert.pem and key.pem to " ++ display out ++ [x0a]).

(** The two files go together: the certificate is the one signed with the key
    beside it. *)
Theorem generated_pair argv write display files printed :
  gen_test_certs argv write display = Returns (files, printed) ->
  exists dir params key cert,
    argv !! 1 = Some dir /\ self_signed params key = Some cert /\
    files = [(path_join dir (str_bytes "cert.pem"), pem cert);
             (path_join dir (str_bytes "key.pem"), serialize_pem key)] /\
    Forall (fun f => write f.1 f.2 = Ok tt) files.
Proof.
  unfold gen_test_certs. repeat setoid_rewrite bind_returns. repeat setoid_rewrite expect_returns.
  repeat setoid_rewrite unwrap_returns.
  intros (dir & Hd & params & _ & name & _ & key & _ & cert & Hc & [] & H1 & [] & H2 & [= <- <-]).
  exists dir. eexists. exists key, cert. split_and!; [done|exact Hc|done|]. by repeat constructor.
Qed.
End GenTestCerts.

(** ** A concrete library

    A file is its path; the certificate of a PEM file is its content, a key is
    one that ends in "key"; a certificate made up is its name. *)
Record ToyServer := mkToyServer { toy_chain : list bytes; toy_key : bytes }.

Definition toy_files : list bytes := str_bytes <$> ["cert.pem"; "key.pem"; "bad.pem"]%string.

#[export] Instance Toy : Rustls bytes bytes bytes () () (list bytes) ToyServer (list bytes) := {
  open path := if decide (path ∈ toy_files) then Ok path else Err OtherError;
  certs path := if decide (path = str_bytes "bad.pem") then [Err InvalidData] else [Ok path];
  private_key path := Ok (if decide (path = str_bytes "key.pem") then Some path else None);
  server_builder := Some tt;
  client_builder := Some tt;
  with_single_cert _ chain key := Some (mkToyServer chain key);
  empty_roots := [];
  add_root roots cert := Some (cert :: roots);
  with_root_certificates _ roots := roots;
  generate_simple_self_signed names := match names with n :: _ => Some (n, n) | [] => None end;
}.

Lemma toy_configs :
  server_config (str_bytes "cert.pem") (str_bytes "key.pem") =
    Returns (mkToyServer [str_bytes "cert.pem"] (str_bytes "key.pem")) /\
  server_config_from_pem (str_bytes "cert.pem") (str_bytes "cert.pem") = Err InvalidData /\
  server_config (str_bytes "cert.pem") (str_bytes "cert.pem") = Panics /\
  client_config (str_bytes "bad.pem") = Panics.
Proof. vm_compute. done. Qed.

Lemma toy_no_name : exists e, open [] = Err e.
Proof. exists OtherError. vm_compute. done. Qed.
