(* ===== verification/Lifecycle.v ===== *)
(** * Lifecycle: the threads of a socket and the calls that start and end them

    [Socket] takes each method of [rust-lib-sync/src/lib.rs] as one step and
    [System] starts where [close] meets the sessions.  Here are the methods
    that other threads may run at the same time, statement by statement:
    [bind_with] and [connect_with], which spawn a loop and then hand its handle
    to the vector of threads, and [close], which raises the flags, takes the
    vector and joins what it finds there; with them the loops of
    [rust-lib-sync/src/conn.rs] by the places where they look at the shutdown
    flag.  A session in a loop ends by itself once the flag is up: that is
    [System.close_completes]. *)

From S2P Require Import Prelude.

(** ** Data *)

(** Where a loop thread is.  [accept_loop]: before its look at the flag, in
    [accept], joining its handlers, with the handlers still running;
    [connect_loop]: at the condition of the [while], dialing, in
    [handle_connection], at its second look at the flag, asleep. *)
Inductive loop :=
| AcceptTop (live : nat)
| AcceptCall (live : nat)
| AcceptJoin (live : nat)
| ConnectTop
| ConnectDial
| ConnectSession
| ConnectAgain
| ConnectSleep
| Ended.

Inductive outcome := RetOk | RetClosed | RetFailed | ClosedNow | AlreadyClosed.

(** Where a call is: the statement it comes to next.  [Handing i] holds the
    handle of loop [i], [CloseJoin l] has the handles [l] left to join. *)
Inductive call :=
| ConnectCheck
| ConnectResolve
| ConnectSpawn
| BindListen
| BindSpawn
| Handing (i : nat)
| CloseSwap
| CloseFlag
| CloseSend
| CloseShut
| CloseTake
| CloseJoin (handles : list nat)
| CloseTakeBroker
| CloseJoinBroker
| Returned (o : outcome).

#[export] Instance loop_eq_dec : EqDecision loop.
Proof. solve_decision. Defined.
#[export] Instance outcome_eq_dec : EqDecision outcome.
Proof. solve_decision. Defined.
#[export] Instance call_eq_dec : EqDecision call.
Proof. solve_decision. Defined.

Record Life := mkLife {
  loops : list loop;
  threads : list nat;
  closed : bool;
  shutdown : bool;
  close_sent : bool;
  streams_shut : bool;
  broker_ended : bool;
  broker_handle : bool;
  calls : list call;
}.

(** A built socket: the broker runs, nothing else does. *)
Definition built : Life := mkLife [] [] false false false false false true [].

Definition set_loops l s := mkLife l (threads s) (closed s) (shutdown s) (close_sent s)
  (streams_shut s) (broker_ended s) (broker_handle s) (calls s).
Definition set_threads l s := mkLife (loops s) l (closed s) (shutdown s) (close_sent s)
  (streams_shut s) (broker_ended s) (broker_handle s) (calls s).
Definition set_closed s := mkLife (loops s) (threads s) true (shutdown s) (close_sent s)
  (streams_shut s) (broker_ended s) (broker_handle s) (calls s).
Definition set_shutdown s := mkLife (loops s) (threads s) (closed s) true (close_sent s)
  (streams_shut s) (broker_ended s) (broker_handle s) (calls s).
Definition set_close_sent s := mkLife (loops s) (threads s) (closed s) (shutdown s) true
  (streams_shut s) (broker_ended s) (broker_handle s) (calls s).
Definition set_streams_shut s := mkLife (loops s) (threads s) (closed s) (shutdown s) (close_sent s)
  true (broker_ended s) (broker_handle s) (calls s).
Definition set_broker_ended s := mkLife (loops s) (threads s) (closed s) (shutdown s) (close_sent s)
  (streams_shut s) true (broker_handle s) (calls s).
Definition take_broker_handle s := mkLife (loops s) (threads s) (closed s) (shutdown s) (close_sent s)
  (streams_shut s) (broker_ended s) false (calls s).
Definition set_calls l s := mkLife (loops s) (threads s) (closed s) (shutdown s) (close_sent s)
  (streams_shut s) (broker_ended s) (broker_handle s) l.

(** ** Steps *)

(** What happens next at a statement: it does its work, what it asks of the
    operating system fails, or a handler of an accept loop ends. *)
Inductive happens := Works | Fails | HandlerEnds.

Definition accept_loop_step (flag : bool) (l : loop) (h : happens) : option loop :=
  match l, h with
  | AcceptTop n, Works => Some (if flag then AcceptJoin n else AcceptCall n)
  | AcceptCall n, Works => Some (AcceptTop (S n))
  | AcceptCall n, Fails => Some (AcceptTop n)
  | AcceptJoin O, Works => Some Ended
  | AcceptTop (S n), HandlerEnds => Some (AcceptTop n)
  | AcceptCall (S n), HandlerEnds => Some (AcceptCall n)
  | AcceptJoin (S n), HandlerEnds => Some (AcceptJoin n)
  | _, _ => None
  end.

Definition connect_loop_step (flag : bool) (l : loop) (h : happens) : option loop :=
  match l, h with
  | ConnectTop, Works => Some (if flag then Ended else ConnectDial)
  | ConnectDial, Works => Some ConnectSession
  | ConnectDial, Fails => Some ConnectAgain
  | ConnectSession, Works => Some ConnectAgain
  | ConnectAgain, Works => Some (if flag then Ended else ConnectSleep)
  | ConnectSleep, Works => Some ConnectTop
  | _, _ => None
  end.

Definition loop_step (flag : bool) (l : loop) (h : happens) : option loop :=
  match l with
  | AcceptTop _ | AcceptCall _ | AcceptJoin _ => accept_loop_step flag l h
  | _ => connect_loop_step flag l h
  end.

(** [thread::spawn] of a loop, and the push of its handle. *)
Definition spawn_loop (l : loop) (s : Life) : Life * call :=
  (set_loops (loops s ++ [l]) s, Handing (length (loops s))).

Definition push_handle (i : nat) (s : Life) : Life * call :=
  (set_threads (threads s ++ [i]) s, Returned RetOk).

Definition connect_step (s : Life) (c : call) (h : happens) : option (Life * call) :=
  match c, h with
  | ConnectCheck, Works => Some (s, if closed s then Returned RetClosed else ConnectResolve)
  | ConnectResolve, Works => Some (s, ConnectSpawn)
  | ConnectResolve, Fails => Some (s, Returned RetFailed)
  | ConnectSpawn, Works => Some (spawn_loop ConnectTop s)
  | _, _ => None
  end.

Definition bind_step (s : Life) (c : call) (h : happens) : option (Life * call) :=
  match c, h with
  | BindListen, Works => Some (s, BindSpawn)
  | BindListen, Fails => Some (s, Returned RetFailed)
  | BindSpawn, Works => Some (spawn_loop (AcceptTop 0) s)
  | _, _ => None
  end.

Definition close_step (s : Life) (c : call) (h : happens) : option (Life * call) :=
  match c, h with
  | CloseSwap, Works =>
    Some (set_closed s, if closed s then Returned AlreadyClosed else CloseFlag)
  | CloseFlag, Works => Some (set_shutdown s, CloseSend)
  | CloseSend, Works => Some (set_close_sent s, CloseShut)
  | CloseShut, Works => Some (set_streams_shut s, CloseTake)
  | CloseTake, Works => Some (set_threads [] s, CloseJoin (threads s))
  | CloseJoin [], Works => Some (s, CloseTakeBroker)
  | CloseJoin (i :: l), Works =>
    match loops s !! i with
    | Some Ended => Some (s, CloseJoin l)
    | _ => None
    end
  | CloseTakeBroker, Works =>
    Some (take_broker_handle s, if broker_handle s then CloseJoinBroker else Returned ClosedNow)
  | CloseJoinBroker, Works => if broker_ended s then Some (s, Returned ClosedNow) else None
  | _, _ => None
  end.

Definition call_step (s : Life) (c : call) (h : happens) : option (Life * call) :=
  match c, h with
  | (ConnectCheck | ConnectResolve | ConnectSpawn), _ => connect_step s c h
  | (BindListen | BindSpawn), _ => bind_step s c h
  | Handing i, Works => Some (push_handle i s)
  | Handing _, _ => None
  | _, _ => close_step s c h
  end.

(** A thread makes a call; a loop, a call or the broker goes on. *)
Inductive event :=
| Make (c : call)
| LoopStep (i : nat) (h : happens)
| CallStep (j : nat) (h : happens)
| BrokerEnds.

Definition entry (c : call) : bool :=
  match c with ConnectCheck | BindListen | CloseSwap => true | _ => false end.

Definition life_step (s : Life) (e : event) : option Life :=
  match e with
  | Make c => if entry c then Some (set_calls (calls s ++ [c]) s) else None
  | LoopStep i h =>
    l ← loops s !! i;
    l' ← loop_step (shutdown s) l h;
    Some (set_loops (<[i := l']> (loops s)) s)
  | CallStep j h =>
    c ← calls s !! j;
    '(s', c') ← call_step s c h;
    Some (set_calls (<[j := c']> (calls s')) s')
  | BrokerEnds => if close_sent s && negb (broker_ended s) then Some (set_broker_ended s) else None
  end.

Fixpoint life_run (s : Life) (es : list event) : option Life :=
  match es with
  | [] => Some s
  | e :: es => s' ← life_step s e; life_run s' es
  end.

Definition reachable (s : Life) : Prop := exists es, life_run built es = Some s.

(** ** The one [close] that closes *)

(** How far a call of [close] has come past the swap. *)
Definition stage (c : call) : nat :=
  match c with
  | CloseFlag => 1 | CloseSend => 2 | CloseShut => 3 | CloseTake => 4 | CloseJoin _ => 5
  | CloseTakeBroker => 6 | CloseJoinBroker => 7 | Returned ClosedNow => 8
  | _ => 0
  end.

Definition reached (k : nat) (l : list call) : Prop := exists j c, l !! j = Some c /\ k <= stage c.

(** What is set on the way to a stage. *)
Definition flagged : list nat := [1; 2; 3; 4; 7].

Definition flag (k : nat) (s : Life) : bool :=
  match k with
  | 1 => closed s
  | 2 => shutdown s
  | 3 => close_sent s
  | 4 => streams_shut s
  | _ => negb (broker_handle s)
  end.

(** The handles a call holds. *)
Definition holds (c : call) : list nat :=
  match c with Handing i => [i] | CloseJoin l => l | _ => [] end.

Definition in_hand (s : Life) (i : nat) : Prop :=
  i ∈ threads s \/ exists j c, calls s !! j = Some c /\ i ∈ holds c.

Record life_inv (s : Life) : Prop := {
  li_one j j' c c' : calls s !! j = Some c -> calls s !! j' = Some c' ->
    0 < stage c -> 0 < stage c' -> j = j';
  li_flag k : k ∈ flagged -> flag k s = true <-> reached k (calls s);
  li_broker : reached 8 (calls s) -> broker_ended s = true;
  li_hand i l : loops s !! i = Some l -> l = Ended \/ in_hand s i;
  li_range i : in_hand s i -> i < length (loops s);
}.

(** ** Lemmas *)

Lemma reached_insert k l j c c' :
  l !! j = Some c -> stage c <= stage c' -> reached k (<[j := c']> l) <-> reached k l \/ k <= stage c'.
Proof.
  intros Hj Hc. split.
  - intros (j' & d & Hd & Hk). apply list_lookup_insert_Some in Hd as [(-> & <- & _)|[_ Hd]];
      [by right|left; by exists j', d].
  - assert (Hin : <[j := c']> l !! j = Some c')
      by by apply list_lookup_insert_eq, (lookup_lt_Some _ _ _ Hj).
    intros [(j' & d & Hd & Hk)|Hk]; [|by exists j, c'].
    destruct (decide (j = j')) as [<-|Hne]; [|exists j', d; by rewrite list_lookup_insert_ne].
    exists j, c'. simplify_eq. split; [done|lia].
Qed.

Lemma reached_snoc k l c : stage c = 0 -> 0 < k -> reached k (l ++ [c]) <-> reached k l.
Proof.
  intros Hc Hk. split; intros (j & d & Hd & Hs); exists j, d; (split; [|done]).
  - apply lookup_app_Some in Hd as [Hd|[_ Hd]]; [done|].
    apply list_lookup_singleton_Some in Hd as [_ <-]. lia.
  - by apply lookup_app_l_Some.
Qed.

Lemma entry_call c : entry c = true -> stage c = 0 /\ holds c = [].
Proof. by destruct c. Qed.

Lemma call_step_stage s c h s' c' :
  call_step s c h = Some (s', c') ->
  calls s' = calls s /\ broker_ended s' = broker_ended s /\ stage c <= stage c' /\
  (0 < stage c' -> 0 < stage c \/ closed s = false).
Proof.
  destruct s, c as [| | | | | | | | | | |[|i0 js]| | |], h; cbn; unfold spawn_loop, push_handle; intros E; repeat case_match; simplify_eq/=;
    split_and!; try done; try lia. all: try (intros ?; first [by left|by right|left; lia]).
Qed.

(** The stage of a call is the furthest any call has come. *)
Lemma stage_reached s j c k :
  life_inv s -> calls s !! j = Some c -> 0 < stage c -> reached k (calls s) -> 0 < k -> k <= stage c.
Proof.
  intros HI Hj Hc (j' & c' & Hj' & Hk) H0.
  assert (j = j') as <- by (eapply (li_one _ HI); [exact Hj|exact Hj'|done|lia]). by simplify_eq.
Qed.

Lemma call_step_flags s j c h s' c' k :
  life_inv s -> calls s !! j = Some c -> call_step s c h = Some (s', c') -> k ∈ flagged ->
  flag k s' = true <-> flag k s = true \/ k <= stage c'.
Proof.
  intros HI Hj E Hk.
  assert (Hup : k <= stage c -> flag k s = true).
  { intros Hs. apply (li_flag _ HI k Hk). by exists j, c. }
  assert (Hdown : 0 < stage c -> flag k s = true -> k <= stage c).
  { intros Hs Hf. eapply stage_reached; [done..|by apply (li_flag _ HI k Hk)|].
    unfold flagged in Hk. decompose_list_elem_of; lia. }
  unfold flagged in Hk. destruct s, c as [| | | | | | | | | | |[|i0 js]| | |], h; cbn in E; unfold spawn_loop, push_handle in E; repeat case_match;
    simplify_eq/=; decompose_list_elem_of; subst; cbn in *; try intuition lia; try naive_solver lia.
  all: split; [by left|]; intros _; apply Hup; lia.
Qed.

Lemma call_step_hands s c h s' c' i :
  call_step s c h = Some (s', c') ->
  (i ∈ threads s \/ i ∈ holds c ->
    (i ∈ threads s' \/ i ∈ holds c') \/ loops s !! i = Some Ended) /\
  (i ∈ threads s' \/ i ∈ holds c' ->
    (i ∈ threads s \/ i ∈ holds c) \/ i < length (loops s')) /\
  (loops s' = loops s \/ exists l, loops s' = loops s ++ [l] /\ length (loops s) ∈ holds c').
Proof.
  destruct s, c as [| | | | | | | | | | |[|n js]| | |], h; cbn; unfold spawn_loop, push_handle; intros E; repeat case_match; simplify_eq/=;
    split_and!; rewrite ?length_app; cbn; try set_solver by lia; try (right; eexists; set_solver).
Qed.

(** ** The invariant *)

Lemma not_reached_nil k : ~ reached k [].
Proof. by intros (j & c & Hj & _). Qed.

Lemma built_inv : life_inv built.
Proof.
  split; cbn.
  - by intros j j' c c' H.
  - intros k Hk. split; [|by intros ?%not_reached_nil].
    unfold flagged in Hk. by decompose_list_elem_of; subst.
  - by intros ?%not_reached_nil.
  - by intros i l H.
  - intros i [H|(j & c & H & _)]; [by apply not_elem_of_nil in H|done].
Qed.

Lemma make_inv s c : life_inv s -> entry c = true -> life_inv (set_calls (calls s ++ [c]) s).
Proof.
  intros [H1 H2 H3 H4 H5] [Hst Hh]%entry_call.
  assert (Hone : forall j d, (calls s ++ [c]) !! j = Some d -> 0 < stage d -> calls s !! j = Some d).
  { intros j d [?|[_ Hd]]%lookup_app_Some Hs; [done|].
    apply list_lookup_singleton_Some in Hd as [_ <-]. lia. }
  assert (Hhand : forall i, in_hand (set_calls (calls s ++ [c]) s) i <-> in_hand s i).
  { intros i. unfold in_hand. cbn. split; (intros [?|(j & d & Hd & Hi)]; [by left|right; exists j, d]).
    - apply lookup_app_Some in Hd as [?|[_ Hd]]; [done|].
      apply list_lookup_singleton_Some in Hd as [_ <-]. rewrite Hh in Hi. by apply not_elem_of_nil in Hi.
    - split; [by apply lookup_app_l_Some|done]. }
  split; cbn.
  - intros j j' d d' Hd Hd' Hs Hs'. by apply (H1 j j' d d'); [apply Hone..| |].
  - intros k Hk. rewrite reached_snoc by (done || unfold flagged in Hk; decompose_list_elem_of; lia).
    rewrite <- H2 by done. unfold flagged in Hk. by decompose_list_elem_of; subst.
  - rewrite reached_snoc by (done || lia). done.
  - intros i l Hi. rewrite Hhand. by apply H4.
  - intros i. rewrite Hhand. apply H5.
Qed.

Lemma in_hand_insert s s' j c c' i :
  calls s !! j = Some c ->
  in_hand (set_calls (<[j := c']> (calls s)) s') i <->
  (i ∈ threads s' \/ i ∈ holds c') \/ exists k d, k <> j /\ calls s !! k = Some d /\ i ∈ holds d.
Proof.
  intros Hj. unfold in_hand. cbn [threads calls set_calls]. split.
  - intros [Hi|(k & d & Hd & Hi)]; [by left; left|].
    apply list_lookup_insert_Some in Hd as [(<- & <- & _)|[Hne Hd]]; [by left; right|].
    right. exists k, d. by split_and!.
  - intros [[Hi|Hi]|(k & d & Hne & Hd & Hi)]; [by left|right..].
    + exists j, c'. split; [|done]. by apply list_lookup_insert_eq, (lookup_lt_Some _ _ _ Hj).
    + exists k, d. split; [|done]. by rewrite list_lookup_insert_ne.
Qed.

Lemma in_hand_split s j c i :
  calls s !! j = Some c ->
  in_hand s i <-> (i ∈ threads s \/ i ∈ holds c) \/
    exists k d, k <> j /\ calls s !! k = Some d /\ i ∈ holds d.
Proof.
  intros Hj. split.
  - intros [?|(k & d & Hd & Hi)]; [by left; left|].
    destruct (decide (k = j)) as [->|Hne]; [simplify_eq; by left; right|].
    right. exists k, d. by split_and!.
  - intros [[?|?]|(k & d & _ & Hd & Hi)]; [by left|right; by exists j, c|right; by exists k, d].
Qed.

(** [close] returns from its last join only. *)
Lemma call_step_joined s j c h s' c' :
  life_inv s -> calls s !! j = Some c -> call_step s c h = Some (s', c') -> 8 <= stage c' ->
  broker_ended s = true.
Proof.
  intros HI Hj E Hc'.
  assert (Hno : c = CloseTakeBroker -> broker_handle s = false -> False).
  { intros -> Hb. enough (7 <= stage CloseTakeBroker) by (cbn in *; lia).
    apply (stage_reached s j); [done..|cbn; lia| |lia].
    apply (li_flag _ HI); [by do 4 right; left|]. cbn. by rewrite Hb. }
  destruct c as [| | | | | | | | | | |[|i0 js]| | |], h; cbn in E; unfold spawn_loop, push_handle in E;
    repeat case_match; simplify_eq/=; try lia; try done.
  by destruct Hno.
Qed.

Lemma call_inv s j c h s' c' :
  life_inv s -> calls s !! j = Some c -> call_step s c h = Some (s', c') ->
  life_inv (set_calls (<[j := c']> (calls s')) s').
Proof.
  intros HI Hj E. pose proof HI as [H1 H2 H3 H4 H5].
  destruct (call_step_stage _ _ _ _ _ E) as (Ecalls & Ebroker & Hle & Hnew).
  split; cbn [calls set_calls loops threads broker_ended]; rewrite ?Ecalls.
  - assert (Hfirst : forall k d, k <> j -> calls s !! k = Some d -> 0 < stage d -> 0 < stage c' -> False).
    { intros k d Hne Hd Hsd Hsc. apply Hnew in Hsc as [Hsc|Hcl].
      - by apply Hne, (H1 k j d c).
      - enough (closed s = true) by congruence. apply (H2 1); [by left|]. exists k, d. split; [done|lia]. }
    intros k k' d d' Hd Hd' Hs Hs'.
    apply list_lookup_insert_Some in Hd as [(<- & <- & _)|[Hne Hd]];
      apply list_lookup_insert_Some in Hd' as [(<- & <- & _)|[Hne' Hd']]; [done|..].
    + exfalso. by apply (Hfirst k' d').
    + exfalso. by apply (Hfirst k d).
    + by apply (H1 k k' d d').
  - intros k Hk. rewrite (reached_insert k _ _ c) by done. rewrite <- H2 by done.
    rewrite <- (call_step_flags s j c h s' c' k) by done.
    unfold flagged in Hk. by decompose_list_elem_of; subst.
  - rewrite (reached_insert 8 _ _ c), Ebroker by done. intros [Hr|Hr]; [by apply H3|].
    by eapply call_step_joined.
  - intros i l Hi. destruct (call_step_hands _ _ _ _ _ i E) as (Hto & _ & Hl).
    destruct Hl as [Hl|(l0 & Hl & Hl0)]; rewrite Hl in Hi.
    2: apply lookup_app_Some in Hi as [Hi|[Hlen Hi]].
    3: { right. apply list_lookup_singleton_Some in Hi as [Hi _].
         replace i with (length (loops s)) by lia. apply (in_hand_insert s _ _ c); [done|]. by left; right. }
    all: destruct (H4 i l Hi) as [->|Hin]; [by left|].
    all: rewrite (in_hand_split s j c) in Hin by done; destruct Hin as [[Hin|Hin]%Hto|Hin].
    all: try (right; apply (in_hand_insert s _ _ c); [done|]; tauto).
    all: left; congruence.
  - intros i Hi. destruct (call_step_hands _ _ _ _ _ i E) as (_ & Hfrom & Hl).
    assert (Hlen : length (loops s) <= length (loops s')).
    { destruct Hl as [->|(l0 & -> & _)]; rewrite ?length_app; lia. }
    rewrite (in_hand_insert s s' j c) in Hi by done. destruct Hi as [[Hi|Hi]%Hfrom|Hi].
    + enough (i < length (loops s)) by lia. apply H5, (in_hand_split s j c); [done|]. by left.
    + done.
    + enough (i < length (loops s)) by lia. apply H5, (in_hand_split s j c); [done|]. by right.
Qed.

Lemma loop_inv s i l l' : life_inv s -> loops s !! i = Some l -> l <> Ended ->
  life_inv (set_loops (<[i := l']> (loops s)) s).
Proof.
  intros [H1 H2 H3 H4 H5] Hi Hl. split; cbn; [done| |done|..].
  - intros k Hk. rewrite <- H2 by done. unfold flagged in Hk. by decompose_list_elem_of; subst.
  - intros k m [(<- & <- & _)|[_ Hk]]%list_lookup_insert_Some; [|by apply (H4 k m)].
    right. by destruct (H4 i l Hi) as [->|].
  - intros k Hk. rewrite length_insert. by apply H5.
Qed.

Lemma broker_inv s : life_inv s -> life_inv (set_broker_ended s).
Proof.
  intros [H1 H2 H3 H4 H5]. split; cbn; [done| |done..].
  intros k Hk. rewrite <- H2 by done. unfold flagged in Hk. by decompose_list_elem_of; subst.
Qed.

Lemma loop_step_not_ended f l h l' : loop_step f l h = Some l' -> l <> Ended.
Proof. by intros E ->. Qed.

Lemma life_step_inv s e s' : life_inv s -> life_step s e = Some s' -> life_inv s'.
Proof.
  intros HI E. destruct e as [c|i h|j h|]; cbn in E.
  - destruct (entry c) eqn:Ec; simplify_eq. by apply make_inv.
  - destruct (loops s !! i) as [l|] eqn:Hi; [|done]. cbn in E.
    destruct (loop_step (shutdown s) l h) as [l'|] eqn:El; simplify_eq/=.
    eapply loop_inv; [done..|]. by eapply loop_step_not_ended.
  - destruct (calls s !! j) as [c|] eqn:Hj; [|done]. cbn in E.
    destruct (call_step s c h) as [[s1 c']|] eqn:Ec; simplify_eq/=. by eapply call_inv.
  - destruct (_ && _); simplify_eq. by apply broker_inv.
Qed.

Lemma life_run_inv es : forall s s', life_inv s -> life_run s es = Some s' -> life_inv s'.
Proof.
  induction es as [|e es IH]; intros s s' HI E; cbn in E; [by simplify_eq|].
  destruct (life_step s e) as [s1|] eqn:E1; [|done]. cbn in E.
  eapply IH; [|exact E]. by eapply life_step_inv.
Qed.

Lemma life_reachable_inv s : reachable s -> life_inv s.
Proof. intros [es E]. by eapply life_run_inv; [apply built_inv|]. Qed.

(** ** What [close] joins *)

(** A loop that [close] will join, is joining, or that has ended. *)
Definition accounted (i : nat) (s : Life) : Prop :=
  (i ∈ threads s /\ ~ reached 5 (calls s)) \/
  (exists j l, calls s !! j = Some (CloseJoin l) /\ i ∈ l) \/
  loops s !! i = Some Ended.

Lemma call_step_loops s c h s' c' i l :
  call_step s c h = Some (s', c') -> loops s !! i = Some l -> loops s' !! i = Some l.
Proof.
  intros E Hi. destruct (call_step_hands _ _ _ _ _ i E) as (_ & _ & [->|(l0 & -> & _)]); [done|].
  by apply lookup_app_l_Some.
Qed.

(** Only [CloseTake] takes handles out of the vector. *)
Lemma call_step_threads s c h s' c' i :
  call_step s c h = Some (s', c') -> i ∈ threads s ->
  (c = CloseTake /\ c' = CloseJoin (threads s)) \/ i ∈ threads s'.
Proof.
  destruct s, c as [| | | | | | | | | | |[|i0 js]| | |], h; cbn; unfold spawn_loop, push_handle; intros E Hi;
    repeat case_match; simplify_eq/=; try (by right); [|by left].
  right. apply elem_of_app. by left.
Qed.

Lemma call_step_joining s l h s' c' i :
  call_step s (CloseJoin l) h = Some (s', c') -> i ∈ l ->
  loops s !! i = Some Ended \/ exists l', c' = CloseJoin l' /\ i ∈ l'.
Proof.
  destruct l as [|i0 l], h; cbn; intros E Hi; repeat case_match; simplify_eq/=;
    [by apply not_elem_of_nil in Hi|].
  apply elem_of_cons in Hi as [->|Hi]; [by left|right]. by eexists.
Qed.

Lemma reach_join s c h s' c' :
  call_step s c h = Some (s', c') -> 5 <= stage c' -> 5 <= stage c \/ c = CloseTake.
Proof.
  destruct s, c as [| | | | | | | | | | |[|i0 js]| | |], h; cbn; unfold spawn_loop, push_handle; intros E Hs;
    repeat case_match; simplify_eq/=; try lia; by right.
Qed.

Lemma accounted_step s e s' i :
  life_step s e = Some s' -> accounted i s -> accounted i s'.
Proof.
  intros E Ha. destruct e as [c|k h|j h|]; cbn in E.
  - destruct (entry c) eqn:Ec; simplify_eq. apply entry_call in Ec as [Hst _].
    destruct Ha as [[Hi Hn]|[(j & l & Hj & Hi)|Hi]]; [left|right; left|by right; right]; cbn.
    + split; [done|]. by rewrite reached_snoc by (done || lia).
    + exists j, l. split; [|done]. by apply lookup_app_l_Some.
  - destruct (loops s !! k) as [l|] eqn:Hk; [|done]. cbn in E.
    destruct (loop_step (shutdown s) l h) as [l'|] eqn:El; simplify_eq/=.
    destruct Ha as [Hi|[Hi|Hi]]; [by left|by right; left|right; right]. cbn.
    destruct (decide (k = i)) as [->|Hne]; [|by rewrite list_lookup_insert_ne].
    by simplify_eq.
  - destruct (calls s !! j) as [c|] eqn:Hj; [|done]. cbn in E.
    destruct (call_step s c h) as [[s1 c']|] eqn:Ec; simplify_eq/=.
    destruct (call_step_stage _ _ _ _ _ Ec) as (Ecalls & _ & Hle & _).
    assert (Hat : <[j := c']> (calls s) !! j = Some c')
      by by apply list_lookup_insert_eq, (lookup_lt_Some _ _ _ Hj).
    destruct Ha as [[Hi Hn]|[(j' & l & Hj' & Hi)|Hi]].
    + destruct (call_step_threads _ _ _ _ _ i Ec Hi) as [[-> ->]|Hi1].
      { right. left. exists j, (threads s). cbn. by rewrite Ecalls. }
      destruct (decide (c = CloseTake)) as [->|Hct].
      { destruct h; simplify_eq/=. by apply not_elem_of_nil in Hi1. }
      left. split; [done|]. cbn. rewrite Ecalls, (reached_insert 5 _ _ c) by done.
      intros [?|Hs]; [done|]. apply (reach_join _ _ _ _ _ Ec) in Hs as [Hs|?]; [|done].
      apply Hn. by exists j, c.
    + destruct (decide (j' = j)) as [->|Hne].
      * simplify_eq. destruct (call_step_joining _ _ _ _ _ i Ec Hi) as [Hend|(l' & -> & Hi')].
        -- right. right. exact (call_step_loops _ _ _ _ _ i Ended Ec Hend).
        -- right. left. exists j, l'. cbn. by rewrite Ecalls.
      * right. left. exists j', l. cbn. rewrite Ecalls. by rewrite list_lookup_insert_ne.
    + right. right. exact (call_step_loops _ _ _ _ _ i Ended Ec Hi).
  - destruct (_ && _); simplify_eq. done.
Qed.

Lemma accounted_run es : forall s s' i, life_run s es = Some s' -> accounted i s -> accounted i s'.
Proof.
  induction es as [|e es IH]; intros s s' i E Ha; cbn in E; [by simplify_eq|].
  destruct (life_step s e) as [s1|] eqn:E1; [|done]. cbn in E.
  eapply IH; [exact E|]. by eapply accounted_step.
Qed.

(** C14: [close] ends what was started before it.  When the call of [close] that
    closes the socket returns, the broker thread has ended, and so has every
    loop whose [bind] or [connect] had handed its handle over before [close]
    came to take them, at whatever points the calls, the loops and further
    calls of [close] were interleaved. *)
Theorem close_joins_loops s es s' i j :
  reachable s -> i ∈ threads s -> ~ reached 5 (calls s) ->
  life_run s es = Some s' -> calls s' !! j = Some (Returned ClosedNow) ->
  loops s' !! i = Some Ended /\ broker_ended s' = true.
Proof.
  intros Hr Hi Hn E Hj.
  pose proof (life_run_inv _ _ _ (life_reachable_inv _ Hr) E) as HI.
  assert (H8 : reached 8 (calls s')) by (exists j, (Returned ClosedNow); split; [done|cbn; lia]).
  split; [|by apply HI].
  assert (Ha : accounted i s) by by left.
  destruct (accounted_run _ _ _ _ E Ha) as [[_ H5]|[(k & l & Hk & _)|Hend]]; [|exfalso|done].
  - destruct H5. exists j, (Returned ClosedNow). split; [done|cbn; lia].
  - assert (j = k) as -> by (eapply (li_one _ HI); [exact Hj|exact Hk|cbn; lia..]). congruence.
Qed.

(** ** Everything ends once the flag is up *)

Definition loop_rank (l : loop) : nat :=
  match l with
  | AcceptTop n => n + 2 | AcceptCall n => n + 4 | AcceptJoin n => n + 1
  | ConnectTop => 1 | ConnectDial => 3 | ConnectSession => 2 | ConnectAgain => 1 | ConnectSleep => 2
  | Ended => 0
  end.

Definition call_rank (c : call) : nat :=
  match c with
  | ConnectCheck => 6 | ConnectResolve => 5 | ConnectSpawn => 4 | BindListen => 6 | BindSpawn => 5
  | Handing _ => 2
  | CloseSwap => 8 | CloseFlag => 7 | CloseSend => 6 | CloseShut => 5 | CloseTake => 4
  | CloseJoin l => 3 + length l | CloseTakeBroker => 2 | CloseJoinBroker => 1
  | Returned _ => 0
  end.

Definition life_work (s : Life) : nat :=
  sum_list_with loop_rank (loops s) + sum_list_with call_rank (calls s) + length (threads s) +
  (if broker_ended s then 0 else 1).

(** The events that are not a new call. *)
Definition ongoing (e : event) : Prop := match e with Make _ => False | _ => True end.

Lemma loop_step_rank l h l' : loop_step true l h = Some l' -> loop_rank l' < loop_rank l.
Proof. destruct l as [[|n]|[|n]|[|n]| | | | | |], h; cbn; intros; simplify_eq/=; lia. Qed.

Lemma call_step_work s c h s' c' :
  call_step s c h = Some (s', c') ->
  sum_list_with loop_rank (loops s') + call_rank c' + length (threads s') <
  sum_list_with loop_rank (loops s) + call_rank c + length (threads s).
Proof.
  destruct s, c as [| | | | | | | | | | |[|i0 js]| | |], h; cbn; unfold spawn_loop, push_handle; intros E;
    repeat case_match; simplify_eq/=; rewrite ?sum_list_with_app, ?length_app; cbn; lia.
Qed.

Lemma ongoing_works s e s' :
  shutdown s = true -> ongoing e -> life_step s e = Some s' ->
  life_work s' < life_work s /\ shutdown s' = true.
Proof.
  intros Hs He E. destruct e as [c|i h|j h|]; cbn in E; [done|..]; unfold life_work.
  - destruct (loops s !! i) as [l|] eqn:Hi; [|done]. cbn in E. rewrite Hs in E.
    destruct (loop_step true l h) as [l'|] eqn:El; simplify_eq/=. split; [|done].
    apply loop_step_rank in El. pose proof (sum_list_with_insert loop_rank (loops s) i l l' Hi). lia.
  - destruct (calls s !! j) as [c|] eqn:Hj; [|done]. cbn in E.
    destruct (call_step s c h) as [[s1 c']|] eqn:Ec; simplify_eq/=.
    pose proof (call_step_stage _ _ _ _ _ Ec) as (-> & -> & _).
    pose proof (call_step_work _ _ _ _ _ Ec).
    pose proof (sum_list_with_insert call_rank (calls s) j c c' Hj).
    split; [lia|]. clear -Ec Hs.
    destruct s, c as [| | | | | | | | | | |[|i0 js]| | |], h; cbn in *; unfold spawn_loop, push_handle in *;
      repeat case_match; by simplify_eq/=.
  - destruct (close_sent s), (broker_ended s) eqn:Eb; simplify_eq/=. split; [lia|done].
Qed.

Lemma ongoing_bounded es : forall s s',
  shutdown s = true -> Forall ongoing es -> life_run s es = Some s' ->
  length es + life_work s' <= life_work s.
Proof.
  induction es as [|e es IH]; intros s s' Hs Hes E; cbn in E; [simplify_eq; cbn; lia|].
  apply Forall_cons in Hes as [He Hes].
  destruct (life_step s e) as [s1|] eqn:E1; [|done]. cbn in E.
  destruct (ongoing_works _ _ _ Hs He E1) as [Hw Hs1].
  pose proof (IH _ _ Hs1 Hes E). cbn. lia.
Qed.

(** A loop that has not ended can go on. *)
Lemma loop_goes_on f l : l <> Ended -> exists h l', loop_step f l h = Some l'.
Proof.
  intros Hl. destruct l as [[|n]|[|n]|[|n]| | | | | |]; try done.
  all: first [exists Works; eexists; reflexivity|exists HandlerEnds; eexists; reflexivity].
Qed.

(** A call that cannot go on has returned, or waits for the broker. *)
Lemma stuck_returned s j c :
  life_inv s -> Forall (fun l => l = Ended) (loops s) -> calls s !! j = Some c ->
  call_step s c Works = None -> c <> CloseJoinBroker -> exists o, c = Returned o.
Proof.
  intros HI Hloops Hj Hc Hne.
  destruct c as [| | | | | | | | | | |[|i js]| | |o]; try (by cbn in Hc); [|by exists o].
  assert (Hlt : i < length (loops s)) by (apply HI; right; eexists j, _; split; [done|by left]).
  apply lookup_lt_is_Some in Hlt as [m Hi].
  assert (m = Ended) as -> by by apply (Forall_lookup_1 _ _ _ _ Hloops Hi).
  cbn in Hc. by rewrite Hi in Hc.
Qed.

(** C13: [close] returns and everything ends.  Once the shutdown flag is up, the
    loops, the pending calls and the broker take at most as many steps as their
    state allows, in whatever order, unless new calls are made; and they can
    stop only when every call has returned, the broker has ended and every loop
    has: no call of [close] is left waiting for a thread, and the loops nobody
    joins end as well. *)
Theorem closing_ends_everything s :
  reachable s -> shutdown s = true ->
  (forall es s', Forall ongoing es -> life_run s es = Some s' -> length es <= life_work s) /\
  ((forall e, ongoing e -> life_step s e = None) ->
   Forall (fun l => l = Ended) (loops s) /\ broker_ended s = true /\
   Forall (fun c => exists o, c = Returned o) (calls s)).
Proof.
  intros Hr%life_reachable_inv Hs. split.
  { intros es s' Hes E. pose proof (ongoing_bounded _ _ _ Hs Hes E). lia. }
  intros Hstuck.
  assert (Hloops : Forall (fun l => l = Ended) (loops s)).
  { apply Forall_lookup. intros i l Hi. destruct (decide (l = Ended)) as [|Hl]; [done|exfalso].
    destruct (loop_goes_on (shutdown s) l Hl) as (h & l' & El).
    specialize (Hstuck (LoopStep i h) I). cbn in Hstuck. rewrite Hi in Hstuck. cbn in Hstuck.
    by rewrite El in Hstuck. }
  assert (Hcall : forall j c h, calls s !! j = Some c -> call_step s c h = None).
  { intros j c h Hj. specialize (Hstuck (CallStep j h) I). cbn in Hstuck. rewrite Hj in Hstuck.
    cbn in Hstuck. by destruct (call_step s c h) as [[]|]. }
  assert (Hbroker : broker_ended s = true).
  { destruct (broker_ended s) eqn:Eb; [done|exfalso].
    apply (li_flag _ Hr 2) in Hs as (j & c & Hj & Hc); [|by right; left].
    destruct (decide (c = CloseJoinBroker)) as [->|Hne].
    - assert (Hsent : close_sent s = true)
        by (apply (li_flag _ Hr 3); [by do 2 right; left|]; exists j, CloseJoinBroker; split; [done|cbn; lia]).
      specialize (Hstuck BrokerEnds I). cbn in Hstuck. by rewrite Hsent, Eb in Hstuck.
    - destruct (stuck_returned s j c) as [o ->]; [eauto..|]. destruct o; cbn in Hc; try lia.
      enough (broker_ended s = true) by congruence. apply Hr. exists j, (Returned ClosedNow). split; [done|cbn; lia]. }
  split_and!; [done|done|]. apply Forall_lookup. intros j c Hj.
  destruct (decide (c = CloseJoinBroker)) as [->|Hne]; [exfalso|by eapply stuck_returned; eauto].
  specialize (Hcall j _ Works Hj). cbn in Hcall. by rewrite Hbroker in Hcall.
Qed.

(** ** Runs *)

(** A [connect] that has returned, and a [bind] too. *)
Definition up_events : list event :=
  [Make ConnectCheck; CallStep 0 Works; CallStep 0 Works; CallStep 0 Works; LoopStep 0 Works;
   CallStep 0 Works; Make BindListen; CallStep 1 Works; CallStep 1 Works; CallStep 1 Works].
Definition up_state : Life := default built (life_run built up_events).

(** [close] to its join, with a session under way in the connect loop. *)
Definition flag_events : list event :=
  [LoopStep 0 Works; LoopStep 1 Works; Make CloseSwap; CallStep 2 Works; CallStep 2 Works].
Definition closing_state : Life := default built (life_run up_state flag_events).
Definition close_events : list event :=
  flag_events ++
  [CallStep 2 Works; CallStep 2 Works; CallStep 2 Works; BrokerEnds;
   LoopStep 0 Works; LoopStep 0 Works; LoopStep 1 Works; LoopStep 1 Works; LoopStep 1 HandlerEnds;
   LoopStep 1 Works] ++ replicate 5 (CallStep 2 Works).
Definition closed_state : Life := default built (life_run up_state close_events).

Lemma close_joins_loops_witness :
  threads up_state = [0; 1] /\ loops closed_state !! 0 = Some Ended /\ broker_ended closed_state = true.
Proof.
  split; [reflexivity|].
  apply (close_joins_loops up_state close_events closed_state 0 2).
  - exists up_events. vm_compute. reflexivity.
  - apply (bool_decide_unpack _). vm_compute. exact I.
  - intros ([|[|j]] & c & Hj & Hc); vm_compute in Hj; simplify_eq; cbn in Hc; lia.
  - vm_compute. reflexivity.
  - vm_compute. reflexivity.
Defined.

Lemma closing_ends_everything_witness :
  shutdown closing_state = true /\ loops closing_state = [ConnectSession; AcceptCall 0] /\
  forall es s', Forall ongoing es -> life_run closing_state es = Some s' -> length es <= life_work closing_state.
Proof.
  split; [reflexivity|]. split; [reflexivity|].
  apply (closing_ends_everything closing_state).
  - exists (up_events ++ flag_events). vm_compute. reflexivity.
  - vm_compute. reflexivity.
Defined.

(** A [connect] that overlaps [close]: it has looked at [closed] before the
    swap and spawns its loop before the flag is up, and its handle comes to the
    vector after [close] has emptied it.  [close] has returned, the [connect]
    reports success, and the loop, which nobody joins any more, makes a
    connection. *)
Definition late_events : list event :=
  [Make ConnectCheck; CallStep 0 Works; CallStep 0 Works; Make CloseSwap; CallStep 1 Works;
   CallStep 0 Works; LoopStep 0 Works] ++ replicate 5 (CallStep 1 Works) ++
  [BrokerEnds; CallStep 1 Works; CallStep 1 Works; CallStep 0 Works; LoopStep 0 Works].

Theorem late_loop_outlives_close :
  exists s, reachable s /\ calls s = [Returned RetOk; Returned ClosedNow] /\
    loops s = [ConnectSession] /\ threads s = [0] /\ broker_ended s = true.
Proof.
  exists (default built (life_run built late_events)).
  split; [exists late_events; vm_compute; reflexivity|]. by vm_compute.
Qed.

(** A second [close] returns at once, while the first has not yet raised the
    flag. *)
Example second_close_does_not_wait :
  (fun s => (calls s, shutdown s)) <$>
    life_run built [Make CloseSwap; CallStep 0 Works; Make CloseSwap; CallStep 1 Works]
  = Some ([CloseFlag; Returned AlreadyClosed], false).
Proof. reflexivity. Qed.
