(* ===== verification/Agent.v ===== *)
(** * Agent: the conformance agents

    Models [rust-lib-sync/examples/conformance_agent.rs] and
    [rust-lib-async/examples/conformance_agent.rs], the programs the
    conformance suite pairs with those of the other languages: the command line
    and the three behaviours, over the sockets of [Socket] and [SocketAsync].
    Strings are their bytes.  Of the pause of [--linger] there is whether
    [Duration::from_secs_f64] accepts it, not the time it takes; how the TLS
    configurations are read from files is in [TlsConfig]. *)

From S2P Require Import Prelude Io Protocol Timers Broker BrokerProps Conn Loops LoopsAsync Socket.
From S2P Require Import SocketAsync EndToEnd TlsConfig.
From Stdlib Require Import Strings.Byte.
From stdpp Require Import pretty.

(** ** The command line *)

Definition dashes : bytes := str_bytes "--".

(** [str::strip_prefix]. *)
Definition strip_prefix (s p : bytes) : option bytes :=
  if decide (take (length p) s = p) then Some (drop (length p) s) else None.

(** The loop of [parse_args]: a key takes the next argument, whatever it is. *)
Fixpoint parse_loop (it : list bytes) (map : gmap bytes bytes) : gmap bytes bytes :=
  match it with
  | [] => map
  | key :: it =>
    match strip_prefix key dashes with
    | Some name =>
      match it with
      | value :: it => parse_loop it (<[name := value]> map)
      | [] => map
      end
    | None => parse_loop it map
    end
  end.

Definition parse_args (argv : list bytes) : gmap bytes bytes := parse_loop (drop 1 argv) ∅.

Definition arg (args : gmap bytes bytes) (key : string) (default : string) : bytes :=
  match args !! str_bytes key with Some v => v | None => str_bytes default end.

(** [u16::from_str] and [usize::from_str]: decimal digits, a leading plus
    allowed, nothing that does not fit. *)
Definition digit (b : byte) : option Z :=
  let z := Z_of_byte b in if decide (48 <= z <= 57)%Z then Some (z - 48)%Z else None.

Fixpoint digits (radix : byte -> option Z) (base limit : Z) (s : bytes) (acc : Z) : option Z :=
  match s with
  | [] => Some acc
  | b :: s =>
    d ← radix b;
    let acc := (acc * base + d)%Z in
    if decide (limit <= acc)%Z then None else digits radix base limit s acc
  end.

Definition from_str_radix (radix : byte -> option Z) (base limit : Z) (s : bytes) : option Z :=
  match s with
  | [] => None
  | b :: rest =>
    if decide (b = x2b) then match rest with [] => None | _ => digits radix base limit rest 0 end
    else digits radix base limit s 0
  end.

Definition parse_u16 (s : bytes) : option Z := from_str_radix digit 10 (2 ^ 16) s.
Definition parse_usize (s : bytes) : option Z := from_str_radix digit 10 (2 ^ 64) s.

Definition hex_digit (b : byte) : option Z :=
  let z := Z_of_byte b in
  if decide (48 <= z <= 57)%Z then Some (z - 48)%Z
  else if decide (97 <= z <= 102)%Z then Some (z - 87)%Z
  else if decide (65 <= z <= 70)%Z then Some (z - 55)%Z
  else None.

(** [hex.get(i * 2..i * 2 + 2)]: in range.  A range that cuts a character, too,
    has no value in the source; here it has bytes that are no digits, and both
    leave a zero. *)
Definition get2 (hex : bytes) (i : nat) : option bytes :=
  if decide (i * 2 + 2 <= length hex) then Some (take 2 (drop (i * 2) hex)) else None.

Definition parse_identity (hex : bytes) : Identity :=
  (fun i =>
    match get2 hex i with
    | Some byte => byte_of_Z (default 0%Z (from_str_radix hex_digit 16 (2 ^ 8) byte))
    | None => x00
    end) <$> seq 0 16.

(** ** The pause *)

(** What [f64::from_str] reads: a sign, and digits and an exponent of ten that
    it rounds to the nearest double. *)
Inductive f64 :=
| NaN
| Infinite (negative : bool)
| Decimal (negative : bool) (m : Z) (e : Z).

#[export] Instance f64_eq_dec : EqDecision f64.
Proof. solve_decision. Defined.

Definition one : f64 := Decimal false 10 (-1).

(** The digits at the head of [s] behind those in [acc], and how many. *)
Fixpoint take_digits (s : bytes) (acc : Z) (n : Z) : Z * Z * bytes :=
  match s with
  | [] => (acc, n, [])
  | b :: rest =>
    match digit b with
    | Some d => take_digits rest (acc * 10 + d)%Z (n + 1)%Z
    | None => (acc, n, s)
    end
  end.

(** The exponent's digits; the standard library stops counting well before an
    overflow. *)
Fixpoint exponent_digits (s : bytes) (acc : Z) : option Z :=
  match s with
  | [] => Some acc
  | b :: s =>
    d ← digit b;
    exponent_digits s (if decide (acc < 65536)%Z then acc * 10 + d else acc)%Z
  end.

Definition parse_scientific (s : bytes) : option Z :=
  let '(negative, s) :=
    match s with x2d :: s => (true, s) | x2b :: s => (false, s) | _ => (false, s) end in
  match s with
  | [] => None
  | _ => e ← exponent_digits s 0; Some (if negative : bool then - e else e)%Z
  end.

Definition parse_number (negative : bool) (s : bytes) : option f64 :=
  let '(m, n1, s) := take_digits s 0 0 in
  let '(m, n2, s) := match s with x2e :: s => take_digits s m 0 | _ => (m, 0%Z, s) end in
  if decide (n1 + n2 = 0)%Z then None
  else
    match s with
    | [] => Some (Decimal negative m (- n2))
    | b :: s =>
      if decide (b = x65 \/ b = x45) then
        e ← parse_scientific s; Some (Decimal negative m (e - n2))
      else None
    end.

Definition to_lower (b : byte) : byte :=
  let z := Z_of_byte b in if decide (65 <= z <= 90)%Z then byte_of_Z (z + 32) else b.

Definition parse_inf_nan (negative : bool) (s : bytes) : option f64 :=
  let s := to_lower <$> s in
  if decide (s = str_bytes "nan") then Some NaN
  else if decide (s = str_bytes "inf" \/ s = str_bytes "infinity") then Some (Infinite negative)
  else None.

Definition parse_f64 (s : bytes) : option f64 :=
  let '(negative, s) :=
    match s with x2d :: s => (true, s) | x2b :: s => (false, s) | _ => (false, s) end in
  match parse_number negative s with
  | Some x => Some x
  | None => parse_inf_nan negative s
  end.

(** [Duration::from_secs_f64] panics on what is not finite, on what is negative
    once it is rounded (anything beyond half of the smallest double), and on what
    is rounded to [2 ^ 64] seconds or more. *)
Definition usable (x : f64) : bool :=
  match x with
  | NaN | Infinite _ => false
  | Decimal true m e =>
    if decide (0 <= e)%Z then bool_decide (m = 0)%Z
    else bool_decide (m * 2 ^ 1075 <= 10 ^ (- e))%Z
  | Decimal false m e =>
    if decide (0 <= e)%Z then bool_decide (m * 10 ^ e < 2 ^ 64 - 2 ^ 10)%Z
    else bool_decide (m < (2 ^ 64 - 2 ^ 10) * 10 ^ (- e))%Z
  end.

Definition from_secs_f64 (x : f64) : outcome () := if usable x then Returns tt else Panics.

Example usable_some :
  (fun s => usable <$> parse_f64 (str_bytes s)) <$>
    ["1.0"; "0"; "-0"; "-1"; ".5e3"; "NaN"; "-iNf"; "1e30"; "18446744073709550592"; "18446744073709550591.9";
     "1e"; "-"; "."]%string =
  [Some true; Some true; Some true; Some false; Some true; Some false; Some false; Some false; Some false;
   Some true; None; None; None].
Proof. vm_compute. reflexivity. Qed.

(** ** Configuration *)

Record config := mkConfig {
  role : bytes;
  host : bytes;
  port : Z;
  behavior : bytes;
  count : nat;
  prefix : bytes;
  linger : f64;
  tls : bool;
  cfg_mode : SendMode;
  cfg_delivery : DeliveryGuarantee;
  cfg_identity : option Identity;
}.

Definition configure (args : gmap bytes bytes) : config :=
  mkConfig (arg args "role" "connect") (arg args "host" "127.0.0.1")
    (default 25000%Z (parse_u16 (arg args "port" "25000")))
    (arg args "behavior" "sink") (Z.to_nat (default 10%Z (parse_usize (arg args "count" "10"))))
    (arg args "prefix" "m") (default one (parse_f64 (arg args "linger" "1.0"))) (bool_decide (arg args "tls" "false" = str_bytes "true"))
    (if decide (arg args "send-mode" "roundrobin" = str_bytes "publish") then Publish else RoundRobin)
    (if decide (arg args "delivery" "at-most-once" = str_bytes "at-least-once") then AtLeastOnce
     else AtMostOnce)
    (parse_identity <$> args !! str_bytes "identity").

Definition agent_builder (cfg : config) : SocketBuilder :=
  let b := set_delivery_guarantee (set_send_mode builder (cfg_mode cfg)) (cfg_delivery cfg) in
  match cfg_identity cfg with Some id => set_identity b id | None => b end.

(** [format!("{prefix}{i}")]. *)
Definition message (prefix : bytes) (i : nat) : bytes := prefix ++ str_bytes (pretty i).

(** [format!("{host}:{port}")]. *)
Definition address (cfg : config) : bytes := host cfg ++ str_bytes ":" ++ str_bytes (pretty (port cfg)).

(** ** The synchronous agent *)

Section Agent.
Context {Listener SocketAddr Stream ServerConfig ClientConfig ServerName : Type}.
Context {File Cert Key ServerBuilder ClientBuilder Roots : Type}.
Context `{!Rustls File Cert Key ServerBuilder ClientBuilder Roots ServerConfig ClientConfig}.
Abbreviation Inner := (Socket.Inner Listener SocketAddr Stream ServerConfig ClientConfig ServerName).
Implicit Type s : Inner.

(** [for i in 0..count { let _ = sock.send(format!("{prefix}{i}")); }], from
    [i] on. *)
Fixpoint source (n i : nat) (prefix : bytes) s : Inner :=
  match n with
  | O => s
  | S n => source n (S i) prefix (send s (message prefix i)).1
  end.

Fixpoint echo (n : nat) s : Inner :=
  match n with
  | O => s
  | S n =>
    match recv_identity s with
    | (s, Some (id, msg)) => echo n (send_to s id msg).1
    | (s, None) => echo n s
    end
  end.

(** The result is what was printed. *)
Fixpoint sink (n : nat) s : Inner * bytes :=
  match n with
  | O => (s, [])
  | S n =>
    match recv s with
    | (s, Some msg) => let '(s, out) := sink n s in (s, msg ++ [x0a] ++ out)
    | (s, None) => (s, [])
    end
  end.

Definition behave (cfg : config) s : Inner * bytes :=
  if decide (behavior cfg = str_bytes "source") then (source (count cfg) 0 (prefix cfg) s, [])
  else if decide (behavior cfg = str_bytes "echo") then (echo (count cfg) s, [])
  else sink (count cfg) s.

(** [bind_tls] and [connect_tls] of an agent built without the [tls] feature. *)
Definition without_tls {A} : outcome A := Panics.

(** And with it. *)
Definition agent_bind_tls (feature_tls : bool) (args : gmap bytes bytes) s
    (listen : io_result (Listener * io_result SocketAddr)) : outcome (Inner * Result ()) :=
  if feature_tls then
    config ← server_config (arg args "tls-cert" "") (arg args "tls-key" "");
    let '(s, r) := bind_tls s listen config in
    Returns (s, match r with Good _ => Good tt | Bad e => Bad e end)
  else without_tls.

Definition agent_connect_tls (feature_tls : bool) (args : gmap bytes bytes) s
    (resolve : io_result (list SocketAddr)) (parse_name : bytes -> option ServerName) (host : bytes)
    : outcome (Inner * Result ()) :=
  if feature_tls then
    let name := match args !! str_bytes "tls-server-name" with Some n => n | None => host end in
    config ← client_config (arg args "tls-ca" "");
    Returns (connect_tls parse_name s resolve name config)
  else without_tls.

(** [main]: [None] is the exit with status 1.  [listen] and [resolve] are the
    operating system's answers for an address. *)
Definition main (feature_tls : bool) (args : gmap bytes bytes) (uuid uuid' : bytes)
    (incoming : list delivery_event) (listen : bytes -> io_result (Listener * io_result SocketAddr))
    (resolve : bytes -> io_result (list SocketAddr)) (parse_name : bytes -> option ServerName)
    : outcome (option (Inner * bytes)) :=
  let cfg := configure args in
  let s := (build (agent_builder cfg) uuid uuid' incoming).1 in
  let addr := address cfg in
  '(s, ok) ←
    (if decide (role cfg = str_bytes "bind") then
       if tls cfg then agent_bind_tls feature_tls args s (listen addr)
       else
         let '(s, r) := bind s (listen addr) in
         Returns (s, match r with Good _ => Good tt | Bad e => Bad e end)
     else if tls cfg then agent_connect_tls feature_tls args s (resolve addr) parse_name (host cfg)
     else Returns (connect s (resolve addr)));
  match ok with
  | Bad _ => Returns None
  | Good _ =>
    _ ← from_secs_f64 (linger cfg);
    let '(s, out) := behave cfg s in Returns (Some (close s, out))
  end.
End Agent.

(** ** The asynchronous agent: a failed send ends it *)

Module AsyncAgent.
Section Agent.
Context {Listener SocketAddr Addr TlsAcceptor TlsConnector ServerName : Type}.
Context {File Cert Key ServerBuilder ClientBuilder Roots : Type}.
Context `{!Rustls File Cert Key ServerBuilder ClientBuilder Roots TlsAcceptor TlsConnector}.
Abbreviation Inner := (Async.Inner Listener Addr TlsAcceptor TlsConnector ServerName).
Implicit Type s : Inner.

Definition ended {A} (r : Async.Error + A) : option Async.Error :=
  match r with inl e => Some e | inr _ => None end.

Fixpoint source (n i : nat) (prefix : bytes) s : Inner * option Async.Error :=
  match n with
  | O => (s, None)
  | S n =>
    match Async.send s (message prefix i) with
    | (s, inl e) => (s, Some e)
    | (s, inr _) => source n (S i) prefix s
    end
  end.

Fixpoint echo (n : nat) s : Inner * option Async.Error :=
  match n with
  | O => (s, None)
  | S n =>
    match Async.recv_identity s with
    | (s, Some (id, msg)) =>
      match Async.send_to s id msg with
      | (s, inl e) => (s, Some e)
      | (s, inr _) => echo n s
      end
    | (s, None) => echo n s
    end
  end.

Fixpoint sink (n : nat) s : Inner * bytes :=
  match n with
  | O => (s, [])
  | S n =>
    match Async.recv s with
    | (s, Some msg) => let '(s, out) := sink n s in (s, msg ++ [x0a] ++ out)
    | (s, None) => (s, [])
    end
  end.

(** The pause comes behind the loop of a source or an echo that has not failed. *)
Definition behave (cfg : config) s : outcome (Inner * bytes * option Async.Error) :=
  if decide (behavior cfg = str_bytes "source") then
    match source (count cfg) 0 (prefix cfg) s with
    | (s, Some e) => Returns (s, [], Some e)
    | (s, None) => _ ← from_secs_f64 (linger cfg); Returns (s, [], None)
    end
  else if decide (behavior cfg = str_bytes "echo") then
    match echo (count cfg) s with
    | (s, Some e) => Returns (s, [], Some e)
    | (s, None) => _ ← from_secs_f64 (linger cfg); Returns (s, [], None)
    end
  else let '(s, out) := sink (count cfg) s in Returns (s, out, None).

Definition agent_builder (cfg : config) : Async.SocketBuilder :=
  let b := Async.set_delivery_guarantee (Async.set_send_mode Async.builder (cfg_mode cfg))
    (cfg_delivery cfg) in
  match cfg_identity cfg with Some id => Async.set_identity b id | None => b end.

Definition without_tls {A} : outcome A := Panics.

(** [bind_tls] and [connect_tls], to the error they return. *)
Definition agent_bind_tls (feature_tls : bool) (args : gmap bytes bytes) s
    (listen : io_result (Listener * io_result SocketAddr)) : outcome (Inner * option Async.Error) :=
  if feature_tls then
    cert ← expect (args !! str_bytes "tls-cert");
    key ← expect (args !! str_bytes "tls-key");
    config ← AsyncConfigs.server_config cert key;
    let '(s, r) := Async.bind_tls s listen config in Returns (s, ended r)
  else without_tls.

Definition agent_connect_tls (feature_tls : bool) (args : gmap bytes bytes) s (addr : Addr)
    (parse_name : bytes -> option ServerName) (host : bytes) : outcome (Inner * option Async.Error) :=
  if feature_tls then
    ca ← expect (args !! str_bytes "tls-ca");
    let name := match args !! str_bytes "tls-server-name" with Some n => n | None => host end in
    config ← AsyncConfigs.client_config ca;
    let '(s, r) := Async.connect_tls parse_name s addr name config in Returns (s, ended r)
  else without_tls.

(** [run]; the two configurations of the command line mean the same
    ([configure]).  [parse_addr] is [SocketAddr]'s [parse]. *)
Definition run (feature_tls : bool) (args : gmap bytes bytes) (uuid uuid' : bytes)
    (incoming : list delivery_event) (listen : Addr -> io_result (Listener * io_result SocketAddr))
    (parse_addr : bytes -> option Addr) (parse_name : bytes -> option ServerName)
    : outcome (Async.Error + (Inner * bytes)) :=
  let cfg := configure args in
  let s := (Async.build (agent_builder cfg) uuid uuid' incoming).1 in
  addr ← expect (parse_addr (address cfg));
  '(s, failed) ←
    (if decide (role cfg = str_bytes "bind") then
       if tls cfg then agent_bind_tls feature_tls args s (listen addr)
       else let '(s, r) := Async.bind s (listen addr) in Returns (s, ended r)
     else if tls cfg then agent_connect_tls feature_tls args s addr parse_name (host cfg)
     else let '(s, r) := Async.connect s addr in Returns (s, ended r));
  match failed with
  | Some e => Returns (inl e)
  | None =>
    '(s, out, failed) ← behave cfg s;
    match failed with
    | Some e => Returns (inl e)
    | None => Returns (inr (Async.close s, out))
    end
  end.

(** [main]: [runtime] is what [Runtime::new] gives. *)
Definition main (runtime : io_result ()) feature_tls args uuid uuid' incoming listen parse_addr parse_name
    : outcome (Async.Error + (Inner * bytes)) :=
  match runtime with
  | Err e => Returns (inl (Async.Io e))
  | Ok _ => run feature_tls args uuid uuid' incoming listen parse_addr parse_name
  end.
End Agent.
End AsyncAgent.

(** ** The identity flag *)

Definition hex_char (z : Z) : byte := byte_of_Z (if decide (z < 10)%Z then z + 48 else z + 87)%Z.

(** A byte as two lower-case digits, as the suite writes identities. *)
Definition hex_of (id : bytes) : bytes :=
  mjoin ((fun b => [hex_char (Z_of_byte b / 16)%Z; hex_char (Z_of_byte b mod 16)%Z]) <$> id).

Lemma hex_byte b :
  byte_of_Z (default 0%Z (from_str_radix hex_digit 16 (2 ^ 8)
    [hex_char (Z_of_byte b / 16)%Z; hex_char (Z_of_byte b mod 16)%Z])) = b.
Proof. by destruct b. Qed.

Lemma get2_hex id i b :
  id !! i = Some b ->
  get2 (hex_of id) i = Some [hex_char (Z_of_byte b / 16)%Z; hex_char (Z_of_byte b mod 16)%Z].
Proof.
  assert (Hlen : forall l, length (hex_of l) = length l * 2).
  { induction l as [|x l IH]; [done|]. unfold hex_of in *. csimpl. cbn [length]. by rewrite IH. }
  unfold get2. intros Hi. pose proof (lookup_lt_Some _ _ _ Hi) as Hlt.
  rewrite decide_True by (rewrite Hlen; lia). f_equal. clear Hlt.
  revert i Hi. induction id as [|x id IH]; intros [|i] Hi; simplify_eq/=; [done|].
  exact (IH i Hi).
Qed.

(** The identity flag is read back. The 32 digits that stand for an
    identity give exactly that identity, to the socket of either agent. *)
Theorem identity_flag_roundtrip id args :
  length id = 16 -> args !! str_bytes "identity" = Some (hex_of id) ->
  b_identity (agent_builder (configure args)) = Some id /\
  Async.b_identity (AsyncAgent.agent_builder (configure args)) = Some id.
Proof.
  intros Hlen Ha. unfold agent_builder, AsyncAgent.agent_builder. cbn [configure cfg_identity].
  rewrite Ha. cbn [fmap option_fmap option_map]. enough (parse_identity (hex_of id) = id) as -> by done.
  apply list_eq_same_length with 16; [done|unfold parse_identity; by rewrite length_fmap, length_seq|].
  intros i x y Hi. unfold parse_identity. rewrite list_lookup_fmap, lookup_seq_lt by done. cbn.
  intros Hx Hy. rewrite (get2_hex id i y Hy), hex_byte in Hx. congruence.
Qed.

(** ** The behaviours *)

Section Behaviours.
Context {Listener SocketAddr Stream ServerConfig ClientConfig ServerName : Type}.
Abbreviation Inner := (Socket.Inner Listener SocketAddr Stream ServerConfig ClientConfig ServerName).
Implicit Type s : Inner.

Lemma dispatch_open s to data :
  gone_after (cmd_tx s) = None ->
  dispatch s to data = (with_cmd_tx (mkCmdTx (queued (cmd_tx s) ++ [Send to data]) None) s, Good tt).
Proof. intros Hg. unfold dispatch, cmd_send. by rewrite Hg. Qed.

Lemma source_sends n i prefix : forall s,
  gone_after (cmd_tx s) = None ->
  source n i prefix s =
    with_cmd_tx (mkCmdTx (queued (cmd_tx s) ++
      sends ((fun j => (None, message prefix j)) <$> seq i n)) None) s.
Proof.
  revert i. induction n as [|n IH]; intros i s Hg; cbn [source seq].
  - cbn. rewrite app_nil_r. destruct s as [? ? [q g] ? ? ? ? ? ? ? ?]. cbn in *. by subst.
  - unfold send. rewrite dispatch_open by done. rewrite IH by done. cbn. by rewrite <- app_assoc.
Qed.

Lemma sink_prints n : forall s,
  (sink n s).2 = mjoin ((fun m => m ++ [x0a]) <$> take n (omap payload (recv_rx s))).
Proof.
  induction n as [|n IH]; intros s; cbn [sink]; [by rewrite take_0|].
  unfold recv, recv_identity. rewrite (recv_blocking_payloads (recv_rx s)).
  pose proof (recv_blocking_items (recv_rx s)) as H.
  destruct (recv_blocking (recv_rx s)) as [rx [[from m]|]]; cbn.
  - pose proof (IH (with_recv_rx rx s)) as E.
    destruct (sink n (with_recv_rx rx s)) as [s' out]. cbn in E |- *. rewrite E.
    csimpl. by rewrite <- !app_assoc.
  - by destruct H as [-> _].
Qed.

Lemma echo_replies n : forall s,
  gone_after (cmd_tx s) = None ->
  queued (cmd_tx (echo n s)) =
    queued (cmd_tx s) ++ sends ((fun m => (Some m.1, m.2)) <$> take n (omap item (recv_rx s))).
Proof.
  induction n as [|n IH]; intros s Hg; cbn [echo]; [by rewrite take_0, app_nil_r|].
  unfold recv_identity. pose proof (recv_blocking_items (recv_rx s)) as H.
  destruct (recv_blocking (recv_rx s)) as [rx [[from m]|]]; destruct H as [H1 H2].
  - unfold send_to. rewrite dispatch_open by done. rewrite IH by done. cbn [cmd_tx recv_rx
      with_cmd_tx with_recv_rx queued fst]. rewrite H1. cbn. by rewrite <- app_assoc.
  - subst rx. rewrite H2, IH by done. cbn. by rewrite take_nil.
Qed.
End Behaviours.

(** C5: A source and a sink pass the conformance test.  The sink prints, one per
    line, exactly the messages [<prefix>0], [<prefix>1], ... that the source was
    told to send, in order: in either send mode and with either delivery
    guarantee, whatever part of them is sent before the connection is there,
    however the writer pauses and the bytes are cut into reads.  This is a run in
    which, up to the last send, no acknowledgement comes back and no resend falls
    due, and of a connection without I/O errors over which the HELLO comes within
    the 15 seconds the sink allows, the read that completes it ending at a frame
    boundary. *)
Theorem source_to_sink {L SA St SC CC SN} cfg k a b uuid u' v v' inA bld wA accA wB accB clockB mbA rB mbB :
  let n := count cfg in
  let ms := (fun i => (None, message (prefix cfg) i)) <$> seq 0 n in
  let socket b u u' incoming := built (Listener := L) (SocketAddr := SA) (Stream := St)
    (ServerConfig := SC) (ClientConfig := CC) (ServerName := SN) b u u' incoming in
  let src := source n 0 (prefix cfg) (socket (agent_builder cfg) u' u' inA) in
  let broker_cmds := sends (take k ms) ++ ConnectionUp b wA accA :: sends (drop k ms) in
  (forall i, (clockB i < clockB 0%nat + HEARTBEAT_TIMEOUT)%Z) ->
  length a = IDENTITY_SIZE -> length b = IDENTITY_SIZE -> length uuid = 16 ->
  Forall fits_frame ms ->
  omap mail_frame mbA =
    omap (frame_to wA) (run (new_broker (cfg_mode cfg) (cfg_delivery cfg) uuid) broker_cmds).2 ->
  clean_cut rB a (written mbA) ->
  queued (cmd_tx src) = sends (take k ms) ++ sends (drop k ms) /\
  exists rB' wB' txB bB' fxB,
    plain_session clockB rB (Some (mkTcp [] [] [])) (mkCmdTx [] None) b wB accB (Some true) mbB =
      Some (rB', Some wB', txB) /\
    run (new_broker RoundRobin AtMostOnce v) (queued txB) = (Some bB', fxB) /\
    (sink n (socket bld v' v' (omap delivered fxB))).2 =
      mjoin ((fun i => message (prefix cfg) i ++ [x0a]) <$> seq 0 n).
Proof.
  intros n ms socket src broker_cmds Hcl Ha Hb Hu Hfit Hmb Hcut. split.
  - subst src. rewrite source_sends by done. cbn [cmd_tx with_cmd_tx queued]. fold n ms.
    unfold sends. rewrite <- fmap_app, take_drop. done.
  - assert (Hfor : Forall (for_peer b) (take k ms ++ drop k ms)).
    { rewrite take_drop. apply Forall_fmap, Forall_true. intros i. by left. }
    destruct (delivery_run (cfg_mode cfg) (cfg_delivery cfg) uuid a b wA accA wB accB (take k ms)
      (drop k ms) clockB) with (mbA := mbA) (rB := rB) (mbB := mbB)
      (bB := new_broker RoundRobin AtMostOnce v)
      as (bA & envs & rB' & wB' & bB' & fxB & _ & Es & _ & Eb & Hd & _); try done.
    { by rewrite take_drop. }
    do 5 eexists. split_and!; [exact Es|exact Eb|]. rewrite sink_prints. cbn [recv_rx socket built build fst].
    rewrite Hd, take_drop. f_equal. subst ms.
    assert (Hp : forall l : list nat, omap payload ((fun m => Incoming a m.2) <$>
      ((fun i => (@None Identity, message (prefix cfg) i)) <$> l)) = message (prefix cfg) <$> l).
    { induction l as [|x l IH]; csimpl; [done|]. by rewrite <- IH. }
    rewrite Hp, take_ge by by rewrite length_fmap, length_seq.
    by rewrite <- list_fmap_compose.
Qed.

(** ** The two agents *)

Section Agents.
Context {Listener SocketAddr Stream TlsAcceptor TlsConnector ServerName : Type}.
Abbreviation AInner := (Async.Inner Listener SocketAddr TlsAcceptor TlsConnector ServerName).
Abbreviation SInner := (Socket.Inner Listener SocketAddr Stream TlsAcceptor TlsConnector ServerName).
Implicit Types (a : AInner) (s : SInner).

(** The asynchronous agent connects to an address it has parsed, which needs no
    resolver. *)
Definition itself (addr : SocketAddr) : io_result (list SocketAddr) := Ok [addr].
Abbreviation agree := (SocketAsync.agree itself).

(** The two sockets stand for the same one, and their broker runs. *)
Definition in_step a s : Prop := agree a s /\ gone_after (cmd_tx s) = None.

Lemma dispatch_in_step a s to d :
  in_step a s -> exists a' s', Async.dispatch a to d = (a', inr tt) /\ dispatch s to d = (s', Good tt) /\
    in_step a' s'.
Proof.
  intros [[] Hg]. rewrite dispatch_open by done. unfold Async.dispatch, cmd_send. rewrite ag_tx, Hg.
  do 2 eexists. split_and!; [done|done|]. split; [by split|done].
Qed.

Lemma recv_identity_in_step a s :
  in_step a s -> exists a' s' r, Async.recv_identity a = (a', r) /\ recv_identity s = (s', r) /\
    in_step a' s'.
Proof.
  intros [[] Hg]. unfold Async.recv_identity, recv_identity. rewrite ag_rx.
  destruct (recv_blocking (recv_rx s)) as [rx r].
  do 3 eexists. split_and!; [done|done|]. split; [by split|done].
Qed.

Lemma source_in_step n i prefix : forall a s,
  in_step a s -> exists a', AsyncAgent.source n i prefix a = (a', None) /\ in_step a' (source n i prefix s).
Proof.
  revert i. induction n as [|n IH]; intros i a s H; [by exists a|]. cbn [AsyncAgent.source source].
  destruct (dispatch_in_step a s None (message prefix i) H) as (a1 & s1 & E1 & E2 & H1).
  unfold Async.send, send. rewrite E1, E2. by apply IH.
Qed.

Lemma echo_in_step n : forall a s,
  in_step a s -> exists a', AsyncAgent.echo n a = (a', None) /\ in_step a' (echo n s).
Proof.
  induction n as [|n IH]; intros a s H; [by exists a|]. cbn [AsyncAgent.echo echo].
  destruct (recv_identity_in_step a s H) as (a1 & s1 & r & -> & -> & H1).
  destruct r as [[id m]|]; [|by apply IH].
  destruct (dispatch_in_step a1 s1 (Some id) m H1) as (a2 & s2 & E1 & E2 & H2).
  unfold Async.send_to, send_to. rewrite E1, E2. by apply IH.
Qed.

Lemma sink_in_step n : forall a s,
  in_step a s -> (AsyncAgent.sink n a).2 = (sink n s).2 /\ in_step (AsyncAgent.sink n a).1 (sink n s).1.
Proof.
  induction n as [|n IH]; intros a s H; [done|]. cbn [AsyncAgent.sink sink].
  unfold Async.recv, recv.
  destruct (recv_identity_in_step a s H) as (a1 & s1 & r & -> & -> & H1).
  destruct r as [[id m]|]; cbn; [|done]. specialize (IH a1 s1 H1) as [E1 E2].
  destruct (AsyncAgent.sink n a1), (sink n s1). cbn in *. by subst.
Qed.

(** Both agents ask for a pause only as a source or an echo. *)
Definition pauses (cfg : config) : Prop :=
  behavior cfg = str_bytes "source" \/ behavior cfg = str_bytes "echo".

Lemma behave_in_step cfg a s :
  in_step a s -> exists a' out, (behave cfg s).2 = out /\ in_step a' (behave cfg s).1 /\
    (usable (linger cfg) = true \/ ~ pauses cfg -> AsyncAgent.behave cfg a = Returns (a', out, None)) /\
    (usable (linger cfg) = false -> pauses cfg -> AsyncAgent.behave cfg a = Panics).
Proof.
  intros H. unfold AsyncAgent.behave, behave, pauses, from_secs_f64.
  destruct (decide (behavior cfg = str_bytes "source")) as [Eb|Eb];
    [|destruct (decide (behavior cfg = str_bytes "echo")) as [Ee|Ee]].
  - destruct (source_in_step (count cfg) 0 (prefix cfg) a s H) as (a' & -> & H').
    exists a', []. split_and!; [done|done|intros [->|[]]; [done|by left]|by intros ->].
  - destruct (echo_in_step (count cfg) a s H) as (a' & -> & H').
    exists a', []. split_and!; [done|done|intros [->|[]]; [done|by right]|by intros ->].
  - pose proof (sink_in_step (count cfg) a s H) as [E1 E2].
    destruct (AsyncAgent.sink _ a) as [a' out], (sink _ s). exists a', out.
    split_and!; [done|done|done|by intros _ [?|?]].
Qed.

(** What the agents end with: a panic, an error on setting up, or the socket they
    close and what they printed. *)
Definition end_alike (r : outcome (option (SInner * bytes))) (r' : outcome (Async.Error + (AInner * bytes)))
  : Prop :=
  match r, r' with
  | Panics, Panics => True
  | Returns None, Returns (inl _) => True
  | Returns (Some (s, out)), Returns (inr (a, out')) => out = out' /\ agree a s
  | _, _ => False
  end.

Lemma behave_alike cfg a s :
  in_step a s -> usable (linger cfg) = true \/ pauses cfg ->
  end_alike (_ ← from_secs_f64 (linger cfg); let '(s, out) := behave cfg s in Returns (Some (close s, out)))
    ('(a, out, failed) ← AsyncAgent.behave cfg a;
     match failed with
     | Some e => Returns (inl e)
     | None => Returns (inr (Async.close a, out))
     end).
Proof.
  intros H Hl. destruct (behave_in_step cfg a s H) as (a' & out & Eo & [H' _] & E1 & E2).
  unfold from_secs_f64. destruct (usable (linger cfg)).
  - rewrite E1 by by left. destruct (behave cfg s) as [s' out']. cbn in Eo, H' |- *. subst. split; [done|].
    apply (async_perform_agree itself (fun _ => None) a' s' SocketAsync.CClose H'). by right.
  - destruct Hl as [|Hl]; [done|]. by rewrite E2.
Qed.

Lemma spawn_in_step a s t th :
  in_step a s -> same_loop itself t th ->
  in_step (Async.with_tasks (Async.tasks a ++ [t]) a) (with_threads (threads s ++ [th]) s).
Proof. intros [H Hg] Hl. split; [by apply spawn_agree|done]. Qed.

(** The answers of setting up, and what follows. *)
Definition set_up_alike (r : outcome (SInner * Result ())) (r' : outcome (AInner * option Async.Error))
  : Prop :=
  match r, r' with
  | Panics, Panics => True
  | Returns (_, Bad _), Returns (_, Some _) => True
  | Returns (s, Good _), Returns (a, None) => in_step a s
  | _, _ => False
  end.

Lemma set_up_end cfg r r' :
  set_up_alike r r' -> usable (linger cfg) = true \/ pauses cfg ->
  end_alike
    ('(s, ok) ← r;
     match ok with
     | Bad _ => Returns None
     | Good _ =>
       _ ← from_secs_f64 (linger cfg);
       let '(s, out) := behave cfg s in Returns (Some (close s, out))
     end)
    ('(a, failed) ← r';
     match failed with
     | Some e => Returns (inl e)
     | None =>
       '(a, out, failed) ← AsyncAgent.behave cfg a;
       match failed with
       | Some e => Returns (inl e)
       | None => Returns (inr (Async.close a, out))
       end
     end).
Proof.
  intros H Hl. destruct r as [[s [e|[]]]|], r' as [[a [e'|]]|]; try done. by apply behave_alike.
Qed.

Context {File Cert Key ServerBuilder ClientBuilder Roots : Type}.
Context `{!Rustls File Cert Key ServerBuilder ClientBuilder Roots TlsAcceptor TlsConnector}.

(** No file has the empty name. *)
Context (no_name : exists e, open [] = Err e).

Lemma bind_tls_alike tls args a s listen :
  in_step a s -> set_up_alike (agent_bind_tls tls args s listen) (AsyncAgent.agent_bind_tls tls args a listen).
Proof.
  intros H. destruct no_name as [e He]. unfold agent_bind_tls, AsyncAgent.agent_bind_tls, arg.
  destruct tls; [|done].
  change (@AsyncConfigs.server_config) with (@server_config). unfold server_config.
  change (str_bytes "") with (@nil byte).
  generalize (args !! str_bytes "tls-cert") (args !! str_bytes "tls-key"). intros c k.
  destruct c as [c|]; cbn; [|by rewrite He]. destruct k as [k|]; cbn.
  2: { destruct (open c); cbn; [|done]. destruct (collect _); cbn; [|done]. by rewrite He. }
  destruct (open c); cbn; [|done]. destruct (collect _); cbn; [|done].
  destruct (open k); cbn; [|done]. destruct (private_key _) as [[]|]; cbn; try done.
  destruct server_builder; cbn; [|done]. destruct (with_single_cert _ _ _); cbn; [|done].
  destruct listen as [[l [x|x]]|x]; cbn; try done. by apply spawn_in_step.
Qed.

Lemma connect_tls_alike tls args a s addr parse_name host :
  in_step a s ->
  set_up_alike (agent_connect_tls tls args s (Ok [addr]) parse_name host)
    (AsyncAgent.agent_connect_tls tls args a addr parse_name host).
Proof.
  intros H. destruct no_name as [e He]. unfold agent_connect_tls, AsyncAgent.agent_connect_tls, arg.
  destruct tls; [|done].
  change (@AsyncConfigs.client_config) with (@client_config).
  destruct (args !! str_bytes "tls-ca") as [c|]; cbn;
    [|unfold client_config; change (str_bytes "") with (@nil byte); cbn; by rewrite He].
  destruct (client_config c); cbn; [|done]. unfold connect_tls, Async.connect_tls.
  destruct (parse_name _) as [name|]; cbn; [|done].
  unfold connect_with, Async.spawn_connect. destruct H as [[] Hg]. rewrite ag_closed.
  destruct (closed s) eqn:Ec; cbn; [done|]. apply spawn_in_step; [split; [by split; rewrite ?Ec|done]|cbn; eauto].
Qed.

Lemma mains_alike feature_tls args uuid uuid' incoming listen alisten resolve parse_addr
    (addr : SocketAddr) (parse_name : bytes -> option ServerName) :
  parse_addr (address (configure args)) = Some addr ->
  resolve (address (configure args)) = Ok [addr] ->
  listen (address (configure args)) = alisten addr ->
  usable (linger (configure args)) = true \/ pauses (configure args) ->
  end_alike (main feature_tls args uuid uuid' incoming listen resolve parse_name)
    (AsyncAgent.main (Ok tt) feature_tls args uuid uuid' incoming alisten parse_addr parse_name).
Proof.
  intros Hp Hr Hl Hu. unfold main, AsyncAgent.main, AsyncAgent.run. rewrite Hp, Hr, Hl. cbn [expect].
  change (Returns addr ≫= ?f) with (f addr). cbn beta. apply set_up_end; [|done].
  set (a0 := (Async.build _ uuid uuid' incoming).1). set (s0 := (build _ uuid uuid' incoming).1).
  assert (H0 : in_step a0 s0).
  { subst a0 s0. unfold agent_builder, AsyncAgent.agent_builder. by destruct (cfg_identity _). }
  clearbody a0 s0. case_decide; destruct (tls _).
  - by apply bind_tls_alike.
  - unfold bind, bind_with, Async.bind. destruct (alisten addr) as [[l [x|x]]|x]; try done.
    by apply spawn_in_step.
  - by apply connect_tls_alike.
  - unfold connect, Async.connect, connect_with, Async.spawn_connect. destruct H0 as [[] Hg]. rewrite ag_closed.
    destruct (closed s0) eqn:Ec; cbn; [done|]. apply spawn_in_step; [split; [by split; rewrite ?Ec|done]|cbn; eauto].
Qed.

(** The other options without [--linger]. *)
Lemma configure_without args :
  configure (delete (str_bytes "linger") args) =
    let c := configure args in
    mkConfig (role c) (host c) (port c) (behavior c) (count c) (prefix c) one (tls c) (cfg_mode c)
      (cfg_delivery c) (cfg_identity c).
Proof.
  unfold configure, arg. rewrite lookup_delete_eq.
  repeat (rewrite lookup_delete_ne by (intros E; vm_compute in E; discriminate E)). reflexivity.
Qed.

(** The asynchronous agent reads the pause only as a source or an echo. *)
Lemma async_sink_ignores_linger feature_tls args uuid uuid' incoming
    (listen : SocketAddr -> io_result (Listener * io_result SocketAddr)) parse_addr
    (parse_name : bytes -> option ServerName) :
  ~ pauses (configure args) ->
  AsyncAgent.main (Ok tt) feature_tls args uuid uuid' incoming listen parse_addr parse_name =
    AsyncAgent.main (Ok tt) feature_tls (delete (str_bytes "linger") args) uuid uuid' incoming listen
      parse_addr parse_name.
Proof.
  unfold pauses. intros Hn. unfold AsyncAgent.main, AsyncAgent.run, AsyncAgent.agent_bind_tls,
    AsyncAgent.agent_connect_tls, AsyncAgent.agent_builder, address.
  rewrite configure_without. cbv zeta.
  repeat (rewrite lookup_delete_ne by (intros E; vm_compute in E; discriminate E)).
  cbn [role host port prefix tls cfg_mode cfg_delivery cfg_identity].
  destruct (expect (parse_addr _)) as [addr|]; [|done]. cbn [mbind outcome_bind].
  destruct (if decide (role _ = _) then _ else _) as [[s [e|]]|]; [done| |done].
  cbn [mbind outcome_bind]. unfold AsyncAgent.behave. cbn [behavior count prefix linger].
  rewrite !(decide_False (P := behavior _ = str_bytes "source")) by tauto.
  rewrite !(decide_False (P := behavior _ = str_bytes "echo")) by tauto. reflexivity.
Qed.

(** C21: Where the two agents do the same, and where not.  Given the same
    arguments, the same answers from the system and the same messages arriving,
    with a host that is an address, and with the [tls] feature or without: when
    the pause of [--linger] is one that a [Duration] can hold, or the agent is
    a source or an echo, either both panic (on a TLS flag or a file that is
    missing or wrong, without the feature, or on the pause), or both fail to set
    up their socket, or both print the same, and the sockets they close have
    been handed the same commands and have run the same loops. But a sink whose
    [--linger] is negative, no number or too large never prints in the
    synchronous agent, which panics behind the set-up, or has failed there,
    while the asynchronous one does what both do without the option. *)
Theorem agents_agree feature_tls args uuid uuid' incoming listen alisten resolve parse_addr
    (addr : SocketAddr) (parse_name : bytes -> option ServerName) :
  parse_addr (address (configure args)) = Some addr ->
  resolve (address (configure args)) = Ok [addr] ->
  listen (address (configure args)) = alisten addr ->
  (usable (linger (configure args)) = true \/ pauses (configure args) ->
    end_alike (main feature_tls args uuid uuid' incoming listen resolve parse_name)
      (AsyncAgent.main (Ok tt) feature_tls args uuid uuid' incoming alisten parse_addr parse_name)) /\
  (usable (linger (configure args)) = false -> ~ pauses (configure args) ->
    main (Stream := Stream) feature_tls args uuid uuid' incoming listen resolve parse_name ∈ [Panics; Returns None] /\
    end_alike
      (main feature_tls (delete (str_bytes "linger") args) uuid uuid' incoming listen resolve parse_name)
      (AsyncAgent.main (Ok tt) feature_tls args uuid uuid' incoming alisten parse_addr parse_name)).
Proof.
  intros Hp Hr Hl. split; [by apply (mains_alike _ _ _ _ _ _ _ _ _ addr)|]. intros Hu Hn. split.
  - unfold main, from_secs_f64. rewrite Hu, !elem_of_cons.
    destruct (if decide _ then _ else _) as [[s [u|e]]|]; cbn; auto.
  - rewrite (async_sink_ignores_linger _ _ _ _ _ _ _ _ Hn).
    assert (Ha : address (configure (delete (str_bytes "linger") args)) = address (configure args))
      by by rewrite configure_without.
    apply (mains_alike _ _ _ _ _ _ _ _ _ addr); rewrite ?Ha; [done..|].
    left. rewrite configure_without. vm_compute. reflexivity.
Qed.
End Agents.

(** ** Concrete command lines *)

Definition source_args : gmap bytes bytes :=
  parse_args (str_bytes <$> ["agent"; "--role"; "bind"; "--behavior"; "source"; "--count"; "3";
    "--delivery"; "at-least-once"; "--prefix"; "msg-"; "--identity";
    "0a0a0a0a0a0a0a0a0a0a0a0a0a0a0a0a"]%string).

Lemma identity_flag_roundtrip_witness :
  b_identity (agent_builder (configure source_args)) = Some peerA /\
  Async.b_identity (AsyncAgent.agent_builder (configure source_args)) = Some peerA.
Proof. apply (identity_flag_roundtrip peerA source_args); vm_compute; reflexivity. Defined.

Definition source_cfg : config := configure source_args.
Definition source_msgs : list (option Identity * bytes) :=
  (fun i => (None, message (prefix source_cfg) i)) <$> seq 0 (count source_cfg).
Definition source_mailbox : Mailbox :=
  NoMail :: (Mail <$> omap (frame_to 1) (run (new_broker (cfg_mode source_cfg) (cfg_delivery source_cfg)
    demo_uuid) (sends (take 1 source_msgs) ++ ConnectionUp peerB 1 2 :: sends (drop 1 source_msgs))).2).
Definition demo_socket (b : SocketBuilder) (incoming : list delivery_event)
  : Socket.Inner unit unit unit unit unit unit := built b [] [] incoming.

Lemma source_to_sink_witness :
  mjoin ((fun i => message (prefix source_cfg) i ++ [x0a]) <$> seq 0 (count source_cfg)) =
    str_bytes "msg-0" ++ [x0a] ++ str_bytes "msg-1" ++ [x0a] ++ str_bytes "msg-2" ++ [x0a] /\
  queued (cmd_tx (source (count source_cfg) 0 (prefix source_cfg)
    (demo_socket (agent_builder source_cfg) []))) =
    sends (take 1 source_msgs) ++ sends (drop 1 source_msgs) /\
  exists rB' wB' txB bB' fxB,
    plain_session (fun _ => 0%Z) (demo_cut peerA (written source_mailbox)) (Some (mkTcp [] [] []))
      (mkCmdTx [] None) peerB 3 4 (Some true) [] = Some (rB', Some wB', txB) /\
    run (new_broker RoundRobin AtMostOnce demo_uuid) (queued txB) = (Some bB', fxB) /\
    (sink (count source_cfg) (demo_socket builder (omap delivered fxB))).2 =
      mjoin ((fun i => message (prefix source_cfg) i ++ [x0a]) <$> seq 0 (count source_cfg)).
Proof.
  split; [vm_compute; reflexivity|].
  apply (source_to_sink source_cfg 1 peerA peerB demo_uuid [] demo_uuid [] [] builder 1 2 3 4
    (fun _ => 0%Z) source_mailbox (demo_cut peerA (written source_mailbox)) []).
  - intros i. reflexivity.
  - reflexivity.
  - reflexivity.
  - reflexivity.
  - apply (bool_decide_unpack _). vm_compute. exact I.
  - vm_compute. reflexivity.
  - apply demo_cut_clean; [reflexivity|]. apply Nat.ltb_lt. vm_compute. reflexivity.
Defined.

(** An empty [--identity] does not leave the identity to be generated: the
    socket's identity is sixteen zeros. *)
Lemma empty_identity_is_zero : forall args,
  args !! str_bytes "identity" = Some [] ->
  b_identity (agent_builder (configure args)) = Some (replicate 16 x00).
Proof. intros args H. unfold agent_builder. cbn [configure cfg_identity]. by rewrite H. Qed.

(** A bare [--tls] takes the option behind it as its value. *)
Lemma bare_tls_swallows :
  let cfg := configure (parse_args (str_bytes <$> ["agent"; "--tls"; "--role"; "bind"]%string)) in
  tls cfg = false /\ role cfg = str_bytes "connect".
Proof. vm_compute. done. Qed.

(** A command line that asks for TLS. *)
Abbreviation tls_args := (parse_args (str_bytes <$> ["agent"; "--role"; "bind"; "--port"; "4000"; "--tls";
  "true"; "--tls-cert"; "cert.pem"; "--tls-key"; "key.pem"; "--count"; "1"]%string)).

(** The same of a sink that is to pause for a negative time. *)
Abbreviation negative_args := (<[str_bytes "linger" := str_bytes "-1"]> tls_args).

Lemma agents_agree_witness :
  address (configure tls_args) = str_bytes "127.0.0.1:4000" /\
  end_alike (Stream := unit)
    (main true tls_args demo_uuid demo_uuid [Incoming peerA (str_bytes "hi")] (fun a => Ok (tt, Ok a))
      (fun a => Ok [a]) (fun n => Some n))
    (AsyncAgent.main (Ok tt) true tls_args demo_uuid demo_uuid [Incoming peerA (str_bytes "hi")]
      (fun a => Ok (tt, Ok a)) Some (fun n => Some n)) /\
  main (Stream := unit) true negative_args demo_uuid demo_uuid [Incoming peerA (str_bytes "hi")]
    (fun a => Ok (tt, Ok a)) (fun a => Ok [a]) (fun n => Some n) ∈ [Panics; Returns None].
Proof.
  split; [vm_compute; reflexivity|]. split.
  - destruct (agents_agree (Listener := unit) (SocketAddr := bytes) (ServerName := bytes) (Stream := unit)
      toy_no_name true tls_args demo_uuid demo_uuid [Incoming peerA (str_bytes "hi")]
      (fun a => Ok (tt, Ok a)) (fun a => Ok (tt, Ok a)) (fun a => Ok [a]) Some
      (address (configure tls_args)) (fun n => Some n) eq_refl eq_refl eq_refl) as [H _].
    apply H. left. vm_compute. reflexivity.
  - destruct (agents_agree (Listener := unit) (SocketAddr := bytes) (ServerName := bytes) (Stream := unit)
      toy_no_name true negative_args demo_uuid demo_uuid [Incoming peerA (str_bytes "hi")]
      (fun a => Ok (tt, Ok a)) (fun a => Ok (tt, Ok a)) (fun a => Ok [a]) Some
      (address (configure negative_args)) (fun n => Some n) eq_refl eq_refl eq_refl) as [_ H].
    refine (proj1 (H _ _)); [vm_compute; reflexivity|].
    intros [E|E]; vm_compute in E; discriminate E.
Defined.

(** With the host left as a name, which [connect] resolves, the asynchronous
    agent panics. *)
Lemma async_agent_wants_an_address feature_tls args uuid uuid' incoming
    (listen : bytes -> io_result (unit * io_result unit)) parse_addr (parse_name : bytes -> option unit) :
  parse_addr (address (configure args)) = None ->
  AsyncAgent.main (Ok tt) feature_tls args uuid uuid' incoming listen parse_addr parse_name = Panics.
Proof. intros H. unfold AsyncAgent.main, AsyncAgent.run. by rewrite H. Qed.
