(* ===== verification/Demos.v ===== *)
(** * Demos: the two-process demo and the TLS demo

    Models the examples [client.rs], [server.rs] and [tls.rs] of both crates
    over the sockets of [Socket] and [SocketAsync].  What a program prints is
    part of its result; a program that runs until it is killed is given the
    list of what happens meanwhile.  [server_to_client] joins the two ends of
    the two-process demo, each of either crate, through the brokers and
    sessions of [CrossCrate]. *)

From S2P Require Import Prelude Io Upgrade Protocol Timers Broker BrokerProps.
From S2P Require Import Conn Loops LoopsAsync Socket SocketAsync EndToEnd CrossCrate TlsConfig Agent.
From Stdlib Require Import Strings.Byte.

Definition newline : bytes := [x0a].
Definition server_addr : bytes := str_bytes "127.0.0.1:25000".

(** [println!("<label> {}", String::from_utf8_lossy(&msg))]. *)
Definition print_message (label : string) (msg : bytes) : bytes :=
  str_bytes label ++ as_bytes (from_utf8_lossy msg) ++ newline.

(** ** The synchronous programs *)

Section Sync.
Context {Listener SocketAddr Stream ServerConfig ClientConfig ServerName : Type}.
Context {File Cert Key ServerBuilder ClientBuilder Roots : Type}.
Context `{!Rustls File Cert Key ServerBuilder ClientBuilder Roots ServerConfig ClientConfig}.
Abbreviation Inner := (Socket.Inner Listener SocketAddr Stream ServerConfig ClientConfig ServerName).
Implicit Type s : Inner.

(** [client.rs], until the socket ends; the outer [option] is the fuel of
    [messages]. *)
Definition client_main (uuid uuid' : bytes) (incoming : list delivery_event)
    (resolve : bytes -> io_result (list SocketAddr)) : option (Result (Inner * bytes)) :=
  let sock := (Socket.new uuid uuid' incoming).1 in
  match Socket.connect sock (resolve server_addr) with
  | (_, Bad e) => Some (Bad e)
  | (sock, Good _) =>
    '(sock, msgs) ← Socket.messages sock;
    Some (Good (sock, mjoin (print_message "received: " <$> msgs)))
  end.

(** The loop of [server.rs], once per second; [times] is what the clock shows. *)
Fixpoint publish_loop (times : list bytes) s : Result Inner :=
  match times with
  | [] => Good s
  | now :: times =>
    match Socket.send s now with
    | (_, Bad e) => Bad e
    | (s, Good _) => publish_loop times s
    end
  end.

Definition server_main (uuid uuid' : bytes) (incoming : list delivery_event)
    (listen : bytes -> io_result (Listener * io_result SocketAddr)) (display : SocketAddr -> bytes)
    (times : list bytes) : bytes * Result Inner :=
  let sock := (Socket.build (Socket.set_send_mode Socket.builder Publish) uuid uuid' incoming).1 in
  match Socket.bind sock (listen server_addr) with
  | (_, Bad e) => ([], Bad e)
  | (sock, Good addr) =>
    (str_bytes "bound to " ++ display addr ++ str_bytes ", publishing the time..." ++ newline,
     publish_loop times sock)
  end.

(** [tls.rs], to the two closed sockets, the server's first.  [listen] is given
    the address and [parse_name] is [ServerName::try_from]. *)
Definition tls_main (uuid1 uuid1' uuid2 uuid2' : bytes) (incoming1 incoming2 : list delivery_event)
    (listen : bytes -> io_result (Listener * io_result SocketAddr)) (display : SocketAddr -> bytes)
    (parse_name : bytes -> option ServerName) : outcome (bytes * Result (Inner * Inner)) :=
  '(server_cfg, client_cfg) ← self_signed_configs (str_bytes "localhost");
  let server := (Socket.new uuid1 uuid1' incoming1).1 in
  match Socket.bind_tls server (listen (str_bytes "127.0.0.1:0")) server_cfg with
  | (_, Bad e) => Returns ([], Bad e)
  | (server, Good addr) =>
    let out := str_bytes "server bound (TLS) on " ++ display addr ++ newline in
    let client := (Socket.new uuid2 uuid2' incoming2).1 in
    match Socket.connect_tls parse_name client (Ok [addr]) (str_bytes "localhost") client_cfg with
    | (_, Bad e) => Returns (out, Bad e)
    | (client, Good _) =>
      match Socket.send server (str_bytes "hello over TLS") with
      | (_, Bad e) => Returns (out, Bad e)
      | (server, Good _) =>
        let '(client, r) := Socket.recv_timeout client in
        let out := out ++ match r with Some msg => print_message "client received: " msg | None => [] end in
        Returns (out, Good (Socket.close server, Socket.close client))
      end
    end
  end.
End Sync.

(** ** The asynchronous programs *)

Module AsyncDemos.
Section Async.
Context {Listener SocketAddr TlsAcceptor TlsConnector ServerName : Type}.
Context {File Cert Key ServerBuilder ClientBuilder Roots : Type}.
Context `{!Rustls File Cert Key ServerBuilder ClientBuilder Roots TlsAcceptor TlsConnector}.
Abbreviation Inner := (Async.Inner Listener SocketAddr TlsAcceptor TlsConnector ServerName).
Implicit Type s : Inner.

(** [while let Some(msg) = sock.recv().await { .. }], with as much fuel as there
    are messages to come. *)
Fixpoint receive_loop (fuel : nat) s : option (Inner * bytes) :=
  match fuel with
  | O => None
  | S fuel =>
    match Async.recv s with
    | (s, None) => Some (s, [])
    | (s, Some msg) =>
      '(s, out) ← receive_loop fuel s; Some (s, print_message "received: " msg ++ out)
    end
  end.

Definition client_main (uuid uuid' : bytes) (incoming : list delivery_event)
    (parse_addr : bytes -> option SocketAddr) : option (outcome (Async.Error + (Inner * bytes))) :=
  let sock := (Async.new uuid uuid' incoming).1 in
  match parse_addr server_addr with
  | None => Some Panics
  | Some addr =>
    match Async.connect sock addr with
    | (_, inl e) => Some (Returns (inl e))
    | (sock, inr _) => r ← receive_loop (S (length (Async.recv_rx sock))) sock; Some (Returns (inr r))
    end
  end.

Fixpoint publish_loop (times : list bytes) s : Async.Error + Inner :=
  match times with
  | [] => inr s
  | now :: times =>
    match Async.send s now with
    | (_, inl e) => inl e
    | (s, inr _) => publish_loop times s
    end
  end.

Definition server_main (uuid uuid' : bytes) (incoming : list delivery_event)
    (listen : bytes -> io_result (Listener * io_result SocketAddr)) (display : SocketAddr -> bytes)
    (times : list bytes) : bytes * (Async.Error + Inner) :=
  let sock := (Async.build (Async.set_send_mode Async.builder Publish) uuid uuid' incoming).1 in
  match Async.bind sock (listen server_addr) with
  | (_, inl e) => ([], inl e)
  | (sock, inr addr) =>
    (str_bytes "bound to " ++ display addr ++ str_bytes ", publishing the time..." ++ newline,
     publish_loop times sock)
  end.

Definition tls_main (uuid1 uuid1' uuid2 uuid2' : bytes) (incoming1 incoming2 : list delivery_event)
    (listen : bytes -> io_result (Listener * io_result SocketAddr)) (display : SocketAddr -> bytes)
    (parse_name : bytes -> option ServerName) : outcome (bytes * (Async.Error + (Inner * Inner))) :=
  '(server_cfg, client_cfg) ← AsyncConfigs.self_signed_configs (str_bytes "localhost");
  let server := (Async.new uuid1 uuid1' incoming1).1 in
  match Async.bind_tls server (listen (str_bytes "127.0.0.1:0")) server_cfg with
  | (_, inl e) => Returns ([], inl e)
  | (server, inr addr) =>
    let out := str_bytes "server bound (TLS) on " ++ display addr ++ newline in
    let client := (Async.new uuid2 uuid2' incoming2).1 in
    match Async.connect_tls parse_name client addr (str_bytes "localhost") client_cfg with
    | (_, inl e) => Returns (out, inl e)
    | (client, inr _) =>
      match Async.send server (str_bytes "hello over TLS") with
      | (_, inl e) => Returns (out, inl e)
      | (server, inr _) =>
        let '(client, r) := Async.recv client in
        let out := out ++ match r with Some msg => print_message "client received: " msg | None => [] end in
        Returns (out, inr (Async.close server, Async.close client))
      end
    end
  end.
End Async.
End AsyncDemos.

(** ** The two-process demo *)

Lemma async_dispatch_open {L A TA TC SN} (s : Async.Inner L A TA TC SN) to data :
  gone_after (Async.cmd_tx s) = None ->
  Async.dispatch s to data =
    (Async.with_cmd_tx (mkCmdTx (queued (Async.cmd_tx s) ++ [Send to data]) None) s, inr tt).
Proof. intros Hg. unfold Async.dispatch, cmd_send. by rewrite Hg. Qed.

(** What the server sends: every time it reads, to everyone. *)
Definition published (times : list bytes) : list (option Identity * bytes) := (fun t => (None, t)) <$> times.

Section Demo.
Context {Listener SocketAddr Stream TlsAcceptor TlsConnector ServerName : Type}.
Abbreviation AInner := (Async.Inner Listener SocketAddr TlsAcceptor TlsConnector ServerName).
Abbreviation SInner := (Socket.Inner Listener SocketAddr Stream TlsAcceptor TlsConnector ServerName).
Implicit Types (listen : bytes -> io_result (Listener * io_result SocketAddr)).

Lemma publish_loop_sends times : forall s : SInner,
  gone_after (cmd_tx s) = None ->
  publish_loop times s =
    Good (with_cmd_tx (mkCmdTx (queued (cmd_tx s) ++ sends (published times)) None) s).
Proof.
  induction times as [|now times IH]; intros s Hg; cbn [publish_loop].
  - cbn. rewrite app_nil_r. destruct s as [? ? [q g] ? ? ? ? ? ? ? ?]. cbn in *. by subst.
  - unfold Socket.send. rewrite dispatch_open, IH by done. cbn. by rewrite <- app_assoc.
Qed.

Lemma async_publish_loop_sends times : forall s : AInner,
  gone_after (Async.cmd_tx s) = None ->
  AsyncDemos.publish_loop times s =
    inr (Async.with_cmd_tx (mkCmdTx (queued (Async.cmd_tx s) ++ sends (published times)) None) s).
Proof.
  induction times as [|now times IH]; intros s Hg; cbn [AsyncDemos.publish_loop].
  - cbn. rewrite app_nil_r. destruct s as [? ? [q g] ? ? ? ? ? ?]. cbn in *. by subst.
  - unfold Async.send. rewrite async_dispatch_open, IH by done. cbn. by rewrite <- app_assoc.
Qed.

Lemma receive_loop_prints fuel : forall s : AInner,
  length (Async.recv_rx s) < fuel ->
  AsyncDemos.receive_loop fuel s =
    Some (Async.with_recv_rx [] s,
          mjoin (print_message "received: " <$> omap payload (Async.recv_rx s))).
Proof.
  induction fuel as [|fuel IH]; intros s Hf; [lia|]. cbn [AsyncDemos.receive_loop].
  unfold Async.recv, Async.recv_identity. pose proof (recv_blocking_items (Async.recv_rx s)) as H.
  rewrite (recv_blocking_payloads (Async.recv_rx s)).
  destruct (recv_blocking (Async.recv_rx s)) as [rx [[from m]|]]; destruct H as [H1 H2]; cbn.
  - by rewrite IH by (cbn; lia).
  - by subst rx.
Qed.

(** What a client of either crate prints, and what a server of either crate has
    handed to its broker, if they get that far. *)
Definition client_output (c : crate) uuid uuid' (incoming : list delivery_event)
    (resolve : bytes -> io_result (list SocketAddr)) (parse_addr : bytes -> option SocketAddr) : option bytes :=
  match c with
  | SyncCrate =>
    match client_main uuid uuid' incoming resolve : option (Result (SInner * bytes)) with
    | Some (Good (_, out)) => Some out
    | _ => None
    end
  | AsyncCrate =>
    match AsyncDemos.client_main uuid uuid' incoming parse_addr : option (outcome (_ + (AInner * bytes))) with
    | Some (Returns (inr (_, out))) => Some out
    | _ => None
    end
  end.

Definition server_commands (c : crate) uuid uuid' (incoming : list delivery_event) listen
    (display : SocketAddr -> bytes) (times : list bytes) : option (list Broker.Command) :=
  match c with
  | SyncCrate =>
    match (server_main uuid uuid' incoming listen display times).2 : Result SInner with
    | Good s => Some (queued (cmd_tx s))
    | Bad _ => None
    end
  | AsyncCrate =>
    match (AsyncDemos.server_main uuid uuid' incoming listen display times).2 : _ + AInner with
    | inr s => Some (queued (Async.cmd_tx s))
    | inl _ => None
    end
  end.

Lemma client_prints c uuid uuid' incoming resolve parse_addr addr l :
  resolve server_addr = Ok (addr :: l) -> parse_addr server_addr = Some addr ->
  client_output c uuid uuid' incoming resolve parse_addr =
    Some (mjoin (print_message "received: " <$> omap payload incoming)).
Proof.
  intros Hr Hp. unfold client_output, client_main, AsyncDemos.client_main. rewrite Hr, Hp. destruct c.
  - unfold Socket.connect, connect_with. cbn [closed Socket.new Socket.build fst hd_error].
    set (sock := with_threads _ _). destruct (messages_give_all sock) as [_ E]. by rewrite E.
  - unfold Async.connect, Async.spawn_connect. cbn [Async.closed Async.new Async.build fst].
    by rewrite receive_loop_prints by (cbn; lia).
Qed.

Lemma server_publishes c uuid uuid' incoming listen display times listener addr :
  listen server_addr = Ok (listener, Ok addr) ->
  server_commands c uuid uuid' incoming listen display times = Some (sends (published times)).
Proof.
  intros Hl. unfold server_commands, server_main, AsyncDemos.server_main. destruct c.
  - unfold Socket.bind, bind_with. rewrite Hl. cbn [snd]. by rewrite publish_loop_sends.
  - unfold Async.bind. rewrite Hl. cbn [snd]. by rewrite async_publish_loop_sends.
Qed.
End Demo.

Lemma payloads_published a times :
  omap payload ((fun m => Incoming a m.2) <$> published times) = times.
Proof. unfold published. induction times as [|t times IH]; csimpl; [done|]. by rewrite IH. Qed.

(** C4: The two-process demo works, for either crate at either end.  Every time
    the server reads goes to its broker, whether or not the client is there yet;
    once it is, the client prints one line for each, in order, and nothing
    else, for whatever heartbeats come in between and every schedule of a
    session's loops.  The session is one of [reports]: the connection meets no
    I/O error, the HELLO comes in time, and the reads may be cut in any way,
    except that the read that completes the HELLO of a synchronous session ends
    at a frame boundary, and that no read of an asynchronous session takes the
    start of the next frame along with the end of one (none does when its
    buffer has exactly the size asked for). *)
Theorem server_to_client {L SA St TA TC SN} cA cB clockA clockB uuidA uuidB a b wA accA wB accB k times
    (listen : bytes -> io_result (L * io_result SA)) display resolve parse_addr listener bound addr others
    inA :
  BrokerAsync.monotone clockA -> BrokerAsync.monotone clockB ->
  length a = IDENTITY_SIZE -> length b = IDENTITY_SIZE -> length uuidA = 16 ->
  Forall fits_frame (published times) ->
  listen server_addr = Ok (listener, Ok bound) ->
  resolve server_addr = Ok (addr :: others) -> parse_addr server_addr = Some addr ->
  server_commands (Stream := St) (TlsAcceptor := TA) (TlsConnector := TC) (ServerName := SN)
    cA a uuidA inA listen display times = Some (sends (published times)) /\
  exists bA fxA cmdsB bB fxB,
    broker_run cA clockA Publish AtMostOnce uuidA
      (pair_commands b wA accA (published (take k times)) (published (drop k times))) = Some (Some bA, fxA) /\
    broker_run cB clockB RoundRobin AtMostOnce uuidB cmdsB = Some (Some bB, fxB) /\
    client_output (Listener := L) (SocketAddr := SA) (Stream := St) (TlsAcceptor := TA)
      (TlsConnector := TC) (ServerName := SN) cB b uuidB (omap delivered fxB) resolve parse_addr =
      Some (mjoin (print_message "received: " <$> times)) /\
    forall mbA mbB, omap mail_frame mbA = omap (frame_to wA) fxA ->
      reports false cB a b wB accB mbB (EndToEnd.written mbA) cmdsB.
Proof.
  intros HcA HcB Ha Hb Hu Hfit Hl Hr Hp. split; [by eapply server_publishes|].
  assert (Hsplit : published (take k times) ++ published (drop k times) = published times).
  { unfold published. by rewrite <- fmap_app, take_drop. }
  destruct (pair_runs cA cB clockA clockB Publish RoundRobin AtMostOnce AtMostOnce uuidA uuidB a b
    wA accA wB accB (published (take k times)) (published (drop k times)))
    as (envs & bA & fxA & bB & fxB & _ & _ & (EA & HfA & HmA) & (EB & Hd & _ & _) & _); try done;
    rewrite ?Hsplit; try done.
  { apply Forall_fmap, Forall_true. intros t. by left. }
  exists bA, fxA, (session_commands a wB accB envs), bB, fxB. split_and!; [done|done|..].
  - rewrite (client_prints cB _ _ _ _ _ addr others) by done.
    by rewrite Hd, Hsplit, payloads_published.
  - intros mbA mbB HA. apply session_reports; [done|by rewrite HA, HfA|done].
Qed.

Abbreviation demo_times := [str_bytes "09:00:00"; str_bytes "09:00:01"; str_bytes "09:00:02"].

(** An asynchronous server, a synchronous client that is there for the third
    time only. *)
Lemma server_to_client_witness :
  mjoin (print_message "received: " <$> demo_times) =
    str_bytes "received: 09:00:00" ++ newline ++ str_bytes "received: 09:00:01" ++ newline ++
    str_bytes "received: 09:00:02" ++ newline /\
  server_commands (Listener := unit) (SocketAddr := unit) (Stream := unit) (TlsAcceptor := unit)
    (TlsConnector := unit) (ServerName := unit) AsyncCrate peerA demo_uuid [] (fun _ => Ok (tt, Ok tt))
    (fun _ => server_addr) demo_times = Some (sends (published demo_times)) /\
  exists bA fxA cmdsB bB fxB,
    broker_run AsyncCrate BrokerAsync.ticking Publish AtMostOnce demo_uuid
      (pair_commands peerB 1 2 (published (take 2 demo_times)) (published (drop 2 demo_times))) =
      Some (Some bA, fxA) /\
    broker_run SyncCrate BrokerAsync.ticking RoundRobin AtMostOnce demo_uuid cmdsB = Some (Some bB, fxB) /\
    client_output (Listener := unit) (SocketAddr := unit) (Stream := unit) (TlsAcceptor := unit)
      (TlsConnector := unit) (ServerName := unit) SyncCrate peerB demo_uuid (omap delivered fxB)
      (fun _ => Ok [tt]) (fun _ => Some tt) =
      Some (mjoin (print_message "received: " <$> demo_times)) /\
    forall mbA mbB, omap mail_frame mbA = omap (frame_to 1) fxA ->
      reports false SyncCrate peerA peerB 3 4 mbB (EndToEnd.written mbA) cmdsB.
Proof.
  split; [vm_compute; reflexivity|].
  apply (server_to_client AsyncCrate SyncCrate BrokerAsync.ticking BrokerAsync.ticking demo_uuid demo_uuid peerA peerB 1 2 3 4 2
    demo_times (fun _ => Ok (tt, Ok tt)) (fun _ => server_addr) (fun _ => Ok [tt]) (fun _ => Some tt)
    tt tt tt [] [] BrokerAsync.ticking_monotone BrokerAsync.ticking_monotone).
  1-3: reflexivity.
  - repeat (constructor; [vm_compute; reflexivity|]). constructor.
  - reflexivity.
  - reflexivity.
  - reflexivity.
Defined.

(** ** The TLS demo *)

Definition hello_over_tls : bytes := str_bytes "hello over TLS".
Definition tls_demo_output (addr : bytes) : bytes :=
  str_bytes "server bound (TLS) on " ++ addr ++ newline ++
  str_bytes "client received: " ++ hello_over_tls ++ newline.

Section TlsDemo.
Context {Listener SocketAddr Stream TlsAcceptor TlsConnector ServerName : Type}.
Context {File Cert Key ServerBuilder ClientBuilder Roots : Type}.
Context `{!Rustls File Cert Key ServerBuilder ClientBuilder Roots TlsAcceptor TlsConnector}.

Lemma print_hello addr :
  (str_bytes "server bound (TLS) on " ++ addr ++ newline) ++
    print_message "client received: " hello_over_tls = tls_demo_output addr.
Proof. unfold tls_demo_output. by rewrite <- !app_assoc. Qed.

(** The TLS demo, in either crate.  With a certificate for "localhost" the
    server listens with it and the client dials the server's address and checks
    the certificate against that name and no other trust anchor; the message is
    handed to the server's broker, the client prints it when it arrives, and
    both sockets are closed, their loops over. *)
Theorem tls_demo_runs uuid1 uuid1' uuid2 uuid2' incoming1 incoming2 from rest
    (listen : bytes -> io_result (Listener * io_result SocketAddr)) display parse_name
    scfg ccfg listener addr (name : ServerName) :
  self_signed_configs (str_bytes "localhost") = Returns (scfg, ccfg) ->
  listen (str_bytes "127.0.0.1:0") = Ok (listener, Ok addr) ->
  parse_name (str_bytes "localhost") = Some name ->
  incoming2 = Incoming from hello_over_tls :: rest ->
  (exists cert key sb cb roots,
     generate_simple_self_signed [str_bytes "localhost"] = Some (cert, key) /\
     with_single_cert sb [cert] key = Some scfg /\ add_root empty_roots cert = Some roots /\
     ccfg = with_root_certificates cb roots) /\
  (exists server client : Socket.Inner Listener SocketAddr Stream TlsAcceptor TlsConnector ServerName,
     tls_main uuid1 uuid1' uuid2 uuid2' incoming1 incoming2 listen display parse_name =
       Returns (tls_demo_output (display addr), Good (server, client)) /\
     queued (cmd_tx server) = [Send None hello_over_tls; Close] /\
     queued (cmd_tx client) = [Close] /\
     joined server = [AcceptLoop listener (Loops.AcceptTls scfg)] /\
     joined client = [ConnectLoop addr (Loops.ConnectTls ccfg name)]) /\
  (exists server client : Async.Inner Listener SocketAddr TlsAcceptor TlsConnector ServerName,
     AsyncDemos.tls_main uuid1 uuid1' uuid2 uuid2' incoming1 incoming2 listen display parse_name =
       Returns (tls_demo_output (display addr), inr (server, client)) /\
     queued (Async.cmd_tx server) = [Send None hello_over_tls; Close] /\
     queued (Async.cmd_tx client) = [Close] /\
     Async.awaited server = [Async.AcceptLoop listener (LoopsAsync.AcceptTls scfg)] /\
     Async.awaited client = [Async.ConnectLoop addr (LoopsAsync.ConnectTls ccfg name)]).
Proof.
  intros Hc Hl Hn ->. split_and!.
  - pose proof (self_signed_returns _ _ _ Hc) as H. naive_solver.
  - unfold tls_main. rewrite Hc. cbn [mbind outcome_bind]. unfold Socket.bind_tls, bind_with. rewrite Hl.
    unfold Socket.connect_tls, connect_with. rewrite Hn.
    cbn [closed Socket.new Socket.build fst hd_error]. cbv zeta. unfold Socket.send. rewrite dispatch_open by done.
    cbn [recv_timeout recv_rx with_threads]. rewrite print_hello. by do 2 eexists.
  - unfold AsyncDemos.tls_main. change (@AsyncConfigs.self_signed_configs) with (@self_signed_configs).
    rewrite Hc. cbn [mbind outcome_bind]. unfold Async.bind_tls. rewrite Hl.
    unfold Async.connect_tls, Async.spawn_connect. rewrite Hn.
    cbn [Async.closed Async.new Async.build fst]. cbv zeta. unfold Async.send.
    rewrite async_dispatch_open by done. unfold Async.recv, Async.recv_identity.
    cbn [Async.recv_rx Async.with_tasks recv_blocking fmap option_fmap option_map snd].
    rewrite print_hello. by do 2 eexists.
Qed.
End TlsDemo.

Lemma tls_demo_runs_witness :
  let localhost := str_bytes "localhost" in
  exists server client : Socket.Inner unit bytes unit ToyServer (list bytes) bytes,
    tls_main demo_uuid demo_uuid demo_uuid demo_uuid [] [Incoming peerA hello_over_tls]
      (fun _ => Ok (tt, Ok server_addr)) (fun a => a) Some =
      Returns (tls_demo_output server_addr, Good (server, client)) /\
    queued (cmd_tx server) = [Send None hello_over_tls; Close] /\
    queued (cmd_tx client) = [Close] /\
    joined server = [AcceptLoop tt (Loops.AcceptTls (mkToyServer [localhost] localhost))] /\
    joined client = [ConnectLoop server_addr (Loops.ConnectTls [localhost] localhost)].
Proof.
  apply (tls_demo_runs demo_uuid demo_uuid demo_uuid demo_uuid [] [Incoming peerA hello_over_tls] peerA []
    (fun _ => Ok (tt, Ok server_addr)) (fun a => a) Some (mkToyServer [str_bytes "localhost"]
    (str_bytes "localhost")) [str_bytes "localhost"] tt server_addr (str_bytes "localhost"));
    reflexivity.
Defined.
