(* ===== verification/Twins.v ===== *)
(** * Twins: what the two crates each hold a copy of

    Several functions and constants exist twice in the repository, once per
    crate: the frame encoder, the error response, base64 and the opcodes of
    [ws.rs], the retry and heartbeat constants, and the command line of the
    conformance agents.  The other files model the synchronous crate's text;
    here, and for SHA-1 in [Sha1], the asynchronous crate's is translated on its
    own and shown to compute the same ([crates_write_alike],
    [agents_configure_alike]), so that a change to one copy and not to the other
    breaks the proof. *)

From S2P Require Import Prelude Protocol Timers Broker Base64 Sha1 WsFrame Upgrade Conn Agent.
From Stdlib Require Import Strings.Byte.

(** ** [rust-lib-async/src/ws.rs] *)

Module AsyncWs.
Local Open Scope Z_scope.

Definition WS_GUID : bytes := str_bytes "258EAFA5-E914-47DA-95CA-C5AB0DC85B11".
Definition OP_CONT : Z := 0x0.
Definition OP_TEXT : Z := 0x1.
Definition OP_BIN : Z := 0x2.
Definition OP_CLOSE : Z := 0x8.
Definition OP_PING : Z := 0x9.
Definition OP_PONG : Z := 0xA.
Definition MAX_REQUEST_BYTES : nat := Z.to_nat 8192.

(** [status.starts_with("426")]. *)
Definition error_response (status : string) : bytes :=
  if String.prefix "426" status then
    str_bytes "HTTP/1.1 " ++ str_bytes status ++ crlf ++
    str_bytes "Sec-WebSocket-Version: 13" ++ crlf ++ crlf
  else str_bytes "HTTP/1.1 " ++ str_bytes status ++ crlf ++ crlf.

Definition server_frame (opcode : Z) (payload : bytes) : bytes :=
  let n := zlen payload in
  let out := [byte_of_Z (Z.lor 0x80 opcode)] in
  let out :=
    if decide (n < 126) then out ++ [byte_of_Z n]
    else if decide (n < 65536) then (out ++ [byte_of_Z 126]) ++ to_be_bytes 2 (as_u16 n)
    else (out ++ [byte_of_Z 127]) ++ to_be_bytes 8 (as_u64 n) in
  out ++ payload.

Definition B64 : bytes :=
  str_bytes "ABCDEFGHIJKLMNOPQRSTUVWXYZabcdefghijklmnopqrstuvwxyz0123456789+/".

Definition b64_char (i : Z) : byte := nth (Z.to_nat i) B64 x00.

(** [data.chunks(3)]: pieces of three, the last one shorter. *)
Fixpoint chunks3 (data : bytes) : list bytes :=
  match data with
  | [] => []
  | a :: b :: c :: rest => [a; b; c] :: chunks3 rest
  | chunk => [chunk]
  end.

(** The body of the loop of [base64_encode]: what it pushes on [out]. *)
Definition push_chunk (out chunk : bytes) : bytes :=
  let b0 := nth 0 chunk x00 in
  let b1 := nth 1 chunk x00 in
  let b2 := nth 2 chunk x00 in
  let n := Z.lor (Z.lor (as_u32 (Z.shiftl (Z_of_byte b0) 16)) (as_u32 (Z.shiftl (Z_of_byte b1) 8)))
    (Z_of_byte b2) in
  let out := out ++ [b64_char (Z.land (Z.shiftr n 18) 0x3f)] in
  let out := out ++ [b64_char (Z.land (Z.shiftr n 12) 0x3f)] in
  let out := out ++ [if decide (1 < length chunk)%nat then b64_char (Z.land (Z.shiftr n 6) 0x3f)
                     else x3d] in
  out ++ [if decide (2 < length chunk)%nat then b64_char (Z.land n 0x3f) else x3d].

Definition base64_encode (data : bytes) : bytes := fold_left push_chunk (chunks3 data) [].

Definition in_range (c lo hi : byte) : bool :=
  bool_decide (Z_of_byte lo <= Z_of_byte c <= Z_of_byte hi).

Definition val (c : byte) : option Z :=
  if in_range c x41 x5a then Some (Z_of_byte c - Z_of_byte x41)
  else if in_range c x61 x7a then Some (Z_of_byte c - Z_of_byte x61 + 26)
  else if in_range c x30 x39 then Some (Z_of_byte c - Z_of_byte x30 + 52)
  else if decide (c = x2b) then Some 62
  else if decide (c = x2f) then Some 63
  else None.

(** [for &c in s { .. }] with [out], [acc] and [bits] as its state; [?] on a
    character that is no digit leaves the function. *)
Fixpoint decode_into (s out : bytes) (acc bits : Z) : option bytes :=
  match s with
  | [] => Some out
  | c :: s =>
    v ← val c;
    let acc := Z.lor (as_u32 (Z.shiftl acc 6)) v in
    let bits := bits + 6 in
    if decide (8 <= bits) then
      let bits := bits - 8 in
      decode_into s (out ++ [byte_of_Z (Z.shiftr acc bits)]) acc bits
    else decode_into s out acc bits
  end.

Definition base64_decode (s : bytes) : option bytes :=
  decode_into (trim_end_matches x3d s) [] 0 0.
End AsyncWs.

(** ** The constants of [protocol.rs], [broker.rs] and [conn.rs] *)

Module AsyncConsts.
Definition PROTOCOL_VERSION : byte := x01.
Definition IDENTITY_SIZE : nat := 16.
Definition MSG_ID_SIZE : nat := 16.
Definition T_HELLO : byte := x01.
Definition T_HEARTBEAT : byte := x02.
Definition T_DATA : byte := x03.
Definition T_DATA_REQ : byte := x04.
Definition T_ACK : byte := x05.
Definition RESEND_TIMEOUT : Z := 5000000000.
Definition MAX_RETRIES : nat := 5.
Definition HEARTBEAT_INTERVAL : Z := 5000000000.
Definition HEARTBEAT_TIMEOUT : Z := 15000000000.
End AsyncConsts.

(** ** [rust-lib-async/examples/conformance_agent.rs] *)

Module AsyncAgentArgs.

Fixpoint parse_loop (it : list bytes) (map : gmap bytes bytes) : gmap bytes bytes :=
  match it with
  | [] => map
  | key :: it =>
    match strip_prefix key dashes with
    | Some name =>
      match it with
      | value :: it => parse_loop it (<[name := value]> map)
      | [] => map
      end
    | None => parse_loop it map
    end
  end.

(** [std::env::args().skip(1)]. *)
Definition parse_args (argv : list bytes) : gmap bytes bytes := parse_loop (drop 1 argv) ∅.

(** The loop over [id.iter_mut().enumerate()], from slot [i] on. *)
Fixpoint fill_slots (hex : bytes) (i n : nat) : bytes :=
  match n with
  | O => []
  | S n =>
    match get2 hex i with
    | Some byte => byte_of_Z (default 0%Z (from_str_radix hex_digit 16 (2 ^ 8) byte))
    | None => x00
    end :: fill_slots hex (S i) n
  end.

Definition parse_identity (hex : bytes) : Identity := fill_slots hex 0 16.

(** [args.get(key).map(String::as_str).unwrap_or(default)]. *)
Definition get_or (args : gmap bytes bytes) (key default : string) : bytes :=
  match args !! str_bytes key with Some v => v | None => str_bytes default end.

(** The options as [run] reads them: a number that is missing or does not parse
    takes its default, an option is compared only when it is there. *)
Definition configure (args : gmap bytes bytes) : config :=
  mkConfig (get_or args "role" "connect") (get_or args "host" "127.0.0.1")
    (default 25000%Z (args !! str_bytes "port" ≫= parse_u16))
    (get_or args "behavior" "sink")
    (Z.to_nat (default 10%Z (args !! str_bytes "count" ≫= parse_usize)))
    (get_or args "prefix" "m")
    (default one (args !! str_bytes "linger" ≫= parse_f64))
    (bool_decide (args !! str_bytes "tls" = Some (str_bytes "true")))
    (if decide (args !! str_bytes "send-mode" = Some (str_bytes "publish")) then Publish
     else RoundRobin)
    (if decide (args !! str_bytes "delivery" = Some (str_bytes "at-least-once")) then AtLeastOnce
     else AtMostOnce)
    (parse_identity <$> args !! str_bytes "identity").
End AsyncAgentArgs.

(** ** They compute the same *)

Lemma push_chunk_eq out chunk : AsyncWs.push_chunk out chunk = out ++ encode_chunk chunk.
Proof. unfold AsyncWs.push_chunk. by rewrite <- !app_assoc. Qed.

Lemma fold_push chunks out :
  fold_left AsyncWs.push_chunk chunks out = out ++ mjoin (encode_chunk <$> chunks).
Proof.
  revert out. induction chunks as [|c chunks IH]; intros out; [by rewrite app_nil_r|].
  cbn [fold_left]. rewrite IH, push_chunk_eq. csimpl. by rewrite <- app_assoc.
Qed.

Lemma chunks3_encode n data :
  length data <= n -> mjoin (encode_chunk <$> AsyncWs.chunks3 data) = base64_encode data.
Proof.
  revert data. induction n as [|n IH]; intros data Hn; [by destruct data; simpl in *; [|lia]|].
  destruct data as [|a [|b [|c rest]]]; [done|reflexivity..|].
  cbn [AsyncWs.chunks3]. csimpl. rewrite IH; [done|simpl in *; lia].
Qed.

Lemma base64_encode_alike data : AsyncWs.base64_encode data = base64_encode data.
Proof. unfold AsyncWs.base64_encode. rewrite fold_push. by eapply chunks3_encode. Qed.

Lemma decode_into_eq s out acc bits :
  AsyncWs.decode_into s out acc bits = (fun l => out ++ l) <$> decode_loop s acc bits.
Proof.
  revert out acc bits. induction s as [|c s IH]; intros out acc bits; cbn [AsyncWs.decode_into decode_loop].
  { simpl. by rewrite app_nil_r. }
  change (AsyncWs.val c) with (Base64.val c). destruct (Base64.val c) as [v|]; [|done].
  cbn [mbind option_bind]. case_decide; rewrite IH; [|done].
  destruct (decode_loop s _ _); [|done]. simpl. by rewrite <- app_assoc.
Qed.

Lemma base64_decode_alike s : AsyncWs.base64_decode s = base64_decode s.
Proof.
  unfold AsyncWs.base64_decode, base64_decode. rewrite decode_into_eq.
  by destruct (decode_loop _ _ _).
Qed.

Lemma server_frame_alike opcode payload :
  AsyncWs.server_frame opcode payload = server_frame opcode payload.
Proof.
  unfold AsyncWs.server_frame, server_frame. by repeat case_decide; rewrite <- ?app_assoc.
Qed.

(** C40: The two crates write the same bytes in a WebSocket connection: the
    frames, the accept key and both responses of the handshake, SHA-1, and base64
    in both directions, for every input; and they use the same opcodes, key suffix,
    request limit, envelope types, sizes, version, resend time, retries and
    heartbeat times. *)
Theorem crates_write_alike :
  (forall opcode payload, AsyncWs.server_frame opcode payload = server_frame opcode payload) /\
  (forall status, AsyncWs.error_response status = error_response status) /\
  (forall key, AsyncResponse.success_response key = success_response key) /\
  (forall data, AsyncWs.base64_encode data = base64_encode data) /\
  (forall s, AsyncWs.base64_decode s = base64_decode s) /\
  (forall data, sha1 data = (s ← Sha1.update Sha1.new data; Sha1.finish s)) /\
  [AsyncWs.OP_CONT; AsyncWs.OP_TEXT; AsyncWs.OP_BIN; AsyncWs.OP_CLOSE; AsyncWs.OP_PING;
   AsyncWs.OP_PONG] = [OP_CONT; OP_TEXT; OP_BIN; OP_CLOSE; OP_PING; OP_PONG] /\
  AsyncWs.WS_GUID = WS_GUID /\ AsyncWs.MAX_REQUEST_BYTES = MAX_REQUEST_BYTES /\
  [AsyncConsts.PROTOCOL_VERSION; AsyncConsts.T_HELLO; AsyncConsts.T_HEARTBEAT; AsyncConsts.T_DATA;
   AsyncConsts.T_DATA_REQ; AsyncConsts.T_ACK] =
    [PROTOCOL_VERSION; T_HELLO; T_HEARTBEAT; T_DATA; T_DATA_REQ; T_ACK] /\
  AsyncConsts.IDENTITY_SIZE = IDENTITY_SIZE /\ AsyncConsts.MSG_ID_SIZE = MSG_ID_SIZE /\
  AsyncConsts.RESEND_TIMEOUT = RESEND_TIMEOUT /\ AsyncConsts.MAX_RETRIES = MAX_RETRIES /\
  AsyncConsts.HEARTBEAT_INTERVAL = HEARTBEAT_INTERVAL /\
  AsyncConsts.HEARTBEAT_TIMEOUT = HEARTBEAT_TIMEOUT.
Proof.
  split_and!; try done.
  - apply server_frame_alike.
  - intros key. unfold AsyncResponse.success_response, success_response.
    unfold compute_accept. by rewrite accept_key_eq, sha1_eq.
  - apply base64_encode_alike.
  - apply base64_decode_alike.
  - intros data. pose proof (incremental_is_one_shot [data]) as [H _].
    cbn [update_all mjoin list_join] in H. rewrite app_nil_r in H. rewrite <- H.
    by destruct (Sha1.update Sha1.new data).
Qed.

(** ** The agents' command lines *)

(** The two agents read every command line alike, although one compares an
    option with its default filled in and the other only when it is there. *)
Theorem agents_configure_alike argv :
  AsyncAgentArgs.configure (AsyncAgentArgs.parse_args argv) = configure (parse_args argv).
Proof.
  change (AsyncAgentArgs.parse_args argv) with (parse_args argv).
  set (args := parse_args argv). unfold AsyncAgentArgs.configure, configure.
  f_equal; unfold arg.
  - by destruct (args !! str_bytes "port").
  - by destruct (args !! str_bytes "count").
  - by destruct (args !! str_bytes "linger").
  - destruct (args !! str_bytes "tls") as [v|]; [|done].
    apply bool_decide_ext. split; [by intros [= ->]|by intros ->].
  - destruct (args !! str_bytes "send-mode") as [v|]; [|done].
    apply decide_ext. split; [by intros [= ->]|by intros ->].
  - destruct (args !! str_bytes "delivery") as [v|]; [|done].
    apply decide_ext. split; [by intros [= ->]|by intros ->].
Qed.
