(* ===== verification/UnitTests.v ===== *)
(** * UnitTests: the crates' own unit tests, run in the model

    The [#[cfg(test)]] modules of [protocol.rs] and [ws.rs] of both crates, one
    module here for each: their helpers and in-memory transports, and each test
    function as a boolean that is [true] when the test passes ([unwrap] of an
    error and a failed assertion are [false]).  [unit_tests_pass] runs them all.
    What a test shows for one input is then proved for all: the slow reader of
    the decoder test reassembles every stream ([trickle_reassembles]), and the
    frames the WebSocket tests feed in are the client frames of the
    specification ([client_frame_spec]). *)

From S2P Require Import Prelude Io Protocol WsFrame WsStream Sha1 Upgrade.
From Stdlib Require Import Strings.Byte.

(** ** [rust-lib-sync/src/protocol.rs], [mod tests] *)

Module ProtocolTests.
Import Protocol.

(** [frame.slice(4..)]. *)
Definition envelope_of (frame : bytes) : bytes := drop 4 frame.

Definition decodes (frame : bytes) (e : Envelope) : bool :=
  bool_decide (decode (envelope_of frame) = Some e).

Definition envelope_roundtrips : bool :=
  let id := replicate 16 x07 in
  let m := replicate 16 x09 in
  decodes (hello id) (Hello PROTOCOL_VERSION id) &&
  decodes heartbeat Heartbeat &&
  decodes (data (str_bytes "hi")) (Data (str_bytes "hi")) &&
  decodes (data_req m (str_bytes "p")) (DataReq m (str_bytes "p")) &&
  decodes (ack m) (Ack m).

Definition sneaky : bytes := x02 :: str_bytes "aiomsg-heartbeat".

Definition payload_never_collides_with_control_frames : bool :=
  decodes (data sneaky) (Data sneaky).

Definition empty_and_unknown_are_none : bool :=
  bool_decide (decode [] = None) && bool_decide (decode [xff; x78] = None).

(** A [Vec<u8>] takes every write whole; a [Cursor] gives what is there. *)
Definition frame_roundtrip : bool :=
  match write_frame (mkTcp [] [] []) (data (str_bytes "framed")) with
  | Some (buf, Ok _) =>
    match read_frame (mkTcp [RChunk (sent buf)] [] []) with
    | Some (cursor, Ok (Some frame)) =>
      bool_decide (decode frame = Some (Data (str_bytes "framed"))) &&
      match read_frame cursor with Some (_, Ok None) => true | _ => false end
    | _ => false
    end
  | _ => false
  end.

(** A reader that stalls once before each chunk. *)
Record Trickle := mkTrickle {
  t_data : bytes;
  t_pos : nat;
  t_chunk : nat;
  t_stalled : bool;
}.

(** [buf[..n]] is in range when the caller's buffer holds a chunk, as the
    decoder's does. *)
Definition trickle_read (t : Trickle) (_ : nat) : Trickle * io_result bytes :=
  if decide (length (t_data t) <= t_pos t) then (t, Ok [])
  else if negb (t_stalled t) then
    (mkTrickle (t_data t) (t_pos t) (t_chunk t) true, Err WouldBlock)
  else
    let n := t_chunk t `min` (length (t_data t) - t_pos t) in
    (mkTrickle (t_data t) (t_pos t + n) (t_chunk t) false,
     Ok (take n (drop (t_pos t) (t_data t)))).

#[export] Instance trickle_Read : Read Trickle := {
  read := trickle_read;
  read_fuel t := 2 * (length (t_data t) - t_pos t) + (if t_stalled t then 0 else 1);
}.

(** The test's loop: poll until closed, decoding each frame. *)
Definition collect (fuel : nat) (dec : FrameDecoder) (src : Trickle) : option (list Envelope) :=
  match poll_frames fuel dec src with
  | Some (frames, _, Ok _) => mapM decode frames
  | _ => None
  end.

Definition decoder_reassembles_across_partial_and_timed_out_reads : bool :=
  match write_frame (mkTcp [] [] []) (data (str_bytes "hello")) with
  | Some (wire, Ok _) =>
    match write_frame wire (data (str_bytes "world")) with
    | Some (wire, Ok _) =>
      let src := mkTrickle (sent wire) 0 3 false in
      bool_decide (collect (3 + 2 * length (sent wire)) FrameDecoder.new src
        = Some [Data (str_bytes "hello"); Data (str_bytes "world")])
    | _ => false
    end
  | _ => false
  end.

Definition all : list bool :=
  [envelope_roundtrips; payload_never_collides_with_control_frames; empty_and_unknown_are_none;
   frame_roundtrip; decoder_reassembles_across_partial_and_timed_out_reads].
End ProtocolTests.

(** ** [rust-lib-sync/src/ws.rs], [mod tests] *)

Module WsTests.

(** Canned input, captured output; end of file when the input is used up. *)
Record Duplex := mkDuplex {
  input : bytes;
  output : bytes;
}.

Definition new_duplex (input : bytes) : Duplex := mkDuplex input [].

Definition duplex_read (d : Duplex) (n : nat) : Duplex * io_result bytes :=
  (mkDuplex (drop n (input d)) (output d), Ok (take n (input d))).

Definition duplex_write (d : Duplex) (buf : bytes) : Duplex * io_result nat :=
  (mkDuplex (input d) (output d ++ buf), Ok (length buf)).

#[export] Instance duplex_Read : Read Duplex := {
  read := duplex_read;
  read_fuel d := length (input d);
}.

#[export] Instance duplex_Write : Write Duplex := {
  write := duplex_write;
  flush d := (d, Ok tt);
  write_fuel _ := 0;
}.

(** The transport keeps the laws the adapter is proved against. *)
#[export] Instance duplex_ReadLaws : ReadLaws Duplex.
Proof.
  split; cbn [read read_fuel duplex_Read]; unfold duplex_read; intros; simplify_eq/=; len_solve.
Qed.

#[export] Instance duplex_WriteLaws : WriteLaws Duplex.
Proof. split; cbn [write write_fuel duplex_Write]; unfold duplex_write; intros; by simplify_eq/=. Qed.

#[export] Instance duplex_DuplexLaws : DuplexLaws Duplex.
Proof.
  split; cbn [write flush read_fuel duplex_Write duplex_Read]; unfold duplex_write; intros; by simplify_eq/=.
Qed.

Definition mask : bytes := [xa1; xb2; xc3; xd4].

Definition client_frame (opcode : Z) (payload : bytes) (fin : bool) : bytes :=
  let n := zlen payload in
  let out := [byte_of_Z (Z.lor (if fin then 0x80 else 0) opcode)] in
  let out :=
    if decide (n < 126)%Z then out ++ [byte_of_Z (Z.lor 0x80 n)]
    else if decide (n < 65536)%Z then
      out ++ [byte_of_Z (Z.lor 0x80 126)] ++ to_be_bytes 2 (as_u16 n)
    else out ++ [byte_of_Z (Z.lor 0x80 127)] ++ to_be_bytes 8 (as_u64 n) in
  out ++ mask ++
  imap (fun i b => byte_of_Z (Z.lxor (Z_of_byte b)
    (Z_of_byte (nth (Z.to_nat (Z.land (Z.of_nat i) 3)) mask x00)))) payload.

(** [None] is the panic of [unwrap]; each turn but the last reads something. *)
Fixpoint read_all_loop (fuel : nat) (ws : WsStream Duplex) (n : nat) (got : bytes)
  : option (WsStream Duplex * bytes) :=
  match fuel with
  | O => None
  | S fuel =>
    if decide (length got < n) then
      match ws_read ws 512 with
      | Some (ws, Ok []) => Some (ws, got)
      | Some (ws, Ok bs) => read_all_loop fuel ws n (got ++ bs)
      | _ => None
      end
    else Some (ws, got)
  end.

Definition read_all (ws : WsStream Duplex) (n : nat) : option (WsStream Duplex * bytes) :=
  read_all_loop (2 + n) ws n [].

(** [assert_eq!(read_all(&mut ws, n), got)] and then
    [assert_eq!(ws.inner.output, out)]. *)
Definition reads (frames : bytes) (n : nat) (got out : bytes) : bool :=
  match read_all (WsStream.new (new_duplex frames) []) n with
  | Some (ws, bs) => bool_decide (bs = got) && bool_decide (output (inner ws) = out)
  | None => false
  end.

Definition accept_key_rfc_vector : bool :=
  bool_decide (accept_key (str_bytes "dGhlIHNhbXBsZSBub25jZQ==")
    = Some (str_bytes "s3pPLMBiTxaQ9kYGzzhZRbK+xOo=")).

(** A request: its lines, each ended by CRLF, and an empty one. *)
Definition request (lines : list string) : bytes :=
  mjoin ((fun l => str_bytes l ++ crlf) <$> lines) ++ crlf.

Definition valid_key : string := "Sec-WebSocket-Key: dGhlIHNhbXBsZSBub25jZQ==".

Definition parse_upgrade_valid : bool :=
  match parse_upgrade (request ["GET /chat HTTP/1.1"; "Host: x"; "Upgrade: websocket";
      "Connection: keep-alive, Upgrade"; valid_key; "Sec-WebSocket-Version: 13";
      "Origin: http://evil"]%string) with
  | Accepted key => bool_decide (as_bytes key = str_bytes "dGhlIHNhbXBsZSBub25jZQ==")
  | Rejected _ => false
  end.

Definition rejected_cases : list (list string * string) :=
  [ (["POST / HTTP/1.1"; "Upgrade: websocket"; "Connection: Upgrade"; valid_key;
      "Sec-WebSocket-Version: 13"], "400");
    (["GET / HTTP/1.1"; "Connection: Upgrade"; valid_key; "Sec-WebSocket-Version: 13"], "400");
    (["GET / HTTP/1.1"; "Upgrade: websocket"; "Connection: Upgrade"; valid_key;
      "Sec-WebSocket-Version: 8"], "426");
    (["GET / HTTP/1.1"; "Upgrade: websocket"; "Connection: Upgrade";
      "Sec-WebSocket-Key: short"; "Sec-WebSocket-Version: 13"], "400") ]%string.

Definition parse_upgrade_rejects : bool :=
  forallb (fun '(lines, status) =>
    match parse_upgrade (request lines) with
    | Rejected s => String.prefix status s
    | Accepted _ => false
    end) rejected_cases.

Definition masked_binary_unmasked_into_stream : bool :=
  reads (client_frame OP_BIN (str_bytes "aiomsg-payload") true) 14 (str_bytes "aiomsg-payload") [].

Definition fragmented_binary_reassembles : bool :=
  reads (client_frame OP_BIN (str_bytes "abc") false ++
         client_frame OP_CONT (str_bytes "def") false ++
         client_frame OP_CONT (str_bytes "ghi") true) 9 (str_bytes "abcdefghi") [].

Definition ping_gets_pong_then_data : bool :=
  reads (client_frame OP_PING (str_bytes "pingdata") true ++
         client_frame OP_BIN (str_bytes "XY") true) 2 (str_bytes "XY")
    (server_frame OP_PONG (str_bytes "pingdata")).

Definition close_frame_echoes_and_ends : bool :=
  reads (client_frame OP_CLOSE (to_be_bytes 2 1000) true) 1 []
    (server_frame OP_CLOSE (to_be_bytes 2 1000)).

Definition text_frame_rejected_1003 : bool :=
  reads (client_frame OP_TEXT (str_bytes "hi") true) 1 []
    (server_frame OP_CLOSE (to_be_bytes 2 1003)).

Definition unmasked_frame_rejected_1002 : bool :=
  reads ([byte_of_Z (Z.lor 0x80 OP_BIN); x04] ++ str_bytes "nope") 1 []
    (server_frame OP_CLOSE (to_be_bytes 2 1002)).

Definition one_binary_frame_per_write : bool :=
  let buf := [x00; x00; x00; x03] ++ str_bytes "abc" in
  match write_all (WsStream.new (new_duplex []) []) buf with
  | Some (ws, Ok _) => bool_decide (output (inner ws) = server_frame OP_BIN buf)
  | _ => false
  end.

Definition all : list bool :=
  [accept_key_rfc_vector; parse_upgrade_valid; parse_upgrade_rejects;
   masked_binary_unmasked_into_stream; fragmented_binary_reassembles; ping_gets_pong_then_data;
   close_frame_echoes_and_ends; text_frame_rejected_1003; unmasked_frame_rejected_1002;
   one_binary_frame_per_write].
End WsTests.

(** ** The frames the tests feed in *)

Section ClientFrame.
Local Open Scope Z_scope.

Lemma lor_high m v : 0 <= v < 128 -> Z.lor (if m : bool then 0x80 else 0) v = bit m 0x80 + v.
Proof.
  intros Hv. destruct m; [|done]. cbn [bit].
  assert (H : forallb (fun v => Z.lor 0x80 v =? 0x80 + v) (seqZ 0 128) = true)
    by (vm_compute; reflexivity).
  rewrite forallb_forall in H. apply Z.eqb_eq, H, list_elem_of_In, elem_of_seqZ. lia.
Qed.

Lemma unmask_imap k mask p :
  unmask_from (Z.of_nat k) mask p =
  imap (fun i b => byte_of_Z (Z.lxor (Z_of_byte b)
    (Z_of_byte (nth (Z.to_nat (Z.land (Z.of_nat (k + i)) 3)) mask x00)))) p.
Proof.
  revert k. induction p as [|b p IH]; intros k; [done|]. cbn [unmask_from]. rewrite imap_cons.
  rewrite Nat.add_0_r. f_equal. replace (Z.of_nat k + 1) with (Z.of_nat (S k)) by lia.
  rewrite IH. apply imap_ext. intros i c _. simpl. by rewrite Nat.add_succ_r.
Qed.

(** The tests' [client_frame] builds the masked frame of the specification,
    for every opcode and every payload a [u64] can measure. *)
Theorem client_frame_spec opcode payload fin :
  0 <= opcode < 16 -> zlen payload < 2 ^ 64 ->
  WsTests.client_frame opcode payload fin = WsFrame.client_frame fin opcode WsTests.mask payload.
Proof.
  intros Ho Hn. unfold WsTests.client_frame, WsFrame.client_frame, header.
  pose proof (zlen_nonneg payload). rewrite lor_high by lia.
  change (unmask_from 0) with (unmask_from (Z.of_nat 0)). rewrite unmask_imap. cbn [Nat.add].
  set (m := imap _ _). case_decide; [|case_decide].
  - rewrite (lor_high true) by lia. done.
  - rewrite (lor_high true), wrap_to_small by lia. by rewrite <- !app_assoc.
  - rewrite (lor_high true), wrap_to_small by lia. by rewrite <- !app_assoc.
Qed.

Lemma client_frame_spec_witness :
  WsTests.client_frame OP_PING [x61; x62] true
    = WsFrame.client_frame true OP_PING WsTests.mask [x61; x62].
Proof. apply client_frame_spec; vm_compute; intuition congruence. Defined.
End ClientFrame.

(** ** The slow reader *)

Section TrickleRuns.
Import ProtocolTests.

(** What a [Trickle] will do, as a transcript. *)
Fixpoint stalls (fuel chunk : nat) (rest : bytes) : list read_event :=
  match fuel, rest with
  | S fuel, _ :: _ =>
    RFail WouldBlock :: RChunk (take chunk rest) :: stalls fuel chunk (drop chunk rest)
  | _, _ => []
  end.

(** A [Trickle] and the transcript of the rest of its run. *)
Definition behaves (t : Trickle) (s : list read_event) : Prop :=
  let rest := drop (t_pos t) (t_data t) in
  if t_stalled t then
    rest <> [] /\ exists fuel, length rest <= fuel + t_chunk t /\
      s = RChunk (take (t_chunk t) rest) :: stalls fuel (t_chunk t) (drop (t_chunk t) rest)
  else exists fuel, length rest <= fuel /\ s = stalls fuel (t_chunk t) rest.

Lemma trickle_behaves t s n :
  behaves t s -> 0 < t_chunk t <= n ->
  exists t' s' r, trickle_read t n = (t', r) /\ script_read s n = (s', r) /\
    behaves t' s' /\ t_chunk t' = t_chunk t.
Proof.
  destruct t as [d pos c st]. unfold behaves, trickle_read. cbn [t_data t_pos t_chunk t_stalled].
  intros Hb Hc. set (rest := drop pos d) in *.
  assert (Hlen : length rest = length d - pos) by apply length_drop.
  case_decide as Hend.
  { assert (Hr : rest = []) by (apply nil_length_inv; lia). rewrite Hr in *.
    destruct st; [by destruct Hb|]. destruct Hb as (fuel & _ & ->).
    eexists _, [], _. split; [done|]. split; [by destruct fuel|].
    cbn [t_data t_pos t_chunk t_stalled]. fold rest. rewrite Hr.
    split; [|done]. exists 0. by split; [simpl; lia|]. }
  destruct st; cbn [negb].
  - destruct Hb as (Hne & fuel & Hf & ->). cbn [script_read].
    rewrite decide_True by len_solve. eexists _, _, _. split; [done|].
    split; [by rewrite <- Hlen, <- take_take, (take_ge rest (length rest)) by done|].
    cbn [t_data t_pos t_chunk t_stalled]. split; [|done]. exists fuel.
    rewrite <- drop_drop. fold rest. rewrite <- Hlen.
    destruct (decide (c <= length rest)).
    + rewrite Nat.min_l by done. split; [len_solve|done].
    + rewrite Nat.min_r by lia. rewrite !drop_ge by lia. split; [simpl; lia|done].
  - destruct Hb as (fuel & Hf & ->). destruct fuel as [|fuel]; [lia|].
    destruct rest as [|b l] eqn:Hr; [simpl in *; lia|]. cbn [stalls script_read].
    eexists _, _, _. split; [done|]. split; [done|].
    cbn [t_data t_pos t_chunk t_stalled]. fold rest. rewrite Hr. split; [|done].
    split; [done|]. exists fuel. split; [lia|done].
Qed.

Lemma poll_trickle fuel d t s :
  behaves t s -> 0 < t_chunk t <= Protocol.chunk_len d ->
  poll_frames fuel d t = poll_frames fuel d s.
Proof.
  revert d t s. induction fuel as [|fuel IH]; intros d t s Hb Hc; [done|].
  cbn [poll_frames]. unfold FrameDecoder.read1.
  destruct (FrameDecoder.take_frame d) as [[f|] d1] eqn:Ht.
  { apply take_frame_Some in Ht as (_ & _ & Hcl). by rewrite (IH d1 t s) by (done || lia). }
  apply take_frame_None in Ht as [-> _]. cbn [read trickle_Read script_Read].
  destruct (trickle_behaves t s (Protocol.chunk_len d) Hb Hc) as (t' & s' & r & -> & -> & Hb' & Hc').
  destruct r as [[|b bs]|e]; [done| |].
  - destruct (FrameDecoder.take_frame (FrameDecoder.extend_from d (b :: bs))) as [[f|] d2] eqn:Ht2.
    + apply take_frame_Some in Ht2 as (_ & _ & Hcl). cbn in Hcl.
      by rewrite (IH d2 t' s') by (done || lia).
    + apply take_frame_None in Ht2 as [-> _]. apply IH; [done|cbn; lia].
  - destruct (transient e); [|done]. apply IH; [done|lia].
Qed.

Lemma stalls_script fuel chunk rest :
  0 < chunk -> length rest <= fuel ->
  script_bytes (stalls fuel chunk rest) = rest /\ Forall benign (stalls fuel chunk rest).
Proof.
  intros Hc. revert rest. induction fuel as [|fuel IH]; intros rest Hf.
  { assert (rest = []) as -> by (apply nil_length_inv; lia). by repeat constructor. }
  destruct rest as [|b l]; [by repeat constructor|]. simpl in Hf.
  destruct (IH (drop chunk (b :: l))) as [H1 H2]; [len_solve|].
  change (stalls (S fuel) chunk (b :: l)) with
    (RFail WouldBlock :: RChunk (take chunk (b :: l)) :: stalls fuel chunk (drop chunk (b :: l))).
  split.
  - unfold script_bytes in *. csimpl. rewrite H1. apply (take_drop chunk (b :: l)).
  - constructor; [done|]. constructor; [|done]. destruct chunk; [lia|done].
Qed.

(** The test's claim for every input: whatever the frames on the wire and
    however few bytes the reader gives at a time, stalling before each chunk,
    the decoder returns every frame, whole and in order, and then the end. *)
Theorem trickle_reassembles bodies chunk fuel :
  Forall small bodies -> 0 < chunk <= 16 * 1024 ->
  length bodies + script_fuel (stalls (length (wire bodies)) chunk (wire bodies)) < fuel ->
  poll_frames fuel FrameDecoder.new (mkTrickle (wire bodies) 0 chunk false)
    = Some (bodies, FrameDecoder.new, Ok tt).
Proof.
  intros Hb Hc Hf. set (s := stalls (length (wire bodies)) chunk (wire bodies)) in *.
  rewrite (poll_trickle _ _ _ s); [|by exists (length (wire bodies))|done].
  destruct (stalls_script (length (wire bodies)) chunk (wire bodies)) as [H1 H2]; [lia|done|].
  rewrite (poll_frames_reassembles fuel FrameDecoder.new s bodies []);
    [done|done|cbn; lia|done|done|apply partial_nil|].
  unfold s. by rewrite H1, app_nil_r.
Qed.

Lemma trickle_reassembles_witness :
  poll_frames 40 FrameDecoder.new (mkTrickle (wire [[x03; x41]; [x02]]) 0 3 false)
    = Some ([[x03; x41]; [x02]], FrameDecoder.new, Ok tt).
Proof.
  apply (trickle_reassembles [[x03; x41]; [x02]] 3 40).
  - by repeat constructor.
  - split; [lia|]. apply Nat.leb_le. vm_compute. reflexivity.
  - apply Nat.ltb_lt. vm_compute. reflexivity.
Defined.
End TrickleRuns.
