(* ===== verification/UnitTestsAsync.v ===== *)
(** * UnitTestsAsync: the asynchronous crate's unit tests, run in the model

    The [#[cfg(test)]] modules of [rust-lib-async/src/protocol.rs] and [ws.rs],
    as [UnitTests] does for the synchronous crate, and the theorem that every
    unit test of both crates passes.  [tokio::io::duplex] is the connection
    [ATcp] with the client's frames at its front and nothing behind them: a read
    that would have to wait for more makes the test fail rather than end the
    stream. *)

From S2P Require Import Prelude Io Protocol ProtocolAsync WsFrame Sha1 Upgrade WsAsync UnitTests.
From Stdlib Require Import Strings.Byte.

(** ** [rust-lib-async/src/protocol.rs], [mod tests] *)

Module AsyncProtocolTests.

Definition envelope_of (frame : bytes) : bytes := drop 4 frame.

Definition decodes (frame : bytes) (e : Envelope) : bool :=
  bool_decide (Async.decode (envelope_of frame) = Some e).

Definition hello_roundtrip : bool :=
  let id := replicate 16 x07 in
  decodes (Async.hello id) (Hello PROTOCOL_VERSION id).

Definition heartbeat_roundtrip : bool := decodes Async.heartbeat Heartbeat.

Definition data_roundtrip : bool :=
  decodes (Async.data (str_bytes "hello")) (Protocol.Data (str_bytes "hello")).

Definition data_req_and_ack_roundtrip : bool :=
  let msg_id := replicate 16 x09 in
  decodes (Async.data_req msg_id (str_bytes "payload")) (DataReq msg_id (str_bytes "payload")) &&
  decodes (Async.ack msg_id) (Ack msg_id).

Definition sneaky : bytes := x02 :: str_bytes "aiomsg-heartbeat".

Definition payload_never_collides_with_control_frames : bool :=
  decodes (Async.data sneaky) (Protocol.Data sneaky).

Definition empty_and_unknown_are_none : bool :=
  bool_decide (Async.decode [] = None) &&
  bool_decide (Async.decode (xff :: str_bytes "whatever") = None).

(** A [Vec<u8>] takes what is written, a [Cursor] over it gives it back. *)
Definition frame_roundtrip : bool :=
  match write_frame_async (mkDuplex (mkPipe 0 []) []) (Async.data (str_bytes "framed")) with
  | (buf, Ok _) =>
    match read_frame_async id (mkPipe 100 (written buf)) with
    | Some (cursor, Ok (Some frame)) =>
      bool_decide (Async.decode frame = Some (Protocol.Data (str_bytes "framed"))) &&
      match read_frame_async id cursor with Some (_, Ok None) => true | _ => false end
    | _ => false
    end
  | _ => false
  end.

Definition all : list bool :=
  [hello_roundtrip; heartbeat_roundtrip; data_roundtrip; data_req_and_ack_roundtrip;
   payload_never_collides_with_control_frames; empty_and_unknown_are_none; frame_roundtrip].
End AsyncProtocolTests.

(** ** [rust-lib-async/src/ws.rs], [mod tests] *)

Module AsyncWsTests.

Definition mask : bytes := [xa1; xb2; xc3; xd4].

Definition client_frame (opcode : Z) (payload : bytes) (fin : bool) : bytes :=
  let n := zlen payload in
  let out := [byte_of_Z (Z.lor (if fin then 0x80 else 0) opcode)] in
  let out :=
    if decide (n < 126)%Z then out ++ [byte_of_Z (Z.lor 0x80 n)]
    else if decide (n < 65536)%Z then
      out ++ [byte_of_Z (Z.lor 0x80 126)] ++ to_be_bytes 2 (as_u16 n)
    else out ++ [byte_of_Z (Z.lor 0x80 127)] ++ to_be_bytes 8 (as_u64 n) in
  out ++ mask ++
  imap (fun i b => byte_of_Z (Z.lxor (Z_of_byte b)
    (Z_of_byte (nth (Z.to_nat (Z.land (Z.of_nat i) 3)) mask x00)))) payload.

Definition accept_key_rfc_vector : bool :=
  bool_decide (compute_accept (str_bytes "dGhlIHNhbXBsZSBub25jZQ==")
    = Some (str_bytes "s3pPLMBiTxaQ9kYGzzhZRbK+xOo=")).

Definition rejects (lines : list string) (status : string) : bool :=
  match Async.parse_upgrade (WsTests.request lines) with
  | Rejected s => bool_decide (s = status)
  | Accepted _ => false
  end.

Definition parse_upgrade_ok_and_rejects : bool :=
  match Async.parse_upgrade (WsTests.request ["GET / HTTP/1.1"; "Host: x"; "Upgrade: websocket";
      "Connection: keep-alive, Upgrade"; WsTests.valid_key; "Sec-WebSocket-Version: 13"]%string) with
  | Accepted key => bool_decide (as_bytes key = str_bytes "dGhlIHNhbXBsZSBub25jZQ==")
  | Rejected _ => false
  end &&
  rejects ["GET / HTTP/1.1"; "Connection: Upgrade"; WsTests.valid_key;
    "Sec-WebSocket-Version: 13"]%string "400 Bad Request" &&
  rejects ["GET / HTTP/1.1"; "Upgrade: websocket"; "Connection: Upgrade"; WsTests.valid_key;
    "Sec-WebSocket-Version: 8"]%string "426 Upgrade Required" &&
  rejects ["GET / HTTP/1.1"; "Upgrade: websocket"; "Connection: Upgrade";
    "Sec-WebSocket-Key: short"; "Sec-WebSocket-Version: 13"]%string "400 Bad Request".

(** The client's end stays open: behind the frames there is nothing to read
    yet. *)
Definition ws_over (frames : bytes) : WsStream ATcp :=
  WsAsync.new (mkATcp [AChunk frames; AWait] [] []).

(** [ws.read(&mut [0; n]).await.unwrap()]; [None] when it would wait or fail. *)
Definition read_now (ws : WsStream ATcp) (n : nat) : option (WsStream ATcp * bytes) :=
  match ws_poll_read ws n with
  | Some (ws, Ready (Ok bs)) => Some (ws, bs)
  | _ => None
  end.

(** [read_exact] of tokio: read until the buffer is full; the end of the stream
    before that is an error. *)
Fixpoint read_exact_loop (fuel : nat) (ws : WsStream ATcp) (n : nat) (got : bytes)
  : option (WsStream ATcp * bytes) :=
  match fuel with
  | O => None
  | S fuel =>
    if decide (length got < n) then
      match read_now ws (n - length got) with
      | Some (_, []) | None => None
      | Some (ws, bs) => read_exact_loop fuel ws n (got ++ bs)
      end
    else Some (ws, got)
  end.

Definition read_exact (ws : WsStream ATcp) (n : nat) : option (WsStream ATcp * bytes) :=
  read_exact_loop (S n) ws n [].

(** [c.read_exact(&mut got)] at the client's end: the first bytes the server
    has sent. *)
Definition client_gets (ws : WsStream ATcp) (expected : bytes) (n : nat) : bool :=
  bool_decide (n <= length (asent (inner ws))) &&
  bool_decide (take n (asent (inner ws)) = expected).

Definition flushed (ws : WsStream ATcp) : option (WsStream ATcp) :=
  match ws_poll_flush ws with Some (ws, Ready (Ok _)) => Some ws | _ => None end.

Definition delivers (frames : bytes) (expected : bytes) : bool :=
  match read_exact (ws_over frames) (length expected) with
  | Some (_, got) => bool_decide (got = expected)
  | None => false
  end.

(** The stream ends and the client is sent this close frame. *)
Definition ends_with_close (frames : bytes) (code : Z) : bool :=
  match read_now (ws_over frames) 1 with
  | Some (ws, []) => client_gets ws (server_frame OP_CLOSE (to_be_bytes 2 code)) 4
  | _ => false
  end.

Definition masked_binary_unmasked_into_stream : bool :=
  delivers (client_frame OP_BIN (str_bytes "aiomsg-payload") true) (str_bytes "aiomsg-payload").

Definition fragmented_binary_reassembles : bool :=
  delivers (client_frame OP_BIN (str_bytes "abc") false ++
            client_frame OP_CONT (str_bytes "def") false ++
            client_frame OP_CONT (str_bytes "ghi") true) (str_bytes "abcdefghi").

Definition ping_gets_pong_then_data : bool :=
  match read_exact (ws_over (client_frame OP_PING (str_bytes "pingdata") true ++
                             client_frame OP_BIN (str_bytes "XY") true)) 2 with
  | Some (ws, got) =>
    bool_decide (got = str_bytes "XY") &&
    match flushed ws with
    | Some ws => client_gets ws (server_frame OP_PONG (str_bytes "pingdata")) 10
    | None => false
    end
  | None => false
  end.

Definition text_frame_rejected_1003 : bool :=
  ends_with_close (client_frame OP_TEXT (str_bytes "hi") true) 1003.

Definition close_frame_echoed_and_eof : bool :=
  ends_with_close (client_frame OP_CLOSE (to_be_bytes 2 1000) true) 1000.

Definition unmasked_frame_rejected_1002 : bool :=
  ends_with_close ([x82; x04] ++ str_bytes "nope") 1002.

Definition write_emits_one_binary_frame : bool :=
  let buf := [x00; x00; x00; x03] ++ str_bytes "abc" in
  match ws_poll_write (ws_over []) buf with
  | Some (ws, Ready (Ok n)) =>
    bool_decide (n = length buf) &&
    match flushed ws with
    | Some ws =>
      let expected := server_frame OP_BIN buf in client_gets ws expected (length expected)
    | None => false
    end
  | _ => false
  end.

Definition all : list bool :=
  [accept_key_rfc_vector; parse_upgrade_ok_and_rejects; masked_binary_unmasked_into_stream;
   fragmented_binary_reassembles; ping_gets_pong_then_data; text_frame_rejected_1003;
   close_frame_echoed_and_eof; unmasked_frame_rejected_1002; write_emits_one_binary_frame].
End AsyncWsTests.

(** Every unit test of both crates, for the wire protocol and for the
    WebSocket layer, passes when it is run on the definitions of this
    development. *)
Theorem unit_tests_pass :
  Forall (fun b => b = true)
    (ProtocolTests.all ++ WsTests.all ++ AsyncProtocolTests.all ++ AsyncWsTests.all).
Proof. apply (bool_decide_unpack _). vm_compute. exact I. Qed.
